(* ===== verification/_CoqProject ===== *)
-Q . S2P
Prelude.v
GoMonad.v
Prog.v
Strconv.v
Storage.v
Coder.v
MemKV.v
MetricsStore.v
Badger.v
BadgerSpec.v
Tikv.v
TikvSpec.v
Proto.v
Metrics.v
MetricsSpec.v
Emitters.v
MetricsExport.v
Tso.v
Ring.v
Mvcc.v
Creator.v
Scanner.v
ScanSpec.v
ScanRead.v
Compaction.v
Queue.v
Backend.v
BackendSpec.v
Refinement.v
WorkerProg.v
ScanProg.v
BackendReads.v
Concurrent.v
CompactRange.v
Options.v
Endpoint.v
EndpointSpec.v
Assembly.v
NetUtil.v
Pipeline.v
Watch.v
HubSpec.v
WatchSpec.v
RetrySpec.v
RetryLoop.v
History.v
ConcurrentSpec.v
ConcurrentQuiet.v
ConcurrentReads.v
ConcurrentCompact.v
ConcurrentPool.v
Etcd.v
EtcdSpec.v
Brain.v
BrainStream.v
Election.v
ElectionSpec.v
Revision.v
Follower.v
EtcdWatch.v
EtcdWatchSpec.v
EtcdProxy.v
EtcdProxySpec.v
Concrete.v
StorageTheorems.v
EngineTheorems.v
TikvTheorems.v
BackendTheorems.v
PipelineTheorems.v
ElectionTheorems.v
PeerTheorems.v
ConcurrencyTheorems.v
StreamTheorems.v
ProxyTheorems.v
Command.v
OptionTheorems.v
CommandTheorems.v
ServerTheorems.v
MetricsTheorems.v
EndpointTheorems.v
