(* ===== verification/Prelude.v ===== *)
(** * KubeBrain: a verification of its storage, backend and API layers

    KubeBrain serves the part of the etcd API that a Kubernetes API server uses
    from a transactional key-value engine.  This library models the Go code under
    pkg/ of the repository and proves that it is a multi-version key-value store
    with compare-and-swap writes, snapshot reads, ordered watches and safe
    compaction.

    ** The program and its parts

    A request enters through the etcd API (pkg/server/etcd) or the native API
    (pkg/server/brain), which checks leadership (pkg/server/service) and calls the
    backend (pkg/backend).  The backend keeps, for a user key k, one entry per
    version under the internal key (k, revision) and one record under (k, 0)
    that holds the newest revision and a deletion flag.  A write takes a revision
    from the generator (pkg/backend/tso), writes version and record in one batch
    of the engine (pkg/storage) under a comparison on the record, and notifies the
    collector, which moves the read revision forward in revision order, fills the
    history cache (ring.go) and feeds the watcher hub (watcherhub.go).  Writes with
    an uncertain outcome go through the retry queue (pkg/backend/retry).  Lists,
    counts and compactions run on the scanner (pkg/backend/scanner), which splits
    the range into partitions.  All of them emit metrics (pkg/metrics); the servers
    of a node are started and stopped together (pkg/endpoint).

    ** Files

    - Prelude: integers at 64 bits, byte strings and their order, lists, sorted
      entries of a map, interleavings of lists, tactics and hints.
    - GoMonad: Go code as a state monad with panics ([GoM S A := S -> option (S *
      A)]; [None] is a panic) and its weakest precondition [wp], which includes
      the absence of panics.
    - Prog: programs of atomic steps, for handlers that interleave, and the
      interleavings of a pool of them.
    - Strconv: decimal text and splitting of strings.
    - Storage: the engine interface (interface.go, errors.go) as a class
      [KvStorage], its documented contract as the class [KvSpec] over an abstract
      map, and [KvReliable] for an engine that does not fail.  The backend's
      theorems are proved against these classes.
    - MemKV: the in-memory engine (pkg/storage/memkv) over a skip list that is a
      parameter with its laws; instances of [KvSpec] and [KvReliable].
    - MetricsStore: the metrics wrapper (pkg/storage/metrics) as an engine over any
      engine, with its contract.
    - Metrics: pkg/metrics and its Prometheus client, with the Prometheus library as
      a parameter; MetricsSpec: schemas, the invariant of the client, interleaved
      emissions; Emitters: what the components emit and the schema of the program;
      MetricsExport: the republication of gathered metrics.
    - Badger: the adapter to badger (pkg/storage/badger), with badger's transactions
      as a parameter; BadgerSpec: their documented behaviour and what the adapter
      makes of it.
    - Tikv, TikvSpec: the same for the adapter to TiKV (pkg/storage/tikv), with the
      client's transactions, snapshots, regions and timestamps as a parameter.
    - Coder, Tso, Ring, Queue, Proto: pkg/backend/coder, pkg/backend/tso,
      pkg/backend/ring.go, pkg/backend/retry/queue.go, and the messages.
    - Mvcc: what the entries of a store mean: the versions of a key, the newest
      one, what is visible at a revision ([visible]), and the invariant that links
      records and versions ([key_wf]).
    - Creator: pkg/backend/creator, with its specification.
    - Scanner: pkg/backend/scanner.  ScanSpec, ScanRead and Compaction hold its
      specification: what a worker emits, reads over partitions, and compaction.
    - Backend: pkg/backend/backend.go, util.go, txn.go, range.go, compact.go and
      retry/retry.go.  BackendSpec, BackendReads, RetrySpec and Refinement hold the
      specifications of its operations and the abstract model they refine;
      RetryLoop the loop around the retries.
    - Pipeline: writers, collector and retries as a step relation over the
      operations of Backend, with its invariant.
    - Concurrent: the handlers of the backend and the retry loop as programs of
      atomic steps (one call of the engine, of the generator or of notify), shown
      to be the handlers of Backend when run alone, and their interleavings with
      the collector.  ScanProg: lists, counts, streamed ranges and compactions
      likewise, with the workers of one scan in any order; WorkerProg: a worker of a
      compaction, with a step per deletion.
    - History: the versions of the engine and the history of all versions ever
      written, related through the floor, the greatest revision a compaction started
      at.  ConcurrentSpec: the rely-guarantee proof of what each handler
      establishes, over the state with its history and floor (ghost variables of the
      proof); ConcurrentQuiet: programs that write no versions; ConcurrentReads: what
      the reads of ranges return; ConcurrentCompact: that compactions remove only
      what no reader at or above the floor needs; ConcurrentPool: the invariant of
      the pool of running requests.
    - Watch: pkg/backend/watch.go and watcherhub.go; HubSpec: the hub with its
      watchers as a step relation; WatchSpec: how the history cache and the live
      events fit together, and pipeline and hub as one system, from the collector's
      channel to what a watcher receives.
    - Etcd: pkg/server/etcd/kv.go, backendshim.go and lease.go; EtcdSpec.
    - Brain: pkg/server/brain; BrainStream: its streaming calls.
    - EtcdWatch: pkg/server/etcd/watch.go, a stream with its goroutines as a step
      relation; EtcdWatchSpec: its invariant.
    - Election: pkg/backend/election, pkg/server/service/leader and the HTTP
      handlers of pkg/server/server.go; ElectionSpec: the lock as a register, the
      nodes of a cluster.
    - Revision: pkg/server/service/revision; Follower: concurrent reads of a
      follower as programs of atomic steps.
    - EtcdProxy: pkg/server/service/etcdproxy, the loop that follows the leader and
      the forwarded watches as a step relation; EtcdProxySpec: its invariant.
    - CompactRange: which user keys a compaction touches, by the parity of the
      prefixes that cover them, and that it leaves all others alone.
    - Options: cmd/option, pkg/endpoint/config.go and the servers of
      pkg/endpoint/endpoint.go.  NetUtil: pkg/util, the address of a node and
      what a panic of a goroutine does ([Recover]).
    - Command: cmd/main.go, the flags and Run of cmd/option, the end of the process,
      and the clients of the TiKV store.
    - Endpoint: running and stopping the servers (pkg/endpoint/server.go,
      security.go and endpoint.go) as processes composed of processes: a [Serve],
      the runner of a server, an errgroup with cancel, a port.  EndpointSpec: the
      specification of processes (class [ProcSpec]) and that each of them meets it.
    - Assembly: the HTTP routes and gRPC services of the ports, the health status,
      and the constant answers of the etcd API.
    - Concrete: a backend on the in-memory engine, used by the witnesses.
    - StorageTheorems, EngineTheorems, TikvTheorems, BackendTheorems,
      PipelineTheorems, ConcurrencyTheorems, ElectionTheorems, PeerTheorems,
      StreamTheorems, ProxyTheorems, OptionTheorems, CommandTheorems, ServerTheorems,
      MetricsTheorems, EndpointTheorems: the properties, each with an instance at a concrete input.

    ** What the theorems show

    - Storage: the key format round-trips and sorts by key, then revision; batches
      of the in-memory engine are atomic and its iterators exact; the history
      cache and the retry queue behave as a window of a list and as a list.
    - Engines: batches of the badger and TiKV adapters are atomic, with what each
      does when a value cannot be copied, a transaction cannot begin or the outcome
      of a commit is open; the exact entries an iterator of the TiKV adapter yields;
      the metrics wrapper is transparent.
    - Backend: Create, Update and Delete on every branch, errors and uncertain
      results included; refinement of an abstract multi-version map by any
      sequence of requests; List, Count and ListByStream return exactly what is
      visible; compaction does not change any read at or above its revision (of keys
      it does not expire: see below);
      retries settle uncertain writes, and each tick of their loop ends.
    - Pipeline: under every interleaving, events come out in revision order, the
      collector makes progress, compaction stays below uncertain writes, buffers do
      not overflow; through the hub, a watcher gets what it asked for in order and
      once, without a gap as long as the hub has not skipped it.
    - Concurrency: requests, retries, compactions and collector interleaved at
      every access: writes are serialised by their revisions, no update is lost, no
      write lands at or below the read revision, no compaction removes what a reader
      at or above it needs, and lists, counts and streamed ranges are of one snapshot.
    - Streams: what a client of a watch or of a range stream receives, from the
      backend's writes through hub and watcher and the goroutines of its stream, and
      that a stream leaves nothing behind; the messages of the workers of a range
      stream are interleaved in any way.
    - Election and peers: only one node replaces an election record; a new leader
      takes over with the backend's invariant; a follower finds its leader and
      adopts its revision; its concurrent reads are at revisions the leader
      reported.
    - Proxy: the client of a follower is connected to the leader it names, watches
      end with their client, what a forwarded watch puts out, and when the panic of
      one that starts can end the process.
    - Options: a backend with valid options, whose skipped prefixes are paths below
      its prefix and not below each other, compacts nothing else.
    - Command: registering the flags keeps the options but for three, flags can be
      given in any order, a signal ends the process in time, clients of TiKV that
      were opened are kept or closed, and are used in turn.
    - Server: the transactions of a Kubernetes API server are compare-and-swap;
      point reads; a follower that reads alone reads at least at the leader's
      revision.
    - Metrics: the emissions of the components follow one schema of names, kinds and
      labels, so that, with label values in UTF-8, no interleaving of emitters panics
      and no value is lost; the buckets of a republished histogram add up to the
      gathered one.
    - Endpoint: when the context is done or anything stops, every run of the
      servers' goroutines comes to the return of [Run], with the servers and
      listeners closed, and of the ports' multiplexers, for which [Run] does not
      wait; the routes of each port.
    - Where the code does not do what it means to, a theorem says what it does:
      the revision lost on a drift, the compact record that goes back, stream
      headers with revision 0, the messages a retried stream repeats, the race in
      the generator, the gap of a skipped watcher, the uncertain write of an empty
      value that is dropped, the extra entry of a limited iterator of TiKV, the
      forwarded watch that ends the process, the unguarded delete at revision 0, the wrap-around in the
      compaction loop, the read revision of a follower that goes back, the error
      that keeps the proxy unconnected, the skipped
      prefixes that are compacted, the panic at the end of a watch on a prefix that
      is not UTF-8, the error of a shutdown that was asked for, the leader that is
      not serving.

    ** Bounds and fuel

    Revisions are integers with Go's wrap-around written out ([uint64], [int64]).
    The write theorems ask for room below 2^63 (or 2^64) in the generator.  The
    loops of the sources recurse on the data they traverse (the items of an
    iterator, the partitions, the queue, the key's bytes), except the search of the
    ring, whose fuel is the length of the searched interval plus one, and the catch-up
    loop, whose fuel is the number of events; both are proved to be enough.  A tick
    of the retry loop has as fuel the number of queued events and one, proved to be
    enough.  Loops without an end (collector, hub, compaction loop, the ticks of
    the retry loop) are modelled one iteration at a time.

    ** What is a parameter

    The skip list library; badger; the TiKV client; wait.ExponentialBackoff (class
    [Backoff]: the condition runs a finite number of times, its error is
    returned); the engine behind [KvStorage]; cancellation of contexts and the
    clock (arguments); the gRPC transport (class [Transport]: the result of a
    send, given the ones before);
    client-go's elector and the JSON text of its record (class [LockCodec]); the
    HTTP client of a follower and the JSON text of a revision (class
    [RevisionClient]); etcd's client and, for the proxy, the election (classes
    [EtcdClient] and [LeaderElection]); certificates and their files (class
    [Certificates]); the text of IPv6 addresses; the Prometheus library (class
    [Prometheus], laws [PromSpec]) and [strconv.ParseFloat]; http and grpc servers
    and cmux (class [Servers]: they may stop at any time and return once closed),
    errgroup, gRPC's health service; the clients the TiKV library opens; of the flag
    library what it stores and refuses.  In the components other than Metrics and
    Emitters metrics are left out, and logs everywhere.

    ** What is not modelled

    The expiry of keys by an engine with TTL support (memkv removes a key when its
    timer fires, badger hides one that is over) is modelled in MemKV only, and is not a step
    of the backend's models.  On an engine without TTL support (TiKV) compactions
    delete old versions of keys that contain "/events/", live ones too; this is
    modelled, and the theorems about reads that outlive a compaction are for the
    other keys ([expires_key]), or for versions above it.

    The workers of a scan run one after the other, in partition order, except in
    ScanProg.  Channels between a scan and its reader, and between the backend and a
    stream, are lists of messages; [watchChan] of the backend's state is the history
    of all that was sent to the hub.  Among the interleaved requests of Concurrent an
    iterator sees the engine as it is when it is made, which is the contract [KvSpec]
    (TiKV's is the state at an earlier timestamp, a snapshot in which even a
    compaction above the revision that is read is not seen); the queue of past
    compactions, which the code does not lock, is accessed in atomic steps.  In the
    other files an operation runs to its end.  A transaction of TiKV begins with the
    commit of its batch.

    Left out, since there is no logic of the repository in it: interceptors of gRPC,
    the multiplexing of connections and TLS handshakes, singleflight, the text of
    flags and those of klog, the version command, the opening of badger, logs; and
    the code for tests (pkg/metrics/mock, stub.go, testutil.go). *)

From Stdlib Require Export ZArith Lia.
From Stdlib Require Import Strings.Byte.
From stdpp Require Export base tactics decidable countable option list
  sorting fin_maps gmap strings.

#[global] Open Scope Z_scope.

(** [lia] with division and remainder by constants. *)
Ltac mlia := Z.div_mod_to_equations; lia.

(** * Machine integers *)

(** [uint64] and [int64] values are integers kept in range by the explicit
    conversions below, which wrap around as Go's conversions do. *)
Definition two64 : Z := 18446744073709551616.
Definition two63 : Z := 9223372036854775808.
Definition max_uint64 : Z := 18446744073709551615.

Definition uint64 (z : Z) : Z := z mod two64.

Definition int64 (z : Z) : Z := (z + two63) mod two64 - two63.

Definition is_uint64 (z : Z) : Prop := 0 <= z < two64.

Lemma uint64_range z : is_uint64 (uint64 z).
Proof. unfold is_uint64, uint64, two64. mlia. Qed.

Lemma uint64_id z : is_uint64 z → uint64 z = z.
Proof. unfold is_uint64, uint64, two64. mlia. Qed.

Lemma int64_id z : - two63 <= z < two63 → int64 z = z.
Proof. unfold int64, two63, two64. mlia. Qed.

(** Numbers in one window of length [n] are determined by their remainders. *)
Lemma mod_eq_near n a b : 0 < n → a mod n = b mod n → a <= b < a + n → a = b.
Proof.
  intros Hn E Hab. pose proof (Z.div_mod a n ltac:(lia)). pose proof (Z.div_mod b n ltac:(lia)).
  assert (b / n = a / n) by nia. congruence.
Qed.

(** * Bytes and slices *)

Abbreviation byte := Byte.byte.
Abbreviation bytes := (list byte).

Definition bval (b : byte) : Z := Z.of_N (Byte.to_N b).

(** [byte(z)]: the low eight bits of [z]. *)
Definition to_byte (z : Z) : byte :=
  default Byte.x00 (Byte.of_N (Z.to_N (z mod 256))).

Lemma bval_range b : 0 <= bval b < 256.
Proof. unfold bval. pose proof (Byte.to_N_bounded b). lia. Qed.

Lemma bval_to_byte z : bval (to_byte z) = z mod 256.
Proof.
  unfold bval, to_byte.
  destruct (Byte.of_N (Z.to_N (z mod 256))) as [b|] eqn:E; simpl.
  - apply Byte.to_of_N in E. mlia.
  - apply Byte.of_N_None_iff in E. mlia.
Qed.

Lemma bval_inj a b : bval a = bval b → a = b.
Proof.
  unfold bval. intros E. assert (Byte.to_N a = Byte.to_N b) as E' by lia.
  apply (f_equal Byte.of_N) in E'. rewrite !Byte.of_to_N in E'. congruence.
Qed.

Lemma to_byte_bval b : to_byte (bval b) = b.
Proof.
  apply bval_inj. rewrite bval_to_byte. pose proof (bval_range b). mlia.
Qed.

#[global] Instance byte_eq_dec : EqDecision byte.
Proof.
  refine (λ a b, match Z.eq_dec (bval a) (bval b) with
                 | left H => left (bval_inj a b H)
                 | right H => right (λ E, H (f_equal bval E))
                 end).
Defined.

#[global] Instance byte_countable : Countable byte.
Proof.
  refine (inj_countable Byte.to_N Byte.of_N _). exact Byte.of_to_N.
Defined.

(** A Go [[]byte] that may be [nil]: most of the code compares contents, where
    [nil] and the empty slice agree, but a few tests are [x == nil]. *)
Abbreviation slice := (option bytes).

Definition content (v : slice) : bytes := default [] v.

(** [len(v)] *)
Definition slen (v : slice) : Z := Z.of_nat (length (content v)).

Definition str (s : string) : bytes := String.list_byte_of_string s.

(** * Lexicographic comparison: [bytes.Compare] *)

Fixpoint bytes_compare (a b : bytes) : comparison :=
  match a, b with
  | [], [] => Eq
  | [], _ :: _ => Lt
  | _ :: _, [] => Gt
  | x :: a', y :: b' =>
      match bval x ?= bval y with
      | Eq => bytes_compare a' b'
      | c => c
      end
  end.

Definition bytes_lt (a b : bytes) : Prop := bytes_compare a b = Lt.
Definition bytes_le (a b : bytes) : Prop := bytes_compare a b ≠ Gt.
Definition bytes_ltb (a b : bytes) : bool :=
  match bytes_compare a b with Lt => true | _ => false end.
(** [bytes.Equal] *)
Definition bytes_eqb (a b : bytes) : bool :=
  match bytes_compare a b with Eq => true | _ => false end.

#[global] Instance bytes_lt_dec : RelDecision bytes_lt.
Proof. intros a b. unfold bytes_lt. solve_decision. Defined.

#[global] Instance bytes_le_dec : RelDecision bytes_le.
Proof. intros a b. unfold bytes_le. solve_decision. Defined.

Lemma bytes_compare_refl a : bytes_compare a a = Eq.
Proof. induction a as [|x a IH]; simpl; [done|]. by rewrite Z.compare_refl. Qed.

Lemma bytes_compare_eq a b : bytes_compare a b = Eq ↔ a = b.
Proof.
  split; [|intros ->; apply bytes_compare_refl].
  revert b. induction a as [|x a IH]; intros [|y b]; simpl; try done.
  destruct (Z.compare_spec (bval x) (bval y)) as [E| |]; try done.
  intros H. apply bval_inj in E as ->. by rewrite (IH b H).
Qed.

Lemma bytes_compare_antisym a b : bytes_compare b a = CompOpp (bytes_compare a b).
Proof.
  revert b. induction a as [|x a IH]; intros [|y b]; simpl; try done.
  rewrite (Z.compare_antisym (bval x) (bval y)).
  destruct (bval x ?= bval y); simpl; auto.
Qed.

Lemma bytes_lt_trans a b c : bytes_lt a b → bytes_lt b c → bytes_lt a c.
Proof.
  unfold bytes_lt. revert b c.
  induction a as [|x a IH]; intros [|y b] [|z c]; simpl; try done.
  destruct (Z.compare_spec (bval x) (bval y));
    destruct (Z.compare_spec (bval y) (bval z));
    destruct (Z.compare_spec (bval x) (bval z)); try done; try lia.
  apply IH.
Qed.

Lemma bytes_lt_irrefl a : ¬ bytes_lt a a.
Proof. unfold bytes_lt. by rewrite bytes_compare_refl. Qed.

#[global] Instance bytes_lt_strict : StrictOrder bytes_lt.
Proof.
  split; [intros a; apply bytes_lt_irrefl | intros a b c; apply bytes_lt_trans].
Qed.

#[global] Instance bytes_lt_trichotomy : TrichotomyT bytes_lt.
Proof.
  intros a b. destruct (bytes_compare a b) eqn:E.
  - left; right. by apply bytes_compare_eq.
  - left; left. exact E.
  - right. unfold bytes_lt. rewrite bytes_compare_antisym, E. done.
Defined.

Lemma bytes_le_lteq a b : bytes_le a b ↔ bytes_lt a b ∨ a = b.
Proof.
  unfold bytes_le, bytes_lt. rewrite <-bytes_compare_eq.
  destruct (bytes_compare a b); intuition congruence.
Qed.

Lemma bytes_not_lt a b : ¬ bytes_lt a b ↔ bytes_le b a.
Proof.
  unfold bytes_lt, bytes_le. rewrite (bytes_compare_antisym a b).
  destruct (bytes_compare a b); naive_solver.
Qed.

Lemma bytes_not_le a b : ¬ bytes_le a b ↔ bytes_lt b a.
Proof. rewrite <-bytes_not_lt. destruct (decide (bytes_lt b a)); naive_solver. Qed.

Lemma bytes_eqb_spec a b : bytes_eqb a b = true ↔ a = b.
Proof.
  unfold bytes_eqb. rewrite <-bytes_compare_eq.
  destruct (bytes_compare a b); naive_solver.
Qed.

Lemma bytes_eqb_false a b : bytes_eqb a b = false ↔ a ≠ b.
Proof. rewrite <-bytes_eqb_spec. destruct (bytes_eqb a b); naive_solver. Qed.

Lemma bytes_eqb_refl a : bytes_eqb a a = true.
Proof. by apply bytes_eqb_spec. Qed.

Lemma bytes_ltb_spec a b : bytes_ltb a b = true ↔ bytes_lt a b.
Proof. unfold bytes_ltb, bytes_lt. destruct (bytes_compare a b); naive_solver. Qed.

(** Comparison goes through a common prefix, and is decided by the first parts
    when they have the same length and differ. *)
Lemma bytes_compare_app p a b : bytes_compare (p ++ a) (p ++ b) = bytes_compare a b.
Proof. induction p as [|x p IH]; simpl; [done|]. by rewrite Z.compare_refl. Qed.

(** [bytes.HasPrefix], [strings.HasSuffix] and [bytes.Contains]. *)
Fixpoint has_prefix (s p : bytes) : bool :=
  match p, s with
  | [], _ => true
  | _ :: _, [] => false
  | y :: p', x :: s' => bool_decide (x = y) && has_prefix s' p'
  end.

Definition has_suffix (s p : bytes) : bool := has_prefix (reverse s) (reverse p).

Fixpoint contains (s p : bytes) : bool :=
  has_prefix s p || match s with [] => false | _ :: s' => contains s' p end.

Lemma has_prefix_spec s p : has_prefix s p = true ↔ p `prefix_of` s.
Proof.
  revert s. induction p as [|y p IH]; intros [|x s]; simpl.
  - split; [intros _; apply prefix_nil | done].
  - split; [intros _; apply prefix_nil | done].
  - split; [done|]. by intros ?%prefix_nil_not.
  - rewrite andb_true_iff, bool_decide_eq_true, IH. split.
    + intros [-> H]. by apply prefix_cons.
    + intros H. split; [by symmetry; eapply prefix_cons_inv_1 |].
      by eapply prefix_cons_inv_2.
Qed.

(** * Big-endian words: [binary.BigEndian] *)

Fixpoint be_bytes (n : nat) (v : Z) : bytes :=
  match n with
  | O => []
  | S n' => to_byte (v / 256 ^ Z.of_nat n') :: be_bytes n' v
  end.

Fixpoint be_value (l : bytes) : Z :=
  match l with
  | [] => 0
  | x :: l' => bval x * 256 ^ Z.of_nat (length l') + be_value l'
  end.

Lemma be_bytes_length n v : length (be_bytes n v) = n.
Proof. induction n; simpl; congruence. Qed.

Lemma pow256_pos n : 0 < 256 ^ Z.of_nat n.
Proof. apply Z.pow_pos_nonneg; lia. Qed.

Lemma pow256_S n : 256 ^ Z.of_nat (S n) = 256 * 256 ^ Z.of_nat n.
Proof. rewrite Nat2Z.inj_succ, Z.pow_succ_r; lia. Qed.

Lemma be_value_bytes n v : be_value (be_bytes n v) = v mod 256 ^ Z.of_nat n.
Proof.
  induction n as [|n IH]; simpl be_bytes; simpl be_value.
  - by rewrite Z.mod_1_r.
  - rewrite IH, be_bytes_length, bval_to_byte, pow256_S.
    pose proof (pow256_pos n).
    rewrite (Z.mul_comm 256), Z.rem_mul_r by lia. lia.
Qed.

Lemma be_value_range l : 0 <= be_value l < 256 ^ Z.of_nat (length l).
Proof.
  induction l as [|x l IH]; simpl be_value; simpl length; [lia|].
  rewrite pow256_S. pose proof (bval_range x). nia.
Qed.

Lemma be_bytes_inj n v w :
  0 <= v < 256 ^ Z.of_nat n → 0 <= w < 256 ^ Z.of_nat n →
  be_bytes n v = be_bytes n w → v = w.
Proof.
  intros Hv Hw E. apply (f_equal be_value) in E.
  rewrite !be_value_bytes, !Z.mod_small in E; lia.
Qed.

Lemma be_value_inj l k : length l = length k → be_value l = be_value k → l = k.
Proof.
  revert k. induction l as [|x l IH]; intros [|y k]; simpl; try done.
  intros [= E] H. pose proof (be_value_range l) as Hl. pose proof (be_value_range k) as Hk.
  rewrite <-E in Hk, H. set (p := 256 ^ Z.of_nat (length l)) in *.
  assert (bval x = bval y) as Exy by nia.
  apply bval_inj in Exy as ->. f_equal. apply IH; [done | lia].
Qed.

Lemma be_bytes_value l : be_bytes (length l) (be_value l) = l.
Proof.
  apply be_value_inj; [apply be_bytes_length|].
  rewrite be_value_bytes. apply Z.mod_small, be_value_range.
Qed.

Lemma be_bytes_compare_app n v w s t :
  bytes_compare (be_bytes n v ++ s) (be_bytes n w ++ t) =
  match v mod 256 ^ Z.of_nat n ?= w mod 256 ^ Z.of_nat n with
  | Eq => bytes_compare s t
  | c => c
  end.
Proof.
  induction n as [|n IH]; simpl be_bytes; [by rewrite !Z.mod_1_r|].
  rewrite <-!app_comm_cons; simpl bytes_compare.
  rewrite IH, !bval_to_byte, pow256_S, (Z.mul_comm 256).
  pose proof (pow256_pos n) as Hp. set (p := 256 ^ Z.of_nat n) in *.
  rewrite !Z.rem_mul_r by lia.
  pose proof (Z.mod_pos_bound v p Hp). pose proof (Z.mod_pos_bound w p Hp).
  set (a := (v / p) mod 256). set (b := (w / p) mod 256).
  destruct (Z.compare_spec a b);
  destruct (Z.compare_spec (v mod p) (w mod p));
  destruct (Z.compare_spec (v mod p + p * a) (w mod p + p * b)); done || nia.
Qed.

(** * Strictly sorted association lists *)

Definition key_lt {A} (x y : bytes * A) : Prop := bytes_lt x.1 y.1.

#[global] Instance key_lt_trans {A} : Transitive (@key_lt A).
Proof. intros x y z. unfold key_lt. apply bytes_lt_trans. Qed.

Definition sorted_kvs {A} (l : list (bytes * A)) : Prop := StronglySorted key_lt l.

(** A strictly sorted list is determined by its entries. *)
Lemma sorted_kvs_ext {A} (l k : list (bytes * A)) :
  sorted_kvs l → sorted_kvs k → (∀ x, x ∈ l ↔ x ∈ k) → l = k.
Proof.
  unfold sorted_kvs. intros Hl. revert k.
  induction Hl as [|x l Hl IH Hx]; intros k Hk E.
  - destruct k as [|y k]; [done|]. exfalso.
    apply (not_elem_of_nil y), E. left.
  - destruct k as [|y k].
    { exfalso. apply (not_elem_of_nil x), E. left. }
    inversion Hk as [|? ? Hk' Hy]; subst.
    rewrite Forall_forall in Hx, Hy.
    assert (x = y) as <-.
    { destruct (proj1 (elem_of_cons _ _ _) (proj1 (E x) ltac:(left))) as [|Hxk]; [done|].
      destruct (proj1 (elem_of_cons _ _ _) (proj2 (E y) ltac:(left))) as [|Hyl]; [done|].
      exfalso. apply (bytes_lt_irrefl x.1), (bytes_lt_trans _ y.1);
        [by apply Hx | by apply Hy]. }
    f_equal. apply IH; [done|]. intros z. specialize (E z).
    rewrite !elem_of_cons in E. split; intros Hz.
    + destruct (proj1 E (or_intror Hz)) as [->|]; [|done].
      exfalso. by apply (bytes_lt_irrefl x.1), Hx.
    + destruct (proj2 E (or_intror Hz)) as [->|]; [|done].
      exfalso. by apply (bytes_lt_irrefl x.1), Hy.
Qed.

Lemma sorted_kvs_filter {A} (P : bytes * A → Prop) `{∀ x, Decision (P x)} l :
  sorted_kvs l → sorted_kvs (filter P l).
Proof.
  unfold sorted_kvs. induction 1 as [|x l Hl IH Hx]; [constructor|].
  rewrite filter_cons. case_decide; [|done]. constructor; [done|].
  rewrite Forall_forall in Hx |- *. intros y [_ Hy]%list_elem_of_filter. by apply Hx.
Qed.

Lemma StronglySorted_reverse {A} (R : relation A) l :
  StronglySorted R l → StronglySorted (flip R) (reverse l).
Proof.
  induction 1 as [|x l Hl IH Hx]; [constructor|]. rewrite reverse_cons.
  rewrite Forall_forall in Hx. apply StronglySorted_app_2; [|done | repeat constructor].
  intros y z Hy ->%list_elem_of_singleton. apply Hx. by rewrite elem_of_reverse in Hy.
Qed.

Lemma StronglySorted_weaken {A} (R R' : relation A) l :
  (∀ x y, R x y → R' x y) → StronglySorted R l → StronglySorted R' l.
Proof.
  intros HR. induction 1 as [|x l Hl IH Hx]; constructor; [done|].
  eapply Forall_impl; [done | auto].
Qed.

Lemma filter_all {A} (P : A → Prop) `{∀ x, Decision (P x)} l : Forall P l → filter P l = l.
Proof. induction 1 as [|x l Hx Hl IH]; [done|]. rewrite filter_cons_True by done. by f_equal. Qed.

Lemma filter_none {A} (P : A → Prop) `{∀ x, Decision (P x)} l : Forall (λ x, ¬ P x) l → filter P l = [].
Proof. induction 1 as [|x l Hx Hl IH]; [done|]. by rewrite filter_cons_False. Qed.

(** The longest prefix of elements that satisfy [P]. *)
Fixpoint take_while {A} (P : A → bool) (l : list A) : list A :=
  match l with
  | [] => []
  | x :: l' => if P x then x :: take_while P l' else []
  end.

(** On a list whose elements after a failure of [P] fail too, it keeps exactly
    the elements that satisfy [P]. *)
Lemma elem_of_take_while {A} (P : A → bool) (R : relation A) l x :
  StronglySorted R l → (∀ x y, R x y → P y = true → P x = true) →
  x ∈ take_while P l ↔ x ∈ l ∧ P x = true.
Proof.
  intros Hs HR. induction Hs as [|y l Hl IH Hy]; simpl.
  - rewrite !elem_of_nil. tauto.
  - rewrite Forall_forall in Hy. destruct (P y) eqn:E; rewrite !elem_of_cons.
    + rewrite IH. split; [|tauto]. intros [->|]; tauto.
    + rewrite elem_of_nil. split; [done|]. intros [[->|Hx] HP]; [congruence|].
      assert (P y = true) by eauto. congruence.
Qed.

Lemma take_while_sorted {A} (P : A → bool) (R : relation A) l :
  StronglySorted R l → StronglySorted R (take_while P l).
Proof.
  induction 1 as [|y l Hl IH Hy]; simpl; [constructor|].
  destruct (P y); [|constructor]. constructor; [done|].
  clear -Hy. induction Hy as [|x l Hx Hl IH]; simpl; [constructor|].
  destruct (P x); by constructor.
Qed.

Section sorted_entries.
Context {A : Type}.
Implicit Types m : gmap bytes A.

Definition entry_le (x y : bytes * A) : Prop := bytes_le x.1 y.1.

#[global] Instance entry_le_dec : RelDecision entry_le.
Proof. intros x y. unfold entry_le. apply _. Defined.

#[global] Instance entry_le_total : Total entry_le.
Proof.
  intros x y. unfold entry_le. destruct (decide (bytes_lt x.1 y.1)).
  - left. apply bytes_le_lteq. by left.
  - right. by apply bytes_not_lt.
Qed.

#[global] Instance entry_le_trans : Transitive entry_le.
Proof.
  intros x y z. unfold entry_le. rewrite !bytes_le_lteq.
  intros [? | ->] [?|?]; [left; by etrans | left; congruence | by left | right; congruence].
Qed.

(** The entries of a map in key order. *)
Definition entries m : list (bytes * A) := merge_sort entry_le (map_to_list m).

Lemma elem_of_entries m k v : (k, v) ∈ entries m ↔ m !! k = Some v.
Proof. unfold entries. by rewrite merge_sort_Permutation, elem_of_map_to_list. Qed.

Lemma entries_sorted m : sorted_kvs (entries m).
Proof.
  assert (StronglySorted entry_le (entries m)) as Hs.
  { apply Sorted_StronglySorted; [apply _|]. apply (Sorted_merge_sort entry_le). }
  assert (NoDup (entries m).*1) as Hn.
  { unfold entries. rewrite merge_sort_Permutation. apply NoDup_fst_map_to_list. }
  unfold sorted_kvs. induction Hs as [|x l Hl IH Hx]; [constructor|].
  inversion Hn as [|? ? Hnx Hn']; subst. constructor; [by apply IH|].
  rewrite Forall_forall in Hx |- *. intros y Hy.
  destruct (proj1 (bytes_le_lteq _ _) (Hx y Hy)) as [|E]; [done|].
  exfalso. apply Hnx. rewrite E. by apply list_elem_of_fmap_2.
Qed.

(** Entries with [s <= key < e], ascending, and with [e < key <= s], descending. *)
Definition asc_range m (s e : bytes) : list (bytes * A) :=
  filter (λ kv, bytes_le s kv.1 ∧ bytes_lt kv.1 e) (entries m).

Definition desc_range m (s e : bytes) : list (bytes * A) :=
  reverse (filter (λ kv, bytes_lt e kv.1 ∧ bytes_le kv.1 s) (entries m)).

Lemma elem_of_asc_range m s e k v :
  (k, v) ∈ asc_range m s e ↔ m !! k = Some v ∧ bytes_le s k ∧ bytes_lt k e.
Proof.
  unfold asc_range. rewrite list_elem_of_filter, elem_of_entries. simpl. tauto.
Qed.

Lemma elem_of_desc_range m s e k v :
  (k, v) ∈ desc_range m s e ↔ m !! k = Some v ∧ bytes_lt e k ∧ bytes_le k s.
Proof.
  unfold desc_range.
  rewrite elem_of_reverse, list_elem_of_filter, elem_of_entries. simpl. tauto.
Qed.

Lemma asc_range_sorted m s e : sorted_kvs (asc_range m s e).
Proof. apply sorted_kvs_filter, entries_sorted. Qed.

Lemma desc_range_sorted m s e : sorted_kvs (reverse (desc_range m s e)).
Proof.
  unfold desc_range. rewrite reverse_involutive.
  apply sorted_kvs_filter, entries_sorted.
Qed.

(** The head of a descending range is its greatest entry. *)
Lemma desc_range_head m s e k v l :
  desc_range m s e = (k, v) :: l →
  ∀ k' v', m !! k' = Some v' → bytes_lt e k' → bytes_le k' s → bytes_le k' k.
Proof.
  intros E k' v' Hm He Hs.
  assert ((k', v') ∈ desc_range m s e) as Hin by by apply elem_of_desc_range.
  pose proof (desc_range_sorted m s e) as Hsort. rewrite E in Hin, Hsort.
  rewrite reverse_cons in Hsort.
  apply elem_of_cons in Hin as [[= -> ->]|Hin].
  { apply bytes_le_lteq. by right. }
  apply bytes_le_lteq. left. unfold sorted_kvs in Hsort.
  apply StronglySorted_app in Hsort as (H & _ & _).
  apply (H (k', v') (k, v)); [by apply elem_of_reverse | left].
Qed.
End sorted_entries.

(** * Interleavings *)

(** What is received from one channel on which several goroutines send, each its own
    list in order. *)
Inductive interleaving {A} : list (list A) → list A → Prop :=
  | il_nil ls : Forall (λ l, l = []) ls → interleaving ls []
  | il_cons ls1 x l ls2 out :
      interleaving (ls1 ++ l :: ls2) out → interleaving (ls1 ++ (x :: l) :: ls2) (x :: out).

Lemma interleaving_Permutation {A} (ls : list (list A)) out : interleaving ls out → out ≡ₚ concat ls.
Proof.
  induction 1 as [ls Hl|ls1 x l ls2 out _ IH].
  - induction Hl as [|l ls -> _ IH]; [done | exact IH].
  - rewrite IH, !concat_app. simpl. by rewrite Permutation_middle.
Qed.

Lemma interleaving_sublist {A} (ls : list (list A)) out : interleaving ls out → Forall (λ l, l `sublist_of` out) ls.
Proof.
  induction 1 as [ls Hl|ls1 x l ls2 out _ IH].
  - eapply Forall_impl; [exact Hl|]. by intros l ->.
  - apply Forall_app in IH as [H1 [Hl H2]%Forall_cons]. apply Forall_app.
    split; [|constructor]; [|by constructor|]; (eapply Forall_impl; [eassumption|]); intros l' Hl'; by constructor.
Qed.

Lemma interleaving_one {A} (l out : list A) : interleaving [l] out → out = l.
Proof.
  intros Hi. remember [l] as ls eqn:E. revert l E. induction Hi as [ls Hl|ls1 x l' ls2 out _ IH]; intros l E; subst.
  - by inversion_clear Hl.
  - destruct ls1 as [|? [|? ?]]; simplify_eq/=. f_equal. by apply IH.
Qed.

(** One after the other is one of them. *)
Lemma interleaving_concat {A} (ls : list (list A)) : interleaving ls (concat ls).
Proof.
  assert (∀ es ls : list (list A), Forall (λ l, l = []) es → interleaving (es ++ ls) (concat ls)) as Hi; [|by apply (Hi [])].
  clear ls. intros es ls. revert es. induction ls as [|l ls IH]; intros es Hes; simpl.
  { rewrite app_nil_r. by constructor. }
  induction l as [|x l IHl]; simpl; [|by constructor].
  replace (es ++ [] :: ls) with ((es ++ [[]]) ++ ls) by by rewrite <-app_assoc. apply IH.
  apply Forall_app. split; [done|]. by constructor.
Qed.

Lemma sublist_concat {A B} (f : A → list B) (l k : list A) :
  l `sublist_of` k → concat (f <$> l) `sublist_of` concat (f <$> k).
Proof.
  induction 1 as [|x l k _ IH|x l k _ IH]; simpl; [done | by apply sublist_app | by apply sublist_inserts_l].
Qed.

Lemma concat_fmap_Permutation {A B} (f : A → list B) (l k : list A) :
  l ≡ₚ k → concat (f <$> l) ≡ₚ concat (f <$> k).
Proof. intros ->. done. Qed.
