(* ===== verification/GoMonad.v ===== *)
(** State passing with panics, and the weakest-precondition calculus used to
    reason about it.

    A handler of the program that mutates a state of type [S] and returns [A]
    is a term of [GoM S A]; the outcome [None] is a Go panic (index out of
    range, explicit [panic], ...), after which nothing runs.  Go errors are
    ordinary results, pairs [(value, option err)]. *)

From S2P Require Import Prelude.

Definition GoM (S A : Type) : Type := S → option (S * A).

Section monad.
Context {S : Type}.

#[global] Instance gom_ret : MRet (GoM S) := λ A a s, Some (s, a).

#[global] Instance gom_bind : MBind (GoM S) := λ A B f m s,
  match m s with
  | Some (s', a) => f a s'
  | None => None
  end.

Definition panic {A} : GoM S A := λ _, None.

Definition gets {A} (f : S → A) : GoM S A := λ s, Some (s, f s).

Definition modify (f : S → S) : GoM S () := λ s, Some (f s, ()).

(** A partial pure computation, whose failure is a panic. *)
Definition lift_opt {A} (o : option A) : GoM S A := λ s,
  match o with Some a => Some (s, a) | None => None end.

(** Run a computation on a component of the state. *)
Definition zoom {T A} (get : T → S) (put : S → T → T) (m : GoM S A) : GoM T A :=
  λ t, match m (get t) with
       | Some (s', a) => Some (put s' t, a)
       | None => None
       end.
End monad.

(** * Weakest preconditions *)

(** [wp m Q s]: run in [s], [m] does not panic and ends with [Q]. *)
Definition wp {S A} (m : GoM S A) (Q : A → S → Prop) (s : S) : Prop :=
  match m s with
  | Some (s', a) => Q a s'
  | None => False
  end.

Section wp.
Context {S : Type}.
Implicit Types s : S.

Lemma wp_ret {A} (a : A) (Q : A → S → Prop) s : Q a s → wp (mret a) Q s.
Proof. done. Qed.

Lemma wp_bind {A B} (m : GoM S A) (f : A → GoM S B) Q s :
  wp m (λ a s', wp (f a) Q s') s → wp (m ≫= f) Q s.
Proof.
  unfold wp, mbind, gom_bind. destruct (m s) as [[s' a]|]; done.
Qed.

Lemma wp_bind_inv {A B} (m : GoM S A) (f : A → GoM S B) Q s :
  wp (m ≫= f) Q s → wp m (λ a s', wp (f a) Q s') s.
Proof. unfold wp, mbind, gom_bind. destruct (m s) as [[s' a]|]; done. Qed.

Lemma wp_mono {A} (m : GoM S A) (P Q : A → S → Prop) s :
  wp m P s → (∀ a s', P a s' → Q a s') → wp m Q s.
Proof. unfold wp. destruct (m s) as [[s' a]|]; auto. Qed.

(** Two specifications of one run, the second under a condition. *)
Lemma wp_and {A} (m : GoM S A) (C : Prop) (P Q : A → S → Prop) s :
  wp m P s → (C → wp m Q s) → wp m (λ a s', P a s' ∧ (C → Q a s')) s.
Proof. unfold wp. destruct (m s) as [[s' a]|]; [auto | done]. Qed.

Lemma wp_gets {A} (f : S → A) (Q : A → S → Prop) s : Q (f s) s → wp (gets f) Q s.
Proof. done. Qed.

Lemma wp_modify (f : S → S) (Q : () → S → Prop) s : Q () (f s) → wp (modify f) Q s.
Proof. done. Qed.

Lemma wp_lift_opt {A} (o : option A) a (Q : A → S → Prop) s :
  o = Some a → Q a s → wp (lift_opt o) Q s.
Proof. intros ->. done. Qed.

Lemma wp_zoom {T A} (get : T → S) put (m : GoM S A) Q (t : T) :
  wp m (λ a s', Q a (put s' t)) (get t) → wp (zoom get put m) Q t.
Proof. unfold wp, zoom. destruct (m (get t)) as [[s' a]|]; done. Qed.

(** What a [wp] says about the run itself. *)
Lemma wp_run {A} (m : GoM S A) Q s :
  wp m Q s → ∃ s' a, m s = Some (s', a) ∧ Q a s'.
Proof. unfold wp. destruct (m s) as [[s' a]|]; naive_solver. Qed.

Lemma run_wp {A} (m : GoM S A) (Q : A → S → Prop) s s' a :
  m s = Some (s', a) → wp m Q s → Q a s'.
Proof. unfold wp. by intros ->. Qed.
End wp.

Create HintDb gowp.
#[export] Hint Resolve wp_ret wp_gets wp_modify : gowp.

(** One step of the calculus: a [bind], a primitive, or a case of the program. *)
Ltac wp_step :=
  lazymatch goal with
  | |- wp (mbind _ _) _ _ => apply wp_bind
  | |- wp (mret _) _ _ => apply wp_ret
  | |- wp (gets _) _ _ => apply wp_gets
  | |- wp (modify _) _ _ => apply wp_modify
  | |- wp (zoom _ _ _) _ _ => apply wp_zoom
  end; simpl.

Ltac wp_steps := simpl; repeat wp_step.

(** Use the specification [H] of the computation in front. *)
Ltac wp_use H := eapply wp_mono; [apply H | simpl].
