(* ===== verification/Prog.v ===== *)
(** Programs of atomic steps, shared by the models of concurrent handlers.

    A goroutine is a tree of atomic accesses to the state it shares with the
    others; [run_prog] is its run without interruption, [atoms] a property of
    every access it can make. *)

From S2P Require Import Prelude GoMonad.

(** * Programs of atomic steps *)

Inductive prog (T A : Type) : Type :=
  | Done (a : A)
  | Do (B : Type) (m : GoM T B) (k : B → prog T A).
Arguments Done {T A}.
Arguments Do {T A B}.

Section prog.
Context {T : Type}.

Fixpoint pbind {A B} (f : A → prog T B) (p : prog T A) : prog T B :=
  match p with
  | Done a => f a
  | Do m k => Do m (λ x, pbind f (k x))
  end.

#[global] Instance prog_ret : MRet (prog T) := λ A a, Done a.
#[global] Instance prog_bind : MBind (prog T) := λ A B f p, pbind f p.

Definition atom {A} (m : GoM T A) : prog T A := Do m Done.

(** A run without interruption. *)
Fixpoint run_prog {A} (p : prog T A) : GoM T A :=
  match p with
  | Done a => mret a
  | Do m k => x ← m; run_prog (k x)
  end.

Lemma run_prog_atom {A} (m : GoM T A) s : run_prog (atom m) s = m s.
Proof. simpl. unfold mbind, gom_bind. by destruct (m s) as [[]|]. Qed.

Lemma run_prog_bind {A B} (p : prog T A) (f : A → prog T B) s :
  run_prog (p ≫= f) s = (run_prog p ≫= λ x, run_prog (f x)) s.
Proof.
  revert s. induction p as [a|C m k IH]; intros s; [done|].
  unfold mbind, gom_bind in *. simpl. unfold mbind, gom_bind. destruct (m s) as [[s' x]|]; [|done]. apply IH.
Qed.

Lemma run_bind {A B} (p : prog T A) (f : A → prog T B) s s' x :
  run_prog p s = Some (s', x) → run_prog (p ≫= f) s = run_prog (f x) s'.
Proof. intros E. rewrite run_prog_bind. unfold mbind, gom_bind. by rewrite E. Qed.

Lemma run_step {A B} (m : GoM T A) (f : A → prog T B) s s' x :
  m s = Some (s', x) → run_prog (atom m ≫= f) s = run_prog (f x) s'.
Proof. intros E. apply run_bind. by rewrite run_prog_atom. Qed.
End prog.

(** Two computations with the same runs. *)
Lemma bind_ext {T A B} (m m' : GoM T A) (f f' : A → GoM T B) s :
  m s = m' s → (∀ x s', f x s' = f' x s') → (m ≫= f) s = (m' ≫= f') s.
Proof. unfold mbind, gom_bind. intros -> Hf. by destruct (m' s) as [[]|]. Qed.

(** * Goroutines that one goroutine starts and joins *)

Section join.
Context {T A : Type}.

(** One after the other. *)
Fixpoint sequence (ps : list (prog T A)) : prog T (list A) :=
  match ps with
  | [] => mret []
  | p :: ps' => x ← p; xs ← sequence ps'; mret (x :: xs)
  end.

(** In the order of a schedule: each entry names the goroutine whose next access
    is made; what is left when the schedule ends is run one after the other. *)
Fixpoint par (sched : list nat) (ps : list (prog T A)) : prog T (list A) :=
  match sched with
  | [] => sequence ps
  | i :: sched' =>
      match ps !! i with
      | Some (Do m k) => Do m (λ x, par sched' (<[i := k x]> ps))
      | _ => par sched' ps
      end
  end.
End join.

(** Every access of the program changes the state within [R]. *)
Fixpoint atoms {T A} (R : T → T → Prop) (p : prog T A) : Prop :=
  match p with
  | Done _ => True
  | Do m k => ∀ s s' x, m s = Some (s', x) → R s s' ∧ atoms R (k x)
  end.

Lemma atoms_bind {T A B} (R : T → T → Prop) (p : prog T A) (f : A → prog T B) :
  atoms R p → (∀ x, atoms R (f x)) → atoms R (p ≫= f).
Proof.
  intros Hp Hf. induction p as [a|C m k IH]; [apply Hf|]. intros s s' x E.
  destruct (Hp s s' x E) as [HR Hk]. split; [done|]. by apply IH.
Qed.

(** * Interleavings *)

(** Goroutines over a shared state: one of them makes its next access. *)
Inductive istep {T A} : T * list (prog T A) → T * list (prog T A) → Prop :=
  | istep_do s s' ts i B (m : GoM T B) k x :
      ts !! i = Some (Do m k) → m s = Some (s', x) → istep (s, ts) (s', <[i := k x]> ts).

(** A goroutine whose next access panics. *)
Definition panics {T A} (c : T * list (prog T A)) : Prop :=
  ∃ i B (m : GoM T B) k, c.2 !! i = Some (Do m k) ∧ m c.1 = None.

Definition finished {T A} (c : T * list (prog T A)) : Prop := Forall (λ p, ∃ a, p = Done a) c.2.

Definition finishedb {T A} (c : T * list (prog T A)) : bool :=
  forallb (λ p, match p with Done _ => true | Do _ _ => false end) c.2.

Lemma finishedb_spec {T A} (c : T * list (prog T A)) : finishedb c = true → finished c.
Proof.
  unfold finishedb, finished. induction c.2 as [|[a|B m k] ts IH]; simpl; [done| |done].
  intros Hf. constructor; [by exists a | by apply IH].
Qed.

(** A goroutine that has not finished can always go on, or panics. *)
Lemma istep_progress {T A} (c : T * list (prog T A)) :
  finished c ∨ panics c ∨ ∃ c', istep c c'.
Proof.
  destruct c as [s ts]. unfold finished, panics; simpl.
  assert (Forall (λ p : prog T A, ∃ a, p = Done a) ts ∨ ∃ i B (m : GoM T B) k, ts !! i = Some (Do m k))
    as [Hf|(i & B & m & k & Hi)].
  { induction ts as [|[a|B m k] ts [IH|(i & B' & m' & k' & Hi)]].
    - by left.
    - left. constructor; [eauto | done].
    - right. by exists (S i), B', m', k'.
    - right. by exists O, B, m, k.
    - right. by exists O, B, m, k. }
  - by left.
  - right. destruct (m s) as [[s' x]|] eqn:E; [right | left]; [|by exists i, B, m, k].
    eexists. by eapply istep_do.
Qed.

(** A schedule names the goroutine of each step. *)
Definition istep_at {T A} (i : nat) (c : T * list (prog T A)) : option (T * list (prog T A)) :=
  match c.2 !! i with
  | Some (Do m k) => '(s', x) ← m c.1; Some (s', <[i := k x]> c.2)
  | _ => None
  end.

Fixpoint irun {T A} (l : list nat) (c : T * list (prog T A)) : option (T * list (prog T A)) :=
  match l with
  | [] => Some c
  | i :: l' => c' ← istep_at i c; irun l' c'
  end.

Lemma irun_steps {T A} l (c c' : T * list (prog T A)) : irun l c = Some c' → nsteps istep (length l) c c'.
Proof.
  revert c. induction l as [|i l IH]; intros [s ts]; simpl; [intros [= <-]; constructor|].
  unfold istep_at; simpl. destruct (ts !! i) as [[a|B m k]|] eqn:Ei; simpl; [done| |done].
  destruct (m s) as [[s' x]|] eqn:Em; simpl; [|done]. intros Hr.
  econstructor; [by eapply istep_do | by apply IH].
Qed.

(** The next access of the goroutine between the others. *)
Lemma istep_mid {T A B} (ts1 ts2 : list (prog T A)) s s' (m : GoM T B) k x :
  m s = Some (s', x) → istep (s, ts1 ++ Do m k :: ts2) (s', ts1 ++ k x :: ts2).
Proof.
  intros E. replace (ts1 ++ k x :: ts2) with (<[length ts1 := k x]> (ts1 ++ Do m k :: ts2)).
  - by eapply istep_do; [apply list_lookup_middle|].
  - by rewrite insert_app_r_alt, Nat.sub_diag by lia.
Qed.

(** * Invariants of interleavings *)

(** Every access of the program keeps [I], and its result satisfies [Q]. *)
Fixpoint keeps {T A} (I : T → Prop) (Q : A → Prop) (p : prog T A) : Prop :=
  match p with
  | Done a => Q a
  | Do m k => ∀ s s' x, I s → m s = Some (s', x) → I s' ∧ keeps I Q (k x)
  end.

Lemma keeps_bind {T A B} (I : T → Prop) (P : A → Prop) (Q : B → Prop) (p : prog T A) (f : A → prog T B) :
  keeps I P p → (∀ x, P x → keeps I Q (f x)) → keeps I Q (p ≫= f).
Proof.
  unfold mbind, prog_bind. intros Hp Hf. induction p as [a|C m k IH]; simpl in *; [auto|].
  intros s s' x Hs E. destruct (Hp s s' x Hs E). auto.
Qed.

Lemma keeps_steps {T A} (I : T → Prop) (Q : A → Prop) (c c' : T * list (prog T A)) :
  rtc istep c c' → I c.1 → Forall (keeps I Q) c.2 → I c'.1 ∧ Forall (keeps I Q) c'.2.
Proof.
  induction 1 as [c|c c1 c' Hs _ IH]; intros Hi HF; [done|].
  destruct Hs as [s s' ts i B m k x Ei Em]. simpl in *.
  pose proof (Forall_lookup_1 _ _ _ _ HF Ei) as Hk. destruct (Hk s s' x Hi Em) as [Hs' Hk'].
  apply IH; [done|]. by apply Forall_insert.
Qed.

Lemma irun_reach {T A} l (c c' : T * list (prog T A)) : irun l c = Some c' → rtc istep c c'.
Proof. intros E. eapply rtc_nsteps_2, irun_steps, E. Qed.
