(* ===== verification/Strconv.v ===== *)
(** Decimal text of unsigned integers and splitting, as the program uses them
    from strconv, fmt and strings. *)

From S2P Require Import Prelude.

Definition digit (d : Z) : byte := to_byte (48 + d).

(** The decimal digits of [n], at most [fuel] of them. *)
Fixpoint digits (fuel : nat) (n : Z) : bytes :=
  match fuel with
  | O => []
  | S fuel' => if n <? 10 then [digit n] else digits fuel' (n / 10) ++ [digit (n mod 10)]
  end.

(** [%d] of a uint64: twenty digits are enough. *)
Definition FormatUint (n : Z) : bytes := digits 20 n.

(** The loop of [strconv.ParseUint] in base 10 at 64 bits. *)
Definition digit_value (c : byte) : option Z :=
  let d := bval c - 48 in if (0 <=? d) && (d <=? 9) then Some d else None.

Fixpoint parse_loop (acc : Z) (s : bytes) : option Z :=
  match s with
  | [] => Some acc
  | c :: s' =>
      d ← digit_value c;
      if max_uint64 / 10 + 1 <=? acc then None
      else if max_uint64 <? acc * 10 + d then None
      else parse_loop (acc * 10 + d) s'
  end.

(** [strconv.ParseUint(s, 10, 64)]; [None] is a syntax or a range error. *)
Definition ParseUint (s : bytes) : option Z :=
  match s with [] => None | _ => parse_loop 0 s end.

(** [strings.Split] at a separator of one byte. *)
Fixpoint Split (sep : byte) (s : bytes) : list bytes :=
  match s with
  | [] => [[]]
  | c :: s' =>
      if decide (c = sep) then [] :: Split sep s'
      else match Split sep s' with
           | [] => [[c]]
           | x :: l => (c :: x) :: l
           end
  end.

(** * Facts *)

Lemma digit_value_digit d : 0 <= d <= 9 → digit_value (digit d) = Some d.
Proof.
  intros Hd. unfold digit_value, digit. rewrite bval_to_byte, Z.mod_small by lia.
  replace (48 + d - 48) with d by lia.
  destruct (Z.leb_spec 0 d), (Z.leb_spec d 9); simpl; (done || lia).
Qed.

Lemma parse_loop_app acc a b : parse_loop acc (a ++ b) = parse_loop acc a ≫= λ n, parse_loop n b.
Proof.
  revert acc. induction a as [|c a IH]; intros acc; [done|]. simpl.
  destruct (digit_value c) as [d|]; [|done]. simpl. case_match; [done|]. by case_match.
Qed.

Lemma parse_digits fuel n : 0 <= n < 10 ^ Z.of_nat fuel → n <= max_uint64 → parse_loop 0 (digits fuel n) = Some n.
Proof.
  revert n. induction fuel as [|fuel IH]; intros n Hn Hmax; [simpl in *; f_equal; lia|].
  cbn [digits]. destruct (Z.ltb_spec n 10) as [Hlt|Hge].
  - simpl. rewrite digit_value_digit by lia. simpl. change (0 * 10 + n) with n.
    destruct (Z.ltb_spec max_uint64 n); [lia | done].
  - rewrite parse_loop_app, IH.
    + simpl. rewrite digit_value_digit by mlia. simpl.
      destruct (Z.leb_spec (max_uint64 / 10 + 1) (n / 10)); [unfold max_uint64 in *; mlia|].
      replace (n / 10 * 10 + n mod 10) with n by mlia. destruct (Z.ltb_spec max_uint64 n); [lia | done].
    + rewrite Nat2Z.inj_succ, Z.pow_succ_r in Hn by lia. split; [mlia|]. apply Z.div_lt_upper_bound; lia.
    + mlia.
Qed.

Lemma digits_cons fuel n : (0 < fuel)%nat → digits fuel n ≠ [].
Proof. destruct fuel; [lia|]. simpl. intros _. case_match; [done|]. by destruct (digits fuel _). Qed.

Lemma ParseUint_FormatUint n : is_uint64 n → ParseUint (FormatUint n) = Some n.
Proof.
  intros Hn. unfold ParseUint, FormatUint. pose proof (digits_cons 20 n ltac:(lia)) as Hne.
  destruct (digits 20 n) eqn:E; [done|]. rewrite <-E.
  apply parse_digits; unfold is_uint64, two64, max_uint64 in *; [|lia].
  change (10 ^ Z.of_nat 20) with 100000000000000000000. lia.
Qed.

Lemma digits_no_comma fuel n : 0 <= n → to_byte 44 ∉ digits fuel n.
Proof.
  revert n. induction fuel as [|fuel IH]; intros n Hn; simpl; [by intros ?%elem_of_nil|].
  assert (∀ d, 0 <= d <= 9 → to_byte 44 ≠ digit d) as Hd.
  { intros d Hd E%(f_equal bval). unfold digit in E. rewrite !bval_to_byte, !Z.mod_small in E by lia. lia. }
  destruct (Z.ltb_spec n 10).
  - rewrite list_elem_of_singleton. apply Hd. lia.
  - rewrite elem_of_app, list_elem_of_singleton. intros [Hin|E]; [by apply IH in Hin; [|mlia]|].
    revert E. apply Hd. mlia.
Qed.

Lemma Split_none sep s : sep ∉ s → Split sep s = [s].
Proof.
  induction s as [|c s IH]; simpl; intros Hs; [done|]. apply not_elem_of_cons in Hs as [Hne Hs].
  rewrite decide_False by done. by rewrite IH.
Qed.

Lemma Split_app sep a b : sep ∉ a → Split sep (a ++ sep :: b) = a :: Split sep b.
Proof.
  induction a as [|c a IH]; simpl; intros Ha; [by rewrite decide_True|].
  apply not_elem_of_cons in Ha as [Hne Ha]. rewrite decide_False by done. by rewrite IH.
Qed.

Lemma Split_length sep s : length (Split sep s) = S (length (filter (λ c, c = sep) s)).
Proof.
  induction s as [|c s IH]; simpl; [done|]. rewrite filter_cons. case_decide; simpl; [by rewrite IH|].
  rewrite <-IH. by destruct (Split sep s).
Qed.
