(* ===== verification/Storage.v ===== *)
(** The storage engine interface: pkg/storage/interface.go and
    pkg/storage/errors.go.

    [err] is the type of the errors the program distinguishes, [err_is] is
    [errors.Is] on it.  [KvStorage] has one operation per method of the Go
    interface, and [KvSpec] is the contract the comments of the interface
    document: reads return what the engine's ordered map holds or fail, a batch
    is applied atomically or not at all, and only an uncertain error (which is
    not a failed comparison) leaves it open which.  The backend's theorems are proved against [KvSpec]. *)

From S2P Require Import Prelude GoMonad.

(** * Errors *)

Inductive err :=
  | ErrUnsupported
  | ErrKeyNotFound
  | ErrKeyDuplicated
  | ErrCASFailed
  | ErrUnexpectedRet
  | ErrUnavailable
  | ErrUncertainResult
  (** [*errUncertainResult] and [*Conflict] *)
  | errUncertainResult (originErr : err)
  | Conflict (idx : nat) (key : bytes) (val : slice)
  (** [io.EOF], the context errors, and [coder.ErrInvalidRevFormat] *)
  | EOF
  | DeadlineExceeded
  | Canceled
  | ErrInvalidRevFormat
  | ErrRevisionDriftBack
  (** [wait.ErrWaitTimeout] *)
  | ErrWaitTimeout
  (** [errors.Wrapf] and [fmt.Errorf] *)
  | Wrapped (cause : err)
  | Errorf (msg : string).

#[global] Instance err_eq_dec : EqDecision err.
Proof. solve_decision. Defined.

Definition NewErrUncertainResult (originErr : err) : err := errUncertainResult originErr.
Definition NewErrConflict (idx : nat) (key : bytes) (val : slice) : err := Conflict idx key val.

(** [errors.Is]: identity, then the error's own [Is] method, then its cause. *)
Fixpoint err_is (e target : err) : bool :=
  bool_decide (e = target) ||
  match e with
  | errUncertainResult origin =>
      bool_decide (target = ErrUncertainResult) || err_is origin target
  | Conflict _ _ _ => bool_decide (target = ErrCASFailed)
  | Wrapped cause => err_is cause target
  | _ => false
  end.

(** [errors.Is] on a possibly-nil error. *)
Definition is_err (e : option err) (target : err) : bool :=
  match e with Some e => err_is e target | None => false end.

(** [err == target] *)
Definition err_eq (e : option err) (target : err) : bool := bool_decide (e = Some target).

(** * Data of the interface *)

Record Partition := mkPartition { Start : bytes; End : bytes }.

(** What an iterator points at: key, value, and the engine's version of the
    entry (0 for engines without one). *)
Record kvitem := mkItem { it_key : bytes; it_val : slice; it_ver : Z }.

(** An iterator works on a snapshot: the entries its successive [Next] calls
    reach, and the error the call after the last of them returns. *)
Record iter := mkIter { it_items : list kvitem; it_end : err }.

(** The operations of a write batch. *)
Inductive bop :=
  | PutIfNotExist (key : bytes) (val : slice) (ttl : Z)
  | CAS (key : bytes) (newVal oldVal : slice) (ttl : Z)
  | Put (key : bytes) (val : slice) (ttl : Z)
  | Del (key : bytes)
  | DelCurrent (it : kvitem).

Class KvStorage (S : Type) := {
  kv_tso : GoM S (Z * option err);
  kv_partitions : bytes → bytes → GoM S (list Partition * option err);
  kv_get : bytes → GoM S (slice * option err);
  kv_iter : bytes → bytes → Z → Z → GoM S (err + iter);
  kv_commit : list bop → GoM S (option err);
  kv_del : bytes → GoM S (option err);
  kv_del_current : kvitem → GoM S (option err);
  kv_support_ttl : bool;
}.

(** * The contract *)

Abbreviation kvmap := (gmap bytes slice).

(** The effect of one operation on the engine's map; [None] is a failed
    comparison. *)
Definition bop_apply (op : bop) (m : kvmap) : option kvmap :=
  match op with
  | PutIfNotExist k v _ => match m !! k with None => Some (<[k:=v]> m) | Some _ => None end
  | CAS k new old _ =>
      match m !! k with
      | Some v => if bytes_eqb (content v) (content old) then Some (<[k:=new]> m) else None
      | None => None
      end
  | Put k v _ => Some (<[k:=v]> m)
  | Del k => Some (delete k m)
  | DelCurrent it =>
      if bytes_eqb (content (default None (m !! it_key it))) (content (it_val it))
      then Some (delete (it_key it) m) else None
  end.

Fixpoint batch_apply (ops : list bop) (m : kvmap) : option kvmap :=
  match ops with
  | [] => Some m
  | op :: ops' => match bop_apply op m with Some m' => batch_apply ops' m' | None => None end
  end.

(** The comparing operations are only used on keys whose stored value is not a
    nil slice (the code's revision records, compact record and election
    record), where "nil" and "absent" need not be told apart. *)
Definition bop_pre (op : bop) (m : kvmap) : Prop :=
  match op with
  | PutIfNotExist k _ _ | CAS k _ _ _ => m !! k ≠ Some None
  | _ => True
  end.

Fixpoint batch_pre (ops : list bop) (m : kvmap) : Prop :=
  match ops with
  | [] => True
  | op :: ops' =>
      bop_pre op m ∧ ∀ m', bop_apply op m = Some m' → batch_pre ops' m'
  end.

Definition get_post (m : kvmap) (k : bytes) (r : slice * option err) : Prop :=
  match r.2 with
  | None => m !! k = Some r.1
  | Some e => r.1 = None ∧ (e = ErrKeyNotFound → m !! k = None)
  end.

Definition commit_post (m : kvmap) (ops : list bop) (e : option err) (m' : kvmap) : Prop :=
  match e with
  | None => batch_apply ops m = Some m'
  | Some e =>
      m' = m ∨
      (err_is e ErrUncertainResult = true ∧ err_is e ErrCASFailed = false ∧
       batch_apply ops m = Some m')
  end.

Definition del_post (m : kvmap) (k : bytes) (e : option err) (m' : kvmap) : Prop :=
  match e with
  | None => m' = delete k m
  | Some e =>
      err_is e ErrCASFailed = false ∧
      (m' = m ∨ (err_is e ErrUncertainResult = true ∧ m' = delete k m))
  end.

Definition del_current_post (m : kvmap) (it : kvitem) (e : option err) (m' : kvmap) : Prop :=
  match e with
  | None =>
      m' = delete (it_key it) m ∧
      content (default None (m !! it_key it)) = content (it_val it)
  | Some e =>
      m' = m ∨
      (err_is e ErrUncertainResult = true ∧ m' = delete (it_key it) m ∧
       content (default None (m !! it_key it)) = content (it_val it))
  end.

Definition item_kv (it : kvitem) : bytes * slice := (it_key it, it_val it).

(** An iterator with [start <= end] yields the entries of [[start, end)] in
    ascending order; one with [start > end] yields those of [(end, start]] in
    descending order, except that over an empty range it may yield entries
    below it.  A positive limit bounds from below how many entries are yielded
    before [io.EOF]; any other final error may come after any of them, and is
    neither [ErrKeyNotFound] nor a failed comparison.

    interface.go leaves the limit and the borders open; this is what the three
    engines have in common.  memkv keeps no limit at all, the TiKV adapter yields
    one entry more than it, and the first entry of its descending scans is not
    compared with the border; the exact results are in MemKV, TikvSpec and
    BadgerSpec. *)
Definition iter_err (e : err) : Prop :=
  err_is e ErrKeyNotFound = false ∧ err_is e ErrCASFailed = false.

Definition iter_post (m : kvmap) (start end_ : bytes) (limit : Z) (it : iter) : Prop :=
  let yielded := item_kv <$> it_items it in
  iter_err (it_end it) ∧
  if negb (bytes_ltb end_ start) then
    yielded `prefix_of` asc_range m start end_ ∧
    (it_end it = EOF →
     if limit <=? 0 then yielded = asc_range m start end_
     else take (Z.to_nat limit) (asc_range m start end_) `prefix_of` yielded)
  else
    match desc_range m start end_ with
    | [] => Forall (λ kv, m !! kv.1 = Some kv.2 ∧ bytes_le kv.1 end_) yielded
    | (_ :: _) as full =>
        yielded `prefix_of` full ∧
        (it_end it = EOF →
         if limit <=? 0 then yielded = full
         else take (Z.to_nat limit) full `prefix_of` yielded)
    end.

(** What every engine promises.  [kv_inv] is its representation invariant and
    [kv_view] the ordered map it stands for. *)
Class KvSpec (S : Type) `{KvStorage S} := {
  kv_inv : S → Prop;
  kv_view : S → kvmap;
  kv_tso_spec s :
    kv_inv s → wp kv_tso (λ r s', kv_inv s' ∧ kv_view s' = kv_view s ∧ is_uint64 r.1) s;
  kv_get_spec k s :
    kv_inv s →
    wp (kv_get k) (λ r s', kv_inv s' ∧ kv_view s' = kv_view s ∧ get_post (kv_view s) k r) s;
  kv_iter_spec start end_ ts limit s :
    kv_inv s →
    wp (kv_iter start end_ ts limit) (λ r s',
      kv_inv s' ∧ kv_view s' = kv_view s ∧
      match r with
      | inl e => iter_err e
      | inr it => iter_post (kv_view s) start end_ limit it
      end) s;
  kv_commit_spec ops s :
    kv_inv s → batch_pre ops (kv_view s) →
    wp (kv_commit ops) (λ e s', kv_inv s' ∧ commit_post (kv_view s) ops e (kv_view s')) s;
  (** A conflict on the first operation carries the value found. *)
  kv_commit_conflict k v ttl ops k' v' s s' :
    kv_inv s → batch_pre (PutIfNotExist k v ttl :: ops) (kv_view s) →
    kv_commit (PutIfNotExist k v ttl :: ops) s = Some (s', Some (Conflict 0 k' v')) →
    kv_view s !! k = Some v';
  kv_del_spec k s :
    kv_inv s →
    wp (kv_del k) (λ e s', kv_inv s' ∧ del_post (kv_view s) k e (kv_view s')) s;
  kv_del_current_spec it s :
    kv_inv s →
    wp (kv_del_current it) (λ e s',
      kv_inv s' ∧ del_current_post (kv_view s) it e (kv_view s')) s;
}.

(** What an engine promises that has no failures of its own: the only error is
    a failed comparison. *)
Class KvReliable (S : Type) `{KvSpec S} := {
  kv_tso_ok s : kv_inv s → wp kv_tso (λ r _, r.2 = None) s;
  kv_get_ok k s :
    kv_inv s →
    wp (kv_get k) (λ r _, r.2 = match kv_view s !! k with
                                | Some _ => None | None => Some ErrKeyNotFound end) s;
  kv_iter_ok start end_ ts limit s :
    kv_inv s → wp (kv_iter start end_ ts limit) (λ r _, ∃ it, r = inr it ∧ it_end it = EOF) s;
  kv_commit_ok ops s :
    kv_inv s → batch_pre ops (kv_view s) →
    wp (kv_commit ops) (λ e _,
      match batch_apply ops (kv_view s) with
      | Some _ => e = None
      | None => ∃ i k v, e = Some (Conflict i k v) ∨ e = Some ErrCASFailed
      end) s;
  kv_del_ok k s : kv_inv s → wp (kv_del k) (λ e _, e = None) s;
  kv_partitions_ok start end_ s : kv_inv s → wp (kv_partitions start end_) (λ r _, r.2 = None) s;
}.

(** * Facts shared by the clients *)

Lemma commit_post_error m ops e m' :
  commit_post m ops (Some e) m' → err_is e ErrUncertainResult = false → m' = m.
Proof. intros [?|[E ?]]; congruence. Qed.

Lemma conflict_is_cas i k v : err_is (Conflict i k v) ErrCASFailed = true.
Proof. reflexivity. Qed.

Lemma bop_apply_lookup_ne op m m' k :
  bop_apply op m = Some m' →
  match op with
  | PutIfNotExist k' _ _ | CAS k' _ _ _ | Put k' _ _ | Del k' => k' ≠ k
  | DelCurrent it => it_key it ≠ k
  end → m' !! k = m !! k.
Proof.
  destruct op; simpl; intros E Hne; repeat case_match; simplify_eq;
    (by rewrite lookup_insert_ne) || (by rewrite lookup_delete_ne).
Qed.
