(* ===== verification/Coder.v ===== *)
(** Internal keys and revision values: pkg/backend/coder.

    A user key [k] at revision [r] is stored under
    [magic ++ k ++ "$" ++ bigendian r]; revision 0 is the key of the revision
    record, whose value is the latest revision (8 bytes), with one more byte
    when the key is deleted. *)

From S2P Require Import Prelude GoMonad Storage.

Definition magicBytes : bytes := [Byte.x57; Byte.xfb; Byte.x80; Byte.x8b].
Definition splitByte : byte := Byte.x24.

(** [binary.BigEndian.PutUint64] on a fresh 8-byte buffer. *)
Definition uint64ToBytes (n : Z) : bytes := be_bytes 8 n.

(** [binary.BigEndian.Uint64]: reads the first 8 bytes, panics on a shorter
    slice. *)
Definition Uint64 (b : bytes) : option Z :=
  if (8 <=? length b)%nat then Some (be_value (take 8 b)) else None.

Definition EncodeObjectKey (userKey : bytes) (revision : Z) : bytes :=
  magicBytes ++ userKey ++ splitByte :: uint64ToBytes revision.

Definition EncodeRevisionKey (key : bytes) : bytes := EncodeObjectKey key 0.

(** [Decode] slices the key at fixed distances from its ends; a slice
    expression out of bounds panics ([None]).  The results are the user key,
    the revision and the error. *)
Definition Decode (internalKey : bytes) : option (bytes * Z * option err) :=
  let len := length internalKey in
  if (len <? 4)%nat then None else
  if negb (bytes_eqb (take 4 internalKey) magicBytes)
  then Some ([], 0, Some (Errorf "magic number not right for object key"))
  else
    if (len <? 9)%nat then None else
    match internalKey !! (len - 9)%nat with
    | None => None
    | Some b =>
        if negb (bool_decide (b = splitByte))
        then Some ([], 0, Some (Errorf "split byte not right for object key"))
        else if (len <? 13)%nat then None
        else Some (drop 4 (take (len - 9) internalKey),
                   be_value (drop (len - 8) internalKey), None)
    end.

Definition RevisionValueLength : nat := 8.
Definition RevisionValueLengthWithDeletionFlag : nat := 9.

Definition ParseRevision (revisionBytes : bytes) : Z * bool * option err :=
  if bool_decide (length revisionBytes = RevisionValueLength)
  then (be_value (take 8 revisionBytes), false, None)
  else if bool_decide (length revisionBytes = RevisionValueLengthWithDeletionFlag)
  then (be_value (take 8 revisionBytes), true, None)
  else (0, false, Some ErrInvalidRevFormat).

Arguments uint64ToBytes : simpl never.
Arguments EncodeObjectKey : simpl never.
Arguments EncodeRevisionKey : simpl never.
Arguments Decode : simpl never.

(** * Words *)

Lemma two64_pow : two64 = 256 ^ Z.of_nat 8.
Proof. reflexivity. Qed.

Lemma uint64ToBytes_length n : length (uint64ToBytes n) = 8%nat.
Proof. apply be_bytes_length. Qed.

Lemma be_value_uint64 r : is_uint64 r → be_value (uint64ToBytes r) = r.
Proof.
  intros Hr. unfold uint64ToBytes. rewrite be_value_bytes, <-two64_pow.
  by apply Z.mod_small.
Qed.

Lemma uint64ToBytes_inj r r' :
  is_uint64 r → is_uint64 r' → uint64ToBytes r = uint64ToBytes r' → r = r'.
Proof. intros Hr Hr'. apply be_bytes_inj; by rewrite <-two64_pow. Qed.

Lemma Uint64_uint64ToBytes r s : is_uint64 r → Uint64 (uint64ToBytes r ++ s) = Some r.
Proof.
  intros Hr. unfold Uint64. rewrite length_app, uint64ToBytes_length.
  rewrite take_app_length' by by rewrite uint64ToBytes_length.
  by rewrite be_value_uint64.
Qed.

(** * Decoding is total on keys of at least nine bytes, and inverts encoding *)

Lemma EncodeObjectKey_length k r : length (EncodeObjectKey k r) = (length k + 13)%nat.
Proof.
  unfold EncodeObjectKey.
  rewrite !length_app, length_cons, uint64ToBytes_length. simpl length. lia.
Qed.

Lemma EncodeObjectKey_split k r :
  EncodeObjectKey k r = (magicBytes ++ k) ++ splitByte :: uint64ToBytes r.
Proof. unfold EncodeObjectKey. by rewrite app_assoc. Qed.

Lemma Decode_Encode k r :
  is_uint64 r → Decode (EncodeObjectKey k r) = Some (k, r, None).
Proof.
  intros Hr. unfold Decode. rewrite EncodeObjectKey_length.
  destruct (Nat.ltb_spec (length k + 13) 4); [lia|].
  change (take 4 (EncodeObjectKey k r)) with magicBytes.
  rewrite bytes_eqb_refl; simpl negb; cbv iota.
  destruct (Nat.ltb_spec (length k + 13) 9); [lia|].
  assert (length (magicBytes ++ k) = (length k + 13 - 9)%nat) as Hl
    by (rewrite length_app; simpl; lia).
  rewrite EncodeObjectKey_split, lookup_app_r by lia.
  rewrite Hl, Nat.sub_diag; simpl lookup; cbv iota.
  rewrite bool_decide_true by done; simpl negb; cbv iota.
  destruct (Nat.ltb_spec (length k + 13) 13); [lia|].
  rewrite take_app_length' by done.
  change (drop 4 (magicBytes ++ k)) with k.
  replace (length k + 13 - 8)%nat with (length (magicBytes ++ k) + 1)%nat by lia.
  rewrite drop_app_add.
  change (drop 1 (splitByte :: uint64ToBytes r)) with (uint64ToBytes r).
  by rewrite be_value_uint64.
Qed.

Lemma EncodeObjectKey_inj k r k' r' :
  is_uint64 r → is_uint64 r' →
  EncodeObjectKey k r = EncodeObjectKey k' r' → k = k' ∧ r = r'.
Proof.
  intros Hr Hr' E. apply (f_equal Decode) in E.
  rewrite !Decode_Encode in E by done. by simplify_eq.
Qed.

Lemma Decode_total ik : (9 <= length ik)%nat → is_Some (Decode ik).
Proof.
  intros Hl. unfold Decode.
  destruct (Nat.ltb_spec (length ik) 4); [lia|].
  destruct (bytes_eqb (take 4 ik) magicBytes) eqn:Em; simpl; [|eauto].
  apply bytes_eqb_spec in Em.
  destruct (Nat.ltb_spec (length ik) 9); [lia|].
  destruct (ik !! (length ik - 9)%nat) as [b|] eqn:Eb;
    [|apply lookup_ge_None in Eb; lia].
  case_bool_decide as Es; simpl; [|eauto]. subst b.
  destruct (Nat.ltb_spec (length ik) 13); [|eauto]. exfalso.
  assert (take 4 ik !! (length ik - 9)%nat = Some splitByte) as E
    by (rewrite lookup_take_lt by lia; done).
  rewrite Em in E. unfold magicBytes, splitByte in E.
  destruct (length ik - 9)%nat as [|[|[|[|n]]]]; simpl in E; discriminate E || lia.
Qed.

(** A decodable key is an encoded one: [Decode] accepts nothing else. *)
Lemma Decode_sound ik k r :
  Decode ik = Some (k, r, None) → ik = EncodeObjectKey k r ∧ is_uint64 r.
Proof.
  unfold Decode.
  destruct (Nat.ltb_spec (length ik) 4); [done|].
  destruct (bytes_eqb (take 4 ik) magicBytes) eqn:Em; simpl; [|done].
  destruct (Nat.ltb_spec (length ik) 9); [done|].
  destruct (ik !! (length ik - 9)%nat) as [b|] eqn:Eb; [|done].
  case_bool_decide as Es; simpl; [|done]. subst b.
  destruct (Nat.ltb_spec (length ik) 13); [done|]. intros [= <- <-].
  apply bytes_eqb_spec in Em.
  set (w := drop (length ik - 8) ik).
  assert (length w = 8%nat) as Hw by (unfold w; rewrite length_drop; lia).
  pose proof (be_value_range w) as Hv. rewrite Hw, <-two64_pow in Hv.
  split; [|exact Hv].
  assert (uint64ToBytes (be_value w) = w) as Ew
    by (unfold uint64ToBytes; rewrite <-Hw; apply be_bytes_value).
  rewrite EncodeObjectKey_split, Ew, <-Em.
  assert (take 4 ik = take 4 (take (length ik - 9) ik)) as E4
    by (rewrite take_take; f_equal; lia).
  rewrite E4, take_drop. unfold w.
  replace (length ik - 8)%nat with (S (length ik - 9))%nat by lia.
  by rewrite <-(drop_S _ _ _ Eb), take_drop.
Qed.

(** * Encoding preserves order *)

(** The bytes of user keys are greater than the split byte. *)
Definition valid_key (k : bytes) : Prop := Forall (λ b, bval splitByte < bval b) k.

#[global] Instance valid_key_dec k : Decision (valid_key k).
Proof. unfold valid_key. apply _. Defined.

Lemma EncodeObjectKey_compare k1 r1 k2 r2 :
  valid_key k1 → valid_key k2 → is_uint64 r1 → is_uint64 r2 →
  bytes_compare (EncodeObjectKey k1 r1) (EncodeObjectKey k2 r2) =
  match bytes_compare k1 k2 with Eq => r1 ?= r2 | c => c end.
Proof.
  intros H1 H2 Hr1 Hr2. unfold EncodeObjectKey. rewrite bytes_compare_app.
  revert k2 H2. induction H1 as [|x k1 Hx H1 IH]; intros k2 H2.
  - destruct H2 as [|y k2 Hy H2]; simpl app; simpl bytes_compare at 2.
    + change (splitByte :: uint64ToBytes r1) with ([splitByte] ++ uint64ToBytes r1).
      change (splitByte :: uint64ToBytes r2) with ([splitByte] ++ uint64ToBytes r2).
      rewrite bytes_compare_app, <-(app_nil_r (uint64ToBytes r1)), <-(app_nil_r (uint64ToBytes r2)).
      unfold uint64ToBytes. rewrite be_bytes_compare_app, <-two64_pow.
      rewrite !Z.mod_small by done. by destruct (r1 ?= r2).
    + cbn [bytes_compare]. by rewrite (proj2 (Z.compare_lt_iff _ _) Hy).
  - destruct H2 as [|y k2 Hy H2]; simpl app; cbn [bytes_compare].
    + by rewrite (proj2 (Z.compare_gt_iff _ _) Hx).
    + destruct (bval x ?= bval y); [by apply IH | done | done].
Qed.

Section order.
Context (k1 k2 : bytes) (r1 r2 : Z).
Context (H1 : valid_key k1) (H2 : valid_key k2) (Hr1 : is_uint64 r1) (Hr2 : is_uint64 r2).

Lemma EncodeObjectKey_lt :
  bytes_lt (EncodeObjectKey k1 r1) (EncodeObjectKey k2 r2) ↔
  bytes_lt k1 k2 ∨ (k1 = k2 ∧ r1 < r2).
Proof.
  unfold bytes_lt. rewrite EncodeObjectKey_compare by done.
  rewrite <-(bytes_compare_eq k1 k2). destruct (bytes_compare k1 k2); simpl;
    rewrite ?Z.compare_lt_iff; intuition congruence.
Qed.

Lemma EncodeObjectKey_le :
  bytes_le (EncodeObjectKey k1 r1) (EncodeObjectKey k2 r2) ↔
  bytes_lt k1 k2 ∨ (k1 = k2 ∧ r1 <= r2).
Proof.
  unfold bytes_le, bytes_lt. rewrite EncodeObjectKey_compare by done.
  rewrite <-(bytes_compare_eq k1 k2). destruct (bytes_compare k1 k2); simpl;
    rewrite ?Z.compare_gt_iff; intuition (congruence || lia).
Qed.
End order.

(** * Revision values *)

Lemma ParseRevision_live r :
  is_uint64 r → ParseRevision (uint64ToBytes r) = (r, false, None).
Proof.
  intros Hr. unfold ParseRevision.
  rewrite bool_decide_true by apply uint64ToBytes_length.
  rewrite take_ge by by rewrite uint64ToBytes_length.
  by rewrite be_value_uint64.
Qed.

Lemma ParseRevision_deleted r b :
  is_uint64 r → ParseRevision (uint64ToBytes r ++ [b]) = (r, true, None).
Proof.
  intros Hr. unfold ParseRevision.
  assert (length (uint64ToBytes r ++ [b]) = 9%nat) as Hl
    by by rewrite length_app, uint64ToBytes_length.
  rewrite bool_decide_false by (rewrite Hl; done).
  rewrite bool_decide_true by done.
  rewrite take_app_length' by by rewrite uint64ToBytes_length.
  by rewrite be_value_uint64.
Qed.
