(* ===== verification/MemKV.v ===== *)
(** The in-memory engine: pkg/storage/memkv.

    The skip list of github.com/huandu/skiplist is a parameter: [SkipList] has
    the methods the engine calls, [SkipListSpec] what its documentation says of
    them (an ordered map; [Next] and [Prev] walk it in key order).  The engine
    built on it is shown to satisfy the storage contract. *)

From S2P Require Import Prelude GoMonad Storage.

(** * The skip list *)

Class SkipList (L : Type) := {
  skl_get : bytes → L → option slice;
  skl_set : bytes → slice → L → L;
  skl_remove : bytes → L → L;
  (** [elem.Next()] and [elem.Prev()] of the element with the given key *)
  skl_next : bytes → L → option (bytes * slice);
  skl_prev : bytes → L → option (bytes * slice);
  skl_len : L → nat;
}.

Class SkipListSpec (L : Type) `{SkipList L} := {
  skl_map : L → kvmap;
  skl_get_spec k l : skl_get k l = skl_map l !! k;
  skl_set_spec k v l : skl_map (skl_set k v l) = <[k:=v]> (skl_map l);
  skl_remove_spec k l : skl_map (skl_remove k l) = delete k (skl_map l);
  skl_next_spec l pre k v post :
    entries (skl_map l) = pre ++ (k, v) :: post → skl_next k l = head post;
  skl_prev_spec l pre k v post :
    entries (skl_map l) = pre ++ (k, v) :: post → skl_prev k l = last pre;
  skl_len_spec l : skl_len l = length (entries (skl_map l));
}.

Section memkv.
Context {L : Type} `{SkipList L}.

(** [store]: the list, the removals scheduled by [time.AfterFunc] and the
    clock read by [time.Now().UnixNano()]. *)
Record store := mkStore {
  skl : L;
  timers : list (Z * bytes);
  clock : Z;
}.

Record cacheVal := mkCacheVal { isDeleted : bool; val : slice; ttl : Z }.

Record batch := mkBatch {
  b_err : option err;
  cache : gmap bytes cacheVal;
  opCount : nat;
}.

Definition Get (key : bytes) (l : L) : slice * option err :=
  match skl_get key l with
  | None => (None, Some ErrKeyNotFound)
  | Some v => (v, None)
  end.

Definition BeginBatchWrite : batch := mkBatch None ∅ 0.

Definition batch_get (l : L) (b : batch) (key : bytes) : slice :=
  match cache b !! key with
  | Some v => val v
  | None => (Get key l).1
  end.

Definition cache_put (key : bytes) (v : cacheVal) (b : batch) : batch :=
  mkBatch (b_err b) (<[key:=v]> (cache b)) (S (opCount b)).

Definition set_err (e : err) (b : batch) : batch := mkBatch (Some e) (cache b) (opCount b).

Definition batch_PutIfNotExist (l : L) (key : bytes) (v : slice) (t : Z) (b : batch) : batch :=
  match b_err b with
  | Some _ => b
  | None =>
      match batch_get l b key with
      | Some old => set_err (NewErrConflict (opCount b) key (Some old)) b
      | None => cache_put key (mkCacheVal false v t) b
      end
  end.

Definition batch_CAS (l : L) (key : bytes) (newVal oldVal : slice) (t : Z) (b : batch) : batch :=
  match b_err b with
  | Some _ => b
  | None =>
      match batch_get l b key with
      | None => set_err (NewErrConflict (opCount b) key None) b
      | Some v =>
          let b' := if bytes_eqb v (content oldVal) then b
                    else set_err (NewErrConflict (opCount b) key oldVal) b in
          cache_put key (mkCacheVal false newVal t) b'
      end
  end.

Definition batch_Put (key : bytes) (v : slice) (t : Z) (b : batch) : batch :=
  match b_err b with
  | Some _ => b
  | None => cache_put key (mkCacheVal false v t) b
  end.

Definition batch_Del (key : bytes) (b : batch) : batch :=
  match b_err b with
  | Some _ => b
  | None => cache_put key (mkCacheVal true None 0) b
  end.

Definition batch_DelCurrent (l : L) (it : kvitem) (b : batch) : batch :=
  match b_err b with
  | Some _ => b
  | None =>
      let b' := if bytes_eqb (content (batch_get l b (it_key it))) (content (it_val it)) then b
                else set_err ErrCASFailed b in
      cache_put (it_key it) (mkCacheVal true None 0) b'
  end.

Definition batch_op (l : L) (b : batch) (op : bop) : batch :=
  match op with
  | PutIfNotExist k v t => batch_PutIfNotExist l k v t b
  | CAS k n o t => batch_CAS l k n o t b
  | Put k v t => batch_Put k v t b
  | Del k => batch_Del k b
  | DelCurrent it => batch_DelCurrent l it b
  end.

(** [asyncRemove] schedules [store.del(key)]. *)
Definition asyncRemove (key : bytes) (seconds : Z) (s : store) : store :=
  if seconds =? 0 then s
  else mkStore (skl s) ((clock s + seconds * 1000000000, key) :: timers s) (clock s).

Definition set_skl (f : L → L) (s : store) : store := mkStore (f (skl s)) (timers s) (clock s).

Definition commit_entry (s : store) (kv : bytes * cacheVal) : store :=
  let '(k, v) := kv in
  if isDeleted v then set_skl (skl_remove k) s
  else
    let s := if ttl v =? 0 then s else asyncRemove k (ttl v) s in
    set_skl (skl_set k (val v)) s.

Definition Commit (b : batch) : GoM store (option err) := λ s,
  match b_err b with
  | Some e => Some (s, Some e)
  | None => Some (foldl commit_entry s (map_to_list (cache b)), None)
  end.

(** A batch holds the store's lock from [BeginBatchWrite] to [Commit]. *)
Definition commit_batch (ops : list bop) : GoM store (option err) := λ s,
  Commit (foldl (batch_op (skl s)) BeginBatchWrite ops) s.

Definition del (key : bytes) : GoM store (option err) := commit_batch [Del key].
Definition delCurrent (it : kvitem) : GoM store (option err) := commit_batch [DelCurrent it].

(** A timer fires: [store.del(key)] on whatever the key holds by then. *)
Definition fire (i : nat) : GoM store (option err) := λ s,
  match timers s !! i with
  | None => Some (s, None)
  | Some (_, key) => del key (mkStore (skl s) (base.delete i (timers s)) (clock s))
  end.

(** ** Iterators *)

Definition placeholder : slice := Some (str "placeholder").

Definition inRange (backward : bool) (end_ : bytes) (elem : bytes * slice) : bool :=
  match bytes_compare elem.1 end_ with
  | Lt => backward
  | Gt => negb backward
  | Eq => false
  end.

(** The loop of [init], with the length of the list as fuel. *)
Fixpoint fill (fuel : nat) (l : L) (backward : bool) (end_ : bytes)
    (elem : option (bytes * slice)) : list (bytes * slice) :=
  match fuel, elem with
  | S fuel', Some x =>
      if inRange backward end_ x then
        x :: fill fuel' l backward end_ (if backward then skl_next x.1 l else skl_prev x.1 l)
      else []
  | _, _ => []
  end.

Definition newIter (start end_ : bytes) (l : L) : L * list (bytes * slice) :=
  let backward := bytes_ltb start end_ in
  match skl_get start l with
  | Some v => (l, fill (skl_len l) l backward end_ (Some (start, v)))
  | None =>
      let l1 := skl_set start placeholder l in
      let elem := if backward then skl_next start l1 else skl_prev start l1 in
      (skl_remove start l1, fill (skl_len l1) l1 backward end_ elem)
  end.

Definition buf_items (buf : list (bytes * slice)) : list kvitem :=
  (λ kv, mkItem kv.1 kv.2 0) <$> buf.

Definition Iter (start end_ : bytes) (timestamp limit : Z) : GoM store (err + iter) := λ s,
  let '(l, buf) := newIter start end_ (skl s) in
  Some (mkStore l (timers s) (clock s), inr (mkIter (buf_items buf) EOF)).

#[global] Instance memkv : KvStorage store := {|
  kv_tso := gets (λ s, (uint64 (clock s), None));
  kv_partitions := λ start end_, mret ([mkPartition start end_], None);
  kv_get := λ key, gets (λ s, Get key (skl s));
  kv_iter := Iter;
  kv_commit := commit_batch;
  kv_del := del;
  kv_del_current := delCurrent;
  kv_support_ttl := true;
|}.
End memkv.

Arguments store : clear implicits.
Arguments mkStore {L}.
Arguments commit_batch : simpl never.

(** * The engine satisfies the contract *)

Section batch_facts.
Context {L : Type} `{SkipListSpec L}.
Implicit Types (l : L) (m : kvmap) (b : batch).

(** What the map looks like through the batch's cache. *)
Definition overlay (c : gmap bytes cacheVal) m : kvmap :=
  merge (λ o v, match o with
                | Some cv => if isDeleted cv then None else Some (val cv)
                | None => v
                end) c m.

Lemma lookup_overlay c m k :
  overlay c m !! k =
  match c !! k with
  | Some cv => if isDeleted cv then None else Some (val cv)
  | None => m !! k
  end.
Proof.
  unfold overlay. rewrite lookup_merge. unfold diag_None.
  by destruct (c !! k) as [[[] ? ?]|], (m !! k).
Qed.

Lemma overlay_put c m k v t :
  overlay (<[k:=mkCacheVal false v t]> c) m = <[k:=v]> (overlay c m).
Proof.
  apply map_eq. intros j. rewrite lookup_overlay, !lookup_insert, lookup_overlay.
  by case_decide.
Qed.

Lemma overlay_del c m k :
  overlay (<[k:=mkCacheVal true None 0]> c) m = base.delete k (overlay c m).
Proof.
  apply map_eq. intros j.
  rewrite lookup_overlay, lookup_insert, lookup_delete, lookup_overlay.
  by case_decide.
Qed.

(** A deleted cache entry has a nil value, so reading the cache reads the overlay. *)
Definition cache_ok b : Prop := map_Forall (λ _ cv, isDeleted cv = true → val cv = None) (cache b).

Lemma cache_put_ok k cv b :
  (isDeleted cv = true → val cv = None) → cache_ok b → cache_ok (cache_put k cv b).
Proof. intros ??. by apply map_Forall_insert_2. Qed.

Lemma batch_get_overlay l b k :
  cache_ok b → batch_get l b k = default None (overlay (cache b) (skl_map l) !! k).
Proof.
  intros Hok. unfold batch_get, Get. rewrite lookup_overlay, skl_get_spec.
  destruct (cache b !! k) as [cv|] eqn:E.
  - specialize (Hok _ _ E); simpl in Hok. destruct (isDeleted cv); simpl; auto.
  - by destruct (skl_map l !! k).
Qed.

Lemma batch_op_error l b op e : b_err b = Some e → batch_op l b op = b.
Proof.
  intros E. destruct op; simpl;
    unfold batch_PutIfNotExist, batch_CAS, batch_Put, batch_Del, batch_DelCurrent;
    by rewrite E.
Qed.

Lemma batch_ops_error l ops b e : b_err b = Some e → foldl (batch_op l) b ops = b.
Proof.
  intros E. induction ops as [|op ops IH]; simpl; [done|].
  by rewrite (batch_op_error _ _ _ _ E).
Qed.

(** One operation tracks [bop_apply] on the overlay. *)
Lemma batch_op_apply l b op :
  b_err b = None → cache_ok b → bop_pre op (overlay (cache b) (skl_map l)) →
  cache_ok (batch_op l b op) ∧
  match bop_apply op (overlay (cache b) (skl_map l)) with
  | Some m' =>
      b_err (batch_op l b op) = None ∧ overlay (cache (batch_op l b op)) (skl_map l) = m'
  | None =>
      ∃ e, b_err (batch_op l b op) = Some e ∧
           (e = ErrCASFailed ∨ ∃ k v, e = Conflict (opCount b) k v)
  end.
Proof.
  intros Herr Hok Hpre. destruct op as [k v t|k n o t|k v t|k|it]; simpl in *;
    unfold batch_PutIfNotExist, batch_CAS, batch_Put, batch_Del, batch_DelCurrent;
    rewrite Herr, ?batch_get_overlay by done.
  - destruct (overlay _ _ !! k) as [[old|]|]; simpl; [|done|].
    + split; [done|]. eexists; split; [done|]. right; by do 2 eexists.
    + split; [by apply cache_put_ok|]. split; [done | apply overlay_put].
  - destruct (overlay _ _ !! k) as [[old|]|]; simpl; [|done|].
    + destruct (bytes_eqb old (content o)); simpl.
      * split; [by apply cache_put_ok|]. split; [done | apply overlay_put].
      * split; [by apply cache_put_ok|].
        eexists; split; [done|]. right; by do 2 eexists.
    + split; [done|]. eexists; split; [done|]. right; by do 2 eexists.
  - split; [by apply cache_put_ok|]. split; [done | apply overlay_put].
  - split; [by apply cache_put_ok|]. split; [done | apply overlay_del].
  - destruct (bytes_eqb _ _); simpl.
    + split; [by apply cache_put_ok|]. split; [done | apply overlay_del].
    + split; [by apply cache_put_ok|]. eexists; split; [done | by left].
Qed.

Lemma batch_ops_apply l ops b :
  b_err b = None → cache_ok b → batch_pre ops (overlay (cache b) (skl_map l)) →
  match batch_apply ops (overlay (cache b) (skl_map l)) with
  | Some m' =>
      b_err (foldl (batch_op l) b ops) = None ∧
      overlay (cache (foldl (batch_op l) b ops)) (skl_map l) = m'
  | None =>
      ∃ e, b_err (foldl (batch_op l) b ops) = Some e ∧
           (e = ErrCASFailed ∨ ∃ i k v, e = Conflict i k v)
  end.
Proof.
  revert b. induction ops as [|op ops IH]; intros b Herr Hok Hpre; simpl in *; [done|].
  destruct Hpre as [Hop Hpre].
  destruct (batch_op_apply l b op Herr Hok Hop) as [Hok' Hstep].
  destruct (bop_apply op _) as [m'|] eqn:E.
  - destruct Hstep as [Herr' Hov]. specialize (IH _ Herr' Hok').
    rewrite Hov in IH. apply IH, Hpre. done.
  - destruct Hstep as (e & He & Hcase). rewrite (batch_ops_error _ _ _ _ He).
    exists e. split; [done|]. destruct Hcase as [|(k & v & ?)]; eauto 6.
Qed.

Lemma commit_entries_view kvs (s : store L) :
  NoDup kvs.*1 →
  skl_map (skl (foldl commit_entry s kvs)) =
  overlay (list_to_map kvs) (skl_map (skl s)).
Proof.
  revert s. induction kvs as [|[k cv] kvs IH]; intros s Hnd; cbn [foldl].
  { apply map_eq. intros j. rewrite lookup_overlay. simpl. by rewrite lookup_empty. }
  inversion Hnd as [|? ? Hk Hnd']; subst. rewrite IH by done.
  apply not_elem_of_list_to_map in Hk.
  apply map_eq. intros j. rewrite !lookup_overlay, list_to_map_cons, lookup_insert.
  assert (skl_map (skl (commit_entry s (k, cv))) =
          if isDeleted cv then base.delete k (skl_map (skl s))
          else <[k:=val cv]> (skl_map (skl s))) as Es.
  { unfold commit_entry, asyncRemove. destruct cv as [[] v t]; simpl.
    - apply skl_remove_spec.
    - destruct (t =? 0); simpl; apply skl_set_spec. }
  rewrite Es. case_decide as Ej.
  - subst j. rewrite Hk. destruct (isDeleted cv).
    + by rewrite lookup_delete_eq.
    + by rewrite lookup_insert_eq.
  - destruct (list_to_map kvs !! j); [done|].
    destruct (isDeleted cv); [by rewrite lookup_delete_ne | by rewrite lookup_insert_ne].
Qed.
End batch_facts.

Section iter_facts.
Context {L : Type} `{SkipListSpec L}.
Implicit Types (l : L) (m : kvmap).

(** The walk of [init] from the head of a suffix of the list (in the
    direction of the walk) collects the elements in range. *)
Lemma fill_suffix l (backward : bool) e (dir : list (bytes * slice)) :
  dir = (if backward then entries (skl_map l) else reverse (entries (skl_map l))) →
  ∀ suf pre fuel, dir = pre ++ suf → (length suf <= fuel)%nat →
  fill fuel l backward e (head suf) = take_while (inRange backward e) suf.
Proof.
  intros Hdir suf. induction suf as [|[k v] suf IH]; intros pre fuel E Hfuel; simpl.
  { by destruct fuel. }
  destruct fuel as [|fuel]; [simpl in Hfuel; lia|]. simpl.
  destruct (inRange backward e (k, v)); [|done]. f_equal.
  assert ((if backward then skl_next k l else skl_prev k l) = head suf) as ->.
  { destruct backward; subst dir.
    - by eapply skl_next_spec.
    - apply (f_equal reverse) in E.
      rewrite reverse_involutive, reverse_app, reverse_cons, <-app_assoc in E.
      rewrite (skl_prev_spec _ _ _ _ _ E). apply last_reverse. }
  apply (IH (pre ++ [(k, v)])); [|simpl in Hfuel; lia].
  by rewrite <-app_assoc.
Qed.

Lemma elem_of_entries' m (x : bytes * slice) : x ∈ entries m ↔ m !! x.1 = Some x.2.
Proof. destruct x. apply elem_of_entries. Qed.

Lemma entries_split m k v :
  m !! k = Some v →
  ∃ pre post, entries m = pre ++ (k, v) :: post ∧
    (∀ x, x ∈ pre ↔ m !! x.1 = Some x.2 ∧ bytes_lt x.1 k) ∧
    (∀ x, x ∈ post ↔ m !! x.1 = Some x.2 ∧ bytes_lt k x.1).
Proof.
  intros Hk. apply elem_of_entries, list_elem_of_split in Hk as (pre & post & E).
  exists pre, post. split; [done|].
  pose proof (entries_sorted m) as Hs. unfold sorted_kvs in Hs. rewrite E in Hs.
  apply StronglySorted_app in Hs as (Hcross & _ & Hs').
  inversion Hs' as [|? ? _ Hpost]; subst. rewrite Forall_forall in Hpost.
  assert (∀ x, x ∈ pre → bytes_lt x.1 k) as H1
    by (intros x Hp; apply (Hcross x (k, v)); [done | left]).
  assert (∀ x, x ∈ post → bytes_lt k x.1) as H2 by (intros x Hp; by apply (Hpost x)).
  split; intros x; rewrite <-elem_of_entries', E, elem_of_app, elem_of_cons;
    (split; [by auto|]); intros [[Hx|[->|Hx]] Hlt]; try done; exfalso;
    try (by apply bytes_lt_irrefl in Hlt).
  - apply (bytes_lt_irrefl k). etrans; [by apply H2 | done].
  - apply (bytes_lt_irrefl k). etrans; [done | by apply H1].
Qed.

Lemma inRange_closed (backward : bool) e (x y : bytes * slice) :
  (if backward then key_lt x y else key_lt y x) →
  inRange backward e y = true → inRange backward e x = true.
Proof.
  unfold inRange, key_lt. intros Hxy.
  destruct (bytes_compare y.1 e) eqn:Ey, backward; simpl; try done; intros _.
  - assert (bytes_lt x.1 e) as E by (etrans; [apply Hxy | done]).
    unfold bytes_lt in E. by rewrite E.
  - assert (bytes_lt e x.1) as E.
    { etrans; [|apply Hxy]. unfold bytes_lt. by rewrite bytes_compare_antisym, Ey. }
    unfold bytes_lt in E. by rewrite bytes_compare_antisym, E.
Qed.

Lemma inRange_spec (backward : bool) e (x : bytes * slice) :
  inRange backward e x = true ↔ if backward then bytes_lt x.1 e else bytes_lt e x.1.
Proof.
  unfold inRange, bytes_lt. rewrite (bytes_compare_antisym x.1 e).
  destruct (bytes_compare x.1 e), backward; simpl; naive_solver.
Qed.

Lemma fill_asc l s e m pre suf :
  entries (skl_map l) = pre ++ suf →
  (∀ x, x ∈ suf ↔ m !! x.1 = Some x.2 ∧ bytes_le s x.1) →
  fill (skl_len l) l true e (head suf) = asc_range m s e.
Proof.
  intros E Hsuf. pose proof (entries_sorted (skl_map l)) as Hs. unfold sorted_kvs in Hs.
  rewrite (fill_suffix l true e _ eq_refl suf pre);
    [|done | rewrite skl_len_spec, E, length_app; lia].
  rewrite E in Hs. apply StronglySorted_app_1_r in Hs.
  apply sorted_kvs_ext; [by apply take_while_sorted | apply asc_range_sorted|].
  intros [k v]. rewrite (elem_of_take_while _ key_lt _ _ Hs (inRange_closed true e)).
  rewrite elem_of_asc_range, Hsuf, inRange_spec. simpl. tauto.
Qed.

Lemma fill_desc l s e m pre suf :
  reverse (entries (skl_map l)) = pre ++ suf →
  (∀ x, x ∈ suf ↔ m !! x.1 = Some x.2 ∧ bytes_le x.1 s) →
  fill (skl_len l) l false e (head suf) = desc_range m s e.
Proof.
  intros E Hsuf. pose proof (entries_sorted (skl_map l)) as Hs. unfold sorted_kvs in Hs.
  rewrite (fill_suffix l false e _ eq_refl suf pre);
    [|done | rewrite skl_len_spec, <-(length_reverse (entries _)), E, length_app; lia].
  apply StronglySorted_reverse in Hs. rewrite E in Hs. apply StronglySorted_app_1_r in Hs.
  rewrite <-(reverse_involutive (take_while _ _)), <-(reverse_involutive (desc_range _ _ _)).
  f_equal. apply sorted_kvs_ext; [|apply desc_range_sorted|].
  { apply (StronglySorted_reverse (flip key_lt)), take_while_sorted. done. }
  intros [k v]. rewrite !elem_of_reverse.
  rewrite (elem_of_take_while _ (flip key_lt) _ _ Hs (inRange_closed false e)).
  rewrite elem_of_desc_range, Hsuf, inRange_spec. simpl. tauto.
Qed.

(** The walk starts at the start key when it is stored ... *)
Lemma newIter_found l s e v :
  skl_map l !! s = Some v →
  fill (skl_len l) l (bytes_ltb s e) e (Some (s, v)) =
  if bytes_ltb s e then asc_range (skl_map l) s e else desc_range (skl_map l) s e.
Proof.
  intros Es. destruct (entries_split _ _ _ Es) as (pre & post & E & Hpre & Hpost).
  destruct (bytes_ltb s e).
  - apply (fill_asc l s e _ pre ((s, v) :: post)); [done|]. intros [k w].
    rewrite elem_of_cons, Hpost, bytes_le_lteq. simpl. intuition congruence.
  - apply (fill_desc l s e _ (reverse post) ((s, v) :: reverse pre)).
    { by rewrite E, reverse_app, reverse_cons, <-app_assoc. }
    intros [k w]. rewrite elem_of_cons, elem_of_reverse, Hpre, bytes_le_lteq. simpl.
    intuition congruence.
Qed.

(** ... and otherwise next to a sentry put in its place. *)
Lemma newIter_sentry l l1 s e :
  skl_map l !! s = None → skl_map l1 = <[s:=placeholder]> (skl_map l) →
  fill (skl_len l1) l1 (bytes_ltb s e) e
    (if bytes_ltb s e then skl_next s l1 else skl_prev s l1) =
  if bytes_ltb s e then asc_range (skl_map l) s e else desc_range (skl_map l) s e.
Proof.
  intros Es E1. destruct (entries_split (skl_map l1) s placeholder)
    as (pre & post & E & Hpre & Hpost); [by rewrite E1, lookup_insert_eq|].
  assert (∀ x : bytes * slice, bytes_lt x.1 s ∨ bytes_lt s x.1 →
    skl_map l1 !! x.1 = skl_map l !! x.1) as Hne.
  { intros x Hx. rewrite E1. apply lookup_insert_ne. intros Ex. rewrite Ex in Hx.
    by destruct Hx as [?%bytes_lt_irrefl|?%bytes_lt_irrefl]. }
  destruct (bytes_ltb s e).
  - rewrite (skl_next_spec _ _ _ _ _ E).
    apply (fill_asc l1 s e _ (pre ++ [(s, placeholder)])); [by rewrite <-app_assoc|].
    intros [k w]. rewrite Hpost, bytes_le_lteq. specialize (Hne (k, w)). simpl in *.
    split; [|intros [? [?| ->]]]; intuition congruence.
  - rewrite (skl_prev_spec _ _ _ _ _ E), <-head_reverse.
    apply (fill_desc l1 s e _ (reverse post ++ [(s, placeholder)])).
    { by rewrite E, reverse_app, reverse_cons, <-app_assoc. }
    intros [k w]. rewrite elem_of_reverse, Hpre, bytes_le_lteq.
    specialize (Hne (k, w)). simpl in *.
    split; [|intros [? [?| ->]]]; intuition congruence.
Qed.

Lemma newIter_spec l s e :
  skl_map (newIter s e l).1 = skl_map l ∧
  (newIter s e l).2 =
    if bytes_ltb s e then asc_range (skl_map l) s e else desc_range (skl_map l) s e.
Proof.
  unfold newIter. rewrite skl_get_spec.
  destruct (skl_map l !! s) as [v|] eqn:Es; simpl.
  - split; [done | by apply newIter_found].
  - split; [|apply newIter_sentry; [done | apply skl_set_spec]].
    rewrite skl_remove_spec, skl_set_spec. by apply delete_insert_id.
Qed.
End iter_facts.

(** Iterators that yield exactly the range satisfy the contract. *)
Lemma iter_post_exact (m : kvmap) start end_ limit buf :
  buf = (if bytes_ltb start end_ then asc_range m start end_ else desc_range m start end_) →
  iter_post m start end_ limit (mkIter (buf_items buf) EOF).
Proof.
  intros Hbuf. unfold iter_post; simpl. split; [done|].
  assert (item_kv <$> buf_items buf = buf) as E.
  { unfold buf_items. rewrite <-list_fmap_compose. rewrite <-(list_fmap_id buf) at 2.
    apply list_fmap_ext. by intros ? [] ?. }
  rewrite E. unfold bytes_ltb in *. rewrite bytes_compare_antisym.
  destruct (bytes_compare start end_) eqn:Ec; simpl.
  - apply bytes_compare_eq in Ec as <-.
    assert (asc_range m start start = [] ∧ desc_range m start start = []) as [Ea Ed].
    { split; apply elem_of_nil_inv; intros [k v].
      - intros (_ & H1 & H2)%elem_of_asc_range. by apply bytes_not_lt in H1.
      - intros (_ & H1 & H2)%elem_of_desc_range. by apply bytes_not_lt in H2. }
    rewrite Ea, Hbuf, Ed. split; [reflexivity|]. intros _. destruct (limit <=? 0); [done|].
    rewrite take_nil. reflexivity.
  - subst buf. split; [reflexivity|]. intros _. destruct (limit <=? 0); [done|]. apply prefix_take.
  - subst buf. destruct (desc_range m start end_); [done|].
    split; [reflexivity|]. intros _. destruct (limit <=? 0); [done|]. apply prefix_take.
Qed.

Section instances.
Context {L : Type} `{SkipListSpec L}.

Lemma commit_batch_run ops (s : store L) :
  batch_pre ops (skl_map (skl s)) →
  match batch_apply ops (skl_map (skl s)) with
  | Some m' => ∃ s', commit_batch ops s = Some (s', None) ∧ skl_map (skl s') = m'
  | None => ∃ e, commit_batch ops s = Some (s, Some e) ∧
                 (e = ErrCASFailed ∨ ∃ i k v, e = Conflict i k v)
  end.
Proof.
  intros Hpre.
  assert (overlay ∅ (skl_map (skl s)) = skl_map (skl s)) as E0.
  { apply map_eq. intros j. rewrite lookup_overlay. by rewrite lookup_empty. }
  pose proof (batch_ops_apply (skl s) ops BeginBatchWrite eq_refl) as Hb.
  unfold cache_ok, BeginBatchWrite in Hb; simpl in Hb. rewrite E0 in Hb.
  specialize (Hb (map_Forall_empty _) Hpre). unfold commit_batch, Commit, BeginBatchWrite.
  destruct (batch_apply ops _) as [m'|].
  - destruct Hb as [He Hm]. rewrite He. eexists; split; [done|].
    rewrite commit_entries_view by apply NoDup_fst_map_to_list.
    by rewrite list_to_map_to_list.
  - destruct Hb as (e & He & Hcase). rewrite He. by exists e.
Qed.

Lemma batch_op_conflict_pos l (b : batch) op e :
  b_err b = None → (0 < opCount b)%nat → b_err (batch_op l b op) = Some e →
  match e with Conflict 0 _ _ => False | _ => True end.
Proof.
  destruct b as [er c [|n]]; simpl; intros -> Hc; [lia|]. destruct op; simpl;
    unfold batch_PutIfNotExist, batch_CAS, batch_Put, batch_Del, batch_DelCurrent; simpl;
    repeat (case_match; simpl); intros; simplify_eq; done.
Qed.

Lemma batch_op_count_pos l (b : batch) op :
  (0 < opCount b)%nat → (0 < opCount (batch_op l b op))%nat.
Proof.
  intros Hc. destruct op; simpl;
    unfold batch_PutIfNotExist, batch_CAS, batch_Put, batch_Del, batch_DelCurrent;
    repeat (case_match; simpl); lia.
Qed.

Lemma commit_batch_conflict k v t ops k' v' (s s' : store L) :
  skl_map (skl s) !! k ≠ Some None →
  commit_batch (PutIfNotExist k v t :: ops) s = Some (s', Some (Conflict 0 k' v')) →
  skl_map (skl s) !! k = Some v'.
Proof.
  intros Hpre. unfold commit_batch, Commit. simpl foldl.
  unfold batch_PutIfNotExist, batch_get, Get; simpl. rewrite lookup_empty, skl_get_spec.
  destruct (skl_map (skl s) !! k) as [[old|]|] eqn:Ek; simpl; [|done|].
  - erewrite batch_ops_error by reflexivity. simpl. by intros [= <- <- <-].
  - intros Hrun. exfalso.
    assert (∀ ops b, (0 < opCount b)%nat → b_err b = None →
      match b_err (foldl (batch_op (skl s)) b ops) with
      | Some (Conflict 0 _ _) => False | _ => True end) as Hpos.
    { clear. intros ops. induction ops as [|op ops IH]; intros b Hc He; simpl; [by rewrite He|].
      destruct (b_err (batch_op (skl s) b op)) as [e|] eqn:Eop.
      - rewrite (batch_ops_error _ _ _ _ Eop), Eop. by eapply batch_op_conflict_pos.
      - apply IH; [|done]. by eapply batch_op_count_pos. }
    specialize (Hpos ops (cache_put k (mkCacheVal false v t) BeginBatchWrite)
                  ltac:(simpl; lia) eq_refl).
    unfold BeginBatchWrite, cache_put in *; simpl in *.
    destruct (b_err _) as [e|]; simplify_eq.
Qed.

#[global] Instance memkv_spec : KvSpec (store L).
Proof.
  refine {| kv_inv := λ _, True; kv_view := λ s, skl_map (skl s) |}.
  - intros s _. unfold wp; simpl. split; [done|]. split; [done | apply uint64_range].
  - intros k s _. unfold wp; simpl. split; [done|]. split; [done|].
    unfold get_post, Get. rewrite skl_get_spec. by destruct (skl_map (skl s) !! k).
  - intros start end_ ts limit s _. unfold wp; simpl. unfold Iter.
    destruct (newIter_spec (skl s) start end_) as [Hm Hbuf].
    destruct (newIter start end_ (skl s)) as [l' buf]; simpl in *.
    split; [done|]. split; [done|]. by apply iter_post_exact.
  - intros ops s _ Hpre. unfold wp; simpl. pose proof (commit_batch_run ops s Hpre) as Hr.
    destruct (batch_apply ops _) as [m'|] eqn:E.
    + destruct Hr as (s' & -> & <-). done.
    + destruct Hr as (e & -> & _). split; [done | by left].
  - intros k v t ops k' v' s s' _ [Hpre _]. by apply commit_batch_conflict.
  - intros k s _. unfold wp. change (kv_del k s) with (commit_batch [Del k] s).
    pose proof (commit_batch_run [Del k] s) as Hr. simpl in Hr.
    destruct Hr as (s' & -> & Hm); [done|]. done.
  - intros it s _. unfold wp. change (kv_del_current it s) with (commit_batch [DelCurrent it] s).
    pose proof (commit_batch_run [DelCurrent it] s) as Hr. simpl in Hr.
    destruct (bytes_eqb _ _) eqn:E.
    + destruct Hr as (s' & -> & ->); [done|]. split; [done|].
      split; [done | by apply bytes_eqb_spec].
    + destruct Hr as (e & -> & _); [done|]. split; [done | by left].
Defined.

#[global] Instance memkv_reliable : KvReliable (store L).
Proof.
  split.
  - done.
  - intros k s _. unfold wp; simpl. unfold Get. rewrite skl_get_spec.
    by destruct (skl_map (skl s) !! k).
  - intros start end_ ts limit s _. unfold wp; simpl. unfold Iter.
    destruct (newIter start end_ (skl s)). eauto.
  - intros ops s _ Hpre. unfold wp; simpl in *.
    pose proof (commit_batch_run ops s Hpre) as Hr.
    destruct (batch_apply ops _) as [m'|].
    + by destruct Hr as (s' & -> & _).
    + destruct Hr as (e & -> & [->|(i & k & v & ->)]).
      * exists 0%nat, [], None. by right.
      * exists i, k, v. by left.
  - intros k s _. unfold wp. change (kv_del k s) with (commit_batch [Del k] s).
    pose proof (commit_batch_run [Del k] s) as Hr. simpl in Hr.
    by destruct Hr as (s' & -> & Hm).
  - done.
Qed.
End instances.

(** * A concrete skip list: the ordered listing of a finite map *)

Fixpoint after (k : bytes) (l : list (bytes * slice)) : option (bytes * slice) :=
  match l with
  | [] => None
  | x :: l' => if bytes_eqb x.1 k then head l' else after k l'
  end.

#[global] Instance map_skiplist : SkipList kvmap := {|
  skl_get := λ k m, m !! k;
  skl_set := λ k v m, <[k:=v]> m;
  skl_remove := λ k m, base.delete k m;
  skl_next := λ k m, after k (entries m);
  skl_prev := λ k m, after k (reverse (entries m));
  skl_len := λ m, length (entries m);
|}.

Lemma after_split k v pre post :
  k ∉ pre.*1 → after k (pre ++ (k, v) :: post) = head post.
Proof.
  induction pre as [|[j w] pre IH]; simpl; intros Hk.
  - by rewrite bytes_eqb_refl.
  - apply not_elem_of_cons in Hk as [Hj Hk].
    rewrite (proj2 (bytes_eqb_false j k)) by auto. by apply IH.
Qed.

#[global] Instance map_skiplist_spec : SkipListSpec kvmap.
Proof.
  refine {| skl_map := λ m, m |}; simpl; try done.
  - intros m pre k v post E. rewrite E. apply after_split.
    assert (NoDup (entries m).*1) as Hn
      by (unfold entries; rewrite merge_sort_Permutation; apply NoDup_fst_map_to_list).
    rewrite E, fmap_app in Hn. apply NoDup_app in Hn as (_ & Hd & _).
    intros Hk. apply (Hd k Hk). simpl. left.
  - intros m pre k v post E. rewrite E, reverse_app, reverse_cons, <-app_assoc; simpl.
    rewrite after_split; [apply head_reverse|].
    assert (NoDup (entries m).*1) as Hn
      by (unfold entries; rewrite merge_sort_Permutation; apply NoDup_fst_map_to_list).
    rewrite E, fmap_app in Hn. apply NoDup_app in Hn as (_ & _ & Hn).
    simpl in Hn. inversion Hn; subst. by rewrite fmap_reverse, elem_of_reverse.
Defined.

Definition empty_store (now : Z) : store kvmap := mkStore ∅ [] now.
