(* ===== verification/MetricsStore.v ===== *)
(** The engine wrapper that emits metrics: pkg/storage/metrics/store.go.

    The wrapped engine is any [KvStorage]; the wrapper is one again, and keeps
    the contract of what it wraps.  Emitted metrics are a log with the tag of the
    outcome; durations are left out.  An iterator is handed out whole by
    [kv_iter]; [iterWrapper] below is the wrapper's own cursor over it. *)

From S2P Require Import Prelude GoMonad Storage.

Inductive state_tag := successTag | unexpectedErrTag | notFoundTag | casFailedTag.

#[global] Instance state_tag_eq_dec : EqDecision state_tag.
Proof. solve_decision. Defined.

Inductive op_tag := getTag | delTag | cmpAndDelTag | batchTag.

Inductive metric :=
  | EmitOp (op : op_tag) (state : state_tag)
  | EmitIterStart (state : state_tag)
  | EmitIterLimited (limited : bool)
  | EmitBatch (count : Z) (state : state_tag)
  | EmitFetchError (limited : bool)
  | EmitFetchSuccess (count : Z) (limited : bool).

Record storeWrapper (S : Type) := mkWrapper { KvStorage_ : S; metricsCli : list metric }.
Arguments mkWrapper {S}.
Arguments KvStorage_ {S}.
Arguments metricsCli {S}.

Definition genStateTag (e : option err) : state_tag :=
  match e with
  | None => successTag
  | Some e => if err_is e ErrKeyNotFound then notFoundTag
              else if err_is e ErrCASFailed then casFailedTag
              else unexpectedErrTag
  end.

Section wrapper.
Context {S : Type} `{KvStorage S}.

Definition inner {A} (m : GoM S A) : GoM (storeWrapper S) A :=
  zoom KvStorage_ (λ s w, mkWrapper s (metricsCli w)) m.

Definition emit (l : list metric) : GoM (storeWrapper S) () :=
  modify (λ w, mkWrapper (KvStorage_ w) (metricsCli w ++ l)).

(** [time]: run the call, emit its outcome. *)
Definition timed {A} (op : op_tag) (get_err : A → option err) (m : GoM S A) : GoM (storeWrapper S) A :=
  r ← inner m;
  _ ← emit [EmitOp op (genStateTag (get_err r))];
  mret r.

Definition wrap_Get (key : bytes) : GoM (storeWrapper S) (slice * option err) := timed getTag snd (kv_get key).

Definition wrap_Iter (start end_ : bytes) (ts limit : Z) : GoM (storeWrapper S) (err + iter) :=
  r ← inner (kv_iter start end_ ts limit);
  match r with
  | inl e => _ ← emit [EmitIterStart unexpectedErrTag]; mret (inl e)
  | inr it => _ ← emit [EmitIterStart successTag; EmitIterLimited (0 <? limit)]; mret (inr it)
  end.

Definition wrap_Del (key : bytes) : GoM (storeWrapper S) (option err) := timed delTag id (kv_del key).

Definition wrap_DelCurrent (it : kvitem) : GoM (storeWrapper S) (option err) :=
  timed cmpAndDelTag id (kv_del_current it).

(** A batch counts the operations it was given, and emits when it commits. *)
Record batchWriteWrapper := mkBatch { bw_ops : list bop; bw_counter : Z }.

Definition newBatchWriteWrapper : batchWriteWrapper := mkBatch [] 0.

Definition bw_add (b : batchWriteWrapper) (op : bop) : batchWriteWrapper :=
  mkBatch (bw_ops b ++ [op]) (bw_counter b + 1).

Definition bw_Commit (b : batchWriteWrapper) : GoM (storeWrapper S) (option err) :=
  e ← inner (kv_commit (bw_ops b));
  _ ← emit [EmitBatch (bw_counter b) (genStateTag e)];
  mret e.

Definition wrap_commit (ops : list bop) : GoM (storeWrapper S) (option err) :=
  bw_Commit (foldl bw_add newBatchWriteWrapper ops).

(** The methods the wrapper does not override are those of the engine. *)
#[global] Instance wrapper_storage : KvStorage (storeWrapper S) := {
  kv_tso := inner kv_tso;
  kv_partitions start end_ := inner (kv_partitions start end_);
  kv_get := wrap_Get;
  kv_iter := wrap_Iter;
  kv_commit := wrap_commit;
  kv_del := wrap_Del;
  kv_del_current := wrap_DelCurrent;
  kv_support_ttl := kv_support_ttl;
}.
End wrapper.

(** * The cursor *)

(** The iterator's remaining entries, with the wrapper's counter. *)
Record iterWrapper := mkIterWrapper {
  iw_rest : list kvitem; iw_end : err; iw_counter : Z; iw_limited : bool }.

Definition newIterWrapper (it : iter) (limit : Z) : iterWrapper :=
  mkIterWrapper (it_items it) (it_end it) 0 (0 <? limit).

(** [Next], with the metrics it emits. *)
Definition iw_Next (i : iterWrapper) : iterWrapper * list metric * option err :=
  match iw_rest i with
  | _ :: rest => (mkIterWrapper rest (iw_end i) (iw_counter i) (iw_limited i), [], None)
  | [] =>
      if decide (iw_end i ≠ EOF ∧ iw_end i ≠ Canceled)
      then (i, [EmitFetchError (iw_limited i)], Some (iw_end i))
      else (mkIterWrapper [] (iw_end i) (iw_counter i + 1) (iw_limited i), [], Some (iw_end i))
  end.

Definition iw_Close (i : iterWrapper) : list metric := [EmitFetchSuccess (iw_counter i) (iw_limited i)].

(** [Next] until it fails, as the scanner's workers do. *)
Fixpoint iw_drain (fuel : nat) (i : iterWrapper) : option iterWrapper :=
  match fuel with
  | O => None
  | S fuel' => match iw_Next i with
               | (i', _, None) => iw_drain fuel' i'
               | (i', _, Some _) => Some i'
               end
  end.

(** * The contract *)

Lemma foldl_bw_add ops b :
  foldl bw_add b ops = mkBatch (bw_ops b ++ ops) (bw_counter b + Z.of_nat (length ops)).
Proof.
  revert b. induction ops as [|op ops IH]; intros b; simpl.
  - rewrite app_nil_r, Z.add_0_r. by destruct b.
  - rewrite IH. simpl. rewrite <-app_assoc. f_equal. lia.
Qed.

Section spec.
Context {S : Type} `{KvSpec S}.
Implicit Types w : storeWrapper S.

Lemma wp_inner {A} (m : GoM S A) (Q : A → storeWrapper S → Prop) w :
  wp m (λ a s, Q a (mkWrapper s (metricsCli w))) (KvStorage_ w) → wp (inner m) Q w.
Proof. intros Hm. unfold inner. by apply wp_zoom. Qed.

Lemma wp_timed {A} op (get_err : A → option err) (m : GoM S A) (Q : A → storeWrapper S → Prop) w :
  wp m (λ a s, ∀ ms, Q a (mkWrapper s ms)) (KvStorage_ w) → wp (timed op get_err m) Q w.
Proof.
  intros Hm. unfold timed, emit. apply wp_bind, wp_inner. eapply wp_mono; [exact Hm|].
  intros a s HQ. wp_steps. apply HQ.
Qed.

Lemma wp_wrap_Iter start end_ ts limit (Q : err + iter → storeWrapper S → Prop) w :
  wp (kv_iter start end_ ts limit) (λ a s, ∀ ms, Q a (mkWrapper s ms)) (KvStorage_ w) →
  wp (wrap_Iter start end_ ts limit) Q w.
Proof.
  intros Hm. unfold wrap_Iter, emit. apply wp_bind, wp_inner. eapply wp_mono; [exact Hm|].
  intros [e|it] s HQ; wp_steps; apply HQ.
Qed.

Lemma wp_wrap_commit ops (Q : option err → storeWrapper S → Prop) w :
  wp (kv_commit ops) (λ a s, ∀ ms, Q a (mkWrapper s ms)) (KvStorage_ w) → wp (wrap_commit ops) Q w.
Proof.
  intros Hm. unfold wrap_commit, bw_Commit, emit. rewrite foldl_bw_add. simpl. apply wp_bind, wp_inner.
  eapply wp_mono; [exact Hm|]. intros a s HQ. wp_steps. apply HQ.
Qed.

#[global] Program Instance wrapper_spec : KvSpec (storeWrapper S) := {
  kv_inv w := kv_inv (KvStorage_ w);
  kv_view w := kv_view (KvStorage_ w);
}.
Next Obligation. intros w Hi. apply wp_inner. eapply wp_mono; [by apply kv_tso_spec|]. done. Qed.
Next Obligation. intros k w Hi. apply wp_timed. eapply wp_mono; [by apply kv_get_spec|]. done. Qed.
Next Obligation.
  intros start end_ ts limit w Hi. apply wp_wrap_Iter. eapply wp_mono; [by apply kv_iter_spec|]. done.
Qed.
Next Obligation. intros ops w Hi Hp. apply wp_wrap_commit. eapply wp_mono; [by apply kv_commit_spec|]. done. Qed.
Next Obligation.
  intros k v ttl ops k' v' w w' Hi Hp E. simpl in E. unfold wrap_commit, bw_Commit, inner, emit in E.
  rewrite foldl_bw_add in E. unfold zoom, modify, mbind, gom_bind, mret, gom_ret in E. simpl in E.
  destruct (kv_commit _ (KvStorage_ w)) as [[s e]|] eqn:Ec; [|done]. simplify_eq/=.
  by eapply kv_commit_conflict.
Qed.
Next Obligation. intros k w Hi. apply wp_timed. eapply wp_mono; [by apply kv_del_spec|]. done. Qed.
Next Obligation. intros it w Hi. apply wp_timed. eapply wp_mono; [by apply kv_del_current_spec|]. done. Qed.
End spec.

#[global] Program Instance wrapper_reliable {S} `{KvReliable S} : KvReliable (storeWrapper S).
Next Obligation. intros S ? ? ? w Hi. apply wp_inner. eapply wp_mono; [by apply kv_tso_ok|]. done. Qed.
Next Obligation. intros S ? ? ? k w Hi. apply wp_timed. eapply wp_mono; [by apply kv_get_ok|]. done. Qed.
Next Obligation.
  intros S ? ? ? start end_ ts limit w Hi. apply wp_wrap_Iter. eapply wp_mono; [by apply kv_iter_ok|]. done.
Qed.
Next Obligation. intros S ? ? ? ops w Hi Hp. apply wp_wrap_commit. eapply wp_mono; [by apply kv_commit_ok|]. done. Qed.
Next Obligation. intros S ? ? ? k w Hi. apply wp_timed. eapply wp_mono; [by apply kv_del_ok|]. done. Qed.
Next Obligation.
  intros S ? ? ? start end_ w Hi. apply wp_inner. eapply wp_mono; [by apply kv_partitions_ok|]. done.
Qed.

(** * Calls of the interface *)

Inductive kv_request :=
  | QTso
  | QPartitions (start end_ : bytes)
  | QGet (key : bytes)
  | QIter (start end_ : bytes) (ts limit : Z)
  | QCommit (ops : list bop)
  | QDel (key : bytes)
  | QDelCurrent (it : kvitem).

Inductive kv_reply :=
  | RTso (r : Z * option err)
  | RPartitions (r : list Partition * option err)
  | RGet (r : slice * option err)
  | RIter (r : err + iter)
  | RErr (e : option err).

Section calls.
Context {S : Type} `{KvStorage S}.

Definition kv_call (q : kv_request) : GoM S kv_reply :=
  match q with
  | QTso => r ← kv_tso; mret (RTso r)
  | QPartitions start end_ => r ← kv_partitions start end_; mret (RPartitions r)
  | QGet key => r ← kv_get key; mret (RGet r)
  | QIter start end_ ts limit => r ← kv_iter start end_ ts limit; mret (RIter r)
  | QCommit ops => e ← kv_commit ops; mret (RErr e)
  | QDel key => e ← kv_del key; mret (RErr e)
  | QDelCurrent it => e ← kv_del_current it; mret (RErr e)
  end.

Fixpoint kv_calls (qs : list kv_request) : GoM S (list kv_reply) :=
  match qs with
  | [] => mret []
  | q :: qs' => r ← kv_call q; rs ← kv_calls qs'; mret (r :: rs)
  end.
End calls.

(** Forget the metrics of a run. *)
Definition erase {S A} (o : option (storeWrapper S * A)) : option (S * A) :=
  (λ p : storeWrapper S * A, (KvStorage_ p.1, p.2)) <$> o.

Lemma erase_bind {S A B} (m : GoM (storeWrapper S) A) (m0 : GoM S A) (f : A → GoM (storeWrapper S) B)
    (f0 : A → GoM S B) w :
  erase (m w) = m0 (KvStorage_ w) → (∀ a w', erase (f a w') = f0 a (KvStorage_ w')) →
  erase ((m ≫= f) w) = (m0 ≫= f0) (KvStorage_ w).
Proof.
  intros Hm Hf. unfold mbind, gom_bind. rewrite <-Hm. destruct (m w) as [[w' a]|]; [|done]. apply Hf.
Qed.

Section transparent.
Context {S : Type} `{KvStorage S}.
Implicit Types w : storeWrapper S.

Lemma erase_inner {A} (m : GoM S A) w : erase (inner m w) = m (KvStorage_ w).
Proof. unfold inner, zoom. by destruct (m (KvStorage_ w)) as [[]|]. Qed.

Lemma erase_timed {A} op (get_err : A → option err) (m : GoM S A) w :
  erase (timed op get_err m w) = m (KvStorage_ w).
Proof.
  unfold timed, inner, emit, zoom, modify, mbind, gom_bind, mret, gom_ret.
  by destruct (m (KvStorage_ w)) as [[]|].
Qed.

Lemma erase_call q w : erase (kv_call q w) = kv_call q (KvStorage_ w).
Proof.
  destruct q; simpl; (eapply erase_bind; [|done]);
    [apply erase_inner | apply erase_inner | apply erase_timed | | | apply erase_timed | apply erase_timed].
  - unfold wrap_Iter, inner, emit, zoom, modify, mbind, gom_bind, mret, gom_ret.
    by destruct (kv_iter start end_ ts limit (KvStorage_ w)) as [[s [e|it]]|].
  - unfold wrap_commit, bw_Commit. rewrite foldl_bw_add.
    unfold inner, emit, zoom, modify, mbind, gom_bind, mret, gom_ret. simpl.
    by destruct (kv_commit ops (KvStorage_ w)) as [[]|].
Qed.

Lemma erase_calls qs w : erase (kv_calls qs w) = kv_calls qs (KvStorage_ w).
Proof.
  revert w. induction qs as [|q qs IH]; intros w; [done|]. cbn [kv_calls].
  apply erase_bind; [apply erase_call|]. intros r w'. by apply erase_bind.
Qed.
End transparent.

Lemma iw_drain_counter items e counter limited :
  iw_drain (S (length items)) (mkIterWrapper items e counter limited) =
  Some (mkIterWrapper [] e (if decide (e = EOF ∨ e = Canceled) then counter + 1 else counter) limited).
Proof.
  induction items as [|x items IH].
  - simpl. unfold iw_Next. simpl. destruct (decide (e ≠ EOF ∧ e ≠ Canceled)), (decide (e = EOF ∨ e = Canceled)); try done; tauto.
  - cbn [length]. exact IH.
Qed.
