(* ===== verification/Badger.v ===== *)
(** The adapter to the badger database: pkg/storage/badger (badger.go, batch.go,
    iter.go).

    badger itself is a parameter: a database, transactions on a snapshot of it
    that see their own writes, and iterators ([Badger]); what its documentation
    promises is [BadgerSpec].  A batch is the list of its operations, which
    [Commit] runs one after the other in one transaction. *)

From S2P Require Import Prelude GoMonad Storage.

(** badger's errors: the one the adapter looks for, and the others. *)
Inductive berr := BKeyNotFound | BOther (msg : string).

(** An error of badger as the program sees it when it is passed on. *)
Definition foreign (e : berr) : err :=
  match e with BKeyNotFound => Errorf "Key not found" | BOther msg => Errorf msg end.

(** An item: its value, which may not be readable, and its version. *)
Record bitem := mkBitem { bi_val : berr + bytes; bi_ver : Z }.

Class Badger (D T : Type) := {
  db_NewTransaction : bool → D → T;
  txn_ReadTs : T → Z;
  txn_Get : bytes → T → berr + bitem;
  (** [Set] for a TTL of 0, [SetEntry] with [WithTTL] otherwise. *)
  txn_Set : bytes → slice → Z → T → T * option berr;
  txn_Delete : bytes → T → T * option berr;
  txn_Commit : T → GoM D (option berr);
  (** The items an iterator (reversed or not) reaches from [Seek(start)] on. *)
  txn_Seek : bool → bytes → T → list (bytes * bitem);
}.

(** [ValueCopy(nil)] of an empty value is a nil slice. *)
Definition nil_copy (v : bytes) : slice := match v with [] => None | _ => Some v end.

Section badger.
Context {D T : Type} `{Badger D T}.

Definition GetTimestampOracle : GoM D (Z * option err) :=
  gets (λ d, (txn_ReadTs (db_NewTransaction false d), None)).

Definition SupportTTL : bool := true.

Definition GetPartitions (start end_ : bytes) : GoM D (list Partition * option err) :=
  mret ([mkPartition start end_], None).

Definition Get (key : bytes) : GoM D (slice * option err) :=
  gets (λ d,
    match txn_Get key (db_NewTransaction false d) with
    | inl BKeyNotFound => (None, Some ErrKeyNotFound)
    | inl e => (None, Some (foreign e))
    | inr it => match bi_val it with
                | inl e => (None, Some (foreign e))
                | inr v => (nil_copy v, None)
                end
    end).

(** * Batches *)

Definition put (key : bytes) (val : slice) (ttl : Z) (t : T) : T * option err :=
  let '(t', e) := txn_Set key val ttl t in (t', foreign <$> e).

(** A value that exists but cannot be copied: the nil error of the read is
    wrapped, which is no error. *)
Definition batch_PutIfNotExist (idx : nat) (key : bytes) (val : slice) (ttl : Z) (t : T) : T * option err :=
  match txn_Get key t with
  | inr oldItem =>
      match bi_val oldItem with
      | inl _ => (t, None)
      | inr oldVal => (t, Some (NewErrConflict idx key (nil_copy oldVal)))
      end
  | inl BKeyNotFound => put key val ttl t
  | inl e => (t, Some (Wrapped (foreign e)))
  end.

Definition batch_CAS (idx : nat) (key : bytes) (newVal oldVal : slice) (ttl : Z) (t : T) : T * option err :=
  match txn_Get key t with
  | inl BKeyNotFound => (t, Some (NewErrConflict idx key None))
  | inl e => (t, Some (foreign e))
  | inr item =>
      match bi_val item with
      | inl e => (t, Some (foreign e))
      | inr val =>
          if bytes_eqb (content oldVal) val then put key newVal ttl t
          else (t, Some (NewErrConflict idx key (Some val)))
      end
  end.

Definition del (key : bytes) (t : T) : T * option err :=
  let '(t', e) := txn_Delete key t in (t', foreign <$> e).

Definition batch_DelCurrent (idx : nat) (it : kvitem) (t : T) : T * option err :=
  match txn_Get (it_key it) t with
  | inl BKeyNotFound => (t, Some (NewErrConflict idx (it_key it) None))
  | inl e => (t, Some (foreign e))
  | inr item =>
      if negb (bi_ver item =? it_ver it)
      then (t, Some (NewErrConflict idx (it_key it)
                       (match bi_val item with inr v => nil_copy v | inl _ => None end)))
      else del (it_key it) t
  end.

Definition run_op (idx : nat) (op : bop) (t : T) : T * option err :=
  match op with
  | PutIfNotExist k v ttl => batch_PutIfNotExist idx k v ttl t
  | CAS k new old ttl => batch_CAS idx k new old ttl t
  | Put k v ttl => put k v ttl t
  | Del k => del k t
  | DelCurrent it => batch_DelCurrent idx it t
  end.

Fixpoint run_ops (idx : nat) (ops : list bop) (t : T) : T * option err :=
  match ops with
  | [] => (t, None)
  | op :: ops' =>
      match run_op idx op t with
      | (t', Some e) => (t', Some e)
      | (t', None) => run_ops (S idx) ops' t'
      end
  end.

Definition Commit (ops : list bop) : GoM D (option err) := λ d,
  match run_ops 0 ops (db_NewTransaction true d) with
  | (_, Some e) => Some (d, Some e)
  | (t, None) => match txn_Commit t d with
                 | Some (d', e) => Some (d', foreign <$> e)
                 | None => None
                 end
  end.

(** [Del]: the error of the deletion is ignored, that of the commit is not. *)
Definition Delete (key : bytes) : GoM D (option err) := λ d,
  let '(t, _) := txn_Delete key (db_NewTransaction true d) in
  match txn_Commit t d with
  | Some (d', e) => Some (d', foreign <$> e)
  | None => None
  end.

Definition DeleteCurrent (it : kvitem) : GoM D (option err) := Commit [DelCurrent it].

(** * Iterators *)

(** [inRange] counts what it is asked about. *)
Definition inRange (reverse : bool) (end_ : bytes) (limit counter : Z) (key : bytes) : bool :=
  if negb (limit =? 0) && (limit <=? counter) then false
  else if reverse then bytes_ltb end_ key else bytes_ltb key end_.

(** What successive calls of [Next], each with a [Val], see: an item whose value
    cannot be read has a nil value, and its error comes with the next call. *)
Fixpoint iter_items (reverse : bool) (end_ : bytes) (limit counter : Z) (l : list (bytes * bitem))
    : list kvitem * err :=
  match l with
  | [] => ([], EOF)
  | (k, it) :: l' =>
      if inRange reverse end_ limit counter k then
        match bi_val it with
        | inl e => ([mkItem k None (bi_ver it)], foreign e)
        | inr v =>
            let '(items, e) := iter_items reverse end_ limit (counter + 1) l' in
            (mkItem k (nil_copy v) (bi_ver it) :: items, e)
        end
      else ([], EOF)
  end.

Definition Iter (start end_ : bytes) (ts limit : Z) : GoM D (err + iter) :=
  gets (λ d,
    let t := db_NewTransaction false d in
    let reverse := bytes_ltb end_ start in
    let '(items, e) := iter_items reverse end_ limit 0 (txn_Seek reverse start t) in
    inr (mkIter items e)).

#[global] Instance badger_storage : KvStorage D := {
  kv_tso := GetTimestampOracle;
  kv_partitions := GetPartitions;
  kv_get := Get;
  kv_iter := Iter;
  kv_commit := Commit;
  kv_del := Delete;
  kv_del_current := DeleteCurrent;
  kv_support_ttl := SupportTTL;
}.
End badger.
