(* ===== verification/BadgerSpec.v ===== *)
(** What badger's documentation promises, and what the adapter makes of it: its
    batches are atomic, its iterators exact. *)

From S2P Require Import Prelude GoMonad Storage Badger.

(** A database is an ordered map from keys to values with versions. *)
Abbreviation vmap := (gmap bytes (bytes * Z)).

(** An item that stands for an entry; its value may not be readable. *)
Definition item_of (it : bitem) (e : bytes * Z) : Prop :=
  bi_ver it = e.2 ∧ ∀ v, bi_val it = inr v → v = e.1.

Class BadgerSpec (D T : Type) `{Badger D T} := {
  db_inv : D → Prop;
  db_view : D → vmap;
  (** what a transaction sees, and the snapshot it began with *)
  txn_view : T → vmap;
  txn_base : T → vmap;
  db_new_spec u d : db_inv d →
    txn_view (db_NewTransaction u d) = db_view d ∧ txn_base (db_NewTransaction u d) = db_view d ∧
    is_uint64 (txn_ReadTs (db_NewTransaction u d));
  txn_get_spec k t :
    match txn_Get k t with
    | inl BKeyNotFound => txn_view t !! k = None
    | inl (BOther _) => True
    | inr it => ∃ e, txn_view t !! k = Some e ∧ item_of it e
    end;
  txn_set_spec k v ttl t t' : txn_Set k v ttl t = (t', None) →
    txn_view t' = <[k := (content v, txn_ReadTs t)]> (txn_view t) ∧ txn_base t' = txn_base t ∧
    txn_ReadTs t' = txn_ReadTs t;
  txn_delete_spec k t t' : txn_Delete k t = (t', None) →
    txn_view t' = delete k (txn_view t) ∧ txn_base t' = txn_base t ∧ txn_ReadTs t' = txn_ReadTs t;
  (** the writes of a transaction whose snapshot is current become visible
      together, with new versions, or an error leaves the database as it was *)
  txn_commit_spec t d : db_inv d → txn_base t = db_view d →
    wp (txn_Commit t) (λ e d', db_inv d' ∧
      match e with
      | None => fst <$> db_view d' = fst <$> txn_view t
      | Some _ => db_view d' = db_view d
      end) d;
  txn_seek_spec rev start t :
    Forall2 (λ x e, x.1 = e.1 ∧ item_of x.2 e.2) (txn_Seek rev start t)
      (if rev then reverse (filter (λ e, bytes_le e.1 start) (entries (txn_view t)))
       else filter (λ e, bytes_le start e.1) (entries (txn_view t)));
}.

(** Iterators whose values can all be copied. *)
Definition readable {D T} `{Badger D T} : Prop :=
  ∀ rev start t x, x ∈ txn_Seek (D := D) rev start t → ∃ v, bi_val x.2 = inr v.

(** A transaction on the state of [d] finds the key, but cannot copy its value. *)
Definition copy_fails {D T} `{BadgerSpec D T} (d : D) (k : bytes) : Prop :=
  ∃ t it e, txn_base t = db_view d ∧ txn_Get k t = inr it ∧ bi_val it = inl e.

(** * Reference semantics of a batch *)

(** The effect of an operation on the map, in a transaction at timestamp [ts];
    [None] is a failed comparison. *)
Definition vop_apply (ts : Z) (op : bop) (m : vmap) : option vmap :=
  match op with
  | PutIfNotExist k v _ =>
      match m !! k with None => Some (<[k := (content v, ts)]> m) | Some _ => None end
  | CAS k new old _ =>
      match m !! k with
      | Some (v, _) => if bytes_eqb (content old) v then Some (<[k := (content new, ts)]> m) else None
      | None => None
      end
  | Put k v _ => Some (<[k := (content v, ts)]> m)
  | Del k => Some (delete k m)
  | DelCurrent it =>
      match m !! it_key it with
      | Some (_, ver) => if ver =? it_ver it then Some (delete (it_key it) m) else None
      | None => None
      end
  end.

Fixpoint vbatch_apply (ts : Z) (ops : list bop) (m : vmap) : option vmap :=
  match ops with
  | [] => Some m
  | op :: ops' => m' ← vop_apply ts op m; vbatch_apply ts ops' m'
  end.

(** A batch as the adapter runs it: every operation is applied, but that a
    creation of a key that exists is passed over when its value cannot be copied
    ([bad]). *)
Inductive batch_runs (bad : bytes → Prop) (ts : Z) : list bop → vmap → vmap → Prop :=
  | runs_nil m : batch_runs bad ts [] m m
  | runs_op op ops m m1 m2 :
      vop_apply ts op m = Some m1 → batch_runs bad ts ops m1 m2 → batch_runs bad ts (op :: ops) m m2
  | runs_skip k v ttl ops m m2 :
      is_Some (m !! k) → bad k → batch_runs bad ts ops m m2 →
      batch_runs bad ts (PutIfNotExist k v ttl :: ops) m m2.

(** An operation of the batch whose comparison does not hold on what the ones
    before it left. *)
Definition batch_conflict (bad : bytes → Prop) (ts : Z) (ops : list bop) (m : vmap) : Prop :=
  ∃ ops1 op ops2 m1, ops = ops1 ++ op :: ops2 ∧ batch_runs bad ts ops1 m m1 ∧ vop_apply ts op m1 = None.

(** The keys a batch creates. *)
Definition creates (ops : list bop) (k : bytes) : Prop := ∃ v ttl, PutIfNotExist k v ttl ∈ ops.

Lemma runs_apply bad ts ops m m' :
  (∀ k, creates ops k → ¬ bad k) → batch_runs bad ts ops m m' → vbatch_apply ts ops m = Some m'.
Proof.
  intros Hb Hr. induction Hr as [m|op ops m m1 m2 Hop _ IH|k v ttl ops m m2 _ Hk _ _]; [done| |].
  - simpl. rewrite Hop. simpl. apply IH. intros k (v & ttl & Hin). apply Hb. exists v, ttl. by right.
  - destruct (Hb k); [|done]. exists v, ttl. by left.
Qed.

Lemma vbatch_apply_app ts ops1 ops2 m :
  vbatch_apply ts (ops1 ++ ops2) m = m1 ← vbatch_apply ts ops1 m; vbatch_apply ts ops2 m1.
Proof.
  revert m. induction ops1 as [|op ops1 IH]; intros m; simpl; [done|].
  destruct (vop_apply ts op m); simpl; [apply IH | done].
Qed.

Lemma conflict_apply bad ts ops m :
  (∀ k, creates ops k → ¬ bad k) → batch_conflict bad ts ops m → vbatch_apply ts ops m = None.
Proof.
  intros Hb (ops1 & op & ops2 & m1 & -> & Hr & Hop). rewrite vbatch_apply_app.
  apply runs_apply in Hr; [|intros k (v & ttl & Hin); apply Hb; exists v, ttl; apply elem_of_app; by left].
  rewrite Hr. simpl. by rewrite Hop.
Qed.

Section spec.
Context {D T : Type} `{BadgerSpec D T}.

(** An operation does what the reference does, or is passed over; its conflict is
    a comparison that does not hold there. *)
Definition op_result (bad : bytes → Prop) (op : bop) (t t' : T) (e : option err) : Prop :=
  match e with
  | None => batch_runs bad (txn_ReadTs t) [op] (txn_view t) (txn_view t') ∧
      txn_base t' = txn_base t ∧ txn_ReadTs t' = txn_ReadTs t
  | Some e => err_is e ErrCASFailed = true → vop_apply (txn_ReadTs t) op (txn_view t) = None
  end.

Lemma runs_one bad ts op m m' : vop_apply ts op m = Some m' → batch_runs bad ts [op] m m'.
Proof. intros E. eapply runs_op; [exact E | constructor]. Qed.

Lemma foreign_not_cas e : err_is (foreign e) ErrCASFailed = false.
Proof. by destruct e. Qed.

Lemma put_spec bad op k v ttl t :
  vop_apply (txn_ReadTs t) op (txn_view t) = Some (<[k := (content v, txn_ReadTs t)]> (txn_view t)) →
  let '(t', e) := put k v ttl t in op_result bad op t t' e.
Proof.
  intros Hop. unfold put. destruct (txn_Set k v ttl t) as [t' [e|]] eqn:E; simpl.
  - by rewrite foreign_not_cas.
  - destruct (txn_set_spec _ _ _ _ _ E) as (Ev & -> & ->). split; [|done]. apply runs_one. by rewrite Ev.
Qed.

Lemma del_spec bad op k t :
  vop_apply (txn_ReadTs t) op (txn_view t) = Some (delete k (txn_view t)) →
  let '(t', e) := del k t in op_result bad op t t' e.
Proof.
  intros Hop. unfold del. destruct (txn_Delete k t) as [t' [e|]] eqn:E; simpl.
  - by rewrite foreign_not_cas.
  - destruct (txn_delete_spec _ _ _ E) as (Ev & -> & ->). split; [|done]. apply runs_one. by rewrite Ev.
Qed.

Lemma run_op_spec d idx op t :
  txn_base t = db_view d → let '(t', e) := run_op idx op t in op_result (copy_fails d) op t t' e.
Proof.
  intros Hb. destruct op as [k v ttl|k new old ttl|k v ttl|k|it]; cbn [run_op].
  - unfold batch_PutIfNotExist. pose proof (txn_get_spec k t) as Hg.
    destruct (txn_Get k t) as [[|msg]|it] eqn:E; [apply put_spec; simpl; by rewrite Hg | done |].
    destruct Hg as (x & Hx & _). destruct (bi_val it) as [e|old] eqn:Ev; simpl; [|by rewrite Hx].
    split; [|done]. apply runs_skip; [by exists x | by exists t, it, e | constructor].
  - unfold batch_CAS. pose proof (txn_get_spec k t) as Hg.
    destruct (txn_Get k t) as [[|msg]|it] eqn:E; [by simpl; rewrite Hg | done |].
    destruct Hg as ([x ver] & Hx & _ & Hv). destruct (bi_val it) as [e|val] eqn:Ev; [by simpl; rewrite foreign_not_cas|].
    rewrite (Hv val eq_refl). simpl. destruct (bytes_eqb (content old) x) eqn:Eq; simpl.
    + apply put_spec. simpl. by rewrite Hx, Eq.
    + by rewrite Hx, Eq.
  - by apply put_spec.
  - by apply del_spec.
  - unfold batch_DelCurrent. pose proof (txn_get_spec (it_key it) t) as Hg.
    destruct (txn_Get (it_key it) t) as [[|msg]|bit] eqn:E; [by simpl; rewrite Hg | done |].
    destruct Hg as ([x ver] & Hx & Hver & _). rewrite Hver. simpl.
    destruct (ver =? it_ver it) eqn:Eq; simpl; [apply del_spec; simpl; by rewrite Hx, Eq | by rewrite Hx, Eq].
Qed.

(** The batch in its transaction. *)
Definition ops_result (bad : bytes → Prop) (ops : list bop) (t t' : T) (e : option err) : Prop :=
  match e with
  | None => batch_runs bad (txn_ReadTs t) ops (txn_view t) (txn_view t') ∧ txn_base t' = txn_base t
  | Some e => err_is e ErrCASFailed = true → batch_conflict bad (txn_ReadTs t) ops (txn_view t)
  end.

Lemma runs_cons bad ts op ops m m1 m2 :
  batch_runs bad ts [op] m m1 → batch_runs bad ts ops m1 m2 → batch_runs bad ts (op :: ops) m m2.
Proof.
  intros Ho Hr. inversion Ho as [|? ? ? ? ? Ha Hn|k v ttl ? ? ? Hk Hb Hn]; subst; inversion Hn; subst;
    by econstructor.
Qed.

Lemma run_ops_spec d ops : ∀ idx t,
  txn_base t = db_view d →
  let '(t', e) := run_ops idx ops t in ops_result (copy_fails d) ops t t' e.
Proof.
  induction ops as [|op ops IH]; intros idx t Hb; simpl; [split; [constructor | done]|].
  pose proof (run_op_spec d idx op t Hb) as Hop. destruct (run_op idx op t) as [t1 [e|]]; simpl in Hop.
  - simpl. intros He. exists [], op, ops, (txn_view t). split; [done|]. split; [constructor | by apply Hop].
  - destruct Hop as (Ho & Eb & Et). specialize (IH (S idx) t1 ltac:(congruence)). rewrite <-Et in Ho.
    destruct (run_ops (S idx) ops t1) as [t2 [e|]]; simpl in *; rewrite <-Et.
    + intros (ops1 & op2 & ops2 & m1 & -> & Hr & Hc)%IH. exists (op :: ops1), op2, ops2, m1.
      split; [done|]. split; [|done]. by eapply runs_cons.
    + destruct IH as [Hr Eb2]. split; [by eapply runs_cons | congruence].
Qed.

(** A batch is applied as a whole or not at all. *)
Lemma wp_badger_Commit ops d :
  db_inv d →
  wp (Commit ops) (λ e d', db_inv d' ∧
    let ts := txn_ReadTs (db_NewTransaction true d) in
    match e with
    | None => ∃ m, batch_runs (copy_fails d) ts ops (db_view d) m ∧ fst <$> db_view d' = fst <$> m
    | Some e => db_view d' = db_view d ∧
        (err_is e ErrCASFailed = true → batch_conflict (copy_fails d) ts ops (db_view d))
    end) d.
Proof.
  intros Hd. destruct (db_new_spec true d Hd) as (Ev & Eb & _).
  pose proof (run_ops_spec d ops 0 (db_NewTransaction true d) Eb) as Hr. unfold wp, Commit.
  destruct (run_ops 0 ops (db_NewTransaction true d)) as [t [e|]]; simpl in Hr; rewrite Ev in Hr; [done|].
  destruct Hr as (Hm & Ebt). rewrite Eb in Ebt. pose proof (txn_commit_spec t d Hd Ebt) as Hc. unfold wp in Hc.
  destruct (txn_Commit t d) as [[d' [e|]]|]; [| |done]; destruct Hc as [Hd' Hv]; simpl.
  - split; [done|]. split; [done|]. by rewrite foreign_not_cas.
  - split; [done|]. by exists (txn_view t).
Qed.

(** * Iterators *)

Definition in_range (rev : bool) (end_ : bytes) (k : bytes) : Prop :=
  if rev then bytes_lt end_ k else bytes_lt k end_.

#[local] Instance in_range_dec rev end_ k : Decision (in_range rev end_ k).
Proof. unfold in_range. destruct rev; apply _. Defined.

Definition entry_of (it : kvitem) : bytes * (bytes * Z) := (it_key it, (content (it_val it), it_ver it)).

Definition limited {A} (limit counter : Z) (l : list A) : list A :=
  if limit =? 0 then l else take (Z.to_nat (limit - counter)) l.

Lemma content_nil_copy v : content (nil_copy v) = v.
Proof. by destruct v. Qed.

(** Once an entry is out of range, all that follow are. *)
Lemma iter_items_spec rev end_ limit l es :
  Forall2 (λ x e, x.1 = e.1 ∧ item_of x.2 e.2) l es → Forall (λ x, ∃ v, bi_val x.2 = inr v) l →
  StronglySorted (λ a b : bytes * (bytes * Z), in_range rev end_ b.1 → in_range rev end_ a.1) es →
  ∀ counter, 0 <= counter → (limit = 0 ∨ counter <= limit) →
  let '(items, e) := iter_items rev end_ limit counter l in
  e = EOF ∧ entry_of <$> items = limited limit counter (filter (λ e, in_range rev end_ e.1) es).
Proof.
  induction 1 as [|[k it] [k' [v ver]] l es (Ek & Ever & Ev) Hl IH]; intros Hh Hs counter Hc Hlim; simpl in *.
  { split; [done|]. unfold limited. case_match; [done|]. by rewrite filter_nil, take_nil. }
  subst k'. inversion_clear Hh as [|? ? [x Hx] Hh']. simpl in Hx. inversion_clear Hs as [|? ? Hs' Hf].
  assert (inRange rev end_ limit counter k = bool_decide (in_range rev end_ k ∧ (limit = 0 ∨ counter < limit))) as Er.
  { unfold inRange, in_range. destruct (Z.eqb_spec limit 0) as [->|Hne]; simpl.
    - destruct rev; (case_bool_decide as Hb; [apply bytes_ltb_spec; naive_solver|]);
        apply not_true_is_false; rewrite bytes_ltb_spec; naive_solver.
    - destruct (Z.leb_spec limit counter); [rewrite bool_decide_eq_false_2; [done|]; intros [_ [?|?]]; lia|].
      destruct rev; (case_bool_decide as Hb; [apply bytes_ltb_spec; naive_solver|]);
        apply not_true_is_false; rewrite bytes_ltb_spec; naive_solver. }
  rewrite Er. case_bool_decide as Hb.
  - destruct Hb as [Hr Hlt]. rewrite filter_cons_True by done. rewrite Hx.
    specialize (IH Hh' Hs' (counter + 1) ltac:(lia) ltac:(lia)).
    destruct (iter_items rev end_ limit (counter + 1) l) as [items e]. destruct IH as [-> IH]. split; [done|].
    rewrite fmap_cons, IH. unfold entry_of at 1. simpl. rewrite content_nil_copy, Ever, (Ev x Hx). unfold limited.
    destruct (Z.eqb_spec limit 0); [done|].
    replace (Z.to_nat (limit - counter)) with (S (Z.to_nat (limit - (counter + 1)))) by lia. done.
  - split; [done|]. unfold limited. simpl.
    destruct (decide (in_range rev end_ k)) as [Hr|Hr].
    + destruct (Z.eqb_spec limit 0); [naive_solver|].
      destruct (Z.lt_ge_cases counter limit) as [Hlt|Hge]; [naive_solver|].
      by replace (Z.to_nat (limit - counter)) with 0%nat by lia.
    + rewrite filter_cons_False by done.
      assert (filter (λ e, in_range rev end_ e.1) es = []) as ->.
      { apply filter_none. eapply Forall_impl; [exact Hf|]. naive_solver. }
      case_match; [done|]. by rewrite take_nil.
Qed.

Lemma seek_range (rev : bool) (start end_ : bytes) (m : vmap) :
  filter (λ e, in_range rev end_ e.1)
    (if rev then reverse (filter (λ e, bytes_le e.1 start) (entries m))
     else filter (λ e, bytes_le start e.1) (entries m)) =
  if rev then desc_range m start end_ else asc_range m start end_.
Proof.
  unfold desc_range, asc_range. destruct rev; simpl.
  - rewrite filter_reverse. f_equal. rewrite list_filter_filter. apply list_filter_iff. intros x. tauto.
  - rewrite list_filter_filter. apply list_filter_iff. intros x. tauto.
Qed.

Lemma seek_sorted (rev : bool) (start end_ : bytes) (m : vmap) :
  StronglySorted (λ a b : bytes * (bytes * Z), in_range rev end_ b.1 → in_range rev end_ a.1)
    (if rev then reverse (filter (λ e, bytes_le e.1 start) (entries m))
     else filter (λ e, bytes_le start e.1) (entries m)).
Proof.
  destruct rev.
  - apply StronglySorted_reverse. eapply StronglySorted_weaken; [|apply sorted_kvs_filter, entries_sorted].
    intros x y Hxy Hx. unfold in_range in *. by etrans.
  - eapply StronglySorted_weaken; [|apply sorted_kvs_filter, entries_sorted].
    intros x y Hxy Hy. unfold in_range in *. by etrans.
Qed.

(** An iterator whose values can be copied yields the entries of its range, in its
    direction, up to its limit. *)
Lemma wp_badger_Iter start end_ ts limit d :
  readable (D := D) (T := T) → db_inv d → 0 <= limit →
  wp (Iter start end_ ts limit) (λ r d', d' = d ∧ ∃ it, r = inr it ∧ it_end it = EOF ∧
    entry_of <$> it_items it =
    limited limit 0 (if bytes_ltb end_ start then desc_range (db_view d) start end_
                     else asc_range (db_view d) start end_)) d.
Proof.
  intros Hread Hd Hlim. unfold wp, Iter, gets. split; [done|].
  destruct (db_new_spec false d Hd) as (Ev & _). set (rev := bytes_ltb end_ start).
  set (t := db_NewTransaction false d) in *.
  pose proof (iter_items_spec rev end_ limit _ _ (txn_seek_spec rev start t)) as Hi.
  specialize (Hi ltac:(apply Forall_forall; intros x; apply Hread) (seek_sorted rev start end_ _) 0 ltac:(lia) ltac:(lia)).
  rewrite seek_range, Ev in Hi. destruct (iter_items rev end_ limit 0 (txn_Seek rev start t)) as [items e].
  destruct Hi as [-> Hi]. by eexists.
Qed.
End spec.
