(* ===== verification/Tikv.v ===== *)
(** The adapter to TiKV: pkg/storage/tikv (tikv.go, batch.go, iter.go).

    The TiKV client is a parameter ([Tikv]): transactions, snapshots, regions and
    the timestamp oracle, each of which may fail.  All clients of the balancer
    reach the same cluster, so that which one is taken matters to [getClient]
    only. *)

From S2P Require Import Prelude GoMonad Storage.

(** The client's errors that the adapter tells apart. *)
Inductive terr :=
  | TNotFound
  | TWriteConflict
  | TDeadlineExceeded
  | TCanceled
  | TBodyMissing
  | TServerTimeout
  | TUnknown
  | TOther (msg : string).

#[global] Instance terr_eq_dec : EqDecision terr.
Proof. solve_decision. Defined.

(** An error of the client as the program sees it. *)
Definition client_err (e : terr) : err :=
  match e with
  | TNotFound => Errorf "not exist"
  | TWriteConflict => Errorf "write conflict"
  | TDeadlineExceeded => DeadlineExceeded
  | TCanceled => Canceled
  | TBodyMissing => Errorf "response body is missing"
  | TServerTimeout => Errorf "tikv server timeout"
  | TUnknown => Errorf "unknow"
  | TOther msg => Errorf msg
  end.

(** A scan: the entries an iterator reaches, and the error, if any, that the
    [Next] after the last of them returns. *)
Abbreviation scan := (list (bytes * bytes) * option terr)%type.

Class Tikv (D T : Type) := {
  tk_GetTimestamp : GoM D (terr + Z);
  tk_ScanRegions : bytes → bytes → GoM D (terr + list (bytes * bytes));
  tk_Begin : GoM D (terr + T);
  tk_Get : bytes → T → terr + bytes;
  tk_Set : bytes → slice → T → T * option terr;
  tk_Delete : bytes → T → T * option terr;
  tk_Commit : T → GoM D (option terr);
  (** a transaction that could not begin is nil; the result is not looked at *)
  tk_Rollback : option T → GoM D ();
  (** [GetSnapshot(ts).Iter(start, end)] and [IterReverse(key)] *)
  tk_Iter : Z → bytes → bytes → GoM D (terr + scan);
  tk_IterReverse : Z → bytes → GoM D (terr + scan);
}.

(** * The client balancer *)

Record clientBalancer := mkBalancer { cb_clients : Z; cb_idx : Z }.

(** The index of the next client: no clients, or a negative index, panic. *)
Definition getClient : GoM clientBalancer Z := λ c,
  let idx := uint64 (cb_idx c + 1) in
  let i := Z.rem (int64 idx) (cb_clients c) in
  if (cb_clients c =? 0) || (i <? 0) then None else Some (mkBalancer (cb_clients c) idx, i).

Section tikv.
Context {D T : Type} `{Tikv D T}.

Definition SupportTTL : bool := false.

Definition GetTimestampOracle : GoM D (Z * option err) :=
  r ← tk_GetTimestamp;
  match r with
  | inl e => mret (0, Some (Wrapped (client_err e)))
  | inr timestamp => mret (timestamp, None)
  end.

(** * Partitions *)

Definition maxBytes (a b : bytes) : bytes := if bytes_ltb b a then a else b.
Definition minBytes (a b : bytes) : bytes := if bytes_ltb b a then b else a.

Definition region_partition (start end_ : bytes) (reg : bytes * bytes) : Partition :=
  mkPartition (match reg.1 with [] => start | s => maxBytes s start end)
              (match reg.2 with [] => end_ | e => minBytes e end_ end).

Definition GetPartitions (start end_ : bytes) : GoM D (list Partition * option err) :=
  r ← tk_ScanRegions start end_;
  match r with
  | inl e => mret ([], Some (Wrapped (client_err e)))
  | inr regs =>
      if (1 <? length regs)%nat then mret (map (region_partition start end_) regs, None)
      else mret ([mkPartition start end_], None)
  end.

(** * Reads *)

Definition Get (key : bytes) : GoM D (slice * option err) :=
  r ← tk_Begin;
  match r with
  | inl e => mret (None, Some (Wrapped (client_err e)))
  | inr txn =>
      match tk_Get key txn with
      | inl TNotFound => mret (None, Some ErrKeyNotFound)
      | inl e => mret (None, Some (Wrapped (client_err e)))
      | inr val =>
          e ← tk_Commit txn;
          match e with
          | Some e => mret (None, Some (Wrapped (client_err e)))
          | None => mret (Some val, None)
          end
      end
  end.

(** * Batches *)

Definition wrap (r : T * option terr) : T * option err := (r.1, (λ e, Wrapped (client_err e)) <$> r.2).

Definition batch_PutIfNotExist (idx : nat) (key : bytes) (val : slice) (t : T) : T * option err :=
  match tk_Get key t with
  | inl TNotFound => wrap (tk_Set key val t)
  | inr oldVal => (t, Some (NewErrConflict idx key (Some oldVal)))
  | inl e => (t, Some (Wrapped (client_err e)))
  end.

(** A missing key is not a failed comparison here. *)
Definition batch_CAS (idx : nat) (key : bytes) (newVal oldVal : slice) (t : T) : T * option err :=
  match tk_Get key t with
  | inl TNotFound => (t, Some ErrKeyNotFound)
  | inl e => (t, Some (Wrapped (client_err e)))
  | inr val =>
      if negb (bytes_eqb (content oldVal) val) then (t, Some (NewErrConflict idx key (Some val)))
      else wrap (tk_Set key newVal t)
  end.

Definition batch_DelCurrent (idx : nat) (it : kvitem) (t : T) : T * option err :=
  match tk_Get (it_key it) t with
  | inl TNotFound => (t, Some (NewErrConflict idx (it_key it) None))
  | inl e => (t, Some (Wrapped (client_err e)))
  | inr oldVal =>
      if negb (bytes_eqb oldVal (content (it_val it)))
      then (t, Some (NewErrConflict idx (it_key it) (Some oldVal)))
      else let '(t', e) := tk_Delete (it_key it) t in (t', client_err <$> e)
  end.

Definition run_op (idx : nat) (op : bop) (t : T) : T * option err :=
  match op with
  | PutIfNotExist k v _ => batch_PutIfNotExist idx k v t
  | CAS k new old _ => batch_CAS idx k new old t
  | Put k v _ => wrap (tk_Set k v t)
  | Del k => wrap (tk_Delete k t)
  | DelCurrent it => batch_DelCurrent idx it t
  end.

Fixpoint run_ops (idx : nat) (ops : list bop) (t : T) : T * option err :=
  match ops with
  | [] => (t, None)
  | op :: ops' =>
      match run_op idx op t with
      | (t', Some e) => (t', Some e)
      | (t', None) => run_ops (S idx) ops' t'
      end
  end.

Definition uncertainErrList : list terr := [TDeadlineExceeded; TCanceled; TBodyMissing; TServerTimeout; TUnknown].

Definition commit_err (e : terr) : err :=
  if decide (e = TWriteConflict) then ErrCASFailed
  else if decide (e ∈ uncertainErrList) then NewErrUncertainResult (client_err e)
  else client_err e.

Definition BeginBatchWrite : GoM D (terr + T) := tk_Begin.

(** The first entry of the list of [BeginBatchWrite] reports the error of its
    [Begin], so that the operations count from 1.  Any error rolls the
    transaction back, one that never began too. *)
Definition Commit (ops : list bop) : GoM D (option err) :=
  r ← BeginBatchWrite;
  match r with
  | inl e => _ ← tk_Rollback None; mret (Some (client_err e))
  | inr txn =>
      match run_ops 1 ops txn with
      | (txn', Some e) => _ ← tk_Rollback (Some txn'); mret (Some e)
      | (txn', None) =>
          e ← tk_Commit txn';
          match e with
          | Some e => _ ← tk_Rollback (Some txn'); mret (Some (commit_err e))
          | None => mret None
          end
      end
  end.

Definition Delete (key : bytes) : GoM D (option err) := Commit [Del key].

Definition DeleteCurrent (it : kvitem) : GoM D (option err) := Commit [DelCurrent it].

(** * Iterators *)

Definition checkBorder (reverse : bool) (end_ key : bytes) : bool :=
  if reverse then bytes_ltb end_ key else bytes_ltb key end_.

(** The entries after the first: [count] of them have been asked for. *)
Fixpoint iter_rest (reverse : bool) (end_ : bytes) (limit count : Z) (l : list (bytes * bytes)) (e : option terr)
    : list kvitem * err :=
  if (0 <? limit) && (limit <=? count) then ([], EOF)
  else match l with
       | [] => ([], from_option client_err EOF e)
       | (k, v) :: l' =>
           if checkBorder reverse end_ k then
             let '(items, e') := iter_rest reverse end_ limit (count + 1) l' e in
             (mkItem k (Some v) 0 :: items, e')
           else ([], EOF)
       end.

(** What successive calls of [Next] see; the first entry is not compared with
    the border. *)
Definition iter_items (reverse : bool) (end_ : bytes) (limit : Z) (s : scan) : list kvitem * err :=
  match s.1 with
  | [] => ([], EOF)
  | (k, v) :: l =>
      let '(items, e) := iter_rest reverse end_ limit 0 l s.2 in (mkItem k (Some v) 0 :: items, e)
  end.

Definition Iter (start end_ : bytes) (timestamp limit : Z) : GoM D (err + iter) :=
  let reverse := bytes_ltb end_ start in
  '(timestamp, e) ← (if timestamp =? 0 then GetTimestampOracle else mret (timestamp, None));
  match e with
  | Some e => mret (inl e)
  | None =>
      r ← (if negb reverse then tk_Iter timestamp start end_
           else tk_IterReverse timestamp (start ++ [to_byte 0]));
      match r with
      | inl e => mret (inl (Wrapped (client_err e)))
      | inr s => let '(items, e) := iter_items reverse end_ (int64 limit) s in mret (inr (mkIter items e))
      end
  end.

#[global] Instance tikv_storage : KvStorage D := {
  kv_tso := GetTimestampOracle;
  kv_partitions := GetPartitions;
  kv_get := Get;
  kv_iter := Iter;
  kv_commit := Commit;
  kv_del := Delete;
  kv_del_current := DeleteCurrent;
  kv_support_ttl := SupportTTL;
}.
End tikv.
