(* ===== verification/TikvSpec.v ===== *)
(** What the TiKV client's documentation promises, and that the adapter keeps the
    contract of the engine interface on it. *)

From S2P Require Import Prelude GoMonad Storage Tikv.

Abbreviation tmap := (gmap bytes bytes).

(** The scan of a snapshot: all of the expected entries, or an error after some
    of them; an error before the first one is reported when it is created. *)
Definition scan_of (s : scan) (expected : list (bytes * bytes)) : Prop :=
  s.1 `prefix_of` expected ∧ (s.2 = None → s.1 = expected) ∧ (s.1 = [] → s.2 = None).

Class TikvSpec (D T : Type) `{Tikv D T} := {
  tk_inv : D → Prop;
  (** the newest state, and the state at a timestamp *)
  tk_view : D → tmap;
  tk_at : D → Z → tmap;
  (** what a transaction sees, and the state it began with *)
  tx_view : T → tmap;
  tx_base : T → tmap;
  tk_timestamp_spec d : tk_inv d →
    wp tk_GetTimestamp (λ r d', tk_inv d' ∧ tk_view d' = tk_view d ∧
      match r with inl _ => True | inr ts => is_uint64 ts ∧ tk_at d' ts = tk_view d' end) d;
  tk_begin_spec d : tk_inv d →
    wp tk_Begin (λ r d', tk_inv d' ∧ tk_view d' = tk_view d ∧
      match r with inl _ => True | inr t => tx_view t = tk_view d ∧ tx_base t = tk_view d end) d;
  tk_get_spec k t :
    match tk_Get k t with
    | inl TNotFound => tx_view t !! k = None
    | inl _ => True
    | inr v => tx_view t !! k = Some v
    end;
  (** empty values are refused *)
  tk_set_spec k v t t' : tk_Set k v t = (t', None) →
    ∃ x, v = Some x ∧ tx_view t' = <[k := x]> (tx_view t) ∧ tx_base t' = tx_base t;
  tk_delete_spec k t t' : tk_Delete k t = (t', None) →
    tx_view t' = delete k (tx_view t) ∧ tx_base t' = tx_base t;
  (** the client's own errors that leave the outcome of a commit open; a write
      conflict is not one of them *)
  tk_undetermined : terr → Prop;
  tk_conflict_determined : ¬ tk_undetermined TWriteConflict;
  (** a commit is atomic: it is applied, or it is not, and which is open only
      after an undetermined error *)
  tk_commit_spec t d : tk_inv d → tx_base t = tk_view d →
    wp (tk_Commit t) (λ e d', tk_inv d' ∧
      match e with
      | None => tk_view d' = tx_view t
      | Some e => tk_view d' = tk_view d ∨ (tk_undetermined e ∧ tk_view d' = tx_view t)
      end) d;
  tk_rollback_spec t d : tk_inv d →
    wp (tk_Rollback (Some t)) (λ _ d', tk_inv d' ∧ tk_view d' = tk_view d) d;
  (** a method of a nil transaction panics or has nothing to roll back *)
  tk_rollback_nil_spec d d' : tk_inv d → tk_Rollback None d = Some (d', ()) →
    tk_inv d' ∧ tk_view d' = tk_view d;
  tk_iter_spec ts start end_ d : tk_inv d →
    wp (tk_Iter ts start end_) (λ r d', tk_inv d' ∧ tk_view d' = tk_view d ∧
      match r with inl _ => True | inr s => scan_of s (asc_range (tk_at d ts) start end_) end) d;
  tk_iter_reverse_spec ts k d : tk_inv d →
    wp (tk_IterReverse ts k) (λ r d', tk_inv d' ∧ tk_view d' = tk_view d ∧
      match r with
      | inl _ => True
      | inr s => scan_of s (reverse (filter (λ e, bytes_lt e.1 k) (entries (tk_at d ts))))
      end) d;
}.

(** The map of the engine interface: no value is nil. *)
Definition as_kv (m : tmap) : kvmap := Some <$> m.

(** The transaction of a batch does not begin, and rolling back the nil one
    panics. *)
Definition begin_panics {D T} `{Tikv D T} (d : D) : Prop :=
  ∃ e d', tk_Begin d = Some (d', inl e) ∧ tk_Rollback (T := T) None d' = None.

(** * Batches *)

Section batch.
Context {D T : Type} `{TikvSpec D T}.

Definition op_done (op : bop) (t t' : T) : Prop :=
  bop_apply op (as_kv (tx_view t)) = Some (as_kv (tx_view t')) ∧ tx_base t' = tx_base t.

Lemma set_done k v t t' :
  tk_Set k v t = (t', None) →
  as_kv (tx_view t') = <[k := v]> (as_kv (tx_view t)) ∧ tx_base t' = tx_base t.
Proof.
  intros E. destruct (tk_set_spec _ _ _ _ E) as (x & -> & -> & ->). split; [|done].
  unfold as_kv. by rewrite fmap_insert.
Qed.

Lemma delete_done k t t' :
  tk_Delete k t = (t', None) →
  as_kv (tx_view t') = delete k (as_kv (tx_view t)) ∧ tx_base t' = tx_base t.
Proof.
  intros E. destruct (tk_delete_spec _ _ _ E) as [-> ->]. split; [|done].
  unfold as_kv. by rewrite fmap_delete.
Qed.

Lemma wrap_done t t' e : wrap (T := T) (t, e) = (t', None) → t' = t ∧ e = None.
Proof. unfold wrap. simpl. by destruct e; intros [= <-]. Qed.

Lemma bytes_eqb_sym a b : bytes_eqb a b = bytes_eqb b a.
Proof.
  destruct (bytes_eqb b a) eqn:E.
  - apply bytes_eqb_spec in E. by apply bytes_eqb_spec.
  - apply bytes_eqb_false in E. by apply bytes_eqb_false.
Qed.

(** An operation that reports no error has done what the interface says. *)
Lemma run_op_done idx op t t' : run_op idx op t = (t', None) → op_done op t t'.
Proof.
  assert (∀ k, as_kv (tx_view t) !! k = Some <$> tx_view t !! k) as Hl by (intros; apply lookup_fmap).
  destruct op as [k v ttl|k new old ttl|k v ttl|k|it]; cbn [run_op]; intros E.
  - unfold batch_PutIfNotExist in E. pose proof (tk_get_spec k t) as Hg.
    destruct (tk_Get k t) as [[]|x]; try done.
    destruct (tk_Set k v t) as [t1 e] eqn:Es. apply wrap_done in E as [-> ->].
    destruct (set_done _ _ _ _ Es) as [Ev Eb]. unfold op_done. simpl. by rewrite Hl, Hg, Ev.
  - unfold batch_CAS in E. pose proof (tk_get_spec k t) as Hg.
    destruct (tk_Get k t) as [[]|x]; try done. destruct (bytes_eqb (content old) x) eqn:Ex; [|done].
    cbn [negb] in E. destruct (tk_Set k new t) as [t1 e] eqn:Es. apply wrap_done in E as [-> ->].
    destruct (set_done _ _ _ _ Es) as [Ev Eb]. unfold op_done. simpl. rewrite Hl, Hg. simpl.
    by rewrite bytes_eqb_sym, Ex, Ev.
  - destruct (tk_Set k v t) as [t1 e] eqn:Es. apply wrap_done in E as [-> ->].
    destruct (set_done _ _ _ _ Es) as [Ev Eb]. unfold op_done. simpl. by rewrite Ev.
  - destruct (tk_Delete k t) as [t1 e] eqn:Es. apply wrap_done in E as [-> ->].
    destruct (delete_done _ _ _ Es) as [Ev Eb]. unfold op_done. simpl. by rewrite Ev.
  - unfold batch_DelCurrent in E. pose proof (tk_get_spec (it_key it) t) as Hg.
    destruct (tk_Get (it_key it) t) as [[]|x]; try done.
    destruct (bytes_eqb x (content (it_val it))) eqn:Ex; [|done]. cbn [negb] in E.
    destruct (tk_Delete (it_key it) t) as [t1 [e|]] eqn:Es; [done|]. injection E as <-.
    destruct (delete_done _ _ _ Es) as [Ev Eb]. unfold op_done. simpl. rewrite Hl, Hg. simpl. by rewrite Ex, Ev.
Qed.

Lemma run_ops_done ops : ∀ idx t t', run_ops idx ops t = (t', None) →
  batch_apply ops (as_kv (tx_view t)) = Some (as_kv (tx_view t')) ∧ tx_base t' = tx_base t.
Proof.
  induction ops as [|op ops IH]; intros idx t t' E; simpl in E; [by simplify_eq|].
  destruct (run_op idx op t) as [t1 [e|]] eqn:Eo; [done|].
  destruct (run_op_done _ _ _ _ Eo) as [E1 B1]. destruct (IH _ _ _ E) as [E2 B2].
  simpl. rewrite E1. by rewrite B2.
Qed.

(** Conflicts carry the position of their operation, counted from 1. *)
Lemma run_op_error idx op t t' e :
  run_op idx op t = (t', Some e) → match e with Conflict i _ _ => i = idx | _ => True end.
Proof.
  assert (∀ r, wrap (T := T) r = (t', Some e) → match e with Conflict i _ _ => i = idx | _ => True end) as Hw.
  { intros [t1 [e1|]]; unfold wrap; simpl; intros E; by simplify_eq. }
  destruct op; cbn [run_op]; unfold batch_PutIfNotExist, batch_CAS, batch_DelCurrent; intros E;
    try (by apply Hw in E).
  - destruct (tk_Get key t) as [[]|x]; try (by simplify_eq). by apply Hw in E.
  - destruct (tk_Get key t) as [[]|x]; try (by simplify_eq). case_match; [by simplify_eq|]. by apply Hw in E.
  - destruct (tk_Get (it_key it) t) as [[]|x]; try (by simplify_eq). case_match; [by simplify_eq|].
    destruct (tk_Delete (it_key it) t) as [t1 [[]|]]; by simplify_eq/=.
Qed.

Lemma run_ops_error ops : ∀ idx t t' e,
  run_ops idx ops t = (t', Some e) → match e with Conflict i _ _ => (idx <= i)%nat | _ => True end.
Proof.
  induction ops as [|op ops IH]; intros idx t t' e E; simpl in E; [done|].
  destruct (run_op idx op t) as [t1 [e1|]] eqn:Eo.
  - simplify_eq. apply run_op_error in Eo. destruct e; simplify_eq; done || lia.
  - apply IH in E. destruct e; done || lia.
Qed.

(** The errors that the adapter reports as uncertain, one by one. *)
Definition reported_uncertain (e : terr) : Prop :=
  e = TDeadlineExceeded ∨ e = TCanceled ∨ e = TBodyMissing ∨ e = TServerTimeout ∨ e = TUnknown.

Lemma commit_err_uncertain e :
  (err_is (commit_err e) ErrUncertainResult = true ↔ reported_uncertain e) ∧
  (err_is (commit_err e) ErrCASFailed = true ↔ e = TWriteConflict).
Proof. unfold reported_uncertain. destruct e; vm_compute; intuition congruence. Qed.

(** No conflict is reported for operation 0. *)
Definition from_one (e : option err) : Prop :=
  match e with Some (Conflict 0 _ _) => False | _ => True end.

(** All operations are applied or none; after an error they may have been only if
    the client's commit failed with an undetermined error [c], which is reported
    as uncertain exactly when it is one of the five, and never as a failed
    comparison. *)
Definition commit_exact (d : D) (ops : list bop) (e : option err) (d' : D) : Prop :=
  tk_inv d' ∧ from_one e ∧
  match e with
  | None => batch_apply ops (as_kv (tk_view d)) = Some (as_kv (tk_view d'))
  | Some e =>
      tk_view d' = tk_view d ∨
      (batch_apply ops (as_kv (tk_view d)) = Some (as_kv (tk_view d')) ∧ err_is e ErrCASFailed = false ∧
       ∃ c, tk_undetermined c ∧ e = commit_err c ∧ (err_is e ErrUncertainResult = true ↔ reported_uncertain c))
  end.

Lemma wp_rollback t e d d1 ops :
  tk_inv d1 → commit_exact d ops (Some e) d1 →
  wp (_ ← tk_Rollback (Some t); mret (Some e)) (commit_exact d ops) d1.
Proof.
  intros Hd1 (_ & Hf & Hp). apply wp_bind. eapply wp_mono; [by apply tk_rollback_spec|].
  intros _ d2 [Hd2 Hv2]. apply wp_ret. split; [done|]. split; [done|]. by rewrite Hv2.
Qed.

Lemma commit_failed_exact d d2 ops c :
  tk_inv d2 → tk_view d2 = tk_view d ∨
    (tk_undetermined c ∧ batch_apply ops (as_kv (tk_view d)) = Some (as_kv (tk_view d2))) →
  commit_exact d ops (Some (commit_err c)) d2.
Proof.
  intros Hd2 Hp. split; [done|]. split; [by destruct c|]. destruct Hp as [->|[Hu Hp]]; [by left|].
  destruct (commit_err_uncertain c) as [Hr Hcas]. right. split; [done|]. split; [|by exists c].
  destruct (err_is (commit_err c) ErrCASFailed); [|done]. rewrite (proj1 Hcas eq_refl) in Hu.
  by destruct tk_conflict_determined.
Qed.

(** What a batch does. *)
Lemma wp_tikv_Commit ops d :
  tk_inv d → begin_panics (T := T) d ∧ Commit ops d = None ∨ wp (Commit ops) (commit_exact d ops) d.
Proof.
  intros Hd. pose proof (tk_begin_spec d Hd) as Hw. unfold wp in Hw.
  destruct (tk_Begin d) as [[d1 [e|t]]|] eqn:Eb; [| |done]; destruct Hw as (Hd1 & Hv1 & Ht).
  - destruct (tk_Rollback (T := T) None d1) as [[d2 []]|] eqn:Er.
    + right. unfold wp, Commit, BeginBatchWrite, mbind, gom_bind. rewrite Eb. simpl. rewrite Er. simpl.
      destruct (tk_rollback_nil_spec _ _ Hd1 Er) as [Hd2 Hv2].
      split; [done|]. split; [by destruct e|]. left. congruence.
    + left. split; [by exists e, d1|]. unfold Commit, BeginBatchWrite, mbind, gom_bind. rewrite Eb. simpl. by rewrite Er.
  - right. unfold Commit, BeginBatchWrite. apply wp_bind. unfold wp at 1. rewrite Eb.
    destruct Ht as [Et Ebase]. destruct (run_ops 1 ops t) as [t' [e|]] eqn:Er.
    + apply wp_rollback; [done|]. split; [done|]. split; [|by left].
      apply run_ops_error in Er. destruct e as []; try done. destruct idx; [lia | done].
    + destruct (run_ops_done _ _ _ _ Er) as [Ea Eb']. rewrite Et in Ea.
      apply wp_bind. eapply wp_mono; [apply tk_commit_spec; [done | congruence]|]. intros [c|] d2 [Hd2 Hp].
      * apply wp_rollback; [done|]. apply commit_failed_exact; [done|].
        destruct Hp as [->|[Hu ->]]; [left; congruence | by right].
      * apply wp_ret. split; [done|]. split; [done|]. by rewrite Hp.
Qed.

(** The contract of the engine interface, when the client leaves nothing open but
    what the adapter reports. *)
Lemma commit_exact_post d ops e d' :
  (∀ c, tk_undetermined c → reported_uncertain c) →
  commit_exact d ops e d' → commit_post (as_kv (tk_view d)) ops e (as_kv (tk_view d')).
Proof.
  intros Hlist (_ & _ & He). destruct e as [e|]; [|done].
  destruct He as [->|(Ha & Hcas & c & Hu & _ & Hr)]; [by left|]. right. split; [by apply Hr, Hlist | done].
Qed.
End batch.

(** * Reads *)

Section reads.
Context {D T : Type} `{TikvSpec D T}.

Lemma wp_tikv_Get k d :
  tk_inv d →
  wp (Tikv.Get k) (λ r d', tk_inv d' ∧ tk_view d' = tk_view d ∧ get_post (as_kv (tk_view d)) k r) d.
Proof.
  intros Hd. unfold Tikv.Get. apply wp_bind. eapply wp_mono; [by apply tk_begin_spec|].
  assert (as_kv (tk_view d) !! k = Some <$> tk_view d !! k) as Hl by apply lookup_fmap.
  intros [e|t] d1 (Hd1 & Hv1 & Ht); [apply wp_ret; unfold get_post; simpl; by rewrite Hv1|].
  destruct Ht as [Et Eb]. pose proof (tk_get_spec k t) as Hg.
  destruct (tk_Get k t) as [e|x].
  - destruct e; apply wp_ret; unfold get_post; simpl; (split; [done|]); (split; [done|]); (split; [done|]); try done.
    intros _. by rewrite Hl, <-Et, Hg.
  - apply wp_bind. eapply wp_mono; [apply tk_commit_spec; [done | congruence]|].
    intros [e|] d2 [Hd2 Hp]; apply wp_ret; unfold get_post; simpl; (split; [done|]).
    + split; [|done]. destruct Hp as [->|[_ ->]]; congruence.
    + split; [congruence|]. by rewrite Hl, <-Et, Hg.
Qed.
End reads.

(** * Iterators *)

Definition border (rev : bool) (end_ : bytes) (e : bytes * bytes) : Prop := checkBorder rev end_ e.1 = true.

#[local] Instance border_dec rev end_ e : Decision (border rev end_ e).
Proof. unfold border. apply _. Defined.

(** Once an entry is beyond the border, all that follow are. *)
Definition closed (rev : bool) (end_ : bytes) (l : list (bytes * bytes)) : Prop :=
  StronglySorted (λ a b, border rev end_ b → border rev end_ a) l.

Definition as_item (e : bytes * bytes) : bytes * slice := (e.1, Some e.2).

(** Entries in order; at a normal end all of them, and otherwise the client's
    error. *)
Definition stops_at (yielded full : list (bytes * slice)) (e : err) : Prop :=
  yielded `prefix_of` full ∧ iter_err e ∧ (e = EOF → yielded = full) ∧ (e = EOF ∨ ∃ c, e = client_err c).

(** What a limit leaves when [count] calls have been counted. *)
Definition counted {A} (limit count : Z) (l : list A) : list A :=
  if 0 <? limit then take (Z.to_nat (limit - count)) l else l.

Lemma client_err_iter e : iter_err (client_err e) ∧ client_err e ≠ EOF.
Proof. by destruct e. Qed.

Lemma EOF_iter : iter_err EOF.
Proof. done. Qed.

Lemma stops_nil e : stops_at [] [] (from_option client_err EOF e).
Proof.
  split; [done|]. destruct e as [c|]; simpl; [|by split; [|split; [|left]]].
  destruct (client_err_iter c). split; [done|]. split; [done|]. right. by exists c.
Qed.

Lemma stops_error full c : stops_at [] full (client_err c).
Proof.
  destruct (client_err_iter c). split; [apply prefix_nil|]. split; [done|]. split; [done|]. right. by exists c.
Qed.

Lemma stops_cons x yielded full e : stops_at yielded full e → stops_at (x :: yielded) (x :: full) e.
Proof.
  intros (Hp & He & Hend & Hc). split; [by apply prefix_cons|]. split; [done|]. split; [|done].
  intros Ee. by rewrite Hend.
Qed.

Lemma iter_rest_spec rev end_ limit l : ∀ all e count,
  l `prefix_of` all → (e = None → l = all) → closed rev end_ all → 0 <= count →
  let '(items, e') := iter_rest rev end_ limit count l e in
  stops_at (item_kv <$> items) (counted limit count (as_item <$> filter (border rev end_) all)) e'.
Proof.
  assert (∀ A (full : list A) count, (0 <? limit) && (limit <=? count) = true → counted limit count full = []) as Hfull.
  { intros A full count [Hl Hc]%andb_true_iff. unfold counted. rewrite Hl. apply Z.leb_le in Hc.
    by replace (Z.to_nat (limit - count)) with 0%nat by lia. }
  assert (∀ A count, counted limit count ([] : list A) = []) as Hnil.
  { intros A count. unfold counted. case_match; [apply take_nil | done]. }
  induction l as [|[k v] l IH]; intros all e count Hp He Hc Hcount; simpl;
    (destruct ((0 <? limit) && (limit <=? count)) eqn:El; [rewrite Hfull by done; apply (stops_nil None)|]).
  - destruct e as [c|]; [apply stops_error|]. rewrite <-He by done. rewrite filter_nil, Hnil. apply (stops_nil None).
  - destruct all as [|x all]; [by apply prefix_nil_not in Hp|].
    pose proof (prefix_cons_inv_1 _ _ _ _ Hp) as <-. apply prefix_cons_inv_2 in Hp.
    assert (e = None → l = all) as He' by (intros He'; by injection (He He')).
    inversion_clear Hc as [|? ? Hc' Hf]. destruct (checkBorder rev end_ k) eqn:Eb.
    + rewrite filter_cons_True by done. specialize (IH all e (count + 1) Hp He' Hc' ltac:(lia)).
      destruct (iter_rest rev end_ limit (count + 1) l e) as [items e']. unfold counted in *.
      rewrite !fmap_cons. destruct (Z.ltb_spec 0 limit); [|by apply stops_cons].
      apply Z.leb_gt in El. replace (Z.to_nat (limit - count)) with (S (Z.to_nat (limit - (count + 1)))) by lia.
      simpl. by apply stops_cons.
    + assert (filter (border rev end_) ((k, v) :: all) = []) as ->; [|rewrite Hnil; apply (stops_nil None)].
      apply filter_none. constructor; [unfold border; simpl; congruence|].
      eapply Forall_impl; [exact Hf|]. intros y Hy Hb. apply Hy in Hb. unfold border in Hb. simpl in Hb. congruence.
Qed.

(** What a scan is cut to: beyond the border only its first entry is yielded, and
    the first entry does not count. *)
Definition scan_cut (rev : bool) (end_ : bytes) (limit : Z) (all : list (bytes * bytes)) : list (bytes * bytes) :=
  match filter (border rev end_) all with [] => take 1 all | full => counted limit (-1) full end.

Lemma counted_cons {A} limit (x : A) l : counted limit (-1) (x :: l) = x :: counted limit 0 l.
Proof.
  unfold counted. destruct (Z.ltb_spec 0 limit); [|done].
  by replace (Z.to_nat (limit - -1)) with (S (Z.to_nat (limit - 0))) by lia.
Qed.

Lemma fmap_counted {A B} (f : A → B) limit count l : f <$> counted limit count l = counted limit count (f <$> l).
Proof. unfold counted. case_match; [apply fmap_take | done]. Qed.

Lemma scan_items_spec rev end_ limit s all :
  scan_of s all → closed rev end_ all →
  let '(items, e) := iter_items rev end_ limit s in
  stops_at (item_kv <$> items) (as_item <$> scan_cut rev end_ limit all) e.
Proof.
  intros (Hp & He & Hnil) Hc. unfold iter_items, scan_cut. destruct s as [[|[k v] l] se]; simpl in *.
  - rewrite <-(He (Hnil eq_refl)). apply (stops_nil None).
  - destruct all as [|x all]; [by apply prefix_nil_not in Hp|].
    pose proof (prefix_cons_inv_1 _ _ _ _ Hp) as <-. apply prefix_cons_inv_2 in Hp.
    inversion_clear Hc as [|? ? Hc' Hf].
    pose proof (iter_rest_spec rev end_ limit l all se 0 Hp ltac:(intros E; by injection (He E)) Hc' ltac:(lia)) as Hr.
    destruct (iter_rest rev end_ limit 0 l se) as [items e]. rewrite <-fmap_counted in Hr.
    destruct (decide (border rev end_ (k, v))) as [Hb|Hb].
    + rewrite filter_cons_True by done. rewrite counted_cons, !fmap_cons. by apply stops_cons.
    + assert (filter (border rev end_) all = []) as En.
      { apply filter_none. eapply Forall_impl; [exact Hf|]. auto. }
      rewrite filter_cons_False by done. rewrite En in *. rewrite !fmap_cons. apply stops_cons.
      replace (counted limit 0 []) with ([] : list (bytes * bytes)) in Hr; [done|].
      unfold counted. by case_match; [rewrite take_nil|].
Qed.

Lemma asc_range_as_kv m s e : asc_range (as_kv m) s e = as_item <$> asc_range m s e.
Proof.
  apply sorted_kvs_ext; [apply asc_range_sorted| |].
  - pose proof (asc_range_sorted m s e) as Hs. unfold sorted_kvs in *.
    induction Hs as [|x l Hl IH Hx]; simpl; constructor; [done|]. by apply Forall_fmap.
  - intros [k v]. rewrite elem_of_asc_range, list_elem_of_fmap. unfold as_kv. rewrite lookup_fmap. split.
    + intros (Hm & Hr). destruct (m !! k) as [x|] eqn:E; [|done]. simpl in Hm. injection Hm as <-.
      exists (k, x). split; [done|]. by apply elem_of_asc_range.
    + intros ([k' x] & E & Hin). unfold as_item in E. simpl in E. simplify_eq.
      apply elem_of_asc_range in Hin as [-> Hr]. done.
Qed.

Lemma desc_range_as_kv m s e : desc_range (as_kv m) s e = as_item <$> desc_range m s e.
Proof.
  apply (inj reverse). rewrite <-fmap_reverse. apply sorted_kvs_ext; [apply desc_range_sorted| |].
  - pose proof (desc_range_sorted m s e) as Hs. unfold sorted_kvs in *.
    induction Hs as [|x l Hl IH Hx]; simpl; constructor; [done|]. by apply Forall_fmap.
  - intros [k v]. rewrite elem_of_reverse, elem_of_desc_range, fmap_reverse, elem_of_reverse, list_elem_of_fmap.
    unfold as_kv. rewrite lookup_fmap. split.
    + intros (Hm & Hr). destruct (m !! k) as [x|] eqn:E; [|done]. simpl in Hm. injection Hm as <-.
      exists (k, x). split; [done|]. by apply elem_of_desc_range.
    + intros ([k' x] & E & Hin). unfold as_item in E. simpl in E. simplify_eq.
      apply elem_of_desc_range in Hin as [-> Hr]. done.
Qed.

(** A zero byte is the least a key can be extended by. *)
Lemma lt_zero a b : bytes_lt a (b ++ [to_byte 0]) ↔ bytes_le a b.
Proof.
  unfold bytes_lt, bytes_le. revert b. induction a as [|x a IH]; intros [|y b]; simpl; try done.
  - change (bval (to_byte 0)) with 0. pose proof (bval_range x). destruct (Z.compare_spec (bval x) 0); [|lia|done].
    split; [|done]. by destruct a.
  - destruct (bval x ?= bval y); [apply IH | done..].
Qed.

Lemma checkBorder_spec rev end_ k :
  checkBorder rev end_ k = true ↔ (if rev then bytes_lt end_ k else bytes_lt k end_).
Proof. unfold checkBorder. destruct rev; apply bytes_ltb_spec. Qed.

Lemma sorted_closed_asc end_ l : sorted_kvs l → closed false end_ l.
Proof.
  intros Hs. eapply StronglySorted_weaken; [|exact Hs]. intros a b Hab.
  unfold border. rewrite !checkBorder_spec. intros Hb. by eapply bytes_lt_trans.
Qed.

Lemma sorted_closed_desc end_ l : sorted_kvs l → closed true end_ (reverse l).
Proof.
  intros Hs. apply StronglySorted_reverse. eapply StronglySorted_weaken; [|exact Hs]. intros a b Hab.
  unfold border. rewrite !checkBorder_spec. intros Hb. by eapply bytes_lt_trans.
Qed.

Lemma border_asc m s e : filter (border false e) (asc_range m s e) = asc_range m s e.
Proof.
  unfold asc_range. rewrite list_filter_filter. apply list_filter_iff. intros x. unfold border. rewrite checkBorder_spec. tauto.
Qed.

Lemma border_desc m s e :
  filter (border true e) (reverse (filter (λ x, bytes_lt x.1 (s ++ [to_byte 0])) (entries m))) = desc_range m s e.
Proof.
  rewrite filter_reverse. unfold desc_range. f_equal. rewrite list_filter_filter. apply list_filter_iff. intros x. unfold border.
  rewrite checkBorder_spec, lt_zero. tauto.
Qed.

Section iter.
Context {D T : Type} `{TikvSpec D T}.

(** What a scan at a timestamp sees; timestamp 0 asks for the newest state. *)
Definition snapshot_at (d : D) (timestamp : Z) : tmap :=
  if timestamp =? 0 then tk_view d else tk_at d timestamp.

(** The first entry of a scan is not counted, and a limit of [2^63] or more is
    none. *)
Definition one_more {A} (limit : Z) (l : list A) : list A :=
  if (0 <? limit) && (limit <? two63) then take (S (Z.to_nat limit)) l else l.

(** The entries at [start] and below, from the greatest on. *)
Definition desc_from (m : tmap) (start : bytes) : list (bytes * bytes) :=
  reverse (filter (λ e, bytes_le e.1 start) (entries m)).

(** What an iterator of the adapter yields: the range in its direction, and one
    entry more than a limit asks for; the first entry of a descending scan is not
    compared with the border, so that over an empty range it is yielded. *)
Definition tikv_range (m : tmap) (start end_ : bytes) (limit : Z) : list (bytes * bytes) :=
  if bytes_ltb end_ start then
    match desc_range m start end_ with
    | [] => take 1 (desc_from m start)
    | full => one_more limit full
    end
  else one_more limit (asc_range m start end_).

Lemma counted_one_more {A} limit (l : list A) :
  is_uint64 limit → counted (int64 limit) (-1) l = one_more limit l.
Proof.
  intros Hl. unfold counted, one_more. destruct (Z.ltb_spec 0 limit), (Z.ltb_spec limit two63); simpl.
  - replace (int64 limit) with limit by (unfold is_uint64, int64, two63, two64 in *; mlia).
    rewrite (proj2 (Z.ltb_lt 0 limit)) by done. by replace (Z.to_nat (limit - -1)) with (S (Z.to_nat limit)) by lia.
  - rewrite (proj2 (Z.ltb_ge 0 (int64 limit))); [done|]. unfold is_uint64, int64, two63, two64 in *; mlia.
  - rewrite (proj2 (Z.ltb_ge 0 (int64 limit))); [done|]. unfold is_uint64, int64, two63, two64 in *; mlia.
  - unfold two63, is_uint64 in *. lia.
Qed.

Lemma desc_from_zero m s :
  reverse (filter (λ x, bytes_lt x.1 (s ++ [to_byte 0])) (entries m)) = desc_from m s.
Proof. unfold desc_from. f_equal. apply list_filter_iff. intros x. apply lt_zero. Qed.

Lemma iter_items_asc m start end_ limit s :
  is_uint64 limit → bytes_ltb end_ start = false → scan_of s (asc_range m start end_) →
  let '(items, e) := iter_items false end_ (int64 limit) s in
  stops_at (item_kv <$> items) (as_item <$> tikv_range m start end_ limit) e.
Proof.
  intros Hl Hd Hs. pose proof (scan_items_spec false end_ (int64 limit) s _ Hs
    (sorted_closed_asc _ _ (asc_range_sorted _ _ _))) as Hi.
  destruct (iter_items false end_ (int64 limit) s) as [items e]. unfold scan_cut in Hi. rewrite border_asc in Hi.
  unfold tikv_range. rewrite Hd. destruct (asc_range m start end_) as [|x l] eqn:E; [|by rewrite <-counted_one_more].
  by replace (one_more limit []) with (take 1 ([] : list (bytes * bytes))) by (unfold one_more; by case_match).
Qed.

Lemma iter_items_desc m start end_ limit s :
  is_uint64 limit → bytes_ltb end_ start = true →
  scan_of s (reverse (filter (λ x, bytes_lt x.1 (start ++ [to_byte 0])) (entries m))) →
  let '(items, e) := iter_items true end_ (int64 limit) s in
  stops_at (item_kv <$> items) (as_item <$> tikv_range m start end_ limit) e.
Proof.
  intros Hl Hd Hs. pose proof (scan_items_spec true end_ (int64 limit) s _ Hs
    (sorted_closed_desc _ _ (sorted_kvs_filter _ _ (entries_sorted _)))) as Hi.
  destruct (iter_items true end_ (int64 limit) s) as [items e]. unfold scan_cut in Hi. rewrite border_desc in Hi.
  unfold tikv_range. rewrite Hd. destruct (desc_range m start end_) as [|x l]; [by rewrite desc_from_zero in Hi|].
  by rewrite <-counted_one_more.
Qed.

(** The exact result keeps the contract of the engine interface. *)
Lemma one_more_post limit (full yielded : list (bytes * slice)) e :
  0 <= limit → yielded `prefix_of` one_more limit full → (e = EOF → yielded = one_more limit full) →
  yielded `prefix_of` full ∧
  (e = EOF → if limit <=? 0 then yielded = full else take (Z.to_nat limit) full `prefix_of` yielded).
Proof.
  intros Hl Hp He. assert (one_more limit full `prefix_of` full) as Hm.
  { unfold one_more. case_match; [apply prefix_take | done]. }
  split; [by etrans|]. intros ->%He. unfold one_more. destruct (Z.leb_spec limit 0).
  - by rewrite (proj2 (Z.ltb_ge 0 limit)).
  - rewrite (proj2 (Z.ltb_lt 0 limit)) by done. simpl. case_match; [|apply prefix_take].
    replace (take (Z.to_nat limit) full) with (take (Z.to_nat limit) (take (S (Z.to_nat limit)) full)); [apply prefix_take|].
    rewrite take_take. f_equal. lia.
Qed.

Lemma fmap_one_more {A B} (f : A → B) limit l : f <$> one_more limit l = one_more limit (f <$> l).
Proof. unfold one_more. case_match; [apply fmap_take | done]. Qed.

Lemma tikv_range_post m start end_ limit items e :
  is_uint64 limit → stops_at (item_kv <$> items) (as_item <$> tikv_range m start end_ limit) e →
  iter_post (as_kv m) start end_ limit (mkIter items e).
Proof.
  intros [Hl _] (Hp & He & Hend & _). split; [done|]. simpl. unfold tikv_range in *.
  destruct (bytes_ltb end_ start) eqn:Er; simpl.
  - rewrite desc_range_as_kv. destruct (desc_range m start end_) as [|x full] eqn:Ed; simpl.
    + apply Forall_forall. intros kv Hkv. eapply elem_of_prefix in Hp; [|exact Hkv].
      apply list_elem_of_fmap in Hp as ([k v] & -> & Hx). apply elem_of_take in Hx as (i & Hx & _).
      apply list_elem_of_lookup_2 in Hx. unfold desc_from in Hx. apply elem_of_reverse, list_elem_of_filter in Hx as [Hle Hx].
      apply elem_of_entries in Hx. simpl in *. unfold as_kv. rewrite lookup_fmap, Hx. split; [done|].
      apply bytes_not_lt. intros Hlt. assert ((k, v) ∈ desc_range m start end_) as Hin by by apply elem_of_desc_range.
      rewrite Ed in Hin. by apply elem_of_nil in Hin.
    + rewrite fmap_one_more in Hp, Hend. by apply one_more_post.
  - rewrite asc_range_as_kv. rewrite fmap_one_more in Hp, Hend. by apply one_more_post.
Qed.

Lemma wp_tikv_Iter start end_ timestamp limit d :
  tk_inv d → is_uint64 limit →
  wp (Tikv.Iter start end_ timestamp limit) (λ r d', tk_inv d' ∧ tk_view d' = tk_view d ∧
    match r with
    | inl e => iter_err e
    | inr it =>
        let full := as_item <$> tikv_range (snapshot_at d timestamp) start end_ limit in
        stops_at (item_kv <$> it_items it) full (it_end it)
    end) d.
Proof.
  intros Hd Hl. unfold Tikv.Iter. apply wp_bind.
  eapply (wp_mono _ (λ r d1, tk_inv d1 ∧ tk_view d1 = tk_view d ∧
    match r with (_, Some e) => iter_err e | (ts, None) => tk_at d1 ts = snapshot_at d timestamp end)).
  - unfold snapshot_at. destruct (timestamp =? 0); [|by apply wp_ret]. unfold GetTimestampOracle.
    apply wp_bind. eapply wp_mono; [by apply tk_timestamp_spec|].
    intros [e|ts] d1 (Hd1 & Hv1 & Hts); apply wp_ret; (split; [done|]); (split; [done|]); [by destruct e|].
    destruct Hts as [_ ->]. done.
  - intros [ts [e|]] d1 (Hd1 & Hv1 & Hts); [by apply wp_ret|]. rewrite <-Hts. apply wp_bind.
    destruct (bytes_ltb end_ start) eqn:Er; cbn [negb].
    + eapply wp_mono; [by apply tk_iter_reverse_spec|]. intros [e|s] d2 (Hd2 & Hv2 & Hs).
      * apply wp_ret. split; [done|]. split; [congruence | by destruct e].
      * pose proof (iter_items_desc _ _ _ _ _ Hl Er Hs) as Hi.
        destruct (iter_items true end_ (int64 limit) s). apply wp_ret. split; [done|]. split; [congruence | done].
    + eapply wp_mono; [by apply tk_iter_spec|]. intros [e|s] d2 (Hd2 & Hv2 & Hs).
      * apply wp_ret. split; [done|]. split; [congruence | by destruct e].
      * pose proof (iter_items_asc _ _ _ _ _ Hl Er Hs) as Hi.
        destruct (iter_items false end_ (int64 limit) s). apply wp_ret. split; [done|]. split; [congruence | done].
Qed.
End iter.
