(* ===== verification/Proto.v ===== *)
(** The messages of kubebrain's protocol (kubebrain-client api/v2rpc) and the
    internal watch event of pkg/backend/common, as records with the fields the
    program reads and writes. *)

From S2P Require Import Prelude Storage.

Inductive EventType := CREATE | PUT | DELETE.

#[global] Instance EventType_eq_dec : EqDecision EventType.
Proof. solve_decision. Defined.

Record KeyValue := mkKV { kv_Key : bytes; kv_Value : slice; kv_Revision : Z }.

#[global] Instance KeyValue_eq_dec : EqDecision KeyValue.
Proof. solve_decision. Defined.

Record Event := mkEvent { ev_Type : EventType; ev_Kv : KeyValue; ev_Revision : Z }.

#[global] Instance Event_eq_dec : EqDecision Event.
Proof. solve_decision. Defined.

(** [common.WatchEvent] (its ResourceType field is never set). *)
Record WatchEvent := mkWatchEvent {
  we_Revision : Z;
  we_PrevRevision : Z;
  we_ResourceVerb : EventType;
  we_Valid : bool;
  we_Key : bytes;
  we_Value : slice;
  we_Err : option err;
}.

#[global] Instance WatchEvent_eq_dec : EqDecision WatchEvent.
Proof. solve_decision. Defined.

Record CreateRequest := mkCreateRequest { cr_Key : bytes; cr_Value : slice; cr_Lease : Z }.
Record CreateResponse := mkCreateResponse { crs_Revision : Z; crs_Succeeded : bool }.

Record UpdateRequest := mkUpdateRequest { ur_Kv : KeyValue; ur_Lease : Z }.
Record UpdateResponse := mkUpdateResponse {
  urs_Revision : Z; urs_Succeeded : bool; urs_Kv : option KeyValue }.

Record DeleteRequest := mkDeleteRequest { dr_Key : bytes; dr_Revision : Z }.
Record DeleteResponse := mkDeleteResponse {
  drs_Revision : Z; drs_Succeeded : bool; drs_Kv : option KeyValue }.

Record GetRequest := mkGetRequest { gr_Key : bytes; gr_Revision : Z }.
Record GetResponse := mkGetResponse { grs_Revision : Z; grs_Kv : option KeyValue }.

Record RangeRequest := mkRangeRequest {
  rr_Key : bytes; rr_End : bytes; rr_Limit : Z; rr_Revision : Z }.
Record RangeResponse := mkRangeResponse {
  rrs_Revision : Z; rrs_Kvs : list KeyValue; rrs_More : bool }.

Record StreamRangeResponse := mkStreamRangeResponse {
  srs_RangeResponse : RangeResponse; srs_Err : option err }.

Record CountRequest := mkCountRequest { cor_Key : bytes; cor_End : bytes }.
Record CountResponse := mkCountResponse { cors_Revision : Z; cors_Count : Z }.

Record ListPartitionRequest := mkListPartitionRequest { lpr_Key : bytes; lpr_End : bytes }.
Record ListPartitionResponse := mkListPartitionResponse {
  lprs_Revision : Z; lprs_PartitionNum : Z; lprs_PartitionKeys : list bytes }.
