(* ===== verification/Metrics.v ===== *)
(** The metrics client: pkg/metrics/metrics.go and
    pkg/metrics/prometheus/prometheus.go.

    A metric is a vector of series, one per value of its labels, created and
    registered the first time its name is emitted.  The Prometheus client library
    is a parameter: the class [Prometheus] has the calls the code makes, and
    [PromSpec] what is documented of them, panics included.  An emission is a
    program of atomic accesses (the read under the read lock, the section under
    the write lock, the update of the series), so that emissions of several
    goroutines interleave. *)

From Stdlib Require Import SpecFloat Ascii.
From S2P Require Import Prelude GoMonad Prog.

#[local] Open Scope string_scope.
#[local] Open Scope Z_scope.

(** * Values *)

(** A [float64] is a binary64 number; conversions round to nearest even. *)
Definition float64 : Type := spec_float.

Definition float64_of_Z (z : Z) : float64 := binary_normalize 53 1024 z 0 false.

Definition float64_of_float32 (f : spec_float) : float64 :=
  match f with
  | S754_finite s m e => binary_normalize 53 1024 (if s then Z.neg m else Z.pos m) e s
  | _ => f
  end.

Definition float0 : float64 := S754_zero false.

(** What [interface{}] holds, by the cases of [convert2float64]. *)
Inductive iface :=
  | VInt (z : Z) | VFloat64 (f : float64) | VFloat32 (f : spec_float)
  | VInt64 (z : Z) | VInt32 (z : Z) | VInt16 (z : Z) | VInt8 (z : Z)
  | VUint (z : Z) | VUint64 (z : Z) | VUint32 (z : Z) | VUint16 (z : Z) | VUint8 (z : Z)
  | VString (s : string) | VBool (b : bool) | VOther.

(** [None]: unable to cast; the callers drop the error and use the zero.
    [strconv.ParseFloat] of strings, which no caller passes, is an argument. *)
Definition convert2float64 (ParseFloat : string → option float64) (i : iface) : float64 * option () :=
  match i with
  | VFloat64 f => (f, None)
  | VFloat32 f => (float64_of_float32 f, None)
  | VInt z | VInt64 z | VInt32 z | VInt16 z | VInt8 z
  | VUint z | VUint64 z | VUint32 z | VUint16 z | VUint8 z => (float64_of_Z z, None)
  | VString s => match ParseFloat s with Some v => (v, None) | None => (float0, Some ()) end
  | VBool s => (if s then float64_of_Z 1 else float0, None)
  | VOther => (float0, Some ())
  end.

(** * Labels *)

Record T := mkT { Name : string; Value : string }.

Definition Tag (name value : string) : T := {| Name := name; Value := value |}.

(** [strings.Replace(name, ".", "_", -1)] *)
Fixpoint formatName (name : string) : string :=
  match name with
  | EmptyString => EmptyString
  | String c s => String (if Ascii.eqb c "." then "_" else c)%char (formatName s)
  end.

(** [utf8.ValidString]. *)
Definition in_range (lo hi : Z) (b : byte) : bool := (lo <=? bval b) && (bval b <=? hi).

Definition cont_byte : byte → bool := in_range 128 191.

Fixpoint utf8_valid (s : bytes) : bool :=
  match s with
  | [] => true
  | a :: s1 =>
      if bval a <? 128 then utf8_valid s1
      else match s1 with
      | [] => false
      | b :: s2 =>
          if in_range 194 223 a then cont_byte b && utf8_valid s2
          else match s2 with
          | [] => false
          | c :: s3 =>
              if (bval a =? 224) && in_range 160 191 b
                 || (in_range 225 236 a || in_range 238 239 a) && cont_byte b
                 || (bval a =? 237) && in_range 128 159 b
              then cont_byte c && utf8_valid s3
              else match s3 with
              | [] => false
              | d :: s4 =>
                  if (bval a =? 240) && in_range 144 191 b
                     || in_range 241 243 a && cont_byte b
                     || (bval a =? 244) && in_range 128 143 b
                  then cont_byte c && cont_byte d && utf8_valid s4
                  else false
              end
          end
      end
  end.

Definition ValidString (s : string) : bool := utf8_valid (str s).

(** * The Prometheus client library *)

Inductive kind := Counter | Gauge | Histogram.

#[global] Instance kind_eq_dec : EqDecision kind.
Proof. solve_decision. Defined.

(** The options and label names a vector is created with. *)
Record desc := mkDesc { d_kind : kind; d_fqName : string; d_labels : list string }.

Abbreviation labels := (gmap string string).

(** [NewCounterVec], [NewGaugeVec] and [NewHistogramVec]; [MustRegister]; and
    [With(labels)] followed by [Add], [Set] or [Observe]. *)
Class Prometheus (R Vec : Type) := {
  prom_new : desc → GoM R Vec;
  prom_register : Vec → GoM R ();
  prom_with : Vec → labels → float64 → GoM R ();
}.

(** A name of the Prometheus data model; metric names may have colons. *)
Definition name_start (c : Ascii.ascii) : bool :=
  let n := Z.of_nat (Ascii.nat_of_ascii c) in
  (65 <=? n) && (n <=? 90) || (97 <=? n) && (n <=? 122) || (n =? 95).

Definition name_char (c : Ascii.ascii) : bool :=
  let n := Z.of_nat (Ascii.nat_of_ascii c) in name_start c || (48 <=? n) && (n <=? 57).

Definition label_name_valid (s : string) : bool :=
  match String.list_ascii_of_string s with
  | [] => false
  | c :: l => name_start c && forallb name_char l && negb (String.prefix "__" s)
  end.

Definition metric_name_valid (s : string) : bool :=
  match String.list_ascii_of_string s with
  | [] => false
  | c :: l => let colon d := Ascii.eqb d ":" in
              (name_start c || colon c) && forallb (λ d, name_char d || colon d) l
  end.

(** A descriptor that can be registered; [le] is the histograms' own label. *)
Definition desc_valid (d : desc) : Prop :=
  metric_name_valid (d_fqName d) = true ∧
  Forall (λ l, label_name_valid l = true ∧ (d_kind d = Histogram → l ≠ "le")) (d_labels d) ∧
  NoDup (d_labels d).

(** The labels of an update match the vector, and a counter does not decrease. *)
Definition update_valid (d : desc) (l : labels) (v : float64) : Prop :=
  dom l = list_to_set (d_labels d) ∧
  map_Forall (λ _ x, ValidString x = true) l ∧
  (d_kind d = Counter → SFltb v float0 = false).

#[global] Instance desc_valid_dec d : Decision (desc_valid d).
Proof. unfold desc_valid. apply _. Defined.

#[global] Instance update_valid_dec d l v : Decision (update_valid d l v).
Proof. unfold update_valid. apply _. Defined.

(** [vecs]: the vectors created; [collectors]: those registered, by name;
    [series]: the updates of a series, in order, from which the library computes
    the sum of a counter, the last value of a gauge, the buckets of a histogram. *)
Class PromSpec (R Vec : Type) `{EqDecision Vec} `{Prometheus R Vec} := {
  prom_inv : R → Prop;
  vecs : R → Vec → option desc;
  collectors : R → gmap string Vec;
  series : R → Vec → labels → list float64;
  collectors_named r n v :
    prom_inv r → collectors r !! n = Some v → d_fqName <$> vecs r v = Some n;
  prom_new_spec d r : prom_inv r →
    wp (prom_new d) (λ v r', prom_inv r' ∧ vecs r v = None ∧
      (∀ u, vecs r' u = if decide (u = v) then Some d else vecs r u) ∧
      collectors r' = collectors r ∧
      (∀ u l, series r' u l = if decide (u = v) then [] else series r u l)) r;
  prom_register_spec v d r :
    prom_inv r → vecs r v = Some d → desc_valid d → collectors r !! d_fqName d = None →
    wp (prom_register v) (λ _ r', prom_inv r' ∧ vecs r' = vecs r ∧ series r' = series r ∧
      collectors r' = <[d_fqName d := v]> (collectors r)) r;
  prom_with_spec v d l x r :
    prom_inv r → vecs r v = Some d → update_valid d l x →
    wp (prom_with v l x) (λ _ r', prom_inv r' ∧ vecs r' = vecs r ∧ collectors r' = collectors r ∧
      (∀ u m, series r' u m = (series r u m ++ if decide (u = v ∧ m = l) then [x] else [])%list)) r;
  (** [MustRegister] panics for a name that is taken, [With] for labels that do
      not match and for a value that is not UTF-8, [Add] for a negative value. *)
  prom_register_panics v d r :
    vecs r v = Some d → is_Some (collectors r !! d_fqName d) → prom_register v r = None;
  prom_with_panics v d l x r :
    vecs r v = Some d → ¬ update_valid d l x → prom_with v l x r = None;
}.

(** * The client *)

Section client.
Context {R Vec : Type} `{Prometheus R Vec} (ParseFloat : string → option float64).

(** The struct, with the package's [registerer]. *)
Record prometheusWrapper := mkPw {
  globalLabelNames : list string;
  globalLabels : list T;
  counterVecMap : gmap string Vec;
  gaugeVecMap : gmap string Vec;
  histogramVecMap : gmap string Vec;
  registerer : R;
}.

Definition vecMap (κ : kind) (pw : prometheusWrapper) : gmap string Vec :=
  match κ with
  | Counter => counterVecMap pw | Gauge => gaugeVecMap pw | Histogram => histogramVecMap pw
  end.

Definition set_vec (κ : kind) (name : string) (v : Vec) (pw : prometheusWrapper) : prometheusWrapper :=
  let '(mkPw gn gl c g h r) := pw in
  match κ with
  | Counter => mkPw gn gl (<[name := v]> c) g h r
  | Gauge => mkPw gn gl c (<[name := v]> g) h r
  | Histogram => mkPw gn gl c g (<[name := v]> h) r
  end.

Definition set_registerer (r : R) (pw : prometheusWrapper) : prometheusWrapper :=
  let '(mkPw gn gl c g h _) := pw in mkPw gn gl c g h r.

Definition prom {A} : GoM R A → GoM prometheusWrapper A := zoom registerer set_registerer.

Definition extractLabelNames (globals : list string) (ls : list T) : list string :=
  (globals ++ map Name ls)%list.

Definition NewMetrics (gl : list T) (r : R) : prometheusWrapper :=
  mkPw (extractLabelNames [] gl) gl ∅ ∅ ∅ r.

Definition labelsToMap (gl ls : list T) : labels :=
  let ret := foldl (λ ret l, <[Name l := Value l]> ret) ∅ gl in
  foldl (λ ret l, <[Name l := Value l]> ret) ret ls.

(** The section under the write lock: check again, create, register, store. *)
Definition create_vec (κ : kind) (name : string) (ls : list T) : GoM prometheusWrapper Vec :=
  found ← gets (λ pw, vecMap κ pw !! name);
  match found with
  | Some vec => mret vec
  | None =>
      names ← gets (λ pw, extractLabelNames (globalLabelNames pw) ls);
      vec ← prom (prom_new (mkDesc κ (formatName name) names));
      _ ← prom (prom_register vec);
      _ ← modify (set_vec κ name vec);
      mret vec
  end.

(** The three functions differ in the map and the constructor only. *)
Definition mustGetVec (κ : kind) (name : string) (ls : list T) : prog prometheusWrapper Vec :=
  found ← atom (gets (λ pw, vecMap κ pw !! name));
  match found with
  | Some vec => mret vec
  | None => atom (create_vec κ name ls)
  end.

Definition mustGetCounterVec := mustGetVec Counter.
Definition mustGetGaugeVec := mustGetVec Gauge.
Definition mustGetHistogramVec := mustGetVec Histogram.

Definition with_labels (vec : Vec) (ls : list T) (flt : float64) : GoM prometheusWrapper () :=
  l ← gets (λ pw, labelsToMap (globalLabels pw) ls);
  prom (prom_with vec l flt).

Definition EmitCounter (name : string) (value : iface) (ls : list T) : prog prometheusWrapper () :=
  let flt := fst (convert2float64 ParseFloat value) in
  vec ← mustGetCounterVec name ls; atom (with_labels vec ls flt).

Definition EmitGauge (name : string) (value : iface) (ls : list T) : prog prometheusWrapper () :=
  let flt := fst (convert2float64 ParseFloat value) in
  vec ← mustGetGaugeVec name ls; atom (with_labels vec ls flt).

Definition EmitHistogram (name : string) (value : iface) (ls : list T) : prog prometheusWrapper () :=
  let flt := fst (convert2float64 ParseFloat value) in
  vec ← mustGetHistogramVec name ls; atom (with_labels vec ls flt).
End client.

Arguments prometheusWrapper : clear implicits.

(** * Emissions *)

(** A call of the interface [metrics.Metrics]. *)
Record emission := mkEmission {
  em_kind : kind; em_name : string; em_value : iface; em_tags : list T }.

Definition Emit {R Vec} `{Prometheus R Vec} (pf : string → option float64) (e : emission) :
    prog (prometheusWrapper R Vec) () :=
  match em_kind e with
  | Counter => EmitCounter pf (em_name e) (em_value e) (em_tags e)
  | Gauge => EmitGauge pf (em_name e) (em_value e) (em_tags e)
  | Histogram => EmitHistogram pf (em_name e) (em_value e) (em_tags e)
  end.

(** The emissions of a goroutine, one after the other. *)
Fixpoint emit_all {R Vec} `{Prometheus R Vec} (pf : string → option float64) (l : list emission) :
    prog (prometheusWrapper R Vec) () :=
  match l with
  | [] => mret ()
  | e :: l' => _ ← Emit pf e; emit_all pf l'
  end.
