(* ===== verification/MetricsSpec.v ===== *)
(** Typed emissions never panic: the invariant of the metrics client, its proof
    for interleaved emissions, and a concrete registry.

    A schema gives each metric name its kind and its label names; an emission is
    typed when it follows the schema.  [psafe n p es w]: from [w] on, whatever
    other emissions happen in between, the program [p] takes at most [n] steps,
    none panics, and together they add the updates of [es]. *)

From Stdlib Require Import SpecFloat.
From S2P Require Import Prelude GoMonad Prog Metrics.

#[local] Open Scope Z_scope.

(** * Schemas *)

Record sig := mkSig { sg_kind : kind; sg_labels : list string }.

#[global] Instance sig_eq_dec : EqDecision sig.
Proof. solve_decision. Defined.

Abbreviation schema := (list (string * sig)).

Definition schema_ok (gl : list T) (Σ : schema) : Prop :=
  Forall (λ t, ValidString (Value t) = true) gl ∧
  NoDup (map (λ x, formatName x.1) Σ) ∧
  Forall (λ x, desc_valid (mkDesc (sg_kind x.2) (formatName x.1) (map Name gl ++ sg_labels x.2))) Σ.

#[global] Instance schema_ok_dec gl Σ : Decision (schema_ok gl Σ).
Proof. unfold schema_ok. apply _. Defined.

Definition em_float (pf : string → option float64) (e : emission) : float64 :=
  fst (convert2float64 pf (em_value e)).

Definition typed (pf : string → option float64) (Σ : schema) (e : emission) : Prop :=
  ∃ ls, (em_name e, mkSig (em_kind e) ls) ∈ Σ ∧ map Name (em_tags e) ≡ₚ ls ∧
    Forall (λ t, ValidString (Value t) = true) (em_tags e) ∧
    (em_kind e = Counter → SFltb (em_float pf e) float0 = false).

Lemma schema_inj gl Σ n1 n2 s1 s2 :
  schema_ok gl Σ → (n1, s1) ∈ Σ → (n2, s2) ∈ Σ → formatName n1 = formatName n2 → n1 = n2 ∧ s1 = s2.
Proof.
  intros (_ & Hnd & _) [i Hi]%list_elem_of_lookup [j Hj]%list_elem_of_lookup E.
  assert (i = j) as ->.
  { eapply NoDup_lookup; [exact Hnd | |]; rewrite list_lookup_fmap; [by rewrite Hi | rewrite Hj]; simpl; by rewrite E. }
  rewrite Hi in Hj. by simplify_eq.
Qed.

Lemma desc_valid_perm κ n l l' : l ≡ₚ l' → desc_valid (mkDesc κ n l) → desc_valid (mkDesc κ n l').
Proof. intros Hp (Hn & Hl & Hd). unfold desc_valid; simpl in *. split; [done|]. by rewrite <-Hp. Qed.

(** * Labels *)

Lemma foldl_labels_dom (ls : list T) (m : labels) :
  dom (foldl (λ ret l, <[Name l := Value l]> ret) m ls) = dom m ∪ list_to_set (map Name ls).
Proof.
  revert m. induction ls as [|l ls IH]; intros m; simpl; [set_solver|].
  rewrite IH, dom_insert_L. set_solver.
Qed.

Lemma labelsToMap_dom gl ls : dom (labelsToMap gl ls) = list_to_set (map Name gl ++ map Name ls).
Proof. unfold labelsToMap. rewrite !foldl_labels_dom, dom_empty_L, list_to_set_app_L. set_solver. Qed.

Lemma foldl_labels_forall (P : string → Prop) (ls : list T) (m : labels) :
  map_Forall (λ _, P) m → Forall (λ t, P (Value t)) ls →
  map_Forall (λ _, P) (foldl (λ ret l, <[Name l := Value l]> ret) m ls).
Proof.
  revert m. induction ls as [|l ls IH]; intros m Hm Hl; simpl; [done|].
  apply Forall_cons in Hl as [? ?]. apply IH; [|done]. by apply map_Forall_insert_2.
Qed.

(** A counter that counts. *)
Lemma float64_of_Z_nonneg z : 0 <= z → SFltb (float64_of_Z z) float0 = false.
Proof.
  intros Hz. unfold float64_of_Z, binary_normalize. destruct z as [|p|p]; [done| |lia].
  unfold binary_round. destruct (shl_align _ _ _) as [mz ez]. unfold binary_round_aux.
  destruct (shr_fexp _ _ (Z.pos mz) _ _) as [m1 e1]. destruct (shr_fexp _ _ _ _ _) as [m2 e2].
  destruct (shr_m m2); [done| |done]. by case_match.
Qed.

(** * The invariant *)

Section spec.
Context {R Vec : Type} `{PromSpec R Vec}.
Context (gl : list T) (Σ : schema) (Hschema : schema_ok gl Σ).
Implicit Types w : prometheusWrapper R Vec.
Local Abbreviation reg w := (registerer w).

Record winv w : Prop := {
  wi_prom : prom_inv (reg w);
  wi_labels : globalLabels w = gl;
  wi_names : globalLabelNames w = map Name gl;
  wi_vec κ n v : vecMap κ w !! n = Some v →
    ∃ ls names, (n, mkSig κ ls) ∈ Σ ∧ names ≡ₚ map Name gl ++ ls ∧
      vecs (reg w) v = Some (mkDesc κ (formatName n) names) ∧
      collectors (reg w) !! formatName n = Some v;
  wi_free n κ ls : (n, mkSig κ ls) ∈ Σ → vecMap κ w !! n = None →
    collectors (reg w) !! formatName n = None;
}.

(** Vectors are never replaced. *)
Definition wle w w' : Prop := ∀ κ n v, vecMap κ w !! n = Some v → vecMap κ w' !! n = Some v.

#[global] Instance wle_preorder : PreOrder wle.
Proof. split; [by intros w κ n v | intros w1 w2 w3 H1 H2 κ n v Hv; auto]. Qed.

(** What is exposed under a name and labels. *)
Definition gathered (r : R) (fq : string) (l : labels) : list float64 :=
  match collectors r !! fq with Some v => series r v l | None => [] end.

Lemma winv_new r :
  prom_inv r → (∀ n s, (n, s) ∈ Σ → collectors r !! formatName n = None) → winv (NewMetrics gl r).
Proof. intros Hr Hfree. split; simpl; try done; [by intros [] | eauto]. Qed.

Lemma vecMap_set κ κ' n n' v w :
  vecMap κ' (set_vec κ n v w) !! n' =
  if decide (κ = κ' ∧ n = n') then Some v else vecMap κ' w !! n'.
Proof.
  destruct w as [gn gl' c g h r]. destruct κ, κ'; simpl; rewrite ?lookup_insert;
    repeat case_decide; naive_solver.
Qed.

Lemma vecMap_registerer κ r w : vecMap κ (set_registerer r w) = vecMap κ w.
Proof. by destruct w, κ. Qed.

Lemma registerer_set r w : reg (set_registerer r w) = r.
Proof. by destruct w. Qed.

Lemma wp_prom {A} (m : GoM R A) (Q : A → prometheusWrapper R Vec → Prop) w :
  wp m (λ a r, Q a (set_registerer r w)) (reg w) → wp (prom m) Q w.
Proof. intros Hm. unfold prom. by apply wp_zoom. Qed.

(** The section under the write lock. *)
Lemma create_vec_spec κ n tags ls w :
  winv w → (n, mkSig κ ls) ∈ Σ → map Name tags ≡ₚ ls →
  wp (create_vec κ n tags)
     (λ v w', winv w' ∧ wle w w' ∧ vecMap κ w' !! n = Some v ∧
        ∀ fq l, gathered (reg w') fq l = gathered (reg w) fq l) w.
Proof using Hschema.
  intros Hi Hn Ht. unfold create_vec. apply wp_bind, wp_gets.
  destruct (vecMap κ w !! n) as [v|] eqn:Ev; [by apply wp_ret|].
  apply wp_bind, wp_gets, wp_bind, wp_prom. rewrite (wi_names _ Hi).
  pose proof (wi_free _ Hi n κ ls Hn Ev) as Hfree.
  wp_use (prom_new_spec (mkDesc κ (formatName n) (extractLabelNames (map Name gl) tags)) (reg w) (wi_prom _ Hi)).
  intros v r (Hr & Hnew & Hv & Hc & Hs).
  apply wp_bind, wp_prom. rewrite registerer_set.
  assert (extractLabelNames (map Name gl) tags ≡ₚ map Name gl ++ ls) as Hnames.
  { unfold extractLabelNames. by rewrite Ht. }
  wp_use (prom_register_spec v (mkDesc κ (formatName n) (extractLabelNames (map Name gl) tags)) r Hr).
  { by rewrite Hv, decide_True. }
  { apply (desc_valid_perm _ _ (map Name gl ++ ls)); [done|]. destruct Hschema as (_ & _ & Hd).
    rewrite Forall_forall in Hd. exact (Hd _ Hn). }
  { simpl. by rewrite Hc. }
  intros _ r' (Hr' & Hv' & Hs' & Hc'). apply wp_bind, wp_modify, wp_ret. simpl in *. rewrite Hc in Hc'.
  assert (∀ κ' n', vecMap κ' (set_vec κ n v (set_registerer r' (set_registerer r w))) !! n' =
    if decide (κ = κ' ∧ n = n') then Some v else vecMap κ' w !! n') as Hmap.
  { intros. by rewrite vecMap_set, !vecMap_registerer. }
  assert (reg (set_vec κ n v (set_registerer r' (set_registerer r w))) = r') as Hreg.
  { by destruct w, κ. }
  split; [|split; [|split]].
  - split; rewrite ?Hreg; [done | by destruct w, κ; apply (wi_labels _ Hi) | by destruct w, κ; apply (wi_names _ Hi) | |].
    + intros κ' n' u. rewrite Hmap, Hv', Hv, Hc'. case_decide as E.
      * destruct E as [<- <-]. intros [= <-]. exists ls, (extractLabelNames (map Name gl) tags).
        by rewrite decide_True, lookup_insert_eq by done.
      * intros Hu. destruct (wi_vec _ Hi _ _ _ Hu) as (ls' & names & Hin & Hp & Hd & Hcu).
        exists ls', names. split; [done|]. split; [done|]. rewrite decide_False by congruence.
        split; [done|]. rewrite lookup_insert_ne; [done|]. intros E'. congruence.
    + intros n' κ' ls' Hin. rewrite Hmap, Hc'. case_decide as E; [done|]. intros Hnone.
      rewrite lookup_insert_ne; [by eapply wi_free|]. intros E'.
      destruct (schema_inj _ _ _ _ _ _ Hschema Hn Hin E') as [-> [= -> _]]. naive_solver.
  - intros κ' n' u Hu. rewrite Hmap. case_decide as E; [|done]. destruct E as [-> ->]. congruence.
  - by rewrite Hmap, decide_True.
  - intros fq l. rewrite Hreg. unfold gathered. rewrite Hc', Hs', lookup_insert. case_decide as E.
    + subst. by rewrite Hfree, Hs, decide_True.
    + destruct (collectors (reg w) !! fq) as [u|] eqn:Eu; [|done]. rewrite Hs, decide_False; [done|].
      intros ->. apply collectors_named in Eu; [|by apply wi_prom]. by rewrite Hnew in Eu.
Qed.

Context (pf : string → option float64).

(** The updates the emissions [es] make to the series. *)
Definition updates (es : list emission) (fq : string) (l : labels) : list float64 :=
  flat_map (λ e, if decide (fq = formatName (em_name e) ∧ l = labelsToMap gl (em_tags e))
                 then [em_float pf e] else []) es.

Lemma updates_app es es' fq l : updates (es ++ es') fq l = updates es fq l ++ updates es' fq l.
Proof. unfold updates. by rewrite flat_map_app. Qed.

(** The update of a series. *)
Lemma with_labels_spec e v w :
  winv w → typed pf Σ e → vecMap (em_kind e) w !! em_name e = Some v →
  wp (with_labels v (em_tags e) (em_float pf e))
     (λ _ w', winv w' ∧ wle w w' ∧
        ∀ fq l, gathered (reg w') fq l = gathered (reg w) fq l ++ updates [e] fq l) w.
Proof using Hschema.
  intros Hi (ls & Hin & Hp & Hval & Hcnt) Hv. unfold with_labels. apply wp_bind, wp_gets, wp_prom.
  rewrite (wi_labels _ Hi).
  destruct (wi_vec _ Hi _ _ _ Hv) as (ls' & names & Hin' & Hnames & Hd & Hc).
  destruct (schema_inj _ _ _ _ _ _ Hschema Hin Hin' eq_refl) as [_ [= <-]].
  assert (update_valid (mkDesc (em_kind e) (formatName (em_name e)) names)
    (labelsToMap gl (em_tags e)) (em_float pf e)) as Hu.
  { split; [|split]; simpl; [|by apply foldl_labels_forall; [apply foldl_labels_forall, Hschema; apply map_Forall_empty|] | done].
    rewrite labelsToMap_dom. by rewrite Hnames, Hp. }
  wp_use (prom_with_spec v _ _ _ _ (wi_prom _ Hi) Hd Hu). intros _ r (Hr & Hvs & Hcs & Hs). split; [|split].
  - split; rewrite ?registerer_set; [done | by destruct w; apply Hi | by destruct w; apply Hi | |].
    + intros κ n u. rewrite vecMap_registerer, Hvs, Hcs. apply Hi.
    + intros n κ l. rewrite vecMap_registerer, Hcs. apply Hi.
  - intros κ n u. by rewrite vecMap_registerer.
  - intros fq l. rewrite registerer_set. unfold gathered, updates. simpl. rewrite app_nil_r, Hcs.
    destruct (collectors (reg w) !! fq) as [u|] eqn:Eu.
    + rewrite Hs. f_equal. apply decide_ext. split; [|naive_solver].
      intros [-> ->]. split; [|done]. apply collectors_named in Eu; [|by apply wi_prom]. rewrite Hd in Eu. by simplify_eq/=.
    + rewrite decide_False; [done|]. intros [-> _]. congruence.
Qed.

(** * Programs of emissions *)

Fixpoint psafe {A} (n : nat) (p : prog (prometheusWrapper R Vec) A) (es : list emission) w : Prop :=
  match p, n with
  | Done _, _ => es = []
  | Do _ _, O => False
  | Do m k, S n' => ∀ w1, wle w w1 → winv w1 →
      wp m (λ x w2, winv w2 ∧ wle w1 w2 ∧ ∃ new rest, es = new ++ rest ∧
        (∀ fq l, gathered (reg w2) fq l = gathered (reg w1) fq l ++ updates new fq l) ∧
        psafe n' (k x) rest w2) w1
  end.

Lemma psafe_mono {A} n (p : prog _ A) es w w' : wle w w' → psafe n p es w → psafe n p es w'.
Proof.
  intros Hle. destruct p as [a|B m k], n as [|n]; simpl; try done.
  intros Hs w1 Hw1. apply Hs. by transitivity w'.
Qed.

(** Any number of steps that is enough may be larger. *)
Lemma psafe_more {A} n n' (p : prog _ A) es w : (n <= n')%nat → psafe n p es w → psafe n' p es w.
Proof.
  revert n n' es w. induction p as [a|B m k IH]; intros [|n] [|n'] es w Hn; simpl; try done; [lia|].
  intros Hs w1 Hw1 Hi. eapply wp_mono; [by apply Hs|]. intros x w2 (Hi2 & Hle & new & rest & -> & Hg & Hk).
  split; [done|]. split; [done|]. exists new, rest. split; [done|]. split; [done|].
  eapply IH; [|done]. lia.
Qed.

(** A silent step. *)
Lemma psafe_silent {A B} n (m : GoM _ B) (k : B → prog _ A) es w :
  (∀ w1, wle w w1 → winv w1 → wp m (λ x w2, winv w2 ∧ wle w1 w2 ∧
     (∀ fq l, gathered (reg w2) fq l = gathered (reg w1) fq l) ∧ psafe n (k x) es w2) w1) →
  psafe (S n) (Do m k) es w.
Proof.
  intros Hm w1 Hw1 Hi. eapply wp_mono; [by apply Hm|]. intros x w2 (Hi2 & Hle & Hg & Hk).
  split; [done|]. split; [done|]. exists [], es. split; [done|]. split; [|done].
  intros fq l. by rewrite Hg, app_nil_r.
Qed.

Lemma psafe_update {A} n e v (k : () → prog _ A) es w :
  typed pf Σ e → vecMap (em_kind e) w !! em_name e = Some v →
  (∀ w', psafe n (k ()) es w') →
  psafe (S n) (Do (with_labels v (em_tags e) (em_float pf e)) k) (e :: es) w.
Proof using Hschema.
  intros Ht Hv Hk w1 Hw1 Hi. eapply wp_mono; [by apply with_labels_spec; [|done|apply Hw1]|].
  intros [] w2 (Hi2 & Hle & Hg). split; [done|]. split; [done|]. exists [e], es. by split_and!.
Qed.

Lemma Emit_eq e :
  Emit pf e = (vec ← mustGetVec (em_kind e) (em_name e) (em_tags e);
               atom (with_labels vec (em_tags e) (em_float pf e))).
Proof. unfold Emit, EmitCounter, EmitGauge, EmitHistogram, em_float. by destruct (em_kind e). Qed.

Lemma psafe_emit {A} n e (k : () → prog _ A) es w :
  typed pf Σ e → (∀ w', psafe n (k ()) es w') →
  psafe (3 + n) (x ← Emit pf e; k x) (e :: es) w.
Proof using Hschema.
  intros Ht Hk. rewrite Emit_eq. apply psafe_silent. intros w1 Hw1 Hi. apply wp_gets. split; [done|]. split; [done|]. split; [done|].
  destruct (vecMap (em_kind e) w1 !! em_name e) as [v|] eqn:Ev.
  - apply (psafe_more (1 + n)); [lia|]. by apply psafe_update.
  - apply psafe_silent. intros w2 Hw2 Hi2. destruct Ht as (ls & Hin & Hp & ?).
    eapply wp_mono; [by eapply create_vec_spec|]. intros v w3 (Hi3 & Hle & Hv & Hg).
    split; [done|]. split; [done|]. split; [done|]. apply psafe_update; [by exists ls | done..].
Qed.

Lemma psafe_emit_all es w : Forall (typed pf Σ) es → psafe (3 * length es) (emit_all pf es) es w.
Proof using Hschema.
  intros Hes. revert w. induction Hes as [|e es He Hes IH]; intros w; [done|]. simpl emit_all.
  replace (3 * length (e :: es))%nat with (3 + 3 * length es)%nat by (simpl; lia).
  by apply psafe_emit.
Qed.

(** A first emission creates the vector, a later one finds it. *)
Lemma mustGetVec_run κ n tags ls w :
  winv w → (n, mkSig κ ls) ∈ Σ → map Name tags ≡ₚ ls →
  wp (run_prog (mustGetVec κ n tags)) (λ v w', winv w' ∧ vecMap κ w' !! n = Some v) w.
Proof using Hschema.
  intros Hi Hn Ht. unfold wp, mustGetVec. rewrite (run_step _ _ w w (vecMap κ w !! n)) by done.
  destruct (vecMap κ w !! n) as [v|] eqn:Ev; [done|]. rewrite run_prog_atom.
  eapply wp_mono; [by eapply create_vec_spec|]. by intros v w' (? & ? & ? & ?).
Qed.

(** An emission of a declared metric with a value that is not UTF-8 panics. *)
Lemma emit_bad_value e l x ls w :
  winv w → (em_name e, mkSig (em_kind e) ls) ∈ Σ → map Name (em_tags e) ≡ₚ ls →
  labelsToMap gl (em_tags e) !! l = Some x → ValidString x = false →
  run_prog (emit_all pf [e]) w = None.
Proof using Hschema.
  intros Hi Hn Ht Hl Hx. simpl. rewrite run_prog_bind, Emit_eq. unfold mbind at 1, gom_bind at 1.
  rewrite run_prog_bind. unfold mbind at 1, gom_bind at 1.
  destruct (wp_run _ _ _ (mustGetVec_run _ _ (em_tags e) _ w Hi Hn Ht)) as (w' & v & -> & Hi' & Hv).
  rewrite run_prog_atom. unfold with_labels, mbind, gom_bind, gets. rewrite (wi_labels _ Hi').
  destruct (wi_vec _ Hi' _ _ _ Hv) as (ls' & names & _ & _ & Hd & _).
  unfold prom, zoom. rewrite (prom_with_panics _ _ _ _ _ Hd); [done|].
  intros (_ & Hval & _). specialize (Hval _ _ Hl). simpl in Hval. congruence.
Qed.
End spec.

(** * Interleaved emissions *)

Section pool.
Context {R Vec : Type} `{PromSpec R Vec} (pf : string → option float64).
Context (gl : list T) (Σ : schema) (Hschema : schema_ok gl Σ).
Local Abbreviation W := (prometheusWrapper R Vec).

Definition emissions_left (todo : list (nat * list emission)) : list emission := concat (map snd todo).

Definition steps_left (todo : list (nat * list emission)) : nat := sum_list_with fst todo.

(** [todo]: what each goroutine still has to emit, and in how many steps. *)
Record mpool (c : W * list (prog W ())) (base : string → labels → list float64)
    (all : list emission) (todo : list (nat * list emission)) : Prop := {
  mp_inv : winv gl Σ c.1;
  mp_safe : Forall2 (λ p x, psafe gl Σ pf x.1 p x.2 c.1) c.2 todo;
  mp_series fq l :
    gathered (registerer c.1) fq l ++ updates gl pf (emissions_left todo) fq l ≡ₚ
    base fq l ++ updates gl pf all fq l;
}.

Lemma mpool_no_panic c base all todo : mpool c base all todo → ¬ panics c.
Proof.
  intros [Hi Hs _] (i & B & m & k & Hp & Hm). destruct (Forall2_lookup_l _ _ _ _ _ Hs Hp) as ([n es] & _ & Hn).
  destruct n as [|n]; simpl in Hn; [done|]. specialize (Hn c.1 (reflexivity _) Hi). unfold wp in Hn. by rewrite Hm in Hn.
Qed.

Lemma mpool_step c c' base all todo :
  mpool c base all todo → istep c c' →
  ∃ todo', mpool c' base all todo' ∧ (steps_left todo' < steps_left todo)%nat.
Proof.
  intros [Hi Hs Hg] Hst. inversion Hst as [s s' ts i B m k x Hp Hm]; subst; simpl in *.
  destruct (Forall2_lookup_l _ _ _ _ _ Hs Hp) as ([n es] & Htodo & Hn).
  destruct n as [|n]; simpl in Hn; [done|]. specialize (Hn s (reflexivity _) Hi).
  apply (run_wp _ _ _ _ _ Hm) in Hn as (Hi' & Hle & new & rest & -> & Hgn & Hk).
  pose proof (eq_sym (take_drop_middle todo i _ Htodo)) as E1.
  pose proof (insert_take_drop todo i (n, rest) (lookup_lt_Some _ _ _ Htodo)) as E2.
  set (l1 := take i todo) in *. set (l2 := drop (S i) todo) in *. clearbody l1 l2.
  exists (<[i := (n, rest)]> todo). split; [split; simpl|].
  - done.
  - apply Forall2_insert; [|done]. eapply Forall2_impl; [exact Hs|]. intros p y. by apply psafe_mono.
  - intros fq l. rewrite <-Hg, Hgn. rewrite <-app_assoc. f_equiv.
    rewrite E2, E1. unfold emissions_left. rewrite !map_app, !concat_app. simpl. rewrite !updates_app.
    solve_Permutation.
  - unfold steps_left. rewrite E2, E1, !sum_list_with_app. simpl. lia.
Qed.

Lemma mpool_run j c c' base all todo :
  mpool c base all todo → nsteps istep j c c' →
  ∃ todo', mpool c' base all todo' ∧ (j + steps_left todo' <= steps_left todo)%nat.
Proof.
  intros Hp Hr. revert todo Hp. induction Hr as [c|j c1 c2 c3 Hst Hr IH]; intros todo Hp; [eauto|].
  destruct (mpool_step _ _ _ _ _ Hp Hst) as (todo1 & Hp1 & Hlt).
  destruct (IH _ Hp1) as (todo2 & Hp2 & Hle). exists todo2. split; [done | lia].
Qed.

Lemma mpool_init ess (r : R) :
  prom_inv r → (∀ n s, (n, s) ∈ Σ → collectors r !! formatName n = None) →
  Forall (Forall (typed pf Σ)) ess →
  mpool (NewMetrics gl r, map (emit_all pf) ess) (gathered r) (concat ess)
        (map (λ es, ((3 * length es)%nat, es)) ess).
Proof using Hschema.
  intros Hr Hfree Hes. split; simpl.
  - by apply winv_new.
  - apply Forall2_fmap_2, Forall2_same_length_lookup_2; [done|]. intros i es es' E1 E2. simplify_eq.
    apply psafe_emit_all; [done|]. rewrite Forall_lookup in Hes. by eapply Hes.
  - intros fq l. unfold emissions_left. by rewrite map_map, map_id.
Qed.

Lemma steps_left_init ess : steps_left (map (λ es, ((3 * length es)%nat, es)) ess) = (3 * length (concat ess))%nat.
Proof.
  unfold steps_left. induction ess as [|es ess IH]; [done|]. cbn [map sum_list_with concat fst].
  rewrite IH, length_app. lia.
Qed.

Lemma mpool_finished c base all todo :
  mpool c base all todo → finished c → emissions_left todo = [].
Proof.
  intros [_ Hs _] Hf. unfold finished in Hf. induction Hs as [|p [n es] ps todo Hp Hs IH]; [done|].
  apply Forall_cons in Hf as [[a ->] Hf]. unfold emissions_left in *. simpl in *. rewrite (IH Hf).
  by destruct n; rewrite Hp.
Qed.
End pool.

(** * A registry *)

(** Vectors are numbered; a state has their descriptors, the registered names
    and the updates. *)
Record registry := mkRegistry {
  rg_vecs : gmap nat desc;
  rg_collectors : gmap string nat;
  rg_series : gmap (nat * labels) (list float64);
}.

Definition rg_new (d : desc) : GoM registry nat := λ r,
  let v := fresh (dom (rg_vecs r)) in
  Some (mkRegistry (<[v := d]> (rg_vecs r)) (rg_collectors r)
          (filter (λ x, x.1.1 ≠ v) (rg_series r)), v).

Definition rg_register (v : nat) : GoM registry () := λ r,
  match rg_vecs r !! v with
  | Some d => if decide (desc_valid d ∧ rg_collectors r !! d_fqName d = None)
              then Some (mkRegistry (rg_vecs r) (<[d_fqName d := v]> (rg_collectors r)) (rg_series r), ())
              else None
  | None => None
  end.

Definition rg_with (v : nat) (l : labels) (x : float64) : GoM registry () := λ r,
  match rg_vecs r !! v with
  | Some d => if decide (update_valid d l x)
              then Some (mkRegistry (rg_vecs r) (rg_collectors r)
                           (<[(v, l) := default [] (rg_series r !! (v, l)) ++ [x]]> (rg_series r)), ())
              else None
  | None => None
  end.

#[global] Instance registry_prometheus : Prometheus registry nat :=
  {| prom_new := rg_new; prom_register := rg_register; prom_with := rg_with |}.

Definition emptyRegistry : registry := mkRegistry ∅ ∅ ∅.

#[global] Instance registry_spec : PromSpec registry nat.
Proof.
  refine {| prom_inv := λ r, ∀ n v, rg_collectors r !! n = Some v → d_fqName <$> rg_vecs r !! v = Some n;
            vecs := λ r v, rg_vecs r !! v; collectors := rg_collectors;
            series := λ r v l, default [] (rg_series r !! (v, l)) |}.
  - by intros r n v Hr Hv; apply Hr.
  - intros d r Hr. unfold wp, prom_new; simpl. set (v := fresh _).
    assert (rg_vecs r !! v = None) as Hv by (apply not_elem_of_dom, is_fresh).
    split; [|split; [done|split; [|split; [done|]]]].
    + intros n u Hu. rewrite lookup_insert_ne; [by apply Hr|]. intros <-. specialize (Hr _ _ Hu). by rewrite Hv in Hr.
    + intros u. rewrite lookup_insert. repeat case_decide; naive_solver.
    + intros u l. destruct (decide (u = v)) as [->|Hne].
      * rewrite map_lookup_filter_None_2; [done|]. right. intros x _ Hx. by apply Hx.
      * rewrite map_lookup_filter. destruct (rg_series r !! (u, l)) as [x|]; [|done]. simpl. by rewrite option_guard_True.
  - intros v d r Hr Hv Hd Hc. unfold wp, prom_register; simpl. unfold rg_register. rewrite Hv, decide_True by done.
    split; [|done]. intros n u. simpl. rewrite lookup_insert. case_decide as E; [|apply Hr].
    intros [= <-]. by rewrite Hv, <-E.
  - intros v d l x r Hr Hv Hu. unfold wp, prom_with; simpl. unfold rg_with. rewrite Hv, decide_True by done.
    split; [done|]. split; [done|]. split; [done|]. intros u m. simpl.
    rewrite lookup_insert. repeat case_decide; simplify_eq; try naive_solver; by rewrite app_nil_r.
  - intros v d r Hv [u Hu]. unfold prom_register; simpl. unfold rg_register. rewrite Hv, decide_False; [done|].
    rewrite Hu. naive_solver.
  - intros v d l x r Hv Hu. unfold prom_with; simpl. unfold rg_with. by rewrite Hv, decide_False.
Defined.
