(* ===== verification/Emitters.v ===== *)
(** What the program emits: the tags and calls of the components that emit
    metrics with labels, and the schema all emissions follow.

    Components emit through the interface [metrics.Metrics]; here the calls are
    data, [emission]s, to be made by [emit_all].  Durations are arguments. *)

From S2P Require Import Prelude GoMonad Proto MetricsStore Metrics MetricsSpec.

#[local] Open Scope string_scope.
#[local] Open Scope Z_scope.

(** [strconv.FormatBool] *)
Definition FormatBool (b : bool) : string := if b then "true" else "false".

(** * pkg/storage/metrics/store.go *)

Definition state_T (t : state_tag) : T :=
  match t with
  | successTag => Tag "state" "success"
  | unexpectedErrTag => Tag "state" "error"
  | notFoundTag => Tag "state" "key_not_found"
  | casFailedTag => Tag "state" "cas_failed"
  end.

Definition op_T (t : op_tag) : T :=
  match t with
  | getTag => Tag "op" "get"
  | delTag => Tag "op" "del"
  | cmpAndDelTag => Tag "op" "cmp_and_del"
  | batchTag => Tag "op" "write_batch"
  end.

(** [du]: the duration in seconds; [ms]: in milliseconds; [avg]: per entry. *)
Definition store_emissions (du avg : float64) (ms : Z) (m : metric) : list emission :=
  match m with
  | EmitOp op state => [mkEmission Histogram "storage.op" (VFloat64 du) [state_T state; op_T op]]
  | EmitIterStart state => [mkEmission Counter "storage.iter.start" (VInt 1) [state_T state]]
  | EmitIterLimited limited =>
      [mkEmission Counter "storage.iter.start.success" (VInt 1) [Tag "limited" (FormatBool limited)]]
  | EmitFetchError limited =>
      [mkEmission Counter "storage.iter.fetch.error" (VInt 1) [Tag "limited" (FormatBool limited)]]
  | EmitFetchSuccess count limited =>
      let tags := [Tag "limited" (FormatBool limited)] in
      [mkEmission Counter "storage.iter.fetch.success" (VInt count) tags;
       mkEmission Histogram "storage.iter.duration.avg" (VFloat64 avg) tags;
       mkEmission Histogram "storage.iter.duration.sum" (VFloat64 du) tags]
  | EmitBatch count state =>
      [mkEmission Histogram "storage.batch.count" (VInt64 count) [op_T batchTag; state_T state];
       mkEmission Histogram "storage.batch.duration" (VInt64 ms) [op_T batchTag; state_T state]]
  end.

(** * pkg/server/brain/server.go *)

Definition writeMetric : string := "brain.server.write".
Definition readMetric : string := "brain.server.read".
Definition watchMetric : string := "brain.server.watch".

Definition emitMethodMetric (metricName method : string) (failed : bool) (latency : Z) : list emission :=
  let methodTag := Tag "method" method in
  let successTag := Tag "err" (FormatBool failed) in
  [mkEmission Counter metricName (VInt 1) [methodTag; successTag];
   mkEmission Histogram (metricName ++ ".latency") (VInt64 latency) [methodTag; successTag]].

Definition emitResponseDetailMetric (metricName method : string) (success : bool) (responseSize : Z) :
    list emission :=
  let methodTag := Tag "method" method in
  ((if negb success then [mkEmission Counter (metricName ++ ".fail") (VInt 1) [methodTag]] else []) ++
   [mkEmission Histogram (metricName ++ ".responsesize") (VInt responseSize) [methodTag]])%list.

(** * pkg/server/etcd/kv.go, watch.go *)

Definition getSuccessMetricTagByErr (failed : bool) : T :=
  if failed then Tag "success" "false" else Tag "success" "true".

(** The end of [Range]; [size]: of the response, when there is one. *)
Definition range_emissions (method : string) (failed : bool) (latency : float64) (size : option Z) :
    list emission :=
  let methodTag := Tag "method" method in
  let successTag := getSuccessMetricTagByErr failed in
  ([mkEmission Counter "read" (VInt 1) [methodTag; successTag];
    mkEmission Histogram "read.latency" (VFloat64 latency) [methodTag; successTag]] ++
   match size with
   | Some size => [mkEmission Histogram "read.responsesize" (VInt size) [methodTag; successTag]]
   | None => []
   end)%list.

(** The end of [Txn]; [response]: its size and whether it succeeded. *)
Definition txn_emissions (method : string) (failed : bool) (latency : float64) (response : option (Z * bool)) :
    list emission :=
  let methodTag := Tag "method" method in
  let successTag := getSuccessMetricTagByErr failed in
  ([mkEmission Counter "write" (VInt 1) [methodTag; successTag];
    mkEmission Histogram "write.latency" (VFloat64 latency) [methodTag; successTag]] ++
   match response with
   | Some (size, succeeded) =>
       mkEmission Histogram "write.responsesize" (VInt size) [methodTag; successTag] ::
       (if negb succeeded then [mkEmission Counter "write.fail" (VInt 1) [methodTag]] else [])
   | None => []
   end)%list.

Definition cancel_emissions (compact : bool) : list emission :=
  [mkEmission Counter "watch.cancel" (VInt 1) [Tag "compact" (FormatBool compact)]].

(** * pkg/backend/retry/retry.go *)

Inductive retry_state := retrySuccess | retryFailedGet | retryFailedPut | retryUnknownPut | retryUnnecessary.

Definition retry_state_T (s : retry_state) : T :=
  Tag "state" match s with
              | retrySuccess => "success" | retryFailedGet => "failed_get" | retryFailedPut => "failed_put"
              | retryUnknownPut => "unknown_put" | retryUnnecessary => "unnecessary"
              end.

Definition getRetryMethod (verb : EventType) : T :=
  match verb with
  | CREATE => Tag "method" "create"
  | DELETE => Tag "method" "delete"
  | _ => Tag "method" "update"
  end.

(** The deferred emission of [retry]. *)
Definition retry_emissions (du : float64) (state : retry_state) (verb : EventType) : list emission :=
  [mkEmission Histogram "async_retry.retry" (VFloat64 du) [retry_state_T state; getRetryMethod verb]].

(** * pkg/server/service: revision.go, leader.go *)

(** How [getRevisionFromLeader] ends. *)
Inductive revision_outcome := RequestErr | StatusNotOK | ReadErr | Revision_ (rev : Z).

Definition revision_emissions (leaderAddress : string) (ms : Z) (o : revision_outcome) : list emission :=
  let tag := Tag "leader" leaderAddress in
  ([mkEmission Gauge "follower.getleader" (VInt 1) [tag];
    mkEmission Histogram "member.round_trip" (VInt64 ms) [tag]] ++
   match o with
   | RequestErr => [mkEmission Counter "follower.get.revision.err" (VInt 1) [tag]]
   | StatusNotOK => [mkEmission Counter "follower.get.revision.failed" (VInt 1) [tag]]
   | ReadErr => []
   | Revision_ rev => [mkEmission Gauge "follower.get.revision" (VUint64 rev) [tag]]
   end)%list.

Definition started_leading_emissions (leaderAddr : string) (version : Z) : list emission :=
  [mkEmission Counter "leader.election.success" (VInt 1) [];
   mkEmission Gauge "leader.election.initial.version" (VUint64 version) [Tag "addr" leaderAddr]].

Definition stopped_leading_emissions (leaderAddr : string) : list emission :=
  [mkEmission Counter "leader.election.lost" (VInt 1) [Tag "addr" leaderAddr]].

(** * pkg/backend/watch.go *)

(** The end of [processEvents]: the watched prefix is a label. *)
Definition processEvents_emissions (prefix : bytes) : list emission :=
  [mkEmission Counter "watcherhub.events_chan.closed" (VInt 1)
     [Tag "prefix" (String.string_of_list_byte prefix)]].

(** * The schema *)

(** Emissions without labels: a constant name, and for counters a number that is
    not negative. *)
Definition plain_counters : list string :=
  ["lease.grant"; "lease.revoke"; "lease.keepalive"; "lease.ttl"; "lease.leases"; "member.list";
   "write.follower"; "watcher.receive.cancel"; "watch.follower"; "watch.client.cancel";
   "watch.request.progress"; "watch.request.unsupported"; "watch.range"; "watch.watch"; "watch.close";
   "watch.backend.list_stream.err"; "watch.list_stream.eof"; "watch.list_stream.push";
   "watch.list_stream.push.err"; "invalid.watch.key"; "watch.backend.err"; "watch.watch_stream.push.err";
   "read.follower"; "read.follower.revision_err"; "leader.election.success";
   "brain.write.follower"; "brain.server.write.follower"; "brain.watch.follower"; "brain.watch.event";
   "leader.invalid"; "revision.generator.invalid"; "backend.set_compact_revision";
   "backend.set_compact_revision.err"; "backend.list.by.stream.failed"; "compact.skip"; "compact";
   "compact.err"; "watcher_hub.add_watcher"; "watcher_hub.delete_watcher"; "drop.slow.watcher";
   "watch.event.buffer.invalid"; "watch.event.buffer.full"].

Definition plain_gauges : list string :=
  ["watch.watch_id"; "watch.watch_stream.push"; "leader.compact"; "leader.revision"; "revision.generator";
   "watch.set.current.revision"; "async_retry.queue_size"; "watch.revision.lag"].

Definition plain_histograms : list string :=
  ["watch.list_stream.latency"; "watch.list_stream.push.size"; "watch.watch_stream.push.size";
   "leader.compact.latency"; "storage.scan_worker.latency"; "storage.scan_worker.size";
   "storage.scan_worker.count"].

Definition labelled : schema :=
  [("storage.op", mkSig Histogram ["state"; "op"]);
   ("storage.iter.start", mkSig Counter ["state"]);
   ("storage.iter.start.success", mkSig Counter ["limited"]);
   ("storage.iter.fetch.error", mkSig Counter ["limited"]);
   ("storage.iter.fetch.success", mkSig Counter ["limited"]);
   ("storage.iter.duration.avg", mkSig Histogram ["limited"]);
   ("storage.iter.duration.sum", mkSig Histogram ["limited"]);
   ("storage.batch.count", mkSig Histogram ["op"; "state"]);
   ("storage.batch.duration", mkSig Histogram ["op"; "state"]);
   ("read", mkSig Counter ["method"; "success"]);
   ("read.latency", mkSig Histogram ["method"; "success"]);
   ("read.responsesize", mkSig Histogram ["method"; "success"]);
   ("write", mkSig Counter ["method"; "success"]);
   ("write.latency", mkSig Histogram ["method"; "success"]);
   ("write.responsesize", mkSig Histogram ["method"; "success"]);
   ("write.fail", mkSig Counter ["method"]);
   ("watch.cancel", mkSig Counter ["compact"]);
   ("async_retry.retry", mkSig Histogram ["state"; "method"]);
   ("follower.getleader", mkSig Gauge ["leader"]);
   ("member.round_trip", mkSig Histogram ["leader"]);
   ("follower.get.revision.err", mkSig Counter ["leader"]);
   ("follower.get.revision.failed", mkSig Counter ["leader"]);
   ("follower.get.revision", mkSig Gauge ["leader"]);
   ("leader.election.initial.version", mkSig Gauge ["addr"]);
   ("leader.election.lost", mkSig Counter ["addr"]);
   ("watcherhub.events_chan.closed", mkSig Counter ["prefix"])].

Definition brain_schema : schema :=
  flat_map (λ m,
    [(m, mkSig Counter ["method"; "err"]);
     (m ++ ".latency", mkSig Histogram ["method"; "err"]);
     (m ++ ".fail", mkSig Counter ["method"]);
     (m ++ ".responsesize", mkSig Histogram ["method"])]) [writeMetric; readMetric; watchMetric].

Definition program_schema : schema :=
  (map (λ n, (n, mkSig Counter [])) plain_counters ++
   map (λ n, (n, mkSig Gauge [])) plain_gauges ++
   map (λ n, (n, mkSig Histogram [])) plain_histograms ++
   labelled ++ brain_schema)%list.

(** The emissions of the components.  Methods, addresses and watched prefixes, which
    are label values, are UTF-8 here; a prefix that is not makes its emission panic
    (see MetricsTheorems).  The metrics that are gathered from gRPC and
    republished (MetricsExport) have names of their own and are not among these. *)
Inductive program_emission : emission → Prop :=
  | pe_counter name z : name ∈ plain_counters → 0 <= z → program_emission (mkEmission Counter name (VInt z) [])
  | pe_gauge name v : name ∈ plain_gauges → program_emission (mkEmission Gauge name v [])
  | pe_histogram name v : name ∈ plain_histograms → program_emission (mkEmission Histogram name v [])
  | pe_store du avg ms m e :
      e ∈ store_emissions du avg ms m →
      (∀ count limited, m = EmitFetchSuccess count limited → 0 <= count) → program_emission e
  | pe_method name method failed ms e :
      name ∈ [writeMetric; readMetric; watchMetric] → ValidString method = true →
      e ∈ emitMethodMetric name method failed ms → program_emission e
  | pe_detail name method success size e :
      name ∈ [writeMetric; readMetric; watchMetric] → ValidString method = true →
      e ∈ emitResponseDetailMetric name method success size → program_emission e
  | pe_range method failed latency size e :
      ValidString method = true → e ∈ range_emissions method failed latency size → program_emission e
  | pe_txn method failed latency response e :
      ValidString method = true → e ∈ txn_emissions method failed latency response → program_emission e
  | pe_cancel compact e : e ∈ cancel_emissions compact → program_emission e
  | pe_retry du state verb e : e ∈ retry_emissions du state verb → program_emission e
  | pe_revision addr ms o e :
      ValidString addr = true → e ∈ revision_emissions addr ms o → program_emission e
  | pe_started addr version e :
      ValidString addr = true → e ∈ started_leading_emissions addr version → program_emission e
  | pe_stopped addr e : ValidString addr = true → e ∈ stopped_leading_emissions addr → program_emission e
  | pe_watch prefix e :
      utf8_valid prefix = true → e ∈ processEvents_emissions prefix → program_emission e.

(** The client's one global label is the cluster name (cmd/option/option.go). *)
Definition cluster_label (name : string) : list T := [Tag "cluster" name].

Lemma program_schema_ok name : ValidString name = true → schema_ok (cluster_label name) program_schema.
Proof.
  intros Hn. split; [by repeat constructor|]. split.
  - apply (bool_decide_unpack _). by vm_compute.
  - apply (bool_decide_unpack _). by vm_compute.
Qed.

Lemma str_of_list_byte p : str (String.string_of_list_byte p) = p.
Proof. apply String.list_byte_of_string_of_list_byte. Qed.

(** An emission of the tables: the name is there with the kind and the tags. *)
Lemma typed_entry pf κ name v tags :
  (name, mkSig κ (map Name tags)) ∈ program_schema →
  Forall (λ t, ValidString (Value t) = true) tags →
  (κ = Counter → ∃ z, v = VInt z ∧ 0 <= z) → typed pf program_schema (mkEmission κ name v tags).
Proof.
  intros Hin Hv Hc. exists (map Name tags). split_and!; try done. simpl. intros ->.
  destruct Hc as (z & -> & Hz); [done|]. by apply float64_of_Z_nonneg.
Qed.

(** The entry is found by computation. *)
Ltac entry :=
  apply typed_entry;
  [ apply (bool_decide_unpack _); by vm_compute
  | repeat constructor; done
  | intros E; (discriminate E || (eexists; split; [reflexivity|lia])) ].

Ltac entries :=
  repeat match goal with
  | H : _ ∈ _ :: _ |- _ => apply elem_of_cons in H as [->|H]
  | H : _ ∈ [] |- _ => by apply not_elem_of_nil in H
  end.

Lemma program_emission_typed pf e : program_emission e → typed pf program_schema e.
Proof.
  destruct 1 as [name z Hn Hz|name v Hn|name v Hn|du avg ms m e He Hc|name method failed ms e Hn Hm He
    |name method success size e Hn Hm He|method failed latency size e Hm He|method failed latency resp e Hm He
    |compact e He|du state verb e He|addr ms o e Ha He|addr version e Ha He|addr e Ha He|prefix e Hp He].
  - apply typed_entry; [|done|eauto]. unfold program_schema. apply elem_of_app. left.
    by apply (list_elem_of_fmap_2 (λ n, (n, mkSig Counter []))).
  - apply typed_entry; [|done..]. unfold program_schema. apply elem_of_app. right. apply elem_of_app. left.
    by apply (list_elem_of_fmap_2 (λ n, (n, mkSig Gauge []))).
  - apply typed_entry; [|done..]. unfold program_schema. do 2 (apply elem_of_app; right). apply elem_of_app. left.
    by apply (list_elem_of_fmap_2 (λ n, (n, mkSig Histogram []))).
  - destruct m as [op st|st|lim|c st|lim|c lim]; simpl in He; entries;
      try (destruct op); try (destruct st); try (destruct lim); try specialize (Hc _ _ eq_refl); entry.
  - unfold emitMethodMetric in He. entries; destruct failed; entry.
  - unfold emitResponseDetailMetric in He. destruct success; simpl in He; entries; entry.
  - unfold range_emissions in He. destruct size, failed; simpl in He; entries; entry.
  - unfold txn_emissions in He. destruct resp as [[? []]|], failed; simpl in He; entries; entry.
  - unfold cancel_emissions in He. entries. destruct compact; entry.
  - unfold retry_emissions in He. entries. destruct state, verb; entry.
  - unfold revision_emissions in He. destruct o; simpl in He; entries; entry.
  - unfold started_leading_emissions in He. entries; entry.
  - unfold stopped_leading_emissions in He. entries; entry.
  - unfold processEvents_emissions in He. entries. apply typed_entry; [apply (bool_decide_unpack _); by vm_compute | |].
    + constructor; [|done]. unfold ValidString; simpl. by rewrite str_of_list_byte.
    + intros _. eexists. by split.
Qed.
