(* ===== verification/MetricsExport.v ===== *)
(** Republishing gathered metrics:
    [emitMetrics] of pkg/metrics/prometheus/grpc_server_options.go.

    What [gather.Gather()] returns is an argument, in the shape of the protocol
    buffers of the Prometheus client model: optional fields are options.  The
    calls of [metricsCli] are the emissions, in order. *)

From Stdlib Require Import SpecFloat.
From S2P Require Import Prelude Strconv Metrics.

#[local] Open Scope string_scope.
#[local] Open Scope Z_scope.

(** * The client model *)

Inductive MetricType := COUNTER | GAUGE | SUMMARY | UNTYPED | HISTOGRAM.

Record LabelPair := mkLabelPair { lp_Name : option string; lp_Value : option string }.

Record Bucket := mkBucket { CumulativeCount : option Z; UpperBound : option float64 }.

Record Quantile := mkQuantile { q_Quantile : option float64; q_Value : option float64 }.

Record Summary := mkSummary {
  SampleCount : option Z; SampleSum : option float64; Quantiles : list Quantile }.

(** [Counter] and [Gauge] hold an optional value, [Histogram] its buckets. *)
Record Metric := mkMetric {
  Label : list LabelPair;
  m_Gauge : option (option float64);
  m_Counter : option (option float64);
  m_Summary : option Summary;
  m_Histogram : option (list Bucket);
}.

Record MetricFamily := mkFamily { mf_Name : option string; mf_Type : option MetricType; mf_Metric : list Metric }.

(** * [fmt.Sprintf("%f", x)] *)

(** [m * 2 ^ e], in millionths, rounded to nearest even. *)
Definition millionths (m : positive) (e : Z) : Z :=
  if 0 <=? e then Z.pos m * 2 ^ e * 1000000
  else
    let d := 2 ^ (- e) in
    let n := Z.pos m * 1000000 in
    let q := n / d in
    match 2 * (n mod d) ?= d with
    | Lt => q
    | Gt => q + 1
    | Eq => if Z.even q then q else q + 1
    end.

(** The six digits after the point. *)
Definition pad6 (n : Z) : bytes :=
  map (λ i, digit (n / 10 ^ i mod 10)) [5; 4; 3; 2; 1; 0].

(** The largest binary64 number has 309 digits. *)
Definition Sprintf_f (x : float64) : string :=
  match x with
  | S754_zero s => if s then "-0.000000" else "0.000000"
  | S754_infinity s => if s then "-Inf" else "+Inf"
  | S754_nan => "NaN"
  | S754_finite s m e =>
      let n := millionths m e in
      String.string_of_list_byte
        ((if s then str "-" else []) ++ digits 309 (n / 1000000) ++ str "." ++ pad6 (n mod 1000000))%list
  end.

(** * The loop *)

Definition leTag : string := "le".
Definition quantileTag : string := "quantile".

Definition nonempty (s : string) : bool := match s with EmptyString => false | _ => true end.

(** The labels that have a name and a value. *)
Definition label_tags (ls : list LabelPair) : list T :=
  omap (λ l, match lp_Name l, lp_Value l with
             | Some n, Some v => if nonempty n && nonempty v then Some (Tag n v) else None
             | _, _ => None
             end) ls.

(** [tags[i].Value = v] for the first tag of the name. *)
Fixpoint set_first (name v : string) (tags : list T) : list T :=
  match tags with
  | [] => []
  | t :: tags' => if String.eqb (Name t) name then mkT (Name t) v :: tags' else t :: set_first name v tags'
  end.

(** Buckets have cumulative counts; each is emitted less the one before. *)
Fixpoint emit_buckets (name : string) (tags : list T) (bucketSum : Z) (bs : list Bucket) : list emission :=
  match bs with
  | [] => []
  | b :: bs' =>
      match UpperBound b, CumulativeCount b with
      | Some u, Some c =>
          let tags' := set_first leTag (Sprintf_f u) tags in
          mkEmission Gauge (name ++ "_bucket") (VUint64 (uint64 (c - bucketSum))) tags' ::
          emit_buckets name tags' c bs'
      | _, _ => emit_buckets name tags bucketSum bs'
      end
  end.

Fixpoint emit_quantiles (name : string) (tags : list T) (qs : list Quantile) : list emission :=
  match qs with
  | [] => []
  | q :: qs' =>
      match q_Quantile q, q_Value q with
      | Some x, Some v =>
          let tags' := set_first quantileTag (Sprintf_f x) tags in
          mkEmission Gauge (name ++ "_summary") (VFloat64 v) tags' :: emit_quantiles name tags' qs'
      | _, _ => emit_quantiles name tags qs'
      end
  end.

Definition emit_metric (name : string) (ty : MetricType) (m : Metric) : list emission :=
  let tags := label_tags (Label m) in
  match ty, m_Counter m, m_Gauge m, m_Histogram m, m_Summary m with
  | COUNTER, Some (Some v), _, _, _ => [mkEmission Gauge name (VFloat64 v) tags]
  | GAUGE, _, Some (Some v), _, _ => [mkEmission Gauge name (VFloat64 v) tags]
  | HISTOGRAM, _, _, Some buckets, _ => emit_buckets name (tags ++ [Tag leTag ""])%list 0 buckets
  | SUMMARY, _, _, _, Some s =>
      (emit_quantiles name (tags ++ [Tag quantileTag ""]) (Quantiles s) ++
       [mkEmission Gauge (name ++ "_sum") (VFloat64 (default float0 (SampleSum s))) [];
        mkEmission Gauge (name ++ "_count") (VUint64 (default 0 (SampleCount s))) []])%list
  | _, _, _, _, _ => []
  end.

Definition emit_family (mf : MetricFamily) : list emission :=
  match mf_Type mf with
  | None => []
  | Some ty => flat_map (emit_metric (default "" (mf_Name mf)) ty) (mf_Metric mf)
  end.

(** [Gather] fails or returns the families. *)
Definition emitMetrics (gathered : () + list MetricFamily) : list emission * option () :=
  match gathered with
  | inl e => ([], Some e)
  | inr mfs => (flat_map emit_family mfs, None)
  end.

(** * Facts *)

(** The buckets that are emitted: bound and cumulative count. *)
Definition complete_buckets (bs : list Bucket) : list (float64 * Z) :=
  omap (λ b, match UpperBound b, CumulativeCount b with Some u, Some c => Some (u, c) | _, _ => None end) bs.

Definition em_count (e : emission) : Z := match em_value e with VUint64 z => z | _ => 0 end.

Definition tag_value (name : string) (tags : list T) : option string :=
  Value ∘ snd <$> list_find (λ t, Name t = name) tags.

(** Running sums of [uint64] values. *)
Fixpoint running (acc : Z) (l : list Z) : list Z :=
  match l with [] => [] | x :: l' => uint64 (acc + x) :: running (uint64 (acc + x)) l' end.

Lemma tag_value_set name v tags :
  is_Some (tag_value name tags) → tag_value name (set_first name v tags) = Some v.
Proof.
  unfold tag_value. induction tags as [|t tags IH]; simpl; [by intros [? ?]|].
  destruct (String.eqb_spec (Name t) name) as [E|E].
  - intros _. simpl. by rewrite decide_True.
  - rewrite decide_False by done. simpl. rewrite decide_False by done.
    destruct (list_find _ tags) as [[i t']|] eqn:Ef; simpl; [|by intros [? ?]].
    intros _. specialize (IH ltac:(done)).
    by destruct (list_find _ (set_first _ _ _)) as [[? ?]|].
Qed.

Lemma tag_value_snoc name v tags : is_Some (tag_value name (tags ++ [Tag name v])%list).
Proof.
  unfold tag_value. destruct (list_find _ _) as [[i t]|] eqn:E; [by eexists|].
  apply list_find_None, Forall_app in E as [_ E]. apply Forall_cons in E as [E _]. by destruct E.
Qed.

Lemma emit_buckets_spec name tags acc bs :
  is_uint64 acc → Forall (λ x, is_uint64 x.2) (complete_buckets bs) → is_Some (tag_value leTag tags) →
  running acc (map em_count (emit_buckets name tags acc bs)) = map snd (complete_buckets bs) ∧
  map (λ e, tag_value leTag (em_tags e)) (emit_buckets name tags acc bs) =
  map (λ x, Some (Sprintf_f x.1)) (complete_buckets bs).
Proof.
  revert tags acc. induction bs as [|[[c|] [u|]] bs IH]; intros tags acc Ha Hb Ht; simpl in *;
    [done| |by apply IH..].
  apply Forall_cons in Hb as [Hc Hb]; simpl in Hc.
  pose proof (tag_value_set leTag (Sprintf_f u) tags Ht) as Hset.
  destruct (IH (set_first leTag (Sprintf_f u) tags) c Hc Hb ltac:(by rewrite Hset)) as [IH1 IH2].
  assert (uint64 (acc + uint64 (c - acc)) = c) as E.
  { unfold is_uint64, uint64, two64 in *. mlia. }
  cbn [em_count em_value em_tags]. by rewrite E, IH1, IH2, Hset.
Qed.
