(* ===== verification/Tso.v ===== *)
(** The sequence number assigner: pkg/backend/tso.

    Two counters: the last revision dealt to a writer and the last revision
    whose outcome has been collected (the read revision). *)

From S2P Require Import Prelude GoMonad.

Record naiveTSO := mkTSO { committedRevision : Z; dealRevision : Z }.

Definition NewTSO : naiveTSO := mkTSO 0 0.

Definition GetRevision : GoM naiveTSO Z := gets committedRevision.

(** [atomic.AddUint64(&n.dealRevision, 1)]; the error is always nil. *)
Definition Deal : GoM naiveTSO Z := λ n,
  let rev := uint64 (dealRevision n + 1) in
  Some (mkTSO (committedRevision n) rev, rev).

Definition Commit (revision : Z) : GoM naiveTSO () := λ n,
  let preTSO := dealRevision n in
  Some (mkTSO revision (if preTSO <? revision then revision else preTSO), ()).

Definition Init (start : Z) : GoM naiveTSO () := λ _, Some (mkTSO start start, ()).

(** * The atomic accesses of [Commit], for interleavings with [Deal] *)

(** Program points of a running [Commit revision]. *)
Inductive commit_pc :=
  | StoreCommitted
  | LoadDeal
  | CompareSwap (preTSO : Z)
  | CommitDone.

Definition commit_step (revision : Z) (pc : commit_pc) (n : naiveTSO) : naiveTSO * commit_pc :=
  match pc with
  | StoreCommitted => (mkTSO revision (dealRevision n), LoadDeal)
  | LoadDeal =>
      (n, if dealRevision n <? revision then CompareSwap (dealRevision n) else CommitDone)
  | CompareSwap pre =>
      (mkTSO (committedRevision n)
         (if dealRevision n =? pre then revision else dealRevision n), CommitDone)
  | CommitDone => (n, CommitDone)
  end.

(** One [Commit revision] interleaved with any number of [Deal]s by other
    goroutines. *)
Inductive tso_step (revision : Z) : naiveTSO * commit_pc → naiveTSO * commit_pc → Prop :=
  | tso_commit n pc : tso_step revision (n, pc) (commit_step revision pc n)
  | tso_deal n pc :
      tso_step revision (n, pc)
        (mkTSO (committedRevision n) (uint64 (dealRevision n + 1)), pc).

(** * Facts *)

Lemma wp_GetRevision (Q : Z → naiveTSO → Prop) n :
  Q (committedRevision n) n → wp GetRevision Q n.
Proof. done. Qed.

Lemma wp_Deal (Q : Z → naiveTSO → Prop) n :
  dealRevision n < max_uint64 → 0 <= dealRevision n →
  Q (dealRevision n + 1) (mkTSO (committedRevision n) (dealRevision n + 1)) → wp Deal Q n.
Proof.
  intros Hlt Hpos HQ. unfold wp, Deal.
  rewrite uint64_id; [done|]. unfold is_uint64, two64, max_uint64 in *. lia.
Qed.

Lemma wp_Commit revision (Q : () → naiveTSO → Prop) n :
  Q () (mkTSO revision (Z.max (dealRevision n) revision)) → wp (Commit revision) Q n.
Proof.
  unfold wp, Commit.
  destruct (Z.ltb_spec (dealRevision n) revision);
    [rewrite Z.max_r by lia | rewrite Z.max_l by lia]; done.
Qed.

#[export] Hint Resolve wp_GetRevision wp_Deal wp_Commit : gowp.
