(* ===== verification/Ring.v ===== *)
(** The cache of recent events: pkg/backend/ring.go.

    A circular buffer of event pointers.  [ring_list] is the list it stands
    for, the last [r_l] events added; [Add] and [FindEvents] are shown to be
    "append, keep the last [r_l]" and "the events from a revision on".  The
    positions, int64 counters of events in the source, are natural numbers. *)

From S2P Require Import Prelude GoMonad Storage Proto.

Record Ring := mkRing { r_s : nat; r_e : nat; r_l : nat; r_arr : list (option Event) }.

Definition NewRing (l : nat) : Ring := mkRing 0 0 l (replicate l None).

(** [r.index(i)]: [i % l], which panics for [l = 0]. *)
Definition index (r : Ring) (i : nat) : option nat :=
  match r_l r with O => None | S _ => Some (i mod r_l r)%nat end.

Definition Add (event : Event) : GoM Ring () := λ r,
  i ← index r (r_e r);
  if (i <? length (r_arr r))%nat then
    let s' := if (r_e r =? r_s r + r_l r)%nat then S (r_s r) else r_s r in
    Some (mkRing s' (S (r_e r)) (r_l r) (<[i := Some event]> (r_arr r)), ())
  else None.

Definition Size (r : Ring) : nat := r_l r.

(** [r.arr[r.index(i)]]: a pointer, [None] inside when it is nil. *)
Definition slot (r : Ring) (i : nat) : option (option Event) :=
  j ← index r i; r_arr r !! j.

(** [r.index(r.e-1)] of an empty ring is a negative index. *)
Definition newest (r : Ring) : option (option Event) :=
  match r_e r with O => None | S e => slot r e end.
Definition oldest (r : Ring) : option (option Event) := slot r (r_s r).

Definition Reset : GoM Ring () := λ r, Some (mkRing 0 0 (r_l r) (r_arr r), ()).

Definition isEmpty (r : Ring) : bool := (r_e r =? 0)%nat.

Record FindRet := mkFindRet {
  fr_empty : bool;
  fr_high : bool;
  fr_low : bool;
  fr_newest : option Event;
  fr_oldest : option Event;
  fr_events : list (option Event);
}.

(** [sort.Search(n, f)]: the binary search of the Go library; a panic of [f]
    is [None]. *)
Fixpoint search_loop (fuel : nat) (f : nat → option bool) (i j : nat) : option nat :=
  match fuel with
  | O => Some i
  | S fuel' =>
      if (i <? j)%nat then
        let h := ((i + j) / 2)%nat in
        b ← f h;
        if (b : bool) then search_loop fuel' f i h else search_loop fuel' f (S h) j
      else Some i
  end.

Definition Search (n : nat) (f : nat → option bool) : option nat := search_loop (S n) f 0 n.

(** [copy(dst, src)] *)
Definition go_copy {A} (dst src : list A) : list A :=
  take (length dst) src ++ drop (length src) dst.

(** [FindEvents], with a nil pointer dereference or index error as [None]. *)
Definition FindEvents (revision : Z) (r : Ring) : option FindRet :=
  if isEmpty r then Some (mkFindRet true false false None None [])
  else
    pn ← newest r; po ← oldest r;
    n ← pn; o ← po;
    if ev_Revision n <? revision
    then Some (mkFindRet false true false (Some n) (Some o) [])
    else if revision <? ev_Revision o
    then Some (mkFindRet false false true (Some n) (Some o) [])
    else
      idx ← Search (r_e r - r_s r) (λ i,
              p ← slot r (r_s r + i)%nat; e ← p; Some (revision <=? ev_Revision e));
      let events := replicate (r_e r - r_s r - idx) None in
      b ← index r (r_e r);
      a ← index r (r_s r + idx)%nat;
      if (a <? b)%nat
      then Some (mkFindRet false false false (Some n) (Some o)
                   (go_copy events (drop a (take b (r_arr r)))))
      else
        let events1 := go_copy events (drop a (r_arr r)) in
        if (length events1 <? r_l r - a)%nat then None
        else Some (mkFindRet false false false (Some n) (Some o)
                     (take (r_l r - a) events1 ++
                      go_copy (drop (r_l r - a) events1) (take b (r_arr r)))).

(** * The list a ring stands for *)

Definition slot_at (r : Ring) (i : nat) : option Event :=
  default None (r_arr r !! (i mod r_l r)%nat).

Definition ring_ptrs (r : Ring) : list (option Event) :=
  slot_at r <$> seq (r_s r) (r_e r - r_s r).

Definition ring_list (r : Ring) : list Event := omap id (ring_ptrs r).

Record ring_ok (r : Ring) : Prop := {
  rok_pos : (0 < r_l r)%nat;
  rok_len : length (r_arr r) = r_l r;
  rok_range : (r_s r <= r_e r <= r_s r + r_l r)%nat;
  rok_full : (0 < r_s r)%nat → r_e r = (r_s r + r_l r)%nat;
  rok_set : ∀ i, (r_s r <= i < r_e r)%nat → is_Some (slot_at r i);
}.

Lemma NewRing_ok l : (0 < l)%nat → ring_ok (NewRing l).
Proof.
  intros Hl. split; simpl; try lia. by rewrite length_replicate.
Qed.

Section ring.
Context (r : Ring) (Hok : ring_ok r).

Lemma index_ok i : index r i = Some (i mod r_l r)%nat.
Proof. unfold index. pose proof (rok_pos _ Hok). by destruct (r_l r); [lia|]. Qed.

Lemma mod_lt i : (i mod r_l r < r_l r)%nat.
Proof. apply Nat.mod_upper_bound. pose proof (rok_pos _ Hok). lia. Qed.

Lemma slot_ok i : slot r i = Some (slot_at r i).
Proof.
  unfold slot, slot_at. rewrite index_ok; simpl.
  destruct (lookup_lt_is_Some_2 (r_arr r) (i mod r_l r)) as [x Hx].
  { rewrite (rok_len _ Hok). apply mod_lt. }
  by rewrite Hx.
Qed.

Lemma ring_list_ptrs : Some <$> ring_list r = ring_ptrs r.
Proof.
  unfold ring_list, ring_ptrs. pose proof (rok_set _ Hok) as Hset.
  assert (∀ i n, (r_s r <= i)%nat → (i + n <= r_e r)%nat →
    Some <$> omap id (slot_at r <$> seq i n) = slot_at r <$> seq i n) as Hg.
  { intros i n. revert i. induction n as [|n IH]; intros i Hi Hn; [done|]. simpl.
    destruct (Hset i) as [x Hx]; [lia|]. rewrite Hx; simpl. f_equal. apply IH; lia. }
  pose proof (rok_range _ Hok). apply Hg; lia.
Qed.

Lemma ring_list_length : length (ring_list r) = (r_e r - r_s r)%nat.
Proof.
  rewrite <-(length_fmap Some), ring_list_ptrs. unfold ring_ptrs.
  by rewrite length_fmap, length_seq.
Qed.

Lemma ring_list_lookup i :
  (i < r_e r - r_s r)%nat → ring_list r !! i = slot_at r (r_s r + i).
Proof.
  intros Hi. assert (ring_ptrs r !! i = Some (slot_at r (r_s r + i))) as E.
  { unfold ring_ptrs. rewrite list_lookup_fmap, lookup_seq_lt by done. done. }
  rewrite <-ring_list_ptrs, list_lookup_fmap in E.
  destruct (ring_list r !! i); simpl in E; congruence.
Qed.
End ring.

(** * Circular arithmetic *)

Lemma mod_add_near l x i :
  (0 < l)%nat → (i <= l)%nat →
  ((x + i) mod l = if x mod l + i <? l then x mod l + i else x mod l + i - l)%nat.
Proof.
  intros Hl Hi. pose proof (Nat.mod_upper_bound x l ltac:(lia)) as Hx.
  pose proof (Nat.div_mod_eq x l) as Ex. set (q := (x / l)%nat) in *. set (a := (x mod l)%nat) in *.
  destruct (Nat.ltb_spec (a + i) l); symmetry.
  - apply (Nat.mod_unique _ _ q); lia.
  - apply (Nat.mod_unique _ _ (S q)); nia.
Qed.

Lemma mod_near_ne l i e :
  (i < e)%nat → (e - i < l)%nat → (i mod l ≠ e mod l)%nat.
Proof.
  intros Hi He E. replace e with (i + (e - i))%nat in E by lia.
  rewrite mod_add_near in E by lia.
  pose proof (Nat.mod_upper_bound i l ltac:(lia)).
  destruct (Nat.ltb_spec (i mod l + (e - i)) l); lia.
Qed.

Section circular.
Context (r : Ring) (Hok : ring_ok r).

(** A segment of positions is one slice of the array, or two when it wraps. *)
Lemma circular_slice i0 n :
  (0 < n <= r_l r)%nat →
  let a := (i0 mod r_l r)%nat in
  let b := ((i0 + n) mod r_l r)%nat in
  slot_at r <$> seq i0 n =
    if (a <? b)%nat then drop a (take b (r_arr r))
    else drop a (r_arr r) ++ take b (r_arr r).
Proof.
  intros Hn a b. pose proof (rok_len _ Hok) as Hlen.
  assert (a < r_l r)%nat as Ha by apply (mod_lt r Hok).
  assert (b = if a + n <? r_l r then a + n else a + n - r_l r)%nat as Hb
    by (apply mod_add_near; lia).
  apply list_eq. intros i.
  assert (i < n → (i0 + i) mod r_l r = if a + i <? r_l r then a + i else a + i - r_l r)%nat
    as Hi by (intros; apply mod_add_near; lia).
  rewrite list_lookup_fmap. destruct (decide (i < n)%nat) as [Hin|Hin].
  - rewrite lookup_seq_lt by done. simpl. unfold slot_at. rewrite (Hi Hin).
    assert (∀ j, (j < r_l r)%nat → Some (default None (r_arr r !! j)) = r_arr r !! j) as Hd.
    { intros j Hj. destruct (lookup_lt_is_Some_2 (r_arr r) j) as [x ->]; [lia | done]. }
    destruct (Nat.ltb_spec (a + n) (r_l r)), (Nat.ltb_spec a b); try lia.
    + destruct (Nat.ltb_spec (a + i) (r_l r)); [|lia].
      rewrite lookup_drop, lookup_take_lt by lia. apply Hd. lia.
    + destruct (Nat.ltb_spec (a + i) (r_l r)).
      * rewrite lookup_app_l by (rewrite length_drop; lia).
        rewrite lookup_drop. apply Hd. lia.
      * rewrite lookup_app_r by (rewrite length_drop; lia).
        rewrite length_drop, lookup_take_lt by lia.
        rewrite Hd by lia. f_equal. lia.
  - rewrite (proj2 (lookup_ge_None (seq i0 n) i)) by (rewrite length_seq; lia). simpl.
    symmetry. apply lookup_ge_None.
    destruct (Nat.ltb_spec (a + n) (r_l r)), (Nat.ltb_spec a b); try lia;
      rewrite ?length_app, ?length_drop, ?length_take; lia.
Qed.

(** ** [Add] appends, and drops the oldest event of a full ring. *)

Definition ring_add (ev : Event) : Ring :=
  mkRing (if (r_e r =? r_s r + r_l r)%nat then S (r_s r) else r_s r) (S (r_e r)) (r_l r)
    (<[(r_e r mod r_l r)%nat := Some ev]> (r_arr r)).

Lemma Add_run ev : Add ev r = Some (ring_add ev, ()).
Proof.
  unfold Add. rewrite (index_ok r Hok); simpl.
  destruct (Nat.ltb_spec (r_e r mod r_l r) (length (r_arr r))) as [|H]; [done|].
  pose proof (mod_lt r Hok (r_e r)). pose proof (rok_len _ Hok). lia.
Qed.

Lemma slot_at_add ev i :
  (r_s (ring_add ev) <= i <= r_e r)%nat →
  slot_at (ring_add ev) i = if (i =? r_e r)%nat then Some ev else slot_at r i.
Proof.
  intros Hi. pose proof (rok_range _ Hok) as Hr. pose proof (rok_len _ Hok) as Hlen.
  unfold slot_at, ring_add; simpl in *.
  destruct (Nat.eqb_spec i (r_e r)) as [->|Hne].
  - rewrite list_lookup_insert_eq; [done|]. rewrite Hlen. apply (mod_lt r Hok).
  - rewrite list_lookup_insert_ne; [done|]. apply not_eq_sym, mod_near_ne; [lia|].
    destruct (Nat.eqb_spec (r_e r) (r_s r + r_l r)); lia.
Qed.

Lemma ring_add_ok ev : ring_ok (ring_add ev).
Proof.
  pose proof (rok_range _ Hok) as Hr. pose proof (rok_full _ Hok) as Hf.
  pose proof (rok_pos _ Hok) as Hp.
  split.
  - done.
  - simpl. rewrite length_insert. apply (rok_len _ Hok).
  - simpl. destruct (Nat.eqb_spec (r_e r) (r_s r + r_l r)); lia.
  - simpl. destruct (Nat.eqb_spec (r_e r) (r_s r + r_l r)); lia.
  - intros i Hi. rewrite slot_at_add by (simpl in *; lia).
    destruct (Nat.eqb_spec i (r_e r)); [done|]. apply (rok_set _ Hok).
    simpl in Hi. destruct (Nat.eqb_spec (r_e r) (r_s r + r_l r)); lia.
Qed.

Lemma ring_add_list ev :
  ring_list (ring_add ev) =
  (if (length (ring_list r) =? r_l r)%nat then drop 1 (ring_list r) else ring_list r) ++ [ev].
Proof.
  pose proof (rok_range _ Hok) as Hr. pose proof (rok_pos _ Hok) as Hp.
  pose proof (ring_add_ok ev) as Hok'.
  rewrite (ring_list_length r Hok).
  apply list_eq. intros i.
  set (d := if (r_e r =? r_s r + r_l r)%nat then 1%nat else 0%nat).
  assert ((if (r_e r - r_s r =? r_l r)%nat then drop 1 (ring_list r) else ring_list r)
          = drop d (ring_list r)) as ->.
  { unfold d. destruct (Nat.eqb_spec (r_e r - r_s r) (r_l r)),
      (Nat.eqb_spec (r_e r) (r_s r + r_l r)); done || lia. }
  assert (r_s (ring_add ev) = (r_s r + d)%nat) as Hs.
  { unfold d; simpl. destruct (Nat.eqb_spec (r_e r) (r_s r + r_l r)); lia. }
  assert (d <= r_e r - r_s r)%nat as Hd.
  { unfold d. destruct (Nat.eqb_spec (r_e r) (r_s r + r_l r)); lia. }
  destruct (decide (i < r_e (ring_add ev) - r_s (ring_add ev))%nat) as [Hi|Hi].
  - rewrite (ring_list_lookup _ Hok') by done. rewrite slot_at_add by (simpl in *; lia).
    rewrite Hs in *. simpl r_e in Hi. destruct (Nat.eqb_spec (r_s r + d + i) (r_e r)).
    + rewrite lookup_app_r by (rewrite length_drop, (ring_list_length r Hok); lia).
      rewrite length_drop, (ring_list_length r Hok).
      by replace (i - (r_e r - r_s r - d))%nat with 0%nat by lia.
    + rewrite lookup_app_l by (rewrite length_drop, (ring_list_length r Hok); lia).
      rewrite lookup_drop, (ring_list_lookup r Hok) by lia. f_equal. lia.
  - trans (@None Event); [|symmetry]; apply lookup_ge_None.
    + rewrite (ring_list_length _ Hok'). lia.
    + rewrite length_app, length_drop, (ring_list_length r Hok). simpl in *. lia.
Qed.
End circular.

(** * Binary search *)

Lemma search_loop_spec (p : nat → bool) f n fuel i j :
  (∀ h, (h < n)%nat → f h = Some (p h)) →
  (∀ x y, (x <= y)%nat → p x = true → p y = true) →
  (i <= j <= n)%nat → (j - i < fuel)%nat →
  (∀ x, (x < i)%nat → p x = false) → (∀ x, (j <= x < n)%nat → p x = true) →
  ∃ k, search_loop fuel f i j = Some k ∧ (k <= n)%nat ∧
       (∀ x, (x < k)%nat → p x = false) ∧ (∀ x, (k <= x < n)%nat → p x = true).
Proof.
  intros Hf Hmono. revert i j. induction fuel as [|fuel IH]; intros i j Hij Hfuel Hlo Hhi; [lia|].
  cbn [search_loop]. destruct (Nat.ltb_spec i j) as [Hlt|Hge].
  - set (h := ((i + j) / 2)%nat).
    assert (i <= h < j)%nat as Hh.
    { unfold h. pose proof (Nat.div_mod_eq (i + j) 2).
      pose proof (Nat.mod_upper_bound (i + j) 2 ltac:(lia)). lia. }
    clearbody h. rewrite (Hf h) by lia. simpl. destruct (p h) eqn:Ep.
    + apply IH; [lia | lia | done |]. intros x Hx. apply (Hmono h); [lia | done].
    + apply IH; [lia | lia | | done]. intros x Hx.
      destruct (p x) eqn:Ex; [|done]. rewrite (Hmono x h) in Ep; [done | lia | done].
  - exists i. repeat split; [lia | done |]. intros x Hx. apply Hhi. lia.
Qed.

Lemma Search_spec (p : nat → bool) f n :
  (∀ h, (h < n)%nat → f h = Some (p h)) →
  (∀ x y, (x <= y)%nat → p x = true → p y = true) →
  ∃ k, Search n f = Some k ∧ (k <= n)%nat ∧
       (∀ x, (x < k)%nat → p x = false) ∧ (∀ x, (k <= x < n)%nat → p x = true).
Proof. intros Hf Hmono. apply search_loop_spec; auto; lia. Qed.

(** * [FindEvents] *)

Definition ev_lt (a b : Event) : Prop := ev_Revision a < ev_Revision b.

(** The revisions of the cached events increase. *)
Definition ring_sorted (r : Ring) : Prop := StronglySorted ev_lt (ring_list r).

Lemma sorted_lookup (l : list Event) i j a b :
  StronglySorted ev_lt l → l !! i = Some a → l !! j = Some b → (i < j)%nat → ev_lt a b.
Proof.
  intros Hs. revert i j. induction Hs as [|x l Hl IH Hx]; intros i j Hi Hj Hij; [done|].
  rewrite Forall_forall in Hx.
  destruct i as [|i], j as [|j]; simpl in *; try lia.
  - simplify_eq. apply Hx. by eapply list_elem_of_lookup_2.
  - eapply IH; eauto. lia.
Qed.

(** Past the first element that satisfies an upward closed test, [drop] is [filter]. *)
Lemma drop_filter_from (l : list Event) rev k :
  (k <= length l)%nat →
  (∀ i e, (i < k)%nat → l !! i = Some e → ev_Revision e < rev) →
  (∀ i e, (k <= i)%nat → l !! i = Some e → rev <= ev_Revision e) →
  drop k l = filter (λ e, rev <= ev_Revision e) l.
Proof.
  revert k. induction l as [|x l IH]; intros k Hk Hlo Hhi; [by rewrite drop_nil|].
  rewrite filter_cons. destruct k as [|k]; simpl.
  - rewrite decide_True by (by apply (Hhi 0%nat)). f_equal.
    rewrite <-(IH 0%nat); [done | lia | intros; lia |].
    intros i e _ Hi. apply (Hhi (S i)); [lia | done].
  - rewrite decide_False by (specialize (Hlo 0%nat x ltac:(lia) eq_refl); lia).
    apply IH; [simpl in Hk; lia | |].
    + intros i e Hi. apply (Hlo (S i)). lia.
    + intros i e Hi. apply (Hhi (S i)). lia.
Qed.

Lemma go_copy_full {A} (dst src : list A) : length dst = length src → go_copy dst src = src.
Proof.
  intros E. unfold go_copy. rewrite E, take_ge by lia. rewrite drop_ge by lia. apply app_nil_r.
Qed.

Section find.
Context (r : Ring) (Hok : ring_ok r) (Hs : ring_sorted r).

Lemma ring_list_empty : ring_list r = [] ↔ isEmpty r = true.
Proof.
  rewrite <-length_zero_iff_nil, (ring_list_length r Hok). unfold isEmpty.
  pose proof (rok_full _ Hok). pose proof (rok_pos _ Hok). rewrite Nat.eqb_eq. lia.
Qed.

Lemma newest_last : isEmpty r = false → newest r = Some (last (ring_list r)).
Proof.
  intros He. unfold newest, isEmpty in *. destruct (r_e r) as [|e] eqn:Ee; [done|].
  pose proof (rok_full _ Hok). pose proof (rok_pos _ Hok).
  rewrite (slot_ok r Hok). f_equal. rewrite last_lookup, (ring_list_length r Hok).
  rewrite (ring_list_lookup r Hok) by lia. f_equal. lia.
Qed.

Lemma oldest_head : isEmpty r = false → oldest r = Some (head (ring_list r)).
Proof.
  intros He. unfold oldest, isEmpty in *. apply Nat.eqb_neq in He.
  pose proof (rok_full _ Hok). pose proof (rok_pos _ Hok).
  rewrite (slot_ok r Hok). f_equal. rewrite head_lookup.
  rewrite (ring_list_lookup r Hok) by lia. f_equal. lia.
Qed.

(** The binary search finds where the revisions reach [rev]. *)
Lemma Search_ring rev :
  ∃ k, Search (r_e r - r_s r) (λ i,
         p ← slot r (r_s r + i)%nat; e ← p; Some (rev <=? ev_Revision e)) = Some k ∧
       (k <= r_e r - r_s r)%nat ∧
       drop k (ring_list r) = filter (λ e, rev <= ev_Revision e) (ring_list r).
Proof.
  pose proof (ring_list_length r Hok) as Hlen.
  set (p := λ i, match ring_list r !! i with Some e => rev <=? ev_Revision e | None => true end).
  destruct (Search_spec p (λ i,
    q ← slot r (r_s r + i)%nat; e ← q; Some (rev <=? ev_Revision e)) (r_e r - r_s r))
    as (k & Hk & Hkn & Hlo & Hhi).
  - intros h Hh. rewrite (slot_ok r Hok). simpl. unfold p.
    rewrite <-(ring_list_lookup r Hok) by done.
    destruct (lookup_lt_is_Some_2 (ring_list r) h) as [e ->]; [lia | done].
  - intros x y Hxy. unfold p. destruct (decide (x = y)) as [->|Hne]; [done|].
    destruct (ring_list r !! y) as [b|] eqn:Ey; [|done].
    destruct (ring_list r !! x) as [a|] eqn:Ex.
    + pose proof (sorted_lookup _ x y a b Hs Ex Ey ltac:(lia)). unfold ev_lt in *. lia.
    + apply lookup_ge_None in Ex. apply lookup_lt_Some in Ey. lia.
  - exists k. split; [done|]. split; [done|].
    apply drop_filter_from; [lia | |]; intros i e Hi He.
    + specialize (Hlo i Hi). unfold p in Hlo. rewrite He in Hlo. lia.
    + specialize (Hhi i). unfold p in Hhi. rewrite He in Hhi.
      apply lookup_lt_Some in He. lia.
Qed.

(** The two copies rebuild the events from position [k] on. *)
Lemma copies k :
  (k < r_e r - r_s r)%nat →
  let n := (r_e r - r_s r - k)%nat in
  let a := ((r_s r + k) mod r_l r)%nat in
  let b := (r_e r mod r_l r)%nat in
  let events := replicate n None in
  if (a <? b)%nat then
    go_copy events (drop a (take b (r_arr r))) = Some <$> drop k (ring_list r)
  else
    let events1 := go_copy events (drop a (r_arr r)) in
    (r_l r - a <= length events1)%nat ∧
    take (r_l r - a) events1 ++ go_copy (drop (r_l r - a) events1) (take b (r_arr r)) =
    Some <$> drop k (ring_list r).
Proof.
  intros Hk n a b events. pose proof (rok_range _ Hok) as Hr. pose proof (rok_len _ Hok) as Hl.
  pose proof (circular_slice r Hok (r_s r + k) n ltac:(unfold n; lia)) as Hc. simpl in Hc.
  replace (r_s r + k + n)%nat with (r_e r) in Hc by (unfold n; lia).
  fold a b in Hc.
  assert (slot_at r <$> seq (r_s r + k) n = Some <$> drop k (ring_list r)) as Hd.
  { rewrite fmap_drop, (ring_list_ptrs r Hok). unfold ring_ptrs. rewrite <-fmap_drop.
    f_equal. by rewrite drop_seq. }
  rewrite Hd in Hc. clear Hd.
  assert (length (Some <$> drop k (ring_list r)) = n) as Hn.
  { rewrite length_fmap, length_drop, (ring_list_length r Hok). done. }
  assert (a < r_l r)%nat as Ha by apply (mod_lt r Hok).
  destruct (a <? b)%nat.
  - rewrite Hc. apply go_copy_full. unfold events. by rewrite length_replicate, <-Hc.
  - rewrite Hc in Hn. rewrite length_app, length_drop, Hl in Hn.
    set (tl := drop a (r_arr r)) in *. assert (length tl = r_l r - a)%nat as Ht
      by (unfold tl; rewrite length_drop; lia).
    assert (go_copy events tl = tl ++ replicate (length (take b (r_arr r))) None) as E1.
    { unfold go_copy, events. rewrite length_replicate, take_ge by lia.
      rewrite drop_replicate. do 2 f_equal. lia. }
    simpl. rewrite E1. split; [rewrite length_app; lia|].
    rewrite <-Ht, take_app_length, drop_app_length, Hc. f_equal.
    apply go_copy_full. by rewrite length_replicate.
Qed.

Lemma FindEvents_empty rev :
  ring_list r = [] → FindEvents rev r = Some (mkFindRet true false false None None []).
Proof. intros E%ring_list_empty. unfold FindEvents. by rewrite E. Qed.

(** On a non-empty ring, with first and last cached events [o] and [n]. *)
Lemma FindEvents_nonempty rev n o :
  last (ring_list r) = Some n → head (ring_list r) = Some o →
  FindEvents rev r = Some (
    if ev_Revision n <? rev then mkFindRet false true false (Some n) (Some o) []
    else if rev <? ev_Revision o then mkFindRet false false true (Some n) (Some o) []
    else mkFindRet false false false (Some n) (Some o)
           (Some <$> filter (λ e, rev <= ev_Revision e) (ring_list r))).
Proof.
  intros Hn Ho. assert (isEmpty r = false) as He.
  { destruct (isEmpty r) eqn:E; [|done]. apply ring_list_empty in E. by rewrite E in Hn. }
  unfold FindEvents. rewrite He, newest_last, oldest_head by done. simpl. rewrite Hn, Ho; simpl.
  destruct (Z.ltb_spec (ev_Revision n) rev) as [|Hnr]; [done|].
  destruct (Z.ltb_spec rev (ev_Revision o)) as [|Hor]; [done|].
  destruct (Search_ring rev) as (k & -> & Hk & Hf). simpl.
  rewrite !(index_ok r Hok); simpl.
  assert (k < r_e r - r_s r)%nat as Hk'.
  { destruct (decide (k = r_e r - r_s r)%nat) as [->|]; [|lia]. exfalso.
    rewrite drop_ge in Hf by (rewrite (ring_list_length r Hok); lia).
    assert (n ∈ filter (λ e, rev <= ev_Revision e) (ring_list r)) as Hin.
    { apply list_elem_of_filter. split; [lia|]. by apply last_Some_elem_of. }
    rewrite <-Hf in Hin. by apply not_elem_of_nil in Hin. }
  pose proof (copies k Hk') as Hc. cbv zeta in Hc.
  destruct (_ <? _)%nat.
  - by rewrite Hc, Hf.
  - destruct Hc as [Hlen Hc]. destruct (Nat.ltb_spec (length (go_copy
      (replicate (r_e r - r_s r - k) None)
      (drop ((r_s r + k) mod r_l r) (r_arr r)))) (r_l r - (r_s r + k) mod r_l r)); [lia|].
    by rewrite Hc, Hf.
Qed.
End find.
