(* ===== verification/Mvcc.v ===== *)
(** Versions of user keys in the engine's map, and what a read at a revision
    sees.  This is the specification side of pkg/backend: the operations of the
    backend are related to [is_latest], [key_wf] and [store_ok] below. *)

From S2P Require Import Prelude GoMonad Storage Coder.

Definition tombStoneBytes : bytes := str "tombstone".

(** * What the engine's map may hold *)

(** An internal key is an encoded one with a valid user key, or one of the
    records outside the encoded space (compact record, election record), long
    enough not to confuse [Decode]. *)
Definition internal_ok (ik : bytes) : Prop :=
  (∃ k r, valid_key k ∧ is_uint64 r ∧ ik = EncodeObjectKey k r) ∨
  (9 <= length ik)%nat ∧ take 4 ik ≠ magicBytes.

Definition store_ok (m : kvmap) : Prop := ∀ ik v, m !! ik = Some v → internal_ok ik.

Definition obj (m : kvmap) (k : bytes) (r : Z) : option slice := m !! EncodeObjectKey k r.

(** [r] is the newest revision of [k] not above [R], with value [v]. *)
Definition is_latest (m : kvmap) (k : bytes) (R r : Z) (v : slice) : Prop :=
  obj m k r = Some v ∧ 0 < r <= R ∧
  ∀ r' v', obj m k r' = Some v' → 0 < r' <= R → r' <= r.

Definition is_tombstone (v : slice) : bool := bytes_eqb (content v) tombStoneBytes.

(** No live version: there is none, or the newest is a tombstone. *)
Definition dead (m : kvmap) (k : bytes) : Prop :=
  ∀ r v, is_latest m k max_uint64 r v → is_tombstone v = true.

Definition revs_below (m : kvmap) (k : bytes) (d : Z) : Prop :=
  ∀ r v, obj m k r = Some v → 0 < r <= max_uint64 → r <= d.

Definition live_record (r : Z) : slice := Some (uint64ToBytes r).
Definition dead_record (r : Z) : slice := Some (uint64ToBytes r ++ [Byte.x00]).

(** The revision record agrees with the versions. *)
Inductive key_wf (m : kvmap) (k : bytes) : Prop :=
  | kw_absent :
      m !! EncodeRevisionKey k = None → dead m k → key_wf m k
  | kw_live r v :
      m !! EncodeRevisionKey k = Some (live_record r) →
      is_latest m k max_uint64 r v → is_tombstone v = false → key_wf m k
  | kw_dead r :
      m !! EncodeRevisionKey k = Some (dead_record r) → 0 < r <= max_uint64 →
      dead m k → revs_below m k r → key_wf m k.

(** [d] bounds every revision the store mentions for [k]. *)
Definition key_below (m : kvmap) (k : bytes) (d : Z) : Prop :=
  revs_below m k d ∧
  ∀ r, 0 <= r <= max_uint64 →
       m !! EncodeRevisionKey k = Some (live_record r) ∨
       m !! EncodeRevisionKey k = Some (dead_record r) → r <= d.

(** The newest version of [k] up to [R], read off the ordered map the way a
    point query does. *)
Definition latest (m : kvmap) (k : bytes) (R : Z) : option (Z * slice) :=
  match desc_range m (EncodeObjectKey k R) (EncodeObjectKey k 0) with
  | (ik, v) :: _ =>
      match Decode ik with
      | Some (uk, r, None) => if bytes_eqb uk k then Some (r, v) else None
      | _ => None
      end
  | [] => None
  end.

(** What a read of [k] at revision [R] returns to a user. *)
Definition visible (m : kvmap) (k : bytes) (R : Z) : option (Z * slice) :=
  match latest m k R with
  | Some (r, v) => if is_tombstone v then None else Some (r, v)
  | None => None
  end.

(** * Internal keys between the versions of one user key *)

Lemma bytes_le_prefix p a b x :
  bytes_le (p ++ a) x → bytes_le x (p ++ b) → ∃ y, x = p ++ y.
Proof.
  revert x. induction p as [|c p IH]; intros x; [by exists x|].
  unfold bytes_le. destruct x as [|d x]; [done|]. simpl.
  rewrite (Z.compare_antisym (bval c) (bval d)).
  destruct (Z.compare_spec (bval c) (bval d)) as [E| |]; simpl; try done.
  intros H1 H2. apply bval_inj in E as <-.
  destruct (IH x H1 H2) as [y ->]. by exists y.
Qed.

Lemma internal_ok_Decode ik : internal_ok ik → is_Some (Decode ik).
Proof.
  intros [(k & r & _ & Hr & ->)|[Hl _]].
  - rewrite Decode_Encode by done. eauto.
  - by apply Decode_total.
Qed.

(** A stored key between [k] at revision 0 and [k] at revision [R] is a
    version of [k]. *)
Lemma internal_between ik k R :
  valid_key k → is_uint64 R → internal_ok ik →
  bytes_lt (EncodeObjectKey k 0) ik → bytes_le ik (EncodeObjectKey k R) →
  ∃ r, ik = EncodeObjectKey k r ∧ 0 < r <= R.
Proof.
  intros Hk HR Hik Hlo Hhi.
  assert (is_uint64 0) as H0 by (unfold is_uint64, two64; lia).
  destruct Hik as [(k' & r & Hk' & Hr & ->)|[_ Hmagic]].
  - apply EncodeObjectKey_lt in Hlo; try done. apply EncodeObjectKey_le in Hhi; try done.
    exists r. destruct Hlo as [Hlo|[-> Hlo]], Hhi as [Hhi|[Ek Hhi]]; subst.
    + exfalso. apply (bytes_lt_irrefl k). by etrans.
    + by apply bytes_lt_irrefl in Hlo.
    + by apply bytes_lt_irrefl in Hhi.
    + done.
  - exfalso. apply Hmagic.
    destruct (bytes_le_prefix magicBytes (k ++ splitByte :: uint64ToBytes 0)
                (k ++ splitByte :: uint64ToBytes R) ik) as [y ->]; [|done|done].
    apply bytes_le_lteq. by left.
Qed.

Lemma EncodeObjectKey_between k r R :
  valid_key k → is_uint64 R → 0 < r <= R →
  bytes_lt (EncodeObjectKey k 0) (EncodeObjectKey k r) ∧
  bytes_le (EncodeObjectKey k r) (EncodeObjectKey k R).
Proof.
  intros Hk HR Hr. assert (is_uint64 0) as H0 by (unfold is_uint64, two64; lia).
  assert (is_uint64 r) as Hr' by (unfold is_uint64 in *; lia).
  split; [apply EncodeObjectKey_lt | apply EncodeObjectKey_le]; try done;
    right; (split; [done | lia]).
Qed.

Section latest.
Context (m : kvmap) (k : bytes) (R : Z).
Context (Hm : store_ok m) (Hk : valid_key k) (HR : is_uint64 R).

(** The entries of the point query are the versions up to [R]. *)
Lemma elem_of_versions ik v :
  (ik, v) ∈ desc_range m (EncodeObjectKey k R) (EncodeObjectKey k 0) ↔
  ∃ r, ik = EncodeObjectKey k r ∧ 0 < r <= R ∧ obj m k r = Some v.
Proof.
  rewrite elem_of_desc_range. split.
  - intros (Hv & Hlo & Hhi).
    destruct (internal_between ik k R) as (r & -> & Hr); eauto.
  - intros (r & -> & Hr & Hv). destruct (EncodeObjectKey_between k r R); done.
Qed.

Lemma latest_Some r v : latest m k R = Some (r, v) ↔ is_latest m k R r v.
Proof.
  unfold latest. destruct (desc_range m _ _) as [|[ik w] l] eqn:E.
  - split; [done|]. intros (Hv & Hr & _). exfalso.
    apply (not_elem_of_nil (EncodeObjectKey k r, v)). rewrite <-E.
    apply elem_of_versions. eauto.
  - destruct (proj1 (elem_of_versions ik w)) as (r0 & -> & Hr0 & Hv0).
    { rewrite E. left. }
    assert (is_uint64 r0) as Hu by (unfold is_uint64 in *; lia).
    rewrite Decode_Encode, bytes_eqb_refl by done.
    assert (∀ r' v', obj m k r' = Some v' → 0 < r' <= R → r' <= r0) as Hmax.
    { intros r' v' Hv' Hr'. destruct (EncodeObjectKey_between k r' R) as [H1 H2]; try done.
      pose proof (desc_range_head _ _ _ _ _ _ E _ _ Hv' H1 H2) as Hle.
      apply EncodeObjectKey_le in Hle; try done; [|unfold is_uint64 in *; lia].
      destruct Hle as [?%bytes_lt_irrefl|]; [done | lia]. }
    split.
    + intros [= <- <-]. done.
    + intros (Hv & Hr & Hmax').
      assert (r = r0) as -> by (apply Z.le_antisymm; eauto). congruence.
Qed.

Lemma latest_None : latest m k R = None ↔ ∀ r v, obj m k r = Some v → ¬ 0 < r <= R.
Proof.
  split.
  - intros E r v Hv Hr. unfold latest in E.
    destruct (desc_range m _ _) as [|[ik w] l] eqn:Ed.
    + apply (not_elem_of_nil (EncodeObjectKey k r, v)). rewrite <-Ed.
      apply elem_of_versions. eauto.
    + destruct (proj1 (elem_of_versions ik w)) as (r0 & -> & Hr0 & Hv0).
      { rewrite Ed. left. }
      rewrite Decode_Encode, bytes_eqb_refl in E by (unfold is_uint64 in *; lia). done.
  - intros H. destruct (latest m k R) as [[r v]|] eqn:E; [|done].
    apply latest_Some in E as (Hv & Hr & _). exfalso. by eapply H.
Qed.
End latest.

Lemma max_is_uint64 : is_uint64 max_uint64.
Proof. unfold is_uint64, max_uint64, two64. lia. Qed.

Lemma zero_is_uint64 : is_uint64 0.
Proof. unfold is_uint64, two64. lia. Qed.

Lemma is_latest_unique m k R r v r' v' :
  is_latest m k R r v → is_latest m k R r' v' → r = r' ∧ v = v'.
Proof.
  intros (H1 & H2 & H3) (H1' & H2' & H3').
  assert (r = r') as -> by (apply Z.le_antisymm; eauto). split; congruence.
Qed.

(** Two maps with the same versions of [k] have the same reads of [k]. *)
Lemma latest_ext m m' k R :
  store_ok m → store_ok m' → valid_key k → is_uint64 R →
  (∀ r, 0 < r <= R → obj m' k r = obj m k r) → latest m' k R = latest m k R.
Proof.
  intros Hm Hm' Hk HR E. destruct (latest m k R) as [[r v]|] eqn:El.
  - apply latest_Some in El as (Hv & Hr & Hmax); try done. apply latest_Some; try done.
    split; [by rewrite E|]. split; [done|]. intros r' v' Hv' Hr'. rewrite E in Hv' by done. eauto.
  - rewrite latest_None in El by done. apply latest_None; try done.
    intros r v Hv Hr. rewrite E in Hv by done. by eapply El.
Qed.

(** * Writing a version *)

(** What a successful write of [v] at revision [r] does: the revision record
    and the version, in one batch. *)
Definition put_version (m : kvmap) (k : bytes) (rec : slice) (r : Z) (v : slice) : kvmap :=
  <[EncodeObjectKey k r := v]> (<[EncodeRevisionKey k := rec]> m).

Section put_version.
Context (m : kvmap) (k : bytes) (rec : slice) (r : Z) (v : slice).
Context (Hr : 0 < r <= max_uint64).
Local Abbreviation m' := (put_version m k rec r v).

Local Lemma Hru : is_uint64 r.
Proof using Hr. unfold is_uint64, max_uint64, two64 in *. lia. Qed.

Lemma put_version_ok : valid_key k → store_ok m → store_ok m'.
Proof using Hr.
  intros Hk Hm ik w. unfold put_version, EncodeRevisionKey. rewrite !lookup_insert.
  case_decide as E1; [intros _|case_decide as E2; [intros _|apply Hm]]; left; subst ik.
  - exists k, r. pose proof Hru. done.
  - exists k, 0. pose proof zero_is_uint64. done.
Qed.

Lemma put_version_obj k' r' :
  0 < r' <= max_uint64 →
  obj m' k' r' = if decide (k' = k ∧ r' = r) then Some v else obj m k' r'.
Proof using Hr.
  intros Hr'. assert (is_uint64 r') as Hu by (unfold is_uint64, max_uint64, two64 in *; lia).
  pose proof Hru as Hu'. pose proof zero_is_uint64 as H0.
  unfold obj, put_version, EncodeRevisionKey. rewrite !lookup_insert.
  case_decide as E1.
  - apply EncodeObjectKey_inj in E1 as [-> ->]; [|done..]. by rewrite decide_True.
  - rewrite (decide_False (P:=k' = k ∧ r' = r)) by (intros [-> ->]; done).
    case_decide as E2; [|done]. apply EncodeObjectKey_inj in E2 as [_ E2]; [|done..]. lia.
Qed.

Lemma put_version_record k' :
  m' !! EncodeRevisionKey k' = if decide (k' = k) then Some rec else m !! EncodeRevisionKey k'.
Proof using Hr.
  pose proof Hru as Hu'. pose proof zero_is_uint64 as H0.
  unfold put_version, EncodeRevisionKey. rewrite !lookup_insert.
  case_decide as E1; [apply EncodeObjectKey_inj in E1 as [_ E1]; [|done..]; lia|].
  case_decide as E2.
  - apply EncodeObjectKey_inj in E2 as [-> _]; [|done..]. by rewrite decide_True.
  - rewrite decide_False; [done|]. intros ->. done.
Qed.

Lemma put_version_other_obj k' r' : k' ≠ k → 0 < r' <= max_uint64 → obj m' k' r' = obj m k' r'.
Proof using Hr. intros. rewrite put_version_obj by done. rewrite decide_False; naive_solver. Qed.

(** Reads of other keys, and reads below the written revision, do not change. *)
Lemma put_version_latest_other k' R :
  valid_key k → store_ok m → valid_key k' → is_uint64 R → k' ≠ k ∨ R < r → latest m' k' R = latest m k' R.
Proof using Hr.
  intros Hk Hm Hk' HR Hc. apply latest_ext; try done; [by apply put_version_ok|].
  intros r' Hr'. assert (0 < r' <= max_uint64)
    by (unfold is_uint64, max_uint64, two64 in *; lia).
  rewrite put_version_obj by done. rewrite decide_False; [done|].
  intros [-> ->]. destruct Hc; [done | lia].
Qed.

Lemma put_version_is_latest R :
  revs_below m k (r - 1) → r <= R <= max_uint64 → is_latest m' k R r v.
Proof using Hr.
  intros Hb HR. split; [rewrite put_version_obj by done; by rewrite decide_True|].
  split; [lia|]. intros r' v' Hv' Hr'. rewrite put_version_obj in Hv' by lia.
  case_decide as E; [lia|]. apply Hb in Hv'; lia.
Qed.

Lemma put_version_latest R :
  valid_key k → store_ok m → revs_below m k (r - 1) → r <= R <= max_uint64 →
  latest m' k R = Some (r, v).
Proof using Hr.
  intros Hk Hm Hb HR. apply latest_Some; [by apply put_version_ok | done | |].
  - unfold is_uint64, max_uint64, two64 in *. lia.
  - by apply put_version_is_latest.
Qed.

Lemma put_version_revs_below : revs_below m k (r - 1) → revs_below m' k r.
Proof using Hr.
  intros Hb r' v' Hv' Hr'. rewrite put_version_obj in Hv' by done.
  case_decide; [lia|]. apply Hb in Hv'; lia.
Qed.

Lemma put_version_other_latest k' R r' v' :
  R <= max_uint64 → k' ≠ k → is_latest m' k' R r' v' ↔ is_latest m k' R r' v'.
Proof using Hr.
  intros HR Hne. unfold is_latest.
  split; intros (H1 & H2 & H3); (split; [|split; [done|]]).
  - rewrite put_version_other_obj in H1; [done..|lia].
  - intros q w Hq Hq'. apply (H3 q w); [|done]. rewrite put_version_other_obj; [done..|lia].
  - rewrite put_version_other_obj; [done..|lia].
  - intros q w Hq Hq'. apply (H3 q w); [|done]. rewrite put_version_other_obj in Hq; [done..|lia].
Qed.

Lemma put_version_other_wf k' : k' ≠ k → key_wf m k' → key_wf m' k'.
Proof using Hr.
  intros Hne Hwf.
  assert (m' !! EncodeRevisionKey k' = m !! EncodeRevisionKey k') as Er
    by (rewrite put_version_record; by rewrite decide_False).
  assert (dead m k' → dead m' k') as Hd.
  { intros Hd q w Hq. apply (Hd q w). by apply put_version_other_latest. }
  destruct Hwf as [?|q w ? ?|q ? ? ? Hb].
  - apply kw_absent; [congruence | auto].
  - apply (kw_live _ _ q w); [congruence | by apply put_version_other_latest | done].
  - apply (kw_dead _ _ q); [congruence | done | auto |].
    intros r' v' Hv' Hr'. rewrite put_version_other_obj in Hv' by done. eauto.
Qed.
End put_version.

Lemma put_version_live_wf m k r v :
  0 < r <= max_uint64 → revs_below m k (r - 1) → is_tombstone v = false →
  key_wf (put_version m k (live_record r) r v) k.
Proof.
  intros Hr Hb Hv. apply (kw_live _ _ r v); [|apply put_version_is_latest; [done..|lia] |done].
  rewrite put_version_record by done. by rewrite decide_True.
Qed.

Lemma put_version_dead_wf m k r v :
  0 < r <= max_uint64 → revs_below m k (r - 1) → is_tombstone v = true →
  key_wf (put_version m k (dead_record r) r v) k.
Proof.
  intros Hr Hb Hv. apply (kw_dead _ _ r); [|done | |by apply put_version_revs_below].
  - rewrite put_version_record by done. by rewrite decide_True.
  - intros q w Hq.
    assert (is_latest (put_version m k (dead_record r) r v) k max_uint64 r v) as Hl
      by (apply put_version_is_latest; [done..|lia]).
    destruct (is_latest_unique _ _ _ _ _ _ _ Hq Hl) as [-> ->]. done.
Qed.

(** A well-formed key is live or dead, and its record is never a nil slice. *)
Lemma key_wf_record m k : key_wf m k → m !! EncodeRevisionKey k ≠ Some None.
Proof. intros [E|r v E|r E]; rewrite E; done. Qed.
