(* ===== verification/Creator.v ===== *)
(** Creating keys: pkg/backend/creator/naive.go.

    A create writes the revision record only if there is none; when there is
    one that says "deleted" at an older revision, it is replaced by
    compare-and-swap. *)

From S2P Require Import Prelude GoMonad Storage Coder Mvcc.

Section creator.
Context {S : Type} `{KvStorage S}.

Definition create (revisionKey objectKey : bytes) (value revision : slice) (lease : Z)
    : GoM S (option err) :=
  kv_commit [PutIfNotExist revisionKey revision lease; Put objectKey value lease].

Definition update (revisionKey objectKey : bytes) (value newRevision oldRevision : slice)
    (lease : Z) : GoM S (option err) :=
  kv_commit [CAS revisionKey newRevision oldRevision lease; Put objectKey value lease].

(** What follows once the old revision record is known. *)
Definition create_over (key : bytes) (val : slice) (revision ttl : Z) (oldRev : slice)
    : GoM S (option err) :=
  let revisionKey := EncodeRevisionKey key in
  let objectKey := EncodeObjectKey key revision in
  let '(prevRevision, isTombstone, parseErr) := ParseRevision (content oldRev) in
  match parseErr with
  | Some e => mret (Some e)
  | None =>
      if isTombstone && (prevRevision <? revision)
      then update revisionKey objectKey val (Some (uint64ToBytes revision)) oldRev ttl
      else mret (Some ErrCASFailed)
  end.

(** The old revision record is not in the error: read it. *)
Definition create_reread (key : bytes) (val : slice) (revision ttl : Z) : GoM S (option err) :=
  '(oldRev, gerr) ← kv_get (EncodeRevisionKey key);
  match gerr with
  | Some ge =>
      if err_is ge ErrKeyNotFound
      then create (EncodeRevisionKey key) (EncodeObjectKey key revision) val
             (Some (uint64ToBytes revision)) ttl
      else mret (Some ErrUnavailable)
  | None => create_over key val revision ttl oldRev
  end.

Definition CreateWithTTL (key : bytes) (val : slice) (revision ttl : Z) : GoM S (option err) :=
  let revisionKey := EncodeRevisionKey key in
  let objectKey := EncodeObjectKey key revision in
  let revisionBytes := Some (uint64ToBytes revision) in
  e ← create revisionKey objectKey val revisionBytes ttl;
  match e with
  | None => mret None
  | Some err =>
      if err_is err ErrCASFailed then
        match err with
        | Conflict 0 _ v => create_over key val revision ttl v
        | _ => create_reread key val revision ttl
        end
      else mret (Some err)
  end.

Definition Create (key : bytes) (value : slice) (revision : Z) : GoM S (option err) :=
  CreateWithTTL key value revision 0.
End creator.

(** * The batches *)

Section batches.
Context {S : Type} `{KvSpec S}.

Lemma wp_create k v r ttl s :
  kv_inv s → kv_view s !! EncodeRevisionKey k ≠ Some None →
  wp (create (EncodeRevisionKey k) (EncodeObjectKey k r) v (Some (uint64ToBytes r)) ttl)
    (λ e s', kv_inv s' ∧
      match e with
      | None =>
          kv_view s !! EncodeRevisionKey k = None ∧
          kv_view s' = put_version (kv_view s) k (live_record r) r v
      | Some e =>
          (∀ k' v', e = Conflict 0 k' v' → kv_view s !! EncodeRevisionKey k = Some v') ∧
          (kv_view s' = kv_view s ∨
           err_is e ErrUncertainResult = true ∧ err_is e ErrCASFailed = false ∧
           kv_view s !! EncodeRevisionKey k = None ∧
           kv_view s' = put_version (kv_view s) k (live_record r) r v)
      end) s.
Proof.
  intros Hinv Hnil. unfold create.
  set (ops := [PutIfNotExist _ _ _; Put _ _ _]).
  assert (batch_pre ops (kv_view s)) as Hpre by done.
  pose proof (kv_commit_spec ops s Hinv Hpre) as Hc.
  pose proof (λ k' v' s', kv_commit_conflict _ _ _ _ k' v' s s' Hinv Hpre) as Hconf.
  fold ops in Hconf. unfold wp in *. destruct (kv_commit ops s) as [[s' e]|]; [|done].
  destruct Hc as [Hinv' Hc]. split; [done|].
  assert (∀ m', batch_apply ops (kv_view s) = Some m' →
    kv_view s !! EncodeRevisionKey k = None ∧
    m' = put_version (kv_view s) k (live_record r) r v) as Happly.
  { simpl. intros m'. destruct (kv_view s !! EncodeRevisionKey k); [done|]. by intros [= <-]. }
  destruct e as [e|]; simpl in Hc; [|by apply Happly].
  split; [intros k' v' ->; by eapply Hconf|].
  destruct Hc as [|(? & ? & Hc)]; [by left|]. right. by apply Happly in Hc as [? ?].
Qed.

(** The compare-and-swap batch of creates over a tombstone, updates, deletes
    and retries. *)
Lemma wp_cas_put k v rec old r ttl s :
  kv_inv s → kv_view s !! EncodeRevisionKey k ≠ Some None →
  wp (kv_commit [CAS (EncodeRevisionKey k) rec old ttl; Put (EncodeObjectKey k r) v ttl])
    (λ e s', kv_inv s' ∧
      let applied := ∃ w, kv_view s !! EncodeRevisionKey k = Some w ∧
                          content w = content old ∧
                          kv_view s' = put_version (kv_view s) k rec r v in
      match e with
      | None => applied
      | Some e =>
          kv_view s' = kv_view s ∨
          err_is e ErrUncertainResult = true ∧ err_is e ErrCASFailed = false ∧ applied
      end) s.
Proof.
  intros Hinv Hnil. set (ops := [CAS _ _ _ _; Put _ _ _]).
  assert (batch_pre ops (kv_view s)) as Hpre by done.
  eapply wp_mono; [by apply (kv_commit_spec ops s Hinv Hpre)|].
  intros e s' [Hinv' Hc]. split; [done|].
  assert (batch_apply ops (kv_view s) = Some (kv_view s') →
    ∃ w, kv_view s !! EncodeRevisionKey k = Some w ∧ content w = content old ∧
         kv_view s' = put_version (kv_view s) k rec r v) as Happly.
  { simpl. destruct (kv_view s !! EncodeRevisionKey k) as [w|]; [|done].
    destruct (bytes_eqb (content w) (content old)) eqn:E; [|done].
    apply bytes_eqb_spec in E. intros [= Hv]. by exists w. }
  destruct e as [e|]; simpl in Hc; [|by apply Happly].
  destruct Hc as [|(? & ? & Hc)]; [by left|]. right. auto.
Qed.
End batches.

(** * Creating a key *)

(** The outcome of a create at revision [r]: applied only over a dead key. *)
Definition create_post (m : kvmap) (k : bytes) (r : Z) (v : slice) (e : option err) (m' : kvmap) : Prop :=
  match e with
  | None => dead m k ∧ m' = put_version m k (live_record r) r v
  | Some e =>
      m' = m ∨
      err_is e ErrUncertainResult = true ∧ err_is e ErrCASFailed = false ∧
      dead m k ∧ m' = put_version m k (live_record r) r v
  end.

Section create_spec.
Context {S : Type} `{KvSpec S}.

Lemma key_wf_none_dead m k : key_wf m k → m !! EncodeRevisionKey k = None → dead m k.
Proof. intros [|r v E|r E] Hn; [done | congruence..]. Qed.

Lemma wp_create_over k v r ttl old s :
  kv_inv s → key_wf (kv_view s) k → kv_view s !! EncodeRevisionKey k = Some old →
  wp (create_over k v r ttl old)
    (λ e s', kv_inv s' ∧ create_post (kv_view s) k r v e (kv_view s')) s.
Proof.
  intros Hinv Hwf Hold. unfold create_over.
  pose proof (key_wf_record _ _ Hwf) as Hnil.
  destruct Hwf as [E|q w E Hl|q E Hq Hd Hb]; rewrite E in Hold; simplify_eq.
  - assert (is_uint64 q) by (destruct Hl as (_ & ? & _);
      unfold is_uint64, max_uint64, two64 in *; lia).
    change (content (live_record q)) with (uint64ToBytes q).
    rewrite ParseRevision_live by done.
    apply wp_ret. split; [done | by left].
  - assert (is_uint64 q) by (unfold is_uint64, max_uint64, two64 in *; lia).
    change (content (dead_record q)) with (uint64ToBytes q ++ [Byte.x00]).
    rewrite ParseRevision_deleted by done. cbn [andb].
    destruct (q <? r); [|apply wp_ret; split; [done | by left]].
    unfold update. eapply wp_mono; [by apply wp_cas_put|].
    intros e s' [Hinv' Hc]. split; [done|]. unfold create_post.
    destruct e as [e|].
    + destruct Hc as [|(? & ? & w & ? & ? & ?)]; [by left | right; done].
    + destruct Hc as (w & ? & ? & ?). done.
Qed.

Lemma wp_create_reread k v r ttl s :
  kv_inv s → key_wf (kv_view s) k →
  wp (create_reread k v r ttl)
    (λ e s', kv_inv s' ∧ create_post (kv_view s) k r v e (kv_view s')) s.
Proof.
  intros Hinv Hwf. unfold create_reread. apply wp_bind.
  eapply wp_mono; [by apply kv_get_spec|]. simpl.
  intros [old gerr] s2 (Hinv2 & E2 & Hg). unfold get_post in Hg; simpl in Hg.
  destruct gerr as [ge|].
  - destruct (err_is ge ErrKeyNotFound); [|apply wp_ret; split; [done | by left]].
    pose proof (key_wf_record _ _ Hwf) as Hnil.
    eapply wp_mono; [apply wp_create; [done | by rewrite E2]|]. rewrite E2.
    intros e' s3 [Hinv3 He3]. split; [done|]. unfold create_post. destruct e' as [e'|].
    + destruct He3 as [_ [|(? & ? & ? & ?)]]; [by left | right].
      repeat split; try done. by apply key_wf_none_dead.
    + destruct He3. split; [by apply key_wf_none_dead | done].
  - rewrite <-E2. apply wp_create_over; [done | by rewrite E2 | congruence].
Qed.

Lemma wp_CreateWithTTL k v r ttl s :
  kv_inv s → key_wf (kv_view s) k →
  wp (CreateWithTTL k v r ttl)
    (λ e s', kv_inv s' ∧ create_post (kv_view s) k r v e (kv_view s')) s.
Proof.
  intros Hinv Hwf. unfold CreateWithTTL.
  pose proof (key_wf_record _ _ Hwf) as Hnil.
  apply wp_bind. eapply wp_mono; [by apply wp_create|].
  intros e s1 [Hinv1 He]. destruct e as [e|].
  2:{ apply wp_ret. destruct He as [He1 He2]. split; [done|]. split; [|done].
      by apply key_wf_none_dead. }
  destruct He as [Hconf He]. destruct (err_is e ErrCASFailed) eqn:Ecas.
  2:{ apply wp_ret. split; [done|].
      destruct He as [|(? & ? & ? & ?)]; [by left|]. right.
      repeat split; try done. by apply key_wf_none_dead. }
  assert (kv_view s1 = kv_view s) as E1
    by (destruct He as [|(_ & ? & _)]; [done | congruence]).
  rewrite <-E1 in *. destruct e; try by apply wp_create_reread.
  destruct idx; [|by apply wp_create_reread].
  apply wp_create_over; [done..|]. by eapply Hconf.
Qed.
End create_spec.

(** * On an engine without failures a create succeeds exactly over a dead key *)

Section create_reliable.
Context {S : Type} `{KvReliable S}.

Lemma wp_commit_reliable ops s :
  kv_inv s → batch_pre ops (kv_view s) →
  wp (kv_commit ops) (λ e s', kv_inv s' ∧
    match batch_apply ops (kv_view s) with
    | Some m' => e = None ∧ kv_view s' = m'
    | None => is_err e ErrCASFailed = true ∧ kv_view s' = kv_view s
    end) s.
Proof.
  intros Hinv Hpre. pose proof (kv_commit_spec ops s Hinv Hpre) as H2.
  pose proof (kv_commit_ok ops s Hinv Hpre) as H3. unfold wp in *.
  destruct (kv_commit ops s) as [[s' e]|]; [|done]. destruct H2 as [? Hc]. split; [done|].
  destruct (batch_apply ops (kv_view s)) as [m'|] eqn:E.
  - subst e. simpl in Hc. split; congruence.
  - destruct H3 as (i & k & v & [->|Ee]); [|rewrite Ee in *]; (split; [done|]);
      simpl in Hc; destruct Hc as [|(? & ? & ?)]; congruence.
Qed.

Lemma wp_create_over_reliable k v r ttl old s :
  kv_inv s → key_wf (kv_view s) k → key_below (kv_view s) k (r - 1) →
  kv_view s !! EncodeRevisionKey k = Some old →
  wp (create_over k v r ttl old) (λ e _,
    (dead (kv_view s) k → e = None) ∧
    (¬ dead (kv_view s) k → is_err e ErrCASFailed = true)) s.
Proof.
  intros Hinv Hwf Hbelow Hold. unfold create_over.
  pose proof (key_wf_record _ _ Hwf) as Hnil. pose proof (proj2 Hbelow) as Hrec.
  destruct Hwf as [E|q w E Hl Hw|q E Hq Hd Hb]; rewrite E in Hold; simplify_eq.
  - assert (is_uint64 q) by (destruct Hl as (_ & ? & _);
      unfold is_uint64, max_uint64, two64 in *; lia).
    change (content (live_record q)) with (uint64ToBytes q).
    rewrite ParseRevision_live by done. apply wp_ret. split; [|done].
    intros Hd. specialize (Hd _ _ Hl). congruence.
  - assert (is_uint64 q) by (unfold is_uint64, max_uint64, two64 in *; lia).
    change (content (dead_record q)) with (uint64ToBytes q ++ [Byte.x00]).
    rewrite ParseRevision_deleted by done. cbn [andb].
    specialize (Hrec q ltac:(lia) ltac:(by right)).
    destruct (Z.ltb_spec q r); [|lia]. unfold update.
    eapply wp_mono; [by apply wp_commit_reliable|].
    intros e s' [_ He]. simpl in He. rewrite E, bytes_eqb_refl in He.
    destruct He as [-> _]. split; [done | by intros []].
Qed.

Lemma wp_CreateWithTTL_reliable k v r ttl s :
  kv_inv s → key_wf (kv_view s) k → key_below (kv_view s) k (r - 1) →
  wp (CreateWithTTL k v r ttl) (λ e _,
    (dead (kv_view s) k → e = None) ∧
    (¬ dead (kv_view s) k → is_err e ErrCASFailed = true)) s.
Proof.
  intros Hinv Hwf Hbelow. unfold CreateWithTTL, create.
  set (ops := [PutIfNotExist _ _ _; Put _ _ _]).
  pose proof (key_wf_record _ _ Hwf) as Hnil.
  assert (batch_pre ops (kv_view s)) as Hpre by done.
  pose proof (wp_commit_reliable ops s Hinv Hpre) as Hc.
  pose proof (λ k' v' s', kv_commit_conflict _ _ _ _ k' v' s s' Hinv Hpre) as Hconf.
  fold ops in Hconf. apply wp_bind. unfold wp at 1. unfold wp at 1 in Hc.
  destruct (kv_commit ops s) as [[s1 e]|]; [|done]. destruct Hc as [Hinv1 Hc].
  simpl in Hc. destruct (kv_view s !! EncodeRevisionKey k) as [old|] eqn:Eold.
  - destruct Hc as [Hcas Ev]. destruct e as [e|]; [|done]. simpl in Hcas. rewrite Hcas.
    rewrite <-Ev in *.
    assert (wp (create_reread k v r ttl) (λ e _,
      (dead (kv_view s1) k → e = None) ∧
      (¬ dead (kv_view s1) k → is_err e ErrCASFailed = true)) s1) as Hre.
    { unfold create_reread. apply wp_bind.
      pose proof (kv_get_spec (EncodeRevisionKey k) s1 Hinv1) as Hg.
      pose proof (kv_get_ok (EncodeRevisionKey k) s1 Hinv1) as Hg'.
      unfold wp at 1. unfold wp in Hg, Hg'.
      destruct (kv_get _ s1) as [[s2 [old' ge]]|]; [|done].
      destruct Hg as (? & E2 & Hg). rewrite Eold in Hg'. simpl in *. subst ge.
      unfold get_post in Hg; simpl in Hg. rewrite <-E2 in *. by apply wp_create_over_reliable. }
    destruct e; try exact Hre. destruct idx; [|exact Hre].
    apply wp_create_over_reliable; [done..|]. rewrite Eold. by eapply Hconf.
  - destruct Hc as [-> _]. apply wp_ret. split; [done|].
    intros Hd. destruct Hd. by apply key_wf_none_dead.
Qed.
End create_reliable.
