(* ===== verification/Scanner.v ===== *)
(** The range and compaction scanner: pkg/backend/scanner (scanner.go,
    receiver.go, compact.go).

    This file holds the definitions; ScanSpec.v and Compaction.v the theorems
    about reads and about compaction.

    A worker's state is the engine, the key whose compaction failed last, its
    result receiver, the messages it has put on the response stream, and the
    answers that the coming polls of [ctx.Done()] will give (no more answers:
    never cancelled).  [wait.ExponentialBackoff] of k8s.io/apimachinery is the
    parameter [Backoff].  Workers share only the engine; they are run one after
    the other.  No engine under src/ implements [ExclusiveKvStorage], so the
    scanner's store is the engine itself. *)

From S2P Require Import Prelude GoMonad Storage Coder Proto.

(** * Result receivers (receiver.go) *)

Inductive resultReceiver :=
  | emptyResultReceiver
  | commonResultReceiver (result : list KeyValue) (limit : Z)
  | streamResultReceiver (readRev : Z) (batch : list KeyValue).

Definition rangeStreamBatch : Z := 300.

Definition isLimited (limit : Z) : bool := 0 <? limit.

Definition needMore (r : resultReceiver) : bool :=
  match r with
  | commonResultReceiver result limit =>
      if isLimited limit then Z.of_nat (length result) <? limit else true
  | _ => true
  end.

Definition stream_msg (readRev : Z) (batch : list KeyValue) : StreamRangeResponse :=
  mkStreamRangeResponse (mkRangeResponse readRev batch true) None.

(** [append] and [flush] also return what they send on the stream. *)
Definition rcv_append (kv : KeyValue) (r : resultReceiver)
    : resultReceiver * list StreamRangeResponse :=
  match r with
  | emptyResultReceiver => (r, [])
  | commonResultReceiver result limit => (commonResultReceiver (result ++ [kv]) limit, [])
  | streamResultReceiver readRev batch =>
      let batch := batch ++ [kv] in
      if rangeStreamBatch <=? Z.of_nat (length batch)
      then (streamResultReceiver readRev [], [stream_msg readRev batch])
      else (streamResultReceiver readRev batch, [])
  end.

Definition rcv_flush (r : resultReceiver) : resultReceiver * list StreamRangeResponse :=
  match r with
  | streamResultReceiver readRev batch =>
      match batch with
      | [] => (r, [])
      | _ => (streamResultReceiver readRev [], [stream_msg readRev batch])
      end
  | _ => (r, [])
  end.

(** [streamResultReceiver.close] flushes, the others do nothing. *)
Definition rcv_close (r : resultReceiver) : resultReceiver * list StreamRangeResponse :=
  rcv_flush r.

Definition rcv_reset (r : resultReceiver) : resultReceiver :=
  match r with
  | emptyResultReceiver => r
  | commonResultReceiver _ limit => commonResultReceiver [] limit
  | streamResultReceiver readRev _ => streamResultReceiver readRev []
  end.

(** The fork of a stream receiver has the zero read revision. *)
Definition rcv_fork (r : resultReceiver) : resultReceiver :=
  match r with
  | emptyResultReceiver => emptyResultReceiver
  | commonResultReceiver _ limit => commonResultReceiver [] limit
  | streamResultReceiver _ _ => streamResultReceiver 0 []
  end.

(** [merge]: a failed type assertion or a negative slice bound panics. *)
Definition rcv_merge (c sub : resultReceiver) : option resultReceiver :=
  match c with
  | commonResultReceiver result limit =>
      match sub with
      | commonResultReceiver subResult _ =>
          if negb (isLimited limit) ||
             (Z.of_nat (length result) + Z.of_nat (length subResult) <=? limit)
          then Some (commonResultReceiver (result ++ subResult) limit)
          else
            let n := limit - Z.of_nat (length result) in
            if n <? 0 then None
            else Some (commonResultReceiver (result ++ take (Z.to_nat n) subResult) limit)
      | _ => None
      end
  | _ => Some c
  end.

(** * Compact histories (compact.go) *)

Record compactRecord := mkCompactRecord { cr_revision : Z; cr_time : Z }.

Definition push (cr : compactRecord) (l : list compactRecord) : list compactRecord := l ++ [cr].

(** * Workers *)

Record Config := mkConfig { CompactKey : bytes; Tombstone : bytes; TTL : Z }.

Record workerConfig := mkWorkerConfig {
  partition : Partition;
  w_tso : Z;
  w_revision : Z;
  w_tombstone : bytes;
  w_compact : bool;
  timeoutRevision : Z;
}.

Definition revisionValueLengthWithDeletionFlag : nat := 9.
Definition scanBackoffSteps : nat := 3.

(** The variables of the loop of [run]. *)
Record loopVars := mkLoopVars {
  prevUserKey : bytes;
  prevRevision : Z;
  prevValue : slice;
  lv_count : Z;
  lv_err : option err;
}.

Definition set_lv_err (e : option err) (v : loopVars) : loopVars :=
  mkLoopVars (prevUserKey v) (prevRevision v) (prevValue v) (lv_count v) e.

(** [wait.ExponentialBackoff(Backoff{Steps: n}, cond)]: checks the condition up
    to [n] times until it holds or fails. *)
Class Backoff := {
  ExponentialBackoff {T : Type} : nat → GoM T (bool * option err) → GoM T (option err);
  ExponentialBackoff_0 {T} (cond : GoM T (bool * option err)) s :
    ExponentialBackoff 0 cond s = Some (s, Some ErrWaitTimeout);
  ExponentialBackoff_S {T} n (cond : GoM T (bool * option err)) s :
    ExponentialBackoff (Datatypes.S n) cond s =
    ('(ok, e) ← cond;
     match e, ok with
     | Some _, _ => mret e
     | None, true => mret None
     | None, false => ExponentialBackoff n cond
     end) s;
}.

Section worker.
Context {S : Type} `{KvStorage S}.

Record wstate := mkWstate {
  w_store : S;
  lastCompactFailedRawKey : bytes;
  w_receiver : resultReceiver;
  w_stream : list StreamRangeResponse;
  w_ctx : list bool;
}.

Definition w_set_store (s : S) (w : wstate) : wstate :=
  mkWstate s (lastCompactFailedRawKey w) (w_receiver w) (w_stream w) (w_ctx w).

Definition w_set_failed (k : bytes) (w : wstate) : wstate :=
  mkWstate (w_store w) k (w_receiver w) (w_stream w) (w_ctx w).

Definition w_set_receiver (r : resultReceiver * list StreamRangeResponse) (w : wstate) : wstate :=
  mkWstate (w_store w) (lastCompactFailedRawKey w) r.1 (w_stream w ++ r.2) (w_ctx w).

Definition on_store {A} (m : GoM S A) : GoM wstate A := zoom w_store w_set_store m.

(** [select { case <-ctx.Done(): ... default: }] *)
Definition ctxDone : GoM wstate bool := λ w,
  match w_ctx w with
  | [] => Some (w, false)
  | b :: l =>
      Some (mkWstate (w_store w) (lastCompactFailedRawKey w) (w_receiver w) (w_stream w) l, b)
  end.

Definition isSkippedRawKey (rawKey : bytes) (w : wstate) : bool :=
  match lastCompactFailedRawKey w with
  | [] => false
  | failed => bytes_eqb failed rawKey
  end.

Definition updateSkippedRawKey (rawKey : bytes) (e : err) (w : wstate) : wstate :=
  if negb (err_is e ErrCASFailed) then w_set_failed rawKey w else w.

(** The common shape of [compactCurrent] and [compactKey]. *)
Definition compact_with (del : GoM S (option err)) (rawKey : bytes) : GoM wstate (option err) :=
  skipped ← gets (isSkippedRawKey rawKey);
  if (skipped : bool) then mret None
  else
    e ← on_store del;
    match e with
    | Some e' => modify (updateSkippedRawKey rawKey e') ;; mret e
    | None => mret e
    end.

Definition compactCurrent (it : kvitem) (rawKey : bytes) : GoM wstate (option err) :=
  compact_with (kv_del_current it) rawKey.

Definition compactKey (key rawKey : bytes) : GoM wstate (option err) :=
  compact_with (kv_del key) rawKey.

Definition compactIfExpired (c : workerConfig) (it : kvitem) (rawKey : bytes) (revision : Z)
    (value : slice) : GoM wstate (bool * option err) :=
  if kv_support_ttl || (timeoutRevision c =? 0) then mret (false, None)
  else if contains rawKey (str "/events/") then
    if revision =? 0 then
      rev ← lift_opt (Uint64 (content value));
      if rev <=? timeoutRevision c then
        e ← compactCurrent it rawKey; mret (true, e)
      else mret (false, None)
    else if revision <=? timeoutRevision c then
      e ← compactKey (it_key it) rawKey; mret (true, e)
    else mret (false, None)
  else mret (false, None).

(** [if prevRevision > 0 && !bytes.Equal(prevValue, w.tombstone)] *)
Definition prev_live (c : workerConfig) (v : loopVars) : bool :=
  (0 <? prevRevision v) && negb (bytes_eqb (content (prevValue v)) (w_tombstone c)).

Definition receive (v : loopVars) : GoM wstate () :=
  modify (λ w, w_set_receiver
    (rcv_append (mkKV (prevUserKey v) (prevValue v) (prevRevision v)) (w_receiver w)) w).

(** What is done with the previous item when the current one is reached. *)
Definition run_prev (c : workerConfig) (curUserKey : bytes) (v : loopVars)
    : GoM wstate loopVars :=
  if negb (bytes_eqb curUserKey (prevUserKey v)) then
    if prev_live c v then
      receive v ;;
      mret (mkLoopVars (prevUserKey v) (prevRevision v) (prevValue v) (lv_count v + 1) (lv_err v))
    else mret v
  else if w_compact c && (0 <? prevRevision v) then
    compactKey (EncodeObjectKey (prevUserKey v) (prevRevision v)) (prevUserKey v) ;; mret v
  else mret v.

(** The compaction of the current item; [true] is the early [continue]. *)
Definition run_compact (c : workerConfig) (it : kvitem) (curUserKey : bytes) (curRevision : Z)
    : GoM wstate bool :=
  let value := content (it_val it) in
  (if w_compact c && bytes_eqb value (w_tombstone c)
   then compactKey (it_key it) curUserKey ;; mret () else mret ()) ;;
  if w_compact c && (curRevision =? 0) &&
     bool_decide (length value = revisionValueLengthWithDeletionFlag) then
    objRev ← lift_opt (Uint64 value);
    if w_revision c <? objRev then mret true
    else compactCurrent it curUserKey ;; mret false
  else mret false.

(** The body of the loop, after [it.Next]. *)
Definition run_item (c : workerConfig) (it : kvitem) (v : loopVars) : GoM wstate loopVars :=
  '(curUserKey, curRevision, derr) ← lift_opt (Decode (it_key it));
  let v := set_lv_err derr v in
  match derr with
  | Some _ => mret v
  | None =>
      '(expired, _) ← compactIfExpired c it curUserKey curRevision (it_val it);
      if (expired : bool) then mret v
      else if w_revision c <? curRevision then mret v
      else
        v ← run_prev c curUserKey v;
        skip ← run_compact c it curUserKey curRevision;
        if (skip : bool) then mret v
        else mret (mkLoopVars curUserKey curRevision (it_val it) (lv_count v) (lv_err v))
  end.

(** The loop: [inl] when it is left with [err], [inr] when [run] returns in it. *)
Fixpoint run_loop (c : workerConfig) (items : list kvitem) (end_ : err) (v : loopVars)
    : GoM wstate (loopVars + err) :=
  more ← gets (λ w, needMore (w_receiver w));
  if negb more then mret (inl v)
  else
    done ← ctxDone;
    if (done : bool) then mret (inr (Errorf "worker run context canceled"))
    else
      match items with
      | [] => mret (inl (set_lv_err (Some end_) v))
      | it :: items' => v' ← run_item c it v; run_loop c items' end_ v'
      end.

(** After the loop. *)
Definition run_finish (c : workerConfig) (v : loopVars) : GoM wstate (Z * option err) :=
  if negb (err_eq (lv_err v) EOF) then mret (0, lv_err v)
  else
    more ← gets (λ w, needMore (w_receiver w));
    count ← (if prev_live c v && more
             then receive v ;; mret (lv_count v + 1) else mret (lv_count v));
    modify (λ w, w_set_receiver (rcv_flush (w_receiver w)) w) ;;
    mret (count, None).

Definition run (c : workerConfig) : GoM wstate (Z * option err) :=
  r ← on_store (kv_iter (Start (partition c)) (End (partition c)) (w_tso c) 0);
  match r with
  | inl e => mret (0, Some e)
  | inr it =>
      modify (λ w, w_set_receiver (rcv_reset (w_receiver w), []) w) ;;
      l ← run_loop c (it_items it) (it_end it) (mkLoopVars [] 0 None 0 None);
      match l with
      | inr e => mret (0, Some e)
      | inl v => run_finish c v
      end
  end.

(** [runWithBackoffRetry]: the closure captures [count] and [scanErr]. *)
Definition retry_cond (c : workerConfig) : GoM (wstate * (Z * option err)) (bool * option err) :=
  done ← zoom fst (λ w st, (w, st.2)) ctxDone;
  if (done : bool) then mret (false, Some (Errorf "context canceled"))
  else
    res ← zoom fst (λ w st, (w, st.2)) (run c);
    modify (λ st, (st.1, res)) ;;
    match res.2 with
    | None => mret (true, None)
    | Some _ => mret (false, None)
    end.

Definition runWithBackoffRetry `{Backoff} (c : workerConfig) : GoM wstate (Z * option err) := λ w,
  match ExponentialBackoff scanBackoffSteps (retry_cond c) (w, (0, None)) with
  | None => None
  | Some ((w', (count, scanErr)), e) =>
      let e := match e with
               | Some ErrWaitTimeout => Some (Errorf "reached the max retry time")
               | _ => e
               end in
      Some (w', (count, e))
  end.
End worker.

Arguments wstate : clear implicits.

(** * The scanner *)

Definition partition_le (p q : Partition) : Prop := bytes_le (Start p) (Start q).

#[global] Instance partition_le_dec : RelDecision partition_le.
Proof. intros p q. unfold partition_le. apply _. Defined.

(** The walk of [adjustPartitionsBorders] over the sorted partitions; [prevEnd]
    is the adjusted end of the partition before ([None] for the first). *)
Fixpoint adjust_walk (prevEnd : option bytes) (ps : list Partition) : option (list Partition) :=
  match ps with
  | [] => Some []
  | p :: ps' =>
      let start := default (Start p) prevEnd in
      match ps' with
      | [] => Some [mkPartition start (End p)]
      | _ =>
          match Decode (End p) with
          | None => None
          | Some (userKey, revision, e) =>
              let end_ := match e with
                          | None => if negb (revision =? 0) then EncodeRevisionKey userKey else End p
                          | Some _ => End p
                          end in
              match adjust_walk (Some end_) ps' with
              | Some rest => Some (mkPartition start end_ :: rest)
              | None => None
              end
          end
      end
  end.

Definition adjustPartitionsBorders (ps : list Partition) : option (list Partition) :=
  adjust_walk None (merge_sort partition_le ps).

(** The fold that joins the workers: the first error, or the merged receiver. *)
Fixpoint first_err (l : list (option err)) : option err :=
  match l with
  | [] => None
  | Some e :: _ => Some e
  | None :: l' => first_err l'
  end.

Fixpoint merge_all (r : resultReceiver) (forked : list resultReceiver) : option resultReceiver :=
  match forked with
  | [] => Some r
  | f :: forked' => match rcv_merge r f with Some r' => merge_all r' forked' | None => None end
  end.

Definition getListStreamEnd (revision : Z) (e : option err) : StreamRangeResponse :=
  mkStreamRangeResponse (mkRangeResponse revision [] false) e.

Section scanner.
Context {S : Type} `{KvStorage S} `{Backoff}.

Record scanner := mkScanner {
  sc_store : S;
  compactHistories : list compactRecord;
}.

Definition sc_on_store {A} (m : GoM S A) : GoM scanner A :=
  zoom sc_store (λ s sc, mkScanner s (compactHistories sc)) m.

Definition logCompactHistory (now revision : Z) : GoM scanner () :=
  modify (λ sc, mkScanner (sc_store sc) (push (mkCompactRecord revision now) (compactHistories sc))).

(** The loop of [getTimeoutRevision]: records at least [ttl] old are popped,
    the revision of the last of them is returned. *)
Fixpoint timeout_walk (now ttl prev : Z) (l : list compactRecord) : Z * list compactRecord :=
  match l with
  | [] => (prev, [])
  | cr :: l' =>
      if now - cr_time cr <? ttl then (prev, l) else timeout_walk now ttl (cr_revision cr) l'
  end.

Definition getTimeoutRevision (cfg : Config) (now : Z) : GoM scanner Z := λ sc,
  if kv_support_ttl then Some (sc, 0)
  else
    let '(rev, l) := timeout_walk now (TTL cfg) 0 (compactHistories sc) in
    Some (mkScanner (sc_store sc) l, rev).

Definition checkCompactRace (cfg : Config) (revision : Z) (compact : bool) : GoM S (option err) :=
  if compact then kv_commit [Put (CompactKey cfg) (Some (uint64ToBytes revision)) 0]
  else
    '(val, e) ← kv_get (CompactKey cfg);
    match e with
    | Some e => if bool_decide (e = ErrKeyNotFound) then mret None else mret (Some e)
    | None =>
        compactRevision ← lift_opt (Uint64 (content val));
        if revision <? compactRevision
        then mret (Some (Errorf "range stream revision less than compact revision"))
        else mret None
    end.

(** One worker of [scan]: its count, error, receiver and stream messages. *)
Definition scan_worker (c : workerConfig) (receiver : resultReceiver) (ctx : list bool)
    : GoM S (Z * option err * resultReceiver * list StreamRangeResponse) := λ s,
  match runWithBackoffRetry c (mkWstate s [] (rcv_fork receiver) [] ctx) with
  | None => None
  | Some (w, (count, e)) => Some (w_store w, (count, e, w_receiver w, w_stream w))
  end.

(** The workers of the partitions, here one after the other: each works on its own
    partition, and reads at the same timestamp and revision.  ScanProg runs them
    in any interleaving of their engine calls. *)
Fixpoint scan_workers (mk : Partition → workerConfig) (receiver : resultReceiver)
    (ctx : nat → list bool) (idx : nat) (ps : list Partition)
    : GoM S (list (Z * option err * resultReceiver * list StreamRangeResponse)) :=
  match ps with
  | [] => mret []
  | p :: ps' =>
      r ← scan_worker (mk p) receiver (ctx idx);
      rs ← scan_workers mk receiver ctx (Datatypes.S idx) ps';
      mret (r :: rs)
  end.

(** The result of a scan: count, error, the receiver after the merge, and the
    messages each worker sent. *)
Record scanResult := mkScanResult {
  sr_count : Z;
  sr_err : option err;
  sr_receiver : resultReceiver;
  sr_streams : list (list StreamRangeResponse);
}.

Definition scan (cfg : Config) (now : Z) (ctx : nat → list bool) (start end_ : bytes)
    (revision : Z) (compact : bool) (receiver : resultReceiver) : GoM scanner scanResult :=
  '(tso, e) ← sc_on_store kv_tso;
  match e with
  | Some _ => mret (mkScanResult 0 e receiver [])
  | None =>
      e ← sc_on_store (checkCompactRace cfg revision compact);
      match e with
      | Some _ => mret (mkScanResult 0 e receiver [])
      | None =>
          '(partitions, e) ← sc_on_store (kv_partitions start end_);
          match e with
          | Some _ => mret (mkScanResult 0 e receiver [])
          | None =>
              partitions ← lift_opt (adjustPartitionsBorders partitions);
              timeout ← (if compact then getTimeoutRevision cfg now else mret 0);
              rs ← sc_on_store (scan_workers
                (λ p, mkWorkerConfig p tso revision (Tombstone cfg) compact timeout)
                receiver ctx 0 partitions);
              let streams := (λ r, r.2) <$> rs in
              match first_err ((λ r, r.1.1.2) <$> rs) with
              | Some e => mret (mkScanResult 0 (Some e) receiver streams)
              | None =>
                  merged ← lift_opt (merge_all receiver ((λ r, r.1.2) <$> rs));
                  mret (mkScanResult (int64 (foldr Z.add 0 ((λ r, r.1.1.1) <$> rs))) None merged
                          ((λ r, r.2 ++ (rcv_close r.1.2).2) <$> rs))
              end
          end
      end
  end.

Definition rangeWithLimit (cfg : Config) (ctx : list bool) (start end_ : bytes)
    (revision limit : Z) : GoM scanner (list KeyValue * option err) :=
  '(tso, e) ← sc_on_store kv_tso;
  match e with
  | Some _ => mret ([], e)
  | None =>
      e ← sc_on_store (checkCompactRace cfg revision false);
      match e with
      | Some _ => mret ([], e)
      | None => λ sc,
          let c := mkWorkerConfig (mkPartition start end_) tso revision (Tombstone cfg) false 0 in
          match run c (mkWstate (sc_store sc) [] (commonResultReceiver [] limit) [] ctx) with
          | None => None
          | Some (w, (_, e)) =>
              Some (mkScanner (w_store w) (compactHistories sc),
                    match e, w_receiver w with
                    | None, commonResultReceiver result _ => (result, None)
                    | _, _ => ([], e)
                    end)
          end
      end
  end.

Definition Range (cfg : Config) (ctx : nat → list bool) (start end_ : bytes) (revision limit : Z)
    : GoM scanner (list KeyValue * option err) :=
  if 0 <? limit then rangeWithLimit cfg (ctx O) start end_ revision limit
  else
    r ← scan cfg 0 ctx start end_ revision false (commonResultReceiver [] 0);
    match sr_err r, sr_receiver r with
    | None, commonResultReceiver result _ => mret (result, None)
    | e, _ => mret ([], e)
    end.

Definition Count (cfg : Config) (ctx : nat → list bool) (start end_ : bytes) (revision : Z)
    : GoM scanner (Z * option err) :=
  r ← scan cfg 0 ctx start end_ revision false emptyResultReceiver;
  mret (sr_count r, sr_err r).

(** The messages of each worker, and the closing one.  The workers are goroutines
    that send on one channel, so that the client receives an [interleaving] of
    their messages; what is left in the batches of the receivers is sent after all
    workers, which is one of the orders this allows.  The closing message is sent
    when the scan has returned. *)
Definition RangeStream (cfg : Config) (ctx : nat → list bool) (start end_ : bytes) (revision : Z)
    : GoM scanner (list (list StreamRangeResponse) * StreamRangeResponse) :=
  r ← scan cfg 0 ctx start end_ revision false (streamResultReceiver revision []);
  mret (sr_streams r, getListStreamEnd revision (sr_err r)).

Definition Compact (cfg : Config) (now : Z) (ctx : nat → list bool) (start end_ : bytes)
    (revision : Z) : GoM scanner () :=
  logCompactHistory now revision ;;
  _ ← scan cfg now ctx start end_ revision true emptyResultReceiver;
  mret ().
End scanner.

Arguments scanner : clear implicits.
#[global] Arguments checkCompactRace : simpl never.
