(* ===== verification/ScanSpec.v ===== *)
(** What a scan returns: the correctness of the workers of pkg/backend/scanner
    on reads.

    [emits] is the sequence of key-values a worker hands to its receiver; it is
    related to the loop of [run] by [wp_run_rest] and to the versions visible at
    the read revision by [elem_of_emits]. *)

From S2P Require Import Prelude GoMonad Storage Coder Mvcc Proto Scanner.

(** * The items a worker looks at *)

Definition ver : Type := bytes * Z * slice.

(** The version an item holds, when it is not above the read revision. *)
Definition item_ver (R : Z) (it : kvitem) : option ver :=
  match Decode (it_key it) with
  | Some (k, r, None) => if r <=? R then Some (k, r, it_val it) else None
  | _ => None
  end.

Definition vers (R : Z) (items : list kvitem) : list ver := omap (item_ver R) items.

(** The key-value of a version, unless it is a revision record or a tombstone. *)
Definition live_of (tomb : bytes) (x : ver) : list KeyValue :=
  let '(k, r, v) := x in
  if (0 <? r) && negb (bytes_eqb (content v) tomb) then [mkKV k v r] else [].

Arguments live_of : simpl never.

Fixpoint emits (tomb : bytes) (prev : ver) (l : list ver) : list KeyValue :=
  match l with
  | [] => live_of tomb prev
  | x :: l' =>
      (if bytes_eqb x.1.1 prev.1.1 then [] else live_of tomb prev) ++ emits tomb x l'
  end.

Definition no_prev : ver := ([], 0, None).

Definition lv_prev (v : loopVars) : ver := (prevUserKey v, prevRevision v, prevValue v).

(** * Feeding a receiver *)

Definition rstate : Type := resultReceiver * list StreamRangeResponse.

Definition feed1 (st : rstate) (kv : KeyValue) : rstate :=
  if needMore st.1 then ((rcv_append kv st.1).1, st.2 ++ (rcv_append kv st.1).2) else st.

Definition feed (l : list KeyValue) (st : rstate) : rstate := foldl feed1 st l.

Definition flushed (st : rstate) : rstate :=
  ((rcv_flush st.1).1, st.2 ++ (rcv_flush st.1).2).

Lemma feed_app l k st : feed (l ++ k) st = feed k (feed l st).
Proof. apply foldl_app. Qed.

Lemma feed_stuck l st : needMore st.1 = false → feed l st = st.
Proof.
  intros E. induction l as [|x l IH]; [done|]. unfold feed in *. simpl.
  by replace (feed1 st x) with st by (unfold feed1; by rewrite E).
Qed.

Lemma flushed_stuck st : needMore st.1 = false → flushed st = st.
Proof. destruct st as [[| |] out]; simpl; [done| |done]. unfold flushed; simpl. by rewrite app_nil_r. Qed.

(** A receiver that takes everything. *)
Definition unlimited (r : resultReceiver) : Prop :=
  match r with commonResultReceiver _ limit => isLimited limit = false | _ => True end.

Lemma unlimited_needMore r : unlimited r → needMore r = true.
Proof. destruct r; simpl; [done|by intros ->|done]. Qed.

Lemma unlimited_append kv r : unlimited r → unlimited (rcv_append kv r).1.
Proof. destruct r; simpl; [done..|]. by destruct (_ <=? _). Qed.

Lemma unlimited_feed l st : unlimited st.1 → unlimited (feed l st).1.
Proof.
  revert st. induction l as [|x l IH]; intros st Hu; [done|]. apply IH.
  unfold feed1. rewrite unlimited_needMore by done. by apply unlimited_append.
Qed.

Lemma reset_append kv r : rcv_reset (rcv_append kv r).1 = rcv_reset r.
Proof. destruct r; simpl; [done..|]. by destruct (_ <=? _). Qed.

Lemma reset_flush r : rcv_reset (rcv_flush r).1 = rcv_reset r.
Proof. destruct r as [| |rr []]; done. Qed.

Lemma reset_feed l st : rcv_reset (feed l st).1 = rcv_reset st.1.
Proof.
  revert st. induction l as [|x l IH]; intros st; [done|].
  change (rcv_reset (feed l (feed1 st x)).1 = rcv_reset st.1). rewrite IH. unfold feed1.
  destruct (needMore st.1); [apply reset_append | done].
Qed.

(** * The loop of a read worker *)

Section read_worker.
Context {S : Type} `{KvStorage S}.
Context (c : workerConfig).
Hypothesis (Hcompact : w_compact c = false) (Htimeout : timeoutRevision c = 0).

Definition run_rest (items : list kvitem) (end_ : err) (v : loopVars)
    : GoM (wstate S) (Z * option err) :=
  l ← run_loop c items end_ v;
  match l with
  | inr e => mret (0, Some e)
  | inl v => run_finish c v
  end.

Definition wst_rcv (w : wstate S) : rstate := (w_receiver w, w_stream w).

Lemma wp_compactIfExpired_read it k r v (Q : bool * option err → wstate S → Prop) w :
  Q (false, None) w → wp (compactIfExpired c it k r v) Q w.
Proof using Htimeout.
  intros HQ. unfold compactIfExpired. rewrite Htimeout, orb_true_r. by apply wp_ret.
Qed.

Lemma wp_run_prev_read k v (Q : loopVars → wstate S → Prop) w :
  (∀ w', w_store w' = w_store w → w_ctx w' = w_ctx w →
     let l := if bytes_eqb k (prevUserKey v) then [] else live_of (w_tombstone c) (lv_prev v) in
     wst_rcv w' = ((λ st, foldl (λ st kv, ((rcv_append kv st.1).1, st.2 ++ (rcv_append kv st.1).2)) st l)
                    (wst_rcv w)) →
     Q (mkLoopVars (prevUserKey v) (prevRevision v) (prevValue v)
          (lv_count v + Z.of_nat (length l)) (lv_err v)) w') →
  wp (run_prev c k v) Q w.
Proof using Hcompact.
  intros HQ. unfold run_prev. rewrite Hcompact. destruct v as [pk pr pv cnt e]. simpl in *.
  destruct (bytes_eqb k pk) eqn:Ek; simpl in *.
  { apply wp_ret. rewrite Z.add_0_r in HQ. by apply HQ. }
  unfold prev_live, live_of, lv_prev in *; simpl in *.
  destruct ((0 <? pr) && negb (bytes_eqb (content pv) (w_tombstone c))) eqn:El; simpl in *.
  - unfold receive. wp_steps. by apply (HQ (w_set_receiver _ w)).
  - apply wp_ret. rewrite Z.add_0_r in HQ. by apply HQ.
Qed.

Lemma wp_ctxDone (Q : bool → wstate S → Prop) w :
  (∀ b w', w_store w' = w_store w → wst_rcv w' = wst_rcv w → (w_ctx w = [] → b = false ∧ w_ctx w' = []) →
     lastCompactFailedRawKey w' = lastCompactFailedRawKey w → Q b w') → wp ctxDone Q w.
Proof.
  intros HQ. unfold ctxDone, wp. destruct (w_ctx w) as [|b l] eqn:E; by apply HQ.
Qed.

Lemma wp_run_finish_stuck v (w : wstate S) :
  needMore (w_receiver w) = false →
  wp (run_finish c v) (λ r w', w' = w ∧ (r.2 = None → lv_err v = None ∨ lv_err v = Some EOF) ∧
                               (lv_err v = None → r.2 = None)) w.
Proof.
  intros Hm. unfold run_finish, err_eq. case_bool_decide as E; simpl.
  - wp_steps. rewrite Hm, andb_false_r. wp_steps. split; [|rewrite E; auto].
    pose proof (flushed_stuck (wst_rcv w) Hm) as Hf. unfold flushed, wst_rcv in Hf. simpl in Hf.
    destruct w. unfold w_set_receiver; simpl in *. injection Hf as -> Hf. by rewrite Hf.
  - wp_steps. auto.
Qed.

(** One item: the previous one is handed over when the key changes. *)
Lemma wp_run_item_read it v w :
  is_Some (Decode (it_key it)) → needMore (w_receiver w) = true →
  wp (run_item c it v) (λ v' w',
    w_store w' = w_store w ∧ w_ctx w' = w_ctx w ∧
    match item_ver (w_revision c) it with
    | None => lv_prev v' = lv_prev v ∧ lv_count v' = lv_count v ∧ w_receiver w' = w_receiver w ∧
              w_stream w' = w_stream w
    | Some x =>
        let l := if bytes_eqb x.1.1 (prevUserKey v) then [] else live_of (w_tombstone c) (lv_prev v) in
        lv_prev v' = x ∧ lv_count v' = lv_count v + Z.of_nat (length l) ∧
        wst_rcv w' = feed l (wst_rcv w) ∧ lv_err v' = None
    end) w.
Proof using Hcompact Htimeout.
  intros [[[k r] de] Hd] Hmore. unfold run_item, item_ver. rewrite Hd.
  apply wp_bind. eapply wp_lift_opt; [done|].
  destruct de as [de|]; [by apply wp_ret|].
  apply wp_bind. apply wp_compactIfExpired_read. simpl.
  rewrite (Z.ltb_antisym r (w_revision c)). destruct (r <=? w_revision c); simpl; [|by apply wp_ret].
  apply wp_bind, wp_run_prev_read. intros w' Hs Hctx l Hrcv. subst l.
  unfold run_compact. rewrite Hcompact. wp_steps. repeat split; try done.
  revert Hrcv. simpl. change (prevUserKey (set_lv_err None v)) with (prevUserKey v).
  change (lv_prev (set_lv_err None v)) with (lv_prev v).
  destruct (if bytes_eqb k (prevUserKey v) then [] else live_of (w_tombstone c) (lv_prev v))
    as [|x [|y l]] eqn:El.
  - done.
  - intros ->. unfold feed; simpl. unfold feed1. simpl. by rewrite Hmore.
  - exfalso. revert El. destruct (bytes_eqb _ _); [done|]. unfold live_of, lv_prev.
    by destruct (_ && _).
Qed.

(** What [run] has done, from the middle of its loop on. *)
Definition rest_post (items : list kvitem) (end_ : err) (v : loopVars) (w : wstate S)
    (r : Z * option err) (w' : wstate S) : Prop :=
  w_store w' = w_store w ∧ rcv_reset (w_receiver w') = rcv_reset (w_receiver w) ∧
  (r.2 = None → ∀ full, items `prefix_of` full → (end_ = EOF → items = full) →
    wst_rcv w' =
    flushed (feed (emits (w_tombstone c) (lv_prev v) (vers (w_revision c) full)) (wst_rcv w))) ∧
  (r.2 = None → unlimited (w_receiver w) → end_ = EOF ∧
    r.1 = lv_count v + Z.of_nat (length (emits (w_tombstone c) (lv_prev v)
                                           (vers (w_revision c) items)))) ∧
  (end_ = EOF → w_ctx w = [] → (needMore (w_receiver w) = false → lv_err v = None) →
    r.2 = None).

Lemma rest_post_stuck items end_ v w :
  needMore (w_receiver w) = false → wp (run_finish c v) (rest_post items end_ v w) w.
Proof.
  intros Hm. eapply wp_mono; [by apply wp_run_finish_stuck|].
  intros r w' (-> & He & He'). do 2 (split; [done|]). split; [|split].
  - intros _ full _ _. rewrite feed_stuck by done. by rewrite flushed_stuck.
  - intros _ Hu. apply unlimited_needMore in Hu. congruence.
  - auto.
Qed.

(** The iterator is at its end. *)
Lemma rest_post_end end_ v w0 w :
  needMore (w_receiver w) = true → w_store w = w_store w0 → wst_rcv w = wst_rcv w0 →
  wp (run_finish c (set_lv_err (Some end_) v)) (rest_post [] end_ v w0) w.
Proof.
  intros Hm Hs Hr. unfold run_finish, err_eq; simpl.
  assert (needMore (wst_rcv w0).1 = true) as Hm0 by by rewrite <-Hr.
  assert (rcv_reset (w_receiver w) = rcv_reset (w_receiver w0)) as Hreset
    by (change (rcv_reset (wst_rcv w).1 = rcv_reset (wst_rcv w0).1); by rewrite Hr).
  case_bool_decide as E; simpl.
  2:{ wp_steps. repeat (split; [done|]). intros ->. done. }
  injection E as ->. wp_steps. rewrite Hm, andb_true_r.
  change (prev_live c (set_lv_err (Some EOF) v)) with (prev_live c v).
  assert (live_of (w_tombstone c) (lv_prev v) =
    if prev_live c v then [mkKV (prevUserKey v) (prevValue v) (prevRevision v)] else []) as El
    by done.
  destruct (prev_live c v) eqn:Ep; unfold receive; wp_steps.
  all: split; [done|]; split; [cbn [w_receiver w_set_receiver fst]; by rewrite reset_flush, ?reset_append|].
  all: split; [|split; [|done]]; intros _.
  - intros full _ Hfull. rewrite <-Hfull by done. cbn [emits vers omap list_omap]. rewrite El, <-Hr.
    unfold feed; simpl. unfold feed1; simpl. by rewrite Hm.
  - intros _. split; [done|]. cbn [emits vers omap list_omap]. rewrite El. simpl. lia.
  - intros full _ Hfull. rewrite <-Hfull by done. cbn [emits vers omap list_omap]. by rewrite El, <-Hr.
  - intros _. split; [done|]. cbn [emits vers omap list_omap]. rewrite El. simpl. lia.
Qed.

Lemma rest_post_item it items end_ v v' w w1 w2 r w' :
  needMore (w_receiver w) = true →
  w_store w1 = w_store w → wst_rcv w1 = wst_rcv w → (w_ctx w = [] → w_ctx w1 = []) →
  w_store w2 = w_store w1 → w_ctx w2 = w_ctx w1 →
  match item_ver (w_revision c) it with
  | None => lv_prev v' = lv_prev v ∧ lv_count v' = lv_count v ∧ wst_rcv w2 = wst_rcv w1
  | Some x =>
      let l := if bytes_eqb x.1.1 (prevUserKey v) then [] else live_of (w_tombstone c) (lv_prev v) in
      lv_prev v' = x ∧ lv_count v' = lv_count v + Z.of_nat (length l) ∧
      wst_rcv w2 = feed l (wst_rcv w1) ∧ lv_err v' = None
  end →
  rest_post items end_ v' w2 r w' → rest_post (it :: items) end_ v w r w'.
Proof.
  intros Hm Hs1 Hr1 Hc1 Hs2 Hc2 Hx (Hs & Hreset & Hfeed & Hcount & Hok).
  assert (vers (w_revision c) (it :: items) =
    match item_ver (w_revision c) it with Some x => [x] | None => [] end
      ++ vers (w_revision c) items) as Ev.
  { unfold vers; simpl. by destruct (item_ver _ it). }
  assert (∃ l, wst_rcv w2 = feed l (wst_rcv w)) as [l0 Hl0].
  { rewrite <-Hr1. destruct (item_ver _ it) as [x|]; [|by exists []; apply Hx].
    eexists. apply Hx. }
  split; [congruence|]. split.
  { rewrite Hreset. change (w_receiver w2) with (wst_rcv w2).1. by rewrite Hl0, reset_feed. }
  split; [|split].
  - intros He full [k ->] Hend. specialize (Hfeed He (items ++ k)).
    rewrite Hfeed; [|by exists k|intros E; specialize (Hend E); simpl in Hend; by simplify_eq/=].
    change ((it :: items) ++ k) with (it :: (items ++ k)). unfold vers; simpl.
    destruct (item_ver _ it) as [x|].
    + destruct Hx as (<- & _ & -> & _). rewrite <-Hr1. simpl. by rewrite feed_app.
    + destruct Hx as (-> & _ & ->). by rewrite <-Hr1.
  - intros He Hu. rewrite Ev. destruct (item_ver _ it) as [x|].
    + destruct Hx as (<- & Hcnt & _). destruct Hcount as [-> ->]; [done| |split; [done|]].
      { change (w_receiver w2) with (wst_rcv w2).1. rewrite Hl0. by apply unlimited_feed. }
      cbn [app emits]. change (lv_prev v).1.1 with (prevUserKey v).
      rewrite length_app, Hcnt. lia.
    + destruct Hx as (<- & <- & Hr). apply Hcount; [done|].
      change (w_receiver w2) with (wst_rcv w2).1. by rewrite Hr, Hr1.
  - intros He Hctx Hnone. apply Hok; [done | rewrite Hc2; auto |]. intros Hm2.
    destruct (item_ver _ it) as [x|]; [by destruct Hx as (_ & _ & _ & ?)|].
    destruct Hx as (_ & _ & Hr). change (w_receiver w2) with (wst_rcv w2).1 in Hm2.
    rewrite Hr, Hr1 in Hm2. simpl in Hm2. congruence.
Qed.

(** The whole of [run] after the iterator is open. *)
Lemma wp_run_rest items end_ v w :
  Forall (λ it, is_Some (Decode (it_key it))) items →
  wp (run_rest items end_ v) (rest_post items end_ v w) w.
Proof using Hcompact Htimeout.
  intros Hd. revert v w. induction Hd as [|it items Hit Hd IH]; intros v w;
    unfold run_rest; simpl;
    (destruct (needMore (w_receiver w)) eqn:Hmore;
     [|wp_steps; rewrite Hmore; apply wp_ret; by apply rest_post_stuck]);
    wp_steps; rewrite Hmore; wp_steps; apply wp_ctxDone; intros b w1 Hs1 Hr1 Hb _;
    (destruct b; wp_steps; [split; [done|]; split; [change (rcv_reset (wst_rcv w1).1 = rcv_reset (wst_rcv w).1);
      by rewrite Hr1|]; do 2 (split; [done|]); intros _ Hc; by destruct (Hb Hc)|]).
  - apply rest_post_end; try done. change (needMore (wst_rcv w1).1 = true). by rewrite Hr1.
  - assert (needMore (wst_rcv w1).1 = true) as Hmore1 by by rewrite Hr1.
    eapply wp_mono; [by apply wp_run_item_read|]. simpl. intros v' w2 (Hs2 & Hc2 & Hx).
    specialize (IH v' w2). unfold run_rest in IH. apply wp_bind_inv in IH.
    eapply wp_mono; [exact IH|]. simpl. intros l w3 Hl. eapply wp_mono; [exact Hl|].
    intros r w4. apply (rest_post_item it items end_ v v' w w1 w2); try done.
    + intros Hc. by apply Hb.
    + unfold wst_rcv. destruct (item_ver _ it); [done|].
      destruct Hx as (? & ? & -> & ->). done.
Qed.
End read_worker.

(** * What the emitted key-values are *)

Definition ver_lt (x y : ver) : Prop :=
  bytes_lt x.1.1 y.1.1 ∨ (x.1.1 = y.1.1 ∧ x.1.2 < y.1.2).

Definition kv_lt (a b : KeyValue) : Prop := bytes_lt (kv_Key a) (kv_Key b).

Definition ver_live (tomb : bytes) (x : ver) : Prop :=
  0 < x.1.2 ∧ bytes_eqb (content x.2) tomb = false.

(** [x] is the newest version of its key in [l]. *)
Definition newest_in (l : list ver) (x : ver) : Prop :=
  x ∈ l ∧ ∀ y, y ∈ l → y.1.1 = x.1.1 → y.1.2 <= x.1.2.

Lemma elem_of_live_of tomb x kv :
  kv ∈ live_of tomb x ↔ ver_live tomb x ∧ kv = mkKV x.1.1 x.2 x.1.2.
Proof.
  destruct x as [[k r] v]. unfold live_of, ver_live. simpl.
  destruct (Z.ltb_spec 0 r), (bytes_eqb (content v) tomb); simpl;
    rewrite ?list_elem_of_singleton, ?elem_of_nil; naive_solver lia.
Qed.

Lemma ver_lt_key x y : ver_lt x y → bytes_le x.1.1 y.1.1.
Proof. intros [?|[? _]]; apply bytes_le_lteq; auto. Qed.

Lemma elem_of_emits tomb p l kv :
  StronglySorted ver_lt (p :: l) →
  kv ∈ emits tomb p l ↔
  ∃ x, newest_in (p :: l) x ∧ ver_live tomb x ∧ kv = mkKV x.1.1 x.2 x.1.2.
Proof.
  revert p. induction l as [|x l IH]; intros p Hs.
  - simpl. rewrite elem_of_live_of. unfold newest_in. split.
    + intros [Hl ->]. exists p. split; [|done]. split; [left|].
      intros y ->%list_elem_of_singleton _. lia.
    + intros (y & [->%list_elem_of_singleton _] & ? & ->). done.
  - apply StronglySorted_inv in Hs as [Hs Hp].
    pose proof (proj1 (StronglySorted_inv Hs)) as Hsl. rewrite Forall_forall in Hp.
    simpl. rewrite elem_of_app, IH by done.
    assert (∀ y, newest_in (x :: l) y → newest_in (p :: x :: l) y) as Hup.
    { intros y [Hy Hm]. split; [by right|]. intros z [->|Hz]%elem_of_cons E; [|by apply Hm].
      destruct (Hp y Hy) as [Hlt|[_ ?]]; [|lia]. rewrite E in Hlt. by apply bytes_lt_irrefl in Hlt. }
    split.
    + intros [Hin|(y & Hy & ?)]; [|naive_solver].
      destruct (bytes_eqb x.1.1 p.1.1) eqn:E; [by apply elem_of_nil in Hin|].
      apply bytes_eqb_false in E. apply elem_of_live_of in Hin as [Hl ->].
      exists p. split; [|done]. split; [left|]. intros z [->|Hz]%elem_of_cons Ez; [lia|].
      exfalso. apply E.
      assert (bytes_lt p.1.1 x.1.1) as Hpx.
      { destruct (Hp x) as [?|[? _]]; [left | done | congruence]. }
      assert (bytes_le x.1.1 z.1.1) as Hxz.
      { apply elem_of_cons in Hz as [->|Hz]; [by apply bytes_le_lteq; right|].
        apply StronglySorted_inv in Hs as [_ Hx]. rewrite Forall_forall in Hx.
        by apply ver_lt_key, Hx. }
      rewrite Ez in Hxz. apply bytes_not_lt in Hxz. done.
    + intros (y & [Hy Hm] & Hl & ->). apply elem_of_cons in Hy as [->|Hy].
      * left. destruct (bytes_eqb x.1.1 p.1.1) eqn:E; [|by apply elem_of_live_of].
        apply bytes_eqb_spec in E. exfalso.
        assert (x.1.2 <= p.1.2) by (apply Hm; [right; left | done]).
        destruct (Hp x) as [Hlt|[_ ?]]; [left | | lia].
        rewrite E in Hlt. by apply bytes_lt_irrefl in Hlt.
      * right. exists y. split; [|done]. split; [done|]. intros z Hz. apply Hm. by right.
Qed.

(** The emitted keys ascend. *)
Lemma emits_sorted tomb p l :
  StronglySorted ver_lt (p :: l) → StronglySorted kv_lt (emits tomb p l).
Proof.
  revert p. induction l as [|x l IH]; intros p Hs; simpl.
  - destruct p as [[k r] v]. unfold live_of. destruct (_ && _); repeat constructor.
  - apply StronglySorted_inv in Hs as [Hs Hp]. rewrite Forall_forall in Hp.
    destruct (bytes_eqb x.1.1 p.1.1) eqn:E; [by apply IH|]. apply bytes_eqb_false in E.
    apply StronglySorted_app_2; [|destruct p as [[k r] v]; unfold live_of;
      destruct (_ && _); repeat constructor|by apply IH].
    intros a b [_ ->]%elem_of_live_of Hb. unfold kv_lt; simpl.
    apply elem_of_emits in Hb as (y & [Hy _] & _ & ->); [|done]. simpl.
    assert (bytes_lt p.1.1 x.1.1) as Hpx.
    { destruct (Hp x) as [?|[? _]]; [left | done | congruence]. }
    apply elem_of_cons in Hy as [->|Hy]; [done|].
    apply StronglySorted_inv in Hs as [_ Hx]. rewrite Forall_forall in Hx.
    destruct (Hx y Hy) as [?|[<- _]]; [by etrans | done].
Qed.

Lemma emits_no_prev tomb l :
  emits tomb no_prev l = match l with [] => [] | x :: l' => emits tomb x l' end.
Proof. destruct l as [|x l]; [done|]. simpl. by destruct (bytes_eqb _ _). Qed.

Lemma elem_of_emits0 tomb l kv :
  StronglySorted ver_lt l →
  kv ∈ emits tomb no_prev l ↔
  ∃ x, newest_in l x ∧ ver_live tomb x ∧ kv = mkKV x.1.1 x.2 x.1.2.
Proof.
  intros Hs. rewrite emits_no_prev. destruct l; [|by apply elem_of_emits].
  rewrite elem_of_nil. split; [done|]. intros (x & [Hx _] & _). by apply elem_of_nil in Hx.
Qed.

Lemma emits0_sorted tomb l :
  StronglySorted ver_lt l → StronglySorted kv_lt (emits tomb no_prev l).
Proof. intros Hs. rewrite emits_no_prev. destruct l; [constructor | by apply emits_sorted]. Qed.

(** * From engine entries to versions *)

Lemma elem_of_vers R items k r v :
  (k, r, v) ∈ vers R items ↔
  (EncodeObjectKey k r, v) ∈ item_kv <$> items ∧ is_uint64 r ∧ r <= R.
Proof.
  unfold vers. rewrite list_elem_of_omap, list_elem_of_fmap. unfold item_ver, item_kv. split.
  - intros (it & Hit & E). destruct (Decode (it_key it)) as [[[k' r'] [e|]]|] eqn:Ed; try done.
    destruct (Z.leb_spec r' R); simplify_eq. apply Decode_sound in Ed as [Ek ?].
    split; [|done]. exists it. by rewrite Ek.
  - intros [(it & [= Ek ->] & Hit) [Hr Hle]]. exists it. split; [done|].
    rewrite <-Ek, Decode_Encode by done. by destruct (Z.leb_spec r R); [|lia].
Qed.

Lemma vers_sorted R items :
  sorted_kvs (item_kv <$> items) → Forall (λ it, internal_ok (it_key it)) items →
  StronglySorted ver_lt (vers R items).
Proof.
  intros Hs Hok. induction items as [|it items IH]; [constructor|].
  rewrite fmap_cons in Hs. apply StronglySorted_inv in Hs as [Hs' Hit]. inversion Hok as [|? ? Ho Hok']; subst.
  specialize (IH Hs' Hok'). unfold vers; simpl. destruct (item_ver R it) as [[[k r] v]|] eqn:E; [|done].
  constructor; [done|]. change (Forall (ver_lt (k, r, v)) (vers R items)).
  apply Forall_forall. intros [[k' r'] v'] Hin. rewrite Forall_forall in Hit.
  unfold item_ver in E. destruct (Decode (it_key it)) as [[[k0 r0] [e|]]|] eqn:Ed; try done.
  destruct (r0 <=? R); simplify_eq. apply Decode_sound in Ed as [Ek Hr].
  apply elem_of_vers in Hin as (Hin & Hr' & _).
  assert (bytes_lt (EncodeObjectKey k r) (EncodeObjectKey k' r')) as Hlt.
  { rewrite <-Ek. exact (Hit _ Hin). }
  assert (∀ k r, is_uint64 r → internal_ok (EncodeObjectKey k r) → valid_key k) as Hval.
  { intros ? ? Hu [(k1 & r1 & ? & ? & Eq)|[_ Hm]]; [|by destruct Hm].
    apply EncodeObjectKey_inj in Eq as [-> _]; done. }
  apply EncodeObjectKey_lt in Hlt; try done.
  - apply (Hval k r Hr). by rewrite <-Ek.
  - apply (Hval k' r' Hr'). apply list_elem_of_fmap in Hin as (it' & [= -> _] & Hin').
    rewrite Forall_forall in Hok'. by apply Hok'.
Qed.

(** * The result of a range read *)

(** A border that does not separate the versions of a user key. *)
Definition aligned (b : bytes) : Prop :=
  ∀ k r, valid_key k → is_uint64 r →
         bytes_le b (EncodeObjectKey k r) → bytes_le b (EncodeObjectKey k 0).

(** [l] lists, in key order, what is visible at [R] of the keys in [[a, b)]. *)
Definition range_result (m : kvmap) (a b : bytes) (R : Z) (l : list KeyValue) : Prop :=
  StronglySorted kv_lt l ∧
  ∀ kv, kv ∈ l ↔
    valid_key (kv_Key kv) ∧
    bytes_le a (EncodeRevisionKey (kv_Key kv)) ∧ bytes_lt (EncodeRevisionKey (kv_Key kv)) b ∧
    visible m (kv_Key kv) R = Some (kv_Revision kv, kv_Value kv).

Lemma kv_lt_ext l k :
  StronglySorted kv_lt l → StronglySorted kv_lt k → (∀ x, x ∈ l ↔ x ∈ k) → l = k.
Proof.
  intros Hl. revert k. induction Hl as [|x l Hl IH Hx]; intros k Hk E.
  - destruct k as [|y k]; [done|]. exfalso. apply (not_elem_of_nil y), E. left.
  - destruct Hk as [|y k Hk Hy]; [exfalso; apply (not_elem_of_nil x), E; left|].
    rewrite Forall_forall in Hx, Hy.
    assert (x = y) as <-.
    { destruct (proj1 (elem_of_cons k x y) (proj1 (E x) ltac:(left))) as [|Hxk]; [done|].
      destruct (proj1 (elem_of_cons l y x) (proj2 (E y) ltac:(left))) as [|Hyl]; [done|].
      exfalso. apply (bytes_lt_irrefl (kv_Key x)). etrans; [by apply Hx | by apply Hy]. }
    f_equal. apply IH; [done|]. intros z. specialize (E z). rewrite !elem_of_cons in E.
    split; intros Hz.
    + destruct (proj1 E (or_intror Hz)) as [->|]; [|done].
      exfalso. by apply (bytes_lt_irrefl (kv_Key x)), (Hx x).
    + destruct (proj2 E (or_intror Hz)) as [->|]; [|done].
      exfalso. by apply (bytes_lt_irrefl (kv_Key x)), (Hy x).
Qed.

(** There is one such list. *)
Lemma range_result_unique m a b R l k :
  range_result m a b R l → range_result m a b R k → l = k.
Proof. intros [? Hl] [? Hk]. apply kv_lt_ext; [done..|]. intros x. by rewrite Hl, Hk. Qed.

Lemma aligned_valid k : valid_key k → aligned (EncodeRevisionKey k).
Proof.
  intros Hk k' r Hk' Hr Hle. pose proof zero_is_uint64. unfold EncodeRevisionKey in *.
  apply EncodeObjectKey_le in Hle; try done. apply EncodeObjectKey_le; try done.
  destruct Hle as [?|[-> _]]; [by left | right]. by split.
Qed.

Lemma bytes_le_lt_trans a b c : bytes_le a b → bytes_lt b c → bytes_lt a c.
Proof. intros [?| ->]%bytes_le_lteq ?; [by etrans | done]. Qed.

Lemma bytes_le_trans a b c : bytes_le a b → bytes_le b c → bytes_le a c.
Proof.
  intros Hab [Hbc| ->]%bytes_le_lteq; [|done]. apply bytes_le_lteq. left.
  by eapply bytes_le_lt_trans.
Qed.

(** Between aligned borders there are all versions of a key or none. *)
Lemma aligned_range a b k r :
  aligned a → aligned b → valid_key k → is_uint64 r →
  bytes_le a (EncodeObjectKey k r) ∧ bytes_lt (EncodeObjectKey k r) b ↔
  bytes_le a (EncodeRevisionKey k) ∧ bytes_lt (EncodeRevisionKey k) b.
Proof.
  intros Ha Hb Hk Hr. pose proof zero_is_uint64 as H0. unfold EncodeRevisionKey.
  assert (bytes_le (EncodeObjectKey k 0) (EncodeObjectKey k r)) as Hle
    by (apply EncodeObjectKey_le; try done; right; unfold is_uint64 in Hr; split; [done | lia]).
  split; intros [H1 H2]; split.
  - by apply (Ha k r).
  - by eapply bytes_le_lt_trans.
  - by eapply bytes_le_trans.
  - apply bytes_not_le. apply bytes_not_le in H2. intros Hle'. apply H2. by apply (Hb k r).
Qed.

Lemma store_ok_valid m k r v :
  store_ok m → is_uint64 r → m !! EncodeObjectKey k r = Some v → valid_key k.
Proof.
  intros Hm Hr Hl. destruct (Hm _ _ Hl) as [(k1 & r1 & ? & ? & Eq)|[_ Hmg]]; [|by destruct Hmg].
  apply EncodeObjectKey_inj in Eq as [-> _]; done.
Qed.

(** The versions in the items of a range. *)
Lemma elem_of_vers_range m a b R items k r v :
  store_ok m → aligned a → aligned b → item_kv <$> items = asc_range m a b →
  (k, r, v) ∈ vers R items ↔
  m !! EncodeObjectKey k r = Some v ∧ is_uint64 r ∧ r <= R ∧ valid_key k ∧
  bytes_le a (EncodeRevisionKey k) ∧ bytes_lt (EncodeRevisionKey k) b.
Proof.
  intros Hm Ha Hb Hitems. rewrite elem_of_vers, Hitems, elem_of_asc_range. split.
  - intros ((Hl & Hbd) & Hr & Hle). assert (valid_key k) by by eapply store_ok_valid.
    apply aligned_range in Hbd; tauto.
  - intros (Hl & Hr & Hle & Hk & Hbd). apply (aligned_range a b k r) in Hbd; tauto.
Qed.

Lemma range_items_ok m a b items :
  store_ok m → item_kv <$> items = asc_range m a b → Forall (λ it, internal_ok (it_key it)) items.
Proof.
  intros Hm Hitems. apply Forall_forall. intros it Hit.
  assert (item_kv it ∈ asc_range m a b) as Hin by (rewrite <-Hitems; by apply list_elem_of_fmap_2).
  apply elem_of_asc_range in Hin as (Hin & _). by eapply Hm.
Qed.

Lemma range_vers_sorted m a b R items :
  store_ok m → item_kv <$> items = asc_range m a b → StronglySorted ver_lt (vers R items).
Proof.
  intros Hm Hitems. apply vers_sorted; [rewrite Hitems; apply asc_range_sorted|].
  by eapply range_items_ok.
Qed.

Lemma visible_Some m k R r v :
  store_ok m → valid_key k → is_uint64 R →
  visible m k R = Some (r, v) ↔ is_latest m k R r v ∧ is_tombstone v = false.
Proof.
  intros Hm Hk HR. rewrite <-latest_Some by done. unfold visible.
  destruct (latest m k R) as [[r1 v1]|]; [|naive_solver].
  destruct (is_tombstone v1) eqn:E; naive_solver congruence.
Qed.

Lemma emits_range_result m a b R items :
  store_ok m → is_uint64 R → aligned a → aligned b →
  item_kv <$> items = asc_range m a b →
  range_result m a b R (emits tombStoneBytes no_prev (vers R items)).
Proof.
  intros Hm HR Ha Hb Hitems.
  pose proof (range_vers_sorted m a b R items Hm Hitems) as Hs.
  pose proof (λ k r v, elem_of_vers_range m a b R items k r v Hm Ha Hb Hitems) as Hin.
  split; [by apply emits0_sorted|]. intros [k v r]. rewrite elem_of_emits0 by done. simpl. split.
  - intros ([[k1 r1] v1] & [Hx Hmax] & [Hpos Hnt] & [= -> -> ->]). simpl in *.
    apply Hin in Hx as (Hl & Hr & Hle & Hk & H1 & H2).
    repeat split; try done. apply visible_Some; try done. split; [|done].
    split; [done|]. split; [lia|]. intros r' v' Hv' Hr'.
    apply (Hmax (k1, r', v')); [|done]. apply Hin. unfold is_uint64 in *.
    repeat split; try done; lia.
  - intros (Hk & H1 & H2 & Hv). apply visible_Some in Hv as [(Hl & Hr & Hmax) Hnt]; try done.
    exists (k, r, v). split; [|split; [split; simpl; [lia | done]|done]]. split.
    + apply Hin. unfold is_uint64 in *. repeat split; try done; lia.
    + intros [[k' r'] v'] Hx ?; simpl in *; subst k'. apply Hin in Hx as (Hl' & Hr' & Hle' & _).
      destruct (decide (r' = 0)) as [->|]; [lia|]. eapply Hmax; [done|]. unfold is_uint64 in Hr'. lia.
Qed.

(** Results of adjacent ranges join. *)
Lemma range_result_app m a b d R l k :
  bytes_le a b → bytes_le b d →
  range_result m a b R l → range_result m b d R k → range_result m a d R (l ++ k).
Proof.
  intros Hab Hbd [Hsl Hl] [Hsk Hk]. split.
  - apply StronglySorted_app_2; [|done..]. intros x y Hx Hy.
    apply Hl in Hx as (? & _ & Hx & _). apply Hk in Hy as (? & Hy & _).
    assert (bytes_lt (EncodeRevisionKey (kv_Key x)) (EncodeRevisionKey (kv_Key y))) as Hlt.
    { apply bytes_not_le. intros Hle. apply bytes_not_le in Hx. apply Hx. by eapply bytes_le_trans. }
    pose proof zero_is_uint64. apply EncodeObjectKey_lt in Hlt; try done.
    destruct Hlt as [?|[_ ?]]; [done | lia].
  - intros x. rewrite elem_of_app, Hl, Hk. split.
    + intros [(? & ? & ? & ?)|(? & ? & ? & ?)]; repeat split; try done.
      * apply bytes_not_le. intros Hle. apply bytes_not_le in H1. apply H1. by eapply bytes_le_trans.
      * by eapply bytes_le_trans.
    + intros (? & ? & ? & ?). destruct (decide (bytes_lt (EncodeRevisionKey (kv_Key x)) b)); [by left|].
      right. repeat split; try done. by apply bytes_not_lt.
Qed.

(** * Partitions *)

(** The partitions an engine reports for [[a, b)]: adjacent and non-empty, with
    borders that are keys of the store's format. *)
Fixpoint chain (a b : bytes) (ps : list Partition) : Prop :=
  match ps with
  | [] => False
  | p :: ps' =>
      Start p = a ∧
      match ps' with
      | [] => End p = b ∧ bytes_le a b
      | _ => bytes_lt a (End p) ∧ internal_ok (End p) ∧ chain (End p) b ps'
      end
  end.

Class KvPartitions (S : Type) `{KvSpec S} :=
  kv_partitions_spec a b s :
    kv_inv s → bytes_le a b →
    wp (kv_partitions a b) (λ r s', kv_inv s' ∧ kv_view s' = kv_view s ∧
      match r.2 with None => ∃ ps, r.1 ≡ₚ ps ∧ chain a b ps | Some _ => True end) s.

(** What the workers get: adjacent, with borders between user keys. *)
Fixpoint cover (a b : bytes) (ps : list Partition) : Prop :=
  match ps with
  | [] => False
  | p :: ps' =>
      Start p = a ∧ bytes_le a (End p) ∧
      match ps' with
      | [] => End p = b
      | _ => aligned (End p) ∧ cover (End p) b ps'
      end
  end.

Lemma chain_starts a b ps p : chain a b ps → p ∈ ps → bytes_le a (Start p).
Proof.
  revert a. induction ps as [|q ps IH]; intros a; [by intros []|].
  intros [<- Hc] [->|Hp]%elem_of_cons; [by apply bytes_le_lteq; right|].
  destruct ps as [|q' ps]; [by apply elem_of_nil in Hp|]. destruct Hc as (Hlt & _ & Hc).
  apply bytes_le_lteq. left. apply IH in Hc; [|done].
  apply bytes_le_lteq in Hc as [?|E]; [by etrans | by rewrite <-E].
Qed.

Lemma chain_sorted a b ps :
  chain a b ps → StronglySorted (λ p q, bytes_lt (Start p) (Start q)) ps.
Proof.
  revert a. induction ps as [|p ps IH]; intros a; [constructor|]. intros [<- Hc].
  destruct ps as [|q ps]; [repeat constructor|]. destruct Hc as (Hlt & _ & Hc).
  constructor; [by eapply IH|]. apply Forall_forall. intros x Hx.
  eapply chain_starts in Hc; [|done]. apply bytes_le_lteq in Hc as [?|E]; [by etrans | by rewrite <-E].
Qed.

#[global] Instance partition_le_total : Total partition_le.
Proof. intros p q. apply (entry_le_total (Start p, ()) (Start q, ())). Qed.

#[global] Instance partition_le_trans : Transitive partition_le.
Proof. intros p q r. unfold partition_le. apply bytes_le_trans. Qed.

Lemma chain_sort a b ps ps' : ps' ≡ₚ ps → chain a b ps → merge_sort partition_le ps' = ps.
Proof.
  intros Hp Hc. apply chain_sorted in Hc.
  apply (StronglySorted_unique_strong partition_le).
  - intros x y Hx Hy Hxy Hyx. rewrite merge_sort_Permutation, Hp in Hx.
    unfold partition_le in *. 
    assert (Start x = Start y) as E.
    { apply bytes_le_lteq in Hxy as [Hlt|]; [|done]. by apply bytes_not_le in Hlt. }
    clear -Hc Hx Hy E. induction Hc as [|p l Hl IH Hall]; [by apply elem_of_nil in Hx|].
    rewrite Forall_forall in Hall.
    apply elem_of_cons in Hx as [->|Hx], Hy as [->|Hy]; [done| | |by apply IH].
    + exfalso. apply Hall in Hy. rewrite E in Hy. by apply bytes_lt_irrefl in Hy.
    + exfalso. apply Hall in Hx. rewrite E in Hx. by apply bytes_lt_irrefl in Hx.
  - apply Sorted_StronglySorted; [apply _|]. apply (Sorted_merge_sort partition_le).
  - eapply StronglySorted_weaken; [|done]. intros x y ?. apply bytes_le_lteq. by left.
  - by rewrite merge_sort_Permutation.
Qed.

(** The adjusted form of a border. *)
Definition norm (x : bytes) : bytes :=
  match Decode x with
  | Some (userKey, revision, None) => if negb (revision =? 0) then EncodeRevisionKey userKey else x
  | _ => x
  end.

Lemma norm_encode k r : is_uint64 r → norm (EncodeObjectKey k r) = EncodeRevisionKey k.
Proof.
  intros Hr. unfold norm. rewrite Decode_Encode by done.
  by destruct (Z.eqb_spec r 0) as [->|].
Qed.

Lemma norm_other x : take 4 x ≠ magicBytes → norm x = x.
Proof.
  intros Hx. unfold norm. destruct (Decode x) as [[[k r] [e|]]|] eqn:E; [done| |done].
  apply Decode_sound in E as [-> _]. by destruct Hx.
Qed.

Lemma other_below x k r :
  valid_key k → is_uint64 r → (9 <= length x)%nat → take 4 x ≠ magicBytes →
  bytes_le x (EncodeObjectKey k r) → bytes_le x (EncodeRevisionKey k).
Proof.
  intros Hk Hr Hlen Hx Hle. apply bytes_not_lt. intros Hlt.
  assert (internal_ok x) as Hok by by right.
  destruct (internal_between x k r Hk Hr Hok Hlt Hle) as (r' & -> & _). by destruct Hx.
Qed.

Lemma norm_aligned x : internal_ok x → aligned (norm x).
Proof.
  intros [(k & r & Hk & Hr & ->)|[Hlen Hx]].
  - rewrite norm_encode by done. by apply aligned_valid.
  - rewrite norm_other by done. intros k r Hk Hr. by apply other_below.
Qed.

Lemma norm_le x : internal_ok x → bytes_le (norm x) x.
Proof.
  intros [(k & r & Hk & Hr & ->)|[Hlen Hx]].
  - rewrite norm_encode by done. pose proof zero_is_uint64. apply EncodeObjectKey_le; try done.
    right. unfold is_uint64 in Hr. split; [done | lia].
  - rewrite norm_other by done. apply bytes_le_lteq. by right.
Qed.

Lemma norm_mono x y : internal_ok x → internal_ok y → bytes_lt x y → bytes_le (norm x) (norm y).
Proof.
  intros Hx Hy Hlt. destruct Hy as [(k & r & Hk & Hr & ->)|[Hlen Hy]].
  - rewrite norm_encode by done. destruct Hx as [(k' & r' & Hk' & Hr' & ->)|[Hlen Hx]].
    + rewrite norm_encode by done. apply EncodeObjectKey_lt in Hlt; try done.
      pose proof zero_is_uint64. apply EncodeObjectKey_le; try done.
      destruct Hlt as [?|[-> _]]; [by left | right]. by split.
    + rewrite norm_other by done. apply (other_below x k r); try done. apply bytes_le_lteq. by left.
  - rewrite (norm_other y) by done. apply bytes_le_lteq. left.
    eapply bytes_le_lt_trans; [by apply norm_le | done].
Qed.

Lemma aligned_norm x : internal_ok x → aligned x → norm x = x.
Proof.
  intros [(k & r & Hk & Hr & ->)|[Hlen Hx]] Ha; [|by apply norm_other].
  rewrite norm_encode by done. pose proof zero_is_uint64.
  assert (bytes_le (EncodeObjectKey k r) (EncodeObjectKey k 0)) as Hle
    by (apply (Ha k r); try done; apply bytes_le_lteq; by right).
  apply EncodeObjectKey_le in Hle; try done. destruct Hle as [?%bytes_lt_irrefl|[_ ?]]; [done|].
  unfold is_uint64 in Hr. by replace r with 0 by lia.
Qed.

Lemma adjust_walk_cover a b ps prevEnd :
  internal_ok a → chain a b ps → default a prevEnd = norm a →
  ∃ qs, adjust_walk prevEnd ps = Some qs ∧ cover (norm a) b qs.
Proof.
  revert a prevEnd. induction ps as [|p ps IH]; intros a prevEnd Ha Hc Hprev; [done|].
  destruct Hc as [Hp Hc].
  assert (default (Start p) prevEnd = norm a) as Hstart by (rewrite Hp; done).
  destruct ps as [|p' ps].
  - destruct Hc as [<- Hle]. simpl. rewrite Hstart. eexists. split; [done|]. split; [done|].
    split; [|done]. eapply bytes_le_trans; [by apply norm_le | done].
  - destruct Hc as (Hlt & Hend & Hc).
    destruct (IH (End p) (Some (norm (End p)))) as (qs & Eqs & Hqs); try done.
    destruct (internal_ok_Decode _ Hend) as [[[k r] e] Ed].
    assert (norm (End p) =
      match e with
      | None => if negb (r =? 0) then EncodeRevisionKey k else End p
      | Some _ => End p
      end) as En by (unfold norm; rewrite Ed; by destruct e).
    cbn [adjust_walk]. rewrite Ed, <-En. cbn [adjust_walk] in Eqs. rewrite Eqs, Hstart.
    eexists. split; [done|]. split; [done|]. split; [by apply norm_mono|].
    destruct qs as [|q qs]; [done|]. split; [by apply norm_aligned | done].
Qed.

(** Borders are moved to user-key borders, and nothing of the range is lost. *)
Lemma adjust_cover a b ps ps' :
  internal_ok a → aligned a → ps' ≡ₚ ps → chain a b ps →
  ∃ qs, adjustPartitionsBorders ps' = Some qs ∧ cover a b qs.
Proof.
  intros Ha Hal Hp Hc. unfold adjustPartitionsBorders. erewrite chain_sort by done.
  destruct (adjust_walk_cover a b ps None) as (qs & ? & Hqs); [done..| |].
  - symmetry. by apply aligned_norm.
  - exists qs. by rewrite (aligned_norm a) in Hqs.
Qed.
