(* ===== verification/ScanRead.v ===== *)
(** Range, Count and RangeStream of pkg/backend/scanner on a storage engine:
    a scan that succeeds returns exactly what is visible at its revision,
    whatever the engine's partitions are, and on an engine without failures it
    does succeed. *)

From S2P Require Import Prelude GoMonad Storage Coder Mvcc Proto Scanner ScanSpec.

(** What is in a receiver after a flush. *)
Definition collected (st : rstate) : list KeyValue :=
  match st.1 with
  | emptyResultReceiver => []
  | commonResultReceiver result _ => result
  | streamResultReceiver _ batch =>
      concat ((λ m, rrs_Kvs (srs_RangeResponse m)) <$> st.2) ++ batch
  end.

Lemma feed_common l result limit out :
  isLimited limit = false →
  feed l (commonResultReceiver result limit, out) = (commonResultReceiver (result ++ l) limit, out).
Proof.
  intros Hlim. revert result. induction l as [|x l IH]; intros result; [by rewrite app_nil_r|].
  change (feed l (feed1 (commonResultReceiver result limit, out) x) =
          (commonResultReceiver (result ++ x :: l) limit, out)).
  unfold feed1; simpl. rewrite Hlim, app_nil_r. rewrite IH. by rewrite <-app_assoc.
Qed.

(** A limited receiver takes the first [limit] key-values. *)
Lemma feed_limited l result limit out :
  0 < limit → Z.of_nat (length result) <= limit →
  feed l (commonResultReceiver result limit, out) =
  (commonResultReceiver (result ++ take (Z.to_nat limit - length result) l) limit, out).
Proof.
  intros Hlim. revert result. induction l as [|x l IH]; intros result Hlen.
  - by rewrite take_nil, app_nil_r.
  - change (feed l (feed1 (commonResultReceiver result limit, out) x) =
      (commonResultReceiver (result ++ take (Z.to_nat limit - length result) (x :: l)) limit, out)).
    unfold feed1; simpl. unfold isLimited. destruct (Z.ltb_spec 0 limit); [|lia].
    destruct (Z.ltb_spec (Z.of_nat (length result)) limit).
    + rewrite app_nil_r, IH by (rewrite length_app; simpl; lia).
      rewrite length_app. simpl.
      replace (Z.to_nat limit - length result)%nat
        with (S (Z.to_nat limit - (length result + 1)))%nat by lia.
      simpl. by rewrite <-app_assoc.
    + rewrite feed_stuck.
      * by replace (Z.to_nat limit - length result)%nat with 0%nat by lia; rewrite app_nil_r.
      * simpl. unfold isLimited. destruct (Z.ltb_spec 0 limit); [|lia]. apply Z.ltb_ge. lia.
Qed.

(** A stream carries every key-value, in order, in messages that say there is more. *)
Lemma feed_stream l readRev batch out :
  ∃ batch' msgs,
    feed l (streamResultReceiver readRev batch, out) = (streamResultReceiver readRev batch', out ++ msgs) ∧
    concat ((λ m, rrs_Kvs (srs_RangeResponse m)) <$> msgs) ++ batch' = batch ++ l ∧
    Forall (λ m, rrs_More (srs_RangeResponse m) = true ∧
                 rrs_Revision (srs_RangeResponse m) = readRev ∧ srs_Err m = None) msgs.
Proof.
  revert batch out. induction l as [|x l IH]; intros batch out.
  - exists batch, []. by rewrite !app_nil_r.
  - change (feed (x :: l) (streamResultReceiver readRev batch, out))
      with (feed l (feed1 (streamResultReceiver readRev batch, out) x)).
    unfold feed1; simpl. destruct (rangeStreamBatch <=? _); simpl.
    + destruct (IH [] (out ++ [stream_msg readRev (batch ++ [x])])) as (b & msgs & -> & E & F).
      exists b, (stream_msg readRev (batch ++ [x]) :: msgs).
      split; [by rewrite <-app_assoc|]. split; [|constructor; done].
      rewrite fmap_cons. cbn [concat]. rewrite <-app_assoc, E. simpl. by rewrite <-app_assoc.
    + rewrite app_nil_r. destruct (IH (batch ++ [x]) out) as (b & msgs & -> & E & F).
      exists b, msgs. split; [done|]. split; [|done]. by rewrite E, <-app_assoc.
Qed.

Lemma wp_backoff_S `{Backoff} {T} n (cond : GoM T (bool * option err)) Q s :
  wp ('(ok, e) ← cond;
      match e, ok with
      | Some _, _ => mret e
      | None, true => mret None
      | None, false => ExponentialBackoff n cond
      end) Q s →
  wp (ExponentialBackoff (Datatypes.S n) cond) Q s.
Proof. unfold wp. by rewrite ExponentialBackoff_S. Qed.

Lemma unlimited_reset r r' : rcv_reset r = rcv_reset r' → unlimited r' → unlimited r.
Proof. destruct r, r'; intros [=]; simpl; congruence. Qed.

(** * One worker *)

Section worker_read.
Context {S : Type} `{KvSpec S}.
Context (c : workerConfig) (m : kvmap).
Hypothesis (Hcompact : w_compact c = false) (Htimeout : timeoutRevision c = 0)
           (Htomb : w_tombstone c = tombStoneBytes).
Local Abbreviation a := (Start (partition c)).
Local Abbreviation b := (End (partition c)).
Local Abbreviation R := (w_revision c).
Hypothesis (HR : is_uint64 R) (Hm : store_ok m)
           (Ha : aligned a) (Hb : aligned b) (Hab : bytes_le a b).

(** A worker's state is on the engine's map [m]. *)
Definition on_map (w : wstate S) : Prop := kv_inv (w_store w) ∧ kv_view (w_store w) = m.

(** The context is not cancelled and the engine's iterators do not fail. *)
Definition iter_ok (s : S) : Prop :=
  wp (kv_iter a b (w_tso c) 0) (λ r _, ∃ it, r = inr it ∧ it_end it = EOF) s.

Definition smooth (w : wstate S) : Prop := w_ctx w = [] ∧ iter_ok (w_store w).

Definition run_post (w : wstate S) (r : Z * option err) (w' : wstate S) : Prop :=
  on_map w' ∧ rcv_reset (w_receiver w') = rcv_reset (w_receiver w) ∧
  (r.2 = None → ∀ l, range_result m a b R l →
    wst_rcv w' = flushed (feed l (rcv_reset (w_receiver w), w_stream w)) ∧
    (unlimited (w_receiver w) → r.1 = Z.of_nat (length l))) ∧
  (smooth w → r.2 = None).

Lemma full_items items :
  item_kv <$> items `prefix_of` asc_range m a b →
  ∃ full, items `prefix_of` full ∧ item_kv <$> full = asc_range m a b ∧
          ((item_kv <$> items) = asc_range m a b → full = items).
Proof.
  intros [k Hk]. exists (items ++ ((λ kv, mkItem kv.1 kv.2 0) <$> k)).
  split; [by eexists|]. split.
  - rewrite fmap_app, Hk. f_equal. rewrite <-list_fmap_compose.
    rewrite (list_fmap_ext _ id); [by rewrite list_fmap_id|]. by intros ? [? ?] _.
  - intros E. rewrite E in Hk. apply (f_equal length) in Hk. rewrite length_app in Hk.
    destruct k; [|simpl in Hk; lia]. by rewrite app_nil_r.
Qed.

Lemma wp_iter s :
  kv_inv s →
  wp (kv_iter a b (w_tso c) 0) (λ r s', kv_inv s' ∧ kv_view s' = kv_view s ∧
    match r with
    | inl e => iter_err e
    | inr it => iter_post (kv_view s) a b 0 it
    end ∧ (iter_ok s → ∃ it, r = inr it ∧ it_end it = EOF)) s.
Proof.
  intros Hinv. pose proof (kv_iter_spec a b (w_tso c) 0 s Hinv) as Hi. unfold iter_ok, wp in *.
  destruct (kv_iter a b (w_tso c) 0 s) as [[s' r]|]; [|done].
  destruct Hi as (? & ? & ?). repeat (split; [done|]). done.
Qed.

Lemma wp_run_read w : on_map w → wp (run c) (run_post w) w.
Proof using All.
  intros [Hinv Hview]. unfold run, on_store. wp_steps.
  eapply wp_mono; [by apply wp_iter|]. simpl. intros r s1 (Hinv1 & Hv1 & Hit & Hsm).
  rewrite Hview in Hv1, Hit. destruct r as [e|it]; wp_steps.
  { do 3 (split; [done|]). intros [_ Hok]. by destruct (Hsm Hok) as (? & ? & _). }
  destruct Hit as [_ Hit]. rewrite (proj2 (negb_true_iff _)) in Hit.
  2:{ apply not_true_is_false. rewrite bytes_ltb_spec. by apply bytes_not_lt. }
  destruct Hit as [Hpre Hend]. simpl in Hend.
  destruct (full_items _ Hpre) as (full & Hpfull & Hfull & Heq).
  pose proof (emits_range_result m a b R full Hm HR Ha Hb Hfull) as Hres.
  set (w1 := w_set_receiver _ _).
  assert (Forall (λ it, is_Some (Decode (it_key it))) (it_items it)) as Hd.
  { apply Forall_forall. intros x Hx. apply internal_ok_Decode.
    pose proof (range_items_ok m a b full Hm Hfull) as Hok. rewrite Forall_forall in Hok.
    apply Hok. destruct Hpfull as [k ->]. apply elem_of_app. by left. }
  pose proof (wp_run_rest c Hcompact Htimeout (it_items it) (it_end it)
                (mkLoopVars [] 0 None 0 None) w1 Hd) as Hrest.
  unfold run_rest in Hrest. apply wp_bind_inv in Hrest.
  eapply wp_mono; [exact Hrest|]. intros l w2 Hl. eapply wp_mono; [exact Hl|].
  intros r w3 (Hs3 & Hreset & Hfeed & Hcount & Hok). split.
  { unfold on_map. rewrite Hs3. done. }
  split.
  { rewrite Hreset. simpl. by destruct (w_receiver w). }
  split; [|intros [Hctx Hi]; destruct (Hsm Hi) as (it' & [= ->] & Heof); by apply Hok].
  intros He l' Hl'. rewrite (range_result_unique _ _ _ _ _ _ Hl' Hres). split.
  - rewrite (Hfeed He full Hpfull).
    + rewrite Htomb. unfold wst_rcv, w1; simpl. by rewrite app_nil_r.
    + intros Eend. symmetry. apply Heq. by apply Hend.
  - intros Hu. destruct (Hcount He) as [Eend ->].
    { simpl. destruct (w_receiver w); done. }
    rewrite (Heq (Hend Eend)), Htomb. cbn [lv_count]. by rewrite Z.add_0_l.
Qed.

(** At most three attempts, the last of which decides. *)
Definition retry_post (w : wstate S) (r : Z * option err) (w' : wstate S) : Prop :=
  on_map w' ∧
  (r.2 = None → ∀ l, range_result m a b R l →
    (∃ out, wst_rcv w' = flushed (feed l (rcv_reset (w_receiver w), out)) ∧
            (smooth w → out = w_stream w)) ∧
    (unlimited (w_receiver w) → r.1 = Z.of_nat (length l))) ∧
  (smooth w → r.2 = None).

Lemma wp_backoff `{Backoff} n w0 w res :
  on_map w → rcv_reset (w_receiver w) = rcv_reset (w_receiver w0) →
  (smooth w0 → w = w0 ∧ n ≠ 0%nat) →
  wp (ExponentialBackoff n (retry_cond c)) (λ e st,
    on_map st.1 ∧ (e = None → retry_post w0 (st.2.1, None) st.1) ∧ (smooth w0 → e = None)) (w, res).
Proof using All.
  revert w res. induction n as [|n IH]; intros w res Hw Hr Hsm.
  { unfold wp. rewrite ExponentialBackoff_0. do 2 (split; [done|]). naive_solver. }
  apply wp_backoff_S.
  apply wp_bind. unfold retry_cond. wp_steps. apply wp_ctxDone.
  intros d w1 Hs1 Hr1 Hd _. assert (on_map w1) as Hw1 by (unfold on_map; by rewrite Hs1).
  assert (smooth w0 → smooth w1 ∧ w_stream w1 = w_stream w0 ∧ d = false) as Hsm1.
  { intros Hs0. destruct (Hsm Hs0) as [-> _]. destruct Hs0 as [Hc Hi].
    destruct (Hd Hc) as [-> Hc1]. split; [split; [done | by rewrite Hs1]|].
    split; [|done]. by apply (f_equal snd) in Hr1. }
  destruct d; wp_steps; [do 2 (split; [done|]); intros Hs0; by destruct (Hsm1 Hs0) as (_ & _ & ?)|].
  eapply wp_mono; [by apply wp_run_read|]. simpl. intros [cnt e] w2 (Hw2 & Hreset & Hres & Hok).
  assert (rcv_reset (w_receiver w2) = rcv_reset (w_receiver w0)) as Hr2.
  { rewrite Hreset. change (rcv_reset (wst_rcv w1).1 = rcv_reset (w_receiver w0)). by rewrite Hr1. }
  wp_steps. destruct e as [e|]; wp_steps.
  { apply IH; [done..|]. intros Hs0. by apply Hsm1 in Hs0 as [Hs0%Hok _]. }
  split; [done|]. split; [|done]. intros _. split; [done|]. split; [|done].
  intros _ l Hl. destruct (Hres eq_refl l Hl) as [Hf Hn]. split.
  - exists (w_stream w1). split; [rewrite Hf; by rewrite <-Hr2, Hreset|].
    intros Hs0. by apply Hsm1 in Hs0 as (_ & ? & _).
  - intros Hu. apply Hn. change (unlimited (wst_rcv w1).1). rewrite Hr1. by apply (unlimited_reset _ _ Hr).
Qed.

Lemma wp_runWithBackoffRetry `{Backoff} w :
  on_map w → wp (runWithBackoffRetry c) (retry_post w) w.
Proof using All.
  intros Hw. pose proof (wp_backoff scanBackoffSteps w w (0, None) Hw eq_refl
                           ltac:(done)) as Hb'.
  unfold runWithBackoffRetry, wp in *.
  destruct (ExponentialBackoff _ _ _) as [[[w' [cnt se]] e]|]; [|done].
  destruct Hb' as (Hw' & He & Hsm). destruct e as [e|].
  - split; [done|]. simpl. split; [by destruct e|]. intros Hs. by apply Hsm in Hs.
  - by apply He.
Qed.
End worker_read.

Lemma range_result_exists m a b R :
  store_ok m → is_uint64 R → aligned a → aligned b → ∃ l, range_result m a b R l.
Proof.
  intros Hm HR Ha Hb. set (items := (λ kv, mkItem kv.1 kv.2 0) <$> asc_range m a b).
  exists (emits tombStoneBytes no_prev (vers R items)). apply emits_range_result; try done.
  unfold items. rewrite <-list_fmap_compose.
  rewrite (list_fmap_ext _ id); [by rewrite list_fmap_id|]. by intros ? [? ?] _.
Qed.

Lemma cover_le a b ps : cover a b ps → bytes_le a b.
Proof.
  revert a. induction ps as [|p ps IH]; intros a; [by intros []|]. intros (<- & Hle & Hc).
  destruct ps as [|q ps]; [by subst|]. eapply bytes_le_trans; [done|]. by apply IH, Hc.
Qed.

(** * The scanner *)

(** The stored compact revision, if any, is readable. *)
Definition compact_ok (cfg : Config) (m : kvmap) : Prop :=
  ∀ v, m !! CompactKey cfg = Some v → (8 <= length (content v))%nat.

(** The compact revision does not forbid a read at [R]. *)
Definition not_compacted (cfg : Config) (m : kvmap) (R : Z) : Prop :=
  ∀ v, m !! CompactKey cfg = Some v → be_value (take 8 (content v)) <= R.

Section scan_read.
Context {S : Type} `{KvSpec S} `{Backoff}.
Context (cfg : Config) (m : kvmap) (R : Z).
Hypothesis (Htomb : Tombstone cfg = tombStoneBytes) (HR : is_uint64 R) (Hm : store_ok m)
           (Hcr : compact_ok cfg m).

Definition holds (s : S) : Prop := kv_inv s ∧ kv_view s = m.

Lemma wp_checkCompactRace_read s :
  holds s →
  wp (checkCompactRace cfg R false) (λ e s', holds s' ∧ (e = None → not_compacted cfg m R) ∧
    (KvReliable S → not_compacted cfg m R → e = None)) s.
Proof using Hcr Hm.
  intros [Hinv Hv]. unfold checkCompactRace. apply wp_bind.
  eapply wp_mono; [apply (wp_and _ (KvReliable S));
    [by apply kv_get_spec | intros ?; by apply kv_get_ok]|].
  simpl. intros [v e] s' [(Hinv' & Hv' & Hg) Hrel].
  rewrite Hv in Hv', Hg, Hrel. unfold get_post in Hg; simpl in Hg, Hrel. destruct e as [e|].
  - case_bool_decide as E; apply wp_ret; (split; [done|]); split; try done.
    + intros _ w Hw. destruct Hg as [_ Hg]. rewrite Hg in Hw by done. done.
    + intros Hr. specialize (Hrel Hr). destruct (m !! CompactKey cfg); naive_solver.
  - apply wp_bind. unfold Uint64. pose proof (Hcr v Hg) as Hlen.
    destruct (Nat.leb_spec 8 (length (content v))); [|lia]. eapply wp_lift_opt; [done|].
    destruct (Z.ltb_spec R (be_value (take 8 (content v)))); apply wp_ret; (split; [done|]).
    + split; [done|]. intros _ Hnc. specialize (Hnc v Hg). lia.
    + split; [|done]. intros _ w Hw. rewrite Hg in Hw. by simplify_eq.
Qed.

(** No poll of the context reports a cancellation, no iterator fails. *)
Definition all_smooth (ctx : nat → list bool) : Prop :=
  (∀ i, ctx i = []) ∧
  ∀ x y ts s, kv_inv s → wp (kv_iter x y ts 0) (λ r _, ∃ it, r = inr it ∧ it_end it = EOF) s.

(** What a worker of a read scan reports. *)
Definition worker_result (sm : Prop) (receiver : resultReceiver)
    (r : Z * option err * resultReceiver * list StreamRangeResponse) (l : list KeyValue) : Prop :=
  (∃ out, (r.1.2, r.2) = flushed (feed l (rcv_fork receiver, out)) ∧ (sm → out = [])) ∧
  (unlimited receiver → r.1.1.1 = Z.of_nat (length l)).

Lemma reset_fork r : rcv_reset (rcv_fork r) = rcv_fork r.
Proof. by destruct r. Qed.

Lemma unlimited_fork r : unlimited r → unlimited (rcv_fork r).
Proof. by destruct r. Qed.

Lemma wp_scan_worker sm tso receiver ctx p s :
  (sm → ctx = [] ∧ iter_ok (mkWorkerConfig p tso R (Tombstone cfg) false 0) s) →
  holds s → aligned (Start p) → aligned (End p) → bytes_le (Start p) (End p) →
  wp (scan_worker (mkWorkerConfig p tso R (Tombstone cfg) false 0) receiver ctx) (λ r s',
    holds s' ∧ (sm → r.1.1.2 = None) ∧
    (r.1.1.2 = None → ∀ l, range_result m (Start p) (End p) R l →
                           worker_result sm receiver r l)) s.
Proof using Htomb HR Hm.
  intros Hsm Hs Ha Hb Hab. unfold scan_worker, wp. cbv beta.
  set (c := mkWorkerConfig p tso R (Tombstone cfg) false 0).
  set (w := mkWstate s [] (rcv_fork receiver) [] ctx).
  pose proof (wp_runWithBackoffRetry c m eq_refl eq_refl Htomb HR Hm Ha Hb Hab w Hs) as Hw.
  unfold wp in *. fold w. destruct (runWithBackoffRetry c w) as [[w' [cnt e]]|]; [|done].
  destruct Hw as (Hw' & Hres & Hok). split; [done|]. split; [by intros ?%Hsm%Hok|].
  intros He l Hl. simpl in He. destruct (Hres He l Hl) as [(out & Hout & Hnil) Hcnt]. split.
  - exists out. simpl in *. rewrite reset_fork in Hout. split; [done|]. by intros ?%Hsm%Hnil.
  - intros Hu. by apply Hcnt, unlimited_fork.
Qed.

Lemma wp_scan_workers tso receiver ctx a b idx ps s :
  holds s → cover a b ps → aligned a → aligned b →
  wp (scan_workers (λ p, mkWorkerConfig p tso R (Tombstone cfg) false 0) receiver ctx idx ps)
    (λ rs s', holds s' ∧ (all_smooth ctx → first_err ((λ r, r.1.1.2) <$> rs) = None) ∧
      (first_err ((λ r, r.1.1.2) <$> rs) = None →
       ∃ ls, Forall2 (worker_result (all_smooth ctx) receiver) rs ls ∧ range_result m a b R (concat ls))) s.
Proof using Htomb HR Hm.
  revert a idx s. induction ps as [|p ps IH]; intros a idx s Hs Hc Ha Hb; [done|].
  destruct Hc as (Est & Hle & Hc). subst a. simpl.
  assert (aligned (End p)) as Hend by (destruct ps; [by rewrite Hc | apply Hc]).
  destruct (range_result_exists m (Start p) (End p) R Hm HR Ha Hend) as [l Hl].
  apply wp_bind. eapply wp_mono; [apply (wp_scan_worker (all_smooth ctx)); try done|].
  { intros [Hctx Hi]. split; [done|]. apply Hi, Hs. }
  intros r s1 (Hs1 & Hok & Hr). apply wp_bind. destruct ps as [|p' ps].
  - wp_steps. subst b. split; [done|]. destruct (r.1.1.2) eqn:E; [naive_solver|].
    split; [done|]. intros _. exists [l]. split.
    + constructor; [by apply Hr | constructor].
    + simpl. by rewrite app_nil_r.
  - destruct Hc as [_ Hc]. eapply wp_mono; [by apply (IH (End p))|]. intros rs s2 (Hs2 & Hoks & Hrs).
    wp_steps. split; [done|]. destruct (r.1.1.2) eqn:E; [naive_solver|]. split; [done|]. intros Hf.
    destruct (Hrs Hf) as (ls & Hls & Hres). exists (l :: ls). split; [constructor; [by apply Hr | done]|].
    simpl. apply range_result_app with (b := End p); try done.
    by eapply cover_le.
Qed.

Context `{!KvPartitions S}.

Definition sc_holds (sc : scanner S) : Prop := holds (sc_store sc).

(** An engine without failures, no cancellation, and the revision not compacted. *)
Definition reliable (ctx : nat → list bool) : Prop :=
  KvReliable S ∧ (∀ i, ctx i = []) ∧ not_compacted cfg m R.

Lemma reliable_smooth ctx : reliable ctx → all_smooth ctx.
Proof.
  intros (Hr & Hc & _). split; [done|]. intros x y ts s Hs.
  exact (kv_iter_ok x y ts 0 s Hs).
Qed.

Lemma wp_scan_read now ctx a b receiver sc :
  sc_holds sc → internal_ok a → aligned a → aligned b → bytes_le a b →
  (∀ rs ls, Forall2 (worker_result (all_smooth ctx) receiver) rs ls →
            is_Some (merge_all receiver ((λ r, r.1.2) <$> rs))) →
  wp (scan cfg now ctx a b R false receiver) (λ r sc', sc_holds sc' ∧
    (reliable ctx → sr_err r = None) ∧
    (sr_err r = None → not_compacted cfg m R ∧
      ∃ rs ls, Forall2 (worker_result (all_smooth ctx) receiver) rs ls ∧ range_result m a b R (concat ls) ∧
        merge_all receiver ((λ r, r.1.2) <$> rs) = Some (sr_receiver r) ∧
        sr_count r = int64 (foldr Z.add 0 ((λ r, r.1.1.1) <$> rs)) ∧
        sr_streams r = (λ r, r.2 ++ (rcv_close r.1.2).2) <$> rs)) sc.
Proof using All.
  intros Hs Hok Ha Hb Hab Hmerge. unfold scan, sc_on_store. wp_steps.
  eapply wp_mono; [apply (wp_and _ (reliable ctx));
    [apply kv_tso_spec, Hs | intros (? & _); by apply kv_tso_ok, Hs]|].
  intros [tso e] s1 [(Hinv1 & Hv1 & _) Hr1]. simpl in *.
  assert (holds s1) as Hs1 by (split; [done|]; rewrite Hv1; apply Hs).
  destruct e as [e|]; wp_steps; [naive_solver|].
  eapply wp_mono; [by apply wp_checkCompactRace_read|]. intros e s2 (Hs2 & Hnc & Hr2). simpl.
  destruct e as [e|]; wp_steps; [split; [done|]; split; [|done]; intros (Hr & _ & ?); by apply Hr2 in Hr|].
  specialize (Hnc eq_refl).
  eapply wp_mono; [apply (wp_and _ (reliable ctx));
    [by apply kv_partitions_spec; [apply Hs2|] | intros (? & _); by apply kv_partitions_ok, Hs2]|].
  intros [ps e] s3 [(Hinv3 & Hv3 & Hps) Hr3]. simpl in *.
  assert (holds s3) as Hs3 by (split; [done|]; rewrite Hv3; apply Hs2).
  destruct e as [e|]; wp_steps; [naive_solver|]. destruct Hps as (ps' & Hperm & Hchain).
  destruct (adjust_cover a b ps' ps Hok Ha Hperm Hchain) as (qs & Eqs & Hcover).
  eapply wp_lift_opt; [done|]. wp_steps.
  eapply wp_mono; [by apply (wp_scan_workers tso receiver ctx a b 0 qs s3)|].
  intros rs s4 (Hs4 & Hr4 & Hrs). simpl. destruct (first_err _) as [e|] eqn:Ef; wp_steps.
  { split; [done|]. split; [|done]. intros Hr%reliable_smooth. by apply Hr4 in Hr. }
  destruct (Hrs eq_refl) as (ls & Hls & Hres). destruct (Hmerge rs ls Hls) as [merged Em].
  eapply wp_lift_opt; [exact Em|]. wp_steps. do 2 (split; [done|]). intros _. split; [done|].
  exists rs, ls. done.
Qed.

(** The merge of the workers' results. *)
Lemma merge_common sm rs ls acc :
  Forall2 (worker_result sm (commonResultReceiver [] 0)) rs ls →
  merge_all (commonResultReceiver acc 0) ((λ r, r.1.2) <$> rs) =
  Some (commonResultReceiver (acc ++ concat ls) 0).
Proof.
  intros Hf. revert acc. induction Hf as [|r l rs ls [(out & Hr & _) _] Hf IH]; intros acc.
  - simpl. by rewrite app_nil_r.
  - rewrite fmap_cons. simpl in Hr. rewrite feed_common in Hr by done.
    unfold flushed in Hr; simpl in Hr. injection Hr as -> _. simpl. rewrite IH.
    by rewrite <-app_assoc.
Qed.

Lemma wp_Range_unlimited ctx a b limit sc :
  sc_holds sc → internal_ok a → aligned a → aligned b → bytes_le a b → limit <= 0 →
  wp (Range cfg ctx a b R limit) (λ r sc', sc_holds sc' ∧ (reliable ctx → r.2 = None) ∧
    (r.2 = None → not_compacted cfg m R ∧ range_result m a b R r.1)) sc.
Proof using All.
  intros Hs Hok Ha Hb Hab Hlim. unfold Range. destruct (Z.ltb_spec 0 limit); [lia|].
  apply wp_bind. eapply wp_mono; [apply wp_scan_read; try done|].
  - intros rs ls Hf. rewrite (merge_common (all_smooth ctx) rs ls []) by done. eauto.
  - intros r sc' (Hs' & Hrel & Hr). destruct (sr_err r) as [e|].
    + apply wp_ret. naive_solver.
    + destruct (Hr eq_refl) as (Hnc & rs & ls & Hf & Hres & Em & _).
      rewrite (merge_common (all_smooth ctx) rs ls []) in Em by done. injection Em as <-. by apply wp_ret.
Qed.

Lemma wp_rangeWithLimit ctx a b limit sc :
  sc_holds sc → aligned a → aligned b → bytes_le a b → 0 < limit →
  wp (rangeWithLimit cfg ctx a b R limit) (λ r sc', sc_holds sc' ∧
    (reliable (λ _, ctx) → r.2 = None) ∧
    (r.2 = None → not_compacted cfg m R ∧
      ∀ l, range_result m a b R l → r.1 = take (Z.to_nat limit) l)) sc.
Proof using All.
  intros Hs Ha Hb Hab Hlim. unfold rangeWithLimit, sc_on_store. wp_steps.
  eapply wp_mono; [apply (wp_and _ (reliable (λ _, ctx)));
    [apply kv_tso_spec, Hs | intros (? & _); by apply kv_tso_ok, Hs]|].
  intros [tso e] s1 [(Hinv1 & Hv1 & _) Hr1]. simpl in *.
  assert (holds s1) as Hs1 by (split; [done|]; rewrite Hv1; apply Hs).
  destruct e as [e|]; wp_steps; [naive_solver|].
  eapply wp_mono; [by apply wp_checkCompactRace_read|]. intros e s2 (Hs2 & Hnc & Hr2). simpl.
  destruct e as [e|]; wp_steps; [split; [done|]; split; [|done]; intros (Hr & _ & ?); by apply Hr2 in Hr|].
  specialize (Hnc eq_refl).
  set (c := mkWorkerConfig (mkPartition a b) tso R (Tombstone cfg) false 0).
  set (w := mkWstate s2 [] (commonResultReceiver [] limit) [] ctx).
  pose proof (wp_run_read c m eq_refl eq_refl Htomb HR Hm Ha Hb Hab w Hs2) as Hw.
  unfold wp in *. cbn [sc_store]. fold c. fold w.
  destruct (run c w) as [[w' [cnt e]]|]; [|done].
  destruct Hw as (Hw' & _ & Hres & Hsm). split; [done|].
  assert (reliable (λ _, ctx) → e = None) as Hrel.
  { intros [Hctx Hi]%reliable_smooth. apply Hsm. split; [apply (Hctx O)|]. apply Hi, Hs2. }
  destruct e as [e|]; [naive_solver|]. simpl in *. split; [by destruct (w_receiver w')|].
  specialize (Hres eq_refl).
  assert (∀ l, range_result m a b R l → w_receiver w' =
    commonResultReceiver (take (Z.to_nat limit) l) limit) as Hrcv.
  { intros l Hl. destruct (Hres l Hl) as [Hr _]. rewrite feed_limited in Hr by (simpl; lia).
    unfold flushed in Hr; simpl in Hr. injection Hr as -> _. by rewrite Nat.sub_0_r. }
  destruct (range_result_exists m a b R Hm HR Ha Hb) as [l0 Hl0].
  rewrite (Hrcv l0 Hl0). split; [done|]. intros l Hl.
  by rewrite (range_result_unique _ _ _ _ _ _ Hl Hl0).
Qed.

Lemma count_results sm rs ls :
  Forall2 (worker_result sm emptyResultReceiver) rs ls →
  foldr Z.add 0 ((λ r, r.1.1.1) <$> rs) = Z.of_nat (length (concat ls)).
Proof.
  induction 1 as [|r l rs ls [_ Hr] _ IH]; [done|]. rewrite fmap_cons. cbn [foldr concat].
  rewrite IH, length_app, Hr by done. lia.
Qed.

(** The number of visible keys, at the width of Go's int. *)
Lemma wp_Count ctx a b sc :
  sc_holds sc → internal_ok a → aligned a → aligned b → bytes_le a b →
  wp (Count cfg ctx a b R) (λ r sc', sc_holds sc' ∧ (reliable ctx → r.2 = None) ∧
    (r.2 = None → not_compacted cfg m R ∧
      ∀ l, range_result m a b R l → r.1 = int64 (Z.of_nat (length l)))) sc.
Proof using All.
  intros Hs Hok Ha Hb Hab. unfold Count. apply wp_bind.
  assert (∀ rs, merge_all emptyResultReceiver rs = Some emptyResultReceiver) as Hmerge
    by (induction rs; done).
  eapply wp_mono; [apply wp_scan_read; try done; eauto|].
  intros r sc' (Hs' & Hrel & Hr). apply wp_ret. do 2 (split; [done|]). simpl. intros He.
  destruct (Hr He) as (Hnc & rs & ls & Hf & Hres & _ & -> & _). split; [done|].
  intros l Hl. rewrite (range_result_unique _ _ _ _ _ _ Hl Hres). f_equal. by eapply count_results.
Qed.

(** Either kind of range read: the visible key-values, cut at a positive limit. *)
Lemma wp_Range ctx a b limit sc :
  sc_holds sc → internal_ok a → aligned a → aligned b → bytes_le a b →
  wp (Range cfg ctx a b R limit) (λ r sc', sc_holds sc' ∧ (reliable ctx → r.2 = None) ∧
    (r.2 = None → not_compacted cfg m R ∧ ∀ l, range_result m a b R l →
      r.1 = if 0 <? limit then take (Z.to_nat limit) l else l)) sc.
Proof using All.
  intros Hs Hok Ha Hb Hab. destruct (Z.ltb_spec 0 limit).
  - unfold Range. destruct (Z.ltb_spec 0 limit); [|lia].
    eapply wp_mono; [by apply wp_rangeWithLimit|]. intros r sc' (Hs' & Hrel & Hr).
    split; [done|]. split; [|done]. intros (? & Hc & ?). apply Hrel.
    split; [done|]. split; [|done]. intros _. apply (Hc O).
  - eapply wp_mono; [by apply wp_Range_unlimited|]. intros r sc' (Hs' & Hrel & Hr).
    do 2 (split; [done|]). intros He. destruct (Hr He) as [Hnc Hres]. split; [done|].
    intros l Hl. by rewrite (range_result_unique _ _ _ _ _ _ Hl Hres).
Qed.

Definition msg_kvs (m : StreamRangeResponse) : list KeyValue := rrs_Kvs (srs_RangeResponse m).

(** A message of a worker. *)
Definition stream_part (m : StreamRangeResponse) : Prop :=
  rrs_More (srs_RangeResponse m) = true ∧ srs_Err m = None ∧ rrs_Revision (srs_RangeResponse m) = 0.

(** What a worker sends: after what its failed attempts had sent, its key-values. *)
Lemma stream_worker sm r l readRev :
  worker_result sm (streamResultReceiver readRev []) r l →
  ∃ out msgs, r.2 ++ (rcv_close r.1.2).2 = out ++ msgs ∧ (sm → out = []) ∧
    concat (msg_kvs <$> msgs) = l ∧ Forall stream_part msgs.
Proof.
  intros [(out & Hr & Hout) _]. simpl in Hr.
  destruct (feed_stream l 0 [] out) as (batch & msgs & Ef & Ec & Hmsgs). rewrite Ef in Hr.
  unfold flushed in Hr. simpl in *. injection Hr as -> ->.
  assert (Forall stream_part msgs) as Hmsgs' by (eapply Forall_impl; [done|]; unfold stream_part; naive_solver).
  destruct batch as [|x batch]; simpl.
  - exists out, msgs. rewrite !app_nil_r. rewrite app_nil_r in Ec. done.
  - exists out, (msgs ++ [stream_msg 0 (x :: batch)]). rewrite !app_nil_r, fmap_app, concat_app. simpl.
    rewrite app_nil_r, app_assoc. do 3 (split; [done|]).
    apply Forall_app. split; [done|]. by repeat constructor.
Qed.

Lemma stream_messages (sm : Prop) r l readRev :
  sm → worker_result sm (streamResultReceiver readRev []) r l →
  concat (msg_kvs <$> (r.2 ++ (rcv_close r.1.2).2)) = l ∧ Forall stream_part (r.2 ++ (rcv_close r.1.2).2).
Proof.
  intros Hsm Hr. destruct (stream_worker _ _ _ _ Hr) as (out & msgs & -> & Hout & Hl & Hmsgs).
  by rewrite (Hout Hsm).
Qed.

(** The messages of the workers carry the visible key-values. *)
Lemma wp_RangeStream ctx a b sc :
  sc_holds sc → internal_ok a → aligned a → aligned b → bytes_le a b → reliable ctx →
  wp (RangeStream cfg ctx a b R) (λ r sc', sc_holds sc' ∧
    range_result m a b R (concat (msg_kvs <$> concat r.1)) ∧
    Forall (Forall (λ m, rrs_More (srs_RangeResponse m) = true ∧ srs_Err m = None)) r.1 ∧
    r.2 = getListStreamEnd R None) sc.
Proof using All.
  intros Hs Hok Ha Hb Hab Hrel. unfold RangeStream. apply wp_bind.
  assert (∀ rs rr b, merge_all (streamResultReceiver rr b) rs = Some (streamResultReceiver rr b))
    as Hmerge by (induction rs; done).
  eapply wp_mono; [apply wp_scan_read; try done; eauto|].
  intros r sc' (Hs' & Hok' & Hr). apply wp_ret. split; [done|]. simpl. rewrite (Hok' Hrel).
  destruct (Hr (Hok' Hrel)) as (_ & rs & ls & Hf & Hres & _ & _ & ->).
  apply reliable_smooth in Hrel.
  assert (concat (msg_kvs <$> concat ((λ r, r.2 ++ (rcv_close r.1.2).2) <$> rs)) = concat ls ∧
    Forall (Forall (λ m, rrs_More (srs_RangeResponse m) = true ∧ srs_Err m = None))
      ((λ r, r.2 ++ (rcv_close r.1.2).2) <$> rs)) as [-> ?]; [|done].
  clear Hres Hr. induction Hf as [|x l rs ls Hx Hf [IH1 IH2]]; [by split|].
  destruct (stream_messages _ _ _ _ Hrel Hx) as [Hx1 Hx2].
  rewrite fmap_cons. split.
  - cbn [concat]. rewrite fmap_app, concat_app. by rewrite Hx1, IH1.
  - constructor; [|done]. eapply Forall_impl; [exact Hx2|]. by intros m' (? & ? & _).
Qed.
End scan_read.
