(* ===== verification/Compaction.v ===== *)
(** Compaction: a compaction at revision [R] removes entries of the engine and
    never changes what a read at a revision not below [R] sees, whichever of
    its deletions fail and wherever it is interrupted.

    Protected are the keys a compaction must not touch the reads of: valid keys
    that do not hold expiring events. *)

From S2P Require Import Prelude GoMonad Storage Coder Mvcc Proto Scanner ScanSpec ScanRead.

(** * Deletions that readers at or above [R] cannot see *)

Section pres.
Context (R : Z) (protected : bytes → Prop).
Hypothesis (HR : is_uint64 R) (Hprot : ∀ k, protected k → valid_key k).

Definition record_kept (m m' : kvmap) (k : bytes) : Prop :=
  m' !! EncodeRevisionKey k = m !! EncodeRevisionKey k ∨
  m' !! EncodeRevisionKey k = None ∧
  ∃ v, m !! EncodeRevisionKey k = Some v ∧ length (content v) = 9%nat.

(** Reads of protected keys are the same, and only records of deleted keys
    are dropped. *)
Definition pres (m m' : kvmap) : Prop :=
  ∀ k, protected k →
    (∀ R', R <= R' → is_uint64 R' → visible m' k R' = visible m k R') ∧ record_kept m m' k.

#[global] Instance pres_refl : Reflexive pres.
Proof. intros m k _. split; [done | by left]. Qed.

#[global] Instance pres_trans : Transitive pres.
Proof.
  intros m1 m2 m3 H12 H23 k Hk. destruct (H12 k Hk) as [V1 C1], (H23 k Hk) as [V2 C2].
  split; [intros; by rewrite V2, V1|].
  destruct C2 as [E2|(E2 & v & Ev & Hl)], C1 as [E1|(E1 & w & Ew & Hw)].
  - left. congruence.
  - right. split; [congruence | eauto].
  - right. split; [done|]. exists v. split; congruence.
  - right. split; [done | eauto].
Qed.

Lemma visible_ext m m' k R' :
  store_ok m → store_ok m' → valid_key k → is_uint64 R' →
  (∀ r v, is_tombstone v = false → is_latest m' k R' r v ↔ is_latest m k R' r v) →
  visible m' k R' = visible m k R'.
Proof.
  intros Hm Hm' Hk Hu E. destruct (visible m k R') as [[r v]|] eqn:Ev.
  - apply visible_Some in Ev as [? ?]; try done. apply visible_Some; try done.
    split; [by apply E | done].
  - destruct (visible m' k R') as [[r v]|] eqn:Ev'; [|done].
    apply visible_Some in Ev' as [Hl ?]; try done.
    assert (visible m k R' = Some (r, v)); [|congruence].
    apply visible_Some; try done. split; [by apply E | done].
Qed.

Lemma store_ok_delete ik m : store_ok m → store_ok (delete ik m).
Proof. intros Hm k v Hv. apply lookup_delete_Some in Hv as [_ Hv]. by eapply Hm. Qed.

Lemma obj_delete_ne k r m k' r' :
  is_uint64 r → is_uint64 r' → (k', r') ≠ (k, r) →
  obj (delete (EncodeObjectKey k r) m) k' r' = obj m k' r'.
Proof.
  intros Hr Hr' Hne. unfold obj. apply lookup_delete_ne. intros E.
  apply EncodeObjectKey_inj in E as [-> ->]; done.
Qed.

Lemma record_kept_delete k r m k' :
  is_uint64 r → k' ≠ k ∨ r ≠ 0 → record_kept m (delete (EncodeObjectKey k r) m) k'.
Proof.
  intros Hr Hc. pose proof zero_is_uint64. left. apply lookup_delete_ne. intros E.
  apply EncodeObjectKey_inj in E as [-> ->]; [|done..]. naive_solver.
Qed.

(** Other keys are not affected by a deletion. *)
Lemma pres_delete_other k r m k' :
  store_ok m → is_uint64 r → k' ≠ k → protected k' →
  (∀ R', R <= R' → is_uint64 R' →
     visible (delete (EncodeObjectKey k r) m) k' R' = visible m k' R') ∧
  record_kept m (delete (EncodeObjectKey k r) m) k'.
Proof using Hprot.
  intros Hm Hr Hne Hk'. split; [|apply record_kept_delete; auto].
  intros R' _ Hu. apply visible_ext; try done; [by apply store_ok_delete | by apply Hprot|].
  assert (∀ q, 0 < q <= R' → obj (delete (EncodeObjectKey k r) m) k' q = obj m k' q) as E.
  { intros q Hq. apply obj_delete_ne; [done | unfold is_uint64 in *; lia | congruence]. }
  intros q v _. unfold is_latest. split; intros (H1 & H2 & H3); (split; [|split; [done|]]).
  - by rewrite <-E.
  - intros q' v' Hv' Hq'. rewrite <-E in Hv' by done. eauto.
  - by rewrite E.
  - intros q' v' Hv' Hq'. rewrite E in Hv' by done. eauto.
Qed.

Lemma pres_delete_unprotected k r m :
  store_ok m → is_uint64 r → ¬ protected k → pres m (delete (EncodeObjectKey k r) m).
Proof using Hprot. intros Hm Hr Hk k' Hk'. apply pres_delete_other; try done. by intros ->. Qed.

(** Deleting a version [r <= R] of [k] is invisible when a newer version up to
    [R] is there, or when it is a tombstone with nothing below it. *)
Lemma pres_delete_version k r v m :
  store_ok m → 0 < r <= R → obj m k r = Some v →
  (∃ r2 v2, r < r2 <= R ∧ obj m k r2 = Some v2) ∨
  is_tombstone v = true ∧ (∀ r' v', obj m k r' = Some v' → ¬ 0 < r' < r) →
  pres m (delete (EncodeObjectKey k r) m).
Proof using All.
  intros Hm Hr Hv Hwhy k' Hk'. assert (is_uint64 r) as Hu by (unfold is_uint64 in *; lia).
  destruct (decide (k' = k)) as [->|]; [|by apply pres_delete_other].
  split; [|apply record_kept_delete; [done | right; lia]].
  intros R' HR' Hu'. apply visible_ext; try done; [by apply store_ok_delete | by apply Hprot|].
  assert (∀ q, 0 < q <= R' → q ≠ r → obj (delete (EncodeObjectKey k r) m) k q = obj m k q) as E.
  { intros q Hq Hne. apply obj_delete_ne; [done | unfold is_uint64 in *; lia | congruence]. }
  assert (obj (delete (EncodeObjectKey k r) m) k r = None) as Er by apply lookup_delete_eq.
  intros q w Hw. unfold is_latest. split; intros (H1 & H2 & H3).
  - assert (q ≠ r) by congruence. rewrite E in H1 by done.
    split; [done|]. split; [done|]. intros q' v' Hv' Hq'.
    destruct (decide (q' = r)) as [->|]; [|eapply H3; [by rewrite E|done]].
    destruct Hwhy as [(r2 & v2 & Hr2 & Hv2)|[Ht Hlow]].
    + assert (r2 <= q); [|lia]. eapply H3; [rewrite E; [done|lia|lia]|lia].
    + destruct (decide (q < r)); [|lia]. exfalso. apply (Hlow q w); [done | lia].
  - assert (q ≠ r).
    { intros ->. destruct Hwhy as [(r2 & v2 & Hr2 & Hv2)|[Ht _]].
      - assert (r2 <= r); [|lia]. eapply H3; [done | lia].
      - congruence. }
    split; [by rewrite E|]. split; [done|]. intros q' v' Hv' Hq'.
    destruct (decide (q' = r)) as [->|]; [congruence|]. rewrite E in Hv' by done. eauto.
Qed.

Lemma pres_delete_record k v m :
  store_ok m → m !! EncodeRevisionKey k = Some v → length (content v) = 9%nat →
  pres m (delete (EncodeRevisionKey k) m).
Proof using Hprot.
  intros Hm Hv Hl k' Hk'. pose proof zero_is_uint64 as H0.
  destruct (decide (k' = k)) as [->|]; [|by apply pres_delete_other].
  split; [|right; split; [apply lookup_delete_eq | eauto]].
  intros R' _ Hu. unfold visible. rewrite (latest_ext m); try done.
  - by apply store_ok_delete.
  - by apply Hprot.
  - intros r Hr. apply obj_delete_ne; [done | unfold is_uint64 in *; lia|].
    intros [= ->]. lia.
Qed.
End pres.

(** * The loop of a compaction worker *)

Section compact_worker.
Context {S : Type} `{KvSpec S}.
Context (c : workerConfig) (m0 : kvmap).
Local Abbreviation R := (w_revision c).
Hypothesis (Hcompact : w_compact c = true) (HR : is_uint64 R) (Hm0 : store_ok m0)
           (Htomb : w_tombstone c = tombStoneBytes).

(** Valid, not empty, and without a time to live for the worker to enforce. *)
Definition protected (k : bytes) : Prop :=
  valid_key k ∧ k ≠ [] ∧
  (kv_support_ttl = true ∨ timeoutRevision c = 0 ∨ contains k (str "/events/") = false).

Local Abbreviation view w := (kv_view (w_store w)).
Local Abbreviation failed w := (lastCompactFailedRawKey w).

(** The state of the engine during the loop. *)
Record csafe (rest : list kvitem) (w : wstate S) : Prop := {
  cs_inv : kv_inv (w_store w);
  cs_sub : view w ⊆ m0;
  cs_rest it : it ∈ rest → view w !! it_key it = Some (it_val it);
  cs_pres : pres R protected m0 (view w);
}.

Definition has_item (k : bytes) (r : Z) (rest : list kvitem) : Prop :=
  ∃ it, it ∈ rest ∧ it_key it = EncodeObjectKey k r.

(** Before an item: a version that is not ahead is the previous one, or the
    deletion of a version of its key failed, or its key is behind. *)
Record cinv (rest : list kvitem) (v : loopVars) (w : wstate S) : Prop := {
  ci_safe : csafe rest w;
  ci_lower k r :
    protected k → 0 < r <= R → is_Some (obj (view w) k r) →
    has_item k r rest ∨ (∀ r', is_uint64 r' → ¬ has_item k r' rest) ∨
    k = prevUserKey v ∧ (r = prevRevision v ∨ failed w = k);
  ci_prev k r :
    prevUserKey v ≠ [] ∨ 0 < prevRevision v → is_uint64 r → has_item k r rest →
    ver_lt (lv_prev v) (k, r, None);
  ci_prevR : 0 <= prevRevision v <= R;
}.

Lemma csafe_store_ok rest w : csafe rest w → store_ok (view w).
Proof using Hm0.
  intros Hs ik v Hv. apply (Hm0 ik v). eapply lookup_weaken; [done|]. apply Hs.
Qed.

(** The engine after a deletion attempt for [raw]: [key] is still there and
    [raw] is marked, or it is gone and [raw] was not marked before. *)
Definition del_outcome (key raw : bytes) (w w' : wstate S) : Prop :=
  kv_inv (w_store w') ∧ w_receiver w' = w_receiver w ∧
  ((view w' = view w ∧ failed w' = raw) ∨
   (view w' = delete key (view w) ∧ (failed w = raw → raw = []) ∧
    (failed w' = failed w ∨ failed w' = raw))).

Lemma isSkipped_true raw (w : wstate S) : isSkippedRawKey raw w = true → failed w = raw.
Proof. unfold isSkippedRawKey. destruct (failed w); [done|]. by intros ?%bytes_eqb_spec. Qed.

Lemma isSkipped_false raw (w : wstate S) : isSkippedRawKey raw w = false → failed w = raw → raw = [].
Proof.
  unfold isSkippedRawKey. intros E <-. destruct (failed w); [done|]. by rewrite bytes_eqb_refl in E.
Qed.

Lemma wp_compactKey key raw w :
  kv_inv (w_store w) → wp (compactKey key raw) (λ _ w', del_outcome key raw w w') w.
Proof.
  intros Hinv. unfold compactKey, compact_with, on_store. wp_steps.
  destruct (isSkippedRawKey raw w) eqn:Esk; wp_steps.
  { split; [done|]. split; [done|]. left. split; [done|]. by apply isSkipped_true. }
  pose proof (isSkipped_false _ _ Esk) as Hraw.
  eapply wp_mono; [by apply kv_del_spec|]. simpl. intros e s' [Hinv' Hd]. unfold del_post in Hd.
  destruct e as [e|]; wp_steps; [|split; [done|]; split; [done|]; right; auto].
  destruct Hd as [Hcas Hd]. unfold updateSkippedRawKey. rewrite Hcas; simpl.
  split; [done|]. split; [done|]. simpl. destruct Hd as [->|[_ ->]]; [by left|].
  right. auto.
Qed.

Definition cur_outcome (key raw : bytes) (w w' : wstate S) : Prop :=
  kv_inv (w_store w') ∧ w_receiver w' = w_receiver w ∧
  (view w' = view w ∨ view w' = delete key (view w)) ∧ (failed w' = failed w ∨ failed w' = raw).

Lemma wp_compactCurrent it raw w :
  kv_inv (w_store w) → wp (compactCurrent it raw) (λ _ w', cur_outcome (it_key it) raw w w') w.
Proof.
  intros Hinv. unfold compactCurrent, compact_with, on_store. wp_steps.
  destruct (isSkippedRawKey raw w) eqn:Esk; wp_steps.
  { split; [done|]. split; [done|]. auto. }
  eapply wp_mono; [by apply kv_del_current_spec|]. simpl. intros e s' [Hinv' Hd].
  unfold del_current_post in Hd. destruct e as [e|]; wp_steps.
  - unfold updateSkippedRawKey. destruct (negb _); (split; [done|]; split; [done|]); simpl;
      (split; [|auto]); destruct Hd as [->|(_ & -> & _)]; auto.
  - split; [done|]. split; [done|]. split; [|auto]. right. by destruct Hd.
Qed.

Lemma del_cur_outcome key raw w w' : del_outcome key raw w w' → cur_outcome key raw w w'.
Proof. intros (? & ? & [[? ?]|(? & ? & ?)]); split; auto. Qed.

(** Deleting the key of an item keeps the engine's state safe. *)
Lemma csafe_delete rest k r raw w w' :
  csafe rest w → (∀ it, it ∈ rest → it_key it ≠ EncodeObjectKey k r) →
  (view w' = delete (EncodeObjectKey k r) (view w) →
   pres R protected (view w) (delete (EncodeObjectKey k r) (view w))) →
  cur_outcome (EncodeObjectKey k r) raw w w' → csafe rest w'.
Proof.
  intros Hs Hrest Hp (Hinv & _ & [E|E] & _); [split; rewrite ?E; try done; apply Hs|].
  specialize (Hp E). split; [done|..]; rewrite E.
  - etrans; [apply delete_subseteq | apply Hs].
  - intros it Hit. rewrite lookup_delete_ne; [by apply Hs|]. intros Ek. by apply (Hrest it).
  - etrans; [apply Hs | done].
Qed.

Lemma cur_outcome_sub key raw w w' : cur_outcome key raw w w' → view w' ⊆ view w.
Proof. intros (_ & _ & [->| ->] & _); [done | apply delete_subseteq]. Qed.

Lemma csafe_tail it rest w : csafe (it :: rest) w → csafe rest w.
Proof. intros Hs. split; try apply Hs. intros x Hx. apply Hs. by right. Qed.

Lemma csafe_nil rest w : csafe rest w → csafe [] w.
Proof. intros Hs. split; try apply Hs. by intros it ?%elem_of_nil. Qed.

#[local] Instance protected_dec k : Decision (protected k).
Proof. unfold protected. apply _. Defined.

Lemma obj_sub (m m' : kvmap) k r : m' ⊆ m → is_Some (obj m' k r) → is_Some (obj m k r).
Proof. intros Hsub [v Hv]. exists v. by eapply lookup_weaken. Qed.

Lemma protected_valid k : protected k → valid_key k.
Proof. by intros [? _]. Qed.

(** One item [it], at version [r] of [k], with [rest] ahead of it. *)
Section item.
Context (it : kvitem) (rest : list kvitem) (k : bytes) (r : Z).
Hypothesis (Ekey : it_key it = EncodeObjectKey k r) (Hr : is_uint64 r) (Hk : valid_key k)
           (Hsorted : ∀ it', it' ∈ rest → bytes_lt (it_key it) (it_key it'))
           (Hvalid : ∀ it' k' r', it' ∈ rest → it_key it' = EncodeObjectKey k' r' →
                                  is_uint64 r' → valid_key k').

Lemma rest_above k' r' :
  is_uint64 r' → has_item k' r' rest → bytes_lt k k' ∨ (k = k' ∧ r < r').
Proof using Ekey Hr Hk Hsorted Hvalid.
  intros Hr' (it' & Hit & E). pose proof (Hsorted it' Hit) as Hlt. rewrite Ekey, E in Hlt.
  apply EncodeObjectKey_lt in Hlt; try done. by eapply Hvalid.
Qed.

Lemma it_not_rest it' : it' ∈ rest → it_key it' ≠ EncodeObjectKey k r.
Proof using Ekey Hsorted.
  intros Hit E. pose proof (Hsorted it' Hit) as Hlt. rewrite E, Ekey in Hlt.
  by apply bytes_lt_irrefl in Hlt.
Qed.

Lemma has_item_cons k' r' :
  is_uint64 r' → has_item k' r' (it :: rest) → (k' = k ∧ r' = r) ∨ has_item k' r' rest.
Proof using Ekey Hk Hr.
  intros Hr' (it' & [->|Hit]%elem_of_cons & E); [left | right; by exists it'].
  rewrite Ekey in E. by apply EncodeObjectKey_inj in E as [-> ->].
Qed.

Lemma has_item_it : has_item k r (it :: rest).
Proof using Ekey. exists it. split; [left | done]. Qed.

(** A previous key other than this one has no items ahead. *)
Lemma behind v w k' :
  cinv (it :: rest) v w → k' = prevUserKey v → k' ≠ [] → k' ≠ k →
  ∀ r', is_uint64 r' → ¬ has_item k' r' rest.
Proof using All.
  intros Hc -> Hne Hk' r' Hr' Hi.
  destruct (ci_prev _ _ _ Hc k r (or_introl Hne) Hr has_item_it) as [Hlt|[? _]]; [|done].
  simpl in Hlt.
  apply rest_above in Hi as [Hlt'|[? _]]; [|congruence|done].
  apply (bytes_lt_irrefl k). by etrans.
Qed.

(** Moving on without remembering the item. *)
Lemma cinv_skip v v' w w' :
  cinv (it :: rest) v w → csafe rest w' → view w' ⊆ view w →
  failed w' = failed w ∨ failed w' = k → ¬ (protected k ∧ 0 < r <= R) → lv_prev v' = lv_prev v →
  cinv rest v' w'.
Proof using All.
  intros Hc Hs Hsub Hf Hnot Hv. injection Hv as Ek Er _. split; [done| | |].
  - intros k' r' Hp Hr' Hin. assert (is_uint64 r') by (unfold is_uint64 in *; lia).
    rewrite Ek, Er.
    destruct (ci_lower _ _ _ Hc k' r' Hp Hr' (obj_sub _ _ _ _ Hsub Hin)) as [Hi|[Hi|[Ep Hi]]].
    + apply has_item_cons in Hi as [[-> ->]|Hi]; [naive_solver | by left | done].
    + right; left. intros q Hq (x & Hx & E). apply (Hi q Hq). exists x. split; [by right | done].
    + destruct (decide (k' = k)) as [->|Hne].
      * right; right. split; [done|]. destruct Hi as [|Hi]; [by left|]. right.
        destruct Hf; congruence.
      * right; left. eapply behind; try done. by destruct Hp as (_ & ? & _).
  - intros k' r' Hne Hr' (x & Hx & E).
    assert (ver_lt (lv_prev v) (k', r', None)) as Hlt.
    { apply (ci_prev _ _ _ Hc); [by rewrite <-Ek, <-Er | done|]. exists x. split; [by right | done]. }
    unfold ver_lt, lv_prev in *; simpl in *. by rewrite Ek, Er.
  - rewrite Er. apply Hc.
Qed.

(** Moving on with the item as the previous one. *)
Lemma cinv_next v v' w w' :
  cinv (it :: rest) v w → csafe rest w' → view w' ⊆ view w →
  failed w' = failed w ∨ failed w' = k → r <= R →
  (∀ r', protected k → 0 < r' < r → is_Some (obj (view w') k r') → failed w' = k) →
  prevUserKey v' = k → prevRevision v' = r → cinv rest v' w'.
Proof using All.
  intros Hc Hs Hsub Hf HrR Hlow Ek Er. split; [done| | |].
  - intros k' r' Hp Hr' Hin. assert (is_uint64 r') by (unfold is_uint64 in *; lia).
    rewrite Ek, Er.
    destruct (ci_lower _ _ _ Hc k' r' Hp Hr' (obj_sub _ _ _ _ Hsub Hin)) as [Hi|[Hi|[Ep Hi]]].
    + apply has_item_cons in Hi as [[-> ->]|Hi]; [auto | by left | done].
    + destruct (decide (k' = k)) as [->|Hne]; [by destruct (Hi r Hr has_item_it)|].
      right; left. intros q Hq (x & Hx & E). apply (Hi q Hq). exists x. split; [by right | done].
    + destruct (decide (k' = k)) as [->|Hne].
      * right; right. split; [done|]. right. destruct Hi as [->|Hi]; [|destruct Hf; congruence].
        assert (prevRevision v < r) as Hpr.
        { destruct (ci_prev _ _ _ Hc k r) as [Hlt|[_ ?]]; simpl in *; try done.
          - left. rewrite <-Ep. apply Hp.
          - apply has_item_it.
          - rewrite <-Ep in Hlt. by apply bytes_lt_irrefl in Hlt. }
        eapply Hlow; try done. lia.
      * right; left. eapply behind; try done. by destruct Hp as (_ & ? & _).
  - intros k' r' _ Hr' Hi. unfold ver_lt, lv_prev; simpl. rewrite Ek, Er. by apply rest_above.
  - rewrite Er. unfold is_uint64 in Hr. lia.
Qed.

Hypothesis (Hrec : r = 0 → (8 <= length (content (it_val it)))%nat).

(** An expired item is dropped, with its key. *)
Lemma wp_compactIfExpired v v' w :
  cinv (it :: rest) v w → lv_prev v' = lv_prev v →
  wp (compactIfExpired c it k r (it_val it)) (λ e w',
    if e.1 then cinv rest v' w' else w' = w) w.
Proof using All.
  intros Hc Hv. pose proof (csafe_store_ok _ _ (ci_safe _ _ _ Hc)) as Hok.
  unfold compactIfExpired. destruct (kv_support_ttl || (timeoutRevision c =? 0)) eqn:Et;
    [by apply wp_ret|].
  apply orb_false_iff in Et as [Ettl Et]. apply Z.eqb_neq in Et.
  destruct (contains k (str "/events/")) eqn:Eev; [|by apply wp_ret].
  assert (¬ protected k) as Hnp by (intros (_ & _ & [?|[?|?]]); congruence).
  assert (∀ w', cur_outcome (it_key it) k w w' → cinv rest v' w') as Hskip.
  { intros w' Ho. pose proof (cur_outcome_sub _ _ _ _ Ho) as Hsub. rewrite Ekey in Ho.
    apply (cinv_skip v v' w w'); try done; [|by destruct Ho as (_ & _ & _ & ?)|naive_solver].
    eapply csafe_delete; [by eapply csafe_tail, Hc | apply it_not_rest | | done].
    intros _. apply pres_delete_unprotected; auto using protected_valid. }
  destruct (Z.eqb_spec r 0) as [E0|E0].
  - apply wp_bind. unfold Uint64. destruct (Nat.leb_spec 8 (length (content (it_val it)))); [|lia].
    eapply wp_lift_opt; [done|]. destruct (_ <=? _); [|by apply wp_ret]. apply wp_bind.
    eapply wp_mono; [apply wp_compactCurrent, Hc|]. intros e w' Ho. apply wp_ret. by apply Hskip.
  - destruct (_ <=? _); [|by apply wp_ret]. apply wp_bind.
    eapply wp_mono; [apply wp_compactKey, Hc|]. intros e w' Ho%del_cur_outcome.
    apply wp_ret. by apply Hskip.
Qed.

(** The state between the two deletions of an item. *)
Record cmid (v : loopVars) (w w' : wstate S) : Prop := {
  cm_safe : csafe (it :: rest) w';
  cm_sub : view w' ⊆ view w;
  cm_failed : failed w' = failed w ∨ failed w' = k;
  cm_lower r' : protected k → 0 < r' < r → is_Some (obj (view w') k r') → failed w' = k;
}.

Lemma lower_none v w r' :
  cinv (it :: rest) v w → protected k → 0 < r' < r → r <= R → is_Some (obj (view w) k r') →
  k = prevUserKey v ∧ (r' = prevRevision v ∨ failed w = k).
Proof using All.
  intros Hc Hp Hr' HrR Hin. assert (is_uint64 r') by (unfold is_uint64 in *; lia).
  destruct (ci_lower _ _ _ Hc k r' Hp) as [Hi|[Hi|?]]; [lia | done | | | done].
  - apply has_item_cons in Hi as [[_ ->]|Hi]; [lia| |done].
    apply rest_above in Hi as [Hlt|[_ ?]]; [|lia|done]. by apply bytes_lt_irrefl in Hlt.
  - by destruct (Hi r Hr (has_item_it)).
Qed.

Lemma cmid_refl v w :
  cinv (it :: rest) v w → r <= R → (k = prevUserKey v → prevRevision v <= 0) → cmid v w w.
Proof using All.
  intros Hc HrR Hprev. split; [apply Hc | done | by left|].
  intros r' Hp Hr' Hin. destruct (lower_none v w r' Hc Hp Hr' HrR Hin) as [Ek [E|?]]; [|done].
  specialize (Hprev Ek). lia.
Qed.

(** The previous version is deleted when this one supersedes it. *)
Lemma cmid_delete v w w' :
  cinv (it :: rest) v w → r <= R → k = prevUserKey v → 0 < prevRevision v →
  del_outcome (EncodeObjectKey k (prevRevision v)) k w w' → cmid v w w'.
Proof using All.
  intros Hc HrR Ek Hpr Ho. pose proof (del_cur_outcome _ _ _ _ Ho) as Hcur.
  pose proof (cur_outcome_sub _ _ _ _ Hcur) as Hsub.
  assert (is_uint64 (prevRevision v)) as Hpu
    by (pose proof (ci_prevR _ _ _ Hc); unfold is_uint64 in *; lia).
  assert (prevRevision v < r) as Hlt.
  { destruct (ci_prev _ _ _ Hc k r (or_intror Hpr) Hr has_item_it) as [Hl|[_ ?]]; simpl in *; [|done].
    rewrite <-Ek in Hl. by apply bytes_lt_irrefl in Hl. }
  pose proof (csafe_store_ok _ _ (ci_safe _ _ _ Hc)) as Hok.
  split; [|done|by destruct Hcur as (_ & _ & _ & ?)|].
  - apply (csafe_delete _ k (prevRevision v) k w w'); try done; [apply Hc| |].
    + intros x Hx E. assert (has_item k (prevRevision v) (it :: rest)) as Hi by by exists x.
      apply has_item_cons in Hi as [[_ ?]|Hi]; [lia| |done].
      apply rest_above in Hi as [Hl|[_ ?]]; [|lia|done]. by apply bytes_lt_irrefl in Hl.
    + intros _. destruct (decide (protected k)) as [Hp|Hp];
        [|apply pres_delete_unprotected; auto using protected_valid].
      assert (view w !! EncodeObjectKey k r = Some (it_val it)) as Hit.
      { rewrite <-Ekey. apply (cs_rest _ _ (ci_safe _ _ _ Hc)). left. }
      destruct (obj (view w) k (prevRevision v)) as [pv|] eqn:Epv.
      * eapply (pres_delete_version R protected HR protected_valid); eauto; [lia|].
        left. exists r, (it_val it). split; [lia | done].
      * unfold obj in Epv. by rewrite delete_id.
  - intros r' Hp Hr' Hin.
    destruct (lower_none v w r' Hc Hp Hr' HrR (obj_sub _ _ _ _ Hsub Hin)) as [_ Hwhy].
    destruct Ho as (_ & _ & [[_ ?]|(Ev & Hraw & _)]); [done|]. destruct Hwhy as [->|Hf].
    + rewrite Ev in Hin. unfold obj in Hin. rewrite lookup_delete_eq in Hin. by destruct Hin.
    + exfalso. apply Hp. by apply Hraw.
Qed.

Lemma wp_run_prev v w :
  cinv (it :: rest) v w → r <= R →
  wp (run_prev c k v) (λ v' w', lv_prev v' = lv_prev v ∧ cmid v w w') w.
Proof using All.
  intros Hc HrR. unfold run_prev. destruct (bytes_eqb k (prevUserKey v)) eqn:Ek; simpl.
  - apply bytes_eqb_spec in Ek. rewrite Hcompact. simpl.
    destruct (Z.ltb_spec 0 (prevRevision v)) as [Hp|Hp].
    + apply wp_bind. eapply wp_mono; [apply wp_compactKey, Hc|]. intros ? w' Ho. apply wp_ret.
      split; [done|]. rewrite <-Ek in Ho. by apply cmid_delete.
    + apply wp_ret. split; [done|]. by apply cmid_refl.
  - apply bytes_eqb_false in Ek. assert (cmid v w w) as Hm by by apply cmid_refl.
    destruct (prev_live c v); [|by apply wp_ret].
    unfold receive. wp_steps. split; [done|]. destruct Hm as [Hs Hsub Hf Hl].
    split; [|done..]. destruct Hs. by split.
Qed.

(** A tombstone is deleted once nothing is left below it. *)
Lemma cmid_tombstone v w w1 w2 :
  cmid v w w1 → r <= R → is_tombstone (it_val it) = true →
  del_outcome (EncodeObjectKey k r) k w1 w2 → csafe rest w2.
Proof using All.
  intros [Hs _ _ Hlow] HrR Ht Ho. pose proof (csafe_store_ok _ _ Hs) as Hok.
  assert (view w1 !! EncodeObjectKey k r = Some (it_val it)) as Hit.
  { rewrite <-Ekey. apply (cs_rest _ _ Hs). left. }
  apply (csafe_delete rest k r k w1 w2); [by eapply csafe_tail | apply it_not_rest | |
    by apply del_cur_outcome].
  intros Ed. destruct (decide (protected k)) as [Hp|Hp];
    [|apply pres_delete_unprotected; auto using protected_valid].
  destruct (decide (r = 0)) as [->|].
  - apply (pres_delete_record R protected protected_valid k (it_val it)); try done.
    apply bytes_eqb_spec in Ht. by rewrite Ht.
  - eapply (pres_delete_version R protected HR protected_valid); eauto;
      [unfold is_uint64 in *; lia|]. right. split; [done|].
    intros r' v' Hv' Hr'. assert (failed w1 = k) as Hf by (eapply Hlow; eauto).
    destruct Ho as (_ & _ & [[Ev _]|(_ & Hraw & _)]); [|by apply Hp, Hraw].
    rewrite Ev in Ed. rewrite Ed, lookup_delete_eq in Hit. done.
Qed.

(** What holds after the compaction of the item itself. *)
Definition cdone (w w' : wstate S) : Prop :=
  csafe rest w' ∧ view w' ⊆ view w ∧ (failed w' = failed w ∨ failed w' = k) ∧
  ∀ r', protected k → 0 < r' < r → is_Some (obj (view w') k r') → failed w' = k.

Lemma cdone_step w w1 w2 :
  csafe rest w2 → cur_outcome (EncodeObjectKey k r) k w1 w2 → view w1 ⊆ view w →
  failed w1 = failed w ∨ failed w1 = k →
  (∀ r', protected k → 0 < r' < r → is_Some (obj (view w1) k r') → failed w1 = k) → cdone w w2.
Proof.
  intros Hs Ho Hsub Hf Hlow. pose proof (cur_outcome_sub _ _ _ _ Ho) as Hsub'.
  destruct Ho as (_ & _ & _ & Hf'). split; [done|]. split; [by etrans|].
  split; [destruct Hf', Hf; (by left; congruence) || (right; congruence)|].
  intros r' Hp Hr' Hin. assert (failed w1 = k) by (eapply Hlow; eauto using obj_sub).
  destruct Hf'; congruence.
Qed.

Lemma cdone_record w w1 w2 :
  cdone w w1 → r = 0 → (view w1 !! EncodeObjectKey k r = None ∨
    view w1 !! EncodeObjectKey k r = Some (it_val it) ∧ length (content (it_val it)) = 9%nat) →
  cur_outcome (it_key it) k w1 w2 → cdone w w2.
Proof using All.
  intros (Hs & Hsub & Hf & Hlow) E0 Hrecord Ho. rewrite Ekey in Ho.
  pose proof (csafe_store_ok _ _ Hs) as Hok. eapply cdone_step; eauto.
  eapply csafe_delete; [done | apply it_not_rest | | done]. intros _.
  destruct Hrecord as [E|[E Hl]]; [by rewrite delete_id|]. rewrite E0 in E |- *.
  by apply (pres_delete_record R protected protected_valid k (it_val it)).
Qed.

Lemma wp_run_compact v w w1 :
  cmid v w w1 → r <= R →
  wp (run_compact c it k r) (λ skip w', cdone w w' ∧ (skip = true → r = 0)) w1.
Proof using All.
  intros Hm HrR. pose proof Hm as [Hs Hsub Hf Hlow]. unfold run_compact. rewrite Hcompact, Htomb.
  cbn [andb]. apply wp_bind.
  assert (view w1 !! EncodeObjectKey k r = Some (it_val it)) as Hit.
  { rewrite <-Ekey. apply (cs_rest _ _ Hs). left. }
  apply wp_mono with (P := λ _ w2, cdone w w2 ∧
    (view w2 !! EncodeObjectKey k r = None ∨ view w2 !! EncodeObjectKey k r = Some (it_val it))).
  - destruct (bytes_eqb (content (it_val it)) tombStoneBytes) eqn:Et.
    + wp_steps. rewrite Ekey. eapply wp_mono; [apply wp_compactKey, Hs|]. intros ? w2 Ho. wp_steps.
      split.
      * apply (cdone_step w w1 w2); eauto using del_cur_outcome. by eapply cmid_tombstone.
      * destruct Ho as (_ & _ & [[-> _]|(-> & _)]); [by right|]. left. apply lookup_delete_eq.
    + wp_steps. split; [|by right]. split; [by eapply csafe_tail|]. done.
  - intros ? w2 [Hd Hlook]. destruct (Z.eqb_spec r 0) as [E0|E0]; [|by apply wp_ret].
    cbn [andb]. case_bool_decide as El; [|by apply wp_ret].
    apply wp_bind. unfold Uint64. rewrite El. eapply wp_lift_opt; [done|].
    destruct (_ <? _); [by apply wp_ret|]. apply wp_bind.
    eapply wp_mono; [apply wp_compactCurrent; destruct Hd as [Hd _]; apply Hd|].
    intros ? w3 Ho. apply wp_ret. split; [|done].
    apply (cdone_record w w2 w3); try done. destruct Hlook; auto.
Qed.

Lemma wp_run_item_compact v w :
  cinv (it :: rest) v w → wp (run_item c it v) (λ v' w', cinv rest v' w') w.
Proof using All.
  intros Hc. unfold run_item. apply wp_bind. eapply wp_lift_opt; [rewrite Ekey; by apply Decode_Encode|].
  apply wp_bind. eapply wp_mono; [by apply (wp_compactIfExpired v (set_lv_err None v))|].
  intros [expired e] w1 Hexp. simpl in Hexp. destruct expired; [by apply wp_ret|]. subst w1.
  assert (cinv (it :: rest) (set_lv_err None v) w) as Hc' by (by destruct Hc; split).
  destruct (Z.ltb_spec R r) as [HrR|HrR].
  { apply wp_ret. apply (cinv_skip v _ w); try done.
    - eapply csafe_tail, Hc.
    - by left.
    - lia. }
  apply wp_bind. eapply wp_mono; [by apply wp_run_prev|]. intros v1 w1 [Hv1 Hm1].
  apply wp_bind. eapply wp_mono; [by eapply wp_run_compact|].
  intros skip w2 [(Hs & Hsub & Hf & Hlow) Hskip]. destruct skip; apply wp_ret.
  - apply (cinv_skip v v1 w w2); try done. rewrite Hskip by done. lia.
  - by apply (cinv_next v _ w w2).
Qed.
End item.

(** An item outside the encoded keys is passed over. *)
Lemma wp_run_item_other it rest v w :
  (9 <= length (it_key it))%nat → take 4 (it_key it) ≠ magicBytes → cinv (it :: rest) v w →
  wp (run_item c it v) (λ v' w', cinv rest v' w') w.
Proof.
  intros Hlen Hmg Hc. unfold run_item. apply wp_bind.
  destruct (Decode_total _ Hlen) as [[[k r] e] Ed]. eapply wp_lift_opt; [done|].
  destruct e as [e|]; [|apply Decode_sound in Ed as [Ed _]; rewrite Ed in Hmg; by destruct Hmg].
  apply wp_ret.
  assert (∀ k r, has_item k r (it :: rest) → has_item k r rest) as Hi.
  { intros k' r' (x & [->|Hx]%elem_of_cons & E); [|by exists x]. rewrite E in Hmg. by destruct Hmg. }
  assert (∀ k r, has_item k r rest → has_item k r (it :: rest)) as Hi'.
  { intros k' r' (x & Hx & E). exists x. split; [by right | done]. }
  destruct Hc as [Hs Hl Hp HpR]. split; [by eapply csafe_tail| |by eauto|done].
  intros k' r' Hk' Hr' Hin. destruct (Hl k' r' Hk' Hr' Hin) as [?|[?|?]]; naive_solver.
Qed.

Definition records_ok (m : kvmap) : Prop :=
  ∀ k v, m !! EncodeRevisionKey k = Some v → (8 <= length (content v))%nat.

Lemma wp_run_loop_compact items end_ rest v w :
  records_ok m0 → items `prefix_of` rest →
  sorted_kvs (item_kv <$> rest) → Forall (λ it, internal_ok (it_key it)) rest →
  cinv rest v w → wp (run_loop c items end_ v) (λ _ w', csafe [] w') w.
Proof using Hcompact HR Hm0 Htomb.
  intros Hrec. revert rest v w. induction items as [|it items IH]; intros rest v w Hpre Hsort Hok Hc;
    simpl; wp_steps;
    (destruct (needMore (w_receiver w)); wp_steps; [|by eapply csafe_nil, Hc]);
    apply wp_ctxDone; intros b w1 Hs1 _ _ Hf1.
  all: assert (cinv rest v w1) as Hc1 by (destruct Hc as [[]]; split; [split|..];
    rewrite ?Hs1, ?Hf1; done).
  all: destruct b; wp_steps; [by eapply csafe_nil, Hc1|].
  - by eapply csafe_nil, Hc1.
  - destruct Hpre as [k ->]. simpl in Hc1, Hsort, Hok.
    inversion Hok as [|? ? Hit Hok']; subst. apply StronglySorted_inv in Hsort as [Hsort Hlt].
    eapply wp_mono with (P := λ v' w', cinv (items ++ k) v' w').
    + destruct Hit as [(uk & r & Huk & Hr & Ek)|[Hl Hmg]]; [|by apply wp_run_item_other].
      apply (wp_run_item_compact it (items ++ k) uk r); try done.
      * intros it' Hit'. rewrite Forall_forall in Hlt.
        apply (Hlt (item_kv it')). by apply list_elem_of_fmap_2.
      * intros it' k' r' Hit' E' Hr'. rewrite Forall_forall in Hok'.
        destruct (Hok' it' Hit') as [(k1 & r1 & ? & ? & E1)|[_ Hmg]].
        -- rewrite E1 in E'. by apply EncodeObjectKey_inj in E' as [<- _].
        -- rewrite E' in Hmg. by destruct Hmg.
      * intros ->. apply (Hrec uk). unfold EncodeRevisionKey. rewrite <-Ek.
        eapply lookup_weaken; [|apply (cs_sub _ _ (ci_safe _ _ _ Hc1))].
        apply (cs_rest _ _ (ci_safe _ _ _ Hc1)). left.
    + intros v' w2 Hc2. apply (IH (items ++ k)); try done. by eexists.
Qed.
End compact_worker.

(** * A compaction of a range *)

Section compact_run.
Context {S : Type} `{KvSpec S}.
Context (c : workerConfig).
Local Abbreviation a := (Start (partition c)).
Local Abbreviation b := (End (partition c)).
Local Abbreviation R := (w_revision c).
Hypothesis (Hcompact : w_compact c = true) (HR : is_uint64 R)
           (Htomb : w_tombstone c = tombStoneBytes)
           (Ha : aligned a) (Hb : aligned b) (Hab : bytes_le a b).

Local Abbreviation view w := (kv_view (w_store w)).

(** The engine as a compaction needs it, and as it leaves it. *)
Definition compactable (m : kvmap) : Prop := store_ok m ∧ records_ok m.

Definition compacted (m m' : kvmap) : Prop := m' ⊆ m ∧ pres R (protected c) m m'.

Lemma compactable_sub m m' : m' ⊆ m → compactable m → compactable m'.
Proof.
  intros Hsub [H1 H2]. split.
  - intros ik v Hv. eapply H1, lookup_weaken; done.
  - intros k v Hv. eapply H2, lookup_weaken; done.
Qed.

Lemma compacted_trans m1 m2 m3 : compacted m1 m2 → compacted m2 m3 → compacted m1 m3.
Proof. intros [? ?] [? ?]. split; by etrans. Qed.

Lemma cinv_start full w :
  kv_inv (w_store w) → store_ok (view w) → item_kv <$> full = asc_range (view w) a b →
  cinv c (view w) full (mkLoopVars [] 0 None 0 None) w.
Proof using HR Ha Hb.
  intros Hinv Hm Hfull.
  assert (∀ it, it ∈ full → view w !! it_key it = Some (it_val it)) as Hlook.
  { intros it Hit. assert (item_kv it ∈ asc_range (view w) a b) as Hin
      by (rewrite <-Hfull; by apply list_elem_of_fmap_2).
    by apply elem_of_asc_range in Hin as (? & _). }
  split; [by split| | |].
  - intros k r Hp Hr [v Hv]. assert (is_uint64 r) as Hu by (unfold is_uint64 in *; lia).
    destruct (decide (bytes_le a (EncodeRevisionKey k) ∧ bytes_lt (EncodeRevisionKey k) b))
      as [Hin|Hout].
    + left. apply (aligned_range a b k r) in Hin; try done; [|apply Hp].
      assert ((EncodeObjectKey k r, v) ∈ item_kv <$> full) as Hx
        by (rewrite Hfull; by apply elem_of_asc_range).
      apply list_elem_of_fmap in Hx as (it & [= E _] & Hit). by exists it.
    + right; left. intros q Hq (it & Hit & E). apply Hout.
      apply (aligned_range a b k q); try done; [apply Hp|]. rewrite <-E.
      assert (item_kv it ∈ asc_range (view w) a b) as Hx
        by (rewrite <-Hfull; by apply list_elem_of_fmap_2).
      by apply elem_of_asc_range in Hx as (_ & ?).
  - simpl. intros k r [?|?]; [done | lia].
  - simpl. unfold is_uint64 in HR. lia.
Qed.

Lemma wp_run_finish_store v (w : wstate S) Q :
  (∀ r w', w_store w' = w_store w → Q r w') → wp (run_finish c v) Q w.
Proof.
  intros HQ. unfold run_finish, receive. destruct (negb _); wp_steps; [by apply HQ|].
  destruct (_ && _); wp_steps; by apply HQ.
Qed.

Lemma wp_run_compact_safe w :
  kv_inv (w_store w) → compactable (view w) →
  wp (run c) (λ _ w', kv_inv (w_store w') ∧ compacted (view w) (view w')) w.
Proof using All.
  intros Hinv [Hm Hrec]. unfold run, on_store. wp_steps.
  eapply wp_mono; [by apply kv_iter_spec|]. simpl. intros r s1 (Hinv1 & Hv1 & Hit).
  destruct r as [e|it]; wp_steps; [by rewrite Hv1|].
  destruct Hit as [_ Hit]. rewrite (proj2 (negb_true_iff _)) in Hit.
  2:{ apply not_true_is_false. rewrite bytes_ltb_spec. by apply bytes_not_lt. }
  destruct Hit as [Hpre _].
  destruct (full_items c (view w) _ Hpre) as (full & Hpfull & Hfull & _).
  set (w1 := w_set_receiver _ _).
  assert (view w1 = view w) as Ev1 by (unfold w1; simpl; done).
  eapply wp_mono; [apply (wp_run_loop_compact c (view w) Hcompact HR Hm Htomb _ _ full); try done|].
  - rewrite Hfull. apply asc_range_sorted.
  - by eapply range_items_ok.
  - rewrite <-Ev1 in *. by apply cinv_start.
  - intros l w2 Hs. assert (kv_inv (w_store w2) ∧ compacted (view w) (view w2)) as Hres.
    { split; [apply Hs|]. split; apply Hs. }
    destruct l as [v|e]; [|by wp_steps].
    apply wp_run_finish_store. intros r w3 E3. by rewrite E3.
Qed.

Lemma wp_backoff_compact `{Backoff} n w res :
  kv_inv (w_store w) → compactable (view w) →
  wp (ExponentialBackoff n (retry_cond c)) (λ _ st,
    kv_inv (w_store st.1) ∧ compacted (view w) (view st.1)) (w, res).
Proof using All.
  revert w res. induction n as [|n IH]; intros w res Hinv Hm.
  { unfold wp. by rewrite ExponentialBackoff_0. }
  apply wp_backoff_S, wp_bind. unfold retry_cond. wp_steps. apply wp_ctxDone.
  intros d w1 Hs1 _ _ _. rewrite <-Hs1 in *. destruct d; wp_steps; [done|].
  eapply wp_mono; [by apply wp_run_compact_safe|]. simpl. intros [cnt e] w2 [Hinv2 Hc2].
  wp_steps. destruct e as [e|]; wp_steps; [|done].
  assert (compactable (view w2)) as Hm2 by (eapply compactable_sub; [apply Hc2 | done]).
  eapply wp_mono; [by apply IH|]. intros ? st [? ?]. split; [done|].
  by eapply compacted_trans.
Qed.

Lemma wp_scan_worker_compact `{Backoff} receiver ctx s :
  kv_inv s → compactable (kv_view s) →
  wp (scan_worker c receiver ctx) (λ _ s', kv_inv s' ∧ compacted (kv_view s) (kv_view s')) s.
Proof using All.
  intros Hinv Hm. unfold scan_worker, runWithBackoffRetry, wp.
  set (w := mkWstate s [] (rcv_fork receiver) [] ctx).
  pose proof (wp_backoff_compact scanBackoffSteps w (0, None) Hinv Hm) as Hw. unfold wp in Hw.
  by destruct (ExponentialBackoff _ _ _) as [[[w' [cnt se]] e]|].
Qed.
End compact_run.

Lemma pres_weaken R (P Q : bytes → Prop) m m' :
  (∀ k, Q k → P k) → pres R P m m' → pres R Q m m'.
Proof. intros HPQ Hp k Hk. by apply Hp, HPQ. Qed.

Section compact_scan.
Context {S : Type} `{KvSpec S} `{!KvPartitions S} `{Backoff}.
Context (cfg : Config) (R : Z).
Hypothesis (Htomb : Tombstone cfg = tombStoneBytes) (HR : is_uint64 R)
           (Hkey : (9 <= length (CompactKey cfg))%nat) (Hmagic : take 4 (CompactKey cfg) ≠ magicBytes).

(** On an engine that does not support TTL, a compaction deletes the versions and
    the records of the keys that contain "/events/" once they are old enough,
    also those that are live. *)
Definition expires_key (k : bytes) : bool := negb kv_support_ttl && contains k (str "/events/").

(** The keys a compaction never expires. *)
Definition safe_key (k : bytes) : Prop :=
  valid_key k ∧ k ≠ [] ∧ (kv_support_ttl = true ∨ contains k (str "/events/") = false).

Lemma safe_key_iff k : safe_key k ↔ valid_key k ∧ k ≠ [] ∧ expires_key k = false.
Proof.
  unfold safe_key, expires_key. destruct kv_support_ttl, (contains k _); simpl; intuition congruence.
Qed.

Definition range_compacted (m m' : kvmap) : Prop := m' ⊆ m ∧ pres R safe_key m m'.

Lemma wp_scan_workers_compact tso timeout receiver ctx a b idx ps s :
  kv_inv s → compactable (kv_view s) → cover a b ps → aligned a → aligned b →
  wp (scan_workers (λ p, mkWorkerConfig p tso R (Tombstone cfg) true timeout) receiver ctx idx ps)
    (λ _ s', kv_inv s' ∧ range_compacted (kv_view s) (kv_view s')) s.
Proof using Htomb HR.
  revert a idx s. induction ps as [|p ps IH]; intros a idx s Hinv Hm Hc Ha Hb; [done|].
  destruct Hc as (<- & Hle & Hc). simpl.
  assert (aligned (End p)) as Hend by (destruct ps; [by rewrite Hc | apply Hc]).
  set (c := mkWorkerConfig p tso R (Tombstone cfg) true timeout).
  apply wp_bind. eapply wp_mono; [by apply (wp_scan_worker_compact c)|].
  intros r s1 (Hinv1 & Hsub1 & Hp1).
  assert (range_compacted (kv_view s) (kv_view s1)) as Hrc1.
  { split; [done|]. eapply pres_weaken; [|exact Hp1]. intros k (? & ? & Hk). split; [done|].
    split; [done|]. destruct Hk; auto. }
  apply wp_bind. destruct ps as [|p' ps]; [by wp_steps|]. destruct Hc as [_ Hc].
  eapply wp_mono; [apply (IH (End p)); try done; by eapply compactable_sub|].
  intros rs s2 (Hinv2 & Hsub2 & Hp2). wp_steps. split; [done|]. destruct Hrc1 as [Hs1 Hq1].
  split; by etrans.
Qed.

(** The engine's map with the compact revision recorded. *)
Definition with_record (m : kvmap) : kvmap := <[CompactKey cfg := Some (uint64ToBytes R)]> m.

Lemma compact_key_ne k r : CompactKey cfg ≠ EncodeObjectKey k r.
Proof using Hmagic. intros E. rewrite E in Hmagic. by destruct Hmagic. Qed.

Lemma with_record_compactable m : compactable m → compactable (with_record m).
Proof using Hkey Hmagic.
  intros [Hok Hrec]. unfold with_record. split.
  - intros ik v [[<- _]|[_ Hv]]%lookup_insert_Some; [by right | by eapply Hok].
  - intros k v [[E _]|[_ Hv]]%lookup_insert_Some; [by apply compact_key_ne in E | by eapply Hrec].
Qed.

Lemma with_record_obj m k r : obj (with_record m) k r = obj m k r.
Proof using Hmagic. apply lookup_insert_ne, compact_key_ne. Qed.

Lemma with_record_pres P m :
  (∀ k, P k → valid_key k) → store_ok m → pres R P m (with_record m).
Proof using Hkey Hmagic.
  intros HP Hm k Hk. split; [|left; apply lookup_insert_ne, compact_key_ne].
  intros R' _ HR'. unfold visible. rewrite (latest_ext m); auto using with_record_obj.
  unfold with_record. intros ik v [[<- _]|[_ Hv]]%lookup_insert_Some; [by right | by eapply Hm].
Qed.

(** The outcome of a compaction scan. *)
Definition compact_result (m m' : kvmap) : Prop :=
  m' = m ∨ range_compacted (with_record m) m'.

Lemma wp_scan_compact now ctx a b receiver sc :
  kv_inv (sc_store sc) → compactable (kv_view (sc_store sc)) →
  internal_ok a → aligned a → aligned b → bytes_le a b →
  (∀ rs, is_Some (merge_all receiver rs)) →
  wp (scan cfg now ctx a b R true receiver) (λ _ sc',
    kv_inv (sc_store sc') ∧ compact_result (kv_view (sc_store sc)) (kv_view (sc_store sc'))) sc.
Proof using All.
  intros Hinv Hm Hok Ha Hb Hab Hmerge. unfold scan, sc_on_store. wp_steps.
  eapply wp_mono; [by apply kv_tso_spec|]. intros [tso e] s1 (Hinv1 & Hv1 & _). simpl.
  destruct e as [e|]; wp_steps; [split; [done | by left]|].
  eapply wp_mono; [by apply kv_commit_spec|]. intros e s2 [Hinv2 Hc2]. simpl.
  rewrite Hv1 in Hc2. unfold commit_post in Hc2.
  set (m := kv_view (sc_store sc)) in *. fold (with_record m) in Hc2.
  assert (range_compacted (with_record m) (with_record m)) as Hself by by split.
  destruct e as [e|]; wp_steps.
  { split; [done|]. destruct Hc2 as [->|(_ & _ & Hc2)]; [by left | right]. simpl in Hc2.
    injection Hc2 as <-. done. }
  simpl in Hc2. injection Hc2 as Hc2. fold (with_record m) in Hc2.
  assert (compactable (kv_view s2)) as Hm2 by (rewrite <-Hc2; by apply with_record_compactable).
  eapply wp_mono; [by apply kv_partitions_spec|].
  intros [ps e] s3 (Hinv3 & Hv3 & Hps). simpl in *. rewrite <-Hc2 in Hv3.
  destruct e as [e|]; wp_steps; [split; [done | right; by rewrite Hv3]|].
  destruct Hps as (ps' & Hperm & Hchain).
  destruct (adjust_cover a b ps' ps Hok Ha Hperm Hchain) as (qs & Eqs & Hcover).
  eapply wp_lift_opt; [done|]. wp_steps.
  assert (∃ sc1 t, getTimeoutRevision cfg now (mkScanner s3 (compactHistories sc)) = Some (sc1, t) ∧
                   sc_store sc1 = s3) as (sc1 & t & Et & Es).
  { unfold getTimeoutRevision. destruct kv_support_ttl; [by eauto|].
    destruct (timeout_walk _ _ _ _). by eauto. }
  unfold wp at 1. rewrite Et. wp_steps. rewrite Es.
  eapply wp_mono; [apply (wp_scan_workers_compact tso t receiver ctx a b 0 qs s3); try done|].
  { rewrite Hv3. by rewrite Hc2. }
  intros rs s4 [Hinv4 Hc4]. rewrite Hv3 in Hc4. simpl.
  destruct (first_err _); wp_steps; [split; [done | by right]|].
  destruct (Hmerge ((λ r, r.1.2) <$> rs)) as [merged Em].
  eapply wp_lift_opt; [exact Em|]. wp_steps. split; [done | by right].
Qed.

Lemma wp_Compact now ctx a b sc :
  kv_inv (sc_store sc) → compactable (kv_view (sc_store sc)) →
  internal_ok a → aligned a → aligned b → bytes_le a b →
  wp (Compact cfg now ctx a b R) (λ _ sc',
    kv_inv (sc_store sc') ∧ compact_result (kv_view (sc_store sc)) (kv_view (sc_store sc'))) sc.
Proof using All.
  intros Hinv Hm Hok Ha Hb Hab. unfold Compact, logCompactHistory. wp_steps.
  eapply wp_mono; [apply wp_scan_compact; try done|].
  - intros rs. exists emptyResultReceiver. by induction rs.
  - intros r sc' Hr. by apply wp_ret.
Qed.

(** Reads of safe keys at or above [R] are the same before and after. *)
Lemma compact_result_pres m m' :
  store_ok m → compact_result m m' → pres R safe_key m m'.
Proof using Hkey Hmagic.
  intros Hm [->|[_ Hp]]; [done|]. etrans; [|exact Hp].
  apply with_record_pres; [by intros k [? _] | done].
Qed.
End compact_scan.
