(* ===== verification/Queue.v ===== *)
(** The queue of uncertain events: pkg/backend/retry/queue.go.

    The queue is a linked list of heap nodes with head and tail pointers.
    [queue_repr q l] says that [q] holds the events of [l] in order; the
    operations are shown to be those of a FIFO queue on [l]. *)

From S2P Require Import Prelude GoMonad Storage Proto.

Record eventNode := mkEventNode {
  n_event : WatchEvent;
  n_time : Z;
  n_next : option nat;
}.

(** [head], [tail] and [next] point into [nodes]; [fresh] is the address the
    next allocation returns. *)
Record eventQueue := mkEventQueue {
  queueSize : Z;
  q_head : option nat;
  q_tail : option nat;
  nodes : gmap nat eventNode;
  fresh : nat;
}.

Definition emptyQueue : eventQueue := mkEventQueue 0 None None ∅ 0.

Definition newEventNode (event : WatchEvent) (now : Z) : eventNode := mkEventNode event now None.

Definition set_next (a : nat) (n : eventNode) : eventNode :=
  mkEventNode (n_event n) (n_time n) (Some a).

Definition push (event : WatchEvent) (now : Z) (e : eventQueue) : eventQueue :=
  let node := fresh e in
  let nodes' := <[node := newEventNode event now]> (nodes e) in
  let head' := match q_head e with None => Some node | Some h => Some h end in
  let nodes'' := match q_tail e with
                 | None => nodes'
                 | Some t => alter (set_next node) t nodes'
                 end in
  mkEventQueue (queueSize e + 1) head' (Some node) nodes'' (S node).

(** A nil head with other events left is a nil dereference. *)
Definition pop (e : eventQueue) : option eventQueue :=
  let size := queueSize e - 1 in
  if size =? 0 then Some (mkEventQueue size None None (nodes e) (fresh e))
  else
    h ← q_head e; n ← nodes e !! h;
    Some (mkEventQueue size (n_next n) (q_tail e) (nodes e) (fresh e)).

Definition getHead (e : eventQueue) : option eventNode := h ← q_head e; nodes e !! h.

Definition size (e : eventQueue) : Z := queueSize e.

(** * The abstract queue *)

(** [addrs] are the nodes of [l] in order. *)
Record queue_addrs (e : eventQueue) (addrs : list nat) (l : list (WatchEvent * Z)) : Prop := {
  qa_size : queueSize e = Z.of_nat (length l);
  qa_len : length addrs = length l;
  qa_nodup : NoDup addrs;
  qa_fresh : Forall (λ a, (a < fresh e)%nat) addrs;
  qa_head : q_head e = head addrs;
  qa_tail : q_tail e = last addrs;
  qa_nodes i a x :
    addrs !! i = Some a → l !! i = Some x →
    nodes e !! a = Some (mkEventNode x.1 x.2 (addrs !! S i));
}.

Definition queue_repr (e : eventQueue) (l : list (WatchEvent * Z)) : Prop :=
  ∃ addrs, queue_addrs e addrs l.

Lemma emptyQueue_repr : queue_repr emptyQueue [].
Proof. exists []. by split; try constructor. Qed.

(** The nodes after a push: the tail is linked to the new one. *)
Lemma push_lookup ev now e a :
  (∀ t, q_tail e = Some t → t ≠ fresh e) →
  nodes (push ev now e) !! a =
    if decide (q_tail e = Some a) then set_next (fresh e) <$> (nodes e !! a)
    else if decide (a = fresh e) then Some (newEventNode ev now) else nodes e !! a.
Proof.
  intros Hne. unfold push; simpl. destruct (q_tail e) as [t|].
  - specialize (Hne t eq_refl). case_decide as E.
    + simplify_eq. rewrite lookup_alter_eq, lookup_insert_ne by done. done.
    + rewrite lookup_alter_ne by congruence. case_decide; [subst; apply lookup_insert_eq|].
      by rewrite lookup_insert_ne by congruence.
  - case_decide; [done|]. case_decide; [subst; apply lookup_insert_eq|].
    by rewrite lookup_insert_ne by congruence.
Qed.

Lemma push_repr ev now e l : queue_repr e l → queue_repr (push ev now e) (l ++ [(ev, now)]).
Proof.
  intros [addrs [Hsz Hlen Hnd Hfr Hhd Htl Hn]].
  assert (fresh e ∉ addrs) as Hnew.
  { intros Hin. rewrite Forall_forall in Hfr. specialize (Hfr _ Hin). simpl in Hfr. lia. }
  exists (addrs ++ [fresh e]). split; simpl.
  - rewrite Hsz, length_app. simpl. lia.
  - rewrite !length_app. simpl. lia.
  - apply NoDup_app. split; [done|]. split; [|apply NoDup_singleton].
    intros x Hx ->%list_elem_of_singleton. done.
  - apply Forall_app. split; [eapply Forall_impl; [done|]; simpl; lia | by repeat constructor].
  - rewrite Hhd. by destruct addrs.
  - by rewrite last_snoc.
  - intros i a x Ha Hx.
    assert (∀ t, q_tail e = Some t → t ≠ fresh e) as Htn
      by (intros t Et ->; rewrite Htl in Et; by apply Hnew, last_Some_elem_of).
    pose proof (push_lookup ev now e a Htn) as El.
    unfold push in El; simpl in El. rewrite El. clear El.
    destruct (decide (i < length addrs)%nat) as [Hi|Hi].
    + rewrite lookup_app_l in Ha by done. rewrite lookup_app_l in Hx by lia.
      rewrite (Hn i a x Ha Hx), Htl, last_lookup.
      assert (a ≠ fresh e) by (intros ->; by apply Hnew; eapply list_elem_of_lookup_2).
      rewrite (decide_False (P := a = fresh e)) by done.
      destruct (decide (i = pred (length addrs))) as [->|Hne].
      * rewrite decide_True by done. simpl. unfold set_next; simpl.
        rewrite lookup_app_r by lia. by replace (S (pred (length addrs)) - length addrs)%nat with 0%nat by lia.
      * rewrite decide_False. { by rewrite lookup_app_l by lia. }
        intros E. apply Hne. eapply NoDup_lookup; done.
    + rewrite lookup_app_r in Ha by lia. rewrite lookup_app_r in Hx by lia.
      assert (i = length addrs) as -> by (apply lookup_lt_Some in Ha; simpl in Ha; lia).
      replace (length addrs - length l)%nat with 0%nat in Hx by lia.
      rewrite Nat.sub_diag in Ha. simplify_eq/=.
      rewrite decide_False. 2:{ rewrite Htl. intros E. by apply Hnew, last_Some_elem_of. }
      rewrite decide_True by done. rewrite lookup_ge_None_2; [done|]. rewrite length_app. simpl. lia.
Qed.

Lemma getHead_repr e l :
  queue_repr e l → (λ n, (n_event n, n_time n)) <$> getHead e = head l.
Proof.
  intros [addrs [Hsz Hlen Hnd Hfr Hhd Htl Hn]]. unfold getHead. rewrite Hhd.
  destruct addrs as [|a addrs], l as [|x l]; try done. simpl.
  rewrite (Hn 0%nat a x); try done. by destruct x.
Qed.

Lemma pop_repr e x l : queue_repr e (x :: l) → ∃ e', pop e = Some e' ∧ queue_repr e' l.
Proof.
  intros [addrs [Hsz Hlen Hnd Hfr Hhd Htl Hn]]. unfold pop. rewrite Hsz, Hhd.
  destruct addrs as [|a addrs]; [done|]. simpl in *.
  destruct l as [|y l].
  - eexists. split; [done|]. exists []. split; simpl; try done; by constructor.
  - destruct (Z.eqb_spec (Z.of_nat (S (length (y :: l))) - 1) 0); [simpl in *; lia|].
    rewrite (Hn 0%nat a x); try done. simpl. eexists. split; [done|].
    exists addrs. destruct addrs as [|a' addrs]; [done|]. split; simpl in *; try done; try lia.
    + by apply NoDup_cons in Hnd as [_ ?].
    + by apply Forall_cons in Hfr as [_ ?].
    + intros i b z Hb Hz. exact (Hn (S i) b z Hb Hz).
Qed.
