(* ===== verification/Backend.v ===== *)
(** The backend: pkg/backend/backend.go, txn.go, range.go, compact.go, util.go
    and the retries of pkg/backend/retry/retry.go.

    The state of [backend] is the revision generator, the scanner (with the
    storage engine), the ring buffer between the writers and the collector, the
    history cache, the channel to the watcher hub, and the queue of uncertain
    events.  Each exported method is one computation on it; the arguments
    [now] and [ctx] are the clock and the answers of the context's polls. *)

From S2P Require Import Prelude GoMonad Storage Coder Proto Tso Ring Queue Mvcc Creator Scanner.

(** * Constants and helpers (util.go) *)

Definition historyCapacity : Z := 200000.
Definition watchersChanCapacity : Z := 100000.
Definition eventBatchSize : nat := 300.

Definition noPrefixEnd : bytes := [Byte.x00].
Definition events : bytes := str "/events/".
Definition eventsTTL : Z := 3600.
Definition compactKeyName : bytes := str "compact_key".

Record Config := mkConfig {
  EnableEtcdCompatibility : bool;
  Prefix : bytes;
  Identity : bytes;
  SkippedPrefixes : list bytes;
  WatchCacheSize : Z;
}.

Definition complete (c : Config) : Config :=
  if WatchCacheSize c <=? 0
  then mkConfig (EnableEtcdCompatibility c) (Prefix c) (Identity c) (SkippedPrefixes c) historyCapacity
  else c.

Definition getCompactKey (prefix : bytes) : bytes := prefix ++ str "/" ++ compactKeyName.

Definition getScannerConfig (c : Config) : Scanner.Config :=
  Scanner.mkConfig (getCompactKey (Prefix c)) tombStoneBytes (1000000000 * eventsTTL).

(** The loop of [PrefixEnd] from the last byte on, on the reversed prefix. *)
Fixpoint prefix_end_rev (l : bytes) : option bytes :=
  match l with
  | [] => None
  | b :: l' => if bval b <? 255 then Some (to_byte (bval b + 1) :: l') else prefix_end_rev l'
  end.

Definition PrefixEnd (prefix : bytes) : bytes :=
  match prefix_end_rev (reverse prefix) with
  | Some l => reverse l
  | None => noPrefixEnd
  end.

Definition maxUint64 (a b : Z) : Z := if b <? a then a else b.
Definition minUint64 (a b : Z) : Z := if a <? b then a else b.

(** The key-value a delete replaces. *)
Record KeyVal := mkKeyVal { kvl_Key : bytes; kvl_Val : slice; kvl_Revision : Z }.

Definition emptyKeyVal : KeyVal := mkKeyVal [] None 0.

Section backend.
Context {S : Type} `{KvStorage S} `{Backoff}.

Record backend := mkBackend {
  tso : naiveTSO;
  b_scanner : scanner S;
  watchEventsRingBuffer : gmap Z WatchEvent;
  watchCache : Ring;
  watchChan : list (list Event);
  asyncFifoRetry : eventQueue;
}.

Definition set_tso (t : naiveTSO) (b : backend) : backend :=
  mkBackend t (b_scanner b) (watchEventsRingBuffer b) (watchCache b) (watchChan b) (asyncFifoRetry b).
Definition set_scanner (s : scanner S) (b : backend) : backend :=
  mkBackend (tso b) s (watchEventsRingBuffer b) (watchCache b) (watchChan b) (asyncFifoRetry b).
Definition set_buffer (r : gmap Z WatchEvent) (b : backend) : backend :=
  mkBackend (tso b) (b_scanner b) r (watchCache b) (watchChan b) (asyncFifoRetry b).
Definition set_cache (r : Ring) (b : backend) : backend :=
  mkBackend (tso b) (b_scanner b) (watchEventsRingBuffer b) r (watchChan b) (asyncFifoRetry b).
Definition set_chan (c : list (list Event)) (b : backend) : backend :=
  mkBackend (tso b) (b_scanner b) (watchEventsRingBuffer b) (watchCache b) c (asyncFifoRetry b).
Definition set_queue (q : eventQueue) (b : backend) : backend :=
  mkBackend (tso b) (b_scanner b) (watchEventsRingBuffer b) (watchCache b) (watchChan b) q.

Lemma set_tso_id (b : backend) : set_tso (tso b) b = b.
Proof. by destruct b. Qed.

Definition b_store (b : backend) : S := sc_store (b_scanner b).

Definition on_tso {A} (m : GoM naiveTSO A) : GoM backend A := zoom tso set_tso m.
Definition on_scanner {A} (m : GoM (scanner S) A) : GoM backend A := zoom b_scanner set_scanner m.
Definition on_kv {A} (m : GoM S A) : GoM backend A := on_scanner (sc_on_store m).

Definition NewBackend (kv : S) (config : Config) : backend :=
  mkBackend NewTSO (mkScanner kv []) ∅ (NewRing (Z.to_nat (WatchCacheSize (complete config)))) []
    emptyQueue.

Definition GetCurrentRevision : GoM backend Z := on_tso GetRevision.
Definition SetCurrentRevision (revision : Z) : GoM backend () := on_tso (Commit revision).

(** [deal]: the new revision, and an error when it is not above the old one. *)
Definition deal (prevRevision : Z) : GoM backend (Z * option err) :=
  rev ← on_tso Deal;
  if (0 <? prevRevision) && (rev <? prevRevision)
  then mret (rev, Some ErrRevisionDriftBack)
  else mret (rev, None).

Definition mustDeal (prevRev : Z) : GoM backend Z :=
  '(rev, _) ← deal prevRev; mret rev.

(** ** Reads (range.go) *)

Definition getInternalVal (key : bytes) (revision : Z) : GoM backend (slice * Z * option err) :=
  let revision := if revision =? 0 then max_uint64 else revision in
  let startKey := EncodeObjectKey key revision in
  let endKey := EncodeObjectKey key 0 in
  r ← on_kv (kv_iter startKey endKey 0 1);
  match r with
  | inl e => mret (None, 0, Some e)
  | inr it =>
      match it_items it with
      | [] =>
          if bool_decide (it_end it = EOF) then mret (None, 0, Some ErrKeyNotFound)
          else mret (None, 0, Some (it_end it))
      | x :: _ =>
          '(userKey, modRev, _) ← lift_opt (Decode (it_key x));
          if (modRev =? 0) || negb (bytes_eqb userKey key)
          then mret (None, 0, Some ErrKeyNotFound)
          else mret (it_val x, modRev, None)
      end
  end.

Definition getLatestInternalVal (key : bytes) : GoM backend (slice * Z * option err) :=
  getInternalVal key 0.

Definition get (key : bytes) (revision : Z) : GoM backend (slice * Z * option err) :=
  '(val, modRevision, e) ← getInternalVal key revision;
  if bytes_eqb (content val) tombStoneBytes
  then mret (None, modRevision, Some ErrKeyNotFound)
  else mret (val, modRevision, e).

Definition Get (r : GetRequest) : GoM backend (option GetResponse * option err) :=
  curRev ← on_tso GetRevision;
  '(val, modRev, e) ← get (gr_Key r) (gr_Revision r);
  match e with
  | Some e =>
      if bool_decide (e = ErrKeyNotFound) then mret (Some (mkGetResponse curRev None), None)
      else mret (None, Some e)
  | None =>
      let curRev := if curRev <? modRev then modRev else curRev in
      mret (Some (mkGetResponse curRev
                    (match val with
                     | Some _ => Some (mkKV (gr_Key r) val modRev)
                     | None => None
                     end)), None)
  end.

Definition List (cfg : Config) (ctx : nat → list bool) (r : RangeRequest)
    : GoM backend (option RangeResponse * option err) :=
  match rr_End r with
  | [] => mret (None, Some (Errorf "invalid nil end field in RangeRequest"))
  | _ =>
      curRevision ← on_tso GetRevision;
      let reqRevision := if rr_Revision r =? 0 then curRevision else rr_Revision r in
      if negb (bytes_ltb (rr_Key r) (rr_End r))
      then mret (None, Some (Errorf "invalid range end"))
      else
        let limit := if 0 <? rr_Limit r then int64 (rr_Limit r + 1) else rr_Limit r in
        '(kvs, e) ← on_scanner (Range (getScannerConfig cfg) ctx (EncodeObjectKey (rr_Key r) 0)
                                  (EncodeObjectKey (rr_End r) 0) reqRevision limit);
        match e with
        | Some _ => mret (None, e)
        | None =>
            if (0 <? limit) && (rr_Limit r <? Z.of_nat (length kvs))
            then mret (Some (mkRangeResponse curRevision (take (Z.to_nat (rr_Limit r)) kvs) true), None)
            else mret (Some (mkRangeResponse curRevision kvs false), None)
        end
  end.

Definition Count (cfg : Config) (ctx : nat → list bool) (r : CountRequest)
    : GoM backend (option CountResponse * option err) :=
  rev ← on_tso GetRevision;
  if negb (EnableEtcdCompatibility cfg) then mret (Some (mkCountResponse rev 0), None)
  else
    '(count, e) ← on_scanner (Scanner.Count (getScannerConfig cfg) ctx (EncodeObjectKey (cor_Key r) 0)
                                (EncodeObjectKey (cor_End r) 0) rev);
    match e with
    | Some _ => mret (None, e)
    | None => mret (Some (mkCountResponse rev (uint64 count)), None)
    end.

(** The starts of the partitions and the end of the last one. *)
Fixpoint partition_keys (ps : list Partition) : list bytes :=
  match ps with
  | [] => []
  | [p] => [Start p; End p]
  | p :: ps' => Start p :: partition_keys ps'
  end.

Definition GetPartitions (r : ListPartitionRequest)
    : GoM backend (option ListPartitionResponse * option err) :=
  rev ← on_tso GetRevision;
  '(partitions, e) ← on_kv (kv_partitions (EncodeObjectKey (lpr_Key r) 0) (EncodeObjectKey (lpr_End r) 0));
  match e with
  | Some _ => mret (None, e)
  | None =>
      mret (Some (mkListPartitionResponse rev (Z.of_nat (length partitions))
                    (partition_keys partitions)), None)
  end.

Definition ListByStream (cfg : Config) (ctx : nat → list bool) (startKey endKey : bytes) (rev : Z)
    : GoM backend (list (list StreamRangeResponse) * StreamRangeResponse) :=
  curRev ← on_tso GetRevision;
  let rev := if rev =? 0 then curRev else rev in
  on_scanner (RangeStream (getScannerConfig cfg) ctx startKey endKey rev).

(** ** Writes (txn.go) *)

(** [notify] hands an outcome to the collector; a full buffer and a negative
    index panic. *)
Definition notify (key : bytes) (val : slice) (revision preRevision : Z) (valid : bool)
    (eventType : EventType) (e : option err) : GoM backend () :=
  if revision =? 0 then mret ()
  else
    let watchEvent := mkWatchEvent revision preRevision eventType valid key val e in
    cur ← GetCurrentRevision;
    if watchersChanCapacity <=? uint64 (revision - cur) then panic
    else
      let idx := Z.rem (int64 revision) watchersChanCapacity in
      if idx <? 0 then panic
      else modify (λ b, set_buffer (<[idx := watchEvent]> (watchEventsRingBuffer b)) b).

Definition is_ok (e : option err) : bool := match e with None => true | Some _ => false end.

Definition create (key : bytes) (value : slice) (lease : Z) : GoM backend (Z * option err) :=
  '(revision, e) ← deal 0;
  match e with
  | Some _ => mret (0, e)
  | None =>
      let ttl := if contains key events then eventsTTL else lease in
      e ← on_kv (if negb (ttl =? 0) then CreateWithTTL key value revision ttl
                 else Creator.Create key value revision);
      mret (revision, e)
  end.

Definition Create (put : CreateRequest) : GoM backend (option CreateResponse * option err) :=
  '(revision, e) ← create (cr_Key put) (cr_Value put) (cr_Lease put);
  notify (cr_Key put) (cr_Value put) revision 0 (is_ok e) CREATE e ;;
  if is_err e ErrCASFailed then mret (Some (mkCreateResponse revision false), None)
  else match e with
       | Some _ => mret (None, e)
       | None => mret (Some (mkCreateResponse revision true), None)
       end.

Definition update (oldRevision : Z) (key : bytes) (value : slice) : GoM backend (Z * option err) :=
  '(newRevision, e) ← deal oldRevision;
  match e with
  | Some _ => mret (0, e)
  | None =>
      e ← on_kv (kv_commit
            [CAS (EncodeRevisionKey key) (Some (uint64ToBytes newRevision))
               (Some (uint64ToBytes oldRevision)) 0;
             Put (EncodeObjectKey key newRevision) value 0]);
      mret (newRevision, e)
  end.

(** The response of [Update], with the latest value after a failed comparison. *)
Definition update_reply (key : bytes) (curRev : Z) (e : option err)
    : GoM backend (option UpdateResponse * option err) :=
  if is_err e ErrCASFailed then
    '(val, modRevision, gerr) ← get key 0;
    match gerr with
    | Some ge =>
        if err_is ge ErrKeyNotFound then mret (Some (mkUpdateResponse curRev false None), None)
        else mret (None, Some ge)
    | None =>
        mret (Some (mkUpdateResponse (maxUint64 curRev modRevision) false
                      (Some (mkKV key val modRevision))), None)
    end
  else match e with
       | Some _ => mret (None, e)
       | None => mret (Some (mkUpdateResponse curRev true None), None)
       end.

Definition Update (r : UpdateRequest) : GoM backend (option UpdateResponse * option err) :=
  let key := kv_Key (ur_Kv r) in
  let value := kv_Value (ur_Kv r) in
  let prevRev := kv_Revision (ur_Kv r) in
  if prevRev =? 0 then
    '(curRev, e) ← create key value (ur_Lease r);
    notify key value curRev prevRev (is_ok e) CREATE e ;;
    update_reply key curRev e
  else
    '(curRev, e) ← update prevRev key value;
    notify key value curRev prevRev (is_ok e) PUT e ;;
    update_reply key curRev e.

Definition delete (oldRevision : Z) (key : bytes) : GoM backend (Z * KeyVal * option err) :=
  '(oldVal, modRevision, e) ← get key 0;
  match e with
  | Some _ => getRev ← mustDeal oldRevision; mret (getRev, emptyKeyVal, e)
  | None =>
      '(newRevision, e) ← deal oldRevision;
      match e with
      | Some _ => mret (0, emptyKeyVal, e)
      | None =>
          let old := mkKeyVal key oldVal modRevision in
          if (0 <? oldRevision) && negb (oldRevision =? modRevision)
          then mret (newRevision, old, Some ErrCASFailed)
          else
            let expectedRevision := if oldRevision <=? 0 then modRevision else oldRevision in
            if newRevision <=? modRevision
            then mret (newRevision, old, Some (Errorf "cas failed, new revision is not above the existing revision"))
            else
              e ← on_kv (kv_commit
                    [CAS (EncodeRevisionKey key) (Some (uint64ToBytes newRevision ++ [Byte.x00]))
                       (Some (uint64ToBytes expectedRevision)) 0;
                     Put (EncodeObjectKey key newRevision) (Some tombStoneBytes) 0]);
              mret (newRevision, old, e)
      end
  end.

(** The response of [Delete], with the latest value after a failed comparison. *)
Definition delete_reply (key : bytes) (rev : Z) (old : KeyVal) (e : option err)
    : GoM backend (option DeleteResponse * option err) :=
  if err_eq e ErrKeyNotFound then mret (Some (mkDeleteResponse rev (is_ok e) None), None)
  else if is_err e ErrCASFailed then
    '(val, modRevision, getErr) ← get key 0;
    match getErr with
    | Some _ =>
        mret (Some (mkDeleteResponse rev (is_ok e)
                      (Some (mkKV key (kvl_Val old) (kvl_Revision old)))), None)
    | None =>
        mret (Some (mkDeleteResponse (maxUint64 rev modRevision) (is_ok e)
                      (Some (mkKV key val modRevision))), None)
    end
  else match e with
       | Some _ => mret (None, e)
       | None =>
           mret (Some (mkDeleteResponse rev true
                         (Some (mkKV (kvl_Key old) (kvl_Val old) (kvl_Revision old)))), None)
       end.

Definition Delete (r : DeleteRequest) : GoM backend (option DeleteResponse * option err) :=
  '(rev, old, e) ← delete (dr_Revision r) (dr_Key r);
  notify (dr_Key r) (kvl_Val old) rev (kvl_Revision old) (is_ok e) DELETE e ;;
  delete_reply (dr_Key r) rev old e.

(** ** Compaction (compact.go) *)

Definition MinRevision (q : eventQueue) : Z :=
  match getHead q with Some n => we_Revision (n_event n) | None => 0 end.

Definition setCompactRecord (cfg : Config) (revision : Z) : GoM backend (option err) :=
  let key := getCompactKey (Prefix cfg) in
  '(val, e) ← on_kv (kv_get key);
  match e with
  | Some ge =>
      if negb (bool_decide (ge = ErrKeyNotFound)) then mret (Some ge)
      else on_kv (kv_commit [PutIfNotExist key (Some (uint64ToBytes revision)) 0])
  | None =>
      if (0 <? slen val) then
        compactRevision ← lift_opt (Uint64 (content val));
        if revision <? compactRevision then mret None
        else on_kv (kv_commit [CAS key (Some (uint64ToBytes revision)) val 0])
      else on_kv (kv_commit [PutIfNotExist key (Some (uint64ToBytes revision)) 0])
  end.

Definition compact_border (key : bytes) : list bytes :=
  let key := if negb (has_suffix key (str "/")) then key ++ str "/" else key in
  [EncodeObjectKey key 0; EncodeObjectKey (PrefixEnd key) 0].

Definition getCompactBorders (cfg : Config) : list bytes :=
  merge_sort bytes_le (concat (compact_border <$> (Prefix cfg :: SkippedPrefixes cfg))).

Fixpoint compact_ranges (cfg : Config) (now : Z) (ctx : nat → list bool) (revision : Z)
    (borders : list bytes) : GoM backend () :=
  match borders with
  | [] => mret ()
  | [_] => panic
  | start :: end_ :: borders' =>
      on_scanner (Scanner.Compact (getScannerConfig cfg) now ctx start end_ revision) ;;
      compact_ranges cfg now ctx revision borders'
  end.

Definition compact (cfg : Config) (now : Z) (ctx : nat → list bool) (revision : Z)
    : GoM backend (option err) :=
  e ← setCompactRecord cfg revision;
  match e with
  | Some _ => mret e
  | None => compact_ranges cfg now ctx revision (getCompactBorders cfg) ;; mret None
  end.

(** The revision a compaction request is served at. *)
Definition compact_revision (revision : Z) (b : backend) : Z :=
  let curRevision := committedRevision (tso b) in
  let revision := if (revision =? 0) || (curRevision <? revision) then curRevision else revision in
  let uncertainRev := MinRevision (asyncFifoRetry b) in
  if negb (uncertainRev =? 0) then minUint64 (uncertainRev - 1) revision else revision.

Definition Compact (cfg : Config) (now : Z) (ctx : nat → list bool) (revision : Z)
    : GoM backend (Z * option err) :=
  revision ← gets (compact_revision revision);
  e ← compact cfg now ctx revision;
  mret (revision, e).

(** ** The collector (collectStorageWriteEvents) *)

Definition event_of (we : WatchEvent) : Event :=
  mkEvent (we_ResourceVerb we)
    (mkKV (we_Key we) (we_Value we)
       (match we_ResourceVerb we with DELETE => we_PrevRevision we | _ => we_Revision we end))
    (we_Revision we).

(** One iteration: [pending] are the events of the batch so far. *)
Definition collect_iter (now : Z) (pending : list Event) : GoM backend (list Event) :=
  let flush := modify (λ b, set_chan (watchChan b ++ [pending]) b) ;; mret [] in
  if (length pending <? eventBatchSize)%nat then
    cur ← GetCurrentRevision;
    let idx := uint64 (cur + 1) mod watchersChanCapacity in
    slot ← gets (λ b, watchEventsRingBuffer b !! idx);
    match slot with
    | None => match pending with [] => mret [] | _ => flush end
    | Some watchEvent =>
        modify (λ b, set_buffer
          (base.delete (we_Revision watchEvent mod watchersChanCapacity) (watchEventsRingBuffer b)) b) ;;
        if negb (we_Valid watchEvent) then
          (if is_err (we_Err watchEvent) ErrUncertainResult
           then modify (λ b, set_queue (Queue.push watchEvent now (asyncFifoRetry b)) b) else mret ()) ;;
          SetCurrentRevision (we_Revision watchEvent) ;;
          mret pending
        else
          SetCurrentRevision (we_Revision watchEvent) ;;
          zoom watchCache set_cache (Add (event_of watchEvent)) ;;
          mret (pending ++ [event_of watchEvent])
    end
  else flush.

(** ** Retries of uncertain operations (retry/retry.go) *)

Definition RetryInterval : Z := 5000000000.

Definition overwrite (key : bytes) (prevOpRev : Z) : GoM backend (Z * option err) :=
  '(val, modRev, e) ← getLatestInternalVal key;
  match e with
  | Some e => if bool_decide (e = ErrKeyNotFound) then mret (0, None) else mret (0, Some e)
  | None =>
      if (slen val =? 0) || negb (modRev =? prevOpRev) then mret (0, None)
      else
        rev ← on_tso Deal;
        let flag := if bytes_eqb (content val) tombStoneBytes then [Byte.x00] else [] in
        e ← on_kv (kv_commit
              [CAS (EncodeRevisionKey key) (Some (uint64ToBytes rev ++ flag))
                 (Some (uint64ToBytes prevOpRev ++ flag)) 0;
               Put (EncodeObjectKey key rev) val 0]);
        mret (rev, e)
  end.

(** [retry] on the head of the queue; [true] breaks the loop of [Run]. *)
Definition retry (now : Z) : GoM backend bool :=
  node ← gets (λ b, getHead (asyncFifoRetry b));
  match node with
  | None => mret true
  | Some node =>
      if now - n_time node <? RetryInterval then mret true
      else
        let ev := n_event node in
        '(rev, e) ← overwrite (we_Key ev) (we_Revision ev);
        let finish := zoom asyncFifoRetry set_queue
                        (λ q, match pop q with Some q' => Some (q', false) | None => None end) in
        if rev =? 0 then
          match e with Some _ => mret true | None => finish end
        else
          notify (we_Key ev) (we_Value ev) rev (we_PrevRevision ev) (is_ok e)
            (we_ResourceVerb ev) e ;;
          finish
  end.
End backend.

Arguments backend : clear implicits.
