(* ===== verification/BackendSpec.v ===== *)
(** The writes and point reads of the backend on a storage engine: what each
    of them does to the versions of its key on every branch, the invariant they
    keep, and on an engine without failures the refinement of an abstract
    multi-version map. *)

From S2P Require Import Prelude GoMonad Storage Coder Proto Tso Ring Queue Mvcc Creator Scanner.
From S2P Require Import ScanSpec Backend.

Section spec.
Context {S : Type} `{KvSpec S}.

Definition view (b : backend S) : kvmap := kv_view (b_store b).

Definition put_store (s : S) (b : backend S) : backend S :=
  set_scanner (mkScanner s (compactHistories (b_scanner b))) b.

Lemma wp_on_kv {A} (m : GoM S A) (Q : A → backend S → Prop) b :
  wp m (λ a s', Q a (put_store s' b)) (b_store b) → wp (on_kv m) Q b.
Proof. intros Hm. unfold on_kv, on_scanner, sc_on_store. by apply wp_zoom, wp_zoom. Qed.

(** * The invariant of the backend's state *)

Record backend_inv (b : backend S) : Prop := {
  bi_kv : kv_inv (b_store b);
  bi_ok : store_ok (view b);
  bi_wf k : valid_key k → key_wf (view b) k;
  bi_below k : valid_key k → key_below (view b) k (dealRevision (tso b));
  bi_tso : 0 <= committedRevision (tso b) <= dealRevision (tso b);
}.

(** There is a revision left, and the collector is not a whole buffer behind. *)
Definition room (b : backend S) : Prop :=
  dealRevision (tso b) + 1 < two63 ∧
  dealRevision (tso b) + 1 - committedRevision (tso b) < watchersChanCapacity.

Lemma room_max b : room b → dealRevision (tso b) < max_uint64.
Proof. unfold room, max_uint64, two63. lia. Qed.

(** What a write at revision [r] may do to the engine. *)
Inductive written (m : kvmap) (k : bytes) (r : Z) (m' : kvmap) : Prop :=
  | written_none : m' = m → written m k r m'
  | written_live v :
      m' = put_version m k (live_record r) r v → is_tombstone v = false → written m k r m'
  | written_dead v :
      m' = put_version m k (dead_record r) r v → is_tombstone v = true → written m k r m'.

Lemma live_record_inj r r' : is_uint64 r → is_uint64 r' → live_record r = live_record r' → r = r'.
Proof.
  intros ? ? E. apply (f_equal content) in E.
  change (uint64ToBytes r = uint64ToBytes r') in E. by apply uint64ToBytes_inj.
Qed.

Lemma dead_record_inj r r' : is_uint64 r → is_uint64 r' → dead_record r = dead_record r' → r = r'.
Proof.
  intros ? ? E. apply (f_equal content) in E.
  change (uint64ToBytes r ++ [Byte.x00] = uint64ToBytes r' ++ [Byte.x00]) in E.
  apply app_inj_tail in E as [E _]. by apply uint64ToBytes_inj.
Qed.

Lemma live_dead_ne r r' : live_record r ≠ dead_record r'.
Proof.
  intros E. apply (f_equal (length ∘ content)) in E.
  change (length (uint64ToBytes r) = length (uint64ToBytes r' ++ [Byte.x00])) in E.
  rewrite length_app, !uint64ToBytes_length in E. done.
Qed.

Lemma key_below_mono m k d d' : d <= d' → key_below m k d → key_below m k d'.
Proof.
  intros Hd [H1 H2]. split; [intros r v Hv Hr; specialize (H1 r v Hv Hr); lia|].
  intros r Hr Hrec. specialize (H2 r Hr Hrec). lia.
Qed.

Lemma key_below_put m k rec r v k' :
  0 < r <= max_uint64 → rec = live_record r ∨ rec = dead_record r →
  key_below m k' (r - 1) → key_below (put_version m k rec r v) k' r.
Proof.
  intros Hr Hrec [H1 H2]. split.
  - intros q w Hq Hqr. rewrite put_version_obj in Hq by done.
    case_decide; [lia|]. specialize (H1 q w Hq Hqr). lia.
  - intros q Hq Hc. rewrite put_version_record in Hc by done. case_decide as E.
    + assert (is_uint64 q) by (unfold is_uint64, max_uint64, two64 in *; lia).
      assert (is_uint64 r) by (unfold is_uint64, max_uint64, two64 in *; lia).
      assert (r = q) as ->; [|lia]. destruct Hrec as [->| ->], Hc as [Hc|Hc]; apply (inj Some) in Hc.
      * by apply live_record_inj.
      * by apply live_dead_ne in Hc.
      * symmetry in Hc. by apply live_dead_ne in Hc.
      * by apply dead_record_inj.
    + specialize (H2 q Hq Hc). lia.
Qed.

(** Every outcome of a write keeps the invariant. *)
Lemma inv_written b b' k :
  backend_inv b → valid_key k → dealRevision (tso b) < max_uint64 →
  kv_inv (b_store b') → dealRevision (tso b') = dealRevision (tso b) + 1 →
  committedRevision (tso b') = committedRevision (tso b) →
  written (view b) k (dealRevision (tso b) + 1) (view b') → backend_inv b'.
Proof.
  intros [Hkv Hok Hwf Hbl Htso] Hk Hmax Hkv' Hd Hc Hw.
  set (r := dealRevision (tso b) + 1) in *.
  assert (0 < r <= max_uint64) as Hr by (unfold r; lia).
  assert (r - 1 = dealRevision (tso b)) as Er by (unfold r; lia).
  assert (∀ k, valid_key k → key_below (view b) k (r - 1)) as Hbl' by (rewrite Er; done).
  destruct Hw as [E|v E Ht|v E Ht]; (split; rewrite ?Hd, ?Hc, ?E; try done; [..|lia]).
  - intros k' Hk'. eapply key_below_mono; [|by apply Hbl']. lia.
  - by apply put_version_ok.
  - intros k' Hk'. destruct (decide (k' = k)) as [->|].
    + apply put_version_live_wf; [done | by apply Hbl' | done].
    + apply put_version_other_wf; auto.
  - intros k' Hk'. apply key_below_put; auto.
  - by apply put_version_ok.
  - intros k' Hk'. destruct (decide (k' = k)) as [->|].
    + apply put_version_dead_wf; [done | by apply Hbl' | done].
    + apply put_version_other_wf; auto.
  - intros k' Hk'. apply key_below_put; auto.
Qed.

(** * Dealing and notifying *)

Lemma wp_deal prev b (Q : Z * option err → backend S → Prop) :
  0 <= dealRevision (tso b) < max_uint64 →
  Q (dealRevision (tso b) + 1,
     if (0 <? prev) && (dealRevision (tso b) + 1 <? prev) then Some ErrRevisionDriftBack else None)
    (set_tso (mkTSO (committedRevision (tso b)) (dealRevision (tso b) + 1)) b) →
  wp (deal prev) Q b.
Proof.
  intros Hd HQ. unfold deal, on_tso. wp_steps. apply wp_Deal; [lia..|]. simpl.
  destruct (_ && _); by apply wp_ret.
Qed.

Lemma wp_notify k v r prev valid ty e b (Q : () → backend S → Prop) :
  0 < r < two63 → 0 <= r - committedRevision (tso b) < watchersChanCapacity →
  Q () (set_buffer (<[r mod watchersChanCapacity := mkWatchEvent r prev ty valid k v e]>
          (watchEventsRingBuffer b)) b) →
  wp (notify k v r prev valid ty e) Q b.
Proof.
  intros Hr Hlag HQ. unfold notify, GetCurrentRevision, on_tso, GetRevision.
  destruct (Z.eqb_spec r 0); [lia|]. wp_steps.
  rewrite uint64_id by (unfold is_uint64, two64, watchersChanCapacity in *; lia).
  destruct (Z.leb_spec watchersChanCapacity (r - committedRevision (tso b))); [lia|].
  rewrite int64_id by (unfold two63 in *; lia).
  rewrite Z.rem_mod_nonneg by (unfold watchersChanCapacity; lia).
  destruct (Z.ltb_spec (r mod watchersChanCapacity) 0) as [Hneg|];
    [|by apply wp_modify].
  pose proof (Z.mod_pos_bound r watchersChanCapacity ltac:(done)). lia.
Qed.

(** * Point reads *)

(** The revision a read is served at. *)
Definition read_rev (R : Z) : Z := if R =? 0 then max_uint64 else R.

Lemma read_rev_ok R : is_uint64 R → is_uint64 (read_rev R) ∧ 0 < read_rev R.
Proof.
  unfold read_rev. destruct (Z.eqb_spec R 0); intros ?.
  - split; [apply max_is_uint64 | done].
  - split; [done|]. unfold is_uint64 in *. lia.
Qed.

(** The first item of the reverse iterator is the newest version. *)
Lemma point_query m k R it :
  store_ok m → valid_key k → is_uint64 R → 0 < R →
  iter_post m (EncodeObjectKey k R) (EncodeObjectKey k 0) 1 it →
  match it_items it with
  | [] => it_end it = EOF → latest m k R = None
  | x :: _ =>
      ∃ uk r e, Decode (it_key x) = Some (uk, r, e) ∧
        if (r =? 0) || negb (bytes_eqb uk k) then latest m k R = None
        else latest m k R = Some (r, it_val x)
  end.
Proof.
  intros Hm Hk HR Hpos [_ Hit]. pose proof zero_is_uint64 as Hz.
  assert (bytes_ltb (EncodeObjectKey k 0) (EncodeObjectKey k R) = true) as Hlt.
  { apply bytes_ltb_spec, EncodeObjectKey_lt; try done. by right. }
  rewrite Hlt in Hit. simpl in Hit. unfold latest.
  destruct (desc_range m _ _) as [|[ik v] l] eqn:Ed.
  - destruct (it_items it) as [|x xs]; [done|]. simpl in Hit.
    apply Forall_cons in Hit as [[Hx Hle] _]. simpl in *.
    destruct (internal_ok_Decode (it_key x)) as [[[uk r] e] Edec]; [by eapply Hm|].
    exists uk, r, e. split; [done|].
    assert (((r =? 0) || negb (bytes_eqb uk k)) = true) as ->; [|done].
    destruct (Z.eqb_spec r 0); [done|]. simpl. destruct (bytes_eqb uk k) eqn:Ek; [|done].
    apply bytes_eqb_spec in Ek as ->. exfalso. destruct e as [e|].
    + unfold Decode in Edec. repeat case_match; simplify_eq; done.
    + apply Decode_sound in Edec as [Ekey Hr]. rewrite Ekey in Hle.
      apply EncodeObjectKey_le in Hle; try done.
      destruct Hle as [?%bytes_lt_irrefl|[_ ?]]; [done|]. unfold is_uint64 in Hr. lia.
  - destruct Hit as [Hpre Hend]. destruct (it_items it) as [|x xs].
    + intros Heof. specialize (Hend Heof). simpl in Hend. by apply prefix_nil_inv in Hend.
    + rewrite fmap_cons in Hpre. destruct Hpre as [k' Hk']. simpl in Hk'.
      injection Hk' as Eik Ev Hl. subst ik v.
      destruct (proj1 (elem_of_versions m k R Hm Hk HR (it_key x) (it_val x))) as (r & Ekey & Hr & _).
      { rewrite Ed. left. }
      rewrite Ekey. rewrite Decode_Encode by (unfold is_uint64 in *; lia).
      exists k, r, None. split; [done|]. rewrite bytes_eqb_refl.
      destruct (Z.eqb_spec r 0); [lia | done].
Qed.

(** [getInternalVal] and the map it reads. *)
Definition internal_post (m : kvmap) (k : bytes) (R : Z) (val : slice) (modRev : Z) (e : option err)
    : Prop :=
  match e with
  | None => latest m k R = Some (modRev, val)
  | Some e =>
      val = None ∧ modRev = 0 ∧ err_is e ErrCASFailed = false ∧
      (err_is e ErrKeyNotFound = true → latest m k R = None)
  end.

Definition found_or_not (e : option err) : Prop := e = None ∨ e = Some ErrKeyNotFound.

Lemma wp_getInternalVal k R b :
  kv_inv (b_store b) → store_ok (view b) → valid_key k → is_uint64 R →
  wp (getInternalVal k R) (λ r b', ∃ s', b' = put_store s' b ∧ kv_inv s' ∧ kv_view s' = view b ∧
    internal_post (view b) k (read_rev R) r.1.1 r.1.2 r.2 ∧ (KvReliable S → found_or_not r.2)) b.
Proof.
  intros Hkv Hok Hk HR. destruct (read_rev_ok R HR) as [HR' Hpos]. unfold getInternalVal.
  fold (read_rev R). apply wp_bind, wp_on_kv.
  eapply wp_mono; [apply (wp_and _ (KvReliable S));
    [by apply kv_iter_spec | intros ?; by apply kv_iter_ok]|].
  intros r s' [(Hkv' & Hv & Hit) Hrel].
  assert (∀ val modRev e, internal_post (view b) k (read_rev R) val modRev e →
    (KvReliable S → found_or_not e) →
    wp (mret (val, modRev, e)) (λ r b', ∃ s', b' = put_store s' b ∧ kv_inv s' ∧ kv_view s' = view b ∧
      internal_post (view b) k (read_rev R) r.1.1 r.1.2 r.2 ∧ (KvReliable S → found_or_not r.2))
      (put_store s' b)) as Hret.
  { intros val modRev e Hp He. apply wp_ret. by exists s'. }
  destruct r as [e|it].
  { destruct Hit. apply Hret; [do 3 (split; [done|]); congruence|]. intros Hr.
    by destruct (Hrel Hr) as (? & ? & _). }
  pose proof (point_query _ k _ it Hok Hk HR' Hpos Hit) as Hq.
  destruct (it_items it) as [|x xs].
  - case_bool_decide as E; apply Hret.
    + do 3 (split; [done|]). intros _. by apply Hq.
    + intros _. by right.
    + destruct Hit as [[Hne Hc] _]. do 3 (split; [done|]). congruence.
    + intros Hr. by destruct (Hrel Hr) as (? & [= <-] & ?).
  - destruct Hq as (uk & q & e & Ed & Hq). apply wp_bind. eapply wp_lift_opt; [done|].
    cbv beta iota. destruct (_ || _).
    + apply (Hret None 0 (Some ErrKeyNotFound)); [done | by right].
    + apply (Hret (it_val x) q None); [done | by left].
Qed.

Definition get_result (m : kvmap) (k : bytes) (R : Z) (val : slice) (modRev : Z) (e : option err)
    : Prop :=
  match e with
  | None => visible m k R = Some (modRev, val)
  | Some e =>
      val = None ∧ err_is e ErrCASFailed = false ∧
      (err_is e ErrKeyNotFound = true → visible m k R = None)
  end.

Lemma wp_get k R b :
  kv_inv (b_store b) → store_ok (view b) → valid_key k → is_uint64 R →
  wp (get k R) (λ r b', ∃ s', b' = put_store s' b ∧ kv_inv s' ∧ kv_view s' = view b ∧
    get_result (view b) k (read_rev R) r.1.1 r.1.2 r.2 ∧ (KvReliable S → found_or_not r.2)) b.
Proof.
  intros Hkv Hok Hk HR. unfold get. apply wp_bind.
  eapply wp_mono; [by apply wp_getInternalVal|].
  intros [[val q] e] b' (s' & -> & Hkv' & Hv & Hp & Hrel). simpl in Hp, Hrel.
  destruct (bytes_eqb (content val) tombStoneBytes) eqn:Et; apply wp_ret; exists s';
    (split; [done|]; split; [done|]; split; [done|]; split; [|first [exact Hrel | intros _; by right]]);
    unfold get_result, visible; simpl; unfold internal_post in Hp.
  - split; [done|]. split; [done|]. intros _. destruct e as [e|].
    + destruct Hp as (-> & _). done.
    + rewrite Hp. unfold is_tombstone. by rewrite Et.
  - destruct e as [e|].
    + destruct Hp as (-> & -> & Hc & Hp). do 2 (split; [done|]). intros Ee. by rewrite (Hp Ee).
    + rewrite Hp. unfold is_tombstone. by rewrite Et.
Qed.

(** * The write batches *)

(** The state after a write: the revision is dealt, the engine is [s']. *)
Definition dealt (b : backend S) : backend S :=
  set_tso (mkTSO (committedRevision (tso b)) (dealRevision (tso b) + 1)) b.

Local Abbreviation next b := (dealRevision (tso b) + 1).

Lemma wp_create_backend k v lease b :
  backend_inv b → valid_key k → dealRevision (tso b) < max_uint64 →
  wp (create k v lease) (λ r b', ∃ s', b' = put_store s' (dealt b) ∧ kv_inv s' ∧
    r.1 = next b ∧ create_post (view b) k (next b) v r.2 (kv_view s') ∧
    (KvReliable S → (dead (view b) k → r.2 = None) ∧
                    (¬ dead (view b) k → is_err r.2 ErrCASFailed = true))) b.
Proof.
  intros Hb Hk Hmax. unfold create. apply wp_bind, wp_deal; [pose proof (bi_tso _ Hb); lia|].
  simpl. apply wp_bind, wp_on_kv.
  assert (∀ ttl, wp (CreateWithTTL k v (next b) ttl) (λ e s', (kv_inv s' ∧
    create_post (view b) k (next b) v e (kv_view s')) ∧ (KvReliable S →
      (dead (view b) k → e = None) ∧ (¬ dead (view b) k → is_err e ErrCASFailed = true)))
    (b_store b)) as Hc.
  { intros ttl. apply wp_and; [apply wp_CreateWithTTL; [apply Hb | by apply (bi_wf _ Hb)]|].
    intros ?. apply wp_CreateWithTTL_reliable; [apply Hb | by apply (bi_wf _ Hb)|].
    replace (next b - 1) with (dealRevision (tso b)) by lia. by apply (bi_below _ Hb). }
  eapply wp_mono; [destruct (negb _); apply Hc|].
  intros e s' [[Hkv He] Hrel]. apply wp_ret. by exists s'.
Qed.

(** The outcome of a compare-and-swap write over revision [old]. *)
Definition cas_post (m : kvmap) (k : bytes) (old : slice) (rec : slice) (r : Z) (v : slice)
    (e : option err) (m' : kvmap) : Prop :=
  let applied := m !! EncodeRevisionKey k = Some old ∧ m' = put_version m k rec r v in
  match e with
  | None => applied
  | Some e =>
      m' = m ∨ err_is e ErrUncertainResult = true ∧ err_is e ErrCASFailed = false ∧ applied
  end.

Lemma record_content m k w old :
  key_wf m k → m !! EncodeRevisionKey k = Some w → content w = content (Some old) → w = Some old.
Proof.
  intros Hwf E Ec. apply key_wf_record in Hwf. destruct w as [w|]; [|done].
  simpl in Ec. by subst.
Qed.

(** Without engine failures the comparison alone decides. *)
Definition cas_reliable (m : kvmap) (k : bytes) (old : slice) (e : option err) : Prop :=
  (m !! EncodeRevisionKey k = Some old → e = None) ∧
  (m !! EncodeRevisionKey k ≠ Some old → is_err e ErrCASFailed = true).

Lemma wp_cas_write k old rec r v s :
  kv_inv s → key_wf (kv_view s) k →
  wp (kv_commit [CAS (EncodeRevisionKey k) rec (Some old) 0; Put (EncodeObjectKey k r) v 0])
    (λ e s', kv_inv s' ∧ cas_post (kv_view s) k (Some old) rec r v e (kv_view s') ∧
      (KvReliable S → cas_reliable (kv_view s) k (Some old) e)) s.
Proof.
  intros Hkv Hwf. pose proof (key_wf_record _ _ Hwf) as Hnil.
  eapply wp_mono; [apply (wp_and _ (KvReliable S)); [by apply wp_cas_put | intros ?;
    apply wp_commit_reliable; done]|].
  intros e s' [[Hkv' Hc] Hrel]. split; [done|]. split; [|intros Hr; specialize (Hrel Hr)].
  2:{ destruct Hrel as [_ Hrel]. simpl in Hrel. unfold cas_reliable.
      destruct (kv_view s !! EncodeRevisionKey k) as [w|] eqn:Ew.
      - destruct (bytes_eqb (content w) old) eqn:Eb.
        + apply bytes_eqb_spec in Eb. rewrite (record_content _ _ _ _ Hwf Ew Eb).
          split; [by intros _; destruct Hrel | done].
        + apply bytes_eqb_false in Eb. split; [intros [= ->]; done | by intros _; destruct Hrel].
      - split; [done | by intros _; destruct Hrel]. }
  unfold cas_post. destruct e as [e|].
  - destruct Hc as [?|(? & ? & w & Hw & Ec & ?)]; [by left|]. right.
    rewrite (record_content _ _ _ _ Hwf Hw Ec) in Hw. done.
  - destruct Hc as (w & Hw & Ec & ?). by rewrite (record_content _ _ _ _ Hwf Hw Ec) in Hw.
Qed.

Lemma wp_update_backend old k v b :
  backend_inv b → valid_key k → dealRevision (tso b) < max_uint64 → 0 < old →
  wp (update old k v) (λ r b',
    if next b <? old then b' = dealt b ∧ r = (0, Some ErrRevisionDriftBack)
    else ∃ s', b' = put_store s' (dealt b) ∧ kv_inv s' ∧ r.1 = next b ∧
      cas_post (view b) k (live_record old) (live_record (next b)) (next b) v r.2 (kv_view s') ∧
      (KvReliable S → cas_reliable (view b) k (live_record old) r.2)) b.
Proof.
  intros Hb Hk Hmax Hold. unfold update. apply wp_bind, wp_deal; [pose proof (bi_tso _ Hb); lia|].
  destruct (Z.ltb_spec 0 old); [|lia]. simpl. destruct (next b <? old); [by apply wp_ret|].
  apply wp_bind, wp_on_kv.
  eapply wp_mono; [apply wp_cas_write; [apply Hb | by apply (bi_wf _ Hb)]|].
  intros e s' (Hkv & He & Hrel). apply wp_ret. by exists s'.
Qed.

(** The outcome of a delete: of [expected], or of whatever is there. *)
Definition delete_post (m : kvmap) (k : bytes) (old new : Z) (r : Z * KeyVal * option err)
    (m' : kvmap) : Prop :=
  let '(rev, kv, e) := r in
  (visible m k max_uint64 = None ∧ rev = new ∧ kv = emptyKeyVal ∧ e = Some ErrKeyNotFound ∧ m' = m) ∨
  (∃ ge, ¬ KvReliable S ∧ ge ≠ ErrKeyNotFound ∧ err_is ge ErrCASFailed = false ∧ rev = new ∧ kv = emptyKeyVal ∧ e = Some ge ∧ m' = m) ∨
  ∃ mr v, visible m k max_uint64 = Some (mr, v) ∧
    if (0 <? old) && (new <? old) then rev = 0 ∧ kv = emptyKeyVal ∧ e = Some ErrRevisionDriftBack ∧ m' = m
    else rev = new ∧ kv = mkKeyVal k v mr ∧
      if (0 <? old) && negb (old =? mr) then e = Some ErrCASFailed ∧ m' = m
      else cas_post m k (live_record mr) (dead_record new) new (Some tombStoneBytes) e m' ∧
           (KvReliable S → e = None).

(** The record of a visible key names its newest revision. *)
Lemma visible_record m k mr v :
  store_ok m → valid_key k → key_wf m k → visible m k max_uint64 = Some (mr, v) →
  m !! EncodeRevisionKey k = Some (live_record mr).
Proof.
  intros Hm Hk Hwf Hv. apply visible_Some in Hv as [Hl Ht]; [|done|done|apply max_is_uint64].
  destruct Hwf as [_ Hd|r w E Hl'|r _ _ Hd _].
  - specialize (Hd _ _ Hl). congruence.
  - by destruct (is_latest_unique _ _ _ _ _ _ _ Hl Hl') as [-> _].
  - specialize (Hd _ _ Hl). congruence.
Qed.

Lemma wp_delete_backend old k b :
  backend_inv b → valid_key k → dealRevision (tso b) < max_uint64 → 0 <= old →
  wp (Backend.delete old k) (λ r b', ∃ s', b' = put_store s' (dealt b) ∧ kv_inv s' ∧
    delete_post (view b) k old (next b) r (kv_view s')) b.
Proof.
  intros Hb Hk Hmax Hold. pose proof (bi_tso _ Hb) as Htso. pose proof zero_is_uint64 as Hz.
  unfold Backend.delete. apply wp_bind.
  eapply wp_mono; [apply wp_get; [apply Hb | apply Hb | done | done]|].
  intros [[val mr] e] b1 (s1 & -> & Hkv1 & Hv1 & Hg & Hgr). simpl in Hg, Hgr.
  change (read_rev 0) with max_uint64 in Hg. unfold get_result in Hg. destruct e as [e|].
  - destruct Hg as (-> & Hgc & Hg). unfold mustDeal. wp_steps. apply wp_deal; [simpl; lia|]. wp_steps.
    exists s1. split; [done|]. split; [done|].
    unfold delete_post. destruct (decide (e = ErrKeyNotFound)) as [->|Hne].
    + left. rewrite Hg by done. auto 10.
    + right; left. exists e. split; [|auto 10]. intros Hr. destruct (Hgr Hr); congruence.
  - apply wp_bind, wp_deal; [simpl; lia|]. simpl.
    destruct ((0 <? old) && (next b <? old)) eqn:Edrift.
    { apply wp_ret. exists s1. split; [done|]. split; [done|]. right; right. exists mr, val.
      split; [done|]. by rewrite Edrift. }
    destruct ((0 <? old) && negb (old =? mr)) eqn:Ecas.
    { apply wp_ret. exists s1. split; [done|]. split; [done|]. right; right. exists mr, val.
      split; [done|]. by rewrite Edrift, Ecas. }
    assert ((if old <=? 0 then mr else old) = mr) as ->.
    { destruct (Z.leb_spec old 0); [done|]. destruct (Z.ltb_spec 0 old); [|lia].
      by destruct (Z.eqb_spec old mr). }
    assert (mr <= dealRevision (tso b)) as Hmr.
    { apply visible_Some in Hg as [(Ho & Hr & _) _]; [|apply Hb|done|apply max_is_uint64].
      eapply (proj1 (bi_below _ Hb k Hk)); done. }
    destruct (Z.leb_spec (next b) mr); [lia|]. apply wp_bind, wp_on_kv.
    eapply wp_mono; [apply (wp_cas_write _ _ _ _ _ s1); [done | rewrite Hv1; by apply (bi_wf _ Hb)]|].
    intros e s' (Hkv & He & Hrel). rewrite Hv1 in He, Hrel. apply wp_ret. exists s'.
    split; [done|]. split; [done|]. right; right. exists mr, val. split; [done|].
    rewrite Edrift, Ecas. do 2 (split; [done|]). split; [done|]. intros Hr. apply (Hrel Hr).
    apply (visible_record _ _ mr val); [apply Hb | done | by apply (bi_wf _ Hb) | done].
Qed.

(** * The handlers *)

(** Exactly one revision is dealt, and its outcome is handed to the collector. *)
Definition submitted (b b' : backend S) (ev : WatchEvent) : Prop :=
  tso b' = mkTSO (committedRevision (tso b)) (next b) ∧
  watchEventsRingBuffer b' =
    <[next b mod watchersChanCapacity := ev]> (watchEventsRingBuffer b) ∧
  we_Revision ev = next b.

Lemma create_post_written m k r v e m' :
  is_tombstone v = false → create_post m k r v e m' → written m k r m'.
Proof.
  intros Ht. unfold create_post. destruct e as [e|].
  - intros [->|(_ & _ & _ & ->)]; [by apply written_none | by eapply written_live].
  - intros [_ ->]. by eapply written_live.
Qed.

Lemma create_post_cas m k r v e m' :
  create_post m k r v (Some e) m' → err_is e ErrCASFailed = true → m' = m.
Proof. intros [?|(_ & ? & _)] ?; [done | congruence]. Qed.

Lemma cas_post_cas m k old rec r v e m' :
  cas_post m k old rec r v (Some e) m' → err_is e ErrCASFailed = true → m' = m.
Proof. intros [?|(_ & ? & _)] ?; [done | congruence]. Qed.

Lemma dead_visible m k :
  store_ok m → valid_key k → dead m k ↔ visible m k max_uint64 = None.
Proof.
  intros Hm Hk. pose proof max_is_uint64. split.
  - intros Hd. destruct (visible m k max_uint64) as [[r v]|] eqn:E; [|done].
    apply visible_Some in E as [Hl Ht]; try done. specialize (Hd _ _ Hl). congruence.
  - intros E r v Hl. destruct (is_tombstone v) eqn:Ht; [done|].
    assert (visible m k max_uint64 = Some (r, v)); [by apply visible_Some | congruence].
Qed.

Lemma dead_dec m k : store_ok m → valid_key k → dead m k ∨ ¬ dead m k.
Proof.
  intros Hm Hk. rewrite dead_visible by done. destruct (visible m k max_uint64); [by right | by left].
Qed.

(** The outcome of a create of [v] at [k]. *)
Definition created (m : kvmap) (k : bytes) (v : slice) (r : Z) (ok : bool) (m' : kvmap) : Prop :=
  if ok then dead m k ∧ m' = put_version m k (live_record r) r v else m' = m.

Definition Create_post (b : backend S) (put : CreateRequest) (r : option CreateResponse * option err)
    (b' : backend S) : Prop :=
  backend_inv b' ∧
  ∃ ev, submitted b b' ev ∧ we_Key ev = cr_Key put ∧ we_Value ev = cr_Value put ∧
    we_ResourceVerb ev = CREATE ∧
    match r with
    | (Some resp, None) =>
        crs_Revision resp = next b ∧ we_Valid ev = crs_Succeeded resp ∧
        created (view b) (cr_Key put) (cr_Value put) (next b) (crs_Succeeded resp) (view b')
    | (None, Some e) =>
        we_Valid ev = false ∧ we_Err ev = Some e ∧ err_is e ErrCASFailed = false ∧
        (view b' = view b ∨ err_is e ErrUncertainResult = true)
    | _ => False
    end.

Lemma wp_Create put b :
  backend_inv b → room b → valid_key (cr_Key put) → is_tombstone (cr_Value put) = false →
  wp (Backend.Create put) (λ r b', Create_post b put r b' ∧
    (KvReliable S → ∃ resp, r = (Some resp, None) ∧
      (dead (view b) (cr_Key put) → crs_Succeeded resp = true))) b.
Proof.
  intros Hb Hroom Hk Ht. pose proof (bi_tso _ Hb) as Htso. pose proof (room_max _ Hroom) as Hmax.
  unfold Backend.Create. apply wp_bind. eapply wp_mono; [by apply wp_create_backend|].
  intros [rev e] b1 (s' & -> & Hkv & Erev & He & Hrel). simpl in Erev, He, Hrel. subst rev.
  apply wp_bind. apply wp_notify; [unfold room in Hroom; lia | unfold room in Hroom; simpl; lia|].
  set (ev := mkWatchEvent _ _ _ _ _ _ _). set (b' := set_buffer _ _).
  assert (backend_inv b') as Hb'.
  { apply (inv_written b b' (cr_Key put)); try done. by eapply create_post_written. }
  assert (submitted b b' ev) as Hsub by done.
  assert (dead (view b) (cr_Key put) ∨ ¬ dead (view b) (cr_Key put)) as Hdec
    by (apply dead_dec; [apply Hb | done]).
  destruct e as [e|].
  - simpl is_err. destruct (err_is e ErrCASFailed) eqn:Ecas; apply wp_ret; split.
    + split; [done|]. exists ev. repeat (split; [done|]). by apply (create_post_cas _ _ _ _ _ _ He).
    + intros Hr. eexists. split; [done|]. intros Hd. by apply (Hrel Hr) in Hd.
    + split; [done|]. exists ev. repeat (split; [done|]). simpl. destruct He as [?|(? & _)]; auto.
    + intros Hr. exfalso. destruct (Hrel Hr) as [H1 H2]. simpl in H2. destruct Hdec as [Hd|Hd].
      * by apply H1 in Hd.
      * apply H2 in Hd. congruence.
  - apply wp_ret. split; [split; [done|]; by exists ev|]. eauto.
Qed.

Definition Update_post (b : backend S) (r : UpdateRequest) (res : option UpdateResponse * option err)
    (b' : backend S) : Prop :=
  let key := kv_Key (ur_Kv r) in
  let value := kv_Value (ur_Kv r) in
  let prev := kv_Revision (ur_Kv r) in
  backend_inv b' ∧
  if (0 <? prev) && (next b <? prev) then
    res = (None, Some ErrRevisionDriftBack) ∧ view b' = view b ∧
    tso b' = tso (dealt b) ∧ watchEventsRingBuffer b' = watchEventsRingBuffer b
  else
    ∃ ev, submitted b b' ev ∧ we_Key ev = key ∧ we_Value ev = value ∧
      we_ResourceVerb ev = (if prev =? 0 then CREATE else PUT) ∧
      match res with
      | (Some resp, None) =>
          we_Valid ev = urs_Succeeded resp ∧
          if urs_Succeeded resp then
            urs_Revision resp = next b ∧ urs_Kv resp = None ∧
            view b' = put_version (view b) key (live_record (next b)) (next b) value ∧
            if prev =? 0 then dead (view b) key
            else view b !! EncodeRevisionKey key = Some (live_record prev)
          else
            view b' = view b ∧
            urs_Kv resp = (λ x, mkKV key x.2 x.1) <$> visible (view b) key max_uint64 ∧
            urs_Revision resp = maxUint64 (next b) (default 0 (fst <$> visible (view b) key max_uint64))
      | (None, Some e) =>
          we_Valid ev = false ∧
          (view b' = view b ∨ err_is e ErrUncertainResult = true ∧ we_Err ev = Some e)
      | _ => False
      end.

(** Without engine failures there is always a response, and it is a success
    when the comparison holds. *)
Definition Update_reliable (b : backend S) (r : UpdateRequest) (res : option UpdateResponse * option err)
    : Prop :=
  let key := kv_Key (ur_Kv r) in
  let prev := kv_Revision (ur_Kv r) in
  (0 < prev ∧ next b < prev) ∨
  ∃ resp, res = (Some resp, None) ∧
    ((if prev =? 0 then dead (view b) key
      else view b !! EncodeRevisionKey key = Some (live_record prev)) → urs_Succeeded resp = true).

(** The state with only the engine's internals changed. *)
Definition reread (b b' : backend S) : Prop :=
  ∃ s', b' = put_store s' b ∧ kv_inv s' ∧ kv_view s' = view b.

Lemma reread_inv b b' : reread b b' → backend_inv b → backend_inv b'.
Proof.
  intros (s' & -> & Hkv & Hv) [H1 H2 H3 H4 H5].
  by split; unfold view, b_store in *; simpl; rewrite ?Hv.
Qed.

Lemma wp_update_reply k curRev e b :
  backend_inv b → valid_key k → 0 < curRev →
  wp (update_reply k curRev e) (λ res b', reread b b' ∧
    if is_err e ErrCASFailed then
      match res with
      | (Some resp, None) =>
          urs_Succeeded resp = false ∧
          urs_Kv resp = (λ x, mkKV k x.2 x.1) <$> visible (view b) k max_uint64 ∧
          urs_Revision resp = maxUint64 curRev (default 0 (fst <$> visible (view b) k max_uint64))
      | (None, Some _) => ¬ KvReliable S
      | _ => False
      end
    else
      res = match e with
            | Some _ => (None, e)
            | None => (Some (mkUpdateResponse curRev true None), None)
            end) b.
Proof.
  intros Hb Hk Hpos. unfold update_reply. destruct (is_err e ErrCASFailed).
  2:{ destruct e; apply wp_ret; (split; [|done]); exists (b_store b); (split; [|by split; [apply Hb|]]);
        by destruct b as [? []]. }
  apply wp_bind. pose proof zero_is_uint64.
  eapply wp_mono; [apply wp_get; [apply Hb | apply Hb | done | done]|].
  intros [[val mr] ge] b1 (s1 & -> & Hkv1 & Hv1 & Hg & Hgr). simpl in Hg, Hgr.
  change (read_rev 0) with max_uint64 in Hg.
  assert (reread b (put_store s1 b)) as Hre by by exists s1.
  unfold get_result in Hg. destruct ge as [ge|].
  - destruct (err_is ge ErrKeyNotFound) eqn:Ek; apply wp_ret; (split; [done|]);
      [|simpl; intros Hr; destruct (Hgr Hr) as [?|[= ->]]; done].
    destruct Hg as (_ & _ & Hg). rewrite (Hg eq_refl). simpl. unfold maxUint64.
    destruct (Z.ltb_spec 0 curRev); [done | lia].
  - apply wp_ret. split; [done|]. simpl. by rewrite Hg.
Qed.

Lemma cas_post_written m k old rec r v e m' :
  (rec = live_record r ∧ is_tombstone v = false ∨ rec = dead_record r ∧ is_tombstone v = true) →
  cas_post m k old rec r v e m' → written m k r m'.
Proof.
  intros Hrec Hc.
  assert (m' = m ∨ m' = put_version m k rec r v) as [?|E].
  { unfold cas_post in Hc. destruct e; [destruct Hc as [?|(_ & _ & _ & ?)]; auto | right; apply Hc]. }
  - by apply written_none.
  - destruct Hrec as [[-> ?]|[-> ?]]; [by eapply written_live | by eapply written_dead].
Qed.

(** The response follows the outcome of the batch. *)
Definition reply_of (k : bytes) (e : option err) (b : backend S)
    (res : option UpdateResponse * option err) : Prop :=
  if is_err e ErrCASFailed then
    match res with
    | (Some resp, None) =>
        urs_Succeeded resp = false ∧
        urs_Kv resp = (λ x, mkKV k x.2 x.1) <$> visible (view b) k max_uint64 ∧
        urs_Revision resp = maxUint64 (next b) (default 0 (fst <$> visible (view b) k max_uint64))
    | (None, Some _) => ¬ KvReliable S
    | _ => False
    end
  else
    res = match e with
          | Some _ => (None, e)
          | None => (Some (mkUpdateResponse (next b) true None), None)
          end.

(** What is common to the two kinds of update, once the batch is done. *)
Lemma wp_update_finish k v prev ty e b s' (Q : option UpdateResponse * option err → backend S → Prop) :
  backend_inv b → room b → valid_key k → kv_inv s' → written (view b) k (next b) (kv_view s') →
  (is_err e ErrCASFailed = true → kv_view s' = view b) →
  (∀ res b', backend_inv b' → view b' = kv_view s' →
     submitted b b' (mkWatchEvent (next b) prev ty (is_ok e) k v e) →
     reply_of k e b res → Q res b') →
  wp (notify k v (next b) prev (is_ok e) ty e ;; update_reply k (next b) e) Q (put_store s' (dealt b)).
Proof.
  intros Hb Hroom Hk Hkv Hw Hcas HQ. pose proof (bi_tso _ Hb) as Htso.
  pose proof (room_max _ Hroom) as Hmax. unfold room in Hroom.
  apply wp_bind. apply wp_notify; [lia | simpl; lia|]. set (b1 := set_buffer _ _).
  assert (backend_inv b1) as Hb1 by by apply (inv_written b b1 k).
  eapply wp_mono; [apply wp_update_reply; try done; lia|].
  intros res b' [Hre Hres]. pose proof (reread_inv _ _ Hre Hb1) as Hb'.
  destruct Hre as (s2 & -> & Hkv2 & Hv2). apply HQ; try done.
  change (view b1) with (kv_view s') in Hres. unfold reply_of.
  destruct (is_err e ErrCASFailed); [|done]. rewrite Hcas in Hres by done. exact Hres.
Qed.

Lemma update_outcome k v prev ty e b s' b' res (P : Prop) :
  view b' = kv_view s' → reply_of k e b res →
  (∀ e', e = Some e' → err_is e' ErrCASFailed = true → kv_view s' = view b) →
  (∀ e', e = Some e' → err_is e' ErrCASFailed = false →
     kv_view s' = view b ∨ err_is e' ErrUncertainResult = true) →
  (e = None → P ∧ kv_view s' = put_version (view b) k (live_record (next b)) (next b) v) →
  match res with
  | (Some resp, None) =>
      we_Valid (mkWatchEvent (next b) prev ty (is_ok e) k v e) = urs_Succeeded resp ∧
      if urs_Succeeded resp then
        urs_Revision resp = next b ∧ urs_Kv resp = None ∧
        view b' = put_version (view b) k (live_record (next b)) (next b) v ∧ P
      else
        view b' = view b ∧
        urs_Kv resp = (λ x, mkKV k x.2 x.1) <$> visible (view b) k max_uint64 ∧
        urs_Revision resp = maxUint64 (next b) (default 0 (fst <$> visible (view b) k max_uint64))
  | (None, Some e0) =>
      is_ok e = false ∧
      (view b' = view b ∨ err_is e0 ErrUncertainResult = true ∧ e = Some e0)
  | _ => False
  end.
Proof.
  intros Hv Hres Hcas Herr Hok. unfold reply_of in Hres. rewrite Hv. simpl.
  destruct e as [e|]; simpl in *.
  - destruct (err_is e ErrCASFailed) eqn:Ec.
    + rewrite (Hcas e eq_refl Ec). destruct res as [[resp|] [e'|]]; try done.
      * by destruct Hres as (-> & ? & ?).
      * split; [done | by left].
    + rewrite Hres. split; [done|]. destruct (Herr e eq_refl Ec); auto.
  - rewrite Hres. simpl. destruct (Hok eq_refl). done.
Qed.

Lemma update_outcome_reliable k e b res (P : Prop) :
  KvReliable S → reply_of k e b res → e = None ∨ is_err e ErrCASFailed = true ∧ ¬ P →
  ∃ resp, res = (Some resp, None) ∧ (P → urs_Succeeded resp = true).
Proof.
  intros Hr Hres. unfold reply_of in Hres. intros [->|[Hc Hn]].
  - rewrite Hres. eauto.
  - rewrite Hc in Hres. destruct res as [[resp|] [e'|]]; try done. by exists resp.
Qed.

Lemma wp_Update r b :
  backend_inv b → room b → valid_key (kv_Key (ur_Kv r)) →
  is_tombstone (kv_Value (ur_Kv r)) = false → 0 <= kv_Revision (ur_Kv r) →
  wp (Update r) (λ res b', Update_post b r res b' ∧ (KvReliable S → Update_reliable b r res)) b.
Proof.
  intros Hb Hroom Hk Ht Hprev. pose proof (room_max _ Hroom) as Hmax. unfold Update, Update_post.
  set (k := kv_Key (ur_Kv r)) in *. set (v := kv_Value (ur_Kv r)) in *.
  set (prev := kv_Revision (ur_Kv r)) in *. destruct (Z.eqb_spec prev 0) as [E0|E0].
  - rewrite E0. simpl. apply wp_bind. eapply wp_mono; [by apply wp_create_backend|].
    intros [rev e] b1 (s' & -> & Hkv & Erev & He & Hrel). simpl in Erev, He, Hrel. subst rev.
    assert (KvReliable S → e = None ∨ is_err e ErrCASFailed = true ∧ ¬ dead (view b) k) as Hrel'.
    { intros Hr. destruct (Hrel Hr) as [H1 H2].
      destruct (dead_dec (view b) k) as [Hd|Hd]; [apply Hb|done|..]; auto. }
    apply wp_update_finish; try done; [by eapply create_post_written| |].
    { destruct e as [e|]; [|done]. intros Hc. by apply (create_post_cas _ _ _ _ _ _ He). }
    intros res b' Hb' Hv' Hsub Hres. split.
    + split; [done|]. eexists. split; [done|]. do 3 (split; [done|]). simpl.
      apply (update_outcome k v 0 CREATE e b s' b' res (dead (view b) k)); try done.
      * intros e' -> Hc. by apply (create_post_cas _ _ _ _ _ _ He).
      * intros e' -> Hc. destruct He as [?|(? & _)]; auto.
      * intros ->. destruct He as [? ?]. done.
    + intros Hr. unfold Update_reliable. fold k prev. rewrite E0. right.
      apply (update_outcome_reliable k e b res); try done. apply Hrel', Hr.
  - destruct (Z.ltb_spec 0 prev) as [Hpos|]; [|lia]. simpl. apply wp_bind.
    eapply wp_mono; [by apply wp_update_backend|]. intros [rev e] b1 Hu.
    destruct (Z.ltb_spec (next b) prev) as [Edrift|Edrift].
    { destruct Hu as [-> [= -> ->]]. unfold notify. simpl. wp_steps.
      split; [|intros _; by left]. split; [|done].
      apply (inv_written b _ k); try done; [apply Hb|]. by apply written_none. }
    destruct Hu as (s' & -> & Hkv & Erev & He & Hrel). simpl in Erev, He, Hrel. subst rev.
    assert (KvReliable S → e = None ∨ is_err e ErrCASFailed = true ∧
      view b !! EncodeRevisionKey k ≠ Some (live_record prev)) as Hrel'.
    { intros Hr. destruct (Hrel Hr) as [H1 H2].
      destruct (decide (view b !! EncodeRevisionKey k = Some (live_record prev))); auto. }
    apply wp_update_finish; try done; [by eapply cas_post_written; eauto| |].
    { destruct e as [e|]; [|done]. intros Hc. by apply (cas_post_cas _ _ _ _ _ _ _ _ He). }
    intros res b' Hb' Hv' Hsub Hres. split.
    + split; [done|]. eexists. split; [done|]. do 3 (split; [done|]). simpl.
      apply (update_outcome k v prev PUT e b s' b' res
        (view b !! EncodeRevisionKey k = Some (live_record prev))); try done.
      * intros e' -> Hc. by apply (cas_post_cas _ _ _ _ _ _ _ _ He).
      * intros e' -> Hc. destruct He as [?|(? & _)]; auto.
      * intros ->. destruct He as [? ?]. done.
    + intros Hr. unfold Update_reliable. fold k prev.
      destruct (Z.eqb_spec prev 0); [done|]. right.
      apply (update_outcome_reliable k e b res); try done. apply Hrel', Hr.
Qed.

Definition Delete_post (b : backend S) (r : DeleteRequest) (res : option DeleteResponse * option err)
    (b' : backend S) : Prop :=
  let key := dr_Key r in
  let vis := visible (view b) key max_uint64 in
  backend_inv b' ∧
  ((0 < dr_Revision r ∧ next b < dr_Revision r ∧ is_Some vis ∧
    res = (None, Some ErrRevisionDriftBack) ∧ view b' = view b ∧
    tso b' = tso (dealt b) ∧ watchEventsRingBuffer b' = watchEventsRingBuffer b) ∨
   ∃ ev, submitted b b' ev ∧ we_Key ev = key ∧ we_ResourceVerb ev = DELETE ∧
     match res with
     | (Some resp, None) =>
         we_Valid ev = drs_Succeeded resp ∧ drs_Revision resp = next b ∧
         (drs_Kv resp = (λ x, mkKV key x.2 x.1) <$> vis ∨
          drs_Succeeded resp = false ∧ we_Err ev = Some ErrKeyNotFound ∧ drs_Kv resp = None) ∧
         if drs_Succeeded resp then
           ∃ mr v, vis = Some (mr, v) ∧ (dr_Revision r = 0 ∨ dr_Revision r = mr) ∧
             we_Value ev = v ∧ we_PrevRevision ev = mr ∧
             view b' = put_version (view b) key (dead_record (next b)) (next b) (Some tombStoneBytes)
         else view b' = view b
     | (None, Some e) =>
         we_Valid ev = false ∧ (view b' = view b ∨ err_is e ErrUncertainResult = true ∧ we_Err ev = Some e)
     | _ => False
     end).

Definition Delete_reliable (b : backend S) (r : DeleteRequest)
    (res : option DeleteResponse * option err) : Prop :=
  let vis := visible (view b) (dr_Key r) max_uint64 in
  (0 < dr_Revision r ∧ next b < dr_Revision r ∧ is_Some vis ∧
   res = (None, Some ErrRevisionDriftBack)) ∨
  ∃ resp, res = (Some resp, None) ∧ drs_Kv resp = (λ x, mkKV (dr_Key r) x.2 x.1) <$> vis ∧
    (vis = None ∨ (0 <? dr_Revision r) && (next b <? dr_Revision r) = false) ∧
    (∀ mr v, vis = Some (mr, v) → dr_Revision r = 0 ∨ dr_Revision r = mr → drs_Succeeded resp = true).

Lemma visible_below b k mr v :
  backend_inv b → valid_key k → visible (view b) k max_uint64 = Some (mr, v) →
  0 < mr <= dealRevision (tso b).
Proof.
  intros Hb Hk Hv. apply visible_Some in Hv as [(Ho & Hr & _) _]; [|apply Hb|done|apply max_is_uint64].
  split; [lia|]. by eapply (proj1 (bi_below _ Hb k Hk)).
Qed.

(** The response after a failed comparison shows the value read. *)
Lemma wp_delete_reply_cas k rev mr v e b :
  backend_inv b → valid_key k → err_eq (Some e) ErrKeyNotFound = false →
  err_is e ErrCASFailed = true → visible (view b) k max_uint64 = Some (mr, v) → mr < rev →
  wp (delete_reply k rev (mkKeyVal k v mr) (Some e)) (λ res b', reread b b' ∧
    res = (Some (mkDeleteResponse rev false (Some (mkKV k v mr))), None)) b.
Proof.
  intros Hb Hk Hne Hcas Hvis Hlt. unfold delete_reply. rewrite Hne. simpl is_err. rewrite Hcas.
  apply wp_bind. pose proof zero_is_uint64.
  eapply wp_mono; [apply wp_get; [apply Hb | apply Hb | done | done]|].
  intros [[val q] ge] b1 (s1 & -> & Hkv1 & Hv1 & Hg & _). simpl in Hg.
  change (read_rev 0) with max_uint64 in Hg. unfold get_result in Hg.
  assert (reread b (put_store s1 b)) as Hre by by exists s1.
  destruct ge as [ge|]; apply wp_ret; (split; [done|]); [done|].
  rewrite Hvis in Hg. simplify_eq. unfold maxUint64. destruct (Z.ltb_spec q rev); [done | lia].
Qed.

(** The state a delete of a visible key leaves. *)
Lemma delete_submitted r b s' mr v e b2 :
  backend_inv b → valid_key (dr_Key r) → dealRevision (tso b) < max_uint64 → kv_inv s' →
  0 < mr <= dealRevision (tso b) →
  (if (0 <? dr_Revision r) && negb (dr_Revision r =? mr)
   then e = Some ErrCASFailed ∧ kv_view s' = view b
   else cas_post (view b) (dr_Key r) (live_record mr) (dead_record (next b)) (next b)
          (Some tombStoneBytes) e (kv_view s') ∧ (KvReliable S → e = None)) →
  b2 = set_buffer (<[next b mod watchersChanCapacity :=
         mkWatchEvent (next b) mr DELETE (is_ok e) (dr_Key r) v e]> (watchEventsRingBuffer b))
         (put_store s' (dealt b)) →
  backend_inv b2 ∧ (is_err e ErrCASFailed = true → view b2 = view b) ∧
  (∀ e', e = Some e' → view b2 = view b ∨ err_is e' ErrUncertainResult = true).
Proof.
  intros Hb Hk Hmax Hkv Hmr Hd Eb2. assert (view b2 = kv_view s') as Ev by by rewrite Eb2.
  destruct ((0 <? dr_Revision r) && negb (dr_Revision r =? mr));
    [destruct Hd as [-> Hm] | destruct Hd as [Hd _]].
  - split; [|naive_solver congruence]. apply (inv_written b b2 (dr_Key r)); try done; try (by rewrite Eb2).
    rewrite Ev. by apply written_none.
  - split; [|split].
    + apply (inv_written b b2 (dr_Key r)); try done; try (by rewrite Eb2).
      rewrite Ev. eapply cas_post_written; [|done]. by right.
    + rewrite Ev. destruct e as [e|]; [|done]. intros Hc. by apply (cas_post_cas _ _ _ _ _ _ _ _ Hd).
    + rewrite Ev. intros e' ->. destruct Hd as [?|(? & _)]; auto.
Qed.

(** A delete of a visible key, once its batch is done and submitted. *)
Lemma wp_Delete_visible r b s' mr v e b2 :
  backend_inv b → valid_key (dr_Key r) → 0 <= dr_Revision r → dealRevision (tso b) < max_uint64 →
  (0 <? dr_Revision r) && (next b <? dr_Revision r) = false →
  kv_inv s' → visible (view b) (dr_Key r) max_uint64 = Some (mr, v) → 0 < mr <= dealRevision (tso b) →
  (if (0 <? dr_Revision r) && negb (dr_Revision r =? mr)
   then e = Some ErrCASFailed ∧ kv_view s' = view b
   else cas_post (view b) (dr_Key r) (live_record mr) (dead_record (next b)) (next b)
          (Some tombStoneBytes) e (kv_view s') ∧ (KvReliable S → e = None)) →
  b2 = set_buffer (<[next b mod watchersChanCapacity :=
         mkWatchEvent (next b) mr DELETE (is_ok e) (dr_Key r) v e]> (watchEventsRingBuffer b))
         (put_store s' (dealt b)) →
  wp (delete_reply (dr_Key r) (next b) (mkKeyVal (dr_Key r) v mr) e)
    (λ res b', Delete_post b r res b' ∧ (KvReliable S → Delete_reliable b r res)) b2.
Proof.
  intros Hb Hk Hold0 Hmax Hnd Hkv Hvis Hmr Hd Eb2.
  destruct (delete_submitted r b s' mr v e b2) as (Hb2 & Hcas & Hwhy); [done..|].
  assert (∃ ev, submitted b b2 ev ∧ we_Key ev = dr_Key r ∧ we_ResourceVerb ev = DELETE ∧
    we_Valid ev = is_ok e ∧ we_Err ev = e ∧ we_Value ev = v ∧ we_PrevRevision ev = mr)
    as (ev & Hsub & Hevk & Hevv & Hval & Herr & Hevval & Hevp)
    by (rewrite Eb2; by eexists).
  destruct e as [e|].
  - destruct (err_is e ErrCASFailed) eqn:Ecas.
    + specialize (Hcas Ecas). rewrite <-Hcas in Hvis.
      eapply wp_mono; [apply wp_delete_reply_cas; try done; [|lia]|].
      { unfold err_eq. apply bool_decide_false. by intros [= ->]. }
      intros res b' [Hre ->]. pose proof (reread_inv _ _ Hre Hb2) as Hb'.
      destruct Hre as (s2 & -> & Hkv2 & Hv2). rewrite Hcas in Hvis. split.
      * split; [done|]. right. exists ev. repeat (split; [done|]). split; [left; by rewrite Hvis|].
        simpl. by rewrite <-Hcas.
      * intros Hr. right. eexists. split; [done|]. rewrite Hvis. split; [done|].
        split; [by right|]. intros ? ? [= <- <-] Hold. destruct (_ && _) eqn:Ecmp in Hd.
        -- apply andb_true_iff in Ecmp as [?%Z.ltb_lt ?%negb_true_iff%Z.eqb_neq]. lia.
        -- destruct Hd as [_ Hd]. by apply Hd in Hr.
    + assert (¬ KvReliable S) as Hnr.
      { intros Hr. destruct (_ && _) in Hd; [by destruct Hd as [[= ->] _]|].
        destruct Hd as [_ Hd]. by apply Hd in Hr. }
      unfold delete_reply, err_eq. case_bool_decide as Ee.
      * injection Ee as ->. apply wp_ret. split; [|done]. split; [done|]. right. exists ev.
        repeat (split; [done|]). split; [by right|]. by destruct (Hwhy _ eq_refl).
      * simpl is_err. rewrite Ecas. apply wp_ret. split; [|done]. split; [done|]. right. exists ev.
        repeat (split; [done|]). destruct (Hwhy _ eq_refl); auto.
  - assert (dr_Revision r = 0 ∨ dr_Revision r = mr) as Hcmp.
    { destruct (_ && _) eqn:Ecmp in Hd; [by destruct Hd|].
      apply andb_false_iff in Ecmp as [?%Z.ltb_ge|?%negb_false_iff%Z.eqb_eq]; [left; lia | by right]. }
    unfold delete_reply. simpl. apply wp_ret. split.
    + split; [done|]. right. exists ev.
      repeat (split; [done|]). split; [left; by rewrite Hvis|]. exists mr, v. repeat (split; [done|]).
      destruct (_ && _) eqn:Ecmp in Hd; [by destruct Hd|]. destruct Hd as [[_ Hm] _]. by rewrite Eb2.
    + intros _. right. eexists. split; [done|]. rewrite Hvis. split; [done|]. split; [by right | done].
Qed.

Lemma wp_Delete r b :
  backend_inv b → room b → valid_key (dr_Key r) → 0 <= dr_Revision r →
  wp (Delete r) (λ res b', Delete_post b r res b' ∧ (KvReliable S → Delete_reliable b r res)) b.
Proof.
  intros Hb Hroom Hk Hold. pose proof (room_max _ Hroom) as Hmax. pose proof (bi_tso _ Hb) as Htso.
  unfold room in Hroom. unfold Delete. apply wp_bind.
  eapply wp_mono; [by apply wp_delete_backend|].
  intros [[rev old] e] b1 (s' & -> & Hkv & Hd). simpl.
  assert (∀ b', kv_inv (b_store b') → dealRevision (tso b') = next b →
    committedRevision (tso b') = committedRevision (tso b) → view b' = view b → backend_inv b') as Hsame.
  { intros. apply (inv_written b b' (dr_Key r)); try done. by apply written_none. }
  destruct Hd as [(Hvis & -> & -> & -> & Hm)
    |[(ge & Hnr & Hne & Hgc & -> & -> & -> & Hm)|(mr & v & Hvis & Hd)]].
  - apply wp_bind, wp_notify; [lia | simpl; lia|]. apply wp_ret. split.
    + split; [by apply Hsame|]. right. eexists. repeat (split; [done|]).
      split; [rewrite Hvis; by left | done].
    + intros _. right. eexists. split; [done|]. rewrite Hvis. split; [done|]. split; [by left | done].
  - apply wp_bind, wp_notify; [lia | simpl; lia|]. unfold delete_reply, err_eq.
    rewrite bool_decide_false by congruence. simpl is_err. rewrite Hgc. apply wp_ret.
    split; [|done]. split; [by apply Hsame|]. right. eexists. repeat (split; [done|]). by left.
  - destruct ((0 <? dr_Revision r) && (next b <? dr_Revision r)) eqn:Edrift.
    { destruct Hd as (-> & -> & -> & Hm). unfold notify. simpl. wp_steps.
      apply andb_true_iff in Edrift as [?%Z.ltb_lt ?%Z.ltb_lt].
      split; [split; [by apply Hsame|]; left | intros _; left]; rewrite Hvis; eauto 10. }
    destruct Hd as (-> & -> & Hd). pose proof (visible_below _ _ _ _ Hb Hk Hvis) as Hmr.
    apply wp_bind, wp_notify; [lia | simpl; lia|]. by eapply wp_Delete_visible.
Qed.
End spec.
