(* ===== verification/Refinement.v ===== *)
(** The contract of the backend's writes and point reads: an abstract
    multi-version map, and the proof that on an engine without failures every
    sequence of requests gets exactly the responses of that map. *)

From S2P Require Import Prelude GoMonad Storage Coder Proto Tso Ring Queue Mvcc Creator Scanner.
From S2P Require Import ScanSpec Backend BackendSpec.

(** * The abstract map *)

(** The versions of a key, newest first; [None] marks a deletion. *)
Definition history : Type := list (Z * option slice).

Record model := mkModel {
  m_committed : Z;
  m_rev : Z;
  m_hist : bytes → history;
}.

(** What a read at [R] sees of a history. *)
Fixpoint h_read (h : history) (R : Z) : option (Z * slice) :=
  match h with
  | [] => None
  | (r, v) :: h' =>
      if r <=? R then match v with Some v => Some (r, v) | None => None end else h_read h' R
  end.

Definition m_latest (m : model) (k : bytes) : option (Z * slice) := h_read (m_hist m k) max_uint64.

Definition m_tick (m : model) : model := mkModel (m_committed m) (m_rev m + 1) (m_hist m).

Definition m_write (k : bytes) (v : option slice) (m : model) : model :=
  mkModel (m_committed m) (m_rev m + 1)
    (λ k', if decide (k' = k) then (m_rev m + 1, v) :: m_hist m k else m_hist m k').

Definition kv_of (k : bytes) (x : Z * slice) : KeyValue := mkKV k x.2 x.1.

Definition m_create (r : CreateRequest) (m : model) : (option CreateResponse * option err) * model :=
  match m_latest m (cr_Key r) with
  | None =>
      ((Some (mkCreateResponse (m_rev m + 1) true), None), m_write (cr_Key r) (Some (cr_Value r)) m)
  | Some _ => ((Some (mkCreateResponse (m_rev m + 1) false), None), m_tick m)
  end.

Definition m_update (r : UpdateRequest) (m : model) : (option UpdateResponse * option err) * model :=
  let k := kv_Key (ur_Kv r) in
  let prev := kv_Revision (ur_Kv r) in
  let cur := m_latest m k in
  if (0 <? prev) && (m_rev m + 1 <? prev) then ((None, Some ErrRevisionDriftBack), m_tick m)
  else if bool_decide (default 0 (fst <$> cur) = prev)
  then ((Some (mkUpdateResponse (m_rev m + 1) true None), None), m_write k (Some (kv_Value (ur_Kv r))) m)
  else ((Some (mkUpdateResponse (m_rev m + 1) false (kv_of k <$> cur)), None), m_tick m).

Definition m_delete (r : DeleteRequest) (m : model) : (option DeleteResponse * option err) * model :=
  let k := dr_Key r in
  match m_latest m k with
  | None => ((Some (mkDeleteResponse (m_rev m + 1) false None), None), m_tick m)
  | Some (mr, v) =>
      if (0 <? dr_Revision r) && (m_rev m + 1 <? dr_Revision r)
      then ((None, Some ErrRevisionDriftBack), m_tick m)
      else if (dr_Revision r =? 0) || (dr_Revision r =? mr)
      then ((Some (mkDeleteResponse (m_rev m + 1) true (Some (mkKV k v mr))), None), m_write k None m)
      else ((Some (mkDeleteResponse (m_rev m + 1) false (Some (mkKV k v mr))), None), m_tick m)
  end.

(** A read; a nil value is not shown. *)
Definition m_get (r : GetRequest) (m : model) : option GetResponse * option err :=
  match h_read (m_hist m (gr_Key r)) (read_rev (gr_Revision r)) with
  | None => (Some (mkGetResponse (m_committed m) None), None)
  | Some (mr, v) =>
      (Some (mkGetResponse (Z.max (m_committed m) mr)
               (match v with Some _ => Some (mkKV (gr_Key r) v mr) | None => None end)), None)
  end.

(** * Requests *)

Inductive request :=
  | RCreate (r : CreateRequest)
  | RUpdate (r : UpdateRequest)
  | RDelete (r : DeleteRequest)
  | RGet (r : GetRequest).

Inductive response :=
  | SCreate (r : option CreateResponse * option err)
  | SUpdate (r : option UpdateResponse * option err)
  | SDelete (r : option DeleteResponse * option err)
  | SGet (r : option GetResponse * option err).

(** Keys are valid, written values are not the tombstone, revisions are 64 bits. *)
Definition request_ok (q : request) : Prop :=
  match q with
  | RCreate r => valid_key (cr_Key r) ∧ is_tombstone (cr_Value r) = false
  | RUpdate r => valid_key (kv_Key (ur_Kv r)) ∧ is_tombstone (kv_Value (ur_Kv r)) = false ∧
                 is_uint64 (kv_Revision (ur_Kv r))
  | RDelete r => valid_key (dr_Key r) ∧ is_uint64 (dr_Revision r)
  | RGet r => valid_key (gr_Key r) ∧ is_uint64 (gr_Revision r)
  end.

Definition m_step (q : request) (m : model) : response * model :=
  match q with
  | RCreate r => let '(x, m') := m_create r m in (SCreate x, m')
  | RUpdate r => let '(x, m') := m_update r m in (SUpdate x, m')
  | RDelete r => let '(x, m') := m_delete r m in (SDelete x, m')
  | RGet r => (SGet (m_get r m), m)
  end.

Fixpoint m_run (qs : list request) (m : model) : list response * model :=
  match qs with
  | [] => ([], m)
  | q :: qs' => let '(x, m1) := m_step q m in let '(xs, m2) := m_run qs' m1 in (x :: xs, m2)
  end.

Section refinement.
Context {S : Type} `{KvReliable S} `{Backoff}.

Definition b_step (q : request) : GoM (backend S) response :=
  match q with
  | RCreate r => x ← Backend.Create r; mret (SCreate x)
  | RUpdate r => x ← Update r; mret (SUpdate x)
  | RDelete r => x ← Delete r; mret (SDelete x)
  | RGet r => x ← Get r; mret (SGet x)
  end.

Fixpoint b_run (qs : list request) : GoM (backend S) (list response) :=
  match qs with
  | [] => mret []
  | q :: qs' => x ← b_step q; xs ← b_run qs'; mret (x :: xs)
  end.

(** The abstract map [m] is what the backend holds. *)
Record refines (b : backend S) (m : model) : Prop := {
  rf_committed : m_committed m = committedRevision (tso b);
  rf_rev : m_rev m = dealRevision (tso b);
  rf_read k R : valid_key k → is_uint64 R → h_read (m_hist m k) R = visible (view b) k R;
}.

Lemma refines_latest b m k :
  refines b m → valid_key k → m_latest m k = visible (view b) k max_uint64.
Proof. intros Hr Hk. apply Hr; [done | apply max_is_uint64]. Qed.

Lemma refines_tick b b' m :
  refines b m → view b' = view b → tso b' = mkTSO (committedRevision (tso b)) (dealRevision (tso b) + 1) →
  refines b' (m_tick m).
Proof.
  intros [Hc0 Hr0 Hread] Hv Ht. split; simpl; rewrite ?Ht; simpl; [done | by rewrite Hr0|].
  intros k R Hk HR. rewrite Hv. by apply Hread.
Qed.

(** Reads after a write at a new revision. *)
Lemma visible_put m k rec r v k' R :
  0 < r <= max_uint64 → store_ok m → valid_key k → valid_key k' → is_uint64 R →
  revs_below m k (r - 1) →
  visible (put_version m k rec r v) k' R =
  if decide (k' = k ∧ r <= R) then (if is_tombstone v then None else Some (r, v))
  else visible m k' R.
Proof.
  intros Hr Hm Hk Hk' HR Hb. unfold visible. case_decide as E.
  - destruct E as [-> HrR]. rewrite put_version_latest; try done.
    unfold is_uint64, max_uint64, two64 in *. lia.
  - rewrite put_version_latest_other; try done.
    destruct (decide (k' = k)) as [->|]; [right | by left]. apply not_and_l in E as [?|?]; [done | lia].
Qed.

Lemma refines_write b b' m k rec v hv :
  backend_inv b → refines b m → valid_key k → dealRevision (tso b) < max_uint64 →
  view b' = put_version (view b) k rec (dealRevision (tso b) + 1) v →
  (if is_tombstone v then None else Some v) = hv →
  tso b' = mkTSO (committedRevision (tso b)) (dealRevision (tso b) + 1) →
  refines b' (m_write k hv m).
Proof.
  intros Hb [Hc0 Hr0 Hread] Hk Hmax Hv Hhv Ht. pose proof (bi_tso _ Hb) as Htso.
  split; simpl; rewrite ?Ht; simpl; [done | by rewrite Hr0|].
  intros k' R Hk' HR. rewrite Hv, visible_put; try done; [| lia | apply Hb |].
  - rewrite Hr0. destruct (decide (k' = k)) as [->|Hne].
    + simpl. destruct (Z.leb_spec (dealRevision (tso b) + 1) R).
      * rewrite decide_True by done. rewrite <-Hhv. by destruct (is_tombstone v).
      * rewrite decide_False by (intros [_ ?]; lia). by apply Hread.
    + rewrite decide_False by (intros [? _]; done). by apply Hread.
  - replace (dealRevision (tso b) + 1 - 1) with (dealRevision (tso b)) by lia.
    apply (bi_below _ Hb k Hk).
Qed.

(** The comparison of an update, on the record and on the history. *)
Lemma update_condition b k prev :
  backend_inv b → valid_key k → is_uint64 prev →
  default 0 (fst <$> visible (view b) k max_uint64) = prev ↔
  if prev =? 0 then dead (view b) k else view b !! EncodeRevisionKey k = Some (live_record prev).
Proof.
  intros Hb Hk Hu. pose proof (bi_ok _ Hb) as Hok. pose proof (bi_wf _ Hb k Hk) as Hwf.
  destruct (visible (view b) k max_uint64) as [[mr v]|] eqn:Evis; simpl.
  - pose proof (visible_below _ _ _ _ Hb Hk Evis) as Hmr.
    rewrite (visible_record _ _ _ _ Hok Hk Hwf Evis).
    destruct (Z.eqb_spec prev 0) as [->|].
    + rewrite dead_visible by done. rewrite Evis. split; [lia | done].
    + split; [by intros ->|]. intros E%(inj Some). apply live_record_inj; try done.
      apply visible_Some in Evis as [(_ & ? & _) _]; try done.
      unfold is_uint64, max_uint64, two64 in *. lia.
  - destruct (Z.eqb_spec prev 0) as [->|].
    + by rewrite dead_visible by done.
    + split; [lia|]. intros E. exfalso. apply dead_visible in Evis; try done.
      destruct Hwf as [E'|q w E' Hl Hw|q E']; rewrite E' in E; try done.
      specialize (Evis _ _ Hl). congruence.
Qed.

Lemma refines_Create r b m :
  backend_inv b → room b → refines b m → request_ok (RCreate r) →
  wp (Backend.Create r) (λ x b', backend_inv b' ∧ x = (m_create r m).1 ∧ refines b' (m_create r m).2) b.
Proof.
  intros Hb Hroom Hr [Hk Ht]. eapply wp_mono; [by apply wp_Create|].
  intros x b' [(Hb' & ev & (Htso & _) & _ & _ & _ & Hx) Hrel]. split; [done|].
  destruct (Hrel _) as (resp & -> & Hd). destruct Hx as (Erev & _ & Hc). destruct resp as [rev ok].
  simpl in *. subst rev. unfold m_create. rewrite (refines_latest b), (rf_rev b) by done.
  rewrite dead_visible in Hd by (try apply Hb; done). unfold created in Hc. destruct ok.
  - destruct Hc as [Hdead Hv]. rewrite dead_visible in Hdead by (try apply Hb; done).
    rewrite Hdead. split; [done|]. simpl.
    eapply (refines_write b b' m); try done; [by apply room_max|]. by rewrite Ht.
  - destruct (visible _ _ _) as [[mr v]|]; [|by specialize (Hd eq_refl)].
    split; [done|]. simpl. by apply (refines_tick b).
Qed.

Lemma refines_Update r b m :
  backend_inv b → room b → refines b m → request_ok (RUpdate r) →
  wp (Update r) (λ x b', backend_inv b' ∧ x = (m_update r m).1 ∧ refines b' (m_update r m).2) b.
Proof.
  intros Hb Hroom Hr (Hk & Ht & Hu). pose proof (bi_tso _ Hb) as Htso0.
  assert (0 <= kv_Revision (ur_Kv r)) as Hprev by apply Hu.
  eapply wp_mono; [by apply wp_Update|]. intros x b' [[Hb' Hx] Hrel]. split; [done|].
  specialize (Hrel _). unfold Update_reliable in Hrel. unfold m_update.
  set (k := kv_Key (ur_Kv r)) in *. set (prev := kv_Revision (ur_Kv r)) in *.
  rewrite (refines_latest b), (rf_rev b) by done.
  destruct ((0 <? prev) && (dealRevision (tso b) + 1 <? prev)) eqn:Edrift.
  { destruct Hx as (-> & Hv & Ht' & _). split; [done|]. by apply (refines_tick b). }
  destruct Hx as (ev & (Htso & _) & _ & _ & _ & Hx).
  destruct Hrel as [[? ?]|(resp & -> & Hok)].
  { destruct (Z.ltb_spec 0 prev), (Z.ltb_spec (dealRevision (tso b) + 1) prev); try done; lia. }
  destruct Hx as [_ Hx]. destruct resp as [rev ok kv]. simpl in *.
  assert (default 0 (fst <$> visible (view b) k max_uint64) = prev ↔
    if prev =? 0 then dead (view b) k else view b !! EncodeRevisionKey k = Some (live_record prev)) as Hiff.
  { by apply update_condition. }
  destruct ok.
  - destruct Hx as (-> & -> & Hv & Hc). rewrite bool_decide_true by by apply Hiff.
    split; [done|]. simpl. eapply (refines_write b b' m); try done; [by apply room_max|]. by rewrite Ht.
  - destruct Hx as (Hv & -> & ->). rewrite bool_decide_false by (rewrite Hiff; intros Hc; by apply Hok in Hc).
    split; [|by apply (refines_tick b)]. simpl. do 3 f_equal.
    destruct (visible (view b) k max_uint64) as [[mr v]|] eqn:Evis; simpl; unfold maxUint64.
    + apply visible_below in Evis; try done. destruct (Z.ltb_spec mr (dealRevision (tso b) + 1)); [done | lia].
    + destruct (Z.ltb_spec 0 (dealRevision (tso b) + 1)); [done | lia].
Qed.

Lemma refines_Delete r b m :
  backend_inv b → room b → refines b m → request_ok (RDelete r) →
  wp (Delete r) (λ x b', backend_inv b' ∧ x = (m_delete r m).1 ∧ refines b' (m_delete r m).2) b.
Proof.
  intros Hb Hroom Hr (Hk & Hu). pose proof (bi_tso _ Hb) as Htso0.
  assert (0 <= dr_Revision r) as Hprev by apply Hu.
  eapply wp_mono; [by apply wp_Delete|]. intros x b' [[Hb' Hx] Hrel]. split; [done|].
  specialize (Hrel _). unfold Delete_reliable in Hrel. unfold m_delete.
  rewrite (refines_latest b), (rf_rev b) by done.
  destruct Hx as [(Hpos & Hlt & [[mr v] Hvis] & -> & Hv & Htso & _)|(ev & (Htso & _) & _ & _ & Hx)].
  { rewrite Hvis. destruct (Z.ltb_spec 0 (dr_Revision r)); [|lia].
    destruct (Z.ltb_spec (dealRevision (tso b) + 1) (dr_Revision r)); [|lia].
    split; [done|]. by apply (refines_tick b). }
  destruct Hrel as [Hdrift|(resp & -> & Hkv & Hnd & Hok)].
  { destruct Hdrift as (Hpos & Hlt & [[mr v] Hvis] & ->). rewrite Hvis.
    destruct (Z.ltb_spec 0 (dr_Revision r)); [|lia].
    destruct (Z.ltb_spec (dealRevision (tso b) + 1) (dr_Revision r)); [|lia].
    split; [done|]. apply (refines_tick b); try done. by destruct Hx as [_ [?|[? _]]]. }
  destruct Hx as (_ & Erev & _ & Hx). destruct resp as [rev ok kv]. simpl in *. subst rev kv.
  destruct (visible (view b) (dr_Key r) max_uint64) as [[mr v]|] eqn:Hvis; simpl.
  - destruct ok.
    + destruct Hx as (mr' & v' & [= <- <-] & Hcmp & _ & _ & Hv).
      pose proof (visible_below _ _ _ _ Hb Hk Hvis) as Hmr.
      assert ((0 <? dr_Revision r) && (dealRevision (tso b) + 1 <? dr_Revision r) = false) as ->.
      { destruct (Z.ltb_spec 0 (dr_Revision r)), (Z.ltb_spec (dealRevision (tso b) + 1) (dr_Revision r));
          try done. lia. }
      assert ((dr_Revision r =? 0) || (dr_Revision r =? mr) = true) as ->.
      { destruct Hcmp as [->| ->]; [done | by rewrite Z.eqb_refl, orb_true_r]. }
      split; [done|]. eapply (refines_write b b' m); try done. by apply room_max.
    + assert ((dr_Revision r =? 0) || (dr_Revision r =? mr) = false) as ->.
      { apply not_true_is_false. rewrite orb_true_iff, !Z.eqb_eq. intros Hc.
        by specialize (Hok mr v eq_refl Hc). }
      destruct Hnd as [?| ->]; [done|]. split; [done|]. by apply (refines_tick b).
  - destruct ok; [by destruct Hx as (? & ? & ? & _)|]. split; [done|]. by apply (refines_tick b).
Qed.

Lemma refines_Get r b m :
  backend_inv b → refines b m → request_ok (RGet r) →
  wp (Get r) (λ x b', backend_inv b' ∧ tso b' = tso b ∧ x = m_get r m ∧ refines b' m) b.
Proof.
  intros Hb Hr [Hk Hu]. unfold Get, on_tso, GetRevision. wp_steps.
  rewrite set_tso_id.
  eapply wp_mono; [apply wp_get; [apply Hb | apply Hb | done | done]|].
  intros [[val mr] e] b1 (s1 & -> & Hkv1 & Hv1 & Hg & Hgr). simpl in Hg, Hgr. specialize (Hgr _).
  assert (backend_inv (put_store s1 b)) as Hb1 by (apply (reread_inv b); [by exists s1 | done]).
  assert (refines (put_store s1 b) m) as Hr1.
  { destruct Hr as [? ? Hread]. split; [done..|]. intros k R ? ?.
    change (view (put_store s1 b)) with (kv_view s1). rewrite Hv1. by apply Hread. }
  unfold m_get, get_result in *. destruct (read_rev_ok _ Hu) as [Hu' _].
  rewrite (rf_read b), (rf_committed b) by done.
  destruct Hgr as [->| ->].
  - rewrite Hg. apply wp_ret. repeat (split; [done|]). split; [|done].
    destruct (Z.ltb_spec (committedRevision (tso b)) mr);
      [rewrite Z.max_r by lia | rewrite Z.max_l by lia]; done.
  - destruct Hg as (-> & _ & Hg). rewrite Hg by done. simpl. by apply wp_ret.
Qed.

(** Room for [n] more writes before the collector has to run. *)
Definition room_for (n : nat) (b : backend S) : Prop :=
  dealRevision (tso b) + Z.of_nat n < two63 ∧
  dealRevision (tso b) + Z.of_nat n - committedRevision (tso b) < watchersChanCapacity.

Lemma m_create_counters r m :
  m_committed (m_create r m).2 = m_committed m ∧ m_rev (m_create r m).2 = m_rev m + 1.
Proof. unfold m_create. by destruct (m_latest m _). Qed.

Lemma m_update_counters r m :
  m_committed (m_update r m).2 = m_committed m ∧ m_rev (m_update r m).2 = m_rev m + 1.
Proof. unfold m_update. destruct (_ && _); [done|]. by case_bool_decide. Qed.

Lemma m_delete_counters r m :
  m_committed (m_delete r m).2 = m_committed m ∧ m_rev (m_delete r m).2 = m_rev m + 1.
Proof.
  unfold m_delete. destruct (m_latest m _) as [[mr v]|]; [|done].
  destruct (_ && _); [done|]. by destruct (_ || _).
Qed.

Lemma refines_step q n b m :
  backend_inv b → room_for (Datatypes.S n) b → refines b m → request_ok q →
  wp (b_step q) (λ x b', backend_inv b' ∧ room_for n b' ∧ x = (m_step q m).1 ∧
                         refines b' (m_step q m).2) b.
Proof.
  intros Hb Hroom Hr Hq.
  assert (room b) as Hroom1 by (unfold room, room_for in *; lia).
  assert (∀ b' m', refines b' m' → m_committed m' = m_committed m ∧ m_rev m' = m_rev m + 1 →
    room_for n b') as Hnext.
  { intros b' m' [Hc' Hd' _] [Hc Hd]. destruct Hr as [Hc0 Hd0 _]. unfold room_for in *.
    rewrite <-Hc', <-Hd', Hc, Hd, Hc0, Hd0. lia. }
  destruct q as [r|r|r|r]; unfold b_step; apply wp_bind; unfold m_step.
  - eapply wp_mono; [by apply (refines_Create r b m)|]. intros x b' (Hb' & -> & Hr').
    apply wp_ret. pose proof (m_create_counters r m). destruct (m_create r m). eauto.
  - eapply wp_mono; [by apply (refines_Update r b m)|]. intros x b' (Hb' & -> & Hr').
    apply wp_ret. pose proof (m_update_counters r m). destruct (m_update r m). eauto.
  - eapply wp_mono; [by apply (refines_Delete r b m)|]. intros x b' (Hb' & -> & Hr').
    apply wp_ret. pose proof (m_delete_counters r m). destruct (m_delete r m). eauto.
  - eapply wp_mono; [by apply (refines_Get r b m)|]. intros x b' (Hb' & Ht & -> & Hr').
    apply wp_ret. split; [done|]. split; [|done]. unfold room_for in *. rewrite Ht. lia.
Qed.

Lemma refines_run qs b m :
  backend_inv b → room_for (length qs) b → refines b m → Forall request_ok qs →
  wp (b_run qs) (λ xs b', backend_inv b' ∧ xs = (m_run qs m).1 ∧ refines b' (m_run qs m).2) b.
Proof.
  intros Hb Hroom Hr Hqs. revert b m Hb Hroom Hr.
  induction Hqs as [|q qs Hq Hqs IH]; intros b m Hb Hroom Hr; [by apply wp_ret|].
  simpl. apply wp_bind. eapply wp_mono; [by apply (refines_step q (length qs) b m)|].
  intros x b1 (Hb1 & Hroom1 & -> & Hr1). apply wp_bind.
  eapply wp_mono; [by apply (IH b1 _ Hb1 Hroom1 Hr1)|].
  intros xs b2 (Hb2 & -> & Hr2). apply wp_ret.
  destruct (m_step q m) as [x m1]. simpl in *. by destruct (m_run qs m1).
Qed.
End refinement.
