(* ===== verification/WorkerProg.v ===== *)
(** A worker of a scan as a sequence of atomic steps.

    A worker (run of pkg/backend/scanner/scanner.go) calls the engine for its
    iterator and, in a compaction, for each deletion; the rest is done on
    variables of its own.  A step is one call of the engine; what a step may panic
    with is a step too.  Run without interruption the program is [run]; a worker
    that only reads calls the engine once, and its whole attempt is one step. *)

From S2P Require Import Prelude GoMonad Prog Storage Coder Proto Tso Ring Queue Mvcc Creator Scanner.
From S2P Require Import ScanSpec Backend BackendSpec.

Section worker_programs.
Context {S : Type} `{KvStorage S}.
Local Abbreviation P := (prog (backend S)).

(** One call of the engine. *)
Definition call {A} (m : GoM S A) : P A := atom (on_kv m).

(** * A worker *)

(** The variables of a worker without the engine. *)
Definition local (w : wstate S) : wstate () :=
  mkWstate () (lastCompactFailedRawKey w) (w_receiver w) (w_stream w) (w_ctx w).

Definition with_engine (s : S) (l : wstate ()) : wstate S :=
  mkWstate s (lastCompactFailedRawKey l) (w_receiver l) (w_stream l) (w_ctx l).

(** An attempt: a read-only [run] calls the engine once. *)
Definition attempt (c : workerConfig) (l : wstate ()) : GoM S (wstate () * (Z * option err)) := λ s,
  match run c (with_engine s l) with
  | Some (w, res) => Some (w_store w, (local w, res))
  | None => None
  end.

Definition poll (l : wstate ()) : wstate () * bool :=
  match w_ctx l with
  | [] => (l, false)
  | b :: ctx => (mkWstate () (lastCompactFailedRawKey l) (w_receiver l) (w_stream l) ctx, b)
  end.

(** * Programs over a worker's variables *)

Definition W (A : Type) : Type := wstate () → P (wstate () * A).

#[global] Instance W_ret : MRet W := λ A a l, mret (l, a).
#[global] Instance W_bind : MBind W := λ A B f m l, m l ≫= λ x, f x.2 x.1.

(** One call of the engine; a value that may be missing; the worker's variables. *)
Definition w_call {A} (m : GoM S A) : W A := λ l, call m ≫= λ x, mret (l, x).
Definition w_opt {A} (o : option A) : W A := w_call (lift_opt o).
Definition w_gets {A} (f : wstate () → A) : W A := λ l, mret (l, f l).
Definition w_modify (f : wstate () → wstate ()) : W () := λ l, mret (f l, ()).

Definition compact_with_p (del : GoM S (option err)) (rawKey : bytes) : W (option err) :=
  skipped ← w_gets (isSkippedRawKey rawKey);
  if (skipped : bool) then mret None
  else
    e ← w_call del;
    match e with
    | Some e' => w_modify (updateSkippedRawKey rawKey e') ;; mret e
    | None => mret e
    end.

Definition compactCurrent_p (it : kvitem) (rawKey : bytes) : W (option err) :=
  compact_with_p (kv_del_current it) rawKey.

Definition compactKey_p (key rawKey : bytes) : W (option err) := compact_with_p (kv_del key) rawKey.

Definition compactIfExpired_p (c : workerConfig) (it : kvitem) (rawKey : bytes) (revision : Z)
    (value : slice) : W (bool * option err) :=
  if kv_support_ttl || (timeoutRevision c =? 0) then mret (false, None)
  else if contains rawKey (str "/events/") then
    if revision =? 0 then
      rev ← w_opt (Uint64 (content value));
      if rev <=? timeoutRevision c then
        e ← compactCurrent_p it rawKey; mret (true, e)
      else mret (false, None)
    else if revision <=? timeoutRevision c then
      e ← compactKey_p (it_key it) rawKey; mret (true, e)
    else mret (false, None)
  else mret (false, None).

Definition receive_p (v : loopVars) : W () :=
  w_modify (λ l, w_set_receiver
    (rcv_append (mkKV (prevUserKey v) (prevValue v) (prevRevision v)) (w_receiver l)) l).

Definition run_prev_p (c : workerConfig) (curUserKey : bytes) (v : loopVars) : W loopVars :=
  if negb (bytes_eqb curUserKey (prevUserKey v)) then
    if prev_live c v then
      receive_p v ;;
      mret (mkLoopVars (prevUserKey v) (prevRevision v) (prevValue v) (lv_count v + 1) (lv_err v))
    else mret v
  else if w_compact c && (0 <? prevRevision v) then
    compactKey_p (EncodeObjectKey (prevUserKey v) (prevRevision v)) (prevUserKey v) ;; mret v
  else mret v.

Definition run_compact_p (c : workerConfig) (it : kvitem) (curUserKey : bytes) (curRevision : Z) : W bool :=
  let value := content (it_val it) in
  (if w_compact c && bytes_eqb value (w_tombstone c)
   then compactKey_p (it_key it) curUserKey ;; mret () else mret ()) ;;
  if w_compact c && (curRevision =? 0) &&
     bool_decide (length value = revisionValueLengthWithDeletionFlag) then
    objRev ← w_opt (Uint64 value);
    if w_revision c <? objRev then mret true
    else compactCurrent_p it curUserKey ;; mret false
  else mret false.

Definition run_item_p (c : workerConfig) (it : kvitem) (v : loopVars) : W loopVars :=
  '(curUserKey, curRevision, derr) ← w_opt (Decode (it_key it));
  let v := set_lv_err derr v in
  match derr with
  | Some _ => mret v
  | None =>
      '(expired, _) ← compactIfExpired_p c it curUserKey curRevision (it_val it);
      if (expired : bool) then mret v
      else if w_revision c <? curRevision then mret v
      else
        v ← run_prev_p c curUserKey v;
        skip ← run_compact_p c it curUserKey curRevision;
        if (skip : bool) then mret v
        else mret (mkLoopVars curUserKey curRevision (it_val it) (lv_count v) (lv_err v))
  end.

Fixpoint run_loop_p (c : workerConfig) (items : list kvitem) (end_ : err) (v : loopVars) : W (loopVars + err) :=
  more ← w_gets (λ l, needMore (w_receiver l));
  if negb more then mret (inl v)
  else
    done ← (λ l, mret (poll l) : P (wstate () * bool));
    if (done : bool) then mret (inr (Errorf "worker run context canceled"))
    else
      match items with
      | [] => mret (inl (set_lv_err (Some end_) v))
      | it :: items' => v' ← run_item_p c it v; run_loop_p c items' end_ v'
      end.

Definition run_finish_p (c : workerConfig) (v : loopVars) : W (Z * option err) :=
  if negb (err_eq (lv_err v) EOF) then mret (0, lv_err v)
  else
    more ← w_gets (λ l, needMore (w_receiver l));
    count ← (if prev_live c v && more
             then receive_p v ;; mret (lv_count v + 1) else mret (lv_count v));
    w_modify (λ l, w_set_receiver (rcv_flush (w_receiver l)) l) ;;
    mret (count, None).

Definition run_p (c : workerConfig) : W (Z * option err) :=
  r ← w_call (kv_iter (Start (partition c)) (End (partition c)) (w_tso c) 0);
  match r with
  | inl e => mret (0, Some e)
  | inr it =>
      w_modify (λ l, w_set_receiver (rcv_reset (w_receiver l), []) l) ;;
      l ← run_loop_p c (it_items it) (it_end it) (mkLoopVars [] 0 None 0 None);
      match l with
      | inr e => mret (0, Some e)
      | inl v => run_finish_p c v
      end
  end.

(** * A program without interruption is its method *)

Lemma on_kv_ret {A} (a : A) (b : backend S) : on_kv (mret a) b = Some (b, a).
Proof. by destruct b as [? [] ? ? ? ?]. Qed.

Lemma on_kv_bind {A B} (m : GoM S A) (f : A → GoM S B) (b : backend S) :
  on_kv (m ≫= f) b = (on_kv m ≫= λ x, on_kv (f x)) b.
Proof.
  unfold on_kv, on_scanner, sc_on_store, zoom, mbind, gom_bind. simpl.
  destruct (m (sc_store (b_scanner b))) as [[s x]|]; [|done]. simpl.
  destruct (f x s) as [[s' y]|]; [|done]. by destruct b as [? [] ? ? ? ?].
Qed.

Lemma run_call {A} (m : GoM S A) b : run_prog (call m) b = on_kv m b.
Proof. apply run_prog_atom. Qed.

Lemma on_scanner_ret {A} (a : A) (b : backend S) : on_scanner (mret a) b = Some (b, a).
Proof. by destruct b as [? [] ? ? ? ?]. Qed.

Lemma on_scanner_bind {A B} (m : GoM (scanner S) A) (f : A → GoM (scanner S) B) (b : backend S) :
  on_scanner (m ≫= f) b = (on_scanner m ≫= λ x, on_scanner (f x)) b.
Proof.
  unfold on_scanner, zoom, mbind, gom_bind. simpl.
  destruct (m (b_scanner b)) as [[s x]|]; [|done]. simpl. by destruct (f x s) as [[s' y]|].
Qed.

(** The shared state after a run of a worker's code, and its variables. *)
Definition resume {A} (b : backend S) (r : option (wstate S * A)) : option (backend S * (wstate () * A)) :=
  match r with
  | Some (w, x) =>
      Some (set_scanner (mkScanner (w_store w) (compactHistories (b_scanner b))) b, (local w, x))
  | None => None
  end.

Definition runs {A} (p : W A) (m : GoM (wstate S) A) : Prop :=
  ∀ l b, run_prog (p l) b = resume b (m (with_engine (b_store b) l)).

Lemma runs_ret {A} (a : A) : runs (mret a) (mret a).
Proof. intros [[] ? ? ? ?] b. by destruct b as [? [] ? ? ? ?]. Qed.

Lemma runs_bind {A B} (p : W A) (m : GoM (wstate S) A) (f : A → W B) (g : A → GoM (wstate S) B) :
  runs p m → (∀ x, runs (f x) (g x)) → runs (p ≫= f) (m ≫= g).
Proof.
  intros Hp Hf l b. unfold mbind at 1, W_bind. rewrite run_prog_bind. unfold mbind, gom_bind. rewrite Hp.
  destruct (m _) as [[w x]|]; [|done]. simpl. rewrite Hf. simpl. by destruct w.
Qed.

Lemma runs_call {A} (m : GoM S A) : runs (w_call m) (on_store m).
Proof.
  intros l b. unfold w_call. rewrite run_prog_bind. unfold mbind, gom_bind. rewrite run_call.
  unfold on_kv, on_scanner, sc_on_store, on_store, zoom, b_store. simpl.
  by destruct (m (sc_store (b_scanner b))) as [[s x]|], l as [[] ? ? ? ?].
Qed.

Lemma runs_opt {A} (o : option A) : runs (w_opt o) (lift_opt o).
Proof.
  intros l b. unfold w_opt. rewrite runs_call. unfold on_store, zoom, lift_opt. destruct o; [|done].
  by destruct l as [[] ? ? ? ?].
Qed.

Lemma runs_gets {A} (f : wstate () → A) (g : wstate S → A) :
  (∀ l s, g (with_engine s l) = f l) → runs (w_gets f) (gets g).
Proof.
  intros Hg l b. unfold w_gets, gets. simpl. rewrite Hg.
  by destruct l as [[] ? ? ? ?], b as [? [] ? ? ? ?].
Qed.

Lemma runs_modify (f : wstate () → wstate ()) (g : wstate S → wstate S) :
  (∀ l s, g (with_engine s l) = with_engine s (f l)) → runs (w_modify f) (modify g).
Proof.
  intros Hg l b. unfold w_modify, modify. simpl. rewrite Hg. simpl.
  by destruct (f l) as [[] ? ? ? ?], b as [? [] ? ? ? ?].
Qed.

Lemma runs_poll : runs (λ l, mret (poll l)) ctxDone.
Proof.
  intros [[] lf rc st [|d ctx]] b; unfold poll, ctxDone; simpl; by destruct b as [? [] ? ? ? ?].
Qed.

Lemma runs_if {A} (d : bool) (p q : W A) (m n : GoM (wstate S) A) :
  runs p m → runs q n → runs (if d then p else q) (if d then m else n).
Proof. by destruct d. Qed.

Create HintDb runs discriminated.
#[local] Hint Resolve runs_ret runs_bind runs_call runs_opt runs_poll runs_if : runs.
#[local] Hint Extern 1 (runs (w_gets _) (gets _)) => by apply runs_gets : runs.
#[local] Hint Extern 1 (runs (w_modify _) (modify _)) => by apply runs_modify : runs.

Lemma runs_compact_with del rawKey : runs (compact_with_p del rawKey) (compact_with del rawKey).
Proof.
  unfold compact_with_p, compact_with. apply runs_bind; [by apply runs_gets|]. intros skipped.
  apply runs_if; [apply runs_ret|]. apply runs_bind; [apply runs_call|]. intros [e|]; [|apply runs_ret].
  apply runs_bind; [|intros; apply runs_ret]. apply runs_modify. intros l s. unfold updateSkippedRawKey.
  by destruct (negb _).
Qed.
#[local] Hint Resolve runs_compact_with : runs.

Lemma runs_compactIfExpired c it rawKey revision value :
  runs (compactIfExpired_p c it rawKey revision value) (compactIfExpired c it rawKey revision value).
Proof.
  unfold compactIfExpired_p, compactIfExpired, compactCurrent_p, compactCurrent, compactKey_p, compactKey.
  auto 20 with runs.
Qed.

Lemma runs_receive v : runs (receive_p v) (receive v).
Proof. by apply runs_modify. Qed.
#[local] Hint Resolve runs_compactIfExpired runs_receive : runs.

Lemma runs_run_prev c cur v : runs (run_prev_p c cur v) (run_prev c cur v).
Proof. unfold run_prev_p, run_prev, compactKey_p, compactKey. auto 20 with runs. Qed.

Lemma runs_run_compact c it cur rev : runs (run_compact_p c it cur rev) (run_compact c it cur rev).
Proof.
  unfold run_compact_p, run_compact, compactCurrent_p, compactCurrent, compactKey_p, compactKey.
  auto 20 with runs.
Qed.
#[local] Hint Resolve runs_run_prev runs_run_compact : runs.

Lemma runs_run_item c it v : runs (run_item_p c it v) (run_item c it v).
Proof.
  unfold run_item_p, run_item. apply runs_bind; [apply runs_opt|]. intros [[k r] [e|]]; [apply runs_ret|].
  apply runs_bind; [auto with runs|]. intros [expired e]. auto 20 with runs.
Qed.

Lemma runs_run_loop c items end_ v : runs (run_loop_p c items end_ v) (run_loop c items end_ v).
Proof.
  revert v. induction items as [|it items IH]; intros v; cbn [run_loop_p run_loop];
    (apply runs_bind; [by apply runs_gets|]; intros more; apply runs_if; [apply runs_ret|];
     apply runs_bind; [apply runs_poll|]; intros d; apply runs_if; [apply runs_ret|]).
  - apply runs_ret.
  - apply runs_bind; [apply runs_run_item | apply IH].
Qed.

Lemma runs_run_finish c v : runs (run_finish_p c v) (run_finish c v).
Proof.
  unfold run_finish_p, run_finish. apply runs_if; [apply runs_ret|]. apply runs_bind; [by apply runs_gets|].
  intros more. auto 20 with runs.
Qed.

Lemma runs_run c : runs (run_p c) (run c).
Proof.
  unfold run_p, run. apply runs_bind; [apply runs_call|]. intros [e|it]; [apply runs_ret|].
  apply runs_bind; [by apply runs_modify|]. intros _. apply runs_bind; [apply runs_run_loop|].
  intros [v|e]; [apply runs_run_finish | apply runs_ret].
Qed.

Lemma runs_attempt c : runs (λ l, call (attempt c l)) (run c).
Proof.
  intros l b. rewrite run_call. unfold on_kv, on_scanner, sc_on_store, zoom, attempt, b_store.
  by destruct (run c _) as [[w x]|].
Qed.
End worker_programs.
