(* ===== verification/ScanProg.v ===== *)
(** The range reads and compactions as sequences of atomic steps.

    A scan calls the engine for a timestamp, for the compact record and for the
    partitions, then starts a worker per partition (scan of
    pkg/backend/scanner/scanner.go).  A worker's attempt is retried up to three
    times; the attempt of a read is one call of the engine, that of a compaction
    one per deletion (WorkerProg.v).  The workers of one scan run concurrently:
    [sched] is the order of their steps.  With the workers one after the other and
    without interruption each program is the method of pkg/backend/range.go or
    compact.go it stands for. *)

From S2P Require Import Prelude GoMonad Prog Storage Coder Proto Tso Ring Queue Mvcc Creator Scanner.
From S2P Require Import ScanSpec Backend BackendSpec WorkerProg.

(** Requests with keys the coder can encode, and numbers of their width. *)
Definition list_ok (r : RangeRequest) : Prop :=
  valid_key (rr_Key r) ∧ valid_key (rr_End r) ∧ is_uint64 (rr_Revision r) ∧ rr_Limit r < two63 - 1.

Definition count_ok (r : CountRequest) : Prop :=
  valid_key (cor_Key r) ∧ valid_key (cor_End r) ∧ bytes_lt (cor_Key r) (cor_End r).

Definition stream_ok (k e : bytes) (rev : Z) : Prop :=
  valid_key k ∧ valid_key e ∧ bytes_lt k e ∧ is_uint64 rev.

Section programs.
Context {S : Type} `{KvStorage S}.
Local Abbreviation P := (prog (backend S)).

(** * A worker *)

(** The attempts that are left, with the last result. *)
Fixpoint attempts_p (att : W (Z * option err)) (n : nat) (l : wstate ()) (res : Z * option err)
    : P (wstate () * (Z * option err) * option err) :=
  match n with
  | O => mret (l, res, Some ErrWaitTimeout)
  | Datatypes.S n' =>
      let '(l, done) := poll l in
      if (done : bool) then mret (l, res, Some (Errorf "context canceled"))
      else
        '(l, res) ← att l;
        match res.2 with
        | None => mret (l, res, None)
        | Some _ => attempts_p att n' l res
        end
  end.

(** An attempt: that of a read is one step. *)
Definition attempt_p (c : workerConfig) : W (Z * option err) :=
  if w_compact c then run_p c else λ l, call (attempt c l).

Definition worker_p (c : workerConfig) (receiver : resultReceiver) (ctx : list bool)
    : P (Z * option err * resultReceiver * list StreamRangeResponse) :=
  '(l, res, e) ← attempts_p (attempt_p c) scanBackoffSteps (mkWstate () [] (rcv_fork receiver) [] ctx) (0, None);
  let e := match e with
           | Some ErrWaitTimeout => Some (Errorf "reached the max retry time")
           | _ => e
           end in
  mret (res.1, e, w_receiver l, w_stream l).

Fixpoint workers_p (mk : Partition → workerConfig) (receiver : resultReceiver)
    (ctx : nat → list bool) (idx : nat) (ps : list Partition)
    : list (P (Z * option err * resultReceiver * list StreamRangeResponse)) :=
  match ps with
  | [] => []
  | p :: ps' => worker_p (mk p) receiver (ctx idx) :: workers_p mk receiver ctx (Datatypes.S idx) ps'
  end.

(** * The scanner *)

Definition scan_p (cfg : Scanner.Config) (now : Z) (sched : list nat) (ctx : nat → list bool)
    (start end_ : bytes) (revision : Z) (compact : bool) (receiver : resultReceiver) : P scanResult :=
  '(tso, e) ← call kv_tso;
  match e with
  | Some _ => mret (mkScanResult 0 e receiver [])
  | None =>
      e ← call (checkCompactRace cfg revision compact);
      match e with
      | Some _ => mret (mkScanResult 0 e receiver [])
      | None =>
          '(partitions, e) ← call (kv_partitions start end_);
          match e with
          | Some _ => mret (mkScanResult 0 e receiver [])
          | None =>
              partitions ← call (lift_opt (adjustPartitionsBorders partitions));
              timeout ← (if compact then atom (on_scanner (getTimeoutRevision cfg now)) else mret 0);
              rs ← par sched (workers_p
                (λ p, mkWorkerConfig p tso revision (Tombstone cfg) compact timeout) receiver ctx 0 partitions);
              let streams := (λ r, r.2) <$> rs in
              match first_err ((λ r, r.1.1.2) <$> rs) with
              | Some e => mret (mkScanResult 0 (Some e) receiver streams)
              | None =>
                  merged ← call (lift_opt (merge_all receiver ((λ r, r.1.2) <$> rs)));
                  mret (mkScanResult (int64 (foldr Z.add 0 ((λ r, r.1.1.1) <$> rs))) None merged
                          ((λ r, r.2 ++ (rcv_close r.1.2).2) <$> rs))
              end
          end
      end
  end.

(** [scanner.Compact] *)
Definition scanner_Compact_p (cfg : Scanner.Config) (now : Z) (sched : list nat) (ctx : nat → list bool)
    (start end_ : bytes) (revision : Z) : P () :=
  _ ← atom (on_scanner (logCompactHistory now revision));
  _ ← scan_p cfg now sched ctx start end_ revision true emptyResultReceiver;
  mret ().

Definition rangeWithLimit_p (cfg : Scanner.Config) (ctx : list bool) (start end_ : bytes)
    (revision limit : Z) : P (list KeyValue * option err) :=
  '(tso, e) ← call kv_tso;
  match e with
  | Some _ => mret ([], e)
  | None =>
      e ← call (checkCompactRace cfg revision false);
      match e with
      | Some _ => mret ([], e)
      | None =>
          '(l, (_, e)) ← call (attempt
             (mkWorkerConfig (mkPartition start end_) tso revision (Tombstone cfg) false 0)
             (mkWstate () [] (commonResultReceiver [] limit) [] ctx));
          mret (match e, w_receiver l with
                | None, commonResultReceiver result _ => (result, None)
                | _, _ => ([], e)
                end)
      end
  end.

Definition Range_p (cfg : Scanner.Config) (sched : list nat) (ctx : nat → list bool) (start end_ : bytes)
    (revision limit : Z) : P (list KeyValue * option err) :=
  if 0 <? limit then rangeWithLimit_p cfg (ctx O) start end_ revision limit
  else
    r ← scan_p cfg 0 sched ctx start end_ revision false (commonResultReceiver [] 0);
    match sr_err r, sr_receiver r with
    | None, commonResultReceiver result _ => mret (result, None)
    | e, _ => mret ([], e)
    end.

(** [RangeStream]: the workers' messages, then the closing one. *)
Definition RangeStream_p (cfg : Scanner.Config) (sched : list nat) (ctx : nat → list bool) (start end_ : bytes)
    (revision : Z) : P (list (list StreamRangeResponse) * StreamRangeResponse) :=
  r ← scan_p cfg 0 sched ctx start end_ revision false (streamResultReceiver revision []);
  mret (sr_streams r, getListStreamEnd revision (sr_err r)).

(** * The backend's reads *)

Definition List_p (cfg : Backend.Config) (sched : list nat) (ctx : nat → list bool) (r : RangeRequest)
    : P (option RangeResponse * option err) :=
  match rr_End r with
  | [] => mret (None, Some (Errorf "invalid nil end field in RangeRequest"))
  | _ =>
      curRevision ← atom (on_tso GetRevision);
      let reqRevision := if rr_Revision r =? 0 then curRevision else rr_Revision r in
      if negb (bytes_ltb (rr_Key r) (rr_End r))
      then mret (None, Some (Errorf "invalid range end"))
      else
        let limit := if 0 <? rr_Limit r then int64 (rr_Limit r + 1) else rr_Limit r in
        '(kvs, e) ← Range_p (getScannerConfig cfg) sched ctx (EncodeObjectKey (rr_Key r) 0)
                      (EncodeObjectKey (rr_End r) 0) reqRevision limit;
        match e with
        | Some _ => mret (None, e)
        | None =>
            if (0 <? limit) && (rr_Limit r <? Z.of_nat (length kvs))
            then mret (Some (mkRangeResponse curRevision (take (Z.to_nat (rr_Limit r)) kvs) true), None)
            else mret (Some (mkRangeResponse curRevision kvs false), None)
        end
  end.

Definition Count_p (cfg : Backend.Config) (sched : list nat) (ctx : nat → list bool) (r : CountRequest)
    : P (option CountResponse * option err) :=
  rev ← atom (on_tso GetRevision);
  if negb (EnableEtcdCompatibility cfg) then mret (Some (mkCountResponse rev 0), None)
  else
    res ← scan_p (getScannerConfig cfg) 0 sched ctx (EncodeObjectKey (cor_Key r) 0)
            (EncodeObjectKey (cor_End r) 0) rev false emptyResultReceiver;
    match sr_err res with
    | Some _ => mret (None, sr_err res)
    | None => mret (Some (mkCountResponse rev (uint64 (sr_count res))), None)
    end.

Definition ListByStream_p (cfg : Backend.Config) (sched : list nat) (ctx : nat → list bool)
    (startKey endKey : bytes) (rev : Z) : P (list (list StreamRangeResponse) * StreamRangeResponse) :=
  curRev ← atom (on_tso GetRevision);
  let rev := if rev =? 0 then curRev else rev in
  RangeStream_p (getScannerConfig cfg) sched ctx startKey endKey rev.

(** * Compaction *)

Definition setCompactRecord_p (cfg : Backend.Config) (revision : Z) : P (option err) :=
  let key := getCompactKey (Prefix cfg) in
  '(val, e) ← call (kv_get key);
  match e with
  | Some ge =>
      if negb (bool_decide (ge = ErrKeyNotFound)) then mret (Some ge)
      else call (kv_commit [PutIfNotExist key (Some (uint64ToBytes revision)) 0])
  | None =>
      if (0 <? slen val) then
        compactRevision ← call (lift_opt (Uint64 (content val)));
        if revision <? compactRevision then mret None
        else call (kv_commit [CAS key (Some (uint64ToBytes revision)) val 0])
      else call (kv_commit [PutIfNotExist key (Some (uint64ToBytes revision)) 0])
  end.

(** The ranges one after the other; [sched i] is the schedule of the workers of the
    [i]th. *)
Fixpoint compact_ranges_p (cfg : Backend.Config) (now : Z) (sched : nat → list nat) (ctx : nat → list bool)
    (revision : Z) (i : nat) (borders : list bytes) : P () :=
  match borders with
  | [] => mret ()
  | [_] => call panic
  | start :: end_ :: borders' =>
      _ ← scanner_Compact_p (getScannerConfig cfg) now (sched i) ctx start end_ revision;
      compact_ranges_p cfg now sched ctx revision (Datatypes.S i) borders'
  end.

Definition compact_p (cfg : Backend.Config) (now : Z) (sched : nat → list nat) (ctx : nat → list bool)
    (revision : Z) : P (option err) :=
  e ← setCompactRecord_p cfg revision;
  match e with
  | Some _ => mret e
  | None => _ ← compact_ranges_p cfg now sched ctx revision 0 (getCompactBorders cfg); mret None
  end.

(** The revision a request is served at: the read revision is loaded, then the head
    of the retry queue. *)
Definition choose_p (revision : Z) : P Z :=
  curRevision ← atom (on_tso GetRevision);
  let revision := if (revision =? 0) || (curRevision <? revision) then curRevision else revision in
  uncertainRev ← atom (gets (λ b, MinRevision (asyncFifoRetry b)));
  mret (if negb (uncertainRev =? 0) then minUint64 (uncertainRev - 1) revision else revision).

Definition Compact_p (cfg : Backend.Config) (now : Z) (sched : nat → list nat) (ctx : nat → list bool)
    (revision : Z) : P (Z * option err) :=
  revision ← choose_p revision;
  e ← compact_p cfg now sched ctx revision;
  mret (revision, e).

(** * A program without interruption is its method *)

Context `{Backoff}.

Lemma run_attempts c (att : W (Z * option err)) n l res b :
  runs att (run c) →
  run_prog (attempts_p att n l res) b =
  match ExponentialBackoff n (retry_cond c) (with_engine (b_store b) l, res) with
  | Some ((w, res'), e) => Some (set_scanner (mkScanner (w_store w) (compactHistories (b_scanner b))) b,
                                 (local w, res', e))
  | None => None
  end.
Proof.
  intros Hatt. revert l res b. induction n as [|n IH]; intros l res b.
  { rewrite ExponentialBackoff_0. by destruct b as [? [] ? ? ? ?], l as [[] ? ? ? ?]. }
  rewrite ExponentialBackoff_S. cbn [attempts_p]. unfold retry_cond.
  assert (∀ l', run_prog ('(l0, res0) ← att l';
      match res0.2 with None => mret (l0, res0, None) | Some _ => attempts_p att n l0 res0 end) b =
    match (r ← (res0 ← zoom fst (λ w st, (w, st.2)) (run c);
                modify (λ st, (st.1, res0)) ;;
                match res0.2 with None => mret (true, None) | Some _ => mret (false, None) end);
           let '(ok, e) := r in
           match e, ok with
           | Some _, _ => mret e
           | None, true => mret None
           | None, false => ExponentialBackoff n (retry_cond c)
           end) (with_engine (b_store b) l', res) with
    | Some ((w, res'), e) => Some (set_scanner (mkScanner (w_store w) (compactHistories (b_scanner b))) b,
                                   (local w, res', e))
    | None => None
    end) as Hrun.
  { intros l'. rewrite run_prog_bind. unfold mbind at 1, gom_bind at 1. rewrite Hatt.
    unfold zoom, mbind, gom_bind. simpl.
    destruct (run c _) as [[w [cnt [e|]]]|]; [|done..]. simpl. rewrite IH. simpl. by destruct w. }
  unfold poll, ctxDone, zoom, mbind, gom_bind in *. destruct l as [[] lf rc st [|[] ctx]]; simpl in *.
  - apply Hrun.
  - by destruct b as [? [] ? ? ? ?].
  - apply (Hrun (mkWstate () lf rc st ctx)).
Qed.

Lemma runs_attempt_p c : runs (attempt_p c) (run c).
Proof. unfold attempt_p. destruct (w_compact c); [apply runs_run | apply runs_attempt]. Qed.

Lemma run_worker c receiver ctx b :
  run_prog (worker_p c receiver ctx) b = on_kv (scan_worker c receiver ctx) b.
Proof.
  unfold worker_p, scan_worker, runWithBackoffRetry. rewrite run_prog_bind. unfold mbind, gom_bind.
  rewrite (run_attempts c) by apply runs_attempt_p. unfold on_kv, on_scanner, sc_on_store, zoom.
  change (with_engine (b_store b) (mkWstate () [] (rcv_fork receiver) [] ctx))
    with (mkWstate (b_store b) [] (rcv_fork receiver) [] ctx). unfold b_store.
  by destruct (ExponentialBackoff _ _ _) as [[[w [cnt se]] e]|].
Qed.

Lemma run_workers mk receiver ctx idx ps b :
  run_prog (sequence (workers_p mk receiver ctx idx ps)) b = on_kv (scan_workers mk receiver ctx idx ps) b.
Proof.
  revert idx b. induction ps as [|p ps IH]; intros idx b; [symmetry; apply on_kv_ret|].
  cbn [workers_p sequence scan_workers]. rewrite run_prog_bind, on_kv_bind.
  apply bind_ext; [apply run_worker|]. intros r b1. rewrite run_prog_bind, on_kv_bind.
  apply bind_ext; [apply IH|]. intros rs b2. by rewrite on_kv_ret.
Qed.

(** An engine call of the scanner and what comes after it. *)
Lemma scanner_step {A B} (m : GoM S A) (f : A → P B) (g : A → GoM (scanner S) B) b :
  (∀ x b', run_prog (f x) b' = on_scanner (g x) b') →
  run_prog (call m ≫= f) b = on_scanner (sc_on_store m ≫= g) b.
Proof.
  intros Hf. rewrite run_prog_bind, on_scanner_bind. apply bind_ext; [apply run_call | apply Hf].
Qed.

Lemma on_scanner_opt {A B} (o : option A) (f : A → GoM (scanner S) B) b :
  on_scanner (lift_opt o ≫= f) b = on_scanner (sc_on_store (lift_opt o) ≫= f) b.
Proof.
  unfold on_scanner, sc_on_store, zoom, mbind, gom_bind, lift_opt. destruct o; [|done].
  by destruct (b_scanner b).
Qed.

Lemma on_scanner_ret_bind {A B} (a : A) (f : A → GoM (scanner S) B) b :
  on_scanner (mret a ≫= f) b = on_scanner (f a) b.
Proof. done. Qed.

Lemma run_scan cfg now ctx start end_ revision compact receiver b :
  run_prog (scan_p cfg now [] ctx start end_ revision compact receiver) b =
  on_scanner (scan cfg now ctx start end_ revision compact receiver) b.
Proof.
  unfold scan_p, scan. apply scanner_step. intros [ts [e|]] b1; [symmetry; apply on_scanner_ret|].
  apply scanner_step. intros [e|] b2; [symmetry; apply on_scanner_ret|].
  apply scanner_step. intros [ps [e|]] b3; [symmetry; apply on_scanner_ret|].
  rewrite on_scanner_opt. apply scanner_step. intros qs b4.
  rewrite run_prog_bind, on_scanner_bind. apply bind_ext.
  { destruct compact; [apply run_prog_atom | symmetry; apply on_scanner_ret]. }
  intros timeout b4'. rewrite run_prog_bind, on_scanner_bind.
  apply bind_ext; [apply run_workers|]. intros rs b5.
  destruct (first_err _) as [e|]; [symmetry; apply on_scanner_ret|].
  rewrite on_scanner_opt. apply scanner_step. intros merged b6. by rewrite on_scanner_ret.
Qed.

Lemma run_Range_p cfg ctx start end_ revision limit b :
  run_prog (Range_p cfg [] ctx start end_ revision limit) b =
  on_scanner (Range cfg ctx start end_ revision limit) b.
Proof.
  unfold Range_p, Range. destruct (0 <? limit).
  - unfold rangeWithLimit_p, rangeWithLimit. apply scanner_step. intros [ts [e|]] b1; [symmetry; apply on_scanner_ret|].
    apply scanner_step. intros [e|] b2; [symmetry; apply on_scanner_ret|].
    rewrite run_prog_bind. unfold mbind, gom_bind. rewrite run_call.
    unfold on_kv, on_scanner, sc_on_store, zoom, attempt, with_engine. simpl.
    by destruct (run _ _) as [[w [cnt [e|]]]|].
  - rewrite run_prog_bind, on_scanner_bind. apply bind_ext; [apply run_scan|]. intros r b1.
    destruct (sr_err r), (sr_receiver r); by rewrite on_scanner_ret.
Qed.

Lemma run_List_p cfg ctx r b : run_prog (List_p cfg [] ctx r) b = Backend.List cfg ctx r b.
Proof.
  unfold List_p, Backend.List. destruct (rr_End r) as [|x l]; [done|].
  rewrite run_prog_bind. apply bind_ext; [apply run_prog_atom|]. intros cur b1.
  destruct (negb _); [done|]. rewrite run_prog_bind. apply bind_ext; [apply run_Range_p|].
  intros [kvs [e|]] b2; [done|]. by destruct (_ && _).
Qed.

Lemma run_Count_p cfg ctx r b : run_prog (Count_p cfg [] ctx r) b = Backend.Count cfg ctx r b.
Proof.
  unfold Count_p, Backend.Count, Scanner.Count. rewrite run_prog_bind.
  apply bind_ext; [apply run_prog_atom|]. intros rev b1. destruct (negb _); [done|].
  rewrite run_prog_bind. unfold mbind, gom_bind. rewrite run_scan. unfold on_scanner, zoom.
  destruct (scan _ _ _ _ _ _ _ _ _) as [[sc res]|]; [|done]. simpl. by destruct (sr_err res).
Qed.

Lemma run_ListByStream_p cfg ctx startKey endKey rev b :
  run_prog (ListByStream_p cfg [] ctx startKey endKey rev) b = Backend.ListByStream cfg ctx startKey endKey rev b.
Proof.
  unfold ListByStream_p, Backend.ListByStream, RangeStream_p, RangeStream. rewrite run_prog_bind.
  apply bind_ext; [apply run_prog_atom|]. intros cur b1. cbv zeta. rewrite run_prog_bind, on_scanner_bind.
  apply bind_ext; [apply run_scan|]. intros r b2. symmetry. apply on_scanner_ret.
Qed.

Lemma run_scanner_Compact cfg now ctx start end_ revision b :
  run_prog (scanner_Compact_p cfg now [] ctx start end_ revision) b =
  on_scanner (Scanner.Compact cfg now ctx start end_ revision) b.
Proof.
  unfold scanner_Compact_p, Scanner.Compact. rewrite run_prog_bind, on_scanner_bind.
  apply bind_ext; [apply run_prog_atom|]. intros [] b1. rewrite run_prog_bind, on_scanner_bind.
  apply bind_ext; [apply run_scan|]. intros r b2. symmetry. apply on_scanner_ret.
Qed.

Lemma run_compact_ranges cfg now ctx revision i borders b :
  run_prog (compact_ranges_p cfg now (λ _, []) ctx revision i borders) b =
  compact_ranges cfg now ctx revision borders b.
Proof.
  revert i b. remember (length borders) as n eqn:En. revert borders En.
  induction n as [n IH] using lt_wf_ind. intros [|x [|y borders]] En i b; [done| |].
  - cbn [compact_ranges_p compact_ranges]. rewrite run_call. done.
  - cbn [compact_ranges_p compact_ranges]. rewrite run_prog_bind.
    apply bind_ext; [apply run_scanner_Compact|]. intros [] b1.
    apply (IH (length borders)); [simpl in En; lia | done].
Qed.

Lemma run_compact cfg now ctx revision b :
  run_prog (compact_p cfg now (λ _, []) ctx revision) b = compact cfg now ctx revision b.
Proof.
  unfold compact_p, compact. rewrite run_prog_bind. apply bind_ext.
  - unfold setCompactRecord_p, setCompactRecord. rewrite run_prog_bind. apply bind_ext; [apply run_call|].
    intros [val [ge|]] b1.
    + destruct (negb _); [done | apply run_call].
    + destruct (0 <? slen val); [|apply run_call]. rewrite run_prog_bind.
      apply bind_ext; [|intros cr b2; destruct (_ <? _); [done | apply run_call]].
      rewrite run_call. unfold on_kv, on_scanner, sc_on_store, zoom, lift_opt.
      destruct (Uint64 _); [|done]. by destruct b1 as [? [] ? ? ? ?].
  - intros [e|] b1; [done|]. rewrite run_prog_bind. apply bind_ext; [apply run_compact_ranges | done].
Qed.

Lemma run_Compact_p cfg now ctx revision b :
  run_prog (Compact_p cfg now (λ _, []) ctx revision) b = Backend.Compact cfg now ctx revision b.
Proof.
  unfold Compact_p, Backend.Compact. rewrite run_prog_bind. apply bind_ext.
  - unfold choose_p. rewrite run_prog_bind. unfold mbind, gom_bind. rewrite run_prog_atom.
    unfold on_tso, zoom, GetRevision, gets. by rewrite set_tso_id.
  - intros R b1. rewrite run_prog_bind. apply bind_ext; [apply run_compact | done].
Qed.
End programs.
