(* ===== verification/BackendReads.v ===== *)
(** Range reads and compaction of the backend: List, Count, ListByStream and
    Compact against the versions of the store. *)

From S2P Require Import Prelude GoMonad Storage Coder Proto Tso Ring Queue Mvcc Creator Scanner.
From S2P Require Import ScanSpec ScanRead Compaction Backend BackendSpec.

(** What a response to a range read says of the key-values it was asked for. *)
Definition range_answer (r : RangeRequest) (l : list KeyValue) (resp : RangeResponse) : Prop :=
  if 0 <? rr_Limit r
  then rrs_Kvs resp = take (Z.to_nat (rr_Limit r)) l ∧
       rrs_More resp = (rr_Limit r <? Z.of_nat (length l))
  else rrs_Kvs resp = l ∧ rrs_More resp = false.

(** One key-value beyond the limit is read, to see whether there are more. *)
Lemma range_answer_cut r cur kvs l :
  let limit := if 0 <? rr_Limit r then int64 (rr_Limit r + 1) else rr_Limit r in
  rr_Limit r < two63 - 1 → kvs = (if 0 <? limit then take (Z.to_nat limit) l else l) →
  range_answer r l
    (if (0 <? limit) && (rr_Limit r <? Z.of_nat (length kvs))
     then mkRangeResponse cur (take (Z.to_nat (rr_Limit r)) kvs) true
     else mkRangeResponse cur kvs false).
Proof.
  intros limit Hlim. unfold range_answer.
  assert (limit = if 0 <? rr_Limit r then rr_Limit r + 1 else rr_Limit r) as ->.
  { unfold limit. destruct (Z.ltb_spec 0 (rr_Limit r)); [|done]. apply int64_id. unfold two63 in *. lia. }
  destruct (Z.ltb_spec 0 (rr_Limit r)).
  - destruct (Z.ltb_spec 0 (rr_Limit r + 1)); [|lia]. intros ->. cbn [andb].
    rewrite length_take.
    destruct (Z.ltb_spec (rr_Limit r) (Z.of_nat (Z.to_nat (rr_Limit r + 1) `min` length l))),
      (Z.ltb_spec (rr_Limit r) (Z.of_nat (length l))); simpl; try lia; (split; [|done]).
    + rewrite take_take. f_equal. lia.
    + rewrite !take_ge by lia. done.
  - destruct (Z.ltb_spec 0 (rr_Limit r)); [lia|]. by intros ->.
Qed.

Section reads.
Context {S : Type} `{KvSpec S} `{!KvPartitions S} `{Backoff}.
Context (cfg : Backend.Config).

Local Abbreviation scfg := (getScannerConfig cfg).

(** The store is well formed and its compact record readable. *)
Definition readable (b : backend S) : Prop :=
  backend_inv b ∧ compact_ok scfg (view b) ∧ is_uint64 (committedRevision (tso b)).

Lemma valid_border k : valid_key k → internal_ok (EncodeObjectKey k 0) ∧ aligned (EncodeObjectKey k 0).
Proof.
  intros Hk. split; [left; exists k, 0; pose proof zero_is_uint64; done | by apply aligned_valid].
Qed.

Lemma border_le k e : valid_key k → valid_key e → bytes_lt k e →
  bytes_le (EncodeObjectKey k 0) (EncodeObjectKey e 0).
Proof. intros. pose proof zero_is_uint64. apply EncodeObjectKey_le; try done. by left. Qed.

(** The visible key-values of user keys in [[k, e)]. *)
Definition visible_range (m : kvmap) (k e : bytes) (R : Z) (l : list KeyValue) : Prop :=
  StronglySorted kv_lt l ∧
  ∀ kv, kv ∈ l ↔ valid_key (kv_Key kv) ∧ bytes_le k (kv_Key kv) ∧ bytes_lt (kv_Key kv) e ∧
                 visible m (kv_Key kv) R = Some (kv_Revision kv, kv_Value kv).

Lemma visible_range_result m k e R l :
  valid_key k → valid_key e →
  visible_range m k e R l ↔ range_result m (EncodeObjectKey k 0) (EncodeObjectKey e 0) R l.
Proof.
  intros Hk He. pose proof zero_is_uint64 as Hz. unfold visible_range, range_result.
  assert (∀ P Q Q' : Prop, (Q ↔ Q') → (P ∧ Q ↔ P ∧ Q')) as Hand by tauto. apply Hand.
  apply forall_proper. intros kv. unfold EncodeRevisionKey.
  assert (∀ P Q Q' : Prop, (Q ↔ Q') → ((P ↔ Q) ↔ (P ↔ Q'))) as Hiff by tauto. apply Hiff. split; intros (Hv & Hlo & Hhi & Hvz); repeat split; try done.
  - apply EncodeObjectKey_le; try done. apply bytes_le_lteq in Hlo as [?|?]; [by left | right; done].
  - apply EncodeObjectKey_lt; try done. by left.
  - apply EncodeObjectKey_le in Hlo; try done. apply bytes_le_lteq. naive_solver.
  - apply EncodeObjectKey_lt in Hhi; try done. destruct Hhi as [?|[_ ?]]; [done | lia].
Qed.

Lemma visible_range_exists m k e R :
  store_ok m → valid_key k → valid_key e → is_uint64 R → ∃ l, visible_range m k e R l.
Proof.
  intros Hm Hk He HR. destruct (valid_border _ Hk) as [_ Ha], (valid_border _ He) as [_ Hb].
  destruct (range_result_exists m _ _ R Hm HR Ha Hb) as [l Hl]. exists l. by apply visible_range_result.
Qed.

Definition list_rev (r : RangeRequest) (b : backend S) : Z :=
  if rr_Revision r =? 0 then committedRevision (tso b) else rr_Revision r.

Definition List_post (b : backend S) (r : RangeRequest) (res : option RangeResponse * option err) : Prop :=
  match res with
  | (Some resp, None) =>
      rrs_Revision resp = committedRevision (tso b) ∧ not_compacted scfg (view b) (list_rev r b) ∧
      ∀ l, visible_range (view b) (rr_Key r) (rr_End r) (list_rev r b) l → range_answer r l resp
  | (None, Some _) => True
  | _ => False
  end.

Definition no_cancel (ctx : nat → list bool) : Prop := ∀ i, ctx i = [].

Lemma wp_List ctx r b :
  readable b → valid_key (rr_Key r) → valid_key (rr_End r) → rr_End r ≠ [] →
  bytes_lt (rr_Key r) (rr_End r) → is_uint64 (rr_Revision r) → rr_Limit r < two63 - 1 →
  wp (Backend.List cfg ctx r) (λ res b',
    kv_inv (b_store b') ∧ view b' = view b ∧ tso b' = tso b ∧ List_post b r res ∧
    (KvReliable S → no_cancel ctx → not_compacted scfg (view b) (list_rev r b) → is_Some res.1)) b.
Proof using All.
  intros (Hb & Hcr & Hcu) Hk He Hne Hlt Hu Hlim. unfold Backend.List.
  destruct (rr_End r) as [|e0 el] eqn:Eend; [done|]. rewrite <-Eend in *. clear Eend.
  unfold on_tso, GetRevision, on_scanner. wp_steps. rewrite set_tso_id.
  rewrite (proj2 (bytes_ltb_spec _ _) Hlt). simpl. fold (list_rev r b).
  set (limit := if 0 <? rr_Limit r then int64 (rr_Limit r + 1) else rr_Limit r).
  assert (is_uint64 (list_rev r b)) as HR by (unfold list_rev; by destruct (_ =? _)).
  destruct (valid_border _ Hk) as [Hik Hak]. destruct (valid_border _ He) as [_ Hae].
  wp_steps. eapply wp_mono; [apply (wp_Range scfg (view b)); try done; [apply Hb| |by apply border_le]|].
  { split; [apply Hb | done]. }
  intros [kvs e] sc' ([Hkv' Hv'] & Hrel & Hr). simpl in *. destruct e as [e|].
  { wp_steps. do 3 (split; [done|]). split; [done|]. intros ? Hc Hn. by specialize (Hrel (conj _ (conj Hc Hn))). }
  destruct (Hr eq_refl) as [Hnc Hl]. clear Hr.
  assert (∀ l, visible_range (view b) (rr_Key r) (rr_End r) (list_rev r b) l →
    kvs = if 0 <? limit then take (Z.to_nat limit) l else l) as Hl'.
  { intros l Hvl. by apply Hl, visible_range_result. }
  pose proof (λ l Hvl, range_answer_cut r (committedRevision (tso b)) kvs l Hlim (Hl' l Hvl)) as Hcut.
  fold limit in Hcut. destruct (_ && _); wp_steps; do 3 (split; [done|]); (split; [|eauto]); by split_and!.
Qed.

Lemma wp_Count_backend ctx r b :
  readable b → valid_key (cor_Key r) → valid_key (cor_End r) → bytes_lt (cor_Key r) (cor_End r) →
  EnableEtcdCompatibility cfg = true →
  wp (Backend.Count cfg ctx r) (λ res b',
    kv_inv (b_store b') ∧ view b' = view b ∧ tso b' = tso b ∧
    (KvReliable S → no_cancel ctx → not_compacted scfg (view b) (committedRevision (tso b)) →
     is_Some res.1) ∧
    match res with
    | (Some resp, None) =>
        cors_Revision resp = committedRevision (tso b) ∧
        ∀ l, visible_range (view b) (cor_Key r) (cor_End r) (committedRevision (tso b)) l →
             Z.of_nat (length l) < two63 → cors_Count resp = Z.of_nat (length l)
    | (None, Some _) => True
    | _ => False
    end) b.
Proof using All.
  intros (Hb & Hcr & Hcu) Hk He Hlt Hetcd. unfold Backend.Count.
  unfold on_tso, GetRevision, on_scanner. wp_steps. rewrite set_tso_id, Hetcd. simpl.
  destruct (valid_border _ Hk) as [Hik Hak]. destruct (valid_border _ He) as [_ Hae].
  wp_steps. eapply wp_mono; [apply (wp_Count scfg (view b)); try done; [apply Hb| |by apply border_le]|].
  { split; [apply Hb | done]. }
  intros [cnt e] sc' ([Hkv' Hv'] & Hrel & Hr). simpl in *. destruct e as [e|]; wp_steps.
  { do 3 (split; [done|]). split; [|done]. intros ? Hc Hn. by specialize (Hrel (conj _ (conj Hc Hn))). }
  do 3 (split; [done|]). split; [eauto|]. split; [done|]. intros l Hl Hlen.
  destruct (Hr eq_refl) as [_ Hcnt]. rewrite (Hcnt l) by by apply visible_range_result.
  rewrite int64_id by (unfold two63 in *; lia). apply uint64_id. unfold is_uint64, two64, two63 in *. lia.
Qed.

(** The streamed list of a whole range, worker by worker. *)
Lemma wp_ListByStream ctx k e rev b :
  readable b → valid_key k → valid_key e → bytes_lt k e → is_uint64 rev →
  KvReliable S → no_cancel ctx →
  let R := if rev =? 0 then committedRevision (tso b) else rev in
  not_compacted scfg (view b) R →
  wp (ListByStream cfg ctx (EncodeObjectKey k 0) (EncodeObjectKey e 0) rev) (λ res b',
    kv_inv (b_store b') ∧ view b' = view b ∧ tso b' = tso b ∧
    visible_range (view b) k e R (concat (msg_kvs <$> concat res.1)) ∧
    Forall (Forall (λ m, rrs_More (srs_RangeResponse m) = true ∧ srs_Err m = None)) res.1 ∧
    res.2 = getListStreamEnd R None) b.
Proof using All.
  intros (Hb & Hcr & Hcu) Hk He Hlt Hu Hrel Hc R Hnc. unfold ListByStream.
  unfold on_tso, GetRevision, on_scanner. wp_steps. rewrite set_tso_id. fold R.
  assert (is_uint64 R) as HR by (unfold R; by destruct (_ =? _)).
  destruct (valid_border _ Hk) as [Hik Hak]. destruct (valid_border _ He) as [_ Hae].
  eapply wp_mono; [apply (wp_RangeStream scfg (view b) R); try done; [apply Hb| |by apply border_le]|].
  { split; [apply Hb | done]. }
  intros res sc' ([Hkv' Hv'] & Hl & Hm & Hend). do 3 (split; [done|]). split; [|done].
  by apply visible_range_result.
Qed.
End reads.

(** * Compaction of the backend *)

(** The borders of a prefix, normalised to end in a slash. *)
Definition slash (key : bytes) : bytes :=
  if negb (has_suffix key (str "/")) then key ++ str "/" else key.

Lemma slash_spec key : ∃ p, slash key = p ++ str "/".
Proof.
  unfold slash. destruct (has_suffix key (str "/")) eqn:E; simpl; [|by exists key].
  unfold has_suffix in E. apply has_prefix_spec in E as [k E].
  exists (reverse k). rewrite <-(reverse_involutive key), E.
  rewrite reverse_app. by rewrite reverse_involutive.
Qed.

Lemma PrefixEnd_slash p : PrefixEnd (p ++ str "/") = p ++ str "0".
Proof.
  unfold PrefixEnd. rewrite reverse_app. simpl.
  change (reverse (str "/")) with (str "/"). simpl.
  change (to_byte (bval "/" + 1) :: reverse p) with (str "0" ++ reverse p).
  rewrite reverse_app, reverse_involutive. done.
Qed.

Lemma valid_slash p : valid_key p → valid_key (slash p) ∧ valid_key (PrefixEnd (slash p)).
Proof.
  intros Hp. assert (valid_key (slash p)) as Hs.
  { unfold slash. destruct (negb _); [|done]. apply Forall_app. split; [done|]. by repeat constructor. }
  split; [done|]. destruct (slash_spec p) as [q E]. rewrite E in Hs |- *. rewrite PrefixEnd_slash.
  apply Forall_app in Hs as [Hq _]. apply Forall_app. split; [done|]. by repeat constructor.
Qed.

Section compact_backend.
Context {S : Type} `{KvSpec S} `{!KvPartitions S} `{Backoff}.
Context (cfg : Backend.Config).

Local Abbreviation scfg := (getScannerConfig cfg).
Local Abbreviation ckey := (getCompactKey (Prefix cfg)).

(** Prefixes are valid keys, and the compact record is outside the encoded keys. *)
Record config_ok : Prop := {
  co_prefix : Forall valid_key (Prefix cfg :: SkippedPrefixes cfg);
  co_magic : take 4 ckey ≠ magicBytes;
}.

Hypothesis (Hcfg : config_ok).

Lemma ckey_length : (9 <= length ckey)%nat.
Proof. unfold getCompactKey. rewrite !length_app. simpl. lia. Qed.

Definition border_ok (x : bytes) : Prop := internal_ok x ∧ aligned x.

#[local] Instance bytes_le_total : Total bytes_le.
Proof. intros x y. apply (entry_le_total (x, ()) (y, ())). Qed.

#[local] Instance bytes_le_transitive : Transitive bytes_le.
Proof. intros x y z. apply bytes_le_trans. Qed.

(** The compaction borders are ascending user-key borders, in pairs. *)
Lemma compact_borders_ok :
  Forall border_ok (getCompactBorders cfg) ∧ StronglySorted bytes_le (getCompactBorders cfg) ∧
  Nat.even (length (getCompactBorders cfg)) = true.
Proof using Hcfg.
  unfold getCompactBorders. destruct Hcfg as [Hp _]. split; [|split].
  - rewrite merge_sort_Permutation. generalize dependent (Prefix cfg :: SkippedPrefixes cfg).
    intros l. induction 1 as [|p l Hv Hl IH]; [constructor|]. rewrite fmap_cons. cbn [concat].
    apply Forall_app. split; [|done]. unfold compact_border. fold (slash p).
    destruct (valid_slash p Hv) as [Hs1 Hs2].
    constructor; [by apply valid_border|]. constructor; [by apply valid_border | constructor].
  - apply Sorted_StronglySorted; [apply _|]. apply (Sorted_merge_sort bytes_le).
  - rewrite merge_sort_Permutation. generalize (Prefix cfg :: SkippedPrefixes cfg).
    intros l. induction l as [|p l IH]; [done|]. rewrite fmap_cons. cbn [concat].
    rewrite length_app. by rewrite Nat.even_add, IH.
Qed.

(** What compaction keeps of the backend. *)
Definition b_compacted (R : Z) (m m' : kvmap) : Prop :=
  compactable m' ∧ compact_ok scfg m' ∧ pres R safe_key m m' ∧
  ∀ k r v, m' !! EncodeObjectKey k r = Some v → m !! EncodeObjectKey k r = Some v.

Lemma compact_result_step R m0 m m' :
  is_uint64 R → b_compacted R m0 m → compact_result scfg R m m' → b_compacted R m0 m'.
Proof using Hcfg.
  intros HR (Hc & Hok & Hp & Honly) Hres.
  assert (pres R safe_key m m') as Hp'.
  { apply (compact_result_pres scfg); [apply ckey_length | apply Hcfg | apply Hc | done]. }
  split; [|split; [|split; [by etrans|]]].
  3:{ intros k r v Hv. apply Honly. destruct Hres as [->|[Hsub _]]; [done|].
      eapply lookup_weaken in Hv; [|done]. unfold with_record in Hv. rewrite lookup_insert_ne in Hv; [done|].
      apply (compact_key_ne scfg). apply Hcfg. }
  - destruct Hres as [->|[Hsub _]]; [done|]. eapply compactable_sub; [done|].
    apply (with_record_compactable scfg); [apply ckey_length | apply Hcfg | done].
  - destruct Hres as [->|[Hsub _]]; [done|]. intros v Hv.
    eapply lookup_weaken in Hv; [|done]. unfold with_record in Hv.
    rewrite lookup_insert_eq in Hv. injection Hv as <-.
    change (8 <= length (uint64ToBytes R))%nat. by rewrite uint64ToBytes_length.
Qed.

Lemma wp_compact_ranges now ctx R borders m0 b :
  is_uint64 R → kv_inv (b_store b) → b_compacted R m0 (view b) →
  Forall border_ok borders → StronglySorted bytes_le borders → Nat.even (length borders) = true →
  wp (compact_ranges cfg now ctx R borders) (λ _ b',
    kv_inv (b_store b') ∧ tso b' = tso b ∧ b_compacted R m0 (view b')) b.
Proof using All.
  intros HR. remember (length borders) as n eqn:En. revert borders b En.
  induction n as [n IH] using lt_wf_ind. intros borders b En Hkv Hc Hok Hsort Heven.
  destruct borders as [|s [|e borders]]; [by apply wp_ret | by subst n |]. simpl.
  inversion Hok as [|? ? [His Has] Hok1]; subst. inversion Hok1 as [|? ? [_ Hae] Hok2]; subst.
  apply StronglySorted_inv in Hsort as [Hsort Hs]. apply Forall_cons in Hs as [Hse _].
  apply StronglySorted_inv in Hsort as [Hsort _].
  apply wp_bind. unfold on_scanner. apply wp_zoom.
  eapply wp_mono; [apply (wp_Compact scfg R); try done;
    [apply ckey_length | apply Hcfg | apply Hc]|].
  intros [] sc' [Hkv' Hres]. simpl.
  eapply wp_mono; [apply (IH (length borders)); try done; [simpl; lia|]|done].
  by eapply compact_result_step.
Qed.

Lemma wp_setCompactRecord R b :
  is_uint64 R → kv_inv (b_store b) → compactable (view b) → compact_ok scfg (view b) →
  wp (setCompactRecord cfg R) (λ _ b',
    kv_inv (b_store b') ∧ tso b' = tso b ∧ b_compacted R (view b) (view b') ∧
    (view b' = view b ∨ view b' = with_record scfg R (view b))) b.
Proof using Hcfg.
  intros HR Hkv Hc Hok.
  assert (∀ b' m', kv_inv (b_store b') → tso b' = tso b → view b' = m' →
    m' = view b ∨ m' = with_record scfg R (view b) →
    kv_inv (b_store b') ∧ tso b' = tso b ∧ b_compacted R (view b) (view b') ∧
    (view b' = view b ∨ view b' = with_record scfg R (view b))) as Hdone.
  { intros b' m' ? ? -> Hm. do 2 (split; [done|]). split; [|done].
    eapply compact_result_step; [done | split_and!; try done; by split_and! |]. destruct Hm as [->| ->]; [by left | right].
    by split. }
  assert (∀ s' op, kv_inv s' → kv_view s' = view b →
    bop_pre op (view b) → (∀ m', bop_apply op (view b) = Some m' → m' = with_record scfg R (view b)) →
    wp (on_kv (kv_commit [op])) (λ _ b', kv_inv (b_store b') ∧ tso b' = tso b ∧
      b_compacted R (view b) (view b') ∧
      (view b' = view b ∨ view b' = with_record scfg R (view b))) (put_store s' b)) as Hcommit.
  { intros s' op Hkv' Hv' Hpre Happ. apply wp_on_kv. eapply wp_mono; [apply kv_commit_spec; [done|]|].
    - change (b_store (put_store s' b)) with s'. by rewrite Hv'.
    - change (b_store (put_store s' b)) with s'. intros e s2 [Hkv2 Hp]. rewrite Hv' in Hp.
      eapply Hdone; [done..|]. change (view (put_store s2 (put_store s' b))) with (kv_view s2).
      assert (batch_apply [op] (view b) = Some (kv_view s2) → kv_view s2 = with_record scfg R (view b)) as Hb.
      { simpl. destruct (bop_apply op (view b)) eqn:E; [|done]. intros [= <-]. by apply Happ. }
      unfold commit_post in Hp. destruct e as [e|]; [destruct Hp as [|(_ & _ & ?)]|]; auto. }
  assert (view b !! ckey ≠ Some None) as Hnil.
  { intros E. specialize (Hok None E). simpl in Hok. lia. }
  unfold setCompactRecord. apply wp_bind, wp_on_kv. eapply wp_mono; [by apply kv_get_spec|].
  intros [val e] s' (Hkv' & Hv' & Hg). unfold get_post in Hg; simpl in Hg. destruct e as [ge|].
  - case_bool_decide as E; simpl; [|apply wp_ret; by eapply Hdone; auto].
    apply Hcommit; try done. intros m'. simpl.
    destruct (view b !! ckey); [done|]. by intros [= <-].
  - assert (8 <= length (content val))%nat as Hlen by by apply (Hok val).
    destruct (Z.ltb_spec 0 (slen val)); [|unfold slen in *; lia].
    apply wp_bind. unfold Uint64. destruct (Nat.leb_spec 8 (length (content val))); [|lia].
    eapply wp_lift_opt; [done|]. destruct (_ <? _); [apply wp_ret; by eapply Hdone; auto|].
    apply Hcommit; try done. intros m'. simpl. change (kv_view (b_store b)) with (view b) in Hg.
    rewrite Hg, bytes_eqb_refl. by intros [= <-].
Qed.

Lemma compact_revision_bounds rev (b : backend S) :
  is_uint64 rev → 0 <= committedRevision (tso b) → 0 <= MinRevision (asyncFifoRetry b) →
  0 <= compact_revision rev b <= committedRevision (tso b) ∧
  (MinRevision (asyncFifoRetry b) ≠ 0 → compact_revision rev b < MinRevision (asyncFifoRetry b)) ∧
  (0 < rev → compact_revision rev b <= rev).
Proof.
  intros Hu Hc Hm. unfold compact_revision, minUint64, is_uint64 in *.
  destruct (Z.eqb_spec rev 0), (Z.ltb_spec (committedRevision (tso b)) rev),
    (Z.eqb_spec (MinRevision (asyncFifoRetry b)) 0); simpl; try lia;
    match goal with |- context [?x <? ?y] => destruct (Z.ltb_spec x y) end; lia.
Qed.

Lemma wp_Compact_backend now ctx rev b :
  kv_inv (b_store b) → compactable (view b) → compact_ok scfg (view b) →
  is_uint64 (compact_revision rev b) →
  wp (Backend.Compact cfg now ctx rev) (λ r b',
    kv_inv (b_store b') ∧ tso b' = tso b ∧ r.1 = compact_revision rev b ∧
    b_compacted r.1 (view b) (view b')) b.
Proof using All.
  intros Hkv Hc Hok HR. unfold Backend.Compact. wp_steps. unfold compact. apply wp_bind.
  eapply wp_mono; [by apply wp_setCompactRecord|]. intros e b1 (Hkv1 & Ht1 & Hc1 & _).
  destruct e as [e|]; [by wp_steps|]. apply wp_bind.
  destruct compact_borders_ok as (Hb1 & Hb2 & Hb3).
  eapply wp_mono; [by eapply wp_compact_ranges|]. intros [] b2 (Hkv2 & Ht2 & Hc2).
  wp_steps. split; [done|]. split; [congruence|]. done.
Qed.
End compact_backend.

(** Compaction keeps the records of safe keys in step with their versions. *)
Lemma pres_key_wf R (P : bytes → Prop) m m' k :
  P k → valid_key k → R <= max_uint64 → store_ok m → store_ok m' →
  (∀ k r v, m' !! EncodeObjectKey k r = Some v → m !! EncodeObjectKey k r = Some v) →
  pres R P m m' → key_wf m k → key_wf m' k.
Proof.
  intros HPk Hk HR Hm Hm' Hsub Hp Hwf. pose proof max_is_uint64 as Hmax.
  destruct (Hp k HPk) as [Hvis Hrec]. specialize (Hvis max_uint64 HR Hmax).
  assert (dead m k → dead m' k) as Hdead by (rewrite !dead_visible by done; congruence).
  destruct Hwf as [E Hd|r v E Hl Ht|r E Hr Hd Hb].
  - apply kw_absent; [|auto]. destruct Hrec as [?|[? _]]; congruence.
  - assert (visible m k max_uint64 = Some (r, v)) as Hv by by apply visible_Some.
    rewrite <-Hvis in Hv. apply visible_Some in Hv as [Hl' _]; try done.
    apply (kw_live _ _ r v); try done. destruct Hrec as [?|(_ & w & Ew & Hw)]; [congruence|].
    rewrite E in Ew. injection Ew as <-. change (length (uint64ToBytes r) = 9%nat) in Hw.
    by rewrite uint64ToBytes_length in Hw.
  - destruct Hrec as [E'|[E' _]].
    + apply (kw_dead _ _ r); [congruence | done | auto|]. intros q w Hq Hqr.
      apply (Hb q w); [|done]. by apply Hsub.
    + apply kw_absent; auto.
Qed.
