(* ===== verification/Concurrent.v ===== *)
(** The backend's operations as sequences of atomic steps, and their
    interleavings.

    A handler of pkg/backend runs in a goroutine of its own; what it shares with
    the others are the engine, the revision generator and the event buffer.  A
    program is a tree of atomic accesses: one call of the engine, one [Deal], one
    [notify].  The program of each handler is shown to be the handler: run
    without interruption it does the same (for the reads of ranges and for
    compactions in ScanProg.v).  A state of the pool has the programs of the
    requests, of the retry loop and of the compactions, and the collector. *)

From S2P Require Import Prelude GoMonad Prog Storage Coder Proto Tso Ring Queue Mvcc Creator Scanner.
From S2P Require Import ScanSpec Backend BackendSpec BackendReads Refinement WorkerProg ScanProg.

(** * The handlers *)

Section programs.
Context {S : Type} `{KvStorage S}.
Local Abbreviation P := (prog (backend S)).

Definition create_over_p (key : bytes) (val : slice) (revision ttl : Z) (oldRev : slice)
    : P (option err) :=
  let '(prevRevision, isTombstone, parseErr) := ParseRevision (content oldRev) in
  match parseErr with
  | Some e => mret (Some e)
  | None =>
      if isTombstone && (prevRevision <? revision)
      then call (Creator.update (EncodeRevisionKey key) (EncodeObjectKey key revision) val
                   (Some (uint64ToBytes revision)) oldRev ttl)
      else mret (Some ErrCASFailed)
  end.

Definition create_reread_p (key : bytes) (val : slice) (revision ttl : Z) : P (option err) :=
  '(oldRev, gerr) ← call (kv_get (EncodeRevisionKey key));
  match gerr with
  | Some ge =>
      if err_is ge ErrKeyNotFound
      then call (Creator.create (EncodeRevisionKey key) (EncodeObjectKey key revision) val
                   (Some (uint64ToBytes revision)) ttl)
      else mret (Some ErrUnavailable)
  | None => create_over_p key val revision ttl oldRev
  end.

Definition CreateWithTTL_p (key : bytes) (val : slice) (revision ttl : Z) : P (option err) :=
  e ← call (Creator.create (EncodeRevisionKey key) (EncodeObjectKey key revision) val
              (Some (uint64ToBytes revision)) ttl);
  match e with
  | None => mret None
  | Some err =>
      if err_is err ErrCASFailed then
        match err with
        | Conflict 0 _ v => create_over_p key val revision ttl v
        | _ => create_reread_p key val revision ttl
        end
      else mret (Some err)
  end.

Definition create_p (key : bytes) (value : slice) (lease : Z) : P (Z * option err) :=
  '(revision, e) ← atom (deal 0);
  match e with
  | Some _ => mret (0, e)
  | None =>
      e ← CreateWithTTL_p key value revision (if contains key events then eventsTTL else lease);
      mret (revision, e)
  end.

Definition Create_p (put : CreateRequest) : P (option CreateResponse * option err) :=
  '(revision, e) ← create_p (cr_Key put) (cr_Value put) (cr_Lease put);
  _ ← atom (notify (cr_Key put) (cr_Value put) revision 0 (is_ok e) CREATE e);
  if is_err e ErrCASFailed then mret (Some (mkCreateResponse revision false), None)
  else match e with
       | Some _ => mret (None, e)
       | None => mret (Some (mkCreateResponse revision true), None)
       end.

Definition update_p (oldRevision : Z) (key : bytes) (value : slice) : P (Z * option err) :=
  '(newRevision, e) ← atom (deal oldRevision);
  match e with
  | Some _ => mret (0, e)
  | None =>
      e ← call (kv_commit
            [CAS (EncodeRevisionKey key) (Some (uint64ToBytes newRevision))
               (Some (uint64ToBytes oldRevision)) 0;
             Put (EncodeObjectKey key newRevision) value 0]);
      mret (newRevision, e)
  end.

(** The answer to an update reads the key at most once. *)
Definition Update_p (r : UpdateRequest) : P (option UpdateResponse * option err) :=
  let key := kv_Key (ur_Kv r) in
  let value := kv_Value (ur_Kv r) in
  let prevRev := kv_Revision (ur_Kv r) in
  '(curRev, e) ← (if prevRev =? 0 then create_p key value (ur_Lease r) else update_p prevRev key value);
  _ ← atom (notify key value curRev prevRev (is_ok e) (if prevRev =? 0 then CREATE else PUT) e);
  atom (update_reply key curRev e).

Definition delete_p (oldRevision : Z) (key : bytes) : P (Z * KeyVal * option err) :=
  '(oldVal, modRevision, e) ← atom (get key 0);
  match e with
  | Some _ => getRev ← atom (mustDeal oldRevision); mret (getRev, emptyKeyVal, e)
  | None =>
      '(newRevision, e) ← atom (deal oldRevision);
      match e with
      | Some _ => mret (0, emptyKeyVal, e)
      | None =>
          let old := mkKeyVal key oldVal modRevision in
          if (0 <? oldRevision) && negb (oldRevision =? modRevision)
          then mret (newRevision, old, Some ErrCASFailed)
          else
            let expectedRevision := if oldRevision <=? 0 then modRevision else oldRevision in
            if newRevision <=? modRevision
            then mret (newRevision, old, Some (Errorf "cas failed, new revision is not above the existing revision"))
            else
              e ← call (kv_commit
                    [CAS (EncodeRevisionKey key) (Some (uint64ToBytes newRevision ++ [Byte.x00]))
                       (Some (uint64ToBytes expectedRevision)) 0;
                     Put (EncodeObjectKey key newRevision) (Some tombStoneBytes) 0]);
              mret (newRevision, old, e)
      end
  end.

Definition Delete_p (r : DeleteRequest) : P (option DeleteResponse * option err) :=
  '(rev, old, e) ← delete_p (dr_Revision r) (dr_Key r);
  _ ← atom (notify (dr_Key r) (kvl_Val old) rev (kvl_Revision old) (is_ok e) DELETE e);
  atom (delete_reply (dr_Key r) rev old e).

(** [Get] loads the read revision, then reads. *)
Definition Get_p (r : GetRequest) : P (option GetResponse * option err) :=
  curRev ← atom (on_tso GetRevision);
  '(val, modRev, e) ← atom (get (gr_Key r) (gr_Revision r));
  match e with
  | Some e =>
      if bool_decide (e = ErrKeyNotFound) then mret (Some (mkGetResponse curRev None), None)
      else mret (None, Some e)
  | None =>
      let curRev := if curRev <? modRev then modRev else curRev in
      mret (Some (mkGetResponse curRev
                    (match val with
                     | Some _ => Some (mkKV (gr_Key r) val modRev)
                     | None => None
                     end)), None)
  end.

Definition request_p (q : request) : P response :=
  match q with
  | RCreate r => x ← Create_p r; mret (SCreate x)
  | RUpdate r => x ← Update_p r; mret (SUpdate x)
  | RDelete r => x ← Delete_p r; mret (SDelete x)
  | RGet r => x ← Get_p r; mret (SGet x)
  end.

Definition overwrite_p (key : bytes) (prevOpRev : Z) : P (Z * option err) :=
  '(val, modRev, e) ← atom (getLatestInternalVal key);
  match e with
  | Some e => if bool_decide (e = ErrKeyNotFound) then mret (0, None) else mret (0, Some e)
  | None =>
      if (slen val =? 0) || negb (modRev =? prevOpRev) then mret (0, None)
      else
        rev ← atom (on_tso Deal);
        let flag := if bytes_eqb (content val) tombStoneBytes then [Byte.x00] else [] in
        e ← call (kv_commit
              [CAS (EncodeRevisionKey key) (Some (uint64ToBytes rev ++ flag))
                 (Some (uint64ToBytes prevOpRev ++ flag)) 0;
               Put (EncodeObjectKey key rev) val 0]);
        mret (rev, e)
  end.

Definition retry_p (now : Z) : P bool :=
  node ← atom (gets (λ b, getHead (asyncFifoRetry b)));
  match node with
  | None => mret true
  | Some node =>
      if now - n_time node <? RetryInterval then mret true
      else
        let ev := n_event node in
        '(rev, e) ← overwrite_p (we_Key ev) (we_Revision ev);
        let finish := atom (zoom asyncFifoRetry set_queue
                        (λ q, match pop q with Some q' => Some (q', false) | None => None end)) in
        if rev =? 0 then
          match e with Some _ => mret true | None => finish end
        else
          _ ← atom (notify (we_Key ev) (we_Value ev) rev (we_PrevRevision ev) (is_ok e)
                      (we_ResourceVerb ev) e);
          finish
  end.

(** * A program without interruption is its handler *)

Lemma run_create_over key val revision ttl oldRev b :
  run_prog (create_over_p key val revision ttl oldRev) b =
  on_kv (create_over key val revision ttl oldRev) b.
Proof.
  unfold create_over_p, create_over. destruct (ParseRevision _) as [[prev dead] [e|]];
    [by rewrite on_kv_ret|].
  destruct (_ && _); [apply run_call | by rewrite on_kv_ret].
Qed.

Lemma run_create_reread key val revision ttl b :
  run_prog (create_reread_p key val revision ttl) b = on_kv (create_reread key val revision ttl) b.
Proof.
  unfold create_reread_p, create_reread. rewrite run_prog_bind, on_kv_bind.
  apply bind_ext; [apply run_call|]. intros [old [e|]] b'; [|apply run_create_over].
  destruct (err_is e _); [apply run_call | by rewrite on_kv_ret].
Qed.

Lemma run_CreateWithTTL key val revision ttl b :
  run_prog (CreateWithTTL_p key val revision ttl) b = on_kv (CreateWithTTL key val revision ttl) b.
Proof.
  unfold CreateWithTTL_p, CreateWithTTL. rewrite run_prog_bind, on_kv_bind.
  apply bind_ext; [apply run_call|]. intros [e|] b'; [|by rewrite on_kv_ret].
  destruct (err_is e _); [|by rewrite on_kv_ret].
  destruct e; try apply run_create_reread. destruct idx; [apply run_create_over | apply run_create_reread].
Qed.

Lemma run_create key value lease b : run_prog (create_p key value lease) b = Backend.create key value lease b.
Proof.
  unfold create_p, Backend.create. rewrite run_prog_bind.
  apply bind_ext; [apply run_prog_atom|]. intros [rev [e|]] b'; [done|].
  rewrite run_prog_bind. apply bind_ext; [|done]. rewrite run_CreateWithTTL.
  destruct (Z.eqb_spec (if contains key events then eventsTTL else lease) 0) as [->|]; done.
Qed.

Lemma run_update old key value b : run_prog (update_p old key value) b = Backend.update old key value b.
Proof.
  unfold update_p, Backend.update. rewrite run_prog_bind.
  apply bind_ext; [apply run_prog_atom|]. intros [rev [e|]] b'; [done|].
  rewrite run_prog_bind. apply bind_ext; [apply run_call | done].
Qed.

Lemma run_delete old key b : run_prog (delete_p old key) b = Backend.delete old key b.
Proof.
  unfold delete_p, Backend.delete. rewrite run_prog_bind.
  apply bind_ext; [apply run_prog_atom|]. intros [[val mr] [e|]] b'.
  - rewrite run_prog_bind. apply bind_ext; [apply run_prog_atom | done].
  - rewrite run_prog_bind. apply bind_ext; [apply run_prog_atom|]. intros [rev [e|]] b1; [done|].
    destruct (_ && _); [done|]. destruct (_ <=? _); [done|].
    rewrite run_prog_bind. apply bind_ext; [apply run_call | done].
Qed.

Lemma run_overwrite key prev b : run_prog (overwrite_p key prev) b = overwrite key prev b.
Proof.
  unfold overwrite_p, overwrite. rewrite run_prog_bind.
  apply bind_ext; [apply run_prog_atom|]. intros [[val mr] [e|]] b'; [by destruct (bool_decide _)|].
  destruct (_ || _); [done|].
  rewrite run_prog_bind. apply bind_ext; [apply run_prog_atom|]. intros rev b1.
  rewrite run_prog_bind. apply bind_ext; [apply run_call | done].
Qed.

Lemma run_request q b : run_prog (request_p q) b = b_step q b.
Proof.
  destruct q as [r|r|r|r]; cbn [request_p b_step]; rewrite run_prog_bind; (apply bind_ext; [|done]).
  - unfold Create_p, Backend.Create. rewrite run_prog_bind. apply bind_ext; [apply run_create|].
    intros [rev e] b1. rewrite run_prog_bind. apply bind_ext; [apply run_prog_atom|].
    intros [] b2. destruct (is_err _ _); [done | by destruct e].
  - unfold Update_p, Update. rewrite run_prog_bind. destruct (Z.eqb_spec (kv_Revision (ur_Kv r)) 0) as [E0|E0];
      (apply bind_ext; [first [apply run_create | apply run_update]|]); intros [rev er] b1;
      rewrite run_prog_bind; (apply bind_ext; [apply run_prog_atom|]); intros [] b2; apply run_prog_atom.
  - unfold Delete_p, Delete. rewrite run_prog_bind. apply bind_ext; [apply run_delete|].
    intros [[rev old] e] b1. rewrite run_prog_bind. apply bind_ext; [apply run_prog_atom|].
    intros [] b2. apply run_prog_atom.
  - unfold Get_p, Get. rewrite run_prog_bind. apply bind_ext; [apply run_prog_atom|]. intros cur b1.
    rewrite run_prog_bind. apply bind_ext; [apply run_prog_atom|]. intros [[val mr] [e|]] b2; [|done].
    by destruct (bool_decide _).
Qed.

Lemma run_retry now b : run_prog (retry_p now) b = retry now b.
Proof.
  unfold retry_p, retry. rewrite run_prog_bind. apply bind_ext; [apply run_prog_atom|].
  intros [node|] b1; [|done]. destruct (_ <? _); [done|].
  rewrite run_prog_bind. apply bind_ext; [apply run_overwrite|]. intros [rev e] b2.
  destruct (rev =? 0); [destruct e; [done | apply run_prog_atom]|].
  rewrite run_prog_bind. apply bind_ext; [apply run_prog_atom|]. intros [] b3. apply run_prog_atom.
Qed.

(** * Interleavings *)

(** The goroutines that are running, with what each was started for; a step that
    panics does not exist.  The retry loop calls [retry] again after [false]. *)
Inductive task :=
  | TRequest (q : request) (p : P response)
  | TRetry (now : Z) (p : P bool)
  | TList (r : RangeRequest) (p : P (option RangeResponse * option err))
  | TCount (r : CountRequest) (p : P (option CountResponse * option err))
  (** a streamed range, with the read revision at the moment it was asked for *)
  | TStream (k e : bytes) (rev since : Z) (p : P (list (list StreamRangeResponse) * StreamRangeResponse))
  (** a compaction that chooses its revision, and one at a revision *)
  | TChoose (revision : Z) (p : P Z)
  | TCompact (R : Z) (p : P (option err)).

Record pool := mkPool { po_b : backend S; po_tasks : list task; po_pending : list Event }.

Inductive tstep : task → backend S → task → backend S → Prop :=
  | ts_request q B (m : GoM (backend S) B) k b b' x :
      m b = Some (b', x) → tstep (TRequest q (Do m k)) b (TRequest q (k x)) b'
  | ts_retry now B (m : GoM (backend S) B) k b b' x :
      m b = Some (b', x) → tstep (TRetry now (Do m k)) b (TRetry now (k x)) b'
  | ts_list r B (m : GoM (backend S) B) k b b' x :
      m b = Some (b', x) → tstep (TList r (Do m k)) b (TList r (k x)) b'
  | ts_count r B (m : GoM (backend S) B) k b b' x :
      m b = Some (b', x) → tstep (TCount r (Do m k)) b (TCount r (k x)) b'
  | ts_stream key e rev since B (m : GoM (backend S) B) k b b' x :
      m b = Some (b', x) → tstep (TStream key e rev since (Do m k)) b (TStream key e rev since (k x)) b'
  | ts_choose rev B (m : GoM (backend S) B) k b b' x :
      m b = Some (b', x) → tstep (TChoose rev (Do m k)) b (TChoose rev (k x)) b'
  | ts_compact R B (m : GoM (backend S) B) k b b' x :
      m b = Some (b', x) → tstep (TCompact R (Do m k)) b (TCompact R (k x)) b'.

Inductive cstep : pool → pool → Prop :=
  | cs_task b b' t t' ts1 ts2 pend :
      dealRevision (tso b) + 1 < two63 → tstep t b t' b' →
      cstep (mkPool b (ts1 ++ t :: ts2) pend) (mkPool b' (ts1 ++ t' :: ts2) pend)
  | cs_request b q ts pend :
      request_ok q → cstep (mkPool b ts pend) (mkPool b (ts ++ [TRequest q (request_p q)]) pend)
  | cs_retry b now ts pend :
      cstep (mkPool b ts pend) (mkPool b (ts ++ [TRetry now (retry_p now)]) pend)
  | cs_list b cfg sched ctx r ts pend :
      list_ok r → cstep (mkPool b ts pend) (mkPool b (ts ++ [TList r (List_p cfg sched ctx r)]) pend)
  | cs_count b cfg sched ctx r ts pend :
      count_ok r → EnableEtcdCompatibility cfg = true →
      cstep (mkPool b ts pend) (mkPool b (ts ++ [TCount r (Count_p cfg sched ctx r)]) pend)
  | cs_stream b cfg sched ctx k e rev ts pend :
      stream_ok k e rev →
      cstep (mkPool b ts pend)
            (mkPool b (ts ++ [TStream k e rev (committedRevision (tso b))
               (ListByStream_p cfg sched ctx (EncodeObjectKey k 0) (EncodeObjectKey e 0) rev)]) pend)
  | cs_choose b rev ts pend :
      is_uint64 rev → cstep (mkPool b ts pend) (mkPool b (ts ++ [TChoose rev (choose_p rev)]) pend)
  | cs_compact b cfg now sched ctx rev R ts1 ts2 pend :
      config_ok cfg →
      cstep (mkPool b (ts1 ++ TChoose rev (Done R) :: ts2) pend)
            (mkPool b (ts1 ++ TCompact R (compact_p cfg now sched ctx R) :: ts2) pend)
  | cs_collect b b' now ts pend pend' :
      dealRevision (tso b) + 1 < two63 → collect_iter now pend b = Some (b', pend') →
      cstep (mkPool b ts pend) (mkPool b' ts pend').

(** The greatest revision a compaction has started at. *)
Definition compacting (t : task) : Z := match t with TCompact R _ => R | _ => 0 end.

Definition floor (p : pool) : Z := foldr Z.max 0 (compacting <$> po_tasks p).

(** ** Schedules *)

(** One step of the task at position [i]. *)
Definition step_task (t : task) (b : backend S) : option (task * backend S) :=
  match t with
  | TRequest q (Do m k) => match m b with Some (b', x) => Some (TRequest q (k x), b') | None => None end
  | TRetry now (Do m k) => match m b with Some (b', x) => Some (TRetry now (k x), b') | None => None end
  | TList r (Do m k) => match m b with Some (b', x) => Some (TList r (k x), b') | None => None end
  | TCount r (Do m k) => match m b with Some (b', x) => Some (TCount r (k x), b') | None => None end
  | TStream key e rev since (Do m k) =>
      match m b with Some (b', x) => Some (TStream key e rev since (k x), b') | None => None end
  | TChoose rev (Do m k) => match m b with Some (b', x) => Some (TChoose rev (k x), b') | None => None end
  | TCompact R (Do m k) => match m b with Some (b', x) => Some (TCompact R (k x), b') | None => None end
  | _ => None
  end.

Definition sched_step (i : nat) (p : pool) : option pool :=
  t ← po_tasks p !! i;
  if dealRevision (tso (po_b p)) + 1 <? two63 then
    '(t', b') ← step_task t (po_b p); Some (mkPool b' (<[i := t']> (po_tasks p)) (po_pending p))
  else None.

(** A schedule: the next access of a task, or an iteration of the collector. *)
Inductive move := Run (i : nat) | Collect (now : Z).

Definition play (m : move) (p : pool) : option pool :=
  match m with
  | Run i => sched_step i p
  | Collect now =>
      if dealRevision (tso (po_b p)) + 1 <? two63 then
        '(b', pend') ← collect_iter now (po_pending p) (po_b p); Some (mkPool b' (po_tasks p) pend')
      else None
  end.

Fixpoint schedule (l : list move) (p : pool) : option pool :=
  match l with
  | [] => Some p
  | m :: l' => p' ← play m p; schedule l' p'
  end.

Lemma step_task_tstep t b t' b' : step_task t b = Some (t', b') → tstep t b t' b'.
Proof.
  destruct t as [q [x|B m k]|now [x|B m k]|r [x|B m k]|r [x|B m k]|key e rev since [x|B m k]
    |rev [x|B m k]|R [x|B m k]]; simpl; try done;
    destruct (m b) as [[b1 x]|] eqn:E; try done; intros [= <- <-]; by constructor.
Qed.

Lemma sched_step_cstep i p p' : sched_step i p = Some p' → cstep p p'.
Proof.
  destruct p as [b ts pend]. unfold sched_step. simpl. destruct (ts !! i) as [t|] eqn:Ei; [|done]. simpl.
  destruct (Z.ltb_spec (dealRevision (tso b) + 1) two63) as [Hroom|]; [|done].
  destruct (step_task t b) as [[t' b']|] eqn:Es; [|done]. simpl. intros [= <-].
  rewrite <-(take_drop_middle ts i t Ei) at 1. rewrite insert_take_drop by by eapply lookup_lt_Some.
  apply cs_task; [done|]. by apply step_task_tstep.
Qed.

Lemma play_cstep m p p' : play m p = Some p' → cstep p p'.
Proof.
  destruct m as [i|now]; [apply sched_step_cstep|]. destruct p as [b ts pend]. simpl.
  destruct (Z.ltb_spec (dealRevision (tso b) + 1) two63) as [Hroom|]; [|done].
  destruct (collect_iter now pend b) as [[b' pend']|] eqn:E; [|done]. intros [= <-]. by eapply cs_collect.
Qed.

Lemma schedule_reach l p p' : schedule l p = Some p' → rtc cstep p p'.
Proof.
  revert p. induction l as [|m l IH]; simpl; intros p; [intros [= ->]; apply rtc_refl|].
  destruct (play m p) as [p1|] eqn:E; [|done]. intros Hl.
  eapply rtc_l; [by eapply play_cstep | by apply IH].
Qed.

Lemma schedule_end l p : rtc cstep p (default p (schedule l p)).
Proof. destruct (schedule l p) eqn:E; [by eapply schedule_reach | apply rtc_refl]. Qed.

(** Requests that arrive. *)
Lemma arrive_reach qs b ts pend :
  Forall request_ok qs →
  rtc cstep (mkPool b ts pend) (mkPool b (ts ++ ((λ q, TRequest q (request_p q)) <$> qs)) pend).
Proof.
  intros Hq. revert ts. induction Hq as [|q qs Hq _ IH]; intros ts; simpl; [rewrite app_nil_r; apply rtc_refl|].
  eapply rtc_l; [by apply cs_request|]. specialize (IH (ts ++ [TRequest q (request_p q)])).
  by rewrite <-app_assoc in IH.
Qed.
End programs.
