(* ===== verification/CompactRange.v ===== *)
(** Which user keys a compaction touches: those that an odd number of the
    configured prefixes cover.

    The borders of all prefixes are sorted together and taken in pairs, so that a
    key is in one of the ranges exactly when an odd number of borders is at or
    below it. *)

From S2P Require Import Prelude GoMonad Storage Coder Proto Tso Ring Queue Mvcc Creator Scanner ScanSpec.
From S2P Require Import ScanRead Compaction Backend BackendSpec BackendReads.

(** * Pairs of borders *)

(** [x] is in one of the ranges that successive pairs of borders make. *)
Fixpoint in_pairs (x : bytes) (borders : list bytes) : Prop :=
  match borders with
  | s :: e :: borders' => (bytes_le s x ∧ bytes_lt x e) ∨ in_pairs x borders'
  | _ => False
  end.

(** How many of the borders are at or below [x]. *)
Definition at_or_below (x : bytes) (borders : list bytes) : nat :=
  length (filter (λ b, bytes_le b x) borders).

Lemma at_or_below_cons x b l :
  at_or_below x (b :: l) = (if decide (bytes_le b x) then S (at_or_below x l) else at_or_below x l).
Proof. unfold at_or_below. rewrite filter_cons. by case_decide. Qed.

Lemma at_or_below_app x l k : at_or_below x (l ++ k) = (at_or_below x l + at_or_below x k)%nat.
Proof. unfold at_or_below. by rewrite filter_app, length_app. Qed.

Lemma at_or_below_none x b l :
  StronglySorted bytes_le (b :: l) → bytes_lt x b → at_or_below x (b :: l) = 0%nat ∧ ¬ in_pairs x (b :: l).
Proof.
  intros Hs Hx. assert (∀ y, y ∈ b :: l → bytes_lt x y) as Hall.
  { apply StronglySorted_inv in Hs as [_ Hf]. rewrite Forall_forall in Hf.
    intros y [->|Hy]%elem_of_cons; [done|]. specialize (Hf y Hy).
    apply bytes_le_lteq in Hf as [?|<-]; [by etrans | done]. }
  split.
  - unfold at_or_below. apply length_zero_iff_nil, filter_none, Forall_forall.
    intros y Hy Hle. apply bytes_not_lt in Hle. by apply Hle, Hall.
  - clear Hs Hx. remember (b :: l) as k eqn:E. clear E b l. remember (length k) as n eqn:En.
    revert k En Hall. induction n as [n IH] using lt_wf_ind. intros [|s [|e k]] En Hall; [by intros []..|].
    intros [[Hle _]|Hin].
    + apply bytes_not_lt in Hle. apply Hle, Hall. left.
    + eapply (IH (length k)); [|done| |exact Hin]; [simpl in En; lia|].
      intros y Hy. apply Hall. by do 2 right.
Qed.

(** A key is in one of the ranges iff an odd number of borders is at or below it. *)
Lemma in_pairs_odd x borders :
  StronglySorted bytes_le borders → Nat.even (length borders) = true →
  in_pairs x borders ↔ Nat.odd (at_or_below x borders) = true.
Proof.
  remember (length borders) as n eqn:En. revert borders En. induction n as [n IH] using lt_wf_ind.
  intros [|s [|e l]] -> Hs Hev; [done|done|].
  destruct (decide (bytes_le s x)) as [Hsx|Hsx].
  2:{ apply bytes_not_le in Hsx. destruct (at_or_below_none x s (e :: l) Hs Hsx) as [-> Hn].
      split; [by intros ?%Hn | done]. }
  rewrite at_or_below_cons, decide_True by done. apply StronglySorted_inv in Hs as [Hs _].
  destruct (decide (bytes_le e x)) as [Hex|Hex].
  - rewrite at_or_below_cons, decide_True by done.
    change (Nat.odd (S (S (at_or_below x l)))) with (Nat.odd (at_or_below x l)). cbn [in_pairs]. apply StronglySorted_inv in Hs as [Hs _].
    rewrite <-(IH (length l)) by (done || simpl; lia). split; [|by right].
    intros [[_ Hlt]|?]; [|done]. by apply bytes_not_lt in Hex.
  - apply bytes_not_le in Hex. destruct (at_or_below_none x e l Hs Hex) as [-> _].
    split; [done|]. intros _. by left.
Qed.

(** * The borders of prefixes *)

Lemma single_le x c k : bytes_le [x] (c :: k) ↔ bval x <= bval c.
Proof.
  unfold bytes_le. simpl. destruct (Z.compare_spec (bval x) (bval c)); [|split; (done || lia)..].
  split; [lia|]. by destruct k.
Qed.

Lemma le_nil x l : ¬ bytes_le (x :: l) [].
Proof. intros Hle. by apply Hle. Qed.

Lemma cons_le x c q k : bytes_le (x :: q) (c :: k) ↔ bval x < bval c ∨ x = c ∧ bytes_le q k.
Proof.
  unfold bytes_le. simpl. destruct (Z.compare_spec (bval x) (bval c)) as [E|E|E].
  - apply bval_inj in E as ->. split; [by right | by intros [?|[_ ?]]; [lia|]].
  - split; [by left | done].
  - split; [done|]. intros [?|[-> _]]; lia.
Qed.

(** The keys between a prefix that ends in a slash and the end of its range are
    those with the prefix. *)
Lemma prefix_interval q k :
  bytes_le (q ++ str "/") k ∧ ¬ bytes_le (q ++ str "0") k ↔ (q ++ str "/") `prefix_of` k.
Proof.
  revert k. induction q as [|x q IH]; intros [|c k];
    try (split; [by intros [?%le_nil _] | by intros ?%prefix_nil_not]).
  - change ([] ++ str "/") with [Byte.x2f]. change ([] ++ str "0") with [Byte.x30]. rewrite !single_le.
    change (bval Byte.x2f) with 47. change (bval Byte.x30) with 48. split.
    + intros [H1 H2]. assert (bval c = bval Byte.x2f) as ->%bval_inj by (change (bval Byte.x2f) with 47; lia).
      apply prefix_cons, prefix_nil.
    + intros Hp. pose proof (prefix_cons_inv_1 _ _ _ _ Hp) as <-. change (bval Byte.x2f) with 47. lia.
  - rewrite <-!app_comm_cons, !cons_le. specialize (IH k). split.
    + intros [[Hlt|[-> Hle]] Hn]; [by destruct Hn; left|]. apply prefix_cons, IH. split; [done|].
      intros Hle'. apply Hn. by right.
    + intros Hp. pose proof (prefix_cons_inv_1 _ _ _ _ Hp) as ->. apply prefix_cons_inv_2, IH in Hp as [H1 H2].
      split; [by right|]. intros [?|[_ ?]]; [lia | done].
Qed.

(** A configured prefix covers the keys below it. *)
Definition covers (k p : bytes) : Prop := slash p `prefix_of` k.

#[global] Instance covers_dec k p : Decision (covers k p).
Proof. unfold covers. apply _. Defined.

Definition coverage (k : bytes) (ps : list bytes) : nat := length (filter (covers k) ps).

Lemma border_le_user k p : valid_key k → valid_key p →
  bytes_le (EncodeObjectKey p 0) (EncodeRevisionKey k) ↔ bytes_le p k.
Proof.
  intros Hk Hp. unfold EncodeRevisionKey. rewrite EncodeObjectKey_le by done.
  rewrite bytes_le_lteq. split; [intros [?|[? _]]; auto | intros [?|?]; [by left | right; split; [done|lia]]].
Qed.

Lemma border_parity k p : valid_key k → valid_key p →
  Nat.odd (at_or_below (EncodeRevisionKey k) (compact_border p)) = bool_decide (covers k p).
Proof.
  intros Hk Hp. unfold compact_border. fold (slash p). destruct (valid_slash p Hp) as [Hs He].
  rewrite !at_or_below_cons. destruct (slash_spec p) as [q E].
  assert (covers k p ↔ (q ++ str "/") `prefix_of` k) as Hcov by (unfold covers; by rewrite E).
  rewrite E in Hs, He |- *.
  rewrite PrefixEnd_slash in He |- *. pose proof (prefix_interval q k) as Hi.
  pose proof (border_le_user k _ Hk Hs) as Hls. pose proof (border_le_user k _ Hk He) as Hle.
  assert (bytes_le (q ++ str "0") k → bytes_le (q ++ str "/") k) as Hmono.
  { intros Hq. eapply bytes_le_trans; [|exact Hq]. unfold bytes_le. by rewrite bytes_compare_app. }
  change (at_or_below _ []) with 0%nat.
  destruct (decide (bytes_le (EncodeObjectKey (q ++ str "/") 0) _)) as [H1|H1],
    (decide (bytes_le (EncodeObjectKey (q ++ str "0") 0) _)) as [H2|H2]; simpl; symmetry;
    (apply bool_decide_eq_true_2 || apply bool_decide_eq_false_2); tauto.
Qed.

Lemma borders_parity k ps : valid_key k → Forall valid_key ps →
  Nat.odd (at_or_below (EncodeRevisionKey k) (concat (compact_border <$> ps))) = Nat.odd (coverage k ps).
Proof.
  intros Hk. induction 1 as [|p ps Hp Hps IH]; [done|]. rewrite fmap_cons. cbn [concat].
  rewrite at_or_below_app, Nat.odd_add, border_parity, IH by done. unfold coverage. rewrite filter_cons.
  case_decide as E.
  - rewrite bool_decide_eq_true_2 by done. cbn [length]. rewrite Nat.odd_succ, <-Nat.negb_odd. by destruct (Nat.odd _).
  - rewrite bool_decide_eq_false_2 by done. by destruct (Nat.odd _).
Qed.

(** The user keys in the ranges of a compaction. *)
Definition compacted_key (cfg : Backend.Config) (k : bytes) : Prop :=
  in_pairs (EncodeRevisionKey k) (getCompactBorders cfg).

Lemma compacted_key_odd cfg k :
  config_ok cfg → valid_key k →
  compacted_key cfg k ↔ Nat.odd (coverage k (Prefix cfg :: SkippedPrefixes cfg)) = true.
Proof.
  intros Hcfg Hk. destruct (compact_borders_ok cfg Hcfg) as (_ & Hs & Hev). unfold compacted_key.
  rewrite in_pairs_odd by done. rewrite <-borders_parity by (done || apply Hcfg).
  unfold getCompactBorders, at_or_below. by rewrite merge_sort_Permutation.
Qed.

(** * What a compaction leaves alone *)

Section framed.
Context {S : Type} `{KvSpec S} `{!KvPartitions S} `{Backoff}.
(** The internal keys that may change. *)
Context (P : bytes → Prop).

Definition agree (m m' : kvmap) : Prop := ∀ ik, ¬ P ik → m' !! ik = m !! ik.

#[local] Instance agree_refl : Reflexive agree.
Proof. by intros m ik. Qed.
#[local] Instance agree_trans : Transitive agree.
Proof. intros m1 m2 m3 Ha Hb ik Hik. by rewrite Hb, Ha. Qed.

(** [m], run on a state in which [get] finds the engine, changes no other keys and
    returns a result with [R]. *)
Definition framed {T A} (get : T → S) (m : GoM T A) (R : A → Prop) : Prop :=
  ∀ t t' a, kv_inv (get t) → m t = Some (t', a) →
    kv_inv (get t') ∧ agree (kv_view (get t)) (kv_view (get t')) ∧ R a.

Lemma framed_ret {T A} (get : T → S) (a : A) (R : A → Prop) : R a → framed get (mret a) R.
Proof. intros HR t t' a' Hi [= <- <-]. done. Qed.

Lemma framed_bind {T A B} (get : T → S) (m : GoM T A) (f : A → GoM T B) (Q : A → Prop) (R : B → Prop) :
  framed get m Q → (∀ a, Q a → framed get (f a) R) → framed get (m ≫= f) R.
Proof.
  intros Hm Hf t t' b Hi E. unfold mbind, gom_bind in E. destruct (m t) as [[t1 a]|] eqn:Em; [|done].
  destruct (Hm _ _ _ Hi Em) as (Hi1 & Ha1 & HQ). destruct (Hf a HQ _ _ _ Hi1 E) as (? & ? & ?).
  split; [done|]. split; [by etrans | done].
Qed.

Lemma framed_then {T A B} (get : T → S) (m : GoM T A) (f : A → GoM T B) (R : B → Prop) :
  framed get m (λ _, True) → (∀ a, framed get (f a) R) → framed get (m ≫= f) R.
Proof. intros Hm Hf. eapply framed_bind; [exact Hm | auto]. Qed.

Lemma framed_mono {T A} (get : T → S) (m : GoM T A) (Q R : A → Prop) :
  framed get m Q → (∀ a, Q a → R a) → framed get m R.
Proof. intros Hm HQ t t' a Hi E. destruct (Hm _ _ _ Hi E) as (? & ? & ?). auto. Qed.

Lemma framed_gets {T A} (get : T → S) (f : T → A) : framed get (gets f) (λ _, True).
Proof. intros t t' a Hi [= <- _]. done. Qed.

Lemma framed_modify {T} (get : T → S) f : (∀ t, get (f t) = get t) → framed get (modify f) (λ _, True).
Proof. intros Hf t t' a Hi [= <- _]. by rewrite Hf. Qed.

Lemma framed_lift {T A} (get : T → S) (o : option A) : framed get (lift_opt o) (λ a, o = Some a).
Proof. intros t t' a Hi E. unfold lift_opt in E. destruct o; [|done]. injection E as <- <-. done. Qed.

Lemma framed_zoom {T U A} (getU : U → S) (getT : T → S) (g : T → U) (p : U → T → T) (m : GoM U A) R :
  (∀ t, getT t = getU (g t)) → (∀ u t, getT (p u t) = getU u) → framed getU m R → framed getT (zoom g p m) R.
Proof.
  intros Hg Hp Hm t t' a Hi E. unfold zoom in E. destruct (m (g t)) as [[u a']|] eqn:Em; [|done].
  injection E as <- <-. rewrite Hp, Hg. rewrite Hg in Hi. by eapply Hm.
Qed.

Lemma framed_wp {A} (m : GoM S A) (R : A → Prop) :
  (∀ s, kv_inv s → wp m (λ a s', kv_inv s' ∧ agree (kv_view s) (kv_view s') ∧ R a) s) →
  framed id m R.
Proof. intros Hw s s' a Hi E. specialize (Hw s Hi). unfold wp in Hw. by rewrite E in Hw. Qed.

(** ** The engine *)

Lemma agree_delete m k : P k → agree m (base.delete k m).
Proof. intros Hk ik Hik. apply lookup_delete_ne. by intros <-. Qed.

Lemma framed_del k : P k → framed id (kv_del k) (λ _, True).
Proof.
  intros Hk. apply framed_wp. intros s Hi. eapply wp_mono; [by apply kv_del_spec|]. intros e s' [Hi' Hp].
  split; [done|]. split; [|done]. unfold del_post in Hp. destruct e as [e|].
  - destruct Hp as [_ [->|[_ ->]]]; [done | by apply agree_delete].
  - rewrite Hp. by apply agree_delete.
Qed.

Lemma framed_del_current it : P (it_key it) → framed id (kv_del_current it) (λ _, True).
Proof.
  intros Hk. apply framed_wp. intros s Hi. eapply wp_mono; [by apply kv_del_current_spec|]. intros e s' [Hi' Hp].
  split; [done|]. split; [|done]. unfold del_current_post in Hp. destruct e as [e|].
  - destruct Hp as [->|(_ & -> & _)]; [done | by apply agree_delete].
  - destruct Hp as [-> _]. by apply agree_delete.
Qed.

Lemma framed_put k v : P k → framed id (kv_commit [Put k v 0]) (λ _, True).
Proof.
  intros Hk. apply framed_wp. intros s Hi. eapply wp_mono; [by apply kv_commit_spec|]. intros e s' [Hi' Hp].
  split; [done|]. split; [|done]. assert (agree (kv_view s) (<[k := v]> (kv_view s))) as Ha.
  { intros ik Hik. apply lookup_insert_ne. by intros <-. }
  unfold commit_post in Hp. simpl in Hp. destruct e as [e|]; [destruct Hp as [->|(_ & _ & [= <-])]|injection Hp as <-]; done.
Qed.

Lemma framed_get k : framed id (kv_get k) (λ _, True).
Proof.
  apply framed_wp. intros s Hi. eapply wp_mono; [by apply kv_get_spec|]. intros r s' (Hi' & -> & _). done.
Qed.

Lemma framed_tso : framed id kv_tso (λ _, True).
Proof.
  apply framed_wp. intros s Hi. eapply wp_mono; [by apply kv_tso_spec|]. intros r s' (Hi' & -> & _). done.
Qed.

(** An ascending iterator yields keys of its range. *)
Lemma framed_iter a b ts limit :
  bytes_le a b → (∀ ik, bytes_le a ik → bytes_lt ik b → P ik) →
  framed id (kv_iter a b ts limit)
    (λ r, match r with inr it => Forall (λ x, P (it_key x)) (it_items it) | inl _ => True end).
Proof.
  intros Hab HP. apply framed_wp. intros s Hi. eapply wp_mono; [by apply kv_iter_spec|].
  intros r s' (Hi' & -> & Hr). split; [done|]. split; [done|]. destruct r as [e|it]; [done|].
  destruct Hr as [_ Hr]. destruct (bytes_ltb b a) eqn:E; [by apply bytes_ltb_spec, bytes_not_le in E|].
  destruct Hr as [Hp _]. apply Forall_forall. intros x Hx.
  assert (item_kv x ∈ asc_range (kv_view s) a b) as Hin.
  { eapply elem_of_prefix; [|exact Hp]. by apply list_elem_of_fmap_2. }
  unfold item_kv in Hin. apply elem_of_asc_range in Hin as (_ & ? & ?). by apply HP.
Qed.

(** ** A worker *)

Lemma framed_on_store {A} (m : GoM S A) R : framed id m R → framed w_store (on_store m) R.
Proof. intros Hm. by apply (framed_zoom id). Qed.

Lemma framed_ctxDone : framed w_store ctxDone (λ _, True).
Proof. intros w w' d Hi E. unfold ctxDone in E. destruct (w_ctx w); injection E as <- _; done. Qed.

Lemma framed_compact_with del rawKey :
  framed id del (λ _, True) → framed w_store (compact_with del rawKey) (λ _, True).
Proof.
  intros Hd. unfold compact_with. apply framed_then; [apply framed_gets|]. intros skipped.
  destruct skipped; [by apply framed_ret|]. apply framed_then; [by apply framed_on_store|].
  intros [e|]; [|by apply framed_ret]. apply framed_then; [|intros; by apply framed_ret].
  apply framed_modify. intros w. unfold updateSkippedRawKey. by destruct (negb _).
Qed.

Lemma framed_compactIfExpired c it rawKey revision value :
  P (it_key it) → framed w_store (compactIfExpired c it rawKey revision value) (λ _, True).
Proof.
  intros Hk. unfold compactIfExpired. destruct (_ || _); [by apply framed_ret|].
  destruct (contains _ _); [|by apply framed_ret]. destruct (revision =? 0).
  - eapply framed_bind; [apply framed_lift|]. intros rev _. destruct (rev <=? _); [|by apply framed_ret].
    apply framed_then; [by apply framed_compact_with, framed_del_current|]. intros e. by apply framed_ret.
  - destruct (revision <=? _); [|by apply framed_ret].
    apply framed_then; [by apply framed_compact_with, framed_del|]. intros e. by apply framed_ret.
Qed.

Lemma framed_receive v : framed w_store (receive v) (λ _, True).
Proof. by apply framed_modify. Qed.

(** The previous item of the loop may be deleted. *)
Definition prev_in (v : loopVars) : Prop :=
  0 < prevRevision v → P (EncodeObjectKey (prevUserKey v) (prevRevision v)).

Lemma framed_run_prev c cur v : prev_in v → framed w_store (run_prev c cur v) prev_in.
Proof.
  intros Hv. unfold run_prev. destruct (negb _).
  - destruct (prev_live c v); [|by apply framed_ret].
    apply framed_then; [apply framed_receive|]. intros _. by apply framed_ret.
  - destruct (w_compact c && (0 <? prevRevision v)) eqn:E; [|by apply framed_ret].
    apply andb_true_iff in E as [_ E%Z.ltb_lt].
    apply framed_then; [by apply framed_compact_with, framed_del, Hv|]. intros _. by apply framed_ret.
Qed.

Lemma framed_run_compact c it cur rev :
  P (it_key it) → framed w_store (run_compact c it cur rev) (λ _, True).
Proof.
  intros Hk. unfold run_compact. apply framed_then.
  { destruct (_ && _); [|by apply framed_ret].
    apply framed_then; [by apply framed_compact_with, framed_del|]. intros _. by apply framed_ret. }
  intros _. destruct (_ && _); [|by apply framed_ret]. eapply framed_bind; [apply framed_lift|].
  intros objRev _. destruct (_ <? _); [by apply framed_ret|].
  apply framed_then; [by apply framed_compact_with, framed_del_current|]. intros _. by apply framed_ret.
Qed.

Lemma framed_run_item c it v : P (it_key it) → prev_in v → framed w_store (run_item c it v) prev_in.
Proof.
  intros Hk Hv. unfold run_item. eapply framed_bind; [apply framed_lift|]. intros [[cur rev] [e|]] Ed.
  { by apply framed_ret. }
  apply Decode_sound in Ed as [Ek _].
  apply framed_then; [by apply framed_compactIfExpired|]. intros [[] e]; [by apply framed_ret|].
  destruct (_ <? rev); [by apply framed_ret|].
  eapply framed_bind; [by apply framed_run_prev|]. intros v' Hv'.
  apply framed_then; [by apply framed_run_compact|]. intros []; apply framed_ret; [done|].
  intros _. simpl. by rewrite <-Ek.
Qed.

Lemma framed_run_loop c items end_ : ∀ v,
  Forall (λ x, P (it_key x)) items → prev_in v →
  framed w_store (run_loop c items end_ v) (λ _, True).
Proof.
  induction items as [|it items IH]; intros v Hit Hv; simpl.
  all: apply framed_then; [apply framed_gets|]; intros more; destruct (negb more); [by apply framed_ret|];
    apply framed_then; [apply framed_ctxDone|]; intros []; [by apply framed_ret|].
  - by apply framed_ret.
  - inversion_clear Hit. eapply framed_bind; [by apply framed_run_item|]. auto.
Qed.

Lemma framed_run_finish c v : framed w_store (run_finish c v) (λ _, True).
Proof.
  unfold run_finish. destruct (negb _); [by apply framed_ret|].
  apply framed_then; [apply framed_gets|]. intros more. apply framed_then.
  { destruct (_ && _); [|by apply framed_ret]. apply framed_then; [apply framed_receive|].
    intros _. by apply framed_ret. }
  intros count. apply framed_then; [by apply framed_modify|]. intros _. by apply framed_ret.
Qed.

(** The worker's range is one of keys that may change. *)
Definition worker_in (c : workerConfig) : Prop :=
  bytes_le (Start (partition c)) (End (partition c)) ∧
  ∀ ik, bytes_le (Start (partition c)) ik → bytes_lt ik (End (partition c)) → P ik.

Lemma framed_run c : worker_in c → framed w_store (run c) (λ _, True).
Proof.
  intros [Hle HP]. unfold run. eapply framed_bind; [apply framed_on_store; by apply framed_iter|].
  intros [e|it] Hit; [by apply framed_ret|]. apply framed_then; [by apply framed_modify|]. intros _.
  apply framed_then; [by apply framed_run_loop|]. intros [v|e]; [apply framed_run_finish | by apply framed_ret].
Qed.

Lemma framed_backoff c n :
  worker_in c → framed (λ st, w_store st.1) (ExponentialBackoff n (retry_cond c)) (λ _, True).
Proof.
  intros Hc. induction n as [|n IH]; intros st st' e Hi E.
  { rewrite ExponentialBackoff_0 in E. injection E as <- _. done. }
  rewrite ExponentialBackoff_S in E. revert st st' e Hi E. eapply framed_then.
  - unfold retry_cond. apply framed_then; [by apply (framed_zoom w_store), framed_ctxDone|].
    intros []; [by apply framed_ret|]. apply framed_then; [by apply (framed_zoom w_store), framed_run|].
    intros res. apply framed_then; [by apply framed_modify|]. intros _. destruct res.2; by apply framed_ret.
  - intros [ok [e|]]; [by apply framed_ret|]. destruct ok; [by apply framed_ret | exact IH].
Qed.

Lemma framed_scan_worker c receiver ctx : worker_in c → framed id (scan_worker c receiver ctx) (λ _, True).
Proof.
  intros Hc s s' r Hi E. unfold scan_worker, runWithBackoffRetry in E.
  destruct (ExponentialBackoff _ _ _) as [[[w [count se]] e]|] eqn:Eb; [|done]. injection E as <- _.
  by destruct (framed_backoff c scanBackoffSteps Hc (mkWstate s [] (rcv_fork receiver) [] ctx, (0, None)) _ _ Hi Eb)
    as (? & ? & _).
Qed.

Lemma framed_scan_workers mk receiver ctx ps : ∀ idx,
  (∀ p, p ∈ ps → worker_in (mk p)) → framed id (scan_workers mk receiver ctx idx ps) (λ _, True).
Proof.
  induction ps as [|p ps IH]; intros idx Hp; simpl; [by apply framed_ret|].
  apply framed_then; [apply framed_scan_worker, Hp; left|]. intros r.
  apply framed_then; [apply IH; intros q Hq; apply Hp; by right|]. intros rs. by apply framed_ret.
Qed.

(** ** The scan *)

Lemma cover_in a b ps p :
  cover a b ps → p ∈ ps → bytes_le a (Start p) ∧ bytes_le (Start p) (End p) ∧ bytes_le (End p) b.
Proof.
  revert a. induction ps as [|q ps IH]; intros a; [by intros []|]. intros (<- & Hle & Hc).
  assert (bytes_le (End q) b) as Heb.
  { destruct ps; [rewrite Hc; apply bytes_le_lteq; by right | by eapply cover_le, Hc]. }
  intros [->|Hp]%elem_of_cons; [split; [apply bytes_le_lteq; by right | done]|].
  destruct ps as [|q' ps]; [by apply elem_of_nil in Hp|]. destruct Hc as [_ Hc].
  destruct (IH _ Hc Hp) as (H1' & H2' & H3'). split; [by eapply bytes_le_trans | done].
Qed.

Lemma framed_sc {A} (m : GoM S A) R : framed id m R → framed sc_store (sc_on_store m) R.
Proof. intros Hm. by apply (framed_zoom id). Qed.

Lemma framed_partitions a b :
  bytes_le a b → framed id (kv_partitions a b)
    (λ r, match r.2 with None => ∃ ps, r.1 ≡ₚ ps ∧ chain a b ps | Some _ => True end).
Proof.
  intros Hab. apply framed_wp. intros s Hi. eapply wp_mono; [by apply kv_partitions_spec|].
  intros r s' (Hi' & -> & Hr). done.
Qed.

Lemma framed_timeout cfg now : framed sc_store (getTimeoutRevision cfg now) (λ _, True).
Proof.
  intros sc sc' t Hi E. unfold getTimeoutRevision in E. destruct kv_support_ttl; [by injection E as <- _|].
  destruct (timeout_walk _ _ _ _). by injection E as <- _.
Qed.

Lemma framed_scan cfg now ctx a b R receiver :
  P (CompactKey cfg) → (∀ ik, bytes_le a ik → bytes_lt ik b → P ik) →
  internal_ok a → aligned a → bytes_le a b →
  framed sc_store (scan cfg now ctx a b R true receiver) (λ _, True).
Proof.
  intros Hck HP Hok Ha Hab. unfold scan. apply framed_then; [by apply framed_sc, framed_tso|].
  intros [tso [e|]]; [by apply framed_ret|]. apply framed_then; [by apply framed_sc, framed_put|].
  intros [e|]; [by apply framed_ret|]. eapply framed_bind; [apply framed_sc; by apply framed_partitions|].
  intros [ps [e|]] Hps; [by apply framed_ret|]. simpl in Hps. destruct Hps as (ps' & Hperm & Hchain).
  destruct (adjust_cover a b ps' ps Hok Ha Hperm Hchain) as (qs & Eqs & Hcover).
  eapply framed_bind; [apply framed_lift|]. intros qs' E. rewrite Eqs in E. injection E as <-.
  apply framed_then; [apply framed_timeout|]. intros timeout. apply framed_then.
  { apply framed_sc, framed_scan_workers. intros p Hp. destruct (cover_in a b qs p Hcover Hp) as (Hs & Hse & He).
    split; [done|]. simpl. intros ik H1' H2'. apply HP; [by eapply bytes_le_trans|].
    apply bytes_le_lteq in He as [He|<-]; [by etrans | done]. }
  intros rs. destruct (first_err _); [by apply framed_ret|].
  eapply framed_bind; [apply framed_lift|]. intros merged _. by apply framed_ret.
Qed.

Lemma framed_Compact cfg now ctx a b R :
  P (CompactKey cfg) → (∀ ik, bytes_le a ik → bytes_lt ik b → P ik) →
  internal_ok a → aligned a → bytes_le a b →
  framed sc_store (Scanner.Compact cfg now ctx a b R) (λ _, True).
Proof.
  intros. unfold Scanner.Compact, logCompactHistory. apply framed_then; [by apply framed_modify|]. intros _.
  apply framed_then; [by apply framed_scan|]. intros r. by apply framed_ret.
Qed.

(** ** The backend *)

Lemma framed_on_kv {A} (m : GoM S A) R : framed id m R → framed b_store (on_kv m) R.
Proof. intros Hm. by apply (framed_zoom sc_store), framed_sc. Qed.

Lemma framed_compact_ranges cfg now ctx R borders :
  P (getCompactKey (Prefix cfg)) → (∀ ik, in_pairs ik borders → P ik) →
  Forall border_ok borders → StronglySorted bytes_le borders →
  framed b_store (compact_ranges cfg now ctx R borders) (λ _, True).
Proof.
  intros Hck. remember (length borders) as n eqn:En. revert borders En. induction n as [n IH] using lt_wf_ind.
  intros [|s [|e l]] -> HP Hok Hs; simpl; [by apply framed_ret | by intros ? ? ? ? ? |].
  inversion Hok as [|? ? [His Has] Hok1]; subst. inversion Hok1 as [|? ? _ Hok2]; subst.
  apply StronglySorted_inv in Hs as [Hs Hse]. apply Forall_cons in Hse as [Hse _].
  apply StronglySorted_inv in Hs as [Hs _].
  apply framed_then.
  { apply (framed_zoom sc_store); [done..|]. apply framed_Compact; try done. intros ik ? ?. apply HP. by left. }
  intros _. eapply (IH (length l)); [simpl; lia | done | | done | done]. intros ik Hik. apply HP. by right.
Qed.
End framed.

Section in_charge.
Context {S : Type} `{KvSpec S} `{!KvPartitions S} `{Backoff}.
Context (cfg : Backend.Config).
Hypothesis (Hcfg : config_ok cfg).

(** The internal keys in a range belong to user keys in it. *)
Lemma in_pairs_user k r borders :
  valid_key k → is_uint64 r → Forall border_ok borders →
  in_pairs (EncodeObjectKey k r) borders → in_pairs (EncodeRevisionKey k) borders.
Proof.
  intros Hk Hr. remember (length borders) as n eqn:En. revert borders En. induction n as [n IH] using lt_wf_ind.
  intros [|s [|e l]] -> Hok; [done..|]. inversion Hok as [|? ? [_ Has] Hok1]; subst.
  inversion Hok1 as [|? ? _ Hok2]; subst. intros [[Hs He]|Hin].
  - left. split; [by eapply Has|]. eapply bytes_le_lt_trans; [|exact He].
    unfold EncodeRevisionKey. rewrite EncodeObjectKey_le by done. right. split; [done|]. apply Hr.
  - right. eapply (IH (length l)); [simpl; lia | done..].
Qed.

Lemma wp_Compact_frame now ctx rev b k r :
  kv_inv (b_store b) → compactable (view b) → compact_ok (getScannerConfig cfg) (view b) →
  is_uint64 (compact_revision rev b) →
  valid_key k → is_uint64 r → ¬ compacted_key cfg k →
  wp (Backend.Compact cfg now ctx rev) (λ _ b',
    view b' !! EncodeObjectKey k r = view b !! EncodeObjectKey k r) b.
Proof using All.
  intros Hkv Hc Hok HR Hk Hr Hn. unfold Backend.Compact. wp_steps. unfold compact. apply wp_bind.
  assert (getCompactKey (Prefix cfg) ≠ EncodeObjectKey k r) as Hck
    by exact (compact_key_ne (getScannerConfig cfg) (co_magic _ Hcfg) k r).
  eapply wp_mono; [by apply wp_setCompactRecord|]. intros e b1 (Hkv1 & Ht1 & Hc1 & Hv1).
  assert (view b1 !! EncodeObjectKey k r = view b !! EncodeObjectKey k r) as E1.
  { destruct Hv1 as [->| ->]; [done|]. by apply lookup_insert_ne. }
  destruct e as [e|]; [by wp_steps|]. apply wp_bind.
  destruct (compact_borders_ok cfg Hcfg) as (Hb1 & Hb2 & Hb3).
  pose proof (wp_compact_ranges cfg Hcfg now ctx _ _ (view b) b1 HR Hkv1 Hc1 Hb1 Hb2 Hb3) as Hw.
  set (P := λ ik, ik = getCompactKey (Prefix cfg) ∨ in_pairs ik (getCompactBorders cfg)).
  assert (¬ P (EncodeObjectKey k r)) as HP.
  { intros [E|Hin]; [by rewrite E in Hck|]. apply Hn. by eapply in_pairs_user. }
  pose proof (framed_compact_ranges P cfg now ctx (compact_revision rev b) _ ltac:(by left) ltac:(by right) Hb1 Hb2) as Hf.
  unfold wp in Hw |- *. destruct (compact_ranges _ _ _ _ _ _) as [[b2 []]|] eqn:Er; [|done].
  destruct (Hf _ _ _ Hkv1 Er) as (_ & Ha & _). simpl. rewrite <-E1. by apply Ha.
Qed.
End in_charge.
