(* ===== verification/Options.v ===== *)
(** Command line options and the configuration of endpoints: cmd/option,
    pkg/endpoint/config.go, the servers of pkg/endpoint/endpoint.go and
    security.go, and the configurations of pkg/server and pkg/server/service.

    Files and certificates are a parameter ([Certificates]). *)

From S2P Require Import Prelude GoMonad Storage Coder Proto Tso Ring Queue Mvcc Creator Scanner Strconv.
From S2P Require Import Backend.

(** * Security *)

Class Certificates (Cert Pool : Type) := {
  LoadX509KeyPair : bytes → bytes → err + Cert;
  ReadFile : bytes → err + bytes;
  AppendCertsFromPEM : bytes → Pool;
}.

Inductive ClientAuthType := NoClientCert | RequireAndVerifyClientCert.

Section security.
Context {Cert Pool : Type} `{Certificates Cert Pool}.

Record tlsConf := mkTlsConf {
  Certificate : Cert;
  ClientAuth : ClientAuthType;
  ClientCAs : option Pool;
  RootCAs : option Pool;
}.

(** The fields set from flags, and what [init] leaves: [sc_once] says that it has
    run. *)
Record SecurityConfig := mkSecurity {
  CertFile : bytes;
  KeyFile : bytes;
  CA : bytes;
  sc_ClientAuth : bool;
  AllowInsecure : bool;
  sc_once : bool;
  serverTlsConfig : option tlsConf;
  clientTlsConfig : option tlsConf;
  sc_err : option err;
}.

Definition is_empty (s : bytes) : bool := bytes_eqb s [].

Definition isInsecure (sc : option SecurityConfig) : bool :=
  match sc with
  | None => true
  | Some sc => is_empty (CertFile sc) && is_empty (KeyFile sc) && is_empty (CA sc) && negb (sc_ClientAuth sc)
  end.

Inductive secureMode := modeOnlyInsecure | modeOnlySecure | modeBothInsecureAndSecure.

Definition mode (sc : option SecurityConfig) : secureMode :=
  if isInsecure sc then modeOnlyInsecure
  else if default false (AllowInsecure <$> sc) then modeBothInsecureAndSecure
  else modeOnlySecure.

(** The outcome of the function that [once] runs. *)
Definition set_init (server client : option tlsConf) (e : option err) (sc : SecurityConfig) : SecurityConfig :=
  mkSecurity (CertFile sc) (KeyFile sc) (CA sc) (sc_ClientAuth sc) (AllowInsecure sc) true server client e.

Definition load (sc : SecurityConfig) : SecurityConfig :=
  match LoadX509KeyPair (CertFile sc) (KeyFile sc) with
  | inl e => set_init (serverTlsConfig sc) (clientTlsConfig sc) (Some (Wrapped e)) sc
  | inr cert =>
      let auth := if negb (is_empty (CA sc)) || sc_ClientAuth sc then RequireAndVerifyClientCert else NoClientCert in
      let plain := mkTlsConf cert NoClientCert None None in
      if negb (is_empty (CA sc)) then
        match ReadFile (CA sc) with
        | inl e => set_init (Some plain) (Some plain) (Some (Wrapped e)) sc
        | inr caFileBytes =>
            let certPool := Some (AppendCertsFromPEM caFileBytes) in
            set_init (Some (mkTlsConf cert auth certPool certPool)) (Some (mkTlsConf cert NoClientCert None certPool))
              None sc
        end
      else set_init (Some (mkTlsConf cert auth None None)) (Some plain) None sc
  end.

(** [init] on a configuration that may be nil. *)
Definition init (sc : option SecurityConfig) : option SecurityConfig * option err :=
  match sc with
  | None => (None, None)
  | Some sc => let sc := if sc_once sc then sc else load sc in (Some sc, sc_err sc)
  end.

Definition validate (sc : option SecurityConfig) : option SecurityConfig * option err :=
  if isInsecure sc then (sc, None) else init sc.

(** Both panic on a nil configuration. *)
Definition getServerTLSConfig (sc : option SecurityConfig) : option (option SecurityConfig * option tlsConf) :=
  let '(sc', _) := init sc in (λ c, (sc', serverTlsConfig c)) <$> sc'.

Definition getClientTLSConfig (sc : option SecurityConfig) : option (option SecurityConfig * option tlsConf) :=
  let '(sc', _) := init sc in (λ c, (sc', clientTlsConfig c)) <$> sc'.

(** * The endpoint *)

Record EpConfig := mkEpConfig {
  Port : Z;
  PeerPort : Z;
  InfoPort : Z;
  ClientSecurityConfig : option SecurityConfig;
  PeerSecurityConfig : option SecurityConfig;
  ep_EnableEtcdCompatibility : bool;
}.

Definition set_security (client peer : option SecurityConfig) (c : EpConfig) : EpConfig :=
  mkEpConfig (Port c) (PeerPort c) (InfoPort c) client peer (ep_EnableEtcdCompatibility c).

(** [Config.Validate]; it also initialises the security configurations. *)
Definition ep_Validate (c : option EpConfig) : option EpConfig * option err :=
  match c with
  | None => (None, Some (Errorf "invalid config"))
  | Some c =>
      if Port c =? 0 then (Some c, Some (Errorf "invalid port"))
      else if (PeerPort c =? 0) || (PeerPort c =? Port c) then (Some c, Some (Errorf "invalid peer port"))
      else if negb (InfoPort c =? 0) && ((InfoPort c =? Port c) || (InfoPort c =? PeerPort c))
      then (Some c, Some (Errorf "invalid info port"))
      else
        let '(client, e) := validate (ClientSecurityConfig c) in
        match e with
        | Some _ => (Some (set_security client (PeerSecurityConfig c) c), e)
        | None =>
            let '(peer, e) := validate (PeerSecurityConfig c) in
            (Some (set_security client peer c), e)
        end
  end.

(** [server.Config], passed on as [service.Config]. *)
Record ServerConfig := mkServerConfig { ClientTLS : option tlsConf; EnableEtcdProxy : bool }.

Definition getServerConfig (c : EpConfig) : option ServerConfig :=
  '(_, tls) ← getClientTLSConfig (PeerSecurityConfig c);
  Some (mkServerConfig tls (ep_EnableEtcdCompatibility c)).

(** The servers of a port: plain ones, and one that speaks TLS before the ones
    inside. *)
Inductive exposedServer :=
  | httpServer (handlers : list bytes)
  | grpcServer (services : list bytes)
  | secureServer (conf : option SecurityConfig) (internalServers : list exposedServer).

Definition buildExposedServers (sc : option SecurityConfig) (servers : list exposedServer) : list exposedServer :=
  match mode sc with
  | modeOnlyInsecure => servers
  | modeOnlySecure => [secureServer sc servers]
  | modeBothInsecureAndSecure => secureServer sc servers :: servers
  end.

(** * Options *)

Record KubeBrainOption := mkOption {
  epsConf : EpConfig;
  o_Prefix : bytes;
  o_SkippedPrefixes : list bytes;
  ClusterName : bytes;
  (** the addresses of the placement drivers; with the build tag badger there is
      nothing to validate *)
  pdAddrs : list bytes;
  EnableStorageMetrics : bool;
  watchCacheSize : Z;
}.

Definition emptySecurity : SecurityConfig := mkSecurity [] [] [] false false false None None None.

Definition NewOptions : KubeBrainOption :=
  mkOption (mkEpConfig 2379 2380 0 (Some emptySecurity) (Some emptySecurity) false) [] [] (str "default") [] false 200000.

Fixpoint validate_skipped (prefix : bytes) (skipped : list bytes) : option err :=
  match skipped with
  | [] => None
  | p :: skipped' =>
      if negb (has_prefix p prefix) then Some (Errorf "skipped prefix has no prefix")
      else if has_suffix p (str "/") then Some (Errorf "skipped prefix is invalid, make sure it has no / suffix")
      else validate_skipped prefix skipped'
  end.

Definition storage_validate (o : KubeBrainOption) : option err :=
  match pdAddrs o with [] => Some (Errorf "invalid param --pd-addrs") | _ => None end.

Definition Validate (o : KubeBrainOption) : option err :=
  match (ep_Validate (Some (epsConf o))).2 with
  | Some e => Some e
  | None =>
      if has_suffix (o_Prefix o) (str "/") then Some (Errorf "prefix is invalid, make sure it has no / suffix")
      else match validate_skipped (o_Prefix o) (o_SkippedPrefixes o) with
           | Some e => Some e
           | None => storage_validate o
           end
  end.

(** [%d] *)
Definition format_int (z : Z) : bytes := if z <? 0 then str "-" ++ FormatUint (- z) else FormatUint z.

(** The configuration [Run] builds the backend with, given the node's address. *)
Definition run_config (o : KubeBrainOption) (localIP : bytes) : err + Backend.Config :=
  match localIP with
  | [] => inl (Errorf "local ip is empty")
  | _ =>
      let identity := localIP ++ str ":" ++ format_int (PeerPort (epsConf o)) in
      inr (mkConfig (ep_EnableEtcdCompatibility (epsConf o)) (o_Prefix o) identity (o_SkippedPrefixes o)
             (watchCacheSize o))
  end.
End security.

Arguments tlsConf : clear implicits.
Arguments SecurityConfig : clear implicits.
Arguments EpConfig : clear implicits.
Arguments KubeBrainOption : clear implicits.
