(* ===== verification/Endpoint.v ===== *)
(** Running and stopping the servers: pkg/endpoint/server.go, security.go and
    endpoint.go.

    Goroutines are processes: a step relation and, in the end, a result.  What a
    process is told from outside is a [phase]: it may run, it has been asked to
    stop, or everything it waits for has been closed, so that it must come to an
    end.  A context that is done is the last phase for the goroutines that watch
    it; [server.close] and [lsn.Close] are the second and third for a [Serve].

    Processes are composed as the code composes them: [sub] is [runSubServer] over
    a [Serve], [group] is an errgroup whose functions call [cancel] when they
    return (used by [runServers], [secureServer.serve] and [Endpoint.Run]),
    [root] is [rootServer.run].  The http and grpc servers and cmux are
    parameters: they may stop at any time, and return once they are closed.  The
    errgroup library is a parameter too. *)

From S2P Require Import Prelude Options.

(** * Phases, results, processes *)

Inductive phase := Running | Asked | Must.

Definition phase_le (d d' : phase) : Prop :=
  match d, d' with
  | Running, _ | Asked, Asked | Asked, Must | Must, Must => True
  | _, _ => False
  end.

#[global] Instance phase_le_preorder : PreOrder phase_le.
Proof. split; [by intros [] | by intros [] [] []]. Qed.

Definition of_ctx (done : bool) : phase := if done then Must else Running.

(** Errors of the servers; the code only compares them with [nil]. *)
Inductive srv_err := ErrServerClosed | ErrServerStopped | ErrListenerClosed | ErrListen | ErrOther (code : Z).

#[global] Instance srv_err_eq_dec : EqDecision srv_err.
Proof. solve_decision. Defined.

Abbreviation result := (option srv_err).

Class Proc (P : Type) := {
  p_step : phase → P → P → Prop;
  p_ret : P → option result;
}.

(** What the theorems use of a process: when it must stop, or something in it
    failed, it can go on until it returns; its steps are bounded by [p_size]; it
    does not return in phase [Running] unless something in it failed; and nothing
    in it is left running when it has returned. *)
Class ProcSpec (P : Type) `{Proc P} := {
  p_inv : phase → P → Prop;
  p_failed : P → Prop;
  p_clean : P → Prop;
  p_size : P → nat;
  p_inv_mono d d' p : phase_le d d' → p_inv d p → p_inv d' p;
  p_inv_step d p p' : p_inv d p → p_step d p p' → p_inv d p';
  p_size_step d p p' : p_inv d p → p_step d p p' → (p_size p' < p_size p)%nat;
  p_progress d p :
    p_inv d p → p_ret p = None → d = Must ∨ p_failed p → ∃ p', p_step d p p';
  p_ret_stable d p p' r : p_inv d p → p_step d p p' → p_ret p = Some r → p_ret p' = Some r;
  p_failed_stable d p p' : p_step d p p' → p_failed p → p_failed p';
  p_ret_failed p r : p_inv Running p → p_ret p = Some r → p_failed p;
  p_ret_clean d p r : p_inv d p → p_ret p = Some r → p_clean p;
}.

(** * A library's [Serve] *)

(** [leaf_result k asked r]: it may return [r], asked to stop or not. *)
Inductive leaf_kind := Http | Grpc | Mux.

Class Servers := { leaf_result : leaf_kind → bool → result → Prop }.

(** A server that is closed returns from [Serve]; http's [Serve] never returns
    [nil], and [ErrServerClosed] then; grpc's returns no error then, or
    [ErrServerStopped] when it only began after [Stop]. *)
Class ServersSpec `{Servers} := {
  leaf_stops k : ∃ r, leaf_result k true r;
  http_not_nil asked r : leaf_result Http asked r → r ≠ None;
  http_closed r : leaf_result Http true r → r = Some ErrServerClosed;
  grpc_closed r : leaf_result Grpc true r → r = None ∨ r = Some ErrServerStopped;
}.

(** [asked] records whether it had been asked when it returned. *)
Inductive leaf := Serving (k : leaf_kind) | Served (k : leaf_kind) (r : result) (asked : bool).

Definition is_asked (d : phase) : bool := match d with Running => false | _ => true end.

Section leaf.
Context `{Servers}.

Inductive leaf_step (d : phase) : leaf → leaf → Prop :=
  | leaf_return k r : leaf_result k (is_asked d) r → leaf_step d (Serving k) (Served k r (is_asked d)).

#[global] Instance leaf_proc : Proc leaf :=
  {| p_step := leaf_step; p_ret p := match p with Served _ r _ => Some r | Serving _ => None end |}.
End leaf.

(** * [runSubServer] *)

(** The runner waits, closes the server, closes the listener, waits for [closed]. *)
Inductive sub_pc := SWait | SClose | SLsn | SAwait | SRet.

(** The goroutine serves, sends a non-nil error, closes the channel. *)
Inductive sub_go := GServing | GSend (e : srv_err) | GClose | GDone.

#[global] Instance sub_go_eq_dec : EqDecision sub_go.
Proof. solve_decision. Defined.

Record sub (P : Type) := mkSub {
  s_pc : sub_pc;
  s_go : sub_go;
  s_serve : P;
  s_err : result;  (** the named result [err], which both assign *)
  s_buf : option srv_err;  (** the channel [closed], of capacity one *)
  s_chclosed : bool;
}.
Arguments mkSub {P}.
Arguments s_pc {P}.
Arguments s_go {P}.
Arguments s_serve {P}.
Arguments s_err {P}.
Arguments s_buf {P}.
Arguments s_chclosed {P}.

Definition runSubServer {P} (serve : P) : sub P := mkSub SWait GServing serve None None false.

(** What the server has been told: [server.close] comes before [lsn.Close]. *)
Definition serve_phase (pc : sub_pc) : phase :=
  match pc with SWait | SClose => Running | SLsn => Asked | SAwait | SRet => Must end.

Section sub.
Context {P : Type} `{Proc P}.

Inductive sub_step (d : phase) : sub P → sub P → Prop :=
  (** [waitFor] *)
  | sub_ctx g p e b c : d = Must → sub_step d (mkSub SWait g p e b c) (mkSub SClose g p None b c)
  | sub_recv g p e x c : sub_step d (mkSub SWait g p e (Some x) c) (mkSub SClose g p (Some x) None c)
  | sub_recv_closed g p e : sub_step d (mkSub SWait g p e None true) (mkSub SClose g p None None true)
  (** the deferred calls *)
  | sub_close g p e b c : sub_step d (mkSub SClose g p e b c) (mkSub SLsn g p e b c)
  | sub_lsn g p e b c : sub_step d (mkSub SLsn g p e b c) (mkSub SAwait g p e b c)
  | sub_await g p e x c : sub_step d (mkSub SAwait g p e (Some x) c) (mkSub SRet g p e None c)
  | sub_await_closed g p e : sub_step d (mkSub SAwait g p e None true) (mkSub SRet g p e None true)
  (** the goroutine *)
  | sub_serve pc p p' e b c :
      p_step (serve_phase pc) p p' → sub_step d (mkSub pc GServing p e b c) (mkSub pc GServing p' e b c)
  | sub_served pc p r e b c : p_ret p = Some r →
      sub_step d (mkSub pc GServing p e b c)
                 (mkSub pc (match r with Some x => GSend x | None => GClose end) p r b c)
  | sub_send pc x p e c : sub_step d (mkSub pc (GSend x) p e None c) (mkSub pc GClose p e (Some x) c)
  | sub_close_chan pc p e b : sub_step d (mkSub pc GClose p e b false) (mkSub pc GDone p e b true)
  (** what is left of a [Serve] that has returned *)
  | sub_rest pc g p p' e b c :
      g ≠ GServing → p_step (serve_phase pc) p p' → sub_step d (mkSub pc g p e b c) (mkSub pc g p' e b c).

#[global] Instance sub_proc : Proc (sub P) :=
  {| p_step := sub_step; p_ret s := match s_pc s with SRet => Some (s_err s) | _ => None end |}.
End sub.

(** * An errgroup with [cancel] *)

(** The library: [eg_return] when a function of the group returns, [eg_err] the
    error of [Wait], [eg_cancelled] whether the derived context is done. *)
Class ErrGroup (G : Type) := {
  eg_new : G;
  eg_return : result → G → G;
  eg_err : G → result;
  eg_cancelled : G → bool;
}.

Class ErrGroupSpec (G : Type) `{ErrGroup G} := {
  eg_new_err : eg_err eg_new = None;
  eg_new_cancelled : eg_cancelled eg_new = false;
  eg_return_err r g : eg_err (eg_return r g) = match eg_err g with Some e => Some e | None => r end;
  eg_return_cancelled r g : eg_cancelled (eg_return r g) = eg_cancelled g || bool_decide (is_Some r);
}.

(** A function of the group: running, returned and [cancel] called, recorded. *)
Inductive child_pc := CRun | CCancelled (r : result) | CDone.

(** [ch_outer]: it is told to stop by the listener ([mux.Serve]), not by the
    group's context; the other function of the group closes the listener, through
    those [mux.Match] made of it, before it returns. *)
Record child (P : Type) := mkChild { ch_outer : bool; ch_proc : P; ch_pc : child_pc }.
Arguments mkChild {P}.
Arguments ch_outer {P}.
Arguments ch_proc {P}.
Arguments ch_pc {P}.

(** [g_todo]: functions not yet started; [g_bg]: the context is derived from
    [context.Background()], not from the one of the caller; [g_log]: the results
    in the order they were recorded. *)
Record group (P G : Type) := mkGroup {
  g_bg : bool;
  g_todo : list (child P);
  g_children : list (child P);
  g_cancel : bool;
  g_eg : G;
  g_log : list result;
  g_ret : option result;
}.
Arguments mkGroup {P G}.
Arguments g_bg {P G}.
Arguments g_todo {P G}.
Arguments g_children {P G}.
Arguments g_cancel {P G}.
Arguments g_eg {P G}.
Arguments g_log {P G}.
Arguments g_ret {P G}.

Section group.
Context {P G : Type} `{Proc P} `{ErrGroup G}.

Definition new_group (bg : bool) (fs : list (child P)) : group P G := mkGroup bg fs [] false eg_new [] None.

(** The context the functions get. *)
Definition g_ctx (d : phase) (g : group P G) : bool :=
  (match d with Must => negb (g_bg g) | _ => false end) || g_cancel g || eg_cancelled (g_eg g).

Definition child_phase (d : phase) (g : group P G) (outer : bool) : phase :=
  if outer then (if g_cancel g then Must else d) else of_ctx (g_ctx d g).

Inductive group_step (d : phase) : group P G → group P G → Prop :=
  (** [group.Go] *)
  | group_go bg c todo cs k e l :
      group_step d (mkGroup bg (c :: todo) cs k e l None) (mkGroup bg todo (cs ++ [c]) k e l None)
  | group_child bg todo cs1 cs2 k e l r c p' :
      p_step (child_phase d (mkGroup bg todo (cs1 ++ c :: cs2) k e l r) (ch_outer c)) (ch_proc c) p' →
      group_step d (mkGroup bg todo (cs1 ++ c :: cs2) k e l r)
                   (mkGroup bg todo (cs1 ++ mkChild (ch_outer c) p' (ch_pc c) :: cs2) k e l r)
  (** [defer cancel()] *)
  | group_cancel bg todo cs1 cs2 k e l o p r :
      p_ret p = Some r →
      group_step d (mkGroup bg todo (cs1 ++ mkChild o p CRun :: cs2) k e l None)
                   (mkGroup bg todo (cs1 ++ mkChild o p (CCancelled r) :: cs2) true e l None)
  | group_record bg todo cs1 cs2 k e l o p r :
      group_step d (mkGroup bg todo (cs1 ++ mkChild o p (CCancelled r) :: cs2) k e l None)
                   (mkGroup bg todo (cs1 ++ mkChild o p CDone :: cs2) k (eg_return r e) (l ++ [r]) None)
  (** [Wait] returns when all have; then the deferred [cancel] *)
  | group_wait bg cs k e l :
      Forall (λ c, ch_pc c = CDone) cs →
      group_step d (mkGroup bg [] cs k e l None) (mkGroup bg [] cs true e l (Some (eg_err e))).

#[global] Instance group_proc : Proc (group P G) := {| p_step := group_step; p_ret := g_ret |}.
End group.

(** * A listening port: [rootServer.run] *)

(** Before [Listen]; serving; [runServers] has returned; the listener is closed;
    the result has been read. *)
Inductive root_pc := RListen | RRun | RReturned | RClosed | RRet (r : result).

(** [r_mux]: the goroutine that runs [mux.Serve] and assigns its result to the
    named result of [run]. *)
Record root (Q : Type) := mkRoot {
  r_pc : root_pc; r_group : Q; r_mux : option leaf; r_err : result; r_nolisten : bool }.
Arguments mkRoot {Q}.
Arguments r_pc {Q}.
Arguments r_group {Q}.
Arguments r_mux {Q}.
Arguments r_err {Q}.
Arguments r_nolisten {Q}.

Definition root_run {Q} (servers : Q) : root Q := mkRoot RListen servers None None false.

Section root.
Context {Q : Type} `{Proc Q} `{Servers}.

Definition listener_phase (pc : root_pc) : phase :=
  match pc with RClosed | RRet _ => Must | _ => Running end.

Inductive root_step (d : phase) : root Q → root Q → Prop :=
  | root_listen_fails q m e n : root_step d (mkRoot RListen q m e n) (mkRoot (RRet (Some ErrListen)) q m (Some ErrListen) true)
  | root_listen q m e n : root_step d (mkRoot RListen q m e n) (mkRoot RRun q (Some (Serving Mux)) e n)
  | root_group q q' m e n : p_step d q q' → root_step d (mkRoot RRun q m e n) (mkRoot RRun q' m e n)
  | root_mux pc q m m' e n r :
      p_step (listener_phase pc) m m' → p_ret m' = Some r →
      root_step d (mkRoot pc q (Some m) e n) (mkRoot pc q (Some m') r n)
  | root_returned q m e n r : p_ret q = Some r → root_step d (mkRoot RRun q m e n) (mkRoot RReturned q m r n)
  | root_close q m e n : root_step d (mkRoot RReturned q m e n) (mkRoot RClosed q m e n)
  | root_return q m e n : root_step d (mkRoot RClosed q m e n) (mkRoot (RRet e) q m e n)
  (** what is left of the servers' goroutines *)
  | root_rest pc q q' m e n :
      p_ret q ≠ None → p_step d q q' → root_step d (mkRoot pc q m e n) (mkRoot pc q' m e n).

#[global] Instance root_proc : Proc (root Q) :=
  {| p_step := root_step; p_ret s := match r_pc s with RRet r => Some r | _ => None end |}.
End root.

(** * The servers of an endpoint *)

Section endpoint.
Context (G : Type) `{Servers} `{ErrGroup G} {cert pool : Type}.

(** [serve] of [secureServer]: cmux on the TLS listener beside the servers. *)
Definition secure_serve : Type := group (leaf + group (sub leaf) G) G.

(** [exposedServer.serve]: of http, grpc, or TLS. *)
Definition exposed : Type := leaf + secure_serve.

#[global] Instance sum_proc {A B} `{Proc A, Proc B} : Proc (A + B) := {|
  p_step d x y := match x, y with
                  | inl a, inl a' => p_step d a a'
                  | inr b, inr b' => p_step d b b'
                  | _, _ => False
                  end;
  p_ret x := match x with inl a => p_ret a | inr b => p_ret b end |}.

Definition runServers {P} `{Proc P} (servers : list P) : group (sub P) G :=
  new_group false (map (λ s, mkChild false (runSubServer s) CRun) servers).

Definition secureServer_serve (internalServers : list leaf) : secure_serve :=
  new_group true [mkChild true (inl (Serving Mux)) CRun;
                  mkChild false (inr (runServers internalServers)) CRun].

(** What [buildExposedServers] returns, each with its [serve]. *)
Definition exposed_servers (sc : option (SecurityConfig cert pool)) (servers : list leaf) : list exposed :=
  match mode sc with
  | modeOnlyInsecure => map inl servers
  | modeOnlySecure => [inr (secureServer_serve servers)]
  | modeBothInsecureAndSecure => inr (secureServer_serve servers) :: map inl servers
  end.

Definition port_proc : Type := root (group (sub exposed) G).

Definition runClientServer (c : EpConfig cert pool) : port_proc :=
  root_run (runServers (exposed_servers (ClientSecurityConfig c) [Serving Http; Serving Grpc])).

Definition runPeerServer (c : EpConfig cert pool) : port_proc :=
  root_run (runServers (exposed_servers (PeerSecurityConfig c) [Serving Http; Serving Grpc])).

Definition runMetricsServer : port_proc := root_run (runServers [inl (Serving Http)]).

Definition endpoint_Run (c : EpConfig cert pool) : group port_proc G :=
  new_group false
    ([mkChild false (runClientServer c) CRun; mkChild false (runPeerServer c) CRun] ++
     (if InfoPort c =? 0 then [] else [mkChild false runMetricsServer CRun])).
End endpoint.
