(* ===== verification/EndpointSpec.v ===== *)
(** Every process of the endpoint meets the specification of processes: leaves,
    the runner of a server, groups, ports. *)

From S2P Require Import Prelude Options Endpoint.

(** * A library's [Serve] *)

#[global] Instance leaf_spec `{ServersSpec} : ProcSpec leaf.
Proof.
  refine {|
    p_inv d p := match p with Served _ _ false => True | Served _ _ true => d ≠ Running | _ => True end;
    p_failed p := match p with Served _ _ false => True | _ => False end;
    p_clean p := match p with Served _ _ _ => True | _ => False end;
    p_size p := match p with Serving _ => 1%nat | _ => 0%nat end |}.
  - by intros [] [] [|? ? []].
  - intros d p p' Hp Hs. destruct Hs. by destruct d.
  - intros d p p' Hp Hs. destruct Hs. lia.
  - intros d [k|k r a] _ Hr; [|done]. intros [->|[]]. destruct (leaf_stops k) as [r Hk].
    exists (Served k r (is_asked Must)). by constructor.
  - intros d p p' r _ Hs Hr. by destruct Hs.
  - intros d p p' Hs Hf. by destruct Hs.
  - by intros [|? ? []].
  - by intros d [].
Defined.

#[global] Instance sum_spec {A B} `{ProcSpec A, ProcSpec B} : ProcSpec (A + B).
Proof.
  refine {|
    p_inv d x := match x with inl a => p_inv d a | inr b => p_inv d b end;
    p_failed x := match x with inl a => p_failed a | inr b => p_failed b end;
    p_clean x := match x with inl a => p_clean a | inr b => p_clean b end;
    p_size x := match x with inl a => p_size a | inr b => p_size b end |}.
  - intros d d' [a|b]; simpl; apply p_inv_mono.
  - intros d [a|b] [a'|b']; simpl; try done; apply p_inv_step.
  - intros d [a|b] [a'|b']; simpl; try done; apply p_size_step.
  - intros d [a|b] Hi Hr Hd; destruct (p_progress d _ Hi Hr Hd) as [p' Hp]; [by exists (inl p') | by exists (inr p')].
  - intros d [a|b] [a'|b'] r; simpl; try done; apply p_ret_stable.
  - intros d [a|b] [a'|b']; simpl; try done; apply p_failed_stable.
  - intros [a|b] r; simpl; apply p_ret_failed.
  - intros d [a|b] r; simpl; apply p_ret_clean.
Defined.

(** * The runner of a server *)

Section sub.
Context {P : Type} `{ProcSpec P}.
Implicit Types s : sub P.

Definition pc_rank (pc : sub_pc) : nat :=
  match pc with SWait => 4 | SClose => 3 | SLsn => 2 | SAwait => 1 | SRet => 0 end%nat.

Definition go_rank (g : sub_go) : nat := match g with GServing => 3 | GSend _ => 2 | GClose => 1 | GDone => 0 end%nat.

(** The goroutine and the channel. *)
Definition chan_ok s : Prop :=
  match s_go s with
  | GServing => s_buf s = None ∧ s_chclosed s = false
  | GSend _ => s_buf s = None ∧ s_chclosed s = false ∧ is_Some (p_ret (s_serve s))
  | GClose => s_chclosed s = false ∧ is_Some (p_ret (s_serve s))
  | GDone => s_chclosed s = true ∧ is_Some (p_ret (s_serve s))
  end.

Record sub_inv (d : phase) s : Prop := {
  si_serve : p_inv (serve_phase (s_pc s)) (s_serve s);
  si_chan : chan_ok s;
  si_ret : s_pc s = SRet → s_go s = GClose ∨ s_go s = GDone;
  si_left : s_pc s ≠ SWait → d ≠ Running ∨ p_failed (s_serve s);
}.

(** The [Serve] has returned, the server and the listener are closed. *)
Definition sub_clean s : Prop :=
  serve_phase (s_pc s) = Must ∧ is_Some (p_ret (s_serve s)) ∧ p_clean (s_serve s).

(** What was received means that [Serve] returned, before anyone asked. *)
Lemma sub_received s :
  p_inv Running (s_serve s) → chan_ok s → s_buf s ≠ None ∨ s_chclosed s = true → p_failed (s_serve s).
Proof.
  unfold chan_ok. intros Hi Hc Hr.
  assert (is_Some (p_ret (s_serve s))) as [r ?]; [|by eapply p_ret_failed].
  destruct (s_go s); [|by destruct_and?..]. destruct Hc as [Hb Hc]. destruct Hr; congruence.
Qed.

Lemma chan_ok_serve pc pc' g p p' e e' b c :
  (g ≠ GServing → is_Some (p_ret p) → is_Some (p_ret p')) →
  chan_ok (mkSub pc g p e b c) → chan_ok (mkSub pc' g p' e' b c).
Proof. unfold chan_ok; simpl. destruct g; naive_solver. Qed.

(** Receiving the error leaves the channel as it is, but for the buffer. *)
Lemma chan_ok_recv pc pc' g p e e' x c :
  chan_ok (mkSub pc g p e (Some x) c) → chan_ok (mkSub pc' g p e' None c) ∧ (g = GClose ∨ g = GDone).
Proof. unfold chan_ok; simpl. destruct g; naive_solver. Qed.

Lemma sub_step_inv d s s' : sub_inv d s → sub_step d s s' → sub_inv d s'.
Proof.
  intros [Hi Hc Hr Hl] Hst. destruct Hst as [g p e b c Hd|g p e x c|g p e|g p e b c|g p e b c|g p e x c|g p e
    |pc p p' e b c Hp|pc p r e b c Hp|pc x p e c|pc p e b|pc g p p' e b c Hg Hp]; simpl in *.
  - split; simpl; [done | by eapply chan_ok_serve | done | left; by rewrite Hd].
  - destruct (chan_ok_recv _ SClose _ _ _ (Some x) _ _ Hc) as [Hc' _].
    split; simpl; [done | done | done|]. right. by apply (sub_received (mkSub SWait g p e (Some x) c)); [|done|left].
  - split; simpl; [done | by eapply chan_ok_serve | done|].
    right. by apply (sub_received (mkSub SWait g p e None true)); [|done|right].
  - split; simpl; [by eapply p_inv_mono; [|exact Hi] | by eapply chan_ok_serve | done | auto].
  - split; simpl; [by eapply p_inv_mono; [|exact Hi] | by eapply chan_ok_serve | done | auto].
  - destruct (chan_ok_recv _ SRet _ _ _ e _ _ Hc) as [Hc' Hg]. split; simpl; [done | done | done | auto].
  - split; simpl; [done | by eapply chan_ok_serve | | auto].
    intros _. unfold chan_ok in Hc; simpl in Hc. destruct g; naive_solver.
  - split; simpl; [by eapply p_inv_step | by eapply chan_ok_serve; [|exact Hc] | done|].
    intros Hpc. destruct (Hl Hpc); [by left | right; by eapply p_failed_stable].
  - unfold chan_ok in Hc; simpl in Hc. destruct Hc as [-> ->].
    split; simpl; [done | by destruct r; unfold chan_ok; simpl; split_and?; eauto | | done].
    intros ->. by destruct (Hr eq_refl).
  - unfold chan_ok in Hc; simpl in Hc. destruct Hc as (_ & -> & Hret).
    split; simpl; [done | done | auto | done].
  - unfold chan_ok in Hc; simpl in Hc. destruct Hc as [_ Hret].
    split; simpl; [done | done | auto | done].
  - split; simpl; [by eapply p_inv_step | | done|].
    + eapply chan_ok_serve; [|exact Hc]. intros _ [r Er]. exists r. by eapply p_ret_stable.
    + intros Hpc. destruct (Hl Hpc); [by left | right; by eapply p_failed_stable].
Qed.

Definition sub_size s : nat := (pc_rank (s_pc s) + go_rank (s_go s) + p_size (s_serve s))%nat.

Lemma sub_step_size d s s' : sub_inv d s → sub_step d s s' → (sub_size s' < sub_size s)%nat.
Proof.
  intros [Hi _ _ _] Hst. unfold sub_size. destruct Hst; simpl in *; try lia.
  - pose proof (p_size_step _ _ _ Hi H1). lia.
  - destruct r; simpl; lia.
  - pose proof (p_size_step _ _ _ Hi H2). lia.
Qed.

Lemma sub_can_step d s :
  sub_inv d s → s_pc s ≠ SRet → d = Must ∨ p_failed (s_serve s) → ∃ s', sub_step d s s'.
Proof.
  intros [Hi Hc Hr Hl] Hpc Hd. destruct s as [pc g p e b c]; simpl in *.
  (** The goroutine goes on when the server must stop or has failed. *)
  assert (serve_phase pc = Must ∨ p_failed p → g ≠ GDone → ∃ s', sub_step d (mkSub pc g p e b c) s') as Hgo.
  { intros Hm Hg. destruct g as [|x| |]; [..|done]; unfold chan_ok in Hc; simpl in Hc.
    - destruct (p_ret p) as [r|] eqn:Er; [eexists; by eapply sub_served|].
      destruct (p_progress _ _ Hi Er) as [p' Hp]; [tauto|]. eexists. by apply sub_serve.
    - destruct Hc as (-> & -> & _). eexists. apply sub_send.
    - destruct Hc as [-> _]. eexists. apply sub_close_chan. }
  destruct pc; try done.
  - destruct Hd as [->|Hf]; [eexists; by apply sub_ctx|].
    destruct (decide (g = GDone)) as [->|Hg]; [|by apply Hgo; [right|]].
    unfold chan_ok in Hc; simpl in Hc. destruct Hc as [-> _].
    destruct b; eexists; [apply sub_recv | apply sub_recv_closed].
  - eexists. apply sub_close.
  - eexists. apply sub_lsn.
  - destruct (decide (g = GDone)) as [->|Hg]; [|by apply Hgo; [left|]].
    unfold chan_ok in Hc; simpl in Hc. destruct Hc as [-> _].
    destruct b; eexists; [apply sub_await | apply sub_await_closed].
Qed.

#[global] Instance sub_spec : ProcSpec (sub P).
Proof.
  refine {| p_inv := sub_inv; p_failed s := p_failed (s_serve s); p_clean := sub_clean; p_size := sub_size |}.
  - intros d d' s Hd [Hi Hc Hr Hl]. split; try done. intros Hpc. destruct (Hl Hpc); [left | by right].
    by destruct d, d'.
  - apply sub_step_inv.
  - apply sub_step_size.
  - intros d s Hi Hr Hd. apply sub_can_step; [done| |done]. simpl in Hr. by destruct (s_pc s).
  - intros d s s' r Hi Hst. simpl. destruct Hst; simpl; try done.
    destruct pc; try done. by destruct (si_ret _ _ Hi eq_refl).
  - intros d s s' Hst. destruct Hst; simpl; try done; by eapply p_failed_stable.
  - intros s r Hi. simpl. destruct (s_pc s) eqn:E; try done. intros _.
    destruct (si_left _ _ Hi) as [?|?]; [by rewrite E | done..].
  - intros d s r Hi. simpl. destruct (s_pc s) eqn:E; try done. intros _.
    assert (is_Some (p_ret (s_serve s))) as [x Hx].
    { pose proof (si_chan _ _ Hi) as Hc. unfold chan_ok in Hc. destruct (si_ret _ _ Hi E) as [Eg|Eg]; rewrite Eg in Hc; tauto. }
    split_and!; [by rewrite E | by exists x | by eapply p_ret_clean; [apply Hi|]].
Defined.

(** The error of a server that was told to stop by the context: [waitFor] returns
    no error, but the goroutine assigns the named result after it. *)
Definition late s : Prop :=
  s_pc s ≠ SWait ∧ (s_go s = GServing ∨ p_ret (s_serve s) = Some (s_err s)).

Lemma sub_step_late d s s' : sub_inv d s → sub_step d s s' → late s → late s'.
Proof.
  intros Hi Hst. destruct Hst; unfold late; simpl; intros [Hpc Hq]; split; try done; try (by left);
    try (by destruct Hq as [Hq|Hq]; [left | right]).
  - by right.
  - destruct Hq as [->|Hq]; [done|]. right. eapply p_ret_stable; [by apply (si_serve _ _ Hi) | done..].
Qed.

Lemma sub_run_late d s s' : rtc (sub_step d) s s' → sub_inv d s → late s → sub_inv d s' ∧ late s'.
Proof.
  induction 1 as [s|s1 s2 s3 Hst _ IH]; [done|]. intros Hi Hl.
  apply IH; [by eapply sub_step_inv | by eapply sub_step_late].
Qed.
End sub.

(** * Groups *)

Ltac exists_simpl := repeat progress (rewrite ?Exists_cons, ?Exists_app, ?Exists_nil in * ).

Lemma of_ctx_le a b : (a = true → b = true) → phase_le (of_ctx a) (of_ctx b).
Proof. destruct a, b; simpl; naive_solver. Qed.

Section group.
Context {P G : Type} `{ProcSpec P} `{ErrGroupSpec G}.
Implicit Types (g : group P G) (c : child P).

Definition child_rank (pc : child_pc) : nat := match pc with CRun => 2 | CCancelled _ => 1 | CDone => 0 end%nat.

Definition child_size c : nat := (p_size (ch_proc c) + child_rank (ch_pc c))%nat.

(** The result of a function of the group that is recorded. *)
Definition recorded c : option result := match ch_pc c with CDone => p_ret (ch_proc c) | _ => None end.

Definition child_ok (d : phase) g c : Prop :=
  p_inv (child_phase d g (ch_outer c)) (ch_proc c) ∧
  match ch_pc c with
  | CRun => True
  | CCancelled r => p_ret (ch_proc c) = Some r ∧ g_cancel g = true
  | CDone => is_Some (p_ret (ch_proc c)) ∧ g_cancel g = true
  end.

Definition first_error (l : list result) : result := head (omap id l).

Record group_inv (d : phase) g : Prop := {
  gi_todo : Forall (λ c, p_inv (child_phase d g (ch_outer c)) (ch_proc c) ∧ ch_pc c = CRun) (g_todo g);
  gi_children : Forall (child_ok d g) (g_children g);
  gi_cause : g_cancel g || eg_cancelled (g_eg g) = true →
    d ≠ Running ∨ Exists (λ c, p_failed (ch_proc c)) (g_children g);
  gi_eg : eg_cancelled (g_eg g) = true → g_cancel g = true;
  gi_outer : g_bg g = true → Exists (λ c, ch_outer c = true) (g_todo g ++ g_children g);
  gi_some : g_todo g ++ g_children g ≠ [];
  gi_ret r : g_ret g = Some r →
    g_todo g = [] ∧ Forall (λ c, ch_pc c = CDone) (g_children g) ∧ r = eg_err (g_eg g);
  gi_err : eg_err (g_eg g) = first_error (g_log g);
  gi_log : g_log g ≡ₚ omap recorded (g_children g);
}.

Lemma first_error_snoc l r :
  first_error (l ++ [r]) = match first_error l with Some e => Some e | None => r end.
Proof.
  unfold first_error. rewrite omap_app. destruct (omap id l) as [|e l']; simpl; [by destruct r | done].
Qed.

(** A group that is told more, or has been cancelled, tells its functions more. *)
Lemma child_phase_le d d' g g' o :
  phase_le d d' → g_bg g = g_bg g' → (g_cancel g = true → g_cancel g' = true) →
  (eg_cancelled (g_eg g) = true → eg_cancelled (g_eg g') = true) →
  phase_le (child_phase d g o) (child_phase d' g' o).
Proof.
  intros Hd Hbg Hk He. unfold child_phase, g_ctx. rewrite <-Hbg. destruct o.
  - destruct (g_cancel g); [by rewrite Hk|]. destruct (g_cancel g'); [by destruct d | done].
  - apply of_ctx_le. rewrite !orb_true_iff. destruct d, d', (g_bg g); simpl in *; naive_solver.
Qed.

Lemma child_ok_mono d d' g g' c :
  phase_le d d' → g_bg g = g_bg g' → (g_cancel g = true → g_cancel g' = true) →
  (eg_cancelled (g_eg g) = true → eg_cancelled (g_eg g') = true) → child_ok d g c → child_ok d' g' c.
Proof.
  intros Hd Hbg Hk He [Hi Hpc]. split; [by eapply p_inv_mono; [apply child_phase_le|] |].
  destruct (ch_pc c); naive_solver.
Qed.

Lemma todo_mono d d' g g' (l : list (child P)) :
  phase_le d d' → g_bg g = g_bg g' → (g_cancel g = true → g_cancel g' = true) →
  (eg_cancelled (g_eg g) = true → eg_cancelled (g_eg g') = true) →
  Forall (λ c, p_inv (child_phase d g (ch_outer c)) (ch_proc c) ∧ ch_pc c = CRun) l →
  Forall (λ c, p_inv (child_phase d' g' (ch_outer c)) (ch_proc c) ∧ ch_pc c = CRun) l.
Proof.
  intros Hd Hbg Hk He Hl. eapply Forall_impl; [exact Hl|]. intros c [Hi Hpc]. split; [|done].
  by eapply p_inv_mono; [apply child_phase_le|].
Qed.

(** A function that returned although no one had told the group to stop. *)
Lemma child_cause d g c r :
  child_ok d g c → p_ret (ch_proc c) = Some r → c ∈ g_children g →
  (g_cancel g || eg_cancelled (g_eg g) = true →
    d ≠ Running ∨ Exists (λ c, p_failed (ch_proc c)) (g_children g)) →
  d ≠ Running ∨ Exists (λ c, p_failed (ch_proc c)) (g_children g).
Proof.
  intros [Hi _] Hr Hin Hcause. destruct (g_cancel g || eg_cancelled (g_eg g)) eqn:E; [by apply Hcause|].
  apply orb_false_iff in E as [Ek Ee]. destruct d; [|by left..]. right. apply Exists_exists. exists c. split; [done|].
  apply (p_ret_failed _ r); [|done]. revert Hi. unfold child_phase, g_ctx. rewrite Ek, Ee. by destruct (ch_outer c).
Qed.

Lemma Exists_failed_replace cs1 cs2 (c c' : child P) :
  (p_failed (ch_proc c) → p_failed (ch_proc c')) →
  Exists (λ c, p_failed (ch_proc c)) (cs1 ++ c :: cs2) → Exists (λ c, p_failed (ch_proc c)) (cs1 ++ c' :: cs2).
Proof. rewrite !Exists_app, !Exists_cons. naive_solver. Qed.

(** The functions of a group that is told more, one of which has moved on. *)
Lemma children_mono d g g' cs1 cs2 c c' :
  g_bg g = g_bg g' → (g_cancel g = true → g_cancel g' = true) →
  (eg_cancelled (g_eg g) = true → eg_cancelled (g_eg g') = true) →
  Forall (child_ok d g) (cs1 ++ c :: cs2) → child_ok d g' c' → Forall (child_ok d g') (cs1 ++ c' :: cs2).
Proof.
  intros Hbg Hk He [Hc1 [_ Hc2]%Forall_cons]%Forall_app Hc'.
  assert (∀ cs, Forall (child_ok d g) cs → Forall (child_ok d g') cs) as Hm.
  { intros cs Hcs. eapply Forall_impl; [exact Hcs|]. intros x. by apply child_ok_mono; [destruct d|..]. }
  apply Forall_app. split; [auto|]. constructor; auto.
Qed.

(** A function takes a step of its own. *)
Lemma group_child_inv d bg todo cs1 cs2 k e l r c p' :
  group_inv d (mkGroup bg todo (cs1 ++ c :: cs2) k e l r) →
  p_step (child_phase d (mkGroup bg todo (cs1 ++ c :: cs2) k e l r) (ch_outer c)) (ch_proc c) p' →
  group_inv d (mkGroup bg todo (cs1 ++ mkChild (ch_outer c) p' (ch_pc c) :: cs2) k e l r).
Proof.
  intros [Ht Hc Hcause Heg Hout Hsome Hret Herr Hlog] Hp. simpl in *.
  pose proof Hc as [_ [[Hi Hpc] _]%Forall_cons]%Forall_app.
  split; simpl; try done.
  - eapply children_mono; [..|exact Hc|]; try done. split; simpl; [by eapply p_inv_step|].
    destruct (ch_pc c); [done|..]; [destruct Hpc as [Er ?] | destruct Hpc as [[x Er] ?]];
      pose proof (p_ret_stable _ _ _ _ Hi Hp Er); eauto.
  - intros E. destruct (Hcause E) as [?|?]; [by left | right].
    eapply Exists_failed_replace; [|done]. simpl. by eapply p_failed_stable.
  - intros E. specialize (Hout E). exists_simpl. tauto.
  - by destruct todo, cs1.
  - intros x Ex. destruct (Hret x Ex) as (? & Hall & ?). split_and!; try done.
    by rewrite !Forall_app, !Forall_cons in *.
  - rewrite Hlog, !omap_app. simpl. f_equiv.
    assert (recorded (mkChild (ch_outer c) p' (ch_pc c)) = recorded c) as ->; [|done].
    unfold recorded; simpl. destruct (ch_pc c); try done. destruct Hpc as [[x Er] _].
    by rewrite Er, (p_ret_stable _ _ _ _ Hi Hp Er).
Qed.

Lemma group_step_inv d g g' : group_inv d g → group_step d g g' → group_inv d g'.
Proof.
  intros [Ht Hc Hcause Heg Hout Hsome Hret Herr Hlog] Hst.
  destruct Hst as [bg c todo cs k e l|bg todo cs1 cs2 k e l r c p' Hp|bg todo cs1 cs2 k e l o p r Hr
    |bg todo cs1 cs2 k e l o p r|bg cs k e l Hdone]; simpl in *.
  - apply Forall_cons in Ht as [[Hi Hpc] Ht]. split; simpl; try done.
    + apply Forall_app. split; [done|]. apply Forall_singleton. split; [done|]. by rewrite Hpc.
    + intros E. destruct (Hcause E) as [?|?]; [by left | right; by apply Exists_app; left].
    + intros E. specialize (Hout E). exists_simpl. tauto.
    + by destruct todo, cs.
    + rewrite omap_app. simpl. unfold recorded at 2. by rewrite Hpc, app_nil_r.
  - eapply group_child_inv; [|exact Hp]. by split.
  - pose proof Hc as Hall. apply Forall_app in Hc as [Hc1 [Hx Hc2]%Forall_cons].
    assert (d ≠ Running ∨ Exists (λ c, p_failed (ch_proc c)) (cs1 ++ mkChild o p CRun :: cs2)) as Hcs.
    { eapply (child_cause d _ _ r Hx); [done| |exact Hcause]. simpl. set_solver. }
    split; simpl; try done.
    + by eapply todo_mono; [..|exact Ht].
    + eapply children_mono; [..|exact Hall|]; try done.
      destruct Hx as [Hi _]. split; [|done]. simpl. eapply p_inv_mono; [|exact Hi]. by apply child_phase_le.
    + intros _. destruct Hcs; [by left | right]. by eapply Exists_failed_replace; [|done].
    + intros E. specialize (Hout E). exists_simpl. tauto.
    + by destruct todo, cs1.
    + rewrite Hlog, !omap_app. done.
  - pose proof Hc as Hall. apply Forall_app in Hc as [_ [[Hi [Er Hk]] _]%Forall_cons]. simpl in *. subst k.
    assert (eg_cancelled e = true → eg_cancelled (eg_return r e) = true) as Hcan.
    { rewrite eg_return_cancelled. by intros ->. }
    split; simpl; try done.
    + by eapply todo_mono; [..|exact Ht].
    + eapply children_mono; [..|exact Hall|]; try done.
      split; [|by eauto]. simpl. eapply p_inv_mono; [|exact Hi]. by apply child_phase_le.
    + intros _. destruct (Hcause eq_refl); [by left | right]. by eapply Exists_failed_replace; [|done].
    + intros E. specialize (Hout E). exists_simpl. tauto.
    + by destruct todo, cs1.
    + by rewrite eg_return_err, first_error_snoc, Herr.
    + rewrite Hlog, !omap_app. simpl. unfold recorded at 4. simpl. rewrite Er. solve_Permutation.
  - assert (k = true) as ->.
    { destruct cs as [|c cs]; [done|]. apply Forall_cons in Hdone as [Hd _]. apply Forall_cons in Hc as [[_ Hc] _].
      rewrite Hd in Hc. by destruct Hc. }
    split; simpl; try done. by intros r [= <-].
Qed.

Definition group_size g : nat :=
  (sum_list_with (λ c, p_size (ch_proc c) + 4) (g_todo g) + sum_list_with child_size (g_children g) +
   match g_ret g with None => 1 | Some _ => 0 end)%nat.

Lemma group_step_size d g g' : group_inv d g → group_step d g g' → (group_size g' < group_size g)%nat.
Proof.
  intros Hi Hst. pose proof (gi_todo _ _ Hi) as Ht. pose proof (gi_children _ _ Hi) as Hc. unfold group_size.
  destruct Hst as [bg c todo cs k e l|bg todo cs1 cs2 k e l r c p' Hp|bg todo cs1 cs2 k e l o p r Hr
    |bg todo cs1 cs2 k e l o p r|bg cs k e l Hdone]; simpl in *;
    rewrite ?sum_list_with_app; simpl; unfold child_size; simpl; try lia.
  - apply Forall_cons in Ht as [[_ Hpc] _]. rewrite Hpc. simpl. lia.
  - apply Forall_app in Hc as [_ [[Hci _] _]%Forall_cons]. pose proof (p_size_step _ _ _ Hci Hp). lia.
Qed.

(** The next step of a function of the group. *)
Lemma child_can_step d g cs1 c cs2 :
  group_inv d g → g_ret g = None → g_children g = cs1 ++ c :: cs2 → ch_pc c ≠ CDone →
  child_phase d g (ch_outer c) = Must ∨ p_failed (ch_proc c) → ∃ g', group_step d g g'.
Proof.
  intros Hi Hr Hcs Hpc Hd. pose proof (gi_children _ _ Hi) as Hc. rewrite Hcs in Hc.
  apply Forall_app in Hc as [_ [[Hci Hcpc] _]%Forall_cons].
  destruct g as [bg todo cs k e l ret]; simpl in *. subst ret cs. destruct c as [o p pc]; simpl in *.
  destruct pc as [|r|]; [|eexists; apply group_record | done].
  destruct (p_ret p) as [r|] eqn:Er; [eexists; by eapply group_cancel|].
  destruct (p_progress _ _ Hci Er Hd) as [p' Hp]. eexists.
  by apply (group_child d bg todo cs1 cs2 k e l None (mkChild o p CRun) p').
Qed.

Lemma group_can_step d g :
  group_inv d g → g_ret g = None → d = Must ∨ Exists (λ c, p_failed (ch_proc c)) (g_children g) →
  ∃ g', group_step d g g'.
Proof.
  intros Hi Hr Hd. destruct (g_todo g) as [|c todo] eqn:Et.
  2:{ destruct g; simpl in *; subst. eexists. apply group_go. }
  destruct (decide (Forall (λ c, child_rank (ch_pc c) = 0%nat) (g_children g))) as [Hall|Hnot].
  { destruct g as [bg todo cs k e l ret]; simpl in *; subst. eexists. apply group_wait.
    eapply Forall_impl; [exact Hall|]. intros c Hc. cbv beta in Hc. destruct (ch_pc c) as [|r|]; cbn in Hc; [lia | lia | reflexivity]. }
  assert (∀ c, c ∈ g_children g → ch_pc c ≠ CDone →
    child_phase d g (ch_outer c) = Must ∨ p_failed (ch_proc c) → ∃ g', group_step d g g') as Hstep.
  { intros c [cs1 [cs2 Hcs]]%list_elem_of_split Hpc Hm. by eapply child_can_step. }
  destruct (g_cancel g) eqn:Ek.
  - apply not_Forall_Exists, Exists_exists in Hnot as (c & Hc & Hpc); [|intros ?; apply _].
    apply (Hstep c Hc); [intros E; apply Hpc; simpl; by rewrite E|]. left. unfold child_phase, g_ctx. rewrite Ek.
    destruct (ch_outer c); [done|]. by rewrite orb_true_r.
  - assert (∀ c, c ∈ g_children g → ch_pc c ≠ CDone) as Hrun.
    { intros c Hc E. pose proof (gi_children _ _ Hi) as Hok. rewrite Forall_forall in Hok.
      destruct (Hok c Hc) as [_ Hpc]. rewrite E, Ek in Hpc. naive_solver. }
    destruct Hd as [->|Hf].
    + destruct (g_bg g) eqn:Eb.
      * pose proof (gi_outer _ _ Hi Eb) as Ho. rewrite Et in Ho. apply Exists_exists in Ho as (c & Hc & Ho).
        apply (Hstep c Hc); [by apply Hrun|]. left. unfold child_phase. by rewrite Ho, Ek.
      * pose proof (gi_some _ _ Hi) as Hs. rewrite Et in Hs. simpl in Hs.
        destruct (g_children g) as [|c cs] eqn:Ecs; [done|].
        apply (Hstep c); [by left | apply Hrun; by left|]. left. unfold child_phase, g_ctx. rewrite Ek, Eb. by destruct (ch_outer c).
    + apply Exists_exists in Hf as (c & Hc & Hf). apply (Hstep c Hc); [by apply Hrun | by right].
Qed.

(** All functions have returned, and nothing of theirs is left running. *)
Definition group_clean g : Prop :=
  g_todo g = [] ∧ Forall (λ c, is_Some (p_ret (ch_proc c)) ∧ p_clean (ch_proc c)) (g_children g).

#[global] Instance group_spec : ProcSpec (group P G).
Proof.
  refine {| p_inv := group_inv; p_failed g := Exists (λ c, p_failed (ch_proc c)) (g_children g);
            p_clean := group_clean; p_size := group_size |}.
  - intros d d' g Hd [Ht Hc Hcause Heg Hout Hsome Hret Herr Hlog]. split; try done.
    + by eapply todo_mono; [..|exact Ht].
    + eapply Forall_impl; [exact Hc|]. intros c. by apply child_ok_mono.
    + intros E. destruct (Hcause E); [left | by right]. by destruct d, d'.
  - apply group_step_inv.
  - apply group_step_size.
  - apply group_can_step.
  - intros d g g' r Hi Hst. by destruct Hst.
  - intros d g g' Hst Hf. destruct Hst; simpl in *; try done.
    + by apply Exists_app; left.
    + eapply Exists_failed_replace; [|done]. simpl. by eapply p_failed_stable.
    + by eapply Exists_failed_replace; [|done].
    + by eapply Exists_failed_replace; [|done].
  - intros g r Hi Hr. destruct (gi_ret _ _ Hi r Hr) as (Et & Hall & _).
    assert (g_cancel g = true) as Hk.
    { pose proof (gi_some _ _ Hi) as Hs. pose proof (gi_children _ _ Hi) as Hc. rewrite Et in Hs. simpl in Hs.
      destruct (g_children g) as [|c cs]; [done|]. apply Forall_cons in Hall as [Hd _].
      apply Forall_cons in Hc as [[_ Hc] _]. rewrite Hd in Hc. by destruct Hc. }
    destruct (gi_cause _ _ Hi) as [?|?]; [by rewrite Hk | done..].
  - intros d g r Hi Hr. destruct (gi_ret _ _ Hi r Hr) as (Et & Hall & _). split; [done|].
    apply Forall_forall. intros c Hc. pose proof (gi_children _ _ Hi) as Hok. rewrite Forall_forall in Hok, Hall.
    destruct (Hok c Hc) as [Hci Hpc]. rewrite (Hall c Hc) in Hpc. destruct Hpc as [[x Hx] _].
    split; [by exists x | by eapply p_ret_clean].
Defined.

(** When all functions are recorded, the log has all their results. *)
Lemma group_log_all d g :
  group_inv d g → Forall (λ c, ch_pc c = CDone) (g_children g) →
  map Some (g_log g) ≡ₚ map (λ c, p_ret (ch_proc c)) (g_children g).
Proof.
  intros Hi Hall. rewrite (gi_log _ _ Hi). pose proof (gi_children _ _ Hi) as Hc.
  induction (g_children g) as [|c cs IH]; [done|]. apply Forall_cons in Hall as [Hpc Hall].
  apply Forall_cons in Hc as [[_ Hok] Hc]. simpl. unfold recorded at 1. rewrite Hpc in *.
  destruct Hok as [[r ->] _]. simpl. f_equiv. by apply IH.
Qed.

(** A new group of processes that have just begun. *)
Lemma new_group_inv bg (fs : list (child P)) :
  fs ≠ [] → (bg = true → Exists (λ c, ch_outer c = true) fs) →
  Forall (λ c, p_inv Running (ch_proc c) ∧ ch_pc c = CRun) fs → group_inv Running (new_group bg fs).
Proof.
  intros Hfs Hout Hi. split; simpl; try done.
  - eapply Forall_impl; [exact Hi|]. intros c [Hp ?]. split; [|done].
    eapply p_inv_mono; [|exact Hp]. done.
  - by rewrite eg_new_cancelled.
  - by rewrite eg_new_cancelled.
  - intros E. rewrite app_nil_r. auto.
  - by rewrite app_nil_r.
  - by rewrite eg_new_err.
Qed.
End group.

(** * A port *)

Section root.
Context {Q : Type} `{ProcSpec Q} `{ServersSpec}.
Implicit Types s : root Q.

Definition root_rank (pc : root_pc) : nat :=
  match pc with RListen => 5 | RRun => 3 | RReturned => 2 | RClosed => 1 | RRet _ => 0 end%nat.

Definition mux_size (m : option leaf) : nat := match m with Some m => p_size m | None => 0%nat end.

Record root_inv (d : phase) s : Prop := {
  ri_group : p_inv d (r_group s);
  ri_mux m : r_mux s = Some m → p_inv (listener_phase (r_pc s)) m;
  ri_listen : r_pc s = RListen → r_mux s = None ∧ r_nolisten s = false;
  ri_nolisten : r_nolisten s = true → r_pc s = RRet (Some ErrListen) ∧ r_mux s = None;
  ri_returned : r_nolisten s = false →
    match r_pc s with RListen | RRun => True | _ => is_Some (p_ret (r_group s)) end;
}.

(** It never listened, or its listener is closed and its servers are.  The
    multiplexer, for which [run] does not wait, is not part of this: see
    [ports_ended]. *)
Definition root_clean s : Prop :=
  r_nolisten s = true ∧ r_mux s = None ∨
  listener_phase (r_pc s) = Must ∧ is_Some (p_ret (r_group s)) ∧ p_clean (r_group s).

Ltac root_simpl := cbn [r_pc r_group r_mux r_err r_nolisten] in *.

Lemma root_step_inv d s s' : root_inv d s → root_step d s s' → root_inv d s'.
Proof.
  intros [Hg Hm Hl Hn Hr] Hst.
  destruct Hst as [q m e n|q m e n|q q' m e n Hq|pc q m m' e n r Hp Hret|q m e n r Hq|q m e n|q m e n|pc q q' m e n Hq Hst];
    root_simpl.
  - destruct (Hl eq_refl) as [-> ->]. by split.
  - destruct (Hl eq_refl) as [-> ->]. split; root_simpl; try done. by intros m [= <-].
  - split; root_simpl; try done. by eapply p_inv_step.
  - split; root_simpl; try done.
    + intros x [= <-]. eapply p_inv_step; [by apply Hm | done].
    + intros ->. by destruct (Hl eq_refl).
    + intros ->. by destruct (Hn eq_refl).
  - split; root_simpl; try done.
    intros ->. by destruct (Hn eq_refl).
  - split; root_simpl; try done.
    + intros x Hx. by eapply p_inv_mono; [|exact (Hm x Hx)].
    + intros ->. by destruct (Hn eq_refl).
  - split; root_simpl; try done. intros ->. by destruct (Hn eq_refl).
  - split; root_simpl; try done; [by eapply p_inv_step|]. intros E. specialize (Hr E).
    destruct (p_ret q) as [r|] eqn:Er; [|done]. pose proof (p_ret_stable _ _ _ _ Hg Hst Er) as Hr'.
    destruct pc; [done|done|..]; by exists r.
Qed.

Definition root_size s : nat := (root_rank (r_pc s) + mux_size (r_mux s) + p_size (r_group s))%nat.

Lemma root_step_size d s s' : root_inv d s → root_step d s s' → (root_size s' < root_size s)%nat.
Proof.
  intros [Hg Hm Hl Hn Hr] Hst. unfold root_size.
  destruct Hst as [q m e n|q m e n|q q' m e n Hq|pc q m m' e n r Hp Hret|q m e n r Hq|q m e n|q m e n|pc q q' m e n Hq Hst];
    cbn [r_pc r_mux r_group] in *; try (simpl; lia).
  - pose proof (p_size_step _ _ _ Hg Hq). lia.
  - unfold mux_size. pose proof (p_size_step _ _ _ (Hm m eq_refl) Hp). lia.
  - pose proof (p_size_step _ _ _ Hg Hst). lia.
Qed.

#[global] Instance root_spec : ProcSpec (root Q).
Proof.
  refine {| p_inv := root_inv; p_failed s := r_nolisten s = true ∨ p_failed (r_group s);
            p_clean := root_clean; p_size := root_size |}.
  - intros d d' s Hd [Hg Hm Hl Hn Hr]. split; try done. by eapply p_inv_mono.
  - apply root_step_inv.
  - apply root_step_size.
  - intros d [pc q m e n] [Hg Hm Hl Hn Hr] Hret Hd; simpl in *. destruct pc; [..|done].
    + eexists. apply root_listen.
    + destruct (p_ret q) as [r|] eqn:Er; [eexists; by apply root_returned|].
      destruct (p_progress d q Hg Er) as [q' Hq]; [|eexists; by apply root_group].
      destruct Hd as [?|[E|?]]; [by left | by destruct (Hn E) | by right].
    + eexists. apply root_close.
    + eexists. apply root_return.
  - intros d s s' r Hi Hst. by destruct Hst.
  - intros d s s' Hst [Hf|Hf]; destruct Hst; simpl in *; try (by left); try (by right).
    + right. by eapply p_failed_stable.
    + right. by eapply p_failed_stable.
  - intros s r [Hg Hm Hl Hn Hr] Hret. destruct (r_nolisten s) eqn:En; [by left | right].
    specialize (Hr eq_refl). simpl in Hret. destruct (r_pc s); try done. destruct Hr as [x Hx]. by eapply p_ret_failed.
  - intros d s r [Hg Hm Hl Hn Hr] Hret. unfold root_clean. destruct (r_nolisten s) eqn:En.
    + left. split; [done|]. by apply Hn.
    + right. specialize (Hr eq_refl). simpl in Hret. destruct (r_pc s); try done. destruct Hr as [x Hx].
      split; [done|]. split; [by exists x | by eapply p_ret_clean].
Defined.

Lemma root_run_inv d q : p_inv d q → root_inv d (root_run q).
Proof. by split. Qed.
End root.

(** * The endpoint *)

(** A process with the context it was given: done once, it stays done. *)
Inductive ctx_step {P} `{Proc P} : bool * P → bool * P → Prop :=
  | ctx_cancel p : ctx_step (false, p) (true, p)
  | ctx_proc b p p' : p_step (of_ctx b) p p' → ctx_step (b, p) (b, p').

Lemma ctx_run {P} `{ProcSpec P} n (p p' : P) b b' :
  nsteps ctx_step n (b, p) (b', p') → p_inv (of_ctx b) p →
  p_inv (of_ctx b') p' ∧ (n + p_size p' + (if b' then 0 else 1) <= p_size p + (if b then 0 else 1))%nat.
Proof.
  intros Hr. remember (b, p) as c eqn:Ec. remember (b', p') as c' eqn:Ec'.
  revert b p b' p' Ec Ec'. induction Hr as [c|n c1 c2 c3 Hst Hr IH]; intros b p b' p' -> Ec' Hi.
  - simplify_eq. split; [done | lia].
  - inversion Hst as [q|b0 q q' Hq]; subst.
    + destruct (IH _ _ _ _ eq_refl eq_refl) as [Hi' Hn]; [by eapply p_inv_mono; [|exact Hi]|]. split; [done | lia].
    + destruct (IH _ _ _ _ eq_refl eq_refl) as [Hi' Hn]; [by eapply p_inv_step|].
      pose proof (p_size_step _ _ _ Hi Hq). split; [done | destruct b; lia].
Qed.

(** A process told to stop, or with a failure in it, has returned or takes a
    step. *)
Lemma ctx_progress {P} `{ProcSpec P} b (p : P) :
  p_inv (of_ctx b) p → b = true ∨ p_failed p → is_Some (p_ret p) ∨ ∃ c', ctx_step (b, p) c'.
Proof.
  intros Hi Hb. destruct (p_ret p) as [r|] eqn:Er; [by left; exists r|]. right.
  destruct (p_progress _ _ Hi Er) as [p' Hp]; [by destruct Hb as [->|?]; [left | right]|].
  exists (b, p'). by constructor.
Qed.

(** * The multiplexers of the ports *)

(** [rootServer.run] does not wait for the goroutine that runs [mux.Serve] of its
    port: it may still be serving when [run] returns, with its listener closed. *)
Definition mux_ended {Q} (s : root Q) : bool :=
  match r_mux s with Some (Serving _) => false | _ => true end.

Definition ports_ended {Q G} (g : group (root Q) G) : bool :=
  forallb (λ c, mux_ended (ch_proc c)) (g_children g).

Section muxes.
Context {Q G : Type} `{ServersSpec} `{ProcSpec Q} `{ErrGroupSpec G}.

(** A multiplexer that is left can return. *)
Lemma mux_can_return d (g : group (root Q) G) :
  group_inv d g → is_Some (g_ret g) → ports_ended g = false → ∃ g', group_step d g g'.
Proof.
  intros Hg [r Hr] Hm. destruct (gi_ret _ _ Hg r Hr) as (_ & Hall & _). pose proof (gi_children _ _ Hg) as Hok.
  unfold ports_ended in Hm. apply not_true_iff_false in Hm. rewrite forallb_forall in Hm.
  destruct (decide (Exists (λ c, mux_ended (ch_proc c) = false) (g_children g))) as [He|He].
  2:{ destruct Hm. intros c Hc. destruct (mux_ended (ch_proc c)) eqn:E; [done|]. destruct He.
      apply Exists_exists. exists c. by rewrite list_elem_of_In. }
  apply Exists_exists in He as (c & Hin & Hc). rewrite Forall_forall in Hall, Hok.
  destruct (Hok c Hin) as [_ Hret]. rewrite (Hall c Hin) in Hret. destruct Hret as [[x Hret] _].
  destruct g as [bg todo cs k e l gr]. simpl in *. apply list_elem_of_split in Hin as (cs1 & cs2 & ->).
  destruct c as [o [pc q m re n] cpc]. unfold mux_ended in Hc. simpl in *.
  destruct m as [[kind|]|]; [|done..]. destruct pc as [| | | |y]; try done.
  destruct (leaf_stops kind) as [res Hres]. eexists.
  eapply (group_child d bg todo cs1 cs2 k e l gr (mkChild o (mkRoot (RRet y) q (Some (Serving kind)) re n) cpc)).
  by eapply root_mux; [apply (leaf_return Must kind res) |].
Qed.

(** Told to stop, the group comes to an end, and so do the multiplexers. *)
Lemma ctx_ends n : ∀ g : group (root Q) G,
  (p_size g < n)%nat → p_inv Must g →
  ∃ k g', nsteps ctx_step k (true, g) (true, g') ∧ is_Some (g_ret g') ∧ ports_ended g' = true.
Proof.
  induction n as [|n IH]; intros g Hn Hi; [lia|].
  assert ((is_Some (g_ret g) ∧ ports_ended g = true) ∨ ∃ g', p_step Must g g') as [Hdone|[g' Hst]].
  { destruct (g_ret g) as [r|] eqn:Er; [|right; by apply p_progress; [| |left]].
    destruct (ports_ended g) eqn:Em; [by left; split; [exists r|]|]. right.
    by apply mux_can_return; [|exists r|]. }
  - exists 0%nat, g. split; [constructor | done].
  - pose proof (p_size_step _ _ _ Hi Hst). destruct (IH g') as (k & g2 & Hk & Hend); [lia | by eapply p_inv_step|].
    exists (Datatypes.S k), g2. split; [|done]. eapply nsteps_l; [|exact Hk]. by constructor.
Qed.
End muxes.

Section endpoint.
Context {G : Type} `{ServersSpec} `{ErrGroupSpec G} {cert pool : Type}.

Lemma runSubServer_inv {P} `{ProcSpec P} (p : P) : p_inv Running p → sub_inv Running (runSubServer p).
Proof. by split. Qed.

Lemma runServers_inv {P} `{ProcSpec P} (servers : list P) :
  servers ≠ [] → Forall (p_inv Running) servers → group_inv Running (runServers G servers).
Proof.
  intros Hne Hi. apply new_group_inv; [by destruct servers | done|].
  apply Forall_fmap. eapply Forall_impl; [exact Hi|]. intros p Hp. split; [by apply runSubServer_inv | done].
Qed.

Lemma secure_inv (servers : list leaf) :
  servers ≠ [] → Forall (p_inv Running) servers → group_inv Running (secureServer_serve G servers).
Proof.
  intros Hne Hi. apply new_group_inv; [done | by intros _; left|].
  apply Forall_cons_2; [done|]. apply Forall_singleton. split; [|done]. by apply runServers_inv.
Qed.

Lemma exposed_inv (sc : option (SecurityConfig cert pool)) (servers : list leaf) :
  servers ≠ [] → Forall (p_inv Running) servers →
  exposed_servers G sc servers ≠ [] ∧ Forall (p_inv Running) (exposed_servers G sc servers).
Proof.
  intros Hne Hi. pose proof (secure_inv servers Hne Hi) as Hs. unfold exposed_servers.
  assert (Forall (p_inv (P := exposed G) Running) (map inl servers)) as Hl by (by apply Forall_fmap).
  destruct (mode sc); (split; [by destruct servers|]); [done | by constructor | by constructor].
Qed.

Lemma endpoint_inv (c : EpConfig cert pool) : group_inv Running (endpoint_Run G c).
Proof.
  assert (∀ k, p_inv Running (Serving k)) as Hleaf by done.
  assert (∀ sc : option (SecurityConfig cert pool),
    root_inv Running (root_run (runServers G (exposed_servers G sc [Serving Http; Serving Grpc])))) as Hport.
  { intros sc. destruct (exposed_inv sc [Serving Http; Serving Grpc]) as [Hne Hi]; [done | by repeat constructor|].
    apply root_run_inv. by apply runServers_inv. }
  apply new_group_inv; [done | done|]. apply Forall_app. split.
  - repeat apply Forall_cons_2; [split; [apply Hport | done].. | done].
  - destruct (InfoPort c =? 0); [done|]. apply Forall_singleton. split; [|done].
    apply root_run_inv. apply runServers_inv; [done | by repeat constructor].
Qed.
End endpoint.
