(* ===== verification/Assembly.v ===== *)
(** What the servers are made of: the HTTP routes and gRPC services of each port
    and the health status (pkg/server/server.go, pkg/endpoint/endpoint.go,
    pprof.go and server.go), and the constant answers of the etcd API
    (pkg/server/etcd/cluster.go and lease.go).

    [http.ServeMux] is modelled for cleaned paths; handlers are names here, those
    of the application are definitions of the election's file.  Go iterates maps in
    any order, so routes are registered in the order of an argument. *)

From S2P Require Import Prelude Storage.

#[local] Open Scope string_scope.
#[local] Open Scope Z_scope.

(** * [http.ServeMux] *)

Inductive handler :=
  | metricsHandler | pprofHandler (profile : string)
  | httpHealth | revisionStatus | electionInfo.

#[global] Instance handler_eq_dec : EqDecision handler.
Proof. solve_decision. Defined.

Abbreviation routes := (gmap string handler).

(** [Handle] panics when the pattern is registered already. *)
Definition Handle (mux : routes) (e : string * handler) : option routes :=
  match mux !! e.1 with
  | Some _ => None
  | None => Some (<[e.1 := e.2]> mux)
  end.

Fixpoint handle_all (mux : routes) (l : list (string * handler)) : option routes :=
  match l with
  | [] => Some mux
  | e :: l' => mux' ← Handle mux e; handle_all mux' l'
  end.

Fixpoint ends_in_slash (s : string) : bool :=
  match s with
  | EmptyString => false
  | String c EmptyString => Ascii.eqb c (Ascii.ascii_of_nat 47)
  | String _ s' => ends_in_slash s'
  end.

(** The longest pattern that ends in a slash and starts the path. *)
Definition longest_match (mux : routes) (path : string) : option (string * handler) :=
  foldr (λ e best,
      if ends_in_slash e.1 && String.prefix e.1 path then
        match best with
        | Some b => if (String.length b.1 <? String.length e.1)%nat then Some e else best
        | None => Some e
        end
      else best) None (map_to_list mux).

Inductive routed := Found (h : handler) | Redirect (path : string) | NotFound.

(** An exact pattern, else a redirect to the path with a slash, else a subtree. *)
Definition route (mux : routes) (path : string) : routed :=
  match mux !! path with
  | Some h => Found h
  | None =>
      match mux !! (path ++ "/") with
      | Some _ => Redirect (path ++ "/")
      | None => match longest_match mux path with Some (_, h) => Found h | None => NotFound end
      end
  end.

(** [newHttpServerWithHandlers]; [order] is the order of the iterations. *)
Definition newHttpServerWithHandlers (order : routes → list (string * handler)) (handlersMaps : list routes) :
    option routes :=
  handle_all ∅ (flat_map order handlersMaps).

(** * The handlers *)

(** Of the Prometheus client. *)
Definition GetHttpHandlers : routes := {["/metrics" := metricsHandler]}.

Definition httpPrefixPProf : string := "/debug/pprof".

Definition getPProfHandlers : routes :=
  list_to_map (map (λ p, (httpPrefixPProf ++ "/" ++ p, pprofHandler p))
    [""; "profile"; "symbol"; "cmdline"; "trace"; "heap"; "goroutine"; "threadcreate"; "block"; "mutex"]).

Definition GetClientHttpHandlers : routes := {["/health" := httpHealth]}.

Definition GetPeerHttpHandlers : routes := {["/status" := revisionStatus]}.

Definition GetInfoHttpHandlers : routes :=
  {["/health" := httpHealth; "/status" := revisionStatus; "/election" := electionInfo]}.

(** * The servers of the ports *)

Section ports.
Context (order : routes → list (string * handler)).

Definition buildClientHttpServer : option routes :=
  newHttpServerWithHandlers order [GetHttpHandlers; getPProfHandlers; GetClientHttpHandlers].

Definition buildPeerHttpServer : option routes := newHttpServerWithHandlers order [GetPeerHttpHandlers].

Definition buildMetricsHttpServer : option routes :=
  newHttpServerWithHandlers order [GetHttpHandlers; getPProfHandlers; GetInfoHttpHandlers].
End ports.

(** * gRPC services and health *)

Inductive grpc_service :=
  | EtcdLease | EtcdWatch | EtcdKV | EtcdCluster | BrainRead | BrainWrite | BrainWatch_ | Health.

(** [Register] of the etcd server and of the native one. *)
Definition etcd_Register : list grpc_service := [EtcdLease; EtcdWatch; EtcdKV; EtcdCluster].
Definition brain_Register : list grpc_service := [BrainRead; BrainWrite; BrainWatch_].

Inductive serving_status := SERVING | NOT_SERVING.

(** The health service of gRPC keeps the last status it was given. *)
Class HealthServer (H : Type) := {
  h_new : H;
  SetServingStatus : serving_status → H → H;
  h_status : H → serving_status;
}.

Class HealthSpec (H : Type) `{HealthServer H} := {
  h_status_set s h : h_status (SetServingStatus s h) = s;
}.

Section health.
Context {H : Type} `{HealthServer H}.

(** The health server, the services of the gRPC servers that were built, and
    whether this node leads. *)
Record server_state := mkServer {
  sv_health : H; sv_services : list (list grpc_service); sv_leading : bool }.

(** [NewServer]; the election runs from here on. *)
Definition NewServer : server_state := mkServer h_new [] false.

(** [register], called by [RegisterClient] and by [RegisterPeer] when the gRPC
    server of a port is built. *)
Definition register (s : server_state) : server_state :=
  mkServer (SetServingStatus NOT_SERVING (sv_health s))
    (sv_services s ++ [etcd_Register ++ brain_Register ++ [Health]])%list (sv_leading s).

(** The callbacks of the election. *)
Definition onStartedLeading (s : server_state) : server_state :=
  mkServer (SetServingStatus SERVING (sv_health s)) (sv_services s) true.

Definition onStoppedLeading (s : server_state) : server_state :=
  mkServer (SetServingStatus SERVING (sv_health s)) (sv_services s) false.
End health.
Arguments server_state : clear implicits.

(** * Constant answers of the etcd API *)

(** The header's cluster id and the members. *)
Definition MemberList : (Z * list ()) * option err := ((0, []), None).
Definition MemberAdd : option err := Some (Errorf "member Add is not supported").
Definition MemberRemove : option err := Some (Errorf "member remove is not supported").
Definition MemberUpdate : option err := Some (Errorf "member update is not supported").
Definition MemberPromote : option err := Some (Errorf "member promote is not supported").
Definition LeaseRevoke : option err := Some (Errorf "lease revoke is not supported").
Definition LeaseKeepAlive : option err := Some (Errorf "lease keep alive is not supported").
Definition LeaseTimeToLive : option err := Some (Errorf "lease time to live is not supported").
Definition LeaseLeases : option err := Some (Errorf "lease leases is not supported").

(** * Facts *)

Lemma handle_all_fresh (mux : routes) l :
  NoDup l.*1 → Forall (λ e, mux !! e.1 = None) l → handle_all mux l = Some (list_to_map l ∪ mux).
Proof.
  revert mux. induction l as [|[k h] l IH]; intros mux Hnd Hf; simpl.
  - by rewrite map_empty_union.
  - rewrite fmap_cons in Hnd. apply NoDup_cons in Hnd as [Hk Hnd]. apply Forall_cons in Hf as [Hm Hf]. cbn [fst] in *.
    unfold Handle; simpl. rewrite Hm. simpl. rewrite IH; [|done|].
    + f_equal. rewrite <-insert_union_l. symmetry. apply insert_union_r.
      by apply not_elem_of_list_to_map_1.
    + rewrite Forall_forall in *. intros e He. rewrite lookup_insert_ne; [by apply Hf|].
      cbn [fst]. intros ->. apply Hk. by apply list_elem_of_fmap_2.
Qed.

(** Maps without a common pattern give one mux, whatever the order. *)
Lemma new_http_server order (ms : list routes) :
  (∀ m, order m ≡ₚ map_to_list m) → NoDup (flat_map map_to_list ms).*1 →
  newHttpServerWithHandlers order ms = Some (list_to_map (flat_map map_to_list ms)).
Proof.
  intros Ho Hnd. unfold newHttpServerWithHandlers.
  assert (flat_map order ms ≡ₚ flat_map map_to_list ms) as Hp.
  { clear Hnd. induction ms as [|m ms IH]; [done|]. simpl. by rewrite Ho, IH. }
  rewrite handle_all_fresh.
  - rewrite map_union_empty. f_equal. apply list_to_map_proper; [|done]. by rewrite Hp.
  - by rewrite Hp.
  - apply Forall_forall. intros e _. apply lookup_empty.
Qed.
