(* ===== verification/NetUtil.v ===== *)
(** The address of a node: pkg/util/net.go and env.go; and pkg/util/util.go.

    An address is its version and its number; the text of an IPv6 address and the
    reading of a boolean by github.com/spf13/cast are parameters.  [net.Interfaces]
    is the list of interfaces, each with the addresses it reports, or none when
    that fails. *)

From S2P Require Import Prelude GoMonad Storage Strconv.

(** [defer Recover()] in a goroutine: the status a panic ends the process with. *)
Definition Recover (panicked : bool) : option Z := if panicked then Some 2 else None.

Inductive netIP := IPv4 (v : Z) | IPv6 (v : Z).

Class IPText := ipv6_text : Z → bytes.

(** ** The switches of the environment variable KUBE_DEBUG *)

Record switches := mkSwitches { forceInIPv6Mode : bool; skipPrivateAddr : bool }.

Definition parseEnv (s : bytes) : bytes * bytes :=
  match Split Byte.x3d s with
  | [key; val] => (key, val)
  | _ => (s, [])
  end.

Fixpoint env_loop (ToBool : bytes → bool) (inputs : list bytes) (sw : switches) : switches :=
  match inputs with
  | [] => sw
  | input :: inputs' =>
      let '(key, val) := parseEnv input in
      env_loop ToBool inputs'
        (if bytes_eqb key (str "ipv6_only") then mkSwitches (ToBool val) (skipPrivateAddr sw)
         else if bytes_eqb key (str "skip_private_addr") then mkSwitches (forceInIPv6Mode sw) (ToBool val)
         else sw)
  end.

Definition env_init (ToBool : bytes → bool) (s : bytes) : switches :=
  env_loop ToBool (Split Byte.x2c s) (mkSwitches false false).

(** ** Addresses *)

(** [IPNet.Contains]: the first [ones] bits agree. *)
Definition Contains (block : netIP * Z) (ip : netIP) : bool :=
  match block, ip with
  | (IPv4 n, ones), IPv4 v => Z.shiftr v (32 - ones) =? Z.shiftr n (32 - ones)
  | (IPv6 n, ones), IPv6 v => Z.shiftr v (128 - ones) =? Z.shiftr n (128 - ones)
  | _, _ => false
  end.

Definition dotted (a b c d : Z) : Z := a * 2 ^ 24 + b * 2 ^ 16 + c * 2 ^ 8 + d.

Definition getPrivateIPBlocks : list (netIP * Z) :=
  [(IPv4 (dotted 10 0 0 0), 8); (IPv4 (dotted 172 16 0 0), 12); (IPv4 (dotted 192 168 0 0), 16);
   (IPv6 (Z.shiftl 253 120), 8)].

Definition isPrivate (ip : netIP) : bool := existsb (λ block, Contains block ip) getPrivateIPBlocks.

Definition IsLoopback (ip : netIP) : bool :=
  match ip with IPv4 _ => Contains (IPv4 (dotted 127 0 0 0), 8) ip | IPv6 v => v =? 1 end.

Definition IsLinkLocalUnicast (ip : netIP) : bool :=
  Contains (IPv4 (dotted 169 254 0 0), 16) ip || Contains (IPv6 (Z.shiftl 1018 118), 10) ip.

Section host.
Context `{IPText} (sw : switches).

Definition ipv4_text (v : Z) : bytes :=
  FormatUint (Z.shiftr v 24 mod 256) ++ str "." ++ FormatUint (Z.shiftr v 16 mod 256) ++ str "." ++
  FormatUint (Z.shiftr v 8 mod 256) ++ str "." ++ FormatUint (v mod 256).

Record ip := mkIp { ipv4 : bytes; ipv6 : bytes; ip_isPrivate : bool }.

Definition noIp : ip := mkIp [] [] false.

Definition is_nonempty (s : bytes) : bool := match s with [] => false | _ => true end.

Definition getHost (i : ip) : bytes :=
  if is_nonempty (ipv4 i) && negb (forceInIPv6Mode sw) then ipv4 i
  else str "[" ++ ipv6 i ++ str "]".

Definition valid (i : ip) : bool := is_nonempty (ipv4 i) || is_nonempty (ipv6 i).

(** The loop of [getIp]; [ret] is the address found so far. *)
Fixpoint getIp (addrs : list netIP) (ret : ip) : ip :=
  match addrs with
  | [] => ret
  | a :: addrs' =>
      if IsLoopback a || IsLinkLocalUnicast a then getIp addrs' ret
      else
        let p := isPrivate a in
        let ret := match a with
                   | IPv6 v => mkIp (ipv4 ret) (ipv6_text v) p
                   | IPv4 v => if negb (forceInIPv6Mode sw) then mkIp (ipv4_text v) (ipv6 ret) p
                               else mkIp (ipv4 ret) (ipv6 ret) p
                   end in
        if p && skipPrivateAddr sw then getIp addrs' noIp
        else if valid ret then ret
        else getIp addrs' ret
  end.

Record netInterface := mkInterface { if_up : bool; if_Name : bytes; if_Addrs : option (list netIP) }.

Fixpoint getLocalIPs (inters : list netInterface) : list ip :=
  match inters with
  | [] => []
  | inter :: inters' =>
      if if_up inter && negb (has_prefix (if_Name inter) (str "lo")) then
        match if_Addrs inter with
        | None => getLocalIPs inters'
        | Some addrs =>
            let i := getIp addrs noIp in
            if valid i then i :: getLocalIPs inters' else getLocalIPs inters'
        end
      else getLocalIPs inters'
  end.

Definition preferMinimalIPv4 (i j : ip) : bool :=
  if is_nonempty (ipv4 i) && negb (is_nonempty (ipv4 j)) then true
  else if negb (is_nonempty (ipv4 i)) && is_nonempty (ipv4 j) then false
  else if is_nonempty (ipv4 i) && is_nonempty (ipv4 j) then bytes_ltb (ipv4 i) (ipv4 j)
  else bytes_ltb (ipv6 i) (ipv6 j).

Definition preferMinimalPrivate (i j : ip) : bool :=
  if ip_isPrivate i && negb (ip_isPrivate j) then true
  else if negb (ip_isPrivate i) && ip_isPrivate j then false
  else preferMinimalIPv4 i j.

(** [sort.Slice] with this order; it is not stable, see [host_pinned]. *)
Definition ip_le (i j : ip) : Prop := preferMinimalPrivate j i = false.

#[global] Instance ip_le_dec : RelDecision ip_le.
Proof. intros i j. unfold ip_le. apply _. Defined.

Fixpoint first_host (ips : list ip) : bytes :=
  match ips with
  | [] => []
  | i :: ips' => if is_nonempty (getHost i) then getHost i else first_host ips'
  end.

Definition GetHost (inters : list netInterface) : bytes :=
  first_host (merge_sort ip_le (getLocalIPs inters)).

(** * The choice does not depend on the order of the interfaces *)

Lemma getHost_nonempty i : is_nonempty (getHost i) = true.
Proof. unfold getHost. destruct (is_nonempty (ipv4 i)) eqn:E; [|done]. by destruct (forceInIPv6Mode sw). Qed.

Lemma ltb_irrefl a : bytes_ltb a a = false.
Proof. destruct (bytes_ltb a a) eqn:E; [|done]. apply bytes_ltb_spec in E. by apply bytes_lt_irrefl in E. Qed.

Lemma ltb_false a b : bytes_ltb a b = false ↔ bytes_le b a.
Proof. rewrite <-bytes_not_lt, <-bytes_ltb_spec. by destruct (bytes_ltb a b). Qed.

#[global] Instance ip_le_total : Total ip_le.
Proof.
  intros i j. unfold ip_le, preferMinimalPrivate, preferMinimalIPv4.
  assert (∀ a b, bytes_ltb a b = false ∨ bytes_ltb b a = false) as Hb.
  { intros a b. rewrite !ltb_false. destruct (decide (bytes_le b a)) as [|Hn]; [by left|]. right.
    apply bytes_le_lteq. left. by apply bytes_not_le in Hn. }
  destruct (ip_isPrivate i), (ip_isPrivate j), (is_nonempty (ipv4 i)), (is_nonempty (ipv4 j)); simpl; auto;
    destruct (Hb (ipv4 i) (ipv4 j)), (Hb (ipv6 i) (ipv6 j)); auto.
Qed.

Lemma le_trans_b a b c : bytes_le a b → bytes_le b c → bytes_le a c.
Proof.
  intros [Hab| ->]%bytes_le_lteq; [|done]. intros [Hbc| <-]%bytes_le_lteq; apply bytes_le_lteq; left; [by etrans | done].
Qed.

#[global] Instance ip_le_transitive : Transitive ip_le.
Proof.
  intros i j k. unfold ip_le, preferMinimalPrivate, preferMinimalIPv4.
  destruct (ip_isPrivate i), (ip_isPrivate j), (ip_isPrivate k), (is_nonempty (ipv4 i)), (is_nonempty (ipv4 j)),
    (is_nonempty (ipv4 k)); simpl; try done; rewrite !ltb_false; apply le_trans_b.
Qed.

Lemma le_antisym_b a b : bytes_le a b → bytes_le b a → a = b.
Proof.
  intros [Hab| ->]%bytes_le_lteq; [|done]. intros Hba. by apply bytes_not_lt in Hba.
Qed.

(** Addresses that the order does not tell apart have the same text. *)
Lemma ip_le_host i j :
  (forceInIPv6Mode sw = true → ipv4 i = [] ∧ ipv4 j = []) → ip_le i j → ip_le j i → getHost i = getHost j.
Proof.
  intros Hf. unfold ip_le, preferMinimalPrivate, preferMinimalIPv4, getHost.
  destruct (ip_isPrivate i), (ip_isPrivate j); simpl; try done;
    destruct (is_nonempty (ipv4 i)) eqn:Ei, (is_nonempty (ipv4 j)) eqn:Ej; simpl; try done;
    rewrite !ltb_false; intros H1' H2'; pose proof (le_antisym_b _ _ H1' H2') as E;
    destruct (forceInIPv6Mode sw); simpl; try congruence;
    destruct (Hf eq_refl) as [E1 E2]; rewrite E1 in Ei; done.
Qed.

(** The first of any sorted arrangement has the same text. *)
Lemma first_host_sorted l l' :
  (forceInIPv6Mode sw = true → Forall (λ i, ipv4 i = []) l) →
  l ≡ₚ l' → StronglySorted ip_le l → StronglySorted ip_le l' → first_host l = first_host l'.
Proof.
  intros Hf Hp Hs Hs'. destruct l as [|i l], l' as [|j l']; try done;
    [by apply Permutation_nil_cons in Hp | by symmetry in Hp; apply Permutation_nil_cons in Hp|].
  simpl. rewrite !getHost_nonempty.
  assert (∀ x k l, StronglySorted ip_le (x :: l) → k ∈ x :: l → ip_le x k) as Hhd.
  { intros x k l0 [_ Hx]%StronglySorted_inv [->|Hk]%elem_of_cons; [by destruct (total ip_le x x)|].
    rewrite Forall_forall in Hx. by apply Hx. }
  apply ip_le_host.
  - intros E. specialize (Hf E). split; [by inversion Hf|]. rewrite Forall_forall in Hf. apply Hf. rewrite Hp. left.
  - eapply Hhd; [done|]. rewrite Hp. left.
  - eapply Hhd; [done|]. rewrite <-Hp. left.
Qed.

Lemma getIp_forced addrs : ∀ ret,
  forceInIPv6Mode sw = true → ipv4 ret = [] → ipv4 (getIp addrs ret) = [].
Proof.
  induction addrs as [|a addrs IH]; intros ret Hf Hr; [done|]. cbn [getIp]. rewrite Hf.
  generalize (isPrivate a) as p. generalize (IsLoopback a || IsLinkLocalUnicast a) as b. intros [] p; [by apply IH|].
  destruct a; cbn [negb ipv4]; (destruct (p && _); [by apply IH|]); (destruct (valid _); [done | by apply IH]).
Qed.

Lemma getLocalIPs_forced inters :
  forceInIPv6Mode sw = true → Forall (λ i, ipv4 i = []) (getLocalIPs inters).
Proof.
  intros Hf. induction inters as [|inter inters IH]; simpl; [constructor|]. destruct (_ && _); [|done].
  destruct (if_Addrs inter) as [addrs|]; [|done]. destruct (valid _); [|done]. constructor; [|done].
  by apply getIp_forced.
Qed.

Lemma getLocalIPs_perm inters inters' : inters ≡ₚ inters' → getLocalIPs inters ≡ₚ getLocalIPs inters'.
Proof.
  induction 1 as [|x l l' _ IH|x y l|? ? ? _ IH1 _ IH2]; simpl; [done| | |by etrans];
    repeat case_match; try done; by constructor.
Qed.
End host.

Arguments netInterface : clear implicits.
