(* ===== verification/Pipeline.v ===== *)
(** The write pipeline under concurrency: writers deal revisions and hand over
    their outcomes in any order, the collector (collectStorageWriteEvents of
    pkg/backend/backend.go) takes them in revision order.

    A state has the backend, the revisions dealt to writers that have not
    notified yet, and the collector's unfinished batch.  A step is one call of
    [Deal] or [notify] by some writer, one iteration of the collector's loop, or
    the removal of a retried event.  A step that panics does not exist. *)

From S2P Require Import Prelude GoMonad Storage Coder Proto Tso Ring Queue Mvcc Creator Scanner.
From S2P Require Import Backend.

Section pipeline.
Context {S : Type} `{KvStorage S} `{Backoff}.

Record pstate := mkPstate {
  p_b : backend S;
  p_flight : list Z;
  p_pending : list Event;
}.

Inductive pstep : pstate → pstate → Prop :=
  | ps_deal b b' fl pend r :
      on_tso Deal b = Some (b', r) → dealRevision (tso b) + 1 < two63 →
      pstep (mkPstate b fl pend) (mkPstate b' (r :: fl) pend)
  | ps_notify b b' fl1 fl2 pend k v r prev valid ty e :
      notify k v r prev valid ty e b = Some (b', ()) →
      pstep (mkPstate b (fl1 ++ r :: fl2) pend) (mkPstate b' (fl1 ++ fl2) pend)
  | ps_collect b b' fl pend pend' now :
      collect_iter now pend b = Some (b', pend') →
      pstep (mkPstate b fl pend) (mkPstate b' fl pend')
  | ps_pop b q fl pend :
      pop (asyncFifoRetry b) = Some q → getHead (asyncFifoRetry b) ≠ None →
      pstep (mkPstate b fl pend) (mkPstate (set_queue q b) fl pend).

(** A writer that was dealt [r] but fails with a revision drift gives the
    revision back as 0, and [notify] drops the event. *)
Inductive pdrift : pstate → pstate → Prop :=
  | pd_drift b b' fl1 fl2 pend k v r prev valid ty e :
      notify k v 0 prev valid ty e b = Some (b', ()) →
      pdrift (mkPstate b (fl1 ++ r :: fl2) pend) (mkPstate b' (fl1 ++ fl2) pend).

Definition pstep_any (p p' : pstate) : Prop := pstep p p' ∨ pdrift p p'.

(** The events sent to the watcher hub so far, and those about to be. *)
Definition delivered (p : pstate) : list Event := concat (watchChan (p_b p)) ++ p_pending p.

Local Abbreviation committed p := (committedRevision (tso (p_b p))).
Local Abbreviation dealt p := (dealRevision (tso (p_b p))).
Local Abbreviation buffer p := (watchEventsRingBuffer (p_b p)).
Local Abbreviation cap := watchersChanCapacity.

Definition rev_lt (a b : WatchEvent * Z) : Prop := we_Revision a.1 < we_Revision b.1.

Record pinv (p : pstate) : Prop := {
  pi_tso : 0 <= committed p <= dealt p ∧ dealt p < two63;
  pi_nodup : NoDup (p_flight p);
  pi_flight r : r ∈ p_flight p → committed p < r <= dealt p;
  pi_slot i ev : buffer p !! i = Some ev →
    i = we_Revision ev mod cap ∧ committed p < we_Revision ev < committed p + cap ∧
    we_Revision ev <= dealt p ∧ we_Revision ev ∉ p_flight p;
  pi_sorted : StronglySorted ev_lt (delivered p);
  pi_bound : Forall (λ e, 0 < ev_Revision e <= committed p) (delivered p);
  pi_cache : ring_ok (watchCache (p_b p));
  pi_suffix : ring_list (watchCache (p_b p)) =
    drop (length (delivered p) - r_l (watchCache (p_b p))) (delivered p);
  pi_queue : ∃ l, queue_repr (asyncFifoRetry (p_b p)) l ∧ StronglySorted rev_lt l ∧
    Forall (λ x, 0 < we_Revision x.1 <= committed p) l;
}.

(** Every dealt revision that is not collected is in flight or in the buffer. *)
Definition no_hole (p : pstate) : Prop :=
  ∀ r, committed p < r <= dealt p →
    r ∈ p_flight p ∨ ∃ ev, buffer p !! (r mod cap) = Some ev ∧ we_Revision ev = r.

Lemma cap_pos : 0 < cap.
Proof. done. Qed.

(** What a successful [notify] does. *)
Lemma notify_run k v r prev valid ty e (b b' : backend S) :
  0 < r < two63 → 0 <= committedRevision (tso b) < r →
  notify k v r prev valid ty e b = Some (b', ()) →
  r < committedRevision (tso b) + cap ∧
  b' = set_buffer (<[r mod cap := mkWatchEvent r prev ty valid k v e]> (watchEventsRingBuffer b)) b.
Proof.
  intros Hr Hc. unfold notify. destruct (Z.eqb_spec r 0); [lia|].
  unfold GetCurrentRevision, on_tso, GetRevision, zoom, gets, mbind, gom_bind.
  rewrite uint64_id by (unfold is_uint64, two64, two63 in *; lia).
  destruct (Z.leb_spec cap (r - committedRevision (tso b))); [done|].
  rewrite int64_id by (unfold two63 in *; lia). rewrite Z.rem_mod_nonneg by (unfold cap; lia).
  destruct (Z.ltb_spec (r mod cap) 0) as [Hneg|]; [pose proof (Z.mod_pos_bound r cap cap_pos); lia|].
  unfold modify. intros [= <-]. split; [lia|]. by destruct b as [[] ? ? ? ? ?].
Qed.

(** What the [notify] of a writer in flight does. *)
Lemma flight_notify k v r prev valid ty e b b' fl1 fl2 pend :
  pinv (mkPstate b (fl1 ++ r :: fl2) pend) → notify k v r prev valid ty e b = Some (b', ()) →
  committedRevision (tso b) < r <= dealRevision (tso b) ∧ r < committedRevision (tso b) + cap ∧
  b' = set_buffer (<[r mod cap := mkWatchEvent r prev ty valid k v e]> (watchEventsRingBuffer b)) b.
Proof.
  intros Hp E. pose proof (pi_tso _ Hp) as Ht. simpl in Ht.
  assert (committedRevision (tso b) < r <= dealRevision (tso b)) as Hr
    by (apply (pi_flight _ Hp); simpl; rewrite elem_of_app; right; constructor).
  split; [done|]. by apply notify_run in E; [|lia..].
Qed.

(** * One iteration of the collector *)

(** The backend after the collector has taken [ev] out of the buffer. *)
Definition took (now : Z) (ev : WatchEvent) (b : backend S) : backend S :=
  mkBackend (mkTSO (we_Revision ev) (Z.max (dealRevision (tso b)) (we_Revision ev))) (b_scanner b)
    (base.delete (we_Revision ev mod cap) (watchEventsRingBuffer b))
    (if we_Valid ev then ring_add (watchCache b) (event_of ev) else watchCache b)
    (watchChan b)
    (if negb (we_Valid ev) && is_err (we_Err ev) ErrUncertainResult
     then Queue.push ev now (asyncFifoRetry b) else asyncFifoRetry b).

(** The iteration waits, flushes the batch, or takes the next revision. *)
Definition collected (now : Z) (p : pstate) (b' : backend S) (pend' : list Event) : Prop :=
  let next := buffer p !! ((committed p + 1) mod cap) in
  (length (p_pending p) < eventBatchSize)%nat ∧ next = None ∧ p_pending p = [] ∧
    b' = p_b p ∧ pend' = [] ∨
  (next = None ∨ (eventBatchSize <= length (p_pending p))%nat) ∧ p_pending p ≠ [] ∧
    b' = set_chan (watchChan (p_b p) ++ [p_pending p]) (p_b p) ∧ pend' = [] ∨
  (length (p_pending p) < eventBatchSize)%nat ∧ ∃ ev, next = Some ev ∧ b' = took now ev (p_b p) ∧
    pend' = p_pending p ++ (if we_Valid ev then [event_of ev] else []).

Lemma wp_collect now p :
  pinv p → wp (collect_iter now (p_pending p)) (λ pend' b', collected now p b' pend') (p_b p).
Proof.
  intros Hp. pose proof (pi_tso _ Hp) as Ht. unfold collect_iter, collected.
  destruct (Nat.ltb_spec (length (p_pending p)) eventBatchSize) as [Hl|Hl].
  2:{ wp_steps. right; left. split; [by right|]. split; [|done].
      intros E. rewrite E in Hl. unfold eventBatchSize in Hl. simpl in Hl. lia. }
  unfold GetCurrentRevision, SetCurrentRevision, on_tso, GetRevision. wp_steps.
  rewrite set_tso_id.
  rewrite uint64_id by (unfold is_uint64, two64, two63 in *; lia).
  destruct (buffer p !! ((committed p + 1) mod cap)) as [ev|] eqn:Eb.
  - wp_steps. destruct (we_Valid ev) eqn:Ev; cbn [negb].
    + wp_steps. apply wp_Commit. simpl. apply wp_bind, wp_zoom.
      unfold wp. simpl. rewrite (Add_run _ (pi_cache _ Hp)). wp_steps.
      right; right. split; [done|]. exists ev. split; [done|]. unfold took. rewrite Ev.
      by destruct (p_b p) as [[] ? ? ? ? ?].
    + wp_steps.
      apply wp_mono with (P := λ _ b1, b1 = set_queue
        (if is_err (we_Err ev) ErrUncertainResult then Queue.push ev now (asyncFifoRetry (p_b p))
         else asyncFifoRetry (p_b p))
        (set_buffer (base.delete (we_Revision ev mod cap) (buffer p)) (p_b p))).
      { destruct (is_err _ _); wp_steps; by destruct (p_b p). }
      intros [] b1 ->. wp_steps. apply wp_Commit. wp_steps.
      right; right. split; [done|]. exists ev. split; [done|]. unfold took. rewrite Ev, app_nil_r.
      by destruct (p_b p) as [[] ? ? ? ? ?].
  - destruct (p_pending p) as [|e l] eqn:Epend; wp_steps.
    + left. by destruct (p_b p).
    + right; left. split; [by left|]. by destruct (p_b p).
Qed.

(** The event in the next slot has the next revision. *)
Lemma next_event p ev :
  pinv p → buffer p !! ((committed p + 1) mod cap) = Some ev → we_Revision ev = committed p + 1.
Proof.
  intros Hp Hev. destruct (pi_slot _ Hp _ _ Hev) as (Ei & Hr & _). symmetry.
  by apply (mod_eq_near cap); [| |lia].
Qed.

(** The cache after one more event holds the last events still. *)
Lemma suffix_add (r : Ring) (d : list Event) ev :
  ring_ok r → ring_list r = drop (length d - r_l r) d →
  ring_list (ring_add r ev) = drop (length (d ++ [ev]) - r_l (ring_add r ev)) (d ++ [ev]).
Proof.
  intros Hok Hsuf. pose proof (rok_pos _ Hok) as Hpos.
  rewrite (ring_add_list _ Hok), Hsuf, length_app. simpl.
  rewrite drop_app_le by lia. f_equal. rewrite length_drop.
  destruct (Nat.eqb_spec (length d - (length d - r_l r)) (r_l r)) as [E|E].
  - rewrite drop_drop. f_equal. lia.
  - f_equal. lia.
Qed.

Lemma pinv_took now p ev :
  pinv p → buffer p !! ((committed p + 1) mod cap) = Some ev →
  pinv (mkPstate (took now ev (p_b p)) (p_flight p)
          (p_pending p ++ (if we_Valid ev then [event_of ev] else []))).
Proof.
  intros Hp Hev. pose proof (next_event _ _ Hp Hev) as Erev.
  destruct (pi_slot _ Hp _ _ Hev) as (_ & Hrange & Hdeal & Hnf). pose proof (pi_tso _ Hp) as Ht.
  destruct Hp as [_ Hnd Hfl Hslot Hsort Hbnd Hring Hsuf (l & Hl & Hls & Hlb)].
  assert (delivered (mkPstate (took now ev (p_b p)) (p_flight p)
    (p_pending p ++ (if we_Valid ev then [event_of ev] else []))) =
    delivered p ++ (if we_Valid ev then [event_of ev] else [])) as Ed
    by (unfold delivered; simpl; by rewrite app_assoc).
  split; rewrite ?Ed; simpl; rewrite ?Erev.
  - rewrite Z.max_l by lia. lia.
  - done.
  - intros r Hr. specialize (Hfl r Hr). assert (r ≠ we_Revision ev) by congruence. lia.
  - intros i ev' Hi. apply lookup_delete_Some in Hi as [Hne Hi].
    destruct (Hslot _ _ Hi) as (-> & Hr' & Hd' & ?). split; [done|].
    assert (we_Revision ev' ≠ committed p + 1) by congruence. split; [lia|]. split; [lia | done].
  - apply StronglySorted_app_2; [|done|destruct (we_Valid ev); repeat constructor].
    intros a b Ha Hb. rewrite Forall_forall in Hbnd. specialize (Hbnd a Ha). unfold ev_lt.
    destruct (we_Valid ev); [|by apply elem_of_nil in Hb]. apply list_elem_of_singleton in Hb as ->.
    simpl. lia.
  - apply Forall_app. split; [eapply Forall_impl; [done|]; simpl; lia|].
    destruct (we_Valid ev); [apply Forall_singleton; simpl; lia | constructor].
  - destruct (we_Valid ev); [by apply ring_add_ok | done].
  - destruct (we_Valid ev); [by apply suffix_add | by rewrite app_nil_r].
  - destruct (andb (negb _) _); [|exists l; split; [done|]; split; [done|];
      eapply Forall_impl; [done|]; simpl; lia].
    exists (l ++ [(ev, now)]). split; [by apply push_repr|]. split.
    + apply StronglySorted_app_2; [|done|repeat constructor]. intros a b Ha ->%list_elem_of_singleton.
      rewrite Forall_forall in Hlb. specialize (Hlb a Ha). unfold rev_lt. simpl in *. lia.
    + apply Forall_app. split; [eapply Forall_impl; [done|]; simpl; lia|].
      apply Forall_singleton. simpl. lia.
Qed.

Lemma pinv_flush p :
  pinv p → pinv (mkPstate (set_chan (watchChan (p_b p) ++ [p_pending p]) (p_b p)) (p_flight p) []).
Proof.
  intros [Ht Hnd Hfl Hslot Hsort Hbnd Hring Hsuf Hq].
  assert (delivered (mkPstate (set_chan (watchChan (p_b p) ++ [p_pending p]) (p_b p)) (p_flight p) []) =
    delivered p) as Ed.
  { unfold delivered; simpl. by rewrite concat_app, !app_nil_r; simpl; rewrite app_nil_r. }
  by split; rewrite ?Ed.
Qed.

Lemma pinv_step p p' : pinv p → pstep p p' → pinv p'.
Proof.
  intros Hp Hstep. destruct Hstep as [b b' fl pend r E Hlt|b b' fl1 fl2 pend k v r prev valid ty e E
    |b b' fl pend pend' now E|b q fl pend E Hhd].
  - pose proof (pi_tso _ Hp) as Ht. simpl in Ht. unfold on_tso, Deal, zoom in E. simpl in E.
    rewrite uint64_id in E by (unfold is_uint64, two64, two63 in *; lia). simplify_eq.
    destruct Hp as [_ Hnd Hfl Hslot Hsort Hbnd Hring Hsuf Hq]. simpl in *. split; simpl; try done; try lia.
    + apply NoDup_cons. split; [|done]. intros Hin. specialize (Hfl _ Hin). lia.
    + intros r [->|Hr]%elem_of_cons; [lia|]. specialize (Hfl r Hr). lia.
    + intros i ev Hi. destruct (Hslot i ev Hi) as (? & ? & ? & ?). repeat split; try done; try lia.
      intros [?|?]%elem_of_cons; [lia | done].
  - pose proof (pi_tso _ Hp) as Ht. simpl in Ht.
    destruct (flight_notify _ _ _ _ _ _ _ _ _ _ _ _ Hp E) as (Hr & Hcap & ->).
    destruct Hp as [_ Hnd Hfl Hslot Hsort Hbnd Hring Hsuf Hq]. simpl in *.
    assert ((r ∉ fl1 ++ fl2) ∧ NoDup (fl1 ++ fl2)) as [Hni Hnd'].
    { rewrite <-Permutation_middle in Hnd. by apply NoDup_cons in Hnd. }
    split; simpl; try done.
    + intros x Hx. apply Hfl. apply elem_of_app in Hx as [?|?]; apply elem_of_app; [by left|].
      right. by right.
    + intros i ev [[<- <-]|[_ Hi]]%lookup_insert_Some; simpl; [split; [done|]; split; [lia|]; by split; [lia|]|].
      destruct (Hslot i ev Hi) as (? & ? & ? & Hn). repeat split; try done; try lia.
      intros Hin. apply Hn. apply elem_of_app in Hin as [?|?]; apply elem_of_app; [by left|].
      right. by right.
  - pose proof (wp_collect now _ Hp) as Hw. unfold wp in Hw. simpl in Hw. rewrite E in Hw.
    unfold collected in Hw. simpl in Hw.
    destruct Hw as [(_ & _ & -> & -> & ->)|[(_ & _ & -> & ->)|(_ & ev & Hev & -> & ->)]].
    + done.
    + by apply (pinv_flush (mkPstate b fl pend)).
    + by apply (pinv_took now (mkPstate b fl pend)).
  - destruct Hp as [Ht Hnd Hfl Hslot Hsort Hbnd Hring Hsuf (l & Hl & Hls & Hlb)]. simpl in *.
    split; simpl; try done. destruct l as [|x l].
    { destruct Hhd. pose proof (getHead_repr _ _ Hl) as Eh. simpl in Eh.
      by destruct (getHead (asyncFifoRetry b)). }
    destruct (pop_repr _ _ _ Hl) as (q' & Eq & Hq'). rewrite E in Eq. injection Eq as <-.
    exists l. split; [done|]. split; [by apply StronglySorted_inv in Hls as [? _]|].
    by apply Forall_cons in Hlb as [_ ?].
Qed.

Lemma pinv_drift p p' : pinv p → pdrift p p' → pinv p'.
Proof.
  intros [Ht Hnd Hfl Hslot Hsort Hbnd Hring Hsuf Hq] Hd.
  destruct Hd as [b b' fl1 fl2 pend k v r prev valid ty e E].
  injection E as <-. simpl in *. split; simpl; try done.
  - rewrite <-Permutation_middle in Hnd. by apply NoDup_cons in Hnd as [_ ?].
  - intros x Hx. apply Hfl. set_solver.
  - intros i ev Hi. destruct (Hslot i ev Hi) as (? & ? & ? & Hn). repeat split; try done; try lia.
    set_solver.
Qed.

Lemma pinv_reach p p' : pinv p → rtc pstep_any p p' → pinv p'.
Proof.
  intros Hp Hr. induction Hr as [|p q p' [Hs|Hs] _ IH]; [done| |];
    eauto using pinv_step, pinv_drift.
Qed.

(** * Progress *)

(** The slots of two revisions of the window differ. *)
Lemma no_hole_step p p' : pinv p → no_hole p → pstep p p' → no_hole p'.
Proof.
  intros Hp Hh Hstep. destruct Hstep as [b b' fl pend r E Hlt|b b' fl1 fl2 pend k v r prev valid ty e E
    |b b' fl pend pend' now E|b q fl pend E Hhd].
  - pose proof (pi_tso _ Hp) as Ht. simpl in Ht. unfold on_tso, Deal, zoom in E. simpl in E.
    rewrite uint64_id in E by (unfold is_uint64, two64, two63 in *; lia). simplify_eq.
    intros x Hx. simpl in *. destruct (decide (x = dealRevision (tso b) + 1)) as [->|Hne].
    { left. constructor. }
    destruct (Hh x) as [Hin|Hev]; [simpl; lia| |by right]. left. by constructor.
  - pose proof (pi_tso _ Hp) as Ht. simpl in Ht.
    destruct (flight_notify _ _ _ _ _ _ _ _ _ _ _ _ Hp E) as (Hr & Hcap & ->).
    intros x Hx. simpl in *. destruct (decide (x = r)) as [->|Hne].
    { right. eexists. by rewrite lookup_insert_eq. }
    destruct (Hh x Hx) as [Hin|(ev & Hev & Erev)]; simpl in *; [left; set_solver|].
    right. exists ev. split; [|done]. rewrite lookup_insert_ne; [done|]. intros Em. apply Hne.
    destruct (pi_slot _ Hp _ _ Hev) as (_ & Hw & _). simpl in Hw.
    destruct (decide (x <= r)); [apply (mod_eq_near cap); [done|done|lia] | symmetry; apply (mod_eq_near cap); [done|done|lia]].
  - pose proof (wp_collect now _ Hp) as Hw. unfold wp in Hw. simpl in Hw. rewrite E in Hw.
    unfold collected in Hw. simpl in Hw.
    destruct Hw as [(_ & _ & -> & -> & ->)|[(_ & _ & -> & ->)|(_ & ev & Hev & -> & ->)]]; [done..|].
    pose proof (next_event _ _ Hp Hev) as Erev. destruct (pi_slot _ Hp _ _ Hev) as (_ & Hr & Hd & _).
    intros x. simpl in *. rewrite Z.max_l by lia. intros Hx.
    destruct (Hh x) as [Hin|(ev' & Hev' & Erev')]; [simpl; lia|by left|]. right. exists ev'.
    split; [|done]. rewrite lookup_delete_ne; [done|]. intros Em.
    destruct (pi_slot _ Hp _ _ Hev') as (_ & Hw & _). simpl in Hw.
    apply mod_eq_near in Em; (done || lia).
  - exact Hh.
Qed.

Lemma no_hole_reach p p' : pinv p → no_hole p → rtc pstep p p' → no_hole p'.
Proof.
  intros Hp Hh Hr. induction Hr as [|p q p' Hs _ IH]; [done|].
  apply IH; [by eapply pinv_step | by eapply no_hole_step].
Qed.

(** One iteration of the collector, whatever the time. *)
Definition pcollect (now : Z) (p p' : pstate) : Prop :=
  collect_iter now (p_pending p) (p_b p) = Some (p_b p', p_pending p') ∧ p_flight p' = p_flight p.

Lemma pcollect_pstep now p p' : pcollect now p p' → pstep p p'.
Proof. destruct p, p'. intros [E Ef]. simpl in *. subst. by apply ps_collect with now. Qed.

(** The collector takes the next event at once, or after sending a full batch. *)
Lemma collect_next now p ev :
  pinv p → buffer p !! ((committed p + 1) mod cap) = Some ev →
  ∃ p', rtc (pcollect now) p p' ∧ committed p' = committed p + 1 ∧ dealt p' = dealt p ∧
    p_flight p' = p_flight p.
Proof.
  intros Hp Hev. pose proof (next_event _ _ Hp Hev) as Erev.
  destruct (pi_slot _ Hp _ _ Hev) as (_ & Hr & Hd & _).
  assert (∀ q, (length (p_pending q) < eventBatchSize)%nat → pinv q → buffer q = buffer p →
    tso (p_b q) = tso (p_b p) → p_flight q = p_flight p →
    ∃ p', rtc (pcollect now) q p' ∧ committed p' = committed p + 1 ∧ dealt p' = dealt p ∧
      p_flight p' = p_flight p) as Htake.
  { intros q Hl Hq Eb Et Ef. pose proof (wp_collect now _ Hq) as Hw. unfold wp in Hw.
    destruct (collect_iter now (p_pending q) (p_b q)) as [[b' pend']|] eqn:E; [|done].
    unfold collected in Hw. rewrite Eb, Et, Hev in Hw.
    destruct Hw as [(_ & ? & _)|[([?|?] & _)|(_ & ev' & [= <-] & -> & ->)]]; [done|done|lia|].
    eexists (mkPstate _ _ _). split; [apply rtc_once; by split|]. simpl. rewrite Et.
    split; [lia|]. split; [lia | done]. }
  destruct (decide (length (p_pending p) < eventBatchSize)%nat) as [Hl|Hl]; [by apply Htake|].
  destruct (Htake (mkPstate (set_chan (watchChan (p_b p) ++ [p_pending p]) (p_b p)) (p_flight p) []))
    as (p' & Hp' & ?); [simpl; unfold eventBatchSize; lia|by apply pinv_flush|done..|].
  exists p'. split; [|done]. eapply rtc_l; [|exact Hp']. split; [|done].
  unfold collect_iter. destruct (Nat.ltb_spec (length (p_pending p)) eventBatchSize); [lia|]. done.
Qed.

(** The collector sends the batch it holds once no event is left. *)
Lemma collect_flush now p :
  pinv p → buffer p !! ((committed p + 1) mod cap) = None →
  ∃ p', rtc (pcollect now) p p' ∧ tso (p_b p') = tso (p_b p) ∧ p_pending p' = [].
Proof.
  intros Hp Hn. pose proof (wp_collect now _ Hp) as Hw. unfold wp in Hw.
  destruct (collect_iter now (p_pending p) (p_b p)) as [[b' pend']|] eqn:E; [|done].
  unfold collected in Hw. rewrite Hn in Hw. eexists (mkPstate b' (p_flight p) pend').
  split; [apply rtc_once; by split|]. simpl.
  by destruct Hw as [(_ & _ & _ & -> & ->)|[(_ & _ & -> & ->)|(_ & ? & ? & _)]].
Qed.

Lemma pinv_rtc_collect now p p' : pinv p → rtc (pcollect now) p p' → pinv p'.
Proof.
  intros Hp Hr. induction Hr as [|p q p' Hs _ IH]; [done|].
  apply IH. eapply pinv_step; [done|]. by eapply pcollect_pstep.
Qed.

Lemma no_hole_rtc_collect now p p' : pinv p → no_hole p → rtc (pcollect now) p p' → no_hole p'.
Proof.
  intros Hp Hh Hr. apply (no_hole_reach p); [done..|].
  eapply rtc_subrel; [|done]. intros ??. apply pcollect_pstep.
Qed.

(** With all writers done, the collector catches up with the dealt revisions. *)
Lemma collect_catches_up now p :
  pinv p → no_hole p → p_flight p = [] →
  ∃ p', rtc (pcollect now) p p' ∧ committed p' = dealt p ∧ dealt p' = dealt p ∧ p_pending p' = [].
Proof.
  intros Hp. pose proof (pi_tso _ Hp) as [Ht _].
  remember (Z.to_nat (dealt p - committed p)) as n eqn:En.
  revert p Hp Ht En. induction n as [|n IH]; intros p Hp Ht En Hh Hf.
  - destruct (buffer p !! ((committed p + 1) mod cap)) as [ev|] eqn:Eb.
    { pose proof (next_event _ _ Hp Eb). destruct (pi_slot _ Hp _ _ Eb) as (_ & _ & ? & _). lia. }
    destruct (collect_flush now p Hp Eb) as (p' & ? & Et & ?). exists p'.
    rewrite Et. split; [done|]. split; [lia|done].
  - destruct (Hh (committed p + 1)) as [Hin|(ev & Hev & _)]; [lia|rewrite Hf in Hin; by apply elem_of_nil in Hin|].
    destruct (collect_next now p ev Hp Hev) as (q & Hq & Ec & Ed & Ef).
    destruct (IH q) as (p' & Hp' & Ec' & Ed' & ?).
    + by eapply pinv_rtc_collect.
    + lia.
    + lia.
    + by eapply no_hole_rtc_collect.
    + congruence.
    + exists p'. split; [by etrans|]. rewrite Ec', Ed', Ed. done.
Qed.

(** * Holes *)

(** A dealt revision that no one will ever notify. *)
Definition hole (r : Z) (p : pstate) : Prop :=
  committed p < r <= dealt p ∧ (r ∉ p_flight p) ∧
  ∀ i ev, buffer p !! i = Some ev → we_Revision ev ≠ r.

Lemma hole_step r p p' : pinv p → hole r p → pstep_any p p' → hole r p'.
Proof.
  intros Hp (Hr & Hf & Hb) [Hstep|Hd]; [destruct Hstep as [b b' fl pend x E Hlt
    |b b' fl1 fl2 pend k v x prev valid ty e E|b b' fl pend pend' now E|b q fl pend E Hhd]|].
  - pose proof (pi_tso _ Hp) as Ht. simpl in Ht. unfold on_tso, Deal, zoom in E. simpl in E.
    rewrite uint64_id in E by (unfold is_uint64, two64, two63 in *; lia). simplify_eq.
    split; [simpl in *; lia|]. split; [|done]. simpl in *. intros [?|?]%elem_of_cons; [lia|done].
  - pose proof (pi_tso _ Hp) as Ht. simpl in *.
    destruct (flight_notify _ _ _ _ _ _ _ _ _ _ _ _ Hp E) as (Hx & Hcap & ->).
    split; [done|]. split; [simpl; set_solver|].
    simpl. intros i ev [[<- <-]|[_ Hi]]%lookup_insert_Some; [simpl; set_solver | by eapply Hb].
  - pose proof (wp_collect now _ Hp) as Hw. unfold wp in Hw. simpl in Hw. rewrite E in Hw.
    unfold collected in Hw. simpl in Hw.
    destruct Hw as [(_ & _ & -> & -> & ->)|[(_ & _ & -> & ->)|(_ & ev & Hev & -> & ->)]]; [done..|].
    pose proof (next_event _ _ Hp Hev) as Erev. destruct (pi_slot _ Hp _ _ Hev) as (_ & _ & Hd & _).
    specialize (Hb _ _ Hev) as Hne. simpl in *.
    split; [simpl; rewrite Z.max_l by lia; lia|]. split; [done|].
    simpl. intros i ev' [_ Hi]%lookup_delete_Some. by eapply Hb.
  - done.
  - destruct Hd as [b b' fl1 fl2 pend k v x prev valid ty e E]. injection E as <-.
    split; [done|]. split; [simpl in *; set_solver | done].
Qed.

Lemma hole_reach r p p' : pinv p → hole r p → rtc pstep_any p p' → hole r p'.
Proof.
  intros Hp Hh Hr. induction Hr as [|p q p' Hs _ IH]; [done|].
  apply IH; [|by eapply hole_step]. eapply pinv_reach; [done|]. by apply rtc_once.
Qed.

(** * The queue of uncertain operations *)

(** Some list of uncertain events, in revision order, is what the queue holds;
    every compaction is served below all of them. *)
Lemma compact_below_uncertain p revision :
  pinv p →
  ∃ l, queue_repr (asyncFifoRetry (p_b p)) l ∧ StronglySorted rev_lt l ∧
    Forall (λ x, compact_revision revision (p_b p) < we_Revision x.1) l.
Proof.
  intros Hp. destruct (pi_queue _ Hp) as (l & Hl & Hs & Hb). exists l. split; [done|]. split; [done|].
  pose proof (getHead_repr _ _ Hl) as Eh. unfold compact_revision, MinRevision.
  destruct (getHead _) as [n|], l as [|x l]; simpl in Eh; try done.
  injection Eh as Eh. pose proof (Forall_inv Hb) as Hx. rewrite <-Eh in Hx. simpl in Hx.
  apply StronglySorted_inv in Hs as [_ Hf]. rewrite <-Eh in Hf |- *.
  assert (∀ a, n_event n = n_event n → (if negb (we_Revision (n_event n) =? 0)
    then minUint64 (we_Revision (n_event n) - 1) a else a) < we_Revision (n_event n)) as Hmin.
  { intros a _. destruct (Z.eqb_spec (we_Revision (n_event n)) 0); [lia|]. simpl. unfold minUint64.
    match goal with |- context [?u <? ?v] => destruct (Z.ltb_spec u v) end; lia. }
  constructor; [by apply Hmin|]. eapply Forall_impl; [exact Hf|]. unfold rev_lt. simpl. intros y Hy.
  eapply Z.lt_trans; [by apply Hmin | exact Hy].
Qed.

(** * The initial state *)

Definition pinit (b : backend S) : pstate := mkPstate b [] [].

Lemma pinv_init b :
  0 <= committedRevision (tso b) < two63 → dealRevision (tso b) = committedRevision (tso b) →
  watchEventsRingBuffer b = ∅ → watchChan b = [] → ring_ok (watchCache b) →
  ring_list (watchCache b) = [] → asyncFifoRetry b = emptyQueue →
  pinv (pinit b) ∧ no_hole (pinit b).
Proof.
  intros Ht Ed Eb Ec Hr El Eq. destruct b as [[c d] sc buf ca ch q]. simpl in *. subst.
  split; [split|intros r Hr']; unfold delivered; simpl in *; try done; try lia.
  - constructor.
  - intros r Hr'. by apply elem_of_nil in Hr'.
  - constructor.
  - exists []. split; [apply emptyQueue_repr|]. by split; constructor.
Qed.

(** A writer finds room in the buffer while the window is open. *)
Lemma notify_in_window p k v r prev valid ty e :
  pinv p → r ∈ p_flight p → dealt p - committed p < cap →
  is_Some (notify k v r prev valid ty e (p_b p)).
Proof.
  intros Hp Hin Hw. pose proof (pi_flight _ Hp _ Hin) as Hr. pose proof (pi_tso _ Hp) as Ht.
  unfold notify. destruct (Z.eqb_spec r 0); [done|].
  unfold GetCurrentRevision, on_tso, GetRevision, zoom, gets, mbind, gom_bind.
  rewrite uint64_id by (unfold is_uint64, two64, two63 in *; lia).
  destruct (Z.leb_spec cap (r - committed p)); [lia|].
  rewrite int64_id by (unfold two63 in *; lia). rewrite Z.rem_mod_nonneg by (unfold cap; lia).
  destruct (Z.ltb_spec (r mod cap) 0) as [Hneg|]; [pose proof (Z.mod_pos_bound r cap cap_pos); lia|].
  by eexists.
Qed.
End pipeline.

Arguments pstate : clear implicits.
