(* ===== verification/Watch.v ===== *)
(** Watching: pkg/backend/watch.go and pkg/backend/watcherhub.go.

    The hub keeps a buffered channel per watcher and forwards to each of them
    the batches the collector sends; a watcher reads the history cache first and
    its channel from there on.  Channels live in a store of their own, so that a
    goroutine that still holds a channel can be told from the hub's registry. *)

From S2P Require Import Prelude GoMonad Storage Coder Proto Tso Ring Queue Mvcc Creator Scanner.
From S2P Require Import Backend.

(** * The hub *)

Definition watchBuffer : Z := 10000.

Abbreviation evbatch := (list Event).

Record chan := mkChan { ch_buf : list evbatch; ch_closed : bool }.

(** [subs] is the registry, [chans] every channel made so far, and [deleting]
    the calls [go w.DeleteWatcher(sub, true)] that have not run yet. *)
Record WatcherHub := mkHub {
  subs : gset nat;
  chans : gmap nat chan;
  nextChan : nat;
  deleting : list nat;
}.

Definition newHub : WatcherHub := mkHub ∅ ∅ 0 [].

Definition AddWatcher : GoM WatcherHub nat := λ w,
  let sub := nextChan w in
  Some (mkHub ({[sub]} ∪ subs w) (<[sub := mkChan [] false]> (chans w)) (S sub) (deleting w), sub).

(** Closing a closed channel panics. *)
Definition close_chan (sub : nat) (c : gmap nat chan) : option (gmap nat chan) :=
  ch ← c !! sub;
  if ch_closed ch then None else Some (<[sub := mkChan (ch_buf ch) true]> c).

Definition DeleteWatcher (sub : nat) : GoM WatcherHub () := λ w,
  if decide (sub ∈ subs w) then
    c ← close_chan sub (chans w);
    Some (mkHub (subs w ∖ {[sub]}) c (nextChan w) (deleting w), ())
  else Some (w, ()).

(** The [select] of [Stream]: send, or schedule the removal of a slow consumer.
    Sending on a closed channel panics. *)
Definition send_or_drop (item : evbatch) (sub : nat) : GoM WatcherHub () := λ w,
  ch ← chans w !! sub;
  if ch_closed ch then None
  else if Z.of_nat (length (ch_buf ch)) <? watchBuffer then
    Some (mkHub (subs w) (<[sub := mkChan (ch_buf ch ++ [item]) false]> (chans w)) (nextChan w)
            (deleting w), ())
  else Some (mkHub (subs w) (chans w) (nextChan w) (deleting w ++ [sub]), ()).

Fixpoint for_subs (f : nat → GoM WatcherHub ()) (l : list nat) : GoM WatcherHub () :=
  match l with
  | [] => mret ()
  | sub :: l' => f sub ;; for_subs f l'
  end.

(** One iteration of the loop of [Stream], and what follows the loop. *)
Definition stream_item (item : evbatch) : GoM WatcherHub () :=
  l ← gets (elements ∘ subs); for_subs (send_or_drop item) l.

Definition stream_end : GoM WatcherHub () :=
  l ← gets (elements ∘ subs); for_subs DeleteWatcher l.

(** [Stream], on the items the input channel yields until it is closed. *)
Fixpoint Stream (input : list evbatch) : GoM WatcherHub () :=
  match input with
  | [] => stream_end
  | item :: input' => stream_item item ;; Stream input'
  end.

(** A consumer's receive. *)
Definition recv_chan (sub : nat) : GoM WatcherHub (option evbatch) := λ w,
  ch ← chans w !! sub;
  match ch_buf ch with
  | [] => if ch_closed ch then Some (w, None) else None
  | x :: l => Some (mkHub (subs w) (<[sub := mkChan l (ch_closed ch)]> (chans w)) (nextChan w)
                      (deleting w), Some x)
  end.

(** * Watch *)

Definition resultChanLength : nat := 100.

Definition filterByPrefix (events : evbatch) (prefix : bytes) : evbatch :=
  filter (λ e, has_prefix (kv_Key (ev_Kv e)) prefix = true) events.

Fixpoint filterByRevision (events : evbatch) (rev : Z) : evbatch :=
  match events with
  | e :: l => if ev_Revision e <? rev then filterByRevision l rev else events
  | [] => []
  end.

(** What [processEvents] sends, given what it receives. *)
Fixpoint processEvents (prefix : bytes) (revision : Z) (input : list evbatch) : list evbatch :=
  match input with
  | [] => []
  | events :: input' =>
      let evs := filterByPrefix (filterByRevision events revision) prefix in
      if (0 <? length evs)%nat then evs :: processEvents prefix revision input'
      else processEvents prefix revision input'
  end.

Fixpoint catch_up_loop (fuel batchSize : nat) (events : evbatch) : option (list evbatch) :=
  match fuel with
  | O => None
  | S fuel' =>
      if (batchSize <? length events)%nat then
        out ← catch_up_loop fuel' batchSize (drop batchSize events);
        Some (take batchSize events :: out)
      else Some [events]
  end.

(** The batches [catchUpEvents] sends. *)
Definition catchUpEvents (events : evbatch) : option (list evbatch) :=
  let batchSize := if (resultChanLength * eventBatchSize <? length events)%nat
                   then (length events / (resultChanLength - 1))%nat else eventBatchSize in
  catch_up_loop (S (length events)) batchSize events.

Section watch.
Context {S : Type} `{KvStorage S} `{Backoff}.

(** [Watch] from the read of the history cache on: an error, or the batches
    sent at once and the revision the live events are filtered from. *)
Definition watch_history (prefix : bytes) (revision : Z) (b : backend S)
    : option (err + list evbatch * Z) :=
  if revision =? 0 then Some (inr ([], revision))
  else
    ret ← FindEvents revision (watchCache b);
    if fr_empty ret then
      if committedRevision (tso b) <? revision then Some (inr ([], revision))
      else Some (inl (Errorf " empty cache event"))
    else if fr_high ret then Some (inr ([], revision))
    else if fr_low ret then
      _ ← fr_oldest ret;
      Some (inl (Errorf "cache event oldest revision is newer than requested revision"))
    else
      newest ← fr_newest ret;
      evs ← mapM id (fr_events ret);
      let events := filterByPrefix evs prefix in
      if (0 <? length events)%nat then
        batches ← catchUpEvents events;
        Some (inr (batches, uint64 (ev_Revision newest + 1)))
      else Some (inr ([], revision)).

Record wbackend := mkWbackend { wb_backend : backend S; watcherHub : WatcherHub }.

Definition on_hub {A} (m : GoM WatcherHub A) : GoM wbackend A :=
  zoom watcherHub (λ w wb, mkWbackend (wb_backend wb) w) m.

(** The watcher's channel, the batches sent at once, and the revision live
    events are filtered from; an error cancels the watcher. *)
Definition Watch (prefix : bytes) (revision : Z) : GoM wbackend (err + nat * list evbatch * Z) :=
  readChan ← on_hub AddWatcher;
  b ← gets wb_backend;
  r ← lift_opt (watch_history prefix revision b);
  match r with
  | inl e => on_hub (DeleteWatcher readChan) ;; mret (inl e)
  | inr (batches, lastRevision) => mret (inr (readChan, batches, lastRevision))
  end.
End watch.

Arguments wbackend : clear implicits.

(** * Facts about the filters *)

Abbreviation ev_from rev := (λ e : Event, rev <= ev_Revision e).
Abbreviation ev_under prefix := (λ e : Event, has_prefix (kv_Key (ev_Kv e)) prefix = true).

Lemma filterByRevision_spec events rev :
  StronglySorted ev_lt events → filterByRevision events rev = filter (ev_from rev) events.
Proof.
  induction 1 as [|e l Hl IH Hf]; [done|]. simpl.
  destruct (Z.ltb_spec (ev_Revision e) rev) as [Hlt|Hge].
  - rewrite filter_cons_False by lia. done.
  - rewrite filter_cons_True by lia. f_equal. symmetry. apply filter_all.
    eapply Forall_impl; [exact Hf|]. unfold ev_lt. intros x ?. simpl in *. lia.
Qed.

Lemma processEvents_concat prefix rev input :
  StronglySorted ev_lt (concat input) →
  concat (processEvents prefix rev input) =
  filter (ev_under prefix) (filter (ev_from rev) (concat input)).
Proof.
  induction input as [|events input IH]; [done|]. simpl. intros Hs.
  pose proof (StronglySorted_app_1_l _ _ _ Hs) as H1. pose proof (StronglySorted_app_1_r _ _ _ Hs) as H2.
  rewrite !filter_app, <-IH by done. rewrite filterByRevision_spec by done.
  unfold filterByPrefix. destruct (filter _ (filter _ events)) eqn:E; [done|]. simpl.
  by rewrite <-?E.
Qed.

Lemma catch_up_loop_spec fuel batchSize events :
  (0 < batchSize)%nat → (length events < fuel)%nat →
  ∃ out, catch_up_loop fuel batchSize events = Some out ∧ concat out = events ∧
    ∀ k, (length events <= k * batchSize)%nat → (0 < k)%nat → (length out <= k)%nat.
Proof.
  revert events. induction fuel as [|fuel IH]; intros events Hb Hf; [lia|]. simpl.
  destruct (Nat.ltb_spec batchSize (length events)) as [Hlt|Hge].
  - destruct (IH (drop batchSize events)) as (out & -> & Ec & Hk); [done|rewrite length_drop; lia|].
    simpl. eexists. split; [done|]. simpl. rewrite Ec, take_drop. split; [done|].
    intros k Hle Hpos. destruct k as [|[|k]]; [lia|lia|]. apply le_n_S, Hk; [rewrite length_drop; lia | lia].
  - eexists. split; [done|]. simpl. rewrite app_nil_r. split; [done|]. intros. lia.
Qed.

(** The catch-up never fills the result channel. *)
Lemma catchUpEvents_spec events :
  ∃ out, catchUpEvents events = Some out ∧ concat out = events ∧ (length out <= resultChanLength)%nat.
Proof.
  unfold catchUpEvents, resultChanLength, eventBatchSize.
  destruct (Nat.ltb_spec (100 * 300) (length events)) as [Hlt|Hge].
  - pose proof (Nat.div_mod_eq (length events) 99) as Hd.
    pose proof (Nat.mod_upper_bound (length events) 99 ltac:(lia)) as Hm.
    change (100 - 1)%nat with 99%nat. set (q := (length events / 99)%nat) in *.
    assert (100 <= q)%nat by lia.
    destruct (catch_up_loop_spec (S (length events)) q events) as (out & -> & Ec & Hk); [lia..|].
    exists out. split; [done|]. split; [done|]. apply Hk; lia.
  - destruct (catch_up_loop_spec (S (length events)) 300 events) as (out & -> & Ec & Hk); [lia..|].
    exists out. split; [done|]. split; [done|]. apply Hk; lia.
Qed.
