(* ===== verification/HubSpec.v ===== *)
(** The watcher hub under concurrency (pkg/backend/watcherhub.go): the
    forwarding loop, registrations, removals and the watchers' receives, in any
    order.  A channel that was never skipped has carried exactly what was
    streamed while it was registered; a skipped one will be removed. *)

From S2P Require Import Prelude GoMonad Storage Proto Watch.

(** A state has the hub, and as history what each watcher received, what was
    streamed while it was registered, and which watchers were ever skipped. *)
Record hstate := mkHstate {
  h_hub : WatcherHub;
  h_got : nat → list evbatch;
  h_log : nat → list evbatch;
  h_dropped : gset nat;
}.

Definition hinit : hstate := mkHstate newHub (λ _, []) (λ _, []) ∅.

Definition set_deleting (l : list nat) (w : WatcherHub) : WatcherHub :=
  mkHub (subs w) (chans w) (nextChan w) l.

(** The moves of the watchers: registration, cancellation, the removal of a slow
    one, a receive. *)
Inductive hub_move : hstate → hstate → Prop :=
  | hs_add w w' sub got log dr :
      AddWatcher w = Some (w', sub) → hub_move (mkHstate w got log dr) (mkHstate w' got log dr)
  | hs_cancel w w' sub got log dr :
      DeleteWatcher sub w = Some (w', ()) → hub_move (mkHstate w got log dr) (mkHstate w' got log dr)
  | hs_reap w w' sub d1 d2 got log dr :
      deleting w = d1 ++ sub :: d2 → DeleteWatcher sub (set_deleting (d1 ++ d2) w) = Some (w', ()) →
      hub_move (mkHstate w got log dr) (mkHstate w' got log dr)
  | hs_recv w w' sub x got log dr :
      recv_chan sub w = Some (w', Some x) →
      hub_move (mkHstate w got log dr)
        (mkHstate w' (λ s, if decide (s = sub) then got s ++ [x] else got s) log dr).

(** The forwarding of one batch. *)
Inductive hub_stream (item : evbatch) : hstate → hstate → Prop :=
  | hs_forward w w' got log dr :
      stream_item item w = Some (w', ()) →
      hub_stream item (mkHstate w got log dr)
        (mkHstate w' got (λ s, if decide (s ∈ subs w) then log s ++ [item] else log s)
           (dr ∪ list_to_set (deleting w'))).

Inductive hstep (h h' : hstate) : Prop :=
  | hs_move : hub_move h h' → hstep h h'
  | hs_stream item : hub_stream item h h' → hstep h h'.

Record hinv (h : hstate) : Prop := {
  hi_open s : s ∈ subs (h_hub h) → ∃ buf, chans (h_hub h) !! s = Some (mkChan buf false);
  hi_fresh s : (nextChan (h_hub h) <= s)%nat →
    chans (h_hub h) !! s = None ∧ h_got h s = [] ∧ h_log h s = [] ∧ s ∉ h_dropped h;
  hi_order s ch : chans (h_hub h) !! s = Some ch → h_got h s ++ ch_buf ch `sublist_of` h_log h s;
  hi_exact s ch : chans (h_hub h) !! s = Some ch → s ∉ h_dropped h →
    h_got h s ++ ch_buf ch = h_log h s;
  hi_bound s ch : chans (h_hub h) !! s = Some ch → Z.of_nat (length (ch_buf ch)) <= watchBuffer;
  hi_doomed s : s ∈ h_dropped h → s ∈ subs (h_hub h) → s ∈ deleting (h_hub h);
  hi_deleting s : s ∈ deleting (h_hub h) → s ∈ h_dropped h;
}.

Lemma hinit_inv : hinv hinit.
Proof. split; simpl; intros; set_solver. Qed.

(** * The forwarding loop *)

(** What one [select] per watcher of [l] does. *)
Record forwarded (item : evbatch) (l : list nat) (w w' : WatcherHub) : Prop := {
  fw_subs : subs w' = subs w;
  fw_next : nextChan w' = nextChan w;
  fw_other s : s ∉ l → chans w' !! s = chans w !! s;
  fw_each s buf : s ∈ l → chans w !! s = Some (mkChan buf false) →
    if Z.of_nat (length buf) <? watchBuffer
    then chans w' !! s = Some (mkChan (buf ++ [item]) false)
    else chans w' !! s = Some (mkChan buf false) ∧ s ∈ deleting w';
  fw_keep s : s ∈ deleting w → s ∈ deleting w';
  fw_new s : s ∈ deleting w' → s ∈ deleting w ∨
    s ∈ l ∧ ∃ buf, chans w !! s = Some (mkChan buf false) ∧ watchBuffer <= Z.of_nat (length buf);
}.

Lemma for_subs_forwarded item l w :
  NoDup l → (∀ s, s ∈ l → ∃ buf, chans w !! s = Some (mkChan buf false)) →
  ∃ w', for_subs (send_or_drop item) l w = Some (w', ()) ∧ forwarded item l w w'.
Proof.
  intros Hnd. revert w. induction Hnd as [|s l Hs Hl IH]; intros w Hopen.
  { exists w. split; [done|]. split; try done; set_solver. }
  destruct (Hopen s) as [buf Es]; [constructor|].
  set (w1 := if Z.of_nat (length buf) <? watchBuffer
             then mkHub (subs w) (<[s := mkChan (buf ++ [item]) false]> (chans w)) (nextChan w) (deleting w)
             else mkHub (subs w) (chans w) (nextChan w) (deleting w ++ [s])).
  assert (send_or_drop item s w = Some (w1, ())) as E1.
  { unfold send_or_drop, w1. rewrite Es. simpl. by destruct (_ <? _). }
  assert (∀ t, t ≠ s → chans w1 !! t = chans w !! t) as Hne.
  { intros t Ht. unfold w1. destruct (_ <? _); simpl; [by rewrite lookup_insert_ne | done]. }
  destruct (IH w1) as (w' & Ew & [Hsu Hnx Hot Hea Hke Hnw]).
  { intros t Ht. rewrite Hne by (intros ->; done). apply Hopen. by constructor. }
  exists w'. split; [simpl; unfold mbind, gom_bind; by rewrite E1|].
  assert (chans w' !! s = chans w1 !! s) as Es' by by apply Hot.
  split.
  - rewrite Hsu. unfold w1. by destruct (_ <? _).
  - rewrite Hnx. unfold w1. by destruct (_ <? _).
  - intros t Ht. rewrite Hot, Hne by set_solver. done.
  - intros t b [->|Ht]%elem_of_cons Et.
    + rewrite Es in Et. injection Et as <-. rewrite Es'. unfold w1 in *.
      destruct (_ <? _); simpl in *; [by rewrite lookup_insert_eq|]. split; [done|]. apply Hke. set_solver.
    + apply Hea; [done|]. by rewrite Hne by (intros ->; done).
  - intros t Ht. apply Hke. unfold w1. destruct (_ <? _); simpl; set_solver.
  - intros t Ht. destruct (Hnw t Ht) as [Hd|(Hin & b & Et & Hfull)].
    + unfold w1 in Hd. destruct (Z.ltb_spec (Z.of_nat (length buf)) watchBuffer); simpl in Hd; [by left|].
      apply elem_of_app in Hd as [?| ->%list_elem_of_singleton]; [by left|]. right. split; [constructor|eauto].
    + right. split; [by constructor|]. rewrite Hne in Et by (intros ->; done). eauto.
Qed.

Lemma stream_forwarded item h :
  hinv h → ∃ w', stream_item item (h_hub h) = Some (w', ()) ∧
    forwarded item (elements (subs (h_hub h))) (h_hub h) w'.
Proof.
  intros Hh. apply for_subs_forwarded; [apply NoDup_elements|].
  intros s Hs%elem_of_elements. by apply (hi_open _ Hh).
Qed.

Lemma hinv_stream item w w' got log dr :
  hinv (mkHstate w got log dr) → stream_item item w = Some (w', ()) →
  hinv (mkHstate w' got (λ s, if decide (s ∈ subs w) then log s ++ [item] else log s)
          (dr ∪ list_to_set (deleting w'))).
Proof.
  intros Hh E. destruct (stream_forwarded item _ Hh) as (w2 & E2 & Hf). simpl in E2, Hf.
  rewrite E in E2. injection E2 as <-. destruct Hf as [Hsu Hnx Hot Hea Hke Hnw].
  destruct Hh as [Hop Hfr Hor Hex Hbd Hdo Hde]. simpl in *.
  assert (∀ s ch, chans w' !! s = Some ch →
    ((s ∉ subs w) ∧ chans w !! s = Some ch) ∨
    s ∈ subs w ∧ ∃ buf, chans w !! s = Some (mkChan buf false) ∧
      (Z.of_nat (length buf) < watchBuffer ∧ ch = mkChan (buf ++ [item]) false ∨
       watchBuffer <= Z.of_nat (length buf) ∧ ch = mkChan buf false ∧ s ∈ deleting w')) as Hcase.
  { intros s ch Hs. destruct (decide (s ∈ subs w)) as [Hin|Hout].
    - right. split; [done|]. destruct (Hop s Hin) as [buf Eb]. exists buf. split; [done|].
      specialize (Hea s buf ltac:(by apply elem_of_elements) Eb).
      destruct (Z.ltb_spec (Z.of_nat (length buf)) watchBuffer); [left|right; destruct Hea as [Hea ?]];
        rewrite Hea in Hs; by injection Hs as <-.
    - left. split; [done|]. rewrite <-Hot; [done|]. by rewrite elem_of_elements. }
  split; simpl.
  - intros s. rewrite Hsu. intros Hin. destruct (Hop s Hin) as [buf Eb].
    specialize (Hea s buf ltac:(by apply elem_of_elements) Eb).
    destruct (_ <? _); [|destruct Hea as [Hea _]]; rewrite Hea; eauto.
  - intros s. rewrite Hnx. intros Hs. destruct (Hfr s Hs) as (Ec & Eg & El & Hd).
    assert (s ∉ subs w) as Hout by (intros Hin; destruct (Hop s Hin); congruence).
    rewrite decide_False, Hot by (rewrite ?elem_of_elements; done). split; [done|]. split; [done|].
    split; [done|]. intros [?|Hin%elem_of_list_to_set]%elem_of_union; [done|].
    destruct (Hnw s Hin) as [?|[Hin' _]]; [by apply Hd, Hde|]. apply Hout. by apply elem_of_elements.
  - intros s ch Hs. destruct (Hcase s ch Hs) as [[Hout Ec]|(Hin & buf & Ec & [[_ ->]|(_ & -> & _)])].
    + rewrite decide_False by done. by apply Hor.
    + rewrite decide_True by done. simpl. rewrite app_assoc. apply sublist_app; [|done].
      exact (Hor _ _ Ec).
    + rewrite decide_True by done. simpl. apply sublist_inserts_r. exact (Hor _ _ Ec).
  - intros s ch Hs Hnd. destruct (Hcase s ch Hs) as [[Hout Ec]|(Hin & buf & Ec & [[_ ->]|(_ & -> & Hdel)])].
    + rewrite decide_False by done. apply Hex; [done|set_solver].
    + rewrite decide_True by done. simpl. rewrite app_assoc. f_equal. apply (Hex _ _ Ec). set_solver.
    + set_solver.
  - intros s ch Hs. destruct (Hcase s ch Hs) as [[Hout Ec]|(Hin & buf & Ec & [[? ->]|(_ & -> & _)])].
    + by apply (Hbd s).
    + simpl. rewrite length_app. simpl. lia.
    + exact (Hbd _ _ Ec).
  - intros s [Hd|Hd%elem_of_list_to_set]%elem_of_union Hin; [|done]. rewrite Hsu in Hin. auto.
  - set_solver.
Qed.

(** * The other steps *)

(** Removing a watcher closes its channel and keeps what is buffered; [d] are
    the removals still scheduled afterwards. *)
Lemma hinv_delete sub d w w' got log dr :
  hinv (mkHstate w got log dr) →
  (∀ s, s ∈ d → s ∈ deleting w) → (∀ s, s ∈ deleting w → s ∈ d ∨ s = sub) →
  DeleteWatcher sub (set_deleting d w) = Some (w', ()) → hinv (mkHstate w' got log dr).
Proof.
  intros [Hop Hfr Hor Hex Hbd Hdo Hde] Hd1 Hd2. simpl in *. unfold DeleteWatcher, set_deleting. simpl.
  destruct (decide (sub ∈ subs w)) as [Hin|Hout].
  2:{ intros [= <-]. split; simpl; try done.
      - intros s Hs Hsub. destruct (Hd2 s (Hdo s Hs Hsub)) as [?| ->]; done.
      - auto. }
  destruct (Hop sub Hin) as [buf Es]. unfold close_chan. rewrite Es. simpl. intros [= <-].
  assert (∀ s ch, <[sub := mkChan buf true]> (chans w) !! s = Some ch →
    ∃ c, chans w !! s = Some (mkChan (ch_buf ch) c)) as Hch.
  { intros s ch [[<- <-]|[_ ?]]%lookup_insert_Some; [by exists false|]. destruct ch; eauto. }
  split; simpl.
  - intros s [Hs Hne]%elem_of_difference. rewrite lookup_insert_ne by set_solver. auto.
  - intros s Hs. destruct (Hfr s Hs) as (Ec & ?). rewrite lookup_insert_ne by congruence. done.
  - intros s ch [c Ec]%Hch. exact (Hor _ _ Ec).
  - intros s ch [c Ec]%Hch Hnd. exact (Hex _ _ Ec Hnd).
  - intros s ch [c Ec]%Hch. exact (Hbd _ _ Ec).
  - intros s Hs [Hsub Hne]%elem_of_difference. destruct (Hd2 s (Hdo s Hs Hsub)); set_solver.
  - auto.
Qed.

Lemma hinv_recv sub x w w' got log dr :
  hinv (mkHstate w got log dr) → recv_chan sub w = Some (w', Some x) →
  hinv (mkHstate w' (λ s, if decide (s = sub) then got s ++ [x] else got s) log dr).
Proof.
  intros [Hop Hfr Hor Hex Hbd Hdo Hde]. unfold recv_chan. simpl in *.
  destruct (chans w !! sub) as [[[|y l] c]|] eqn:Es; simpl; [by destruct c| |done].
  intros [= <- ->].
  assert (∀ s ch, <[sub := mkChan l c]> (chans w) !! s = Some ch →
    ∃ buf, chans w !! s = Some (mkChan buf (ch_closed ch)) ∧
      (length (ch_buf ch) <= length buf)%nat ∧
      (if decide (s = sub) then got s ++ [x] else got s) ++ ch_buf ch = got s ++ buf) as Hch.
  { intros s ch [[<- <-]|[Hne Ec]]%lookup_insert_Some.
    - exists (x :: l). rewrite decide_True, <-app_assoc by done. simpl. split; [done|]. by split; [lia|].
    - exists (ch_buf ch). rewrite decide_False by done. by destruct ch. }
  split; simpl; try done.
  - intros s Hs. destruct (decide (s = sub)) as [->|Hne].
    + rewrite lookup_insert_eq. destruct (Hop sub Hs) as [buf E]. rewrite Es in E. injection E as _ ->. eauto.
    + rewrite lookup_insert_ne by done. auto.
  - intros s Hs. destruct (Hfr s Hs) as (Ec & ?). assert (s ≠ sub) by congruence.
    rewrite lookup_insert_ne, decide_False by done. done.
  - intros s ch (buf & Ec & _ & ->)%Hch. exact (Hor _ _ Ec).
  - intros s ch (buf & Ec & _ & ->)%Hch Hnd. exact (Hex _ _ Ec Hnd).
  - intros s ch (buf & Ec & Hlen & _)%Hch. specialize (Hbd _ _ Ec). simpl in Hbd. lia.
Qed.

Lemma hinv_move h h' : hinv h → hub_move h h' → hinv h'.
Proof.
  intros Hh Hs. destruct Hs as [w w' sub got log dr E|w w' sub got log dr E|w w' sub d1 d2 got log dr Ed E
    |w w' sub x got log dr E].
  - injection E as <- <-. destruct Hh as [Hop Hfr Hor Hex Hbd Hdo Hde]. simpl in *.
    destruct (Hfr (nextChan w)) as (En & Eg & El & Hd); [done|].
    assert (nextChan w ∉ subs w) by (intros Hin; destruct (Hop _ Hin); congruence).
    split; simpl; try done.
    + intros s Hs. destruct (decide (s = nextChan w)) as [->|Hne]; [rewrite lookup_insert_eq; eauto|].
      rewrite lookup_insert_ne by done. apply Hop. set_solver.
    + intros s Hs. rewrite lookup_insert_ne by lia. apply Hfr. lia.
    + intros s ch [[<- <-]|[_ Ec]]%lookup_insert_Some; [by rewrite Eg, El | by apply Hor].
    + intros s ch [[<- <-]|[_ Ec]]%lookup_insert_Some; [by rewrite Eg, El | by apply Hex].
    + intros s ch [[<- <-]|[_ Ec]]%lookup_insert_Some; [done | by apply (Hbd s)].
    + intros s Hs Hin. apply Hdo; [done|]. set_solver.
  - apply (hinv_delete sub (deleting w) w w' got log dr Hh); [done|by left|]. by destruct w.
  - apply (hinv_delete sub (d1 ++ d2) w w' got log dr Hh); [| |done]; intros s; rewrite Ed; clear -s; set_solver.
  - by apply (hinv_recv sub x w).
Qed.

Lemma hinv_step h h' : hinv h → hstep h h' → hinv h'.
Proof.
  intros Hh [Hm|item Hs]; [by eapply hinv_move|]. destruct Hs as [w w' got log dr E]. by apply (hinv_stream item w).
Qed.

Lemma hinv_reach h : rtc hstep hinit h → hinv h.
Proof.
  intros Hr. remember hinit as h0 eqn:E. pose proof hinit_inv as Hi. rewrite <-E in Hi. clear E.
  induction Hr as [|h0 h1 h Hs Hr IH]; [done|]. apply IH. by eapply hinv_step.
Qed.

(** No step of the hub panics: no send on, and no second close of, a closed channel. *)
Lemma hub_no_panic h item sub :
  hinv h → is_Some (stream_item item (h_hub h)) ∧ is_Some (DeleteWatcher sub (h_hub h)).
Proof.
  intros Hh. split.
  - destruct (stream_forwarded item h Hh) as (w' & -> & _). by eexists.
  - unfold DeleteWatcher. destruct (decide _) as [Hin|]; [|by eexists].
    destruct (hi_open _ Hh _ Hin) as [buf E]. unfold close_chan. rewrite E. by eexists.
Qed.

(** * A skipped watcher may be sent to again *)

(** The hub with the one watcher 0 that has [buf] in its channel. *)
Definition hub_one (buf : list evbatch) (del : list nat) : WatcherHub :=
  mkHub {[0%nat]} {[0%nat := mkChan buf false]} 1 del.

Lemma stream_one item buf del :
  stream_item item (hub_one buf del) = Some (
    if Z.of_nat (length buf) <? watchBuffer then hub_one (buf ++ [item]) del
    else hub_one buf (del ++ [0%nat]), ()).
Proof.
  unfold stream_item, gets, mbind, gom_bind, compose. simpl. rewrite elements_singleton. simpl.
  unfold send_or_drop, mbind, gom_bind. simpl. rewrite lookup_singleton_eq. simpl.
  destruct (_ <? _); simpl; [|done]. unfold hub_one. by rewrite insert_singleton_eq.
Qed.

Lemma fill_one item n :
  Z.of_nat n <= watchBuffer →
  ∃ log dr, rtc hstep hinit (mkHstate (hub_one (replicate n item) []) (λ _, []) log dr) ∧
    log 0%nat = replicate n item.
Proof.
  induction n as [|n IH]; intros Hn.
  - exists (λ _, []), ∅. split; [|done]. apply rtc_once. apply hs_move, hs_add with (sub := 0%nat).
    unfold AddWatcher, hub_one. simpl. by rewrite (right_id_L ∅ (∪)), insert_empty.
  - destruct IH as (log & dr & Hr & El); [lia|]. eexists _, _. split.
    + eapply rtc_r; [exact Hr|]. apply hs_stream with (item := item), hs_forward. rewrite stream_one.
      destruct (Z.ltb_spec (Z.of_nat (length (replicate n item))) watchBuffer) as [_|Hf];
        [by rewrite <-replicate_cons_app | rewrite length_replicate in Hf; lia].
    + simpl. rewrite decide_True by set_solver. by rewrite El, <-replicate_cons_app.
Qed.

(** A full channel, one batch skipped, one receive, one more batch: the watcher
    is still registered and its channel has a gap. *)
Lemma hub_gap (a b c : evbatch) :
  b ≠ c → ∃ h ch, rtc hstep hinit h ∧ 0%nat ∈ subs (h_hub h) ∧ chans (h_hub h) !! 0%nat = Some ch ∧
    ∃ l, h_log h 0%nat = l ++ [b; c] ∧ h_got h 0%nat ++ ch_buf ch = l ++ [c].
Proof.
  intros Hbc. destruct (fill_one a (Z.to_nat watchBuffer)) as (log & dr & Hr & El); [done|].
  set (n := Z.to_nat watchBuffer) in *.
  assert (Z.of_nat n = watchBuffer) as En by done. clearbody n.
  destruct n as [|n]; [done|].
  eexists (mkHstate (hub_one (replicate n a ++ [c]) [0%nat]) _ _ _), (mkChan (replicate n a ++ [c]) false).
  split; [|split; [set_solver|split; [by apply lookup_singleton_eq|]]].
  - eapply rtc_r; [eapply rtc_r; [eapply rtc_r; [exact Hr|]|]|].
    + apply hs_stream with (item := b), hs_forward. rewrite stream_one, length_replicate.
      destruct (Z.ltb_spec (Z.of_nat (S n)) watchBuffer); [lia|]. done.
    + apply hs_move, hs_recv with (sub := 0%nat) (x := a). unfold recv_chan. simpl.
      rewrite lookup_singleton_eq. simpl. rewrite insert_singleton_eq. done.
    + apply hs_stream with (item := c), hs_forward.
      change (mkHub {[0%nat]} {[0%nat := mkChan (replicate n a) false]} 1 [0%nat])
        with (hub_one (replicate n a) [0%nat]).
      rewrite stream_one, length_replicate. destruct (Z.ltb_spec (Z.of_nat n) watchBuffer); [done|lia].
  - exists (a :: replicate n a). simpl. rewrite !decide_True by set_solver. rewrite El. simpl.
    by rewrite <-app_assoc.
Qed.
