(* ===== verification/WatchSpec.v ===== *)
(** What a watcher receives.  First, how the history cache and the live events fit
    together: put one after the other they are exactly the events from the watcher's
    revision on, in order and once, whatever the interleaving of the registration,
    the read of the history and the collector.

    Then the write pipeline and the watcher hub as one system ([dstep], of
    pkg/backend/backend.go, watcherhub.go and watch.go): the collector appends
    batches to the channel it shares with the hub, the hub forwards them one by one
    to the watchers that are registered, skipping those whose buffer is full, and
    watchers register, receive and are removed, in any order.  What a watcher
    receives is compared with what it asked for ([wanted]). *)

From S2P Require Import Prelude GoMonad Storage Coder Proto Tso Ring Queue Mvcc Creator Scanner.
From S2P Require Import Backend Pipeline Watch HubSpec.

(** * The history and the live events fit together *)

Section history.
Context {S : Type} `{KvStorage S} `{Backoff}.

Lemma mapM_ptrs {A} (l : list A) : mapM id (Some <$> l) = Some l.
Proof. apply mapM_Some, Forall2_fmap_l, Forall_Forall2_diag, Forall_forall. done. Qed.

(** Events cached at the end of [d], from a revision at least the oldest. *)
Lemma filter_cached (d : list Event) k rev o :
  StronglySorted ev_lt d → head (drop k d) = Some o → ev_Revision o <= rev →
  filter (ev_from rev) d = filter (ev_from rev) (drop k d).
Proof.
  intros Hs Ho Hrev. rewrite <-(take_drop k d) at 1. rewrite filter_app.
  rewrite <-(take_drop k d) in Hs. rewrite (filter_none _ (take k d)); [done|].
  apply Forall_forall. intros x Hx. apply head_Some_elem_of in Ho.
  pose proof (StronglySorted_app_1_elem_of _ _ _ _ _ Hs Hx Ho) as Hlt. unfold ev_lt in Hlt. lia.
Qed.

Lemma last_bound (d : list Event) n :
  StronglySorted ev_lt d → last d = Some n → Forall (λ e, ev_Revision e <= ev_Revision n) d.
Proof.
  intros Hs [d' ->]%last_Some. apply Forall_app. split; [|by repeat constructor].
  apply Forall_forall. intros x Hx.
  pose proof (StronglySorted_app_1_elem_of _ _ _ x n Hs Hx ltac:(constructor)) as Hlt.
  unfold ev_lt in Hlt. lia.
Qed.

Lemma filter_above (d : list Event) n rev :
  StronglySorted ev_lt d → last d = Some n → ev_Revision n < rev → filter (ev_from rev) d = [].
Proof.
  intros Hs Hn Hlt. apply filter_none. eapply Forall_impl; [exact (last_bound _ _ Hs Hn)|].
  simpl. intros x ?. lia.
Qed.

Lemma filter_drop (d : list Event) k rev :
  StronglySorted ev_lt d → filter (ev_from rev) (take k d) = [] →
  filter (ev_from rev) (drop k d) = filter (ev_from rev) d.
Proof. intros Hs E. rewrite <-(take_drop k d) at 2. by rewrite filter_app, E. Qed.

Lemma filter_sublist_nil {A} (P : A → Prop) `{∀ x, Decision (P x)} l k :
  filter P l = [] → filter P (take k l) = [].
Proof. intros E. rewrite <-(take_drop k l), filter_app in E. by apply app_eq_nil in E as [? _]. Qed.

Lemma filter_swap {A} (P Q : A → Prop) `{∀ x, Decision (P x)} `{∀ x, Decision (Q x)} (l : list A) :
  filter P (filter Q l) = filter Q (filter P l).
Proof.
  induction l as [|x l IH]; [done|].
  destruct (decide (P x)), (decide (Q x));
    repeat first [rewrite (filter_cons_True P) by done | rewrite (filter_cons_True Q) by done
                 | rewrite (filter_cons_False P) by done | rewrite (filter_cons_False Q) by done];
    by rewrite ?IH.
Qed.

(** [d0] are the events collected when the cache is read, [d1] those collected
    later; the channel delivers all of them but the first [n], which were sent
    to the hub before the registration. *)
Section split.
Context (prefix : bytes) (revision : Z) (d0 d1 : list Event) (n : nat) (input : list evbatch).
Hypothesis (Hs : StronglySorted ev_lt (d0 ++ d1)) (Hn : (n <= length d0)%nat)
  (Hin : concat input = drop n (d0 ++ d1)).

Lemma input_sorted : StronglySorted ev_lt (concat input).
Proof.
  rewrite Hin. pose proof Hs as Hs'. rewrite <-(take_drop n (d0 ++ d1)) in Hs'.
  by apply StronglySorted_app_1_r in Hs'.
Qed.

(** The live events are enough when nothing collected so far counts. *)
Lemma live_only :
  filter (ev_under prefix) (filter (ev_from revision) d0) = [] →
  concat (processEvents prefix revision input) =
  filter (ev_under prefix) (filter (ev_from revision) (d0 ++ d1)).
Proof.
  intros E. rewrite processEvents_concat, Hin by apply input_sorted. rewrite drop_app_le by done.
  rewrite !filter_app, E. f_equal. rewrite filter_swap in E |- *.
  rewrite <-(take_drop n d0), !filter_app in E. by apply app_eq_nil in E as [_ ?].
Qed.

(** Live events above the newest of [d0] continue it. *)
Lemma live_rest nw :
  last d0 = Some nw → revision <= ev_Revision nw →
  concat (processEvents prefix (ev_Revision nw + 1) input) =
  filter (ev_under prefix) (filter (ev_from revision) d1).
Proof.
  intros Hnw Hr. rewrite processEvents_concat, Hin by apply input_sorted.
  rewrite drop_app_le, filter_app by done.
  rewrite (filter_none (ev_from (ev_Revision nw + 1)) (drop n d0)).
  2:{ apply Forall_drop. eapply Forall_impl;
      [exact (last_bound _ _ (StronglySorted_app_1_l _ _ _ Hs) Hnw)|]. simpl. intros ??. lia. }
  simpl. f_equal. rewrite !filter_all; [done| |]; apply Forall_forall; intros x Hx;
    pose proof (StronglySorted_app_1_elem_of _ _ _ nw x Hs (last_Some_elem_of _ _ Hnw) Hx) as Hlt;
    unfold ev_lt in Hlt; lia.
Qed.
End split.

Lemma watch_history_complete prefix revision (b : backend S) d0 d1 n input batches from :
  StronglySorted ev_lt (d0 ++ d1) → Forall (λ e, 0 <= ev_Revision e < max_uint64) d0 →
  ring_ok (watchCache b) →
  ring_list (watchCache b) = drop (length d0 - r_l (watchCache b)) d0 →
  (n <= length d0)%nat → concat input = drop n (d0 ++ d1) → 0 < revision →
  watch_history prefix revision b = Some (inr (batches, from)) →
  concat (batches ++ processEvents prefix from input) =
  filter (ev_under prefix) (filter (ev_from revision) (d0 ++ d1)).
Proof.
  intros Hs Hu Hok Hl Hn Hin Hrev. pose proof (StronglySorted_app_1_l _ _ _ Hs) as Hs0.
  assert (ring_sorted (watchCache b)) as Hrs.
  { unfold ring_sorted. rewrite Hl. rewrite <-(take_drop (length d0 - r_l (watchCache b)) d0) in Hs0.
    by apply StronglySorted_app_1_r in Hs0. }
  unfold watch_history. destruct (Z.eqb_spec revision 0); [lia|].
  destruct (ring_list (watchCache b)) as [|o rl] eqn:El.
  { rewrite (FindEvents_empty _ Hok) by done. simpl.
    destruct (_ <? _); [|done]. intros [= <- <-]. eapply live_only; [done..|].
    assert (d0 = []) as -> by (apply nil_length_inv; pose proof (rok_pos _ Hok);
      apply (f_equal length) in Hl; rewrite length_drop in Hl; simpl in Hl; lia). done. }
  destruct (last (ring_list (watchCache b))) as [nw|] eqn:Elast;
    [|apply last_None in Elast; rewrite El in Elast; done].
  assert (head (ring_list (watchCache b)) = Some o) as Ehead by by rewrite El.
  rewrite (FindEvents_nonempty _ Hok Hrs revision nw o) by done. rewrite <-El in *.
  assert (last d0 = Some nw) as Elast0.
  { rewrite Hl in Elast. rewrite <-(take_drop (length d0 - r_l (watchCache b)) d0).
    by rewrite last_app, Elast. }
  destruct (Z.ltb_spec (ev_Revision nw) revision) as [Hhigh|Hnot]; simpl.
  { intros [= <- <-]. eapply live_only; [done..|]. by rewrite (filter_above _ _ _ Hs0 Elast0). }
  destruct (Z.ltb_spec revision (ev_Revision o)) as [|Hlow]; [done|]. simpl.
  rewrite mapM_ptrs. simpl. rewrite Hl in Ehead |- *.
  rewrite <-(filter_cached d0 _ revision o Hs0 Ehead Hlow).
  unfold filterByPrefix.
  set (evs := filter (ev_under prefix) (filter (ev_from revision) d0)).
  destruct (Nat.ltb_spec 0 (length evs)) as [Hlt|Hz].
  2:{ intros [= <- <-]. eapply live_only; [done..|]. apply nil_length_inv. fold evs. lia. }
  destruct (catchUpEvents_spec evs) as (out & -> & Eo & _).
  simpl. intros [= <- <-]. rewrite concat_app, Eo, !filter_app.
  assert (0 <= ev_Revision nw < max_uint64) as Hnw
    by (rewrite Forall_forall in Hu; by apply (Hu nw), last_Some_elem_of).
  rewrite uint64_id by (unfold is_uint64, two64, max_uint64 in *; lia).
  f_equal. by apply (live_rest _ _ d0 d1 n).
Qed.
End history.

(** * Watching a running pipeline *)

Section pipeline_watch.
Context {S : Type} `{KvStorage S} `{Backoff}.

(** The collector only ever appends to what it sent. *)
Lemma pstep_grows (p p' : pstate S) :
  pinv p → pstep_any p p' →
  (∃ l, watchChan (p_b p') = watchChan (p_b p) ++ l) ∧ ∃ d, delivered p' = delivered p ++ d.
Proof.
  intros Hp [Hstep|Hd]; [destruct Hstep as [b b' fl pend x E Hlt
    |b b' fl1 fl2 pend k v x prev valid ty e E|b b' fl pend pend' now E|b q fl pend E Hhd]|].
  - injection E as <- <-. unfold delivered; simpl. split; exists []; by rewrite app_nil_r.
  - destruct (flight_notify _ _ _ _ _ _ _ _ _ _ _ _ Hp E) as (_ & _ & ->).
    unfold delivered; simpl. split; exists []; by rewrite app_nil_r.
  - pose proof (wp_collect now _ Hp) as Hw. unfold wp in Hw. simpl in Hw. rewrite E in Hw.
    unfold collected, delivered in *. simpl in *.
    destruct Hw as [(_ & _ & -> & -> & ->)|[(_ & _ & -> & ->)|(_ & ev & Hev & -> & ->)]]; simpl.
    + split; exists []; by rewrite ?app_nil_r.
    + split; [by eexists|]. exists []. by rewrite concat_app, !app_nil_r; simpl; rewrite app_nil_r.
    + split; [exists []; by rewrite app_nil_r|]. eexists. by rewrite app_assoc.
  - unfold delivered; simpl. split; exists []; by rewrite app_nil_r.
  - destruct Hd as [b b' fl1 fl2 pend k v x prev valid ty e E]. injection E as <-.
    unfold delivered; simpl. split; exists []; by rewrite app_nil_r.
Qed.

Lemma reach_grows (p p' : pstate S) :
  pinv p → rtc pstep_any p p' →
  (∃ l, watchChan (p_b p') = watchChan (p_b p) ++ l) ∧ ∃ d, delivered p' = delivered p ++ d.
Proof.
  intros Hp Hr. induction Hr as [|p q p' Hs Hr IH].
  - split; exists []; by rewrite app_nil_r.
  - destruct (pstep_grows _ _ Hp Hs) as [[l El] [d Ed]].
    destruct IH as [[l' El'] [d' Ed']]; [eapply pinv_reach; [done|by apply rtc_once]|].
    rewrite El', El, Ed', Ed. split; eexists; by rewrite <-app_assoc.
Qed.

(** The watcher registers in state [p], when the hub has forwarded the first [j]
    batches, and reads the history in state [q].  If it received everything from
    there on up to state [r], it would have all events from its revision on. *)
Lemma watch_complete prefix revision (p q r : pstate S) j batches from :
  pinv p → rtc pstep_any p q → rtc pstep_any q r →
  (j <= length (watchChan (p_b p)))%nat → 0 < revision →
  watch_history prefix revision (p_b q) = Some (inr (batches, from)) →
  concat (batches ++ processEvents prefix from (drop j (watchChan (p_b r)) ++ [p_pending r])) =
  filter (ev_under prefix) (filter (ev_from revision) (delivered r)).
Proof.
  intros Hp Hpq Hqr Hj Hrev Hw. pose proof (pinv_reach _ _ Hp Hpq) as Hq.
  pose proof (pinv_reach _ _ Hq Hqr) as Hr.
  destruct (reach_grows _ _ Hp Hpq) as [[l El] _].
  destruct (reach_grows _ _ Hq Hqr) as [[l' El'] [d Ed]].
  rewrite Ed.
  eapply (watch_history_complete _ _ _ _ _ (length (concat (take j (watchChan (p_b p)))))).
  - rewrite <-Ed. apply (pi_sorted _ Hr).
  - pose proof (pi_bound _ Hq) as Hb. pose proof (pi_tso _ Hq) as Ht.
    eapply Forall_impl; [exact Hb|]. simpl. intros x Hx. unfold max_uint64, two63 in *. lia.
  - apply (pi_cache _ Hq).
  - apply (pi_suffix _ Hq).
  - unfold delivered. rewrite El, length_app.
    rewrite <-(take_drop j (watchChan (p_b p))) at 2. rewrite !concat_app, !length_app. lia.
  - rewrite <-Ed. unfold delivered. rewrite El', El. rewrite <-(take_drop j (watchChan (p_b p))) at 3.
    rewrite drop_app_le, drop_app_le by (rewrite ?length_app; lia).
    rewrite !concat_app, <-!app_assoc, drop_app_length. simpl. by rewrite app_nil_r.
  - done.
  - done.
Qed.
End pipeline_watch.

(** * Processing batch by batch *)

Lemma processEvents_app prefix rev l k :
  processEvents prefix rev (l ++ k) = processEvents prefix rev l ++ processEvents prefix rev k.
Proof. induction l as [|x l IH]; simpl; [done|]. case_match; [|done]. simpl. by rewrite IH. Qed.

Lemma processEvents_prefix prefix rev l k :
  l `prefix_of` k → concat (processEvents prefix rev l) `prefix_of` concat (processEvents prefix rev k).
Proof. intros [k' ->]. rewrite processEvents_app, concat_app. by eexists. Qed.

Lemma processEvents_sublist prefix rev l k :
  l `sublist_of` k → concat (processEvents prefix rev l) `sublist_of` concat (processEvents prefix rev k).
Proof.
  induction 1 as [|x l k _ IH|x l k _ IH]; simpl; [done| |]; case_match; simpl; try done.
  - by apply sublist_app.
  - by apply sublist_inserts_l.
Qed.

Lemma StronglySorted_sublist {A} (R : relation A) l k : l `sublist_of` k → StronglySorted R k → StronglySorted R l.
Proof.
  induction 1 as [|x l k Hl IH|x l k Hl IH]; inversion_clear 1 as [|? ? Hs Hf]; [constructor| |by apply IH].
  constructor; [by apply IH|]. rewrite Forall_forall in Hf |- *. intros y Hy. apply Hf. by eapply elem_of_sublist.
Qed.

(** * Pipeline and hub *)

(** The pipeline, the hub with its watchers, and how many batches of the collector's
    channel the hub has taken. *)
Record dstate (S : Type) := mkDstate { d_pipe : pstate S; d_hub : hstate; d_fwd : nat }.
Arguments mkDstate {S}.
Arguments d_pipe {S}.
Arguments d_hub {S}.
Arguments d_fwd {S}.

Section delivery.
Context {S : Type} `{KvStorage S} `{Backoff}.
Implicit Types d : dstate S.

Definition dinit (b : backend S) : dstate S := mkDstate (pinit b) hinit 0.

Inductive dstep : dstate S → dstate S → Prop :=
  | ds_pipe p p' h n : pstep_any p p' → dstep (mkDstate p h n) (mkDstate p' h n)
  (** [Stream] receives the next batch and forwards it *)
  | ds_forward p h h' n item :
      watchChan (p_b p) !! n = Some item → hub_stream item h h' →
      dstep (mkDstate p h n) (mkDstate p h' (Datatypes.S n))
  | ds_move p h h' n : hub_move h h' → dstep (mkDstate p h n) (mkDstate p h' n).

(** The state after [AddWatcher]. *)
Definition registered (w : WatcherHub) d : dstate S :=
  mkDstate (d_pipe d) (mkHstate w (h_got (d_hub d)) (h_log (d_hub d)) (h_dropped (d_hub d))) (d_fwd d).

Record dinv d : Prop := {
  di_pipe : pinv (d_pipe d);
  di_hub : hinv (d_hub d);
  di_fwd : (d_fwd d <= length (watchChan (p_b (d_pipe d))))%nat;
}.

Lemma dinv_step d d' : dinv d → dstep d d' → dinv d'.
Proof.
  intros [Hp Hh Hn] Hs. destruct Hs as [p p' h n Hs|p h h' n item Hi Hs|p h h' n Hm]; simpl in *; split; simpl; try done.
  - eapply pinv_reach; [exact Hp|]. by apply rtc_once.
  - destruct (pstep_grows _ _ Hp Hs) as [[l ->] _]. rewrite length_app. lia.
  - eapply hinv_step; [exact Hh|]. by eapply hs_stream.
  - apply lookup_lt_Some in Hi. lia.
  - by eapply hinv_move.
Qed.

Lemma dinv_reach d d' : dinv d → rtc dstep d d' → dinv d'.
Proof. intros Hd. induction 1; eauto using dinv_step. Qed.

(** The pipeline of a run. *)
Lemma pipe_reach d d' : rtc dstep d d' → rtc pstep_any (d_pipe d) (d_pipe d').
Proof.
  induction 1 as [|d d1 d' Hs _ IH]; [done|]. destruct Hs as [p p' h n Hs|p h h' n item _ _|p h h' n _]; simpl in *; [|done..].
  by eapply rtc_l.
Qed.

(** * What is streamed to a watcher *)

(** Of the batches after the first [j] the hub has streamed [k] while [s] was
    registered; all of them as long as it is. *)
Record logged (s j : nat) d : Prop := {
  lg_next : (s < nextChan (h_hub (d_hub d)))%nat;
  lg_chan : is_Some (chans (h_hub (d_hub d)) !! s);
  lg_from : (j <= d_fwd d)%nat;
  lg_log : ∃ k, (k <= d_fwd d - j)%nat ∧ h_log (d_hub d) s = take k (drop j (watchChan (p_b (d_pipe d)))) ∧
    (s ∈ subs (h_hub (d_hub d)) → k = (d_fwd d - j)%nat);
}.

Lemma insert_some {A} (m : gmap nat A) i x s : is_Some (m !! s) → is_Some (<[i := x]> m !! s).
Proof. rewrite lookup_insert_is_Some. destruct (decide (i = s)); [by left | by right]. Qed.

Lemma DeleteWatcher_frame sub w w' :
  DeleteWatcher sub w = Some (w', ()) →
  nextChan w' = nextChan w ∧ (∀ s, s ∈ subs w' → s ∈ subs w) ∧ ∀ s, is_Some (chans w !! s) → is_Some (chans w' !! s).
Proof.
  unfold DeleteWatcher, close_chan. destruct (decide _); [|by intros [= <-]].
  destruct (chans w !! sub) as [ch|]; simpl; [|done]. destruct (ch_closed ch); [done|]. intros [= <-]. simpl.
  split; [done|]. split; [set_solver|]. intros s Hs. by apply insert_some.
Qed.

(** A move of the watchers streams nothing, and registers none that was before. *)
Lemma move_frame h h' :
  hub_move h h' → h_log h' = h_log h ∧ (nextChan (h_hub h) <= nextChan (h_hub h'))%nat ∧
    (∀ s, (s < nextChan (h_hub h))%nat → s ∈ subs (h_hub h') → s ∈ subs (h_hub h)) ∧
    ∀ s, is_Some (chans (h_hub h) !! s) → is_Some (chans (h_hub h') !! s).
Proof.
  intros Hm. destruct Hm as [w w' sub got log dr E|w w' sub got log dr E|w w' sub d1 d2 got log dr Ed E
    |w w' sub x got log dr E]; simpl; (split; [done|]).
  - injection E as <- <-. simpl. split; [lia|]. split; [|by intros s; apply insert_some].
    intros s Hs [->%elem_of_singleton|?]%elem_of_union; [lia | done].
  - destruct (DeleteWatcher_frame _ _ _ E) as (-> & Hs & Hc). split; [done|]. auto.
  - destruct (DeleteWatcher_frame _ _ _ E) as (-> & Hs & Hc). split; [done|]. simpl in *. auto.
  - unfold recv_chan in E. destruct (chans w !! sub) as [[[|y l] c]|]; simpl in E; [by destruct c| |done].
    injection E as <- <-. simpl. split; [done|]. split; [done|]. intros s. apply insert_some.
Qed.

Lemma stream_frame item h h' :
  hinv h → hub_stream item h h' → nextChan (h_hub h') = nextChan (h_hub h) ∧ subs (h_hub h') = subs (h_hub h) ∧
    (∀ s, is_Some (chans (h_hub h) !! s) → is_Some (chans (h_hub h') !! s)) ∧
    ∀ s, h_log h' s = if decide (s ∈ subs (h_hub h)) then h_log h s ++ [item] else h_log h s.
Proof.
  intros Hh Hs. destruct Hs as [w w' got log dr E]. destruct (stream_forwarded item _ Hh) as (w2 & E2 & Hf).
  simpl in *. rewrite E in E2. injection E2 as <-. split; [apply Hf|]. split; [apply Hf|]. split; [|done].
  intros s Hs. destruct (decide (s ∈ elements (subs w))) as [Hin|Hout]; [|by rewrite (fw_other _ _ _ _ Hf)].
  destruct (hi_open _ Hh s) as [buf Eb]; [by apply elem_of_elements|]. simpl in Eb.
  pose proof (fw_each _ _ _ _ Hf s buf Hin Eb) as Hea. destruct (_ <? _); [|destruct Hea as [Hea _]]; by rewrite Hea.
Qed.

Lemma logged_step s j d d' : dinv d → logged s j d → dstep d d' → logged s j d'.
Proof.
  intros [Hp Hh Hn] [Hnx Hch Hj (k & Hk & Hl & Hall)] Hs.
  destruct Hs as [p p' h n Hs|p h h' n item Hi Hs|p h h' n Hm]; simpl in *.
  - split; simpl; [done | done | done|]. exists k. split; [done|]. split; [|done]. rewrite Hl.
    destruct (pstep_grows _ _ Hp Hs) as [[l ->] _]. rewrite drop_app_le by lia. rewrite take_app_le; [done|].
    rewrite length_drop. lia.
  - destruct (stream_frame _ _ _ Hh Hs) as (En & Es & Ec & El). split; simpl; [by rewrite En | auto | lia|].
    rewrite Es, El. destruct (decide (s ∈ subs (h_hub h))) as [Hin|Hout].
    + rewrite (Hall Hin) in *. exists (Datatypes.S (n - j)). split; [lia|]. split; [|lia]. rewrite Hl.
      symmetry. apply take_S_r. rewrite lookup_drop. by replace (j + (n - j))%nat with n by lia.
    + exists k. split; [lia|]. split; [done|]. intros Hin. done.
  - destruct (move_frame _ _ Hm) as (El & En & Es & Ec). split; simpl; [lia | auto | done|]. rewrite El.
    exists k. split; [done|]. split; [done|]. auto.
Qed.

Lemma logged_reach s j d d' : dinv d → logged s j d → rtc dstep d d' → logged s j d'.
Proof. intros Hd Hl Hr. revert Hd Hl. induction Hr; eauto using dinv_step, logged_step. Qed.

(** A registration. *)
Lemma register_step w s d : AddWatcher (h_hub (d_hub d)) = Some (w, s) → dstep d (registered w d).
Proof. intros E. destruct d as [p [hw got log dr] n]. apply ds_move. by eapply hs_add. Qed.

Lemma register_logged w s d :
  dinv d → AddWatcher (h_hub (d_hub d)) = Some (w, s) → logged s (d_fwd d) (registered w d).
Proof.
  intros [_ Hh _] E. injection E as <- <-. destruct (hi_fresh _ Hh (nextChan (h_hub (d_hub d)))) as (_ & _ & El & _); [done|].
  split; simpl; [lia | by rewrite lookup_insert_eq | done|]. exists 0%nat. split; [lia|]. rewrite El. split; [done | lia].
Qed.

(** * What a watcher asked for *)

(** The events with the prefix, from the revision on; from the registration on for
    revision 0, when [j] batches had been streamed. *)
Definition wanted (prefix : bytes) (revision : Z) (j : nat) (p : pstate S) : list Event :=
  filter (ev_under prefix)
    (if revision =? 0 then concat (drop j (watchChan (p_b p))) ++ p_pending p
     else filter (ev_from revision) (delivered p)).

Lemma drop_sorted prefix rev j (p : pstate S) :
  pinv p → StronglySorted ev_lt (wanted prefix rev j p) ∧
  StronglySorted ev_lt (concat (drop j (watchChan (p_b p)) ++ [p_pending p])).
Proof.
  intros Hp. pose proof (pi_sorted _ Hp) as Hs.
  assert (StronglySorted ev_lt (concat (drop j (watchChan (p_b p))) ++ p_pending p)) as Hd.
  { unfold delivered in Hs. rewrite <-(take_drop j (watchChan (p_b p))), concat_app, <-app_assoc in Hs.
    by apply StronglySorted_app_1_r in Hs. }
  split; [|by rewrite concat_app; simpl; rewrite app_nil_r].
  unfold wanted. destruct (rev =? 0); (eapply StronglySorted_sublist; [apply sublist_filter|]); [done|].
  eapply StronglySorted_sublist; [apply sublist_filter | done].
Qed.

(** Everything streamed after the registration, and the events that are still with
    the collector, complete the history. *)
Lemma wanted_complete prefix revision (p q r : pstate S) j batches from :
  pinv p → rtc pstep_any p q → rtc pstep_any q r → (j <= length (watchChan (p_b p)))%nat → 0 <= revision →
  watch_history prefix revision (p_b q) = Some (inr (batches, from)) →
  concat (batches ++ processEvents prefix from (drop j (watchChan (p_b r)) ++ [p_pending r])) =
  wanted prefix revision j r.
Proof.
  intros Hp Hpq Hqr Hj Hrev Hw. unfold wanted. destruct (Z.eqb_spec revision 0) as [->|Hne].
  2:{ apply (watch_complete _ _ p q); try done. lia. }
  injection Hw as <- <-. simpl. assert (pinv r) as Hr by (eapply pinv_reach; [exact Hp | by etrans]).
  rewrite processEvents_concat by apply (drop_sorted prefix 0 j r Hr). rewrite concat_app. simpl.
  rewrite app_nil_r. f_equal. apply filter_all.
  assert (∀ e, e ∈ delivered r → 0 <= ev_Revision e) as Hb.
  { intros e He. pose proof (pi_bound _ Hr) as Hb. rewrite Forall_forall in Hb. specialize (Hb e He). simpl in Hb. lia. }
  apply Forall_forall. intros e He. apply Hb. unfold delivered. rewrite <-(take_drop j (watchChan (p_b r))), concat_app.
  rewrite <-app_assoc. apply elem_of_app. by right.
Qed.

(** * What it gets *)

(** What the watcher has put out: the history, then what its goroutine made of what
    it received. *)
Definition put_out (prefix : bytes) (batches : list evbatch) (from : Z) (s : nat) d : list Event :=
  concat (batches ++ processEvents prefix from (h_got (d_hub d) s)).

Lemma watch_delivery b prefix revision d0 w s d2 batches from d3 :
  pinv (pinit b) → rtc dstep (dinit b) d0 → AddWatcher (h_hub (d_hub d0)) = Some (w, s) →
  rtc dstep (registered w d0) d2 → 0 <= revision →
  watch_history prefix revision (p_b (d_pipe d2)) = Some (inr (batches, from)) → rtc dstep d2 d3 →
  let events := put_out prefix batches from s d3 in
  let asked := wanted prefix revision (d_fwd d0) (d_pipe d3) in
  let hub := h_hub (d_hub d3) in
  StronglySorted ev_lt events ∧
  (s ∉ h_dropped (d_hub d3) → events `prefix_of` asked ∧
     (chans hub !! s = Some (mkChan [] false) → s ∈ subs hub →
      d_fwd d3 = length (watchChan (p_b (d_pipe d3))) → p_pending (d_pipe d3) = [] → events = asked)) ∧
  (s ∈ h_dropped (d_hub d3) → events `sublist_of` asked ∧ (s ∈ subs hub → s ∈ deleting hub)).
Proof.
  intros Hi Hr0 Ha Hr1 Hrev Hw Hr3. assert (dinv (dinit b)) as Hd by (split; [done | apply hinit_inv | simpl; lia]).
  pose proof (dinv_reach _ _ Hd Hr0) as Hd0. pose proof (dinv_step _ _ Hd0 (register_step _ _ _ Ha)) as Hd1.
  assert (rtc dstep (registered w d0) d3) as Hr13 by by etrans.
  pose proof (dinv_reach _ _ Hd1 Hr13) as Hd3.
  destruct (logged_reach _ _ _ _ Hd1 (register_logged _ _ _ Hd0 Ha) Hr13) as [_ [ch Hch] Hj (k & Hk & Hl & Hall)].
  pose proof (wanted_complete prefix revision _ _ _ (d_fwd d0) batches from (di_pipe _ Hd0)
    (pipe_reach _ _ Hr1) (pipe_reach _ _ Hr3) (di_fwd _ Hd0) Hrev Hw) as Hall'.
  intros events asked hub. subst events asked. rewrite <-Hall'. unfold put_out.
  set (full := drop (d_fwd d0) (watchChan (p_b (d_pipe d3))) ++ [p_pending (d_pipe d3)]) in *.
  assert (h_log (d_hub d3) s `prefix_of` full) as Hpre.
  { rewrite Hl. etrans; [apply prefix_take|]. by eexists. }
  assert (h_got (d_hub d3) s `sublist_of` full) as Hsub.
  { destruct Hpre as [rest ->]. apply sublist_inserts_r. etrans; [|exact (hi_order _ (di_hub _ Hd3) _ _ Hch)]. by apply sublist_inserts_r. }
  assert (concat (batches ++ processEvents prefix from (h_got (d_hub d3) s)) `sublist_of`
          concat (batches ++ processEvents prefix from full)) as Hsub'.
  { rewrite !concat_app. apply sublist_app; [done|]. by apply processEvents_sublist. }
  split; [|split; [intros Hnd; pose proof (hi_exact _ (di_hub _ Hd3) _ _ Hch Hnd) as Hex; split|]].
  - eapply StronglySorted_sublist; [exact Hsub'|]. rewrite Hall'. by apply drop_sorted, Hd3.
  - rewrite !concat_app. apply prefix_app, processEvents_prefix. etrans; [|exact Hpre]. rewrite <-Hex. by eexists.
  - intros Hbuf Hin Hn Hpend. unfold hub in Hbuf. rewrite Hch in Hbuf. injection Hbuf as ->. rewrite app_nil_r in Hex.
    rewrite Hex, Hl, (Hall Hin), Hn. unfold full. rewrite Hpend, <-length_drop, take_ge by done.
    by rewrite processEvents_app, !concat_app; simpl; rewrite app_nil_r.
  - intros Hdr. split; [done|]. by apply (hi_doomed _ (di_hub _ Hd3)).
Qed.
End delivery.
