(* ===== verification/RetrySpec.v ===== *)
(** Retries of uncertain writes (pkg/backend/retry/retry.go): what one call of
    [retry] does with the event at the head of the queue. *)

From S2P Require Import Prelude GoMonad Storage Coder Proto Tso Ring Queue Mvcc Creator Scanner.
From S2P Require Import ScanSpec Backend BackendSpec.

Section retry.
Context {S : Type} `{KvSpec S}.
Implicit Types b : backend S.

Local Abbreviation next b := (dealRevision (tso b) + 1).

(** The record of a version with value [v] at [r]. *)
Definition record_of (r : Z) (v : slice) : slice :=
  if is_tombstone v then dead_record r else live_record r.

(** The outcome of rewriting the version of [k] at [prev]. *)
Definition rewritten (m : kvmap) (k : bytes) (prev new : Z) (v : slice) (e : option err) (m' : kvmap)
    : Prop :=
  latest m k max_uint64 = Some (prev, v) ∧
  cas_post m k (record_of prev v) (record_of new v) new v e m'.

(** Nothing to fix: the key is gone or another version is the newest, or the
    uncertain write is the newest but its value is empty, which [overwrite] takes
    for a missing one. *)
Definition overtaken (m : kvmap) (k : bytes) (prev : Z) : Prop :=
  match latest m k max_uint64 with Some (r, _) => r ≠ prev | None => True end.

Definition newest_empty (m : kvmap) (k : bytes) (prev : Z) : Prop :=
  ∃ v, latest m k max_uint64 = Some (prev, v) ∧ slen v = 0.

Definition no_fix (m : kvmap) (k : bytes) (prev : Z) : Prop := overtaken m k prev ∨ newest_empty m k prev.

Lemma no_fix_intro m k prev :
  (∀ v, latest m k max_uint64 = Some (prev, v) → slen v = 0) → no_fix m k prev.
Proof.
  intros Hv. unfold no_fix, overtaken, newest_empty. destruct (latest m k max_uint64) as [[r v]|]; [|by left].
  destruct (decide (r = prev)) as [->|Hne]; [|by left]. right. exists v. split; [done|]. by apply Hv.
Qed.

Lemma wp_overwrite k prev b :
  backend_inv b → valid_key k → dealRevision (tso b) < max_uint64 →
  wp (overwrite k prev) (λ r b', ∃ s', kv_inv s' ∧
    ((r.1 = 0 ∧ b' = put_store s' b ∧ kv_view s' = view b ∧
      match r.2 with None => no_fix (view b) k prev | Some _ => ¬ KvReliable S end) ∨
     (r.1 = next b ∧ b' = put_store s' (set_tso (mkTSO (committedRevision (tso b)) (next b)) b) ∧
      ∃ v, slen v ≠ 0 ∧ rewritten (view b) k prev (next b) v r.2 (kv_view s') ∧
        (KvReliable S → is_tombstone v = false → r.2 = None)))) b.
Proof.
  intros Hb Hk Hmax. pose proof (bi_tso _ Hb) as Htso. pose proof zero_is_uint64 as Hz.
  unfold overwrite, getLatestInternalVal. apply wp_bind.
  eapply wp_mono; [apply wp_getInternalVal; [apply Hb | apply Hb | done | done]|].
  intros [[val mr] e] b1 (s1 & -> & Hkv1 & Hv1 & Hg & Hgr). simpl in Hg, Hgr.
  change (read_rev 0) with max_uint64 in Hg. unfold internal_post in Hg. destruct e as [e|].
  { destruct Hg as (-> & _ & _ & Hg). case_bool_decide as E; apply wp_ret; exists s1; (split; [done|]); left.
    - split; [done|]. split; [done|]. split; [done|]. apply no_fix_intro. intros v Hv. subst e. by rewrite Hg in Hv.
    - do 3 (split; [done|]). intros Hr. destruct (Hgr Hr); congruence. }
  destruct (Z.eqb_spec (slen val) 0) as [Elen|Elen]; cbn [orb negb].
  { apply wp_ret. exists s1. split; [done|]. left. do 3 (split; [done|]). apply no_fix_intro. intros v Hv. congruence. }
  destruct (Z.eqb_spec mr prev) as [->|Hne]; cbn [orb negb].
  2:{ apply wp_ret. exists s1. split; [done|]. left. do 3 (split; [done|]). apply no_fix_intro. intros v Hv. congruence. }
  apply wp_bind. unfold on_tso. apply wp_zoom, wp_Deal; [simpl; lia..|]. cbv beta zeta.
  change (dealRevision (tso (put_store s1 b)) + 1) with (next b).
  set (flag := if bytes_eqb (content val) tombStoneBytes then [Byte.x00] else []).
  assert (∀ r, Some (uint64ToBytes r ++ flag) = record_of r val) as Erec.
  { intros r. unfold record_of, is_tombstone, flag. destruct (bytes_eqb _ _); [done|].
    by rewrite app_nil_r. }
  apply wp_bind, wp_on_kv.
  eapply wp_mono; [apply (wp_cas_write _ _ _ _ _ s1); [done | rewrite Hv1; by apply (bi_wf _ Hb)]|].
  intros e s' (Hkv & He & Hrel). 
  rewrite Hv1, !Erec in He. rewrite Hv1, !Erec in Hrel. apply wp_ret. exists s'. split; [done|]. right.
  do 2 (split; [done|]). exists val. split; [done|]. split; [by split|].
  intros Hr Ht. apply (Hrel Hr). unfold record_of. rewrite Ht.
  apply (visible_record _ _ prev val); [apply Hb | done | by apply (bi_wf _ Hb)|].
  unfold visible. rewrite Hg. by rewrite Ht.
Qed.

Lemma rewritten_written m k prev new v e m' :
  rewritten m k prev new v e m' → written m k new m'.
Proof.
  intros [_ Hc]. eapply cas_post_written; [|exact Hc]. unfold record_of.
  destruct (is_tombstone v) eqn:E; [right | left]; done.
Qed.

(** What a retry leaves: it waits, or gives up on a read error and keeps the
    event, or drops it because another version is the newest by now or the newest
    value is empty, or deals a new revision for the same value and hands the
    outcome to the collector. *)
Definition retry_post (now : Z) (ev : WatchEvent) (t : Z) (l : list (WatchEvent * Z))
    (b : backend S) (brk : bool) (b' : backend S) : Prop :=
  let k := we_Key ev in
  if now - t <? RetryInterval then brk = true ∧ b' = b
  else if brk then
    ¬ KvReliable S ∧ view b' = view b ∧ tso b' = tso b ∧ asyncFifoRetry b' = asyncFifoRetry b
  else
    queue_repr (asyncFifoRetry b') l ∧
    ((view b' = view b ∧ tso b' = tso b ∧ watchEventsRingBuffer b' = watchEventsRingBuffer b ∧
      no_fix (view b) k (we_Revision ev)) ∨
     ∃ ev' v, slen v ≠ 0 ∧ submitted b b' ev' ∧ we_Key ev' = k ∧ we_Value ev' = we_Value ev ∧
       we_ResourceVerb ev' = we_ResourceVerb ev ∧ we_PrevRevision ev' = we_PrevRevision ev ∧
       we_Valid ev' = is_ok (we_Err ev') ∧
       rewritten (view b) k (we_Revision ev) (next b) v (we_Err ev') (view b') ∧
       (KvReliable S → is_tombstone v = false → we_Err ev' = None)).

Lemma wp_retry now ev t l b :
  backend_inv b → room b → valid_key (we_Key ev) →
  queue_repr (asyncFifoRetry b) ((ev, t) :: l) →
  wp (retry now) (λ brk b', backend_inv b' ∧ retry_post now ev t l b brk b') b.
Proof.
  intros Hb Hroom Hk Hq. pose proof (getHead_repr _ _ Hq) as Eh. pose proof (bi_tso _ Hb) as Htso.
  unfold retry, retry_post. apply wp_bind. apply wp_gets.
  destruct (getHead (asyncFifoRetry b)) as [[nev nt nn]|]; [|done]. simpl in Eh. injection Eh as -> ->. simpl.
  destruct (now - t <? RetryInterval); [by apply wp_ret|].
  apply wp_bind. eapply wp_mono; [apply wp_overwrite; try done; by apply room_max|].
  intros [rev e] b1 (s' & Hkv & [(Er & -> & Hv & Hfix)|(Er & -> & v & Hlen & Hrw & Hrel)]); simpl in Er; subst rev.
  - assert (backend_inv (put_store s' b)) as Hb1 by (apply (reread_inv b); [by exists s' | done]).
    simpl in *. destruct e as [e|]; [apply wp_ret; by split|].
    destruct (pop_repr _ _ _ Hq) as (q' & Eq & Hq'). apply wp_zoom. unfold wp. simpl. rewrite Eq.
    split; [|split; [done | by left]]. destruct Hb1 as [? ? ? ? ?]. by split.
  - destruct (Z.eqb_spec (next b) 0); [lia|]. unfold room in Hroom.
    apply wp_bind, wp_notify; [lia | simpl; lia|].
    destruct (pop_repr _ _ _ Hq) as (q' & Eq & Hq'). apply wp_zoom. unfold wp. simpl. rewrite Eq. split.
    + apply (inv_written b _ (we_Key ev)); try done; [unfold max_uint64, two63 in *; lia|].
      by apply (rewritten_written _ _ _ _ _ _ _ Hrw).
    + split; [done|]. right. eexists _, v. split; [done|]. split; [by split|]. simpl. auto 10.
Qed.
End retry.
