(* ===== verification/RetryLoop.v ===== *)
(** The loop of the retry queue: [Run] of pkg/backend/retry/retry.go.

    On every tick of its ticker the loop retries the oldest uncertain write until
    [retry] says to stop.  The clock is read once per retry: [nows i] is the time
    of the [i]-th. *)

From S2P Require Import Prelude GoMonad Storage Coder Proto Tso Queue Mvcc Backend BackendSpec Refinement RetrySpec.

(** * The queue's interface *)

Definition Size (q : eventQueue) : Z := Queue.size q.

Definition Append (event : WatchEvent) (now : Z) (q : eventQueue) : eventQueue := Queue.push event now q.

(** * The loop *)

Section loop.
Context {S : Type} `{KvStorage S}.

(** [retryLoop]; the fuel is the number of retries, [false] when it is used up. *)
Fixpoint retryLoop (fuel : nat) (nows : nat → Z) : GoM (backend S) bool :=
  match fuel with
  | O => mret false
  | Datatypes.S fuel' =>
      breakLoop ← retry (nows O);
      if breakLoop : bool then mret true else retryLoop fuel' (λ i, nows (Datatypes.S i))
  end.

(** What the [select] of [Run] finds. *)
Inductive run_event := CtxDone | Ticked (nows : nat → Z).

(** A tick retries each event that is queued at most once: the fuel is their
    number, and one more to find the queue empty. *)
Fixpoint Run (evs : list run_event) : GoM (backend S) bool :=
  match evs with
  | [] => mret true
  | CtxDone :: _ => mret true
  | Ticked nows :: evs' =>
      n ← gets (λ b, Size (asyncFifoRetry b));
      ended ← retryLoop (Datatypes.S (Z.to_nat n)) nows;
      if ended : bool then Run evs' else mret false
  end.
End loop.

(** * Its runs *)

Section spec.
Context {S : Type} `{KvSpec S}.
Implicit Types b : backend S.

Lemma room_for_room n b : room_for (Datatypes.S n) b → room b.
Proof. unfold room_for, room. lia. Qed.

(** A retry that does not break the loop takes the head off the queue and deals
    at most one revision. *)
Lemma retry_post_room now ev t l b b' n :
  retry_post now ev t l b false b' → room_for (Datatypes.S n) b → room_for n b'.
Proof.
  unfold retry_post, room_for. destruct (_ <? _); [by intros [? _]|].
  intros [_ [(_ & -> & _)|(ev' & v & _ & [-> _] & _)]]; simpl; lia.
Qed.

Lemma retry_empty now b :
  queue_repr (asyncFifoRetry b) [] → retry now b = Some (b, true).
Proof.
  intros Hq. pose proof (getHead_repr _ _ Hq) as Eh. simpl in Eh.
  unfold retry, mbind, gom_bind, gets. by destruct (getHead (asyncFifoRetry b)).
Qed.

(** What the loop leaves of a queue [l]: some events from its front, each due when
    it was retried; the loop ends because the queue is empty, because the next
    event is not due, or because the engine fails to read. *)
Definition loop_post (nows : nat → Z) (l : list (WatchEvent * Z)) (ended : bool) b' : Prop :=
  ended = true ∧ backend_inv b' ∧
  ∃ settled rest, l = settled ++ rest ∧ queue_repr (asyncFifoRetry b') rest ∧
    (∀ i ev t, settled !! i = Some (ev, t) → RetryInterval <= nows i - t) ∧
    match rest with
    | [] => True
    | (_, t) :: _ => nows (length settled) - t < RetryInterval ∨ ¬ KvReliable S
    end ∧ room_for (length rest) b'.

Lemma wp_retryLoop nows l b :
  backend_inv b → queue_repr (asyncFifoRetry b) l → Forall (λ x, valid_key (we_Key x.1)) l →
  room_for (length l) b →
  wp (retryLoop (Datatypes.S (length l)) nows) (loop_post nows l) b.
Proof.
  revert nows b. induction l as [|[ev t] l IH]; intros nows b Hb Hq Hk Hroom; cbn [retryLoop length].
  - apply wp_bind. unfold wp at 1. rewrite retry_empty by done. apply wp_ret.
    split; [done|]. split; [done|]. exists [], []. by split_and!.
  - apply Forall_cons in Hk as [Hk Hks]. simpl in Hk. apply wp_bind.
    eapply wp_mono; [by eapply wp_retry; [|eapply room_for_room|..]|].
    intros [|] b' [Hb' Hpost].
    + apply wp_ret. split; [done|]. split; [done|]. exists [], ((ev, t) :: l).
      unfold retry_post in Hpost. split; [done|].
      destruct (Z.ltb_spec (nows 0%nat - t) RetryInterval) as [Hlt|Hge].
      * destruct Hpost as [_ ->]. split; [done|]. split; [done|]. split; [by left | done].
      * destruct Hpost as (Hrel & _ & Et & Eq). rewrite Eq. split; [done|]. split; [done|]. split; [by right|].
        unfold room_for in *. by rewrite Et.
    + pose proof (retry_post_room _ _ _ _ _ _ _ Hpost Hroom) as Hroom'.
      unfold retry_post in Hpost. destruct (Z.ltb_spec (nows 0%nat - t) RetryInterval) as [Hlt|Hge]; [by destruct Hpost|].
      destruct Hpost as [Hq' _]. eapply wp_mono; [by apply (IH (λ i, nows (Datatypes.S i)))|].
      intros ended b2 (-> & Hb2 & settled & rest & -> & Hq2 & Hdue & Hrest).
      split; [done|]. split; [done|]. exists ((ev, t) :: settled), rest.
      split; [done|]. split; [done|]. split; [|done]. intros [|i] ev' t' Hi; [by simplify_eq/=; lia|]. by eapply Hdue.
Qed.

(** Any number of ticks: each of them ends. *)
Lemma wp_Run evs l b :
  backend_inv b → queue_repr (asyncFifoRetry b) l → Forall (λ x, valid_key (we_Key x.1)) l →
  room_for (length l) b →
  wp (Run evs) (λ ended b', ended = true ∧ backend_inv b' ∧
    ∃ rest, rest `suffix_of` l ∧ queue_repr (asyncFifoRetry b') rest) b.
Proof.
  revert l b. induction evs as [|[|nows] evs IH]; intros l b Hb Hq Hk Hroom; cbn [Run];
    [by apply wp_ret; split; [|split; [|exists l]]..|].
  apply wp_bind, wp_gets. assert (Z.to_nat (Size (asyncFifoRetry b)) = length l) as ->.
  { destruct Hq as [addrs Hq]. unfold Size, Queue.size. rewrite (qa_size _ _ _ Hq). lia. }
  apply wp_bind. eapply wp_mono; [by apply wp_retryLoop|].
  intros ended b' (-> & Hb' & settled & rest & -> & Hq' & _ & _ & Hroom').
  apply Forall_app in Hk as [_ Hk]. eapply wp_mono; [by apply (IH rest)|].
  intros e b2 (-> & Hb2 & rest' & [pre Hs] & Hq2). split; [done|]. split; [done|]. exists rest'. split; [|done].
  exists (settled ++ pre). by rewrite Hs, <-app_assoc.
Qed.
End spec.
