(* ===== verification/History.v ===== *)
(** The versions of the engine and their history, under interleaved writes and
    compactions.

    A history has all versions ever written, also those that compactions removed;
    the floor is the greatest revision a compaction started at.  Writes add a
    version above all existing ones of its key, and compactions remove versions at
    or below the floor that no reader at or above the floor needs. *)

From S2P Require Import Prelude GoMonad Storage Coder Proto Mvcc Scanner ScanSpec Backend BackendSpec Refinement RetrySpec.

(** * Versions and their history *)

(** [m'] has new versions, each above all earlier ones of its key. *)
Definition grows (m m' : kvmap) : Prop :=
  ∀ k, valid_key k →
    (∀ r v, 0 < r <= max_uint64 → obj m k r = Some v → obj m' k r = Some v) ∧
    (∀ r v, 0 < r <= max_uint64 → obj m' k r = Some v → obj m k r = None → revs_below m k (r - 1)).

Definition unused (r : Z) (m : kvmap) : Prop := ∀ k, valid_key k → obj m k r = None.

(** [m'] has the versions of [m] up to [d], and no others. *)
Definition frozen (d : Z) (m m' : kvmap) : Prop :=
  ∀ k r, valid_key k → 0 < r <= d → obj m' k r = obj m k r.

(** [m'] has no versions up to [d] that [m] does not have. *)
Definition shrinks (d : Z) (m m' : kvmap) : Prop :=
  ∀ k r v, valid_key k → 0 < r <= d → obj m' k r = Some v → obj m k r = Some v.

(** Keys outside the encoded ones hold no nil values. *)
Definition raw_ok (m : kvmap) : Prop := ∀ ik, take 4 ik ≠ magicBytes → m !! ik ≠ Some None.

(** [m'] differs from [m] outside the encoded keys only. *)
Record same_versions (m m' : kvmap) : Prop := {
  sv_ok : store_ok m';
  sv_raw : raw_ok m';
  sv_get k r : m' !! EncodeObjectKey k r = m !! EncodeObjectKey k r;
}.

Lemma same_versions_refl m : store_ok m → raw_ok m → same_versions m m.
Proof. by split. Qed.

Lemma u64_bounds r : 0 < r <= max_uint64 → is_uint64 r.
Proof. unfold is_uint64, max_uint64, two64. lia. Qed.

Lemma revs_below_mono m k d d' : d <= d' → revs_below m k d → revs_below m k d'.
Proof. intros Hd Hb r v Hv Hr. specialize (Hb r v Hv Hr). lia. Qed.

Lemma is_latest_below m k r v : is_latest m k max_uint64 r v → revs_below m k r.
Proof. intros (_ & _ & H) q w Hq Hr. by apply (H q w). Qed.

Lemma ParseRevision_record r v :
  is_uint64 r → ParseRevision (content (record_of r v)) = (r, is_tombstone v, None).
Proof.
  intros Hr. unfold record_of. destruct (is_tombstone v).
  - by apply ParseRevision_deleted.
  - by apply ParseRevision_live.
Qed.

Lemma record_of_live r v q :
  is_uint64 r → is_uint64 q → record_of r v = live_record q → r = q ∧ is_tombstone v = false.
Proof.
  intros Hr Hq. unfold record_of. destruct (is_tombstone v); intros E.
  - symmetry in E. by apply live_dead_ne in E.
  - by apply live_record_inj in E.
Qed.

Lemma grows_refl m : grows m m.
Proof. intros k Hk. split; [done|]. intros r v _ H1 H2. congruence. Qed.

Lemma grows_trans m1 m2 m3 : grows m1 m2 → grows m2 m3 → grows m1 m3.
Proof.
  intros G1 G2 k Hk. destruct (G1 k Hk) as [K1 N1], (G2 k Hk) as [K2 N2]. split; [auto|].
  intros r v Hr H3 H1. destruct (obj m2 k r) as [w|] eqn:E2; [by eapply N1|].
  intros q u Hq Hqr. by eapply (N2 r v); eauto.
Qed.

(** Reads at or below an existing version of the key do not change. *)
Lemma grows_visible m m' k r v R :
  grows m m' → store_ok m → store_ok m' → valid_key k → 0 < r <= max_uint64 → obj m k r = Some v →
  0 <= R <= r → visible m' k R = visible m k R.
Proof.
  intros G Hm Hm' Hk Hr Hv HR. unfold visible. rewrite (latest_ext m m'); try done.
  { unfold is_uint64, max_uint64, two64 in *. lia. }
  intros q Hq. destruct (G k Hk) as [K N].
  destruct (obj m k q) as [w|] eqn:E; [apply K; [lia | done]|].
  destruct (obj m' k q) as [w|] eqn:E'; [|done].
  pose proof (N q w ltac:(lia) E' E r v Hv Hr). lia.
Qed.

(** Below a revision above all versions, a read sees the newest. *)
Lemma visible_all m k R :
  store_ok m → valid_key k → is_uint64 R → revs_below m k R → visible m k R = visible m k max_uint64.
Proof.
  intros Hm Hk HR Hb. pose proof max_is_uint64 as Hmax. unfold visible.
  assert (R <= max_uint64) as HRm by (unfold is_uint64, two64, max_uint64 in *; lia).
  assert (latest m k R = latest m k max_uint64) as ->; [|done].
  destruct (latest m k max_uint64) as [[r v]|] eqn:El.
  - apply latest_Some in El as (Hv & Hr & Hl); try done. apply latest_Some; try done.
    split; [done|]. split; [specialize (Hb r v Hv Hr); lia|].
    intros q w Hq Hqr. apply (Hl q w); [done | lia].
  - rewrite latest_None in El by done. apply latest_None; try done.
    intros r v Hv Hr. apply (El r v Hv). lia.
Qed.

(** * A write above all versions of its key *)

Section put.
Context (m : kvmap) (k : bytes) (r : Z) (v : slice).
Context (Hm : store_ok m) (Hk : valid_key k) (Hr : 0 < r <= max_uint64) (Hb : revs_below m k (r - 1)).
Local Abbreviation m' := (put_version m k (record_of r v) r v).

Lemma put_grows : grows m m'.
Proof using Hr Hb.
  intros k' Hk'. split; intros q w Hq; rewrite put_version_obj by done; case_decide as E.
  - destruct E as [-> ->]. intros Hv. specialize (Hb r w Hv Hr). lia.
  - done.
  - by destruct E as [-> ->].
  - intros H1 H2. congruence.
Qed.

Lemma put_fresh q : 0 < q <= max_uint64 → q ≠ r → unused q m → unused q m'.
Proof using Hr.
  intros Hq Hne Hf k' Hk'. rewrite put_version_obj by done. rewrite decide_False; [by apply Hf|]. naive_solver.
Qed.

Lemma put_below k' d : r <= d → revs_below m k' d → revs_below m' k' d.
Proof using Hr.
  intros Hd H q w Hq Hqr. rewrite put_version_obj in Hq by done. case_decide; [lia|]. by eapply H.
Qed.

Lemma put_older k' q : 0 < q <= max_uint64 → q ≠ r → obj m' k' q = obj m k' q.
Proof using Hr. intros Hq Hne. rewrite put_version_obj by done. rewrite decide_False; naive_solver. Qed.

Lemma put_raw : raw_ok m → raw_ok m'.
Proof using.
  intros Hraw ik Hik. unfold put_version, EncodeRevisionKey. rewrite !lookup_insert_ne; [by apply Hraw|..];
    intros <-; by apply Hik.
Qed.

(** The write takes effect between the revision before it and its own. *)
Lemma put_visible :
  visible m' k (r - 1) = visible m k max_uint64 ∧
  visible m' k r = if is_tombstone v then None else Some (r, v).
Proof using Hm Hk Hr Hb.
  assert (is_uint64 (r - 1)) by (unfold is_uint64, max_uint64, two64 in *; lia).
  split.
  - rewrite <-(visible_all m k (r - 1)) by done. unfold visible.
    rewrite put_version_latest_other; [done..|]. right. lia.
  - unfold visible. rewrite put_version_latest; [by destruct (is_tombstone v) | done..|lia].
Qed.
End put.

(** * The invariant on versions *)

Section versions.
(** The keys that do not expire. *)
Context (lasting : bytes → Prop).

(** The record of a key in [m] names its newest version in the history [h]; without
    one all its versions are at or below the floor [F], and a key that does not
    expire is deleted. *)
Inductive key_strict (m h : kvmap) (F : Z) (k : bytes) : Prop :=
  | ks_none : m !! EncodeRevisionKey k = None → revs_below h k F →
      (lasting k → visible h k max_uint64 = None) → key_strict m h F k
  | ks_some r v :
      m !! EncodeRevisionKey k = Some (record_of r v) → is_latest h k max_uint64 r v →
      key_strict m h F k.

(** What [m] holds of the history: everything above the floor; and below it the
    newest version of a key that does not expire, or nothing if that is a deletion. *)
Record kept (m h : kvmap) (F : Z) : Prop := {
  ke_sub k r v : valid_key k → 0 < r <= max_uint64 → obj m k r = Some v → obj h k r = Some v;
  ke_above k r v : valid_key k → F < r <= max_uint64 → obj h k r = Some v → obj m k r = Some v;
  ke_top k t v : valid_key k → lasting k → is_latest h k F t v →
    obj m k t = Some v ∨ is_tombstone v = true ∧ ∀ p, 0 < p <= F → obj m k p = None;
}.

Lemma key_strict_record m h F k : key_strict m h F k → m !! EncodeRevisionKey k ≠ Some None.
Proof. intros [E _ _|r v E _]; rewrite E; [done|]. unfold record_of. by destruct (is_tombstone v). Qed.

Lemma key_strict_same m m' h F k : same_versions m m' → key_strict m h F k → key_strict m' h F k.
Proof.
  intros Hs [E Hb Hv|r v E Hl]; [apply ks_none | apply (ks_some _ _ _ _ r v)]; try done;
    unfold EncodeRevisionKey in *; by rewrite (sv_get _ _ Hs).
Qed.

Lemma kept_same m m' h F : same_versions m m' → kept m h F → kept m' h F.
Proof.
  intros Hs [Hsub Hab Htop]. assert (∀ k r, obj m' k r = obj m k r) as E by (intros k r; apply Hs).
  split; intros *; rewrite ?E; eauto. intros Hk Hl Ht. destruct (Htop _ _ _ Hk Hl Ht) as [?|[? Hn]]; [by left | right].
  split; [done|]. intros p Hp. rewrite E. by apply Hn.
Qed.

(** A reader at or above the floor sees what was written. *)
Lemma kept_visible m h F k R :
  kept m h F → store_ok m → store_ok h → valid_key k → lasting k → is_uint64 R → 0 <= F <= R →
  visible m k R = visible h k R.
Proof.
  intros [Hsub Hab Htop] Hm Hh Hk Hl HR HF.
  assert (∀ r, 0 < r <= R → r <= max_uint64) as Hmax by (unfold is_uint64, two64, max_uint64 in *; lia).
  unfold visible. destruct (latest h k R) as [[t v]|] eqn:El.
  - apply latest_Some in El as (Hv & Ht & Hmx); try done.
    assert (∀ r w, obj m k r = Some w → 0 < r <= R → r <= t) as Hle
      by (intros r w Hw Hr; apply (Hmx r w); [apply Hsub|]; auto with lia).
    assert (obj m k t = Some v → latest m k R = Some (t, v)) as Hin.
    { intros Hm'. by apply latest_Some; try done. }
    destruct (Z.lt_ge_cases F t) as [Hlt|Hge].
    + rewrite Hin; [done|]. apply Hab; auto with lia.
    + destruct (Htop k t v Hk Hl) as [Hm'|[Ht' Hnone]].
      * split; [done|]. split; [lia|]. intros q w Hq Hqr. apply (Hmx q w); [done | lia].
      * by rewrite Hin.
      * rewrite Ht'. assert (latest m k R = None) as ->; [|done]. apply latest_None; try done.
        intros r w Hw Hr. specialize (Hle r w Hw Hr). by rewrite Hnone in Hw by lia.
  - rewrite latest_None in El by done. assert (latest m k R = None) as ->; [|done]. apply latest_None; try done.
    intros r w Hw Hr. apply (El r w); [apply Hsub|]; auto with lia.
Qed.

(** A compaction that starts raises the floor. *)
Lemma kept_raise m h F F' : F <= F' → F' <= max_uint64 → kept m h F → kept m h F'.
Proof.
  intros HF HF' [Hsub Hab Htop]. split; [done| |].
  - intros k r v Hk Hr. apply Hab; [done | lia].
  - intros k t v Hk Hl (Hv & Ht & Hmx). destruct (Z.lt_ge_cases F t) as [Hlt|Hge].
    + left. apply Hab; [done | lia | done].
    + destruct (Htop k t v Hk Hl) as [?|[Ht' Hn]]; [|by left|].
      { split; [done|]. split; [lia|]. intros q w Hq Hqr. apply (Hmx q w); [done | lia]. }
      right. split; [done|]. intros p Hp. destruct (Z.lt_ge_cases F p) as [Hlt|]; [|apply Hn; lia].
      destruct (obj m k p) as [w|] eqn:E; [|done]. apply Hsub in E; [|done|lia].
      specialize (Hmx p w E Hp). lia.
Qed.

Lemma key_strict_raise m h F F' k : F <= F' → key_strict m h F k → key_strict m h F' k.
Proof.
  intros HF [E Hb Hv|r v E Hl]; [apply ks_none | by apply (ks_some _ _ _ _ r v)]; try done.
  by eapply revs_below_mono.
Qed.

(** A write above all versions, and above the floor. *)
Section put.
Context (m h : kvmap) (F : Z) (k : bytes) (r : Z) (v : slice).
Context (Hr : 0 < r <= max_uint64) (Hb : revs_below h k (r - 1)) (HF : 0 <= F < r).
Local Abbreviation m' := (put_version m k (record_of r v) r v).
Local Abbreviation h' := (put_version h k (record_of r v) r v).

Lemma put_strict k' : store_ok h → valid_key k → valid_key k' → key_strict m h F k' → key_strict m' h' F k'.
Proof using Hr Hb.
  intros Hh Hk Hk' Hs. destruct (decide (k' = k)) as [->|Hne].
  - apply (ks_some _ _ _ _ r v); [by rewrite put_version_record, decide_True|].
    apply put_version_is_latest; [done..|lia].
  - destruct Hs as [E Hn Hv|q w E Hl].
    + apply ks_none; [by rewrite put_version_record, decide_False| |].
      * intros q w Hq Hqr. rewrite put_version_other_obj in Hq by done. by eapply Hn.
      * intros Hl. unfold visible. rewrite put_version_latest_other; [by apply Hv | done.. | apply max_is_uint64 | by left].
    + apply (ks_some _ _ _ _ q w); [by rewrite put_version_record, decide_False|].
      by apply put_version_other_latest.
Qed.

Lemma put_kept : kept m h F → kept m' h' F.
Proof using Hr HF.
  intros [Hsub Hab Htop]. split.
  - intros k' q w Hk' Hq. rewrite !put_version_obj by done. case_decide; [done | by apply Hsub].
  - intros k' q w Hk' Hq. rewrite !put_version_obj by (done || lia). case_decide; [done | by apply Hab].
  - intros k' t w Hk' Hl (Hv & Ht & Hmx). rewrite put_older in Hv by lia.
    destruct (Htop k' t w Hk' Hl) as [?|[? Hn]].
    + split; [done|]. split; [done|]. intros q u Hq Hqr. apply (Hmx q u); [|done]. by rewrite put_older by lia.
    + left. by rewrite put_older by lia.
    + right. split; [done|]. intros p Hp. rewrite put_older by lia. by apply Hn.
Qed.
End put.

(** * Deletions *)

Lemma obj_deleted (m : kvmap) k r k' r' v :
  obj (base.delete (EncodeObjectKey k r) m) k' r' = Some v → obj m k' r' = Some v.
Proof. unfold obj. by intros [_ ?]%lookup_delete_Some. Qed.

(** A version at or below the floor may go: of a key that does not expire, the
    newest one up to the floor only if it is a deletion and the last one there. *)
Lemma kept_delete m h F k r :
  kept m h F → 0 < r <= F → F <= max_uint64 →
  (lasting k → ∀ v, is_latest h k F r v →
     is_tombstone v = true ∧ ∀ p, 0 < p <= F → p ≠ r → obj m k p = None) →
  kept (base.delete (EncodeObjectKey k r) m) h F.
Proof.
  intros [Hsub Hab Htop] Hr HF Hlast.
  assert (∀ k' q, 0 < q <= max_uint64 → (k', q) ≠ (k, r) →
    obj (base.delete (EncodeObjectKey k r) m) k' q = obj m k' q) as Hne.
  { intros k' q Hq Hd. apply lookup_delete_ne. intros E. apply EncodeObjectKey_inj in E as [-> ->]; [done|..];
      apply u64_bounds; lia. }
  split.
  - intros k' q v Hk Hq Hv%obj_deleted. by apply Hsub.
  - intros k' q v Hk Hq Hv. rewrite Hne; [by apply Hab | lia|]. intros [= -> ->]. lia.
  - intros k' t v Hk Hl Ht. assert (0 < t <= F) as Htr by by destruct Ht as (_ & ? & _).
    assert (∀ p, obj m k' p = None → obj (base.delete (EncodeObjectKey k r) m) k' p = None) as Hnone.
    { intros p Hp. destruct (obj (base.delete _ m) k' p) as [w|] eqn:E; [|done].
      apply obj_deleted in E. congruence. }
    destruct (decide ((k', t) = (k, r))) as [[= -> ->]|Hd].
    + right. destruct (Hlast Hl v Ht) as [Hv Hp]. split; [done|]. intros p Hpr.
      destruct (decide (p = r)) as [->|]; [apply lookup_delete_eq | by apply Hnone, Hp].
    + destruct (Htop k' t v Hk Hl Ht) as [?|[? Hp]].
      * left. rewrite Hne; [done | lia | done].
      * right. split; [done|]. intros p Hpr. by apply Hnone, Hp.
Qed.

Lemma strict_delete_version m h F k r k' :
  0 < r <= max_uint64 → key_strict m h F k' → key_strict (base.delete (EncodeObjectKey k r) m) h F k'.
Proof.
  intros Hr. assert (base.delete (EncodeObjectKey k r) m !! EncodeRevisionKey k' = m !! EncodeRevisionKey k') as E.
  { apply lookup_delete_ne. intros E. apply EncodeObjectKey_inj in E as [_ ?];
      [lia | by apply u64_bounds | apply zero_is_uint64]. }
  intros [E' Hb Hv|q w E' Hl]; [apply ks_none | apply (ks_some _ _ _ _ q w)]; by rewrite ?E.
Qed.

(** The record of a key whose newest version is at or below the floor may go, if
    that is a deletion or the key expires. *)
Lemma strict_delete_record m h F k q u k' :
  store_ok h → valid_key k → m !! EncodeRevisionKey k = Some (record_of q u) → is_latest h k max_uint64 q u →
  q <= F → (lasting k → is_tombstone u = true) → key_strict m h F k' →
  key_strict (base.delete (EncodeRevisionKey k) m) h F k'.
Proof.
  intros Hh Hk E Hl Hq Hdead Hs. destruct (decide (k' = k)) as [->|Hne].
  - apply ks_none; [apply lookup_delete_eq | |].
    + eapply revs_below_mono; [exact Hq | by eapply is_latest_below].
    + intros Hlast. unfold visible. pose proof max_is_uint64.
      rewrite (proj2 (latest_Some h k max_uint64 Hh Hk ltac:(done) q u) Hl). by rewrite (Hdead Hlast).
  - assert (base.delete (EncodeRevisionKey k) m !! EncodeRevisionKey k' = m !! EncodeRevisionKey k') as E'.
    { apply lookup_delete_ne. intros Eq. apply EncodeObjectKey_inj in Eq as [-> _];
        [done | apply zero_is_uint64 | apply zero_is_uint64]. }
    destruct Hs as [E1 Hb Hv|p w E1 Hl1]; [apply ks_none | apply (ks_some _ _ _ _ p w)]; by rewrite ?E'.
Qed.

Lemma kept_delete_record m h F k :
  0 <= F <= max_uint64 → kept m h F → kept (base.delete (EncodeRevisionKey k) m) h F.
Proof.
  intros HF [Hsub Hab Htop].
  assert (∀ k' q, 0 < q <= max_uint64 → obj (base.delete (EncodeRevisionKey k) m) k' q = obj m k' q) as Hne.
  { intros k' q Hq. apply lookup_delete_ne. intros E. apply EncodeObjectKey_inj in E as [_ ?];
      [lia | apply zero_is_uint64 | by apply u64_bounds]. }
  split.
  - intros k' q v Hk Hq. rewrite Hne by done. by apply Hsub.
  - intros k' q v Hk Hq Hv. rewrite Hne by lia. apply Hab; [done | lia | done].
  - intros k' t v Hk Hl Ht. destruct (Htop k' t v Hk Hl Ht) as [Hv|[Hv Hp]].
    + left. rewrite Hne; [done|]. destruct Ht as (_ & ? & _). lia.
    + right. split; [done|]. intros p Hpr. destruct (obj (base.delete _ m) k' p) as [w|] eqn:E; [|done].
      apply obj_deleted in E. specialize (Hp p Hpr). congruence.
Qed.
End versions.
