(* ===== verification/ConcurrentSpec.v ===== *)
(** Interleaved requests: what every atomic step keeps, and what a finished
    request may rely on whatever the others did.

    The proof is by rely and guarantee.  Beside the shared state it keeps a history:
    all versions ever written, also those that compactions removed, and the floor,
    the greatest revision a compaction started at.  A task claims the revision it
    was dealt; until it writes, no version has that revision, and until it has told
    the collector, the read revision is below it.  A step may only add versions
    above all existing ones of their key, at a revision its task claims; so a task
    that finished can rely on what was visible just below and at its own revision,
    and nothing changes in the history at or below the read revision.  A compaction
    removes versions at or below the floor that no reader at or above the floor
    needs. *)

From S2P Require Import Prelude GoMonad Prog Storage Coder Proto Tso Ring Queue Mvcc Creator Scanner.
From S2P Require Import ScanSpec Compaction Backend BackendSpec BackendReads Refinement RetrySpec.
From S2P Require Import WorkerProg ScanProg Concurrent History.

(** * Rely and guarantee *)

(** The revision a task was dealt: not written yet, or written; and the same
    after the collector was told. *)
Inductive claim := Unclaimed | Open (r : Z) | Written (r : Z) | Void (r : Z) | Used (r : Z).

Definition claimed (c : claim) : option Z :=
  match c with Unclaimed => None | Open r | Written r | Void r | Used r => Some r end.

(** The claim after [notify]. *)
Definition close (c : claim) : claim :=
  match c with Open r => Void r | Written r => Used r | _ => c end.

(** The collector has not been told yet. *)
Definition untold (r : Z) (c : claim) : Prop := c = Open r ∨ c = Written r.

Lemma claimed_close c : claimed (close c) = claimed c.
Proof. by destruct c. Qed.

(** The shared state, the history and the floor. *)
Record gstate (S : Type) := mkG { g_b : backend S; g_hist : kvmap; g_floor : Z }.
Arguments mkG {S}.
Arguments g_b {S}.
Arguments g_hist {S}.
Arguments g_floor {S}.
Coercion g_b : gstate >-> backend.

(** The same history and floor with another shared state. *)
Definition upd {S} (g : gstate S) (b : backend S) : gstate S := mkG b (g_hist g) (g_floor g).

Section safe.
Context {S : Type} `{KvSpec S}.
Implicit Types (b : backend S) (g : gstate S).
Local Abbreviation dealt_rev b := (dealRevision (tso b)).
Local Abbreviation committed b := (committedRevision (tso b)).
Local Abbreviation buffer := watchEventsRingBuffer.
Local Abbreviation histories b := (compactHistories (b_scanner b)).

(** A key whose versions compactions do not expire: it is not empty, and on an
    engine without TTL support it does not contain "/events/" ([safe_key]). *)
Definition lasting (k : bytes) : Prop := safe_key (S := S) k.

(** Events in the buffer and in the retry queue. *)
Definition event_ok (ev : WatchEvent) : Prop := 0 <= we_Revision ev ∧ valid_key (we_Key ev).

(** The compactions the scanner remembers. *)
Definition hist_ok (F : Z) (l : list compactRecord) : Prop := Forall (λ cr, 0 <= cr_revision cr <= F) l.

Record cinv (g : gstate S) : Prop := {
  ci_kv : kv_inv (b_store g);
  ci_ok : store_ok (view g);
  ci_raw : raw_ok (view g);
  ci_hist : store_ok (g_hist g);
  ci_key k : valid_key k → key_strict lasting (view g) (g_hist g) (g_floor g) k;
  ci_kept : kept lasting (view g) (g_hist g) (g_floor g);
  ci_below k : valid_key k → revs_below (g_hist g) k (dealt_rev g);
  ci_deal : 0 <= dealt_rev g < two63;
  ci_commit : 0 <= committed g <= dealt_rev g;
  ci_floor : 0 <= g_floor g <= committed g;
  ci_buffer i ev : buffer g !! i = Some ev → event_ok ev;
  ci_slot i ev : buffer g !! i = Some ev →
    i = we_Revision ev mod watchersChanCapacity ∧ we_Revision ev <= dealt_rev g ∧
    committed g < we_Revision ev < committed g + watchersChanCapacity;
  ci_queue a n : nodes (asyncFifoRetry g) !! a = Some n → event_ok (n_event n);
  ci_histories : hist_ok (g_floor g) (histories g);
}.

(** The collector has not been told about revision [r], nor has it passed it. *)
Definition silent (r : Z) (b : backend S) : Prop :=
  committed b < r ∧ ∀ i ev, buffer b !! i = Some ev → we_Revision ev ≠ r.

Definition owned (c : claim) (g : gstate S) : Prop :=
  match c with
  | Unclaimed => True
  | Open r => 0 < r <= dealt_rev g ∧ unused r (g_hist g) ∧ silent r g
  | Written r => 0 < r <= dealt_rev g ∧ silent r g
  | Used r => 0 < r <= dealt_rev g
  | Void r => 0 < r <= dealt_rev g ∧ unused r (g_hist g)
  end.

(** What the other tasks may have done since [g]. *)
Record env (c : claim) (g g' : gstate S) : Prop := {
  en_inv : cinv g';
  en_owned : owned c g';
  en_grows : grows (g_hist g) (g_hist g');
  en_deal : dealt_rev g <= dealt_rev g';
  en_commit : committed g <= committed g';
  en_frozen : frozen (committed g) (g_hist g) (g_hist g');
  en_floor : g_floor g <= g_floor g';
  en_shrinks : shrinks (committed g) (view g) (view g');
}.

(** What a step of a task with claim [c] does, and the claim it has then. *)
Record guar (c c' : claim) (g g' : gstate S) : Prop := {
  gu_env : env c' g g';
  gu_fresh q : claimed c ≠ Some q → 0 < q <= dealt_rev g → unused q (g_hist g) → unused q (g_hist g');
  gu_silent q : claimed c ≠ Some q → 0 < q <= dealt_rev g → silent q g → silent q g';
  gu_claim : claimed c' = claimed c ∨ c = Unclaimed ∧ ∃ q, c' = Open q ∧ dealt_rev g < q;
}.

(** If [m] does not panic. *)
Definition wlp {A} (m : GoM (backend S) A) (Q : A → backend S → Prop) (b : backend S) : Prop :=
  match m b with Some (b', x) => Q x b' | None => True end.

(** A step from [g] to [b''] with some claim and history, after which [Q] holds. *)
Definition after (c : claim) (g : gstate S) (b'' : backend S) (Q : claim → gstate S → Prop) : Prop :=
  ∃ c' h, guar c c' g (mkG b'' h (g_floor g)) ∧ Q c' (mkG b'' h (g_floor g)).

Fixpoint safe {A} (p : prog (backend S) A) (c : claim) (Q : A → claim → gstate S → Prop)
    (g : gstate S) : Prop :=
  match p with
  | Done a => Q a c g
  | Do m k => ∀ g', env c g g' → dealt_rev g' + 1 < two63 →
      wlp m (λ x b'', after c g' b'' (λ c' g'', safe (k x) c' Q g'')) g'
  end.

Definition stable {A} (Q : A → claim → gstate S → Prop) : Prop :=
  ∀ a c g g', Q a c g → env c g g' → Q a c g'.

Lemma env_trans c g1 g2 g3 c' : env c' g1 g2 → env c g2 g3 → env c g1 g3.
Proof.
  intros [_ _ G1 D1 C1 F1 L1 S1] [I O G2 D2 C2 F2 L2 S2].
  split; [done | done | by eapply grows_trans | lia | lia | | lia |].
  - intros k r Hk Hr. rewrite F2, F1 by (done || lia). done.
  - intros k r v Hk Hr Hv. apply S1; [done..|]. apply S2; [done | lia | done].
Qed.

Lemma env_refl c g : cinv g → owned c g → env c g g.
Proof. intros Hg Ho. split; try done; [apply grows_refl | by intros k r v]. Qed.

Lemma safe_env {A} (p : prog (backend S) A) c Q g g' :
  stable Q → safe p c Q g → env c g g' → safe p c Q g'.
Proof.
  intros HQ. destruct p as [a|B m k]; simpl; intros Hp He; [by eapply HQ|].
  intros g2 He2. apply Hp. by eapply env_trans.
Qed.

Lemma wlp_mono {A} (m : GoM (backend S) A) (Q Q' : A → backend S → Prop) b :
  wlp m Q b → (∀ x b', Q x b' → Q' x b') → wlp m Q' b.
Proof. unfold wlp. destruct (m b) as [[]|]; auto. Qed.

Lemma after_mono c g b (Q Q' : claim → gstate S → Prop) :
  after c g b Q → (∀ c' g', guar c c' g g' → Q c' g' → Q' c' g') → after c g b Q'.
Proof. intros (c' & h & Hg & HQ) Hi. exists c', h. auto. Qed.

Lemma after_same c c' g b (Q : claim → gstate S → Prop) :
  guar c c' g (upd g b) → Q c' (upd g b) → after c g b Q.
Proof. intros Hg HQ. by exists c', (g_hist g). Qed.

Lemma safe_mono {A} (p : prog (backend S) A) c (Q Q' : A → claim → gstate S → Prop) g :
  safe p c Q g → (∀ a c' g', Q a c' g' → Q' a c' g') → safe p c Q' g.
Proof.
  intros Hp HQ. revert c g Hp. induction p as [a|B m k IH]; simpl; intros c g Hp; [auto|].
  intros g' He Hroom. eapply wlp_mono; [by apply Hp|]. intros x b Ha. eapply after_mono; [exact Ha|]. eauto.
Qed.

Lemma safe_bind {A B} (p : prog (backend S) A) (f : A → prog (backend S) B) c Q g :
  safe p c (λ a c' g', safe (f a) c' Q g') g → safe (p ≫= f) c Q g.
Proof.
  revert c g. unfold mbind, prog_bind. induction p as [a|C m k IH]; simpl; intros c g Hp; [done|].
  intros g' He Hroom. eapply wlp_mono; [by apply Hp|]. intros x b Ha. eapply after_mono; [exact Ha|]. eauto.
Qed.

Lemma wp_wlp {A} (m : GoM (backend S) A) Q b : wp m Q b → wlp m Q b.
Proof. unfold wp, wlp. by destruct (m b) as [[]|]. Qed.

(** An atomic step in front. *)
Lemma safe_step {A B} (m : GoM (backend S) A) (f : A → prog (backend S) B) c Q g :
  (∀ g', env c g g' → dealt_rev g' + 1 < two63 →
     wlp m (λ x b'', after c g' b'' (λ c' g'', safe (f x) c' Q g'')) g') →
  safe (atom m ≫= f) c Q g.
Proof. done. Qed.

(** A step that leaves versions and dealt revisions alone: it may commit, and
    change the buffer and the retry queue. *)
Lemma guar_frame c c' g b' :
  cinv g → claimed c' = claimed c → owned c' (upd g b') →
  kv_inv (b_store b') → same_versions (view g) (view b') → dealt_rev b' = dealt_rev g →
  committed g <= committed b' <= dealt_rev g →
  (∀ i ev, buffer b' !! i = Some ev → event_ok ev ∧
    i = we_Revision ev mod watchersChanCapacity ∧ we_Revision ev <= dealt_rev g ∧
    committed b' < we_Revision ev < committed b' + watchersChanCapacity) →
  (∀ a n, nodes (asyncFifoRetry b') !! a = Some n → event_ok (n_event n)) →
  hist_ok (g_floor g) (histories b') →
  (∀ q, claimed c ≠ Some q → silent q g → silent q b') →
  guar c c' g (upd g b').
Proof.
  intros Hg Ec Ho Hkv' Hsv Hd' Hc' Hbuf' Hq' Hh' Hsil. pose proof (ci_commit _ Hg). pose proof (ci_floor _ Hg).
  split; [split|..]; simpl; try done.
  - split; simpl; rewrite ?Hd'; try apply Hg; try done; try apply Hsv; [| |lia|lia|..].
    + intros k Hk. eapply key_strict_same; [exact Hsv | by apply Hg].
    + eapply kept_same; [exact Hsv | apply Hg].
    + intros i ev Hi. by apply Hbuf' in Hi as [??].
    + intros i ev Hi. by apply Hbuf' in Hi as [??].
  - apply grows_refl.
  - lia.
  - lia.
  - intros k r v Hk Hr. unfold obj. by rewrite (sv_get _ _ Hsv).
  - intros q Hq _. by apply Hsil.
  - by left.
Qed.

Lemma cinv_same g : cinv g → same_versions (view g) (view g).
Proof. intros Hg. apply same_versions_refl; apply Hg. Qed.

(** The events of the buffer. *)
Lemma cinv_buffer g i ev :
  cinv g → buffer g !! i = Some ev → event_ok ev ∧
    i = we_Revision ev mod watchersChanCapacity ∧ we_Revision ev <= dealt_rev g ∧
    committed g < we_Revision ev < committed g + watchersChanCapacity.
Proof. intros Hg Hi. split; [by apply (ci_buffer _ Hg i) | by apply (ci_slot _ Hg)]. Qed.

(** A step that tells the collector, or is the collector's. *)
Lemma guar_events c g b' :
  cinv g → owned c g → kv_inv (b_store b') → view b' = view g → dealt_rev b' = dealt_rev g →
  committed g <= committed b' <= dealt_rev g → histories b' = histories g →
  (∀ i ev, buffer b' !! i = Some ev → event_ok ev ∧
    i = we_Revision ev mod watchersChanCapacity ∧ we_Revision ev <= dealt_rev g ∧
    committed b' < we_Revision ev < committed b' + watchersChanCapacity) →
  (∀ a n, nodes (asyncFifoRetry b') !! a = Some n → event_ok (n_event n)) →
  (∀ q, claimed c ≠ Some q → silent q g → silent q b') →
  guar c (close c) g (upd g b').
Proof.
  intros Hg Ho Hkv' Ev Hd' Hc' Hh' Hbuf' Hq' Hsil. apply guar_frame; try done.
  - apply claimed_close.
  - destruct c; simpl in *; rewrite ?Hd'; [done|split; [lia|apply Ho]|lia|split; [lia|apply Ho]|lia].
  - rewrite Ev. by apply cinv_same.
  - rewrite Hh'. apply Hg.
Qed.

(** A step that changes none of versions, revisions and the buffer. *)
Lemma guar_read c g b' :
  cinv g → owned c g → kv_inv (b_store b') → same_versions (view g) (view b') → tso b' = tso g →
  buffer b' = buffer g → hist_ok (g_floor g) (histories b') →
  (∀ a n, nodes (asyncFifoRetry b') !! a = Some n → event_ok (n_event n)) →
  guar c c g (upd g b').
Proof.
  intros Hg Ho Hkv' Hsv Et Ebuf Hh Hq'. pose proof (ci_commit _ Hg).
  assert (∀ q, silent q g → silent q b') as Hsil by (intros q; unfold silent; by rewrite Et, Ebuf).
  apply guar_frame; rewrite ?Et, ?Ebuf; try done; [|lia| |].
  - destruct c; simpl in *; rewrite ?Et; try done; naive_solver.
  - intros i ev. by apply cinv_buffer.
  - intros q _. apply Hsil.
Qed.

Lemma upd_id g : upd g g = g.
Proof. by destruct g. Qed.

Lemma guar_id c g : cinv g → owned c g → guar c c g g.
Proof. intros Hg Ho. rewrite <-(upd_id g) at 2. apply guar_read; try done; try apply Hg. by apply cinv_same. Qed.

Lemma guar_store c g s' :
  cinv g → owned c g → kv_inv s' → kv_view s' = view g → guar c c g (upd g (put_store s' g)).
Proof.
  intros Hg Ho Hkv Ev. apply guar_read; try done; try apply Hg.
  change (view (put_store s' g)) with (kv_view s'). rewrite Ev. by apply cinv_same.
Qed.

(** Record lookups are decided by the key's history. *)
Lemma cinv_record g k : cinv g → valid_key k → view g !! EncodeRevisionKey k ≠ Some None.
Proof. intros Hg Hk. eapply key_strict_record. by apply Hg. Qed.

(** The state after a write of version [r] of [k]. *)
Definition written (g : gstate S) (k : bytes) (r : Z) (v : slice) (s' : S) : gstate S :=
  mkG (put_store s' g) (put_version (g_hist g) k (record_of r v) r v) (g_floor g).

(** A write at the claimed revision, above all versions of the key. *)
Lemma guar_put k r v g s' :
  cinv g → owned (Open r) g → valid_key k → dealt_rev g <= max_uint64 → revs_below (g_hist g) k (r - 1) →
  kv_inv s' → kv_view s' = put_version (view g) k (record_of r v) r v →
  guar (Open r) (Written r) g (written g k r v s').
Proof.
  intros Hg (Hr & Hf & Hsil) Hk Hmax Hbl Hkv Ev. assert (0 < r <= max_uint64) as Hr' by lia.
  assert (view (put_store s' g) = put_version (view g) k (record_of r v) r v) as Ev' by done.
  pose proof (ci_floor _ Hg) as HF. assert (0 <= g_floor g < r) as HFr by (destruct Hsil; lia).
  split; [split|..]; try done.
  - split; try apply Hg; simpl; rewrite ?Ev'; try done.
    + by apply put_version_ok, Hg.
    + by apply put_raw, Hg.
    + by apply put_version_ok, Hg.
    + intros k' Hk'. apply put_strict; try done; by apply Hg.
    + apply put_kept; [done | done | apply Hg].
    + intros k' Hk'. apply put_below; [done | lia|]. by apply (ci_below _ Hg).
  - by apply put_grows.
  - intros k' q Hk' Hq. destruct Hsil as [Hc _]. apply put_older; lia.
  - intros k' q w Hk' Hq. destruct Hsil as [Hc _]. simpl. rewrite Ev', put_older by lia. done.
  - intros q Hne Hq. apply put_fresh; [done | lia|]. simpl in Hne. congruence.
  - by left.
Qed.

(** [deal] claims the next revision. *)
Lemma guar_deal g :
  cinv g → dealt_rev g + 1 < two63 → guar Unclaimed (Open (dealt_rev g + 1)) g (upd g (dealt g)).
Proof.
  intros Hg Hroom. pose proof (ci_deal _ Hg). pose proof (ci_commit _ Hg).
  assert (unused (dealt_rev g + 1) (g_hist g)) as Hf.
  { intros k Hk. destruct (obj (g_hist g) k (dealt_rev g + 1)) as [v|] eqn:E; [|done].
    pose proof (ci_below _ Hg k Hk _ v E ltac:(unfold max_uint64, two63 in *; lia)). lia. }
  split; [split|..]; try done; simpl.
  - split; simpl; try apply Hg; [|lia|lia|].
    + intros k Hk. eapply revs_below_mono; [|by apply (ci_below _ Hg)]. lia.
    + intros i ev Hi. destruct (ci_slot _ Hg i ev Hi) as (? & ? & ?). split; [done | lia].
  - split; [lia|]. split; [done|]. split; simpl; [lia|]. intros i ev Hi. apply (ci_slot _ Hg) in Hi. lia.
  - apply grows_refl.
  - lia.
  - by intros k r v.
  - right. split; [done|]. eexists. split; [done | lia].
Qed.

(** * The engine calls of the writers *)

(** The version [v] of [k] at [r] was written over [old]. *)
Record took_effect (m : kvmap) (k : bytes) (r : Z) (v : slice) (old : option (Z * slice)) : Prop := {
  te_ok : store_ok m;
  te_key : valid_key k;
  te_rev : 0 < r <= max_uint64;
  te_obj : obj m k r = Some v;
  te_before : visible m k (r - 1) = old;
  te_after : visible m k r = if is_tombstone v then None else Some (r, v);
}.

Lemma took_effect_env k r v old c g g' :
  took_effect (g_hist g) k r v old → env c g g' → took_effect (g_hist g') k r v old.
Proof.
  intros [Hok Hk Hr Ho Hb Ha] He. pose proof (ci_hist _ (en_inv _ _ _ He)) as Hok'.
  pose proof (en_grows _ _ _ He) as Hg. split; try done.
  - by apply (proj1 (Hg k Hk)).
  - by rewrite (grows_visible (g_hist g) (g_hist g') k r v) by (done || lia).
  - by rewrite (grows_visible (g_hist g) (g_hist g') k r v) by (done || lia).
Qed.

Lemma put_took_effect m k r v :
  store_ok m → valid_key k → 0 < r <= max_uint64 → revs_below m k (r - 1) →
  took_effect (put_version m k (record_of r v) r v) k r v (visible m k max_uint64).
Proof.
  intros Hm Hk Hr Hb. destruct (put_visible m k r v Hm Hk Hr Hb) as [H1 H2]. split; try done.
  - by apply put_version_ok.
  - rewrite put_version_obj by done. by rewrite decide_True.
Qed.

(** What a write at the claimed revision [r] may end with, over a version with
    [P]; [f] is the identity before [notify] and [close] after it. *)
Definition outcome (f : claim → claim) (k : bytes) (r : Z) (v : slice) (P : option (Z * slice) → Prop)
    (e : option err) (c : claim) (g : gstate S) : Prop :=
  match e with
  | None => c = f (Written r) ∧ ∃ old, P old ∧ took_effect (g_hist g) k r v old
  | Some e => (c = f (Open r) ∨ c = f (Written r)) ∧ (err_is e ErrCASFailed = true → c = f (Open r))
  end.

Lemma outcome_weaken f k r v (P P' : option (Z * slice) → Prop) e c g :
  (∀ o, P o → P' o) → outcome f k r v P e c g → outcome f k r v P' e c g.
Proof. intros HP. destruct e; [done|]. intros (? & o & ? & ?). split; [done|]. exists o. auto. Qed.

Lemma outcome_stable f k r v P : stable (outcome f k r v P).
Proof.
  intros [e|] c g g' Ho He; [done|]. destruct Ho as (-> & o & HP & Ht). split; [done|]. exists o.
  split; [done|]. by eapply took_effect_env.
Qed.

Lemma outcome_close k r v P e c g g' :
  outcome id k r v P e c g → guar c (close c) g g' → outcome close k r v P e (close c) g'.
Proof.
  intros Ho Hg. destruct e as [e|]; simpl in *; [naive_solver|].
  destruct Ho as (-> & o & HP & Ht). split; [done|]. exists o. split; [done|].
  eapply took_effect_env; [done | apply Hg].
Qed.

Lemma outcome_untold k r v P e c g : outcome id k r v P e c g → untold r c.
Proof. destruct e; intros [Hc _]; [done | by right]. Qed.

Lemma outcome_refused k r v P e g : outcome id k r v P (Some e) (Open r) g.
Proof. split; [by left | done]. Qed.

Lemma outcome_uncertain k r v P e g :
  err_is e ErrCASFailed = false → outcome id k r v P (Some e) (Written r) g.
Proof. intros He. split; [by right | congruence]. Qed.

Lemma room_bound b : dealt_rev b + 1 < two63 → dealt_rev b <= max_uint64.
Proof. unfold max_uint64, two63. lia. Qed.

(** The claimed revision of a task that has not written is above the floor. *)
Lemma open_floor g r : cinv g → owned (Open r) g → g_floor g <= r - 1.
Proof. intros Hg (_ & _ & [Hc _]). pose proof (ci_floor _ Hg). lia. Qed.

(** The write takes effect over what is visible. *)
Lemma written_effect k r v g s' :
  cinv g → owned (Open r) g → valid_key k → dealt_rev g <= max_uint64 → revs_below (g_hist g) k (r - 1) →
  took_effect (g_hist (written g k r v s')) k r v (visible (g_hist g) k max_uint64).
Proof. intros Hg Ho Hk Hmax Hb. apply put_took_effect; [apply Hg | done | destruct Ho; lia | done]. Qed.

(** A key that compactions do not expire was not there; of one that they do, a
    version may have been there before it was removed. *)
Definition over_none (k : bytes) (o : option (Z * slice)) : Prop := lasting k → o = None.

(** [PutIfNotExist] of the record. *)
Lemma step_create k r v ttl g :
  cinv g → owned (Open r) g → valid_key k → dealt_rev g + 1 < two63 → is_tombstone v = false →
  wlp (on_kv (Creator.create (EncodeRevisionKey k) (EncodeObjectKey k r) v (Some (uint64ToBytes r)) ttl))
    (λ e b', after (Open r) g b' (outcome id k r v (over_none k) e)) g.
Proof.
  intros Hg Ho Hk Hroom Ht. pose proof (room_bound _ Hroom) as Hmax. apply wp_wlp, wp_on_kv.
  eapply wp_mono; [apply wp_create; [apply Hg | by apply cinv_record]|].
  intros e s' [Hkv He]. pose proof (open_floor _ _ Hg Ho) as HF.
  assert (view g !! EncodeRevisionKey k = None → kv_view s' = put_version (view g) k (live_record r) r v →
    guar (Open r) (Written r) g (written g k r v s') ∧
    outcome id k r v (over_none k) None (Written r) (written g k r v s')) as Hput.
  { intros E Ev. assert (live_record r = record_of r v) as Erec by (unfold record_of; by rewrite Ht).
    rewrite Erec in Ev. destruct (ci_key _ Hg k Hk) as [_ Hnone Hdead|q w E' _]; [|congruence].
    apply (revs_below_mono _ _ _ (r - 1)) in Hnone as Hbl; [|lia].
    split; [by apply guar_put|]. split; [done|]. eexists. split; [exact Hdead|]. by apply written_effect. }
  destruct e as [e|].
  - destruct He as [_ [Ev|(_ & Hc & E & Ev)]].
    + apply (after_same _ (Open r)); [by apply guar_store | apply outcome_refused].
    + destruct (Hput E Ev) as [Hg' _]. eexists _, _. split; [exact Hg' | by apply outcome_uncertain].
  - destruct He as [E Ev]. destruct (Hput E Ev) as [Hg' Hout]. eexists _, _. split; [exact Hg' | exact Hout].
Qed.

(** The record that a comparison found. *)
Lemma record_found m h F k p t w :
  store_ok h → valid_key k → key_strict lasting m h F k →
  m !! EncodeRevisionKey k = Some w → ParseRevision (content w) = (p, t, None) →
  ∃ v, is_latest h k max_uint64 p v ∧ visible h k max_uint64 = if t then None else Some (p, v).
Proof.
  intros Hm Hk [E|q v E Hl] Hw Hp; [congruence|]. rewrite E in Hw. injection Hw as <-.
  assert (is_uint64 q) by (apply u64_bounds; by destruct Hl as (_ & ? & _)).
  rewrite ParseRevision_record in Hp by done. injection Hp as -> Et. exists v.
  split; [done|]. unfold visible. pose proof max_is_uint64.
  rewrite (proj2 (latest_Some h k max_uint64 Hm Hk ltac:(done) p v) Hl). by rewrite Et.
Qed.

(** A compare-and-swap of the record from revision [p], deleted or not. *)
Lemma step_cas k old p t r v ttl g :
  cinv g → owned (Open r) g → valid_key k → dealt_rev g + 1 < two63 →
  ParseRevision (content old) = (p, t, None) → p <= r →
  wlp (on_kv (kv_commit [CAS (EncodeRevisionKey k) (record_of r v) old ttl; Put (EncodeObjectKey k r) v ttl]))
    (λ e b', after (Open r) g b' (outcome id k r v
       (λ o, ∃ w, obj (g_hist g) k p = Some w ∧ o = if t then None else Some (p, w)) e)) g.
Proof.
  intros Hg Ho Hk Hroom Hparse Hp. pose proof (room_bound _ Hroom) as Hmax. apply wp_wlp, wp_on_kv.
  eapply wp_mono; [apply wp_cas_put; [apply Hg | by apply cinv_record]|].
  intros e s' [Hkv He].
  set (P := λ o, ∃ w, obj (g_hist g) k p = Some w ∧ o = if t then None else Some (p, w)).
  assert ((∃ w, view g !! EncodeRevisionKey k = Some w ∧ content w = content old ∧
             kv_view s' = put_version (view g) k (record_of r v) r v) →
    guar (Open r) (Written r) g (written g k r v s') ∧
    outcome id k r v P None (Written r) (written g k r v s')) as Hput.
  { intros (rec & E & Ec & Ev). rewrite <-Ec in Hparse.
    destruct (record_found (view g) (g_hist g) (g_floor g) k p t rec) as (w & Hl & Hvis); try done;
      [apply Hg | by apply (ci_key _ Hg)|].
    assert (p ≠ r) as Hne by (intros ->; destruct Ho as (_ & Hu & _), Hl as (Hw & _); by rewrite Hu in Hw).
    assert (revs_below (g_hist g) k (r - 1)) as Hbl
      by (eapply revs_below_mono; [|by eapply is_latest_below]; lia).
    split; [by apply guar_put|]. split; [done|]. exists (visible (g_hist g) k max_uint64).
    split; [exists w; split; [apply Hl | done] | by apply written_effect]. }
  destruct e as [e|].
  - destruct He as [Ev|(_ & Hc & He)].
    + apply (after_same _ (Open r)); [by apply guar_store | apply outcome_refused].
    + destruct (Hput He) as [Hg' _]. eexists _, _. split; [exact Hg' | by apply outcome_uncertain].
  - destruct (Hput He) as [Hg' Hout]. eexists _, _. split; [exact Hg' | exact Hout].
Qed.

(** * Creates *)

Lemma live_record_of r v : is_tombstone v = false → Some (uint64ToBytes r) = record_of r v.
Proof. intros Ht. unfold record_of. by rewrite Ht. Qed.

(** A single engine call at the end of a program. *)
Lemma safe_call_end {A} (m : GoM S A) c Q g :
  (∀ g', env c g g' → dealt_rev g' + 1 < two63 →
     wlp (on_kv m) (λ x b'', after c g' b'' (Q x)) g') →
  safe (call m) c Q g.
Proof. done. Qed.

Lemma safe_create_over k r v ttl old g :
  valid_key k → is_tombstone v = false →
  safe (create_over_p k v r ttl old) (Open r) (outcome id k r v (over_none k)) g.
Proof.
  intros Hk Ht. unfold create_over_p.
  destruct (ParseRevision (content old)) as [[p t] [e|]] eqn:Ep.
  { apply outcome_refused. }
  destruct (t && (p <? r)) eqn:Ec; [|apply outcome_refused].
  apply andb_true_iff in Ec as [-> Hlt%Z.ltb_lt].
  apply safe_call_end. intros g' He Hroom. unfold Creator.update. rewrite (live_record_of r v Ht).
  eapply wlp_mono; [apply (step_cas k old p true r v ttl g'); try done; [apply He | apply He | lia]|].
  intros e b'' Ha. eapply after_mono; [exact Ha|]. intros c' g'' _. apply outcome_weaken.
  intros o (w & _ & ->). by intros _.
Qed.

(** A call of the engine that leaves its map alone. *)
Lemma after_store c g s' (Q : claim → gstate S → Prop) :
  cinv g → owned c g → kv_inv s' → kv_view s' = view g →
  (guar c c g (upd g (put_store s' g)) → Q c (upd g (put_store s' g))) → after c g (put_store s' g) Q.
Proof. intros Hg Ho Hkv Ev HQ. pose proof (guar_store c g s' Hg Ho Hkv Ev). apply (after_same _ c); auto. Qed.

Lemma safe_create_reread k r v ttl g :
  valid_key k → is_tombstone v = false →
  safe (create_reread_p k v r ttl) (Open r) (outcome id k r v (over_none k)) g.
Proof.
  intros Hk Ht. unfold create_reread_p. apply safe_step. intros g1 He1 Hroom1.
  apply wp_wlp, wp_on_kv. eapply wp_mono; [apply kv_get_spec, He1|].
  intros [old ge] s' (Hkv & Ev & _).
  apply after_store; try done; try apply He1. intros _.
  destruct ge as [ge|]; [|by apply safe_create_over].
  destruct (err_is ge ErrKeyNotFound); [|apply outcome_refused]. apply safe_call_end. intros g2 He2 Hroom2.
  apply step_create; try done; apply He2.
Qed.

Lemma safe_CreateWithTTL k r v ttl g :
  valid_key k → is_tombstone v = false →
  safe (CreateWithTTL_p k v r ttl) (Open r) (outcome id k r v (over_none k)) g.
Proof.
  intros Hk Ht. unfold CreateWithTTL_p. apply safe_step. intros g1 He1 Hroom1.
  eapply wlp_mono; [apply step_create; try done; apply He1|].
  intros e b2 Ha. eapply after_mono; [exact Ha|]. intros c g2 Hg Hout. destruct e as [e|]; [|done].
  destruct (err_is e ErrCASFailed) eqn:Ec; [|done]. destruct Hout as [_ Hout].
  rewrite (Hout Ec). destruct e; try by apply safe_create_reread.
  destruct idx; [by apply safe_create_over | by apply safe_create_reread].
Qed.

Lemma step_deal prev g (Q : Z * option err → claim → gstate S → Prop) :
  cinv g → dealt_rev g + 1 < two63 →
  (guar Unclaimed (Open (dealt_rev g + 1)) g (upd g (dealt g)) →
   Q (dealt_rev g + 1, if (0 <? prev) && (dealt_rev g + 1 <? prev) then Some ErrRevisionDriftBack else None)
     (Open (dealt_rev g + 1)) (upd g (dealt g))) →
  wlp (deal prev) (λ x b', after Unclaimed g b' (Q x)) g.
Proof.
  intros Hg Hroom HQ. apply wp_wlp, wp_deal; [pose proof (ci_deal _ Hg); unfold two63, max_uint64 in *; lia|].
  pose proof (guar_deal g Hg Hroom). apply (after_same _ (Open (dealt_rev g + 1))); auto.
Qed.

(** A write that was dealt a revision, or was refused for a drift. *)
Definition wrote (f : claim → claim) (k : bytes) (v : slice) (P : option (Z * slice) → Prop)
    (x : Z * option err) (c : claim) (g : gstate S) : Prop :=
  0 <= x.1 ∧
  (outcome f k x.1 v P x.2 c g ∨ ∃ e, x = (0, Some e) ∧ err_is e ErrCASFailed = false).

Lemma wrote_weaken f k v (P P' : option (Z * slice) → Prop) x c g :
  (∀ o, P o → P' o) → wrote f k v P x c g → wrote f k v P' x c g.
Proof. intros HP [Hx [Ho|He]]; (split; [done|]); [left | by right]. by eapply outcome_weaken. Qed.

Lemma wrote_stable f k v P : stable (wrote f k v P).
Proof.
  intros x c g g' [Hx [Ho|He]] Henv; (split; [done|]); [left | by right]. by eapply outcome_stable.
Qed.

Lemma wrote_close k v P x c g g' :
  wrote id k v P x c g → guar c (close c) g g' → wrote close k v P x (close c) g'.
Proof.
  intros [Hx [Ho|He]] Hg; (split; [done|]); [left | by right]. by eapply outcome_close.
Qed.

Lemma wrote_untold k v P x c g : wrote id k v P x c g → x.1 = 0 ∨ untold x.1 c.
Proof. intros [_ [Ho|(e & -> & _)]]; [right | by left]. by eapply outcome_untold. Qed.

Lemma safe_create k v lease g :
  valid_key k → is_tombstone v = false →
  safe (create_p k v lease) Unclaimed (wrote id k v (over_none k)) g.
Proof.
  intros Hk Ht. unfold create_p. apply safe_step. intros g1 He1 Hroom1.
  pose proof (ci_deal _ (en_inv _ _ _ He1)) as Hd.
  apply step_deal; [apply He1 | done|]. intros _.
  apply (safe_bind (CreateWithTTL_p _ _ _ _)). eapply safe_mono; [by apply safe_CreateWithTTL|].
  intros e c g3 Hout. split; [simpl; lia|]. by left.
Qed.

Lemma safe_update prev k v g :
  valid_key k → is_tombstone v = false → is_uint64 prev → 0 < prev →
  safe (update_p prev k v) Unclaimed (wrote id k v (λ o, fst <$> o = Some prev)) g.
Proof.
  intros Hk Ht Hprev Hpos. unfold update_p. apply safe_step. intros g1 He1 Hroom1.
  pose proof (ci_deal _ (en_inv _ _ _ He1)) as Hd.
  apply step_deal; [apply He1 | done|]. intros _.
  destruct (Z.ltb_spec 0 prev); [|lia]. cbn [andb].
  destruct (Z.ltb_spec (dealt_rev g1 + 1) prev).
  { split; [done|]. right. by eexists. }
  apply safe_step. intros g3 He3 Hroom3. rewrite (live_record_of _ v Ht).
  eapply wlp_mono; [apply (step_cas k _ prev false _ v 0 g3); try done; [apply He3 | apply He3|by apply ParseRevision_live]|].
  intros e b4 Ha. eapply after_mono; [exact Ha|]. intros c g4 _ Hout. split; [simpl; lia|].
  left. eapply outcome_weaken; [|exact Hout]. by intros o (w & _ & ->).
Qed.

(** * Deletes *)

(** The key-value a delete reports. *)
Definition deleted (f : claim → claim) (k : bytes) (prev : Z) (x : Z * KeyVal * option err) (c : claim)
    (g : gstate S) : Prop :=
  let '(rev, old, e) := x in
  0 <= rev ∧ (rev = 0 ∨ c = f (Open rev) ∨ c = f (Written rev)) ∧
  (e = None → kvl_Key old = k ∧ (prev = 0 ∨ prev = kvl_Revision old) ∧ c = f (Written rev) ∧
     took_effect (g_hist g) k rev (Some tombStoneBytes) (Some (kvl_Revision old, kvl_Val old))).

Lemma deleted_stable f k prev : stable (deleted f k prev).
Proof.
  intros [[rev old] e] c g g' (Hr & Hc & Hd) Henv. do 2 (split; [done|]). intros Ee.
  destruct (Hd Ee) as (? & ? & ? & ?). do 3 (split; [done|]). by eapply took_effect_env.
Qed.

Lemma deleted_close k prev x c g g' :
  deleted id k prev x c g → guar c (close c) g g' → deleted close k prev x (close c) g'.
Proof.
  destruct x as [[rev old] e]. intros (Hr & Hc & Hd) Hg. split; [done|]. split; [naive_solver|].
  intros Ee. destruct (Hd Ee) as (? & ? & -> & ?).
  do 3 (split; [done|]). eapply took_effect_env; [done | apply Hg].
Qed.

(** A read of the newest version, with what it says of the history. *)
Lemma step_get k R c g :
  cinv g → owned c g → valid_key k → is_uint64 R →
  wlp (get k R) (λ x b', guar c c g (upd g b') ∧
    (x.2 = None → 0 < x.1.2 <= dealt_rev g ∧ 0 < x.1.2 <= max_uint64 ∧ obj (g_hist g) k x.1.2 = Some x.1.1)) g.
Proof.
  intros Hg Ho Hk HR. apply wp_wlp.
  eapply wp_mono; [apply wp_get; [apply Hg | apply Hg | done | done]|].
  intros [[val mr] e] b' (s' & -> & Hkv & Ev & Hget & _). split; [by apply guar_store|].
  simpl. intros ->. simpl in Hget. destruct (read_rev_ok R HR) as [HR' _].
  apply visible_Some in Hget as [(Hv & Hr & _) _]; [|apply Hg|done|done].
  assert (0 < mr <= max_uint64) by (unfold is_uint64, two64, max_uint64 in *; lia).
  apply (ke_sub _ _ _ _ (ci_kept _ Hg)) in Hv; [|done..].
  split; [|done]. split; [lia|]. by apply (ci_below _ Hg k Hk mr val).
Qed.

Lemma safe_delete prev k g :
  valid_key k → is_uint64 prev → safe (delete_p prev k) Unclaimed (deleted id k prev) g.
Proof.
  intros Hk Hprev. unfold delete_p. apply safe_step. intros g1 He1 Hroom1.
  eapply wlp_mono; [apply (step_get k 0 Unclaimed); try done; apply He1|].
  intros [[val mr] e] b2 [Hg1 Hread]. apply (after_same _ Unclaimed); [done|]. destruct e as [e|].
  { apply safe_step. intros g3 He3 Hroom3. unfold mustDeal. pose proof (ci_deal _ (en_inv _ _ _ He3)) as Hd.
    pose proof (step_deal prev g3 (λ x c g, x.1 = dealt_rev g3 + 1 ∧ c = Open (dealt_rev g3 + 1))
      (en_inv _ _ _ He3) Hroom3) as Hs. unfold wlp, mbind, gom_bind in *.
    destruct (deal prev g3) as [[b4 [rev e']]|]; [|done]. destruct Hs as (c & h & Hg & Er & ->); [done|].
    simpl in Er. subst rev. eexists _, _. split; [exact Hg|]. split; [lia|]. split; [by right; left | done]. }
  destruct (Hread eq_refl) as (Hmr & Hmr' & Hobj). simpl in Hmr, Hmr', Hobj.
  apply safe_step. intros g3 He3 Hroom3. pose proof (ci_deal _ (en_inv _ _ _ He3)) as Hd.
  apply step_deal; [apply He3 | done|]. intros _.
  destruct (_ && (_ <? prev)); [split_and!; [done | by left | done]|].
  destruct ((0 <? prev) && negb (prev =? mr)) eqn:Ecmp; [split_and!; [lia | by right; left | done]|].
  destruct (Z.leb_spec (dealt_rev g3 + 1) mr); [split_and!; [lia | by right; left | done]|].
  assert ((if prev <=? 0 then mr else prev) = mr ∧ (prev = 0 ∨ prev = mr)) as [-> Hexp].
  { unfold is_uint64 in Hprev. destruct (Z.leb_spec prev 0); [split; [done|]; left; lia|].
    destruct (Z.ltb_spec 0 prev); [|lia]. by destruct (Z.eqb_spec prev mr); simplify_eq; auto. }
  apply safe_step. intros g5 He5 Hroom5.
  change (Some (uint64ToBytes (dealt_rev g3 + 1) ++ [Byte.x00]))
    with (record_of (dealt_rev g3 + 1) (Some tombStoneBytes)).
  eapply wlp_mono; [apply (step_cas k _ mr false _ (Some tombStoneBytes) 0 g5); try done;
    [apply He5 | apply He5 | by apply ParseRevision_live, u64_bounds|lia]|].
  intros e b6 Ha. eapply after_mono; [exact Ha|]. intros c g6 _ Hout. split; [lia|].
  split; [right; by eapply outcome_untold|]. intros ->. destruct Hout as (-> & o & (w & Hw & ->) & Hte). simpl.
  do 3 (split; [done|]). assert (obj (g_hist g5) k mr = Some val) as Hv.
  { apply (proj1 (en_grows _ _ _ He5 k Hk)); [done|]. apply (proj1 (en_grows _ _ _ He3 k Hk)); [done|].
    exact Hobj. }
  rewrite Hw in Hv. by injection Hv as ->.
Qed.

(** * The handlers *)

(** [notify] puts the revision the task claims into its slot. *)
Lemma step_notify k v r prev valid ty e c g :
  cinv g → owned c g → valid_key k → 0 <= r → r = 0 ∨ untold r c → dealt_rev g + 1 < two63 →
  wlp (notify k v r prev valid ty e) (λ _ b', guar c (close c) g (upd g b')) g.
Proof.
  intros Hg Ho Hk Hr Hcl Hroom. pose proof (ci_commit _ Hg) as Hc.
  pose proof (λ i ev, cinv_buffer g i ev Hg) as Hbuf.
  unfold notify, wlp. destruct (Z.eqb_spec r 0) as [|Hr0].
  { simpl. apply guar_events; try done; try apply Hg; lia. }
  destruct Hcl as [|Hcl]; [done|].
  assert (0 < r <= dealt_rev g ∧ committed g < r ∧ claimed c = Some r) as (Hrd & Hcr & Ecl)
    by (destruct Hcl as [-> | ->]; simpl in Ho; unfold silent in Ho; simpl; naive_solver lia).
  unfold mbind, gom_bind, GetCurrentRevision, on_tso, zoom, GetRevision, gets.
  destruct (Z.leb_spec watchersChanCapacity (uint64 (r - committed g))) as [|Hfit]; [done|].
  rewrite uint64_id in Hfit by (unfold is_uint64, two64, two63 in *; lia).
  destruct (_ <? 0); [done|]. simpl. apply guar_events; try done; try apply Hg; [simpl; lia| |].
  - intros i ev Hev. simpl in Hev. apply lookup_insert_Some in Hev as [[<- <-]|[_ Hev]]; [|by apply Hbuf].
    split; [done|]. split; [|simpl; lia]. rewrite int64_id by (unfold two63 in *; lia). simpl.
    apply Z.rem_mod_nonneg; unfold watchersChanCapacity; lia.
  - intros q Hq [Hs1 Hs2]. split; [done|]. simpl. intros i ev [[<- <-]|[_ Hev]]%lookup_insert_Some; [|by eapply Hs2].
    simpl. congruence.
Qed.

(** [notify] in front: what was known before, and the claim it closes. *)
Lemma safe_notify {A B} k v r prev valid ty e (f : () → prog (backend S) A) (x : B) c R Q g :
  valid_key k → 0 <= r → r = 0 ∨ untold r c → stable R → R x c g →
  (∀ g1 g2, R x c g1 → guar c (close c) g1 g2 → safe (f ()) (close c) Q g2) →
  safe (atom (notify k v r prev valid ty e) ≫= f) c Q g.
Proof.
  intros Hk Hr Hcl HR Hx Hf. apply safe_step. intros g1 He1 Hroom1.
  eapply wlp_mono; [apply (step_notify k v r prev valid ty e c); try done; apply He1|].
  intros [] b2 Hg. apply (after_same _ (close c)); [done|]. by eapply Hf; [eapply HR|].
Qed.

(** What holds of a finished request, in its final state and ever after: a
    successful write took effect at its own revision over what it expected, a
    refused create wrote nothing, and a read returned a version that was written. *)
Definition answered (q : request) (x : response) (c : claim) (g : gstate S) : Prop :=
  match q, x with
  | RCreate r, SCreate (Some resp, None) =>
      if crs_Succeeded resp
      then c = Used (crs_Revision resp) ∧
           ∃ old, over_none (cr_Key r) old ∧
             took_effect (g_hist g) (cr_Key r) (crs_Revision resp) (cr_Value r) old
      else c = Void (crs_Revision resp)
  | RUpdate r, SUpdate (Some resp, None) =>
      urs_Succeeded resp = true → c = Used (urs_Revision resp) ∧
      ∃ old, (lasting (kv_Key (ur_Kv r)) ∨ kv_Revision (ur_Kv r) ≠ 0 →
              default 0 (fst <$> old) = kv_Revision (ur_Kv r)) ∧
        took_effect (g_hist g) (kv_Key (ur_Kv r)) (urs_Revision resp) (kv_Value (ur_Kv r)) old
  | RDelete r, SDelete (Some resp, None) =>
      drs_Succeeded resp = true → c = Used (drs_Revision resp) ∧
      ∃ kv, drs_Kv resp = Some kv ∧ kv_Key kv = dr_Key r ∧
        (dr_Revision r = 0 ∨ dr_Revision r = kv_Revision kv) ∧
        took_effect (g_hist g) (dr_Key r) (drs_Revision resp) (Some tombStoneBytes)
          (Some (kv_Revision kv, kv_Value kv))
  | RGet r, SGet (Some resp, None) =>
      ∀ kv, grs_Kv resp = Some kv → kv_Key kv = gr_Key r ∧ valid_key (gr_Key r) ∧
        0 < kv_Revision kv <= max_uint64 ∧ obj (g_hist g) (gr_Key r) (kv_Revision kv) = Some (kv_Value kv)
  | RCreate _, SCreate _ | RUpdate _, SUpdate _ | RDelete _, SDelete _ | RGet _, SGet _ => True
  | _, _ => False
  end.

Lemma answered_stable q : stable (answered q).
Proof.
  intros x c g g' Ha He. destruct q as [r|r|r|r], x as [[[resp|] [e|]]|[[resp|] [e|]]|[[resp|] [e|]]|[[resp|] [e|]]];
    simpl in *; try done.
  - destruct (crs_Succeeded resp); [|done]. destruct Ha as (? & old & ? & ?). split; [done|]. exists old.
    split; [done|]. by eapply took_effect_env.
  - intros Hs. destruct (Ha Hs) as (? & old & ? & ?). split; [done|]. exists old. split; [done|].
    by eapply took_effect_env.
  - intros Hs. destruct (Ha Hs) as (? & kv & ? & ? & ? & ?). split; [done|]. exists kv.
    do 3 (split; [done|]). by eapply took_effect_env.
  - intros kv Hkv. destruct (Ha kv Hkv) as (? & Hk & Hr & Hv). do 3 (split; [done|]).
    by apply (proj1 (en_grows _ _ _ He _ Hk)).
Qed.

Lemma safe_Create r g :
  request_ok (RCreate r) → safe (request_p (RCreate r)) Unclaimed (answered (RCreate r)) g.
Proof.
  intros [Hk Ht]. cbn [request_p]. apply safe_bind. unfold Create_p. apply safe_bind.
  eapply safe_mono; [by apply safe_create|]. intros [rev e] c g1 Hw.
  eapply (safe_notify _ _ _ _ _ _ _ _ (rev, e) c);
    [done | apply Hw | apply (wrote_untold _ _ _ _ _ _ Hw) | apply wrote_stable | exact Hw|].
  intros g2 g3 Hw2 Hg. destruct (wrote_close _ _ _ _ _ _ _ Hw2 Hg) as [_ Hw3]. destruct e as [e|].
  - simpl is_err. destruct (err_is e ErrCASFailed) eqn:Ec; [|done].
    destruct Hw3 as [[_ Hc]|(? & [= _ <-] & ?)]; [|congruence]. by apply Hc.
  - by destruct Hw3 as [Hout|(? & ? & ?)].
Qed.

(** The answer to an update. *)
Lemma step_update_reply k rev e c g :
  cinv g → owned c g → valid_key k →
  wlp (update_reply k rev e) (λ x b', guar c c g (upd g b') ∧
    match x with
    | (Some resp, None) => urs_Succeeded resp = true → e = None ∧ urs_Revision resp = rev
    | (None, Some _) => True
    | _ => False
    end) g.
Proof.
  intros Hg Ho Hk. assert (guar c c g (upd g g)) as Hid by (rewrite upd_id; by apply guar_id).
  unfold update_reply. destruct (is_err e ErrCASFailed) eqn:Ec.
  - pose proof (step_get k 0 c g Hg Ho Hk zero_is_uint64) as Hs. unfold wlp, mbind, gom_bind in *.
    destruct (get k 0 g) as [[b' [[val mr] ge]]|]; [|done]. destruct Hs as [Hs _].
    destruct ge as [ge|]; [destruct (err_is ge _)|]; done.
  - destruct e as [e|]; done.
Qed.

Lemma safe_Update r g :
  request_ok (RUpdate r) → safe (request_p (RUpdate r)) Unclaimed (answered (RUpdate r)) g.
Proof.
  intros (Hk & Ht & Hprev). cbn [request_p]. apply safe_bind. unfold Update_p. apply safe_bind.
  set (k := kv_Key (ur_Kv r)) in *. set (v := kv_Value (ur_Kv r)) in *. set (prev := kv_Revision (ur_Kv r)) in *.
  assert (safe (if prev =? 0 then create_p k v (ur_Lease r) else update_p prev k v) Unclaimed
            (wrote id k v (λ o, lasting k ∨ prev ≠ 0 → default 0 (fst <$> o) = prev)) g) as Hw.
  { destruct (Z.eqb_spec prev 0) as [E|E]; (eapply safe_mono; [|intros x c g1; apply wrote_weaken]).
    - by apply safe_create.
    - intros o Ho [Hl|]; [|done]. by rewrite (Ho Hl), E.
    - apply safe_update; try done; unfold is_uint64 in *; lia.
    - intros o Ho _. by rewrite Ho. }
  eapply safe_mono; [exact Hw|]. intros [rev e] c g1 Hw1.
  eapply (safe_notify _ _ _ _ _ _ _ _ (rev, e) c);
    [done | apply Hw1 | apply (wrote_untold _ _ _ _ _ _ Hw1) | apply wrote_stable | exact Hw1|].
  intros g0 g2 Hw0 Hg0. pose proof (wrote_close _ _ _ _ _ _ _ Hw0 Hg0) as Hw2. intros g3 He3 Hroom3.
  eapply wlp_mono; [apply (step_update_reply k rev e (close c) g3); try done; apply He3|].
  intros x b4 [Hg Hx]. apply (after_same _ (close c)); [done|]. simpl. destruct x as [[resp|] [e'|]]; try done.
  intros Hs. destruct (Hx Hs) as [-> ->].
  pose proof (wrote_stable _ _ _ _ _ _ _ _ Hw2 He3) as Hw3.
  pose proof (wrote_stable _ _ _ _ _ _ _ _ Hw3 (gu_env _ _ _ _ Hg)) as [_ [Hout|(? & ? & ?)]]; [|done].
  exact Hout.
Qed.

Lemma step_delete_reply k rev old e c g :
  cinv g → owned c g → valid_key k →
  wlp (delete_reply k rev old e) (λ x b', guar c c g (upd g b') ∧
    match x with
    | (Some resp, None) => drs_Succeeded resp = true → e = None ∧ drs_Revision resp = rev ∧
        drs_Kv resp = Some (mkKV (kvl_Key old) (kvl_Val old) (kvl_Revision old))
    | (None, Some _) => True
    | _ => False
    end) g.
Proof.
  intros Hg Ho Hk. assert (guar c c g (upd g g)) as Hid by (rewrite upd_id; by apply guar_id).
  unfold delete_reply, err_eq. case_bool_decide as Ee; [by rewrite Ee|]. destruct e as [e|]; [|done].
  simpl is_err. destruct (err_is e ErrCASFailed); [|done].
  pose proof (step_get k 0 c g Hg Ho Hk zero_is_uint64) as Hs. unfold wlp, mbind, gom_bind in *.
  destruct (get k 0 g) as [[b' [[val mr] ge]]|]; [|done]. destruct Hs as [Hs _]. by destruct ge.
Qed.

Lemma safe_Delete r g :
  request_ok (RDelete r) → safe (request_p (RDelete r)) Unclaimed (answered (RDelete r)) g.
Proof.
  intros [Hk Hprev]. cbn [request_p]. apply safe_bind. unfold Delete_p. apply safe_bind.
  eapply safe_mono; [by apply safe_delete|]. intros [[rev old] e] c g1 Hd1.
  eapply (safe_notify _ _ _ _ _ _ _ _ (rev, old, e) c);
    [done | apply Hd1 | apply Hd1 | apply deleted_stable | exact Hd1|].
  intros g0 g2 Hd0 Hg0. pose proof (deleted_close _ _ _ _ _ _ Hd0 Hg0) as Hd2. intros g3 He3 Hroom3.
  eapply wlp_mono; [apply (step_delete_reply (dr_Key r) rev old e (close c) g3); try done; apply He3|].
  intros x b4 [Hg Hx]. apply (after_same _ (close c)); [done|]. simpl. destruct x as [[resp|] [e'|]]; try done.
  intros Hs. destruct (Hx Hs) as (-> & -> & ->).
  pose proof (deleted_stable _ _ _ _ _ _ _ Hd2 He3) as Hd3.
  pose proof (deleted_stable _ _ _ _ _ _ _ Hd3 (gu_env _ _ _ _ Hg)) as (_ & _ & Hd4).
  destruct (Hd4 eq_refl) as (? & ? & ? & ?). split; [done|]. eexists. done.
Qed.

(** The load of the read revision. *)
Lemma guar_load c g : cinv g → owned c g → guar c c g (upd g (set_tso (tso g) g)).
Proof. intros Hg Ho. rewrite set_tso_id, upd_id. by apply guar_id. Qed.

Lemma safe_Get r g :
  request_ok (RGet r) → safe (request_p (RGet r)) Unclaimed (answered (RGet r)) g.
Proof.
  intros [Hk HR]. cbn [request_p]. apply safe_bind. unfold Get_p. apply safe_step. intros g1 He1 Hroom1.
  unfold wlp, on_tso, zoom, GetRevision, gets.
  apply (after_same _ Unclaimed); [apply guar_load; apply He1|]. apply safe_step. intros g2 He2 Hroom2.
  eapply wlp_mono; [apply (step_get (gr_Key r) (gr_Revision r) Unclaimed); try done; apply He2|].
  intros [[val mr] e] b3 [Hg Hx]. apply (after_same _ Unclaimed); [done|]. destruct e as [e|].
  { by destruct (bool_decide _). }
  destruct (Hx eq_refl) as (Hmr & Hmr' & Hobj). simpl in Hmr, Hmr', Hobj.
  simpl. intros kv Hkv. destruct val as [val|]; [|done]. injection Hkv as <-. simpl. repeat split; (done || lia).
Qed.

Lemma safe_request q g : request_ok q → safe (request_p q) Unclaimed (answered q) g.
Proof.
  destruct q; [apply safe_Create | apply safe_Update | apply safe_Delete | apply safe_Get].
Qed.

(** * Retries *)

Lemma step_getLatest k c g :
  cinv g → owned c g → valid_key k →
  wlp (getLatestInternalVal k) (λ x b', guar c c g (upd g b') ∧ (x.2 = None → 0 < x.1.2 <= dealt_rev g)) g.
Proof.
  intros Hg Ho Hk. pose proof zero_is_uint64. apply wp_wlp.
  eapply wp_mono; [apply wp_getInternalVal; [apply Hg | apply Hg | done | done]|].
  intros [[val mr] e] b' (s' & -> & Hkv & Ev & Hget & _). split; [by apply guar_store|].
  simpl. intros ->. simpl in Hget. apply latest_Some in Hget as (Hv & Hr & _); [|apply Hg|done|apply max_is_uint64].
  split; [apply Hr|]. apply (ke_sub _ _ _ _ (ci_kept _ Hg)) in Hv; [|done..].
  apply (ci_below _ Hg k Hk mr val Hv). exact Hr.
Qed.

Lemma safe_overwrite k prev g :
  valid_key k →
  safe (overwrite_p k prev) Unclaimed (λ x c _, 0 <= x.1 ∧ (x.1 = 0 ∨ untold x.1 c)) g.
Proof.
  intros Hk. unfold overwrite_p. apply safe_step. intros g1 He1 Hroom1.
  eapply wlp_mono; [apply (step_getLatest k Unclaimed); try done; apply He1|].
  intros [[val mr] e] b2 [Hg Hx]. apply (after_same _ Unclaimed); [done|]. destruct e as [e|].
  { destruct (bool_decide _); by split; [|left]. }
  destruct (Hx eq_refl) as [Hpos Hmr]. simpl in Hpos, Hmr.
  destruct (slen val =? 0); cbn [orb]; [by split; [|left]|].
  destruct (Z.eqb_spec mr prev) as [->|]; cbn [negb]; [|by split; [|left]].
  apply safe_step. intros g3 He3 Hroom3. pose proof (ci_deal _ (en_inv _ _ _ He3)) as Hd.
  pose proof (en_deal _ _ _ He3) as Hd3. pose proof (en_deal _ _ _ (gu_env _ _ _ _ Hg)) as Hd2. simpl in Hd3, Hd2.
  unfold on_tso. apply wp_wlp, wp_zoom, wp_Deal; [unfold two63, max_uint64 in *; lia | lia|].
  apply (after_same _ (Open (dealt_rev g3 + 1))); [by apply guar_deal; [apply He3|]|].
  apply safe_step. intros g4 He4 Hroom4.
  assert (∀ r, Some (uint64ToBytes r ++ (if bytes_eqb (content val) tombStoneBytes then [Byte.x00] else []))
               = record_of r val) as Erec.
  { intros r. unfold record_of, is_tombstone. destruct (bytes_eqb _ _); [done|]. by rewrite app_nil_r. }
  rewrite !Erec.
  eapply wlp_mono; [apply (step_cas k _ prev (is_tombstone val) _ val 0 g4); try done;
    [apply He4 | apply He4 | apply ParseRevision_record, u64_bounds | lia]|].
  { pose proof (room_bound _ Hroom1). lia. }
  intros e b5 Ha. eapply after_mono; [exact Ha|]. intros c g5 _ Hout. simpl. split; [lia|]. right.
  by eapply outcome_untold.
Qed.

Lemma pop_nodes q q' : pop q = Some q' → nodes q' = nodes q.
Proof.
  unfold pop. destruct (_ =? 0); [by intros [= <-]|].
  destruct (q_head q) as [h|]; [|done]. simpl. destruct (nodes q !! h); [|done]. by intros [= <-].
Qed.

Lemma safe_retry now g : safe (retry_p now) Unclaimed (λ _ _ _, True) g.
Proof.
  unfold retry_p. apply safe_step. intros g1 He1 Hroom1. unfold wlp, gets.
  apply (after_same _ Unclaimed); [rewrite upd_id; apply guar_id; apply He1|].
  destruct (getHead (asyncFifoRetry g1)) as [node|] eqn:En; [|done].
  assert (event_ok (n_event node)) as [Hrev Hk].
  { unfold getHead in En. destruct (q_head _) as [h|]; [|done]. simpl in En.
    by eapply (ci_queue _ (en_inv _ _ _ He1) h). }
  destruct (_ <? RetryInterval); [done|]. apply safe_bind.
  eapply safe_mono; [by apply safe_overwrite|]. intros [rev e] c g2 [Hx Hcl]. simpl in Hx, Hcl.
  assert (∀ c g3, safe (atom (zoom asyncFifoRetry set_queue
    (λ q, match pop q with Some q' => Some (q', false) | None => None end))) c (λ _ _ _, True) g3) as Hpop.
  { intros c' g3 g4 He4 _. unfold wlp, zoom. destruct (pop (asyncFifoRetry g4)) as [q'|] eqn:Ep; [|done].
    apply (after_same _ c'); [|done]. apply guar_read; try apply He4; try done; [apply cinv_same, He4|].
    intros a n. simpl. rewrite (pop_nodes _ _ Ep). apply He4. }
  destruct (rev =? 0); [by destruct e|].
  by apply (safe_notify _ _ _ _ _ _ _ _ () c (λ _ _ _, True)).
Qed.
End safe.

(** Two writes of one key at different revisions were not made over the same
    version. *)
Lemma took_effect_order m k r v o r' v' o' :
  took_effect m k r v o → took_effect m k r' v' o' → r < r' →
  default 0 (fst <$> o) = default 0 (fst <$> o') → default 0 (fst <$> o) ≠ 0 → False.
Proof.
  intros [Hm Hk Hr Hv Hb _] [_ _ Hr' _ Hb' _] Hlt Heq Hne.
  assert (∀ R, 0 < R <= max_uint64 → is_uint64 (R - 1)) as Hu
    by (intros R ?; unfold is_uint64, max_uint64, two64 in *; lia).
  destruct o as [[p w]|]; [|done]. destruct o' as [[p' w']|]; simpl in *; [subst p'|done].
  apply visible_Some in Hb as [(_ & Hp & _) _]; [|done|done|by apply Hu].
  apply visible_Some in Hb' as [(_ & _ & Hmax) _]; [|done|done|by apply Hu].
  pose proof (Hmax r v Hv ltac:(lia)). lia.
Qed.
