(* ===== verification/ConcurrentQuiet.v ===== *)
(** Tasks that claim no revision: range reads and compactions.

    Their steps keep the history and the floor; a compaction's deletions change the
    engine all the same.  The goroutines such a task starts may be interleaved in
    any way, with each other and with other tasks. *)

From S2P Require Import Prelude GoMonad Prog Storage Coder Proto Tso Ring Queue Mvcc Creator Scanner.
From S2P Require Import ScanSpec Compaction Backend BackendSpec Refinement RetrySpec WorkerProg ScanProg.
From S2P Require Import Concurrent History ConcurrentSpec.

Section quiet.
Context {S : Type} `{KvSpec S}.
Implicit Types (b : backend S) (g : gstate S).
Local Abbreviation dealt_rev g := (dealRevision (tso g)).
Local Abbreviation committed g := (committedRevision (tso g)).

Fixpoint quiet {A} (p : prog (backend S) A) (Q : A → gstate S → Prop) (g : gstate S) : Prop :=
  match p with
  | Done a => Q a g
  | Do m k => ∀ g', env Unclaimed g g' → dealt_rev g' + 1 < two63 →
      wlp m (λ x b, guar Unclaimed Unclaimed g' (upd g' b) ∧ quiet (k x) Q (upd g' b)) g'
  end.

Definition rstable {A} (Q : A → gstate S → Prop) : Prop :=
  ∀ a g g', Q a g → env Unclaimed g g' → Q a g'.

Lemma quiet_safe {A} (p : prog (backend S) A) Q g :
  quiet p Q g → safe p Unclaimed (λ a _ g', Q a g') g.
Proof.
  revert g. induction p as [a|B m k IH]; simpl; intros g Hp; [done|]. intros g' He Hroom.
  eapply wlp_mono; [by apply Hp|]. intros x b [Hgu Hq]. apply (after_same _ Unclaimed); auto.
Qed.

Lemma quiet_mono {A} (p : prog (backend S) A) (Q Q' : A → gstate S → Prop) g :
  quiet p Q g → (∀ a g', Q a g' → Q' a g') → quiet p Q' g.
Proof.
  intros Hp HQ. revert g Hp. induction p as [a|B m k IH]; simpl; intros g Hp; [auto|].
  intros g' He Hroom. eapply wlp_mono; [by apply Hp|]. intros x b [Hgu Hq]. auto.
Qed.

Lemma quiet_bind {A B} (p : prog (backend S) A) (f : A → prog (backend S) B) Q g :
  quiet p (λ a g', quiet (f a) Q g') g → quiet (p ≫= f) Q g.
Proof.
  revert g. unfold mbind, prog_bind. induction p as [a|C m k IH]; simpl; intros g Hp; [done|].
  intros g' He Hroom. eapply wlp_mono; [by apply Hp|]. intros x b [Hgu Hq]. auto.
Qed.

Lemma quiet_env {A} (p : prog (backend S) A) Q g g' :
  rstable Q → quiet p Q g → env Unclaimed g g' → quiet p Q g'.
Proof.
  intros HQ. destruct p as [a|B m k]; simpl; intros Hp He; [by eapply HQ|].
  intros g2 He2. apply Hp. by eapply env_trans.
Qed.

(** What was true at the start is known at the end. *)
Lemma quiet_history {A} (p : prog (backend S) A) Q g :
  cinv g → quiet p Q g → quiet p (λ a g', Q a g' ∧ env Unclaimed g g') g.
Proof.
  intros Hg. assert (∀ g1, env Unclaimed g g1 → quiet p Q g1 →
    quiet p (λ a g', Q a g' ∧ env Unclaimed g g') g1) as Hgen; [|intros Hp; by apply Hgen; [apply env_refl|]].
  induction p as [a|B m k IH]; simpl; intros g1 He1 Hp; [done|].
  intros g2 He2 Hroom. eapply wlp_mono; [by apply Hp|]. intros x b [Hgu Hq]. split; [done|].
  apply IH; [|done]. eapply env_trans; [exact He1|]. eapply env_trans; [exact He2 | apply Hgu].
Qed.

(** A step whose result is used, with what it keeps. *)
Lemma quiet_step {A B} (m : GoM (backend S) A) (f : A → prog (backend S) B) Q g :
  (∀ g', env Unclaimed g g' → dealt_rev g' + 1 < two63 →
     wlp m (λ x b, guar Unclaimed Unclaimed g' (upd g' b) ∧ quiet (f x) Q (upd g' b)) g') →
  quiet (atom m ≫= f) Q g.
Proof. done. Qed.

(** One call of the engine that leaves its map alone. *)
Lemma quiet_call {A B} (m : GoM S A) (f : A → prog (backend S) B) Q g :
  (∀ g', env Unclaimed g g' →
     match m (b_store g') with
     | Some (s', x) => kv_inv s' ∧ kv_view s' = view g' ∧
         (guar Unclaimed Unclaimed g' (upd g' (put_store s' g')) → quiet (f x) Q (upd g' (put_store s' g')))
     | None => True
     end) →
  quiet (call m ≫= f) Q g.
Proof.
  intros Hm g' He Hroom. specialize (Hm g' He). unfold wlp, on_kv, on_scanner, sc_on_store, zoom.
  change (sc_store (b_scanner g')) with (b_store g').
  destruct (m (b_store g')) as [[s' x]|]; [|done]. destruct Hm as (Hkv & Hv & Hq).
  assert (guar Unclaimed Unclaimed g' (upd g' (put_store s' g'))) as Hgu
    by (apply guar_store; try done; apply He).
  split; [exact Hgu | exact (Hq Hgu)].
Qed.

Lemma quiet_sequence {A} (ps : list (prog (backend S) A)) Qs g :
  cinv g → Forall2 (λ p Q, quiet p Q g ∧ rstable Q) ps Qs →
  quiet (sequence ps) (λ xs g', Forall2 (λ x (Q : A → gstate S → Prop), Q x g') xs Qs) g.
Proof.
  intros Hg HF. revert g Hg HF. induction Qs as [|Q Qs IH] in ps |- *; intros g Hg HF.
  { apply Forall2_nil_inv_r in HF as ->. by simpl. }
  apply Forall2_cons_inv_r in HF as (p & ps' & [Hp HQ] & HF & ->). simpl. apply quiet_bind.
  eapply quiet_mono; [by apply quiet_history|]. intros x g1 [Hx He]. apply quiet_bind.
  eapply quiet_mono; [apply quiet_history; [apply He|]; apply (IH ps' g1); [apply He|]|].
  - eapply Forall2_impl; [exact HF|]. intros p' Q' [Hp' HQ']. split; [by eapply quiet_env | done].
  - intros xs g2 [Hxs He2]. simpl. constructor; [by eapply HQ | done].
Qed.

(** Goroutines whatever the order of their accesses. *)
Lemma quiet_par {A} sched (ps : list (prog (backend S) A)) Qs g :
  cinv g → Forall2 (λ p Q, quiet p Q g ∧ rstable Q) ps Qs →
  quiet (par sched ps) (λ xs g', Forall2 (λ x (Q : A → gstate S → Prop), Q x g') xs Qs) g.
Proof.
  revert ps g. induction sched as [|i sched IH]; intros ps g Hg HF; [by apply quiet_sequence|].
  simpl. destruct (ps !! i) as [[a|B m k]|] eqn:Ei; [by apply IH| |by apply IH].
  intros g1 He1 Hroom. destruct (Forall2_lookup_l _ _ _ _ _ HF Ei) as (Q & EQ & Hp & HQ).
  eapply wlp_mono; [by apply Hp|]. intros x b [Hgu Hq]. split; [done|]. apply IH; [apply Hgu|].
  assert (env Unclaimed g (upd g1 b)) as He by (eapply env_trans; [exact He1 | apply Hgu]).
  rewrite <-(list_insert_id Qs i Q EQ). apply Forall2_insert; [|done].
  eapply Forall2_impl; [exact HF|]. intros p' Q' [Hp' HQ']. split; [by eapply quiet_env | done].
Qed.

(** The engine's part of a step, from its specification. *)
Lemma read_spec {A} (m : GoM S A) (P : A → Prop) (K : A → Prop) s :
  wp m (λ x s', kv_inv s' ∧ kv_view s' = kv_view s ∧ P x) s → (∀ x, P x → K x) →
  match m s with Some (s', x) => kv_inv s' ∧ kv_view s' = kv_view s ∧ K x | None => True end.
Proof. unfold wp. destruct (m s) as [[s' x]|]; [|done]. intros (? & ? & ?) HK. auto. Qed.

Lemma read_opt {A} (o : option A) (K : A → Prop) (s : S) :
  kv_inv s → (∀ x, o = Some x → K x) →
  match lift_opt o s with Some (s', x) => kv_inv s' ∧ kv_view s' = kv_view s ∧ K x | None => True end.
Proof. unfold lift_opt. destruct o; auto. Qed.

(** A call of the engine that reads, with any later state after it. *)
Lemma quiet_read {A B} (m : GoM S A) (f : A → prog (backend S) B) Q g :
  (∀ s, kv_inv s →
     match m s with
     | Some (s', x) => kv_inv s' ∧ kv_view s' = kv_view s ∧
         (∀ g2, cinv g2 → env Unclaimed g g2 → quiet (f x) Q g2)
     | None => True
     end) →
  quiet (call m ≫= f) Q g.
Proof.
  intros Hm. apply quiet_call. intros g1 He1. specialize (Hm _ (ci_kv _ (en_inv _ _ _ He1))).
  destruct (m (b_store g1)) as [[s' x]|]; [|done]. destruct Hm as (Hkv & Hv & Hf).
  do 2 (split; [done|]). intros Hgu.
  assert (env Unclaimed g (upd g1 (put_store s' g1))) as He by (eapply env_trans; [exact He1 | apply Hgu]).
  apply Hf; [apply He | done].
Qed.

(** The load of the read revision. *)
Lemma quiet_revision {B} (f : Z → prog (backend S) B) Q g :
  (∀ g', cinv g' → env Unclaimed g g' → is_uint64 (committed g') → quiet (f (committed g')) Q g') →
  quiet (atom (on_tso GetRevision) ≫= f) Q g.
Proof.
  intros Hf g1 He1 Hroom. unfold wlp, on_tso, zoom, GetRevision, gets. rewrite set_tso_id, upd_id.
  split; [apply guar_id; apply He1|]. apply Hf; [apply He1 | done|].
  pose proof (ci_commit _ (en_inv _ _ _ He1)). unfold is_uint64, two64, two63 in *. lia.
Qed.
End quiet.
