(* ===== verification/ConcurrentReads.v ===== *)
(** Reads of ranges among interleaved writes and compactions: the snapshot they
    return.

    A read loads the read revision first; its workers then call the engine at
    different moments, between the calls of other requests.  Nothing changes in the
    history at or below the read revision, and the engine holds what a reader at or
    above the floor needs; so that what the workers found together is one snapshot,
    and still is what a later reader finds at the same revision, as long as no
    compaction above it starts. *)

From S2P Require Import Prelude GoMonad Prog Storage Coder Proto Tso Ring Queue Mvcc Creator Scanner.
From S2P Require Import ScanSpec ScanRead Compaction Backend BackendSpec BackendReads Refinement RetrySpec.
From S2P Require Import WorkerProg ScanProg Concurrent History ConcurrentSpec ConcurrentQuiet.

(** * Reads of the frozen part *)

Lemma frozen_visible d m m' k R :
  frozen d m m' → store_ok m → store_ok m' → valid_key k → is_uint64 R → R <= d →
  visible m' k R = visible m k R.
Proof.
  intros Hf Hm Hm' Hk HR Hd. unfold visible. rewrite (latest_ext m m'); try done.
  intros r Hr. apply Hf; [done | lia].
Qed.

(** Two maps that show the same in a range. *)
Lemma range_result_agree m m' a b R l :
  (∀ k, valid_key k → bytes_le a (EncodeRevisionKey k) → bytes_lt (EncodeRevisionKey k) b →
     visible m' k R = visible m k R) →
  range_result m' a b R l → range_result m a b R l.
Proof.
  intros Hag [Hs Hl]. split; [done|]. intros kv. rewrite Hl.
  split; intros (Hv & Ha & Hb & Hvis); do 3 (split; [done|]); by rewrite Hag in * || by rewrite <-Hag.
Qed.

Lemma frozen_range d m m' a b R l :
  frozen d m m' → store_ok m → store_ok m' → is_uint64 R → R <= d →
  range_result m' a b R l → range_result m a b R l.
Proof. intros Hf Hm Hm' HR Hd. apply range_result_agree. intros k Hk _ _. by eapply frozen_visible. Qed.

Section reads.
Context {S : Type} `{KvSpec S} `{!KvPartitions S}.
Implicit Types g : gstate S.
Local Abbreviation dealt_rev g := (dealRevision (tso g)).
Local Abbreviation committed g := (committedRevision (tso g)).

(** The key has a version. *)
Definition has_version (h : kvmap) (k : bytes) : Prop := ∃ r v, 0 < r <= max_uint64 ∧ obj h k r = Some v.

(** No key of the range that was ever written expires. *)
Definition lasts (h : kvmap) (x y : bytes) : Prop :=
  ∀ k, valid_key k → bytes_le x (EncodeRevisionKey k) → bytes_lt (EncodeRevisionKey k) y →
    has_version h k → lasting (S := S) k.

Lemma grows_version h h' k : grows h h' → valid_key k → has_version h k → has_version h' k.
Proof. intros Hg Hk (r & v & Hr & Hv). exists r, v. split; [done|]. by apply (proj1 (Hg k Hk)). Qed.

(** The engine and the history show the same of a key that does not expire, from
    the floor on. *)
Lemma written_visible g k R :
  cinv g → valid_key k → is_uint64 R → g_floor g <= R → (has_version (g_hist g) k → lasting (S := S) k) →
  visible (view g) k R = visible (g_hist g) k R.
Proof.
  intros Hg Hk HR HF Hl. pose proof (ci_floor _ Hg). pose proof (ci_kept _ Hg) as Hkept.
  pose proof (ci_hist _ Hg) as Hh. pose proof (ci_ok _ Hg) as Hv.
  destruct (latest (g_hist g) k R) as [[r v]|] eqn:El.
  - apply latest_Some in El as (Ho & Hr & _); try done. eapply kept_visible; try done; [|lia].
    apply Hl. exists r, v. split; [|done]. unfold is_uint64, two64, max_uint64 in *. lia.
  - unfold visible. rewrite El. rewrite latest_None in El by done.
    assert (latest (view g) k R = None) as ->; [|done]. apply latest_None; try done.
    intros r v Ho Hr. apply (El r v); [|done]. apply (ke_sub _ _ _ _ Hkept); [done | |done].
    unfold is_uint64, two64, max_uint64 in *. lia.
Qed.

(** Above the floor the engine and the history show the same of every key, also of
    those that compactions expire. *)
Lemma above_floor_visible g k R r v :
  cinv g → valid_key k → is_uint64 R → g_floor g < r →
  visible (view g) k R = Some (r, v) ↔ visible (g_hist g) k R = Some (r, v).
Proof.
  intros Hg Hk HR HF. pose proof (ci_kept _ Hg) as [Hsub Hab _]. pose proof (ci_floor _ Hg).
  assert (R <= max_uint64) as Hmax by (unfold is_uint64, two64, max_uint64 in *; lia).
  rewrite !visible_Some by (done || apply Hg).
  split; intros [(Ho & Hr & Hl) Ht]; (split; [|done]); (split; [|split; [done|]]).
  - apply Hsub; [done | lia | done].
  - intros r' v' Ho' Hr'. destruct (Z.le_gt_cases r' r) as [|Hgt]; [done|]. apply (Hl r' v'); [|done].
    apply Hab; [done | lia | done].
  - apply Hab; [done | lia | done].
  - intros r' v' Ho' Hr'. apply (Hl r' v'); [|done]. apply Hsub; [done | lia | done].
Qed.

Lemma kept_range g x y R l :
  cinv g → is_uint64 R → g_floor g <= R → lasts (g_hist g) x y →
  range_result (g_hist g) x y R l → range_result (view g) x y R l.
Proof.
  intros Hg HR HF Hl. apply range_result_agree. intros k Hk Hx Hy. symmetry. by apply written_visible; auto.
Qed.

(** * A scan *)

Section scan.
Context (hdr R : Z) (HR : is_uint64 R).

(** The read revision was [hdr]; a read at [R] up to it is of the frozen part. *)
Definition at_least (g : gstate S) : Prop := hdr <= committed g.

(** A read of the range at [R] is of a snapshot. *)
Definition settled (x y : bytes) (g : gstate S) : Prop := R <= hdr ∧ g_floor g <= R ∧ lasts (g_hist g) x y.

(** What a worker of the scan found, now and later. *)
Definition worker_found (receiver : resultReceiver) (p : Partition)
    (r : Z * option err * resultReceiver * list StreamRangeResponse) (g : gstate S) : Prop :=
  at_least g ∧ (r.1.1.2 = None → settled (Start p) (End p) g →
    ∀ l, range_result (g_hist g) (Start p) (End p) R l → worker_result False receiver r l).

Lemma at_least_env g g' c : at_least g → env c g g' → at_least g'.
Proof. intros Hg He. pose proof (en_commit _ _ _ He). unfold at_least in *. lia. Qed.

Lemma settled_env x y g g' c : env c g g' → settled x y g' → settled x y g.
Proof.
  intros He (? & ? & Hl). pose proof (en_floor _ _ _ He). split_and!; [done | lia|].
  intros k Hk Hx Hy Hv. apply Hl; try done. eapply grows_version; [apply He | done..].
Qed.

(** A later range at [R] is an earlier one. *)
Lemma later_range c g g' x y l :
  cinv g → env c g g' → at_least g → R <= hdr →
  range_result (g_hist g') x y R l → range_result (g_hist g) x y R l.
Proof using HR.
  intros Hg He Hc Hle. eapply frozen_range; [apply He | apply Hg | apply He | done | unfold at_least in *; lia].
Qed.

Lemma worker_found_stable receiver p : rstable (λ r g, cinv g ∧ worker_found receiver p r g).
Proof using HR.
  intros r g g' (Hg & Hc & Hf) He. split; [apply He|]. split; [by eapply at_least_env|].
  intros Hn Hs l Hl. apply Hf; [done | by eapply settled_env|]. eapply later_range; try done. apply Hs.
Qed.

(** A call of the engine in a read. *)
Lemma quiet_read_at {A B} (m : GoM S A) (f : A → prog (backend S) B) Q g :
  at_least g →
  (∀ s, kv_inv s →
     match m s with
     | Some (s', x) => kv_inv s' ∧ kv_view s' = kv_view s ∧
         (∀ g2, cinv g2 → at_least g2 → env Unclaimed g g2 → quiet (f x) Q g2)
     | None => True
     end) →
  quiet (call m ≫= f) Q g.
Proof.
  intros Hat Hm. apply quiet_read. intros s Hs. specialize (Hm s Hs).
  destruct (m s) as [[s' x]|]; [|done]. destruct Hm as (? & ? & Hf). do 2 (split; [done|]).
  intros g2 Hg2 He2. apply Hf; [done | by eapply at_least_env | done].
Qed.

(** What one attempt of a worker found. *)
Definition attempt_found (p : Partition) (l : wstate ()) (x : wstate () * (Z * option err)) (g : gstate S)
    : Prop :=
  rcv_reset (w_receiver x.1) = rcv_reset (w_receiver l) ∧
  (x.2.2 = None → settled (Start p) (End p) g → ∀ kvs, range_result (g_hist g) (Start p) (End p) R kvs →
    (w_receiver x.1, w_stream x.1) = flushed (feed kvs (rcv_reset (w_receiver l), w_stream l)) ∧
    (unlimited (w_receiver l) → x.2.1 = Z.of_nat (length kvs))).

Section worker.
Context (c : workerConfig).
Context (Hcompact : w_compact c = false) (Htimeout : timeoutRevision c = 0)
        (Htombc : w_tombstone c = tombStoneBytes) (Hrev : w_revision c = R).
Local Abbreviation x := (Start (partition c)).
Local Abbreviation y := (End (partition c)).
Context (Hx : aligned x) (Hy : aligned y) (Hxy : bytes_le x y).

Lemma quiet_attempt {B} (l : wstate ()) (f : wstate () * (Z * option err) → prog (backend S) B) Q g :
  at_least g →
  (∀ r g2, cinv g2 → at_least g2 → attempt_found (partition c) l r g2 → quiet (f r) Q g2) →
  quiet (call (attempt c l) ≫= f) Q g.
Proof using All.
  intros Hat Hf. apply quiet_call. intros g1 He1. unfold attempt.
  assert (at_least g1) as Hat1 by by eapply at_least_env. assert (cinv g1) as Hg1 by apply He1.
  assert (store_ok (view g1)) as Hok by apply He1. rewrite <-Hrev in HR.
  pose proof (wp_run_read c (view g1) Hcompact Htimeout Htombc HR Hok Hx Hy Hxy (with_engine (b_store g1) l)) as Hrun.
  unfold wp in Hrun. destruct (run c _) as [[w res]|]; [|done].
  destruct Hrun as ([Hkv Hv] & Hreset & Hres & _); [by split; [apply He1|]|].
  do 2 (split; [done|]). intros Hgu. apply Hf; [apply Hgu | by eapply at_least_env; [|apply Hgu]|].
  split; [done|]. intros Hn (_ & HF & Hl) kvs Hkvs. rewrite <-Hrev in Hkvs, HF. simpl in HF, Hkvs.
  apply kept_range in Hkvs; [|done..]. by destruct (Hres Hn kvs Hkvs).
Qed.

Lemma quiet_attempts n rc l res g :
  cinv g → at_least g → rcv_reset (w_receiver l) = rc →
  quiet (attempts_p (λ l, call (attempt c l)) n l res) (λ r g', cinv g' ∧ at_least g' ∧
    (r.2 = None → settled x y g' → ∀ kvs, range_result (g_hist g') x y R kvs →
      (∃ out, (w_receiver r.1.1, w_stream r.1.1) = flushed (feed kvs (rc, out))) ∧
      (unlimited rc → r.1.2.1 = Z.of_nat (length kvs)))) g.
Proof using All.
  revert l res g. induction n as [|n IH]; intros l res g Hg Hat Hrc; [done|].
  cbn [attempts_p]. destruct (poll l) as [l1 d] eqn:Ep.
  assert (w_receiver l1 = w_receiver l) as Er1.
  { unfold poll in Ep. destruct (w_ctx l); by injection Ep as <- _. }
  destruct d; [done|]. apply quiet_attempt; [done|].
  intros [l2 [cnt e]] g2 Hg2 Hat2 [Hreset Hf]. simpl in Hreset, Hf |- *. rewrite Er1, Hrc in Hreset, Hf.
  destruct e as [e|]; [by apply IH|]. do 2 (split; [done|]). intros _ Hs kvs Hkvs.
  destruct (Hf eq_refl Hs kvs Hkvs) as [Hfeed Hcnt]. split; [by exists (w_stream l1)|].
  intros Hu. apply Hcnt. eapply unlimited_reset; [|exact Hu]. rewrite <-Hrc. by destruct (w_receiver l).
Qed.
End worker.

Context (cfg : Scanner.Config) (Htomb : Tombstone cfg = tombStoneBytes).
Local Abbreviation config ts p := (mkWorkerConfig p ts R (Tombstone cfg) false 0).

Lemma quiet_worker ts receiver ctx p g :
  aligned (Start p) → aligned (End p) → bytes_le (Start p) (End p) → cinv g → at_least g →
  quiet (worker_p (config ts p) receiver ctx) (λ r g', cinv g' ∧ worker_found receiver p r g') g.
Proof using All.
  intros Ha He Hae Hg Hat. unfold worker_p. apply quiet_bind.
  eapply quiet_mono; [apply (quiet_attempts (config ts p) eq_refl eq_refl Htomb eq_refl Ha He Hae
    scanBackoffSteps (rcv_fork receiver)); [done | done | apply reset_fork]|].
  intros [[l res] e] g' (Hg' & Hat' & Hf). simpl in *. do 2 (split; [done|]).
  intros Hn Hs kvs Hkvs. simpl in Hn.
  destruct (Hf ltac:(by destruct e as [[]|]) Hs kvs Hkvs) as [[out Hout] Hcnt]. split.
  - exists out. split; [done | by intros []].
  - intros Hu. apply Hcnt. by apply unlimited_fork.
Qed.

Lemma quiet_workers ts receiver ctx idx x y ps g :
  cover x y ps → aligned x → aligned y → cinv g → at_least g →
  Forall2 (λ p Q, quiet p Q g ∧ rstable Q) (workers_p (λ p, config ts p) receiver ctx idx ps)
    ((λ p r g', cinv g' ∧ worker_found receiver p r g') <$> ps).
Proof using All.
  intros Hc Hx Hy Hg Hat. revert x idx Hc Hx. induction ps as [|p ps IH]; intros x idx Hc Hx; [done|].
  destruct Hc as (Est & Hle & Hc). subst x. rewrite fmap_cons. cbn [workers_p].
  assert (aligned (End p)) as Hend by (destruct ps; [by rewrite Hc | apply Hc]).
  constructor; [split; [by apply quiet_worker | apply worker_found_stable]|].
  destruct ps as [|q ps]; [constructor|]. by apply (IH (End p)); [apply Hc|].
Qed.

Lemma lasts_mono h x y x' y' : bytes_le x x' → bytes_le y' y → lasts h x y → lasts h x' y'.
Proof.
  intros Hx Hy Hl k Hk H1 H2 Hv. apply Hl; [done | by eapply bytes_le_trans| |done].
  apply bytes_le_lteq in Hy as [Hy|<-]; [by etrans | done].
Qed.

(** The workers' key-values, in the order of their partitions. *)
Lemma found_results receiver x y ps rs g :
  cover x y ps → aligned x → aligned y → cinv g → settled x y g →
  Forall2 (λ r p, worker_found receiver p r g) rs ps → first_err ((λ r, r.1.1.2) <$> rs) = None →
  ∃ ls, Forall2 (worker_result False receiver) rs ls ∧ range_result (g_hist g) x y R (concat ls).
Proof using HR.
  intros Hc Hx Hy Hg Hs HF. revert x Hc Hx Hs. induction HF as [|r p rs ps [_ Hr] HF IH]; intros x Hc Hx Hs Hn; [done|].
  destruct Hc as (Est & Hlex & Hc). subst x. rewrite fmap_cons in Hn. simpl in Hn.
  destruct (r.1.1.2) eqn:Er; [done|]. pose proof (ci_hist _ Hg) as Hok.
  assert (aligned (End p)) as Hend by (destruct ps; [by rewrite Hc | apply Hc]).
  assert (bytes_le (End p) y) as Hey by (destruct ps; [apply bytes_le_lteq; by right | by eapply cover_le, Hc]).
  destruct Hs as (Hle & HF' & Hl).
  destruct (range_result_exists (g_hist g) (Start p) (End p) R Hok HR Hx Hend) as [l Hlr].
  assert (settled (Start p) (End p) g) as Hsp
    by (split_and!; [done | done | eapply lasts_mono; [|exact Hey|exact Hl]; apply bytes_le_lteq; by right]).
  specialize (Hr eq_refl Hsp l Hlr). destruct ps as [|q ps].
  - apply Forall2_nil_inv_r in HF as ->. subst y. exists [l]. split; [constructor; [exact Hr | constructor]|].
    simpl. by rewrite app_nil_r.
  - destruct Hc as [_ Hc].
    assert (settled (End p) y g) as Hsy by (split_and!; [done | done | eapply lasts_mono; [exact Hlex| |exact Hl]; apply bytes_le_lteq; by right]).
    destruct (IH (End p) Hc Hend Hsy Hn) as (ls & Hls & Hres).
    exists (l :: ls). split; [by constructor|]. simpl.
    apply range_result_app with (b := End p); try done.
Qed.

(** The reads of the compact record. *)
Lemma read_check (K : option err → Prop) s :
  kv_inv s → (∀ e, K e) →
  match checkCompactRace cfg R false s with
  | Some (s', e) => kv_inv s' ∧ kv_view s' = kv_view s ∧ K e
  | None => True
  end.
Proof.
  intros Hs HK. unfold checkCompactRace, mbind, gom_bind. pose proof (kv_get_spec (CompactKey cfg) s Hs) as Hg.
  unfold wp in Hg. destruct (kv_get (CompactKey cfg) s) as [[s' [v [e|]]]|]; [| |done];
    destruct Hg as (Hkv & Hv & _).
  - destruct (bool_decide _); simpl; auto.
  - unfold lift_opt. destruct (Uint64 (content v)); [|done]. destruct (_ <? _); simpl; auto.
Qed.

(** What a scan reports. *)
Definition scanned (receiver : resultReceiver) (x y : bytes) (r : scanResult) (g : gstate S) : Prop :=
  cinv g ∧ at_least g ∧ (sr_err r = None → settled x y g →
    ∃ rs ls, Forall2 (worker_result False receiver) rs ls ∧ range_result (g_hist g) x y R (concat ls) ∧
      merge_all receiver ((λ r, r.1.2) <$> rs) = Some (sr_receiver r) ∧
      sr_count r = int64 (foldr Z.add 0 ((λ r, r.1.1.1) <$> rs)) ∧
      sr_streams r = (λ r, r.2 ++ (rcv_close r.1.2).2) <$> rs).

Lemma quiet_scan sched ctx x y receiver g :
  internal_ok x → aligned x → aligned y → bytes_le x y → at_least g →
  quiet (scan_p cfg 0 sched ctx x y R false receiver) (scanned receiver x y) g.
Proof using All.
  intros Hok Hx Hy Hxy Hat. unfold scan_p.
  apply quiet_read_at; [done|]. intros s1 Hs1. eapply read_spec; [by apply kv_tso_spec|].
  intros [ts e] _ g2 Hg2 Hat2 _. destruct e as [e|]; [done|].
  apply quiet_read_at; [done|]. intros s3 Hs3. apply read_check; [done|].
  intros e g4 Hg4 Hat4 _. destruct e as [e|]; [done|].
  apply quiet_read_at; [done|]. intros s5 Hs5. eapply read_spec; [by apply kv_partitions_spec|].
  intros [ps e] Hps g6 Hg6 Hat6 _. simpl in Hps. destruct e as [e|]; [done|].
  destruct Hps as (ps' & Hperm & Hchain).
  apply quiet_read_at; [done|]. intros s7 Hs7. apply read_opt; [done|]. intros qs Eqs g8 Hg8 Hat8 _.
  destruct (adjust_cover x y ps' ps Hok Hx Hperm Hchain) as (qs' & Eqs' & Hcover).
  rewrite Eqs in Eqs'. injection Eqs' as <-. apply quiet_bind. cbn [quiet].
  apply quiet_bind. eapply quiet_mono.
  { apply quiet_history; [done|]. apply quiet_par; [done|]. by apply (quiet_workers ts receiver ctx 0 x y). }
  intros rs g9 [HF He9]. assert (at_least g9) as Hat9 by by eapply at_least_env.
  apply Forall2_fmap_r in HF. destruct (first_err _) as [e|] eqn:Ef; [split; [apply He9 | done]|].
  apply quiet_read_at; [done|]. intros s10 Hs10. apply read_opt; [done|]. intros merged Em g11 Hg11 Hat11 He11.
  do 2 (split; [done|]). intros _ Hs.
  destruct (found_results receiver x y qs rs g11) as (ls & Hls & Hres); try done; [|by exists rs, ls].
  eapply Forall2_impl; [exact HF|]. intros r p Hr. by eapply (worker_found_stable receiver p r g9).
Qed.

(** What a range read returns. *)
Definition ranged (x y : bytes) (limit : Z) (r : list KeyValue * option err) (g : gstate S) : Prop :=
  cinv g ∧ at_least g ∧ (r.2 = None → settled x y g → ∀ l, range_result (g_hist g) x y R l →
    r.1 = if 0 <? limit then take (Z.to_nat limit) l else l).

Lemma quiet_limited ctx x y limit g :
  aligned x → aligned y → bytes_le x y → 0 < limit → at_least g →
  quiet (rangeWithLimit_p cfg ctx x y R limit) (ranged x y limit) g.
Proof using All.
  intros Hx Hy Hxy Hlim Hat. unfold rangeWithLimit_p.
  apply quiet_read_at; [done|]. intros s1 Hs1. eapply read_spec; [by apply kv_tso_spec|].
  intros [ts e] _ g2 Hg2 Hat2 _. destruct e as [e|]; [done|].
  apply quiet_read_at; [done|]. intros s3 Hs3. apply read_check; [done|].
  intros e g4 Hg4 Hat4 _. destruct e as [e|]; [done|].
  apply (quiet_attempt (config ts (mkPartition x y))); try done.
  intros [l [cnt e]] g5 Hg5 Hat5 [Hreset Hf]. do 2 (split; [done|]). destruct e as [e|]; [done|]. intros Hn Hs kvs Hkvs.
  destruct (Hf eq_refl Hs kvs Hkvs) as [Hfeed _]. simpl in Hfeed.
  rewrite feed_limited in Hfeed by (simpl; lia). unfold flushed in Hfeed. simpl in Hfeed.
  injection Hfeed as -> _. simpl. destruct (Z.ltb_spec 0 limit); [|lia]. by rewrite Nat.sub_0_r.
Qed.

Lemma quiet_Range sched ctx x y limit g :
  internal_ok x → aligned x → aligned y → bytes_le x y → at_least g →
  quiet (Range_p cfg sched ctx x y R limit) (ranged x y limit) g.
Proof using All.
  intros Hok Hx Hy Hxy Hat. unfold Range_p. destruct (Z.ltb_spec 0 limit); [by apply quiet_limited|].
  apply quiet_bind. eapply quiet_mono; [by apply quiet_scan|].
  intros r g1 (Hg1 & Hat1 & Hr). destruct (sr_err r) as [e|]; [done|].
  assert (settled x y g1 → ∀ l, range_result (g_hist g1) x y R l → sr_receiver r = commonResultReceiver l 0) as Hrcv.
  { intros Hs l Hl. destruct (Hr eq_refl Hs) as (rs & ls & HF & Hres & Em & _).
    rewrite (merge_common False rs ls []) in Em by done. injection Em as <-.
    by rewrite (range_result_unique _ _ _ _ _ _ Hl Hres). }
  destruct (sr_receiver r) as [|result lim|rr batch]; (split; [done|]; split; [done|]); intros _ Hs l Hl;
    specialize (Hrcv Hs l Hl); simplify_eq. destruct (Z.ltb_spec 0 limit); [lia | done].
Qed.
End scan.

(** * The answers *)

(** No key of the user's range that was ever written is one that compactions
    expire. *)
Definition lasting_range (h : kvmap) (k e : bytes) : Prop :=
  ∀ x, valid_key x → bytes_le k x → bytes_lt x e → has_version h x → lasting (S := S) x.

Lemma lasting_lasts h k e :
  valid_key k → valid_key e → lasting_range h k e → lasts h (EncodeObjectKey k 0) (EncodeObjectKey e 0).
Proof.
  intros Hk He Hl x Hx H1 H2 Hv. unfold EncodeRevisionKey in *.
  apply EncodeObjectKey_le in H1; try done. apply EncodeObjectKey_lt in H2; try done.
  apply Hl; [done | apply bytes_le_lteq; naive_solver | destruct H2 as [?|[_ ?]]; [done | lia] | done].
Qed.

Lemma lasting_range_grows h h' k e : grows h h' → lasting_range h' k e → lasting_range h k e.
Proof. intros Hg Hl x Hx H1 H2 Hv. apply Hl; try done. by eapply grows_version. Qed.

(** A list answered with a snapshot: what was visible at the revision it was asked
    for, if that is not above the read revision it reports nor below the floor. *)
Definition listed (r : RangeRequest) (x : option RangeResponse * option err) (g : gstate S) : Prop :=
  match x with
  | (Some resp, None) =>
      let R := if rr_Revision r =? 0 then rrs_Revision resp else rr_Revision r in
      valid_key (rr_Key r) ∧ valid_key (rr_End r) ∧ is_uint64 R ∧
      0 <= rrs_Revision resp <= committed g ∧
      (R <= rrs_Revision resp → g_floor g <= R → lasting_range (g_hist g) (rr_Key r) (rr_End r) →
       ∀ l, visible_range (g_hist g) (rr_Key r) (rr_End r) R l → range_answer r l resp)
  | (None, Some _) => True
  | _ => False
  end.

(** A count, likewise. *)
Definition counted (r : CountRequest) (x : option CountResponse * option err) (g : gstate S) : Prop :=
  match x with
  | (Some resp, None) =>
      count_ok r ∧ is_uint64 (cors_Revision resp) ∧ cors_Revision resp <= committed g ∧
      (g_floor g <= cors_Revision resp → lasting_range (g_hist g) (cor_Key r) (cor_End r) →
       ∀ l, visible_range (g_hist g) (cor_Key r) (cor_End r) (cors_Revision resp) l →
         Z.of_nat (length l) < two63 → cors_Count resp = Z.of_nat (length l))
  | (None, Some _) => True
  | _ => False
  end.

(** The messages of one worker: what its failed attempts had sent, then its
    key-values. *)
Definition worker_stream (msgs : list StreamRangeResponse) (l : list KeyValue) : Prop :=
  ∃ out rest, msgs = out ++ rest ∧ concat (msg_kvs <$> rest) = l ∧ Forall stream_part rest.

(** A streamed range that ended without an error, likewise. *)
Definition streamed (k e : bytes) (rev since : Z) (x : list (list StreamRangeResponse) * StreamRangeResponse)
    (g : gstate S) : Prop :=
  let R := rrs_Revision (srs_RangeResponse x.2) in
  valid_key k ∧ valid_key e ∧ is_uint64 R ∧ (rev ≠ 0 → R = rev) ∧ since <= committed g ∧
  (rev = 0 → since <= R <= committed g) ∧
  (srs_Err x.2 = None → rev = 0 ∨ R <= since → g_floor g <= R → lasting_range (g_hist g) k e →
   ∀ l, visible_range (g_hist g) k e R l → ∃ ls, Forall2 worker_stream x.1 ls ∧ concat ls = l).

Lemma frozen_visible_range d m m' k e R l :
  frozen d m m' → store_ok m → store_ok m' → valid_key k → valid_key e → is_uint64 R → R <= d →
  visible_range m' k e R l → visible_range m k e R l.
Proof. intros Hf ? ? Hk He ? ?. rewrite !visible_range_result by done. by eapply frozen_range. Qed.

Lemma listed_stable r : stable (λ x _ g, cinv g ∧ listed r x g).
Proof.
  intros [[resp|] [e|]] c g g' [Hg Hl] He; (split; [apply He|]); try done. simpl in *.
  destruct Hl as (Hk & Hend & Hu & Hc & Hl). do 3 (split; [done|]).
  pose proof (en_commit _ _ _ He). pose proof (en_floor _ _ _ He). split; [lia|].
  intros Hle HF Hlast l Hvl. apply Hl; [done | lia | by eapply lasting_range_grows; [apply He|]|].
  eapply frozen_visible_range; [apply He | apply Hg | apply He | done.. | lia | done].
Qed.

Lemma counted_stable r : stable (λ x _ g, cinv g ∧ counted r x g).
Proof.
  intros [[resp|] [e|]] c g g' [Hg Hl] He; (split; [apply He|]); try done. simpl in *.
  destruct Hl as (Hok & Hu & Hc & Hl). do 2 (split; [done|]). destruct Hok as (Hk & Hend & _).
  pose proof (en_commit _ _ _ He). pose proof (en_floor _ _ _ He). split; [lia|].
  intros HF Hlast l Hvl. apply Hl; [lia | by eapply lasting_range_grows; [apply He|]|].
  eapply frozen_visible_range; [apply He | apply Hg | apply He | done.. | lia | done].
Qed.

Lemma streamed_stable k e rev since : stable (λ x _ g, cinv g ∧ streamed k e rev since x g).
Proof.
  intros x c g g' [Hg (Hk & He & Hu & Hrev & Hs & Hzero & Hl)] Henv. split; [apply Henv|].
  pose proof (en_commit _ _ _ Henv). pose proof (en_floor _ _ _ Henv).
  do 4 (split; [done|]). split; [lia|]. split; [intros ->; specialize (Hzero eq_refl); lia|].
  intros Herr Hold HF Hlast l Hvl. apply Hl; [done | done | lia | by eapply lasting_range_grows; [apply Henv|]|].
  eapply frozen_visible_range; [apply Henv | apply Hg | apply Henv | done.. | | done].
  destruct Hold as [->|]; [by apply Hzero | lia].
Qed.

Lemma quiet_List cfg sched ctx r g :
  list_ok r → cinv g → quiet (List_p cfg sched ctx r) (λ x g', cinv g' ∧ listed r x g') g.
Proof using All.
  intros (Hk & He & Hu & Hlim) Hg. unfold List_p. destruct (rr_End r) as [|e0 el] eqn:Eend; [done|].
  rewrite <-Eend in *. clear Eend. apply quiet_revision. intros g1 Hg1 _ Hcu.
  destruct (bytes_ltb (rr_Key r) (rr_End r)) eqn:Elt; [|done]. apply bytes_ltb_spec in Elt. cbn [negb].
  set (hdr := committed g1) in *. set (R := if rr_Revision r =? 0 then hdr else rr_Revision r).
  assert (is_uint64 R) as HR by (unfold R; by destruct (_ =? _)).
  destruct (valid_border _ Hk) as [Hik Hak]. destruct (valid_border _ He) as [_ Hae].
  apply quiet_bind. eapply quiet_mono.
  { apply (quiet_Range hdr R HR (getScannerConfig cfg)); try done; [by apply border_le | unfold at_least; lia]. }
  intros [kvs e] g2 (Hg2 & Hat2 & Hr). destruct e as [e|]; [done|].
  assert (0 <= hdr <= committed g2) as Hc by (unfold at_least, is_uint64 in *; lia).
  assert (R <= hdr → g_floor g2 <= R → lasting_range (g_hist g2) (rr_Key r) (rr_End r) →
    ∀ l, visible_range (g_hist g2) (rr_Key r) (rr_End r) R l → range_answer r l
    (if (0 <? (if 0 <? rr_Limit r then int64 (rr_Limit r + 1) else rr_Limit r)) &&
        (rr_Limit r <? Z.of_nat (length kvs))
     then mkRangeResponse hdr (take (Z.to_nat (rr_Limit r)) kvs) true
     else mkRangeResponse hdr kvs false)) as Hans.
  { intros Hle HF Hl l Hvl. apply range_answer_cut; [done|]. apply Hr; [done| |by apply visible_range_result].
    split_and!; [done | done | by apply lasting_lasts]. }
  destruct (_ && _); by split_and!.
Qed.

Lemma quiet_Count cfg sched ctx r g :
  count_ok r → EnableEtcdCompatibility cfg = true → cinv g →
  quiet (Count_p cfg sched ctx r) (λ x g', cinv g' ∧ counted r x g') g.
Proof using All.
  intros Hok Hetcd Hg. destruct Hok as (Hk & He & Hlt). unfold Count_p. apply quiet_revision.
  intros g1 Hg1 _ Hcu. rewrite Hetcd. cbn [negb]. set (hdr := committed g1) in *.
  destruct (valid_border _ Hk) as [Hik Hak]. destruct (valid_border _ He) as [_ Hae].
  apply quiet_bind. eapply quiet_mono.
  { apply (quiet_scan hdr hdr Hcu (getScannerConfig cfg)); try done; [by apply border_le | unfold at_least; lia]. }
  intros res g2 (Hg2 & Hat2 & Hr). destruct (sr_err res) as [e|]; [done|].
  split; [done|]. split; [done|]. do 2 (split; [done|]). simpl. intros HF Hl l Hvl Hlen.
  destruct (Hr eq_refl) as (rs & ls & HF' & Hres & _ & -> & _).
  { split_and!; [lia | done | by apply lasting_lasts]. }
  apply visible_range_result in Hvl; [|done..]. rewrite (range_result_unique _ _ _ _ _ _ Hvl Hres) in *.
  rewrite (count_results _ rs ls HF'), int64_id by (unfold two63 in *; lia).
  apply uint64_id. unfold is_uint64, two64, two63 in *. lia.
Qed.

Lemma quiet_ListByStream cfg sched ctx k e rev g :
  stream_ok k e rev → cinv g →
  quiet (ListByStream_p cfg sched ctx (EncodeObjectKey k 0) (EncodeObjectKey e 0) rev)
    (λ x g', cinv g' ∧ streamed k e rev (committed g) x g') g.
Proof using All.
  intros (Hk & He & Hlt & Hu) Hg. unfold ListByStream_p, RangeStream_p. apply quiet_revision.
  intros g1 Hg1 He1 Hcu. pose proof (en_commit _ _ _ He1) as Hc1. set (hdr := committed g1) in *.
  set (R := if rev =? 0 then hdr else rev).
  assert (is_uint64 R) as HR by (unfold R; by destruct (_ =? _)).
  destruct (valid_border _ Hk) as [Hik Hak]. destruct (valid_border _ He) as [_ Hae].
  apply quiet_bind. eapply quiet_mono.
  { apply (quiet_scan hdr R HR (getScannerConfig cfg)); try done; [by apply border_le | unfold at_least; lia]. }
  intros r g2 (Hg2 & Hat2 & Hr). split; [done|]. unfold at_least in Hat2.
  do 3 (split; [done|]). simpl. fold R.
  split; [intros Hne; unfold R; by destruct (Z.eqb_spec rev 0)|]. split; [lia|].
  split; [intros ->; unfold R; simpl; lia|].
  intros Herr Hold HF Hlast l Hvl. destruct (sr_err r) as [er|]; [done|].
  destruct (Hr eq_refl) as (rs & ls & HF2 & Hres & _ & _ & ->).
  { split_and!; [|done|by apply lasting_lasts]. destruct Hold as [->|]; [unfold R; simpl; lia | lia]. }
  apply visible_range_result in Hvl; [|done..]. exists ls.
  split; [|by apply (range_result_unique _ _ _ _ _ _ Hres Hvl)].
  apply Forall2_fmap_l. eapply Forall2_impl; [exact HF2|]. intros w l' Hw.
  destruct (stream_worker _ _ _ _ Hw) as (out & msgs & Em & _ & ? & ?). by exists out, msgs.
Qed.
End reads.
