(* ===== verification/ConcurrentCompact.v ===== *)
(** Compactions among interleaved requests.

    A worker of a compaction iterates over what its partition held when it started,
    while writers add versions and other compactions remove some.  A version is
    deleted by key, since no one writes at or below the read revision; a record is
    deleted only if it is still what the worker saw.  Every deletion keeps what the
    writers rely on, and what readers at or above the floor see. *)

From S2P Require Import Prelude GoMonad Prog Storage Coder Proto Tso Ring Queue Mvcc Creator Scanner.
From S2P Require Import ScanSpec ScanRead Compaction Backend BackendSpec BackendReads Refinement RetrySpec.
From S2P Require Import WorkerProg ScanProg Concurrent History ConcurrentSpec ConcurrentQuiet.

(** A record is no deletion marker. *)
Lemma record_not_tombstone q u : bytes_eqb (content (record_of q u)) tombStoneBytes = false.
Proof.
  apply bytes_eqb_false. unfold record_of. intros E. destruct (is_tombstone u).
  - apply (f_equal last) in E. change (content _) with (uint64ToBytes q ++ [Byte.x00]) in E.
    rewrite last_snoc in E. discriminate E.
  - apply (f_equal length) in E. change (content _) with (uint64ToBytes q) in E.
    rewrite uint64ToBytes_length in E. discriminate E.
Qed.

(** Two records with the same content. *)
Lemma record_of_inj q u q' u' :
  is_uint64 q → is_uint64 q' → content (record_of q u) = content (record_of q' u') →
  q = q' ∧ is_tombstone u = is_tombstone u'.
Proof.
  intros Hq Hq' E. pose proof (ParseRevision_record q u Hq) as Hp. rewrite E, ParseRevision_record in Hp by done.
  by injection Hp as -> ->.
Qed.

Lemma Uint64_record q u : is_uint64 q → Uint64 (content (record_of q u)) = Some q.
Proof.
  intros Hq. unfold record_of. destruct (is_tombstone u); [by apply Uint64_uint64ToBytes|].
  rewrite <-(app_nil_r (content _)). by apply Uint64_uint64ToBytes.
Qed.

(** A record of nine bytes is that of a deletion. *)
Lemma record_length q u : length (content (record_of q u)) = 9%nat → is_tombstone u = true.
Proof.
  unfold record_of. destruct (is_tombstone u); [done|]. change (content _) with (uint64ToBytes q).
  by rewrite uint64ToBytes_length.
Qed.

(** A mark that is set or left. *)
Lemma mark_trans (a b c k : bytes) : a = b ∨ a = k → b = c ∨ b = k → a = c ∨ a = k.
Proof. intros [->|?] [->|?]; auto. Qed.

Section compact.
Context {S : Type} `{KvSpec S}.
Implicit Types g : gstate S.
Local Abbreviation dealt_rev g := (dealRevision (tso g)).
Local Abbreviation committed g := (committedRevision (tso g)).
Local Abbreviation failed l := (lastCompactFailedRawKey l).

(** * Deletions *)

Lemma floor_max g : cinv g → 0 <= g_floor g <= max_uint64.
Proof.
  intros Hg. pose proof (ci_floor _ Hg). pose proof (ci_commit _ Hg). pose proof (ci_deal _ Hg).
  unfold max_uint64, two63 in *. lia.
Qed.

(** A step that removes entries of the engine. *)
Lemma guar_remove g s' :
  cinv g → kv_inv s' → kv_view s' ⊆ view g →
  (∀ k, valid_key k → key_strict lasting (kv_view s') (g_hist g) (g_floor g) k) →
  kept lasting (kv_view s') (g_hist g) (g_floor g) →
  guar Unclaimed Unclaimed g (upd g (put_store s' g)).
Proof.
  intros Hg Hkv Hsub Hkey Hkept. change (kv_view s') with (view (put_store s' g)) in *.
  split; [split|..]; simpl; try done.
  - split; try apply Hg; simpl; try done.
    + intros ik v Hv. eapply (ci_ok _ Hg). by eapply lookup_weaken.
    + intros ik Hik Hv. eapply (ci_raw _ Hg); [done|]. by eapply lookup_weaken.
  - apply grows_refl.
  - intros k r v _ _ Hv. by eapply lookup_weaken.
  - by left.
Qed.

Lemma guar_delete_version g s' k r :
  cinv g → kv_inv s' → 0 < r <= g_floor g →
  (lasting k → ∀ v, is_latest (g_hist g) k (g_floor g) r v →
     is_tombstone v = true ∧ ∀ p, 0 < p <= g_floor g → p ≠ r → obj (view g) k p = None) →
  kv_view s' = base.delete (EncodeObjectKey k r) (view g) →
  guar Unclaimed Unclaimed g (upd g (put_store s' g)).
Proof.
  intros Hg Hkv Hr Hlast Ev. pose proof (floor_max g Hg).
  apply guar_remove; rewrite ?Ev; try done.
  - apply delete_subseteq.
  - intros k' Hk'. apply strict_delete_version; [lia | by apply Hg].
  - apply kept_delete; [apply Hg | done | lia | done].
Qed.

Lemma guar_delete_record g s' k w q u :
  cinv g → kv_inv s' → valid_key k → is_uint64 q → q <= g_floor g →
  (lasting k → is_tombstone u = true) →
  content (default None (view g !! EncodeRevisionKey k)) = content w → w = record_of q u →
  kv_view s' = base.delete (EncodeRevisionKey k) (view g) →
  guar Unclaimed Unclaimed g (upd g (put_store s' g)).
Proof.
  intros Hg Hkv Hk Hqu Hq Hdead Ec -> Ev. pose proof (floor_max g Hg).
  destruct (ci_key _ Hg k Hk) as [E _ _|p v E Hl].
  { rewrite E in Ec. unfold record_of in Ec. destruct (is_tombstone u); discriminate Ec. }
  rewrite E in Ec. simpl in Ec.
  apply record_of_inj in Ec as [-> Et]; [|apply u64_bounds; by destruct Hl as (_ & ? & _)|done].
  apply guar_remove; rewrite ?Ev; try done.
  - apply delete_subseteq.
  - intros k' Hk'. eapply strict_delete_record; try done; [apply Hg | by rewrite Et | by apply Hg].
  - apply kept_delete_record; [done | apply Hg].
Qed.

(** * A worker's programs *)

Lemma quiet_w_bind {A B} (p : W A) (f : A → W B) l Q g :
  quiet (p l) (λ x g', quiet (f x.2 x.1) Q g') g → quiet ((p ≫= f) l) Q g.
Proof. apply quiet_bind. Qed.

Lemma quiet_w_opt {A} (o : option A) l Q g :
  (∀ x g', o = Some x → cinv g' → env Unclaimed g g' → Q (l, x) g') → quiet (w_opt o l) Q g.
Proof. intros HQ. apply quiet_read. intros s Hs. apply read_opt; [done|]. intros x Ex g2 Hg2 He2. by apply HQ. Qed.

(** What one deletion for [raw] leaves: the entry is gone, and was tried because
    [raw] was not marked; or [raw] is marked. *)
Record tried (key raw : bytes) (l l' : wstate ()) (g : gstate S) : Prop := {
  tr_failed : failed l' = failed l ∨ failed l' = raw;
  tr_gone : view g !! key = None ∧ (failed l = raw → raw = []) ∨ failed l' = raw;
}.

Lemma isSkipped_failed raw (l : wstate ()) : isSkippedRawKey raw l = true → failed l = raw.
Proof. unfold isSkippedRawKey. destruct (failed l); [done|]. by intros ?%bytes_eqb_spec. Qed.

Lemma isSkipped_not_failed raw (l : wstate ()) : isSkippedRawKey raw l = false → failed l = raw → raw = [].
Proof.
  unfold isSkippedRawKey. intros E <-. destruct (failed l); [done|]. by rewrite bytes_eqb_refl in E.
Qed.

(** [compactKey] of a version. *)
Lemma quiet_compactKey k r raw l Q g :
  cinv g →
  (∀ g', env Unclaimed g g' → (failed l = raw → raw = []) → 0 < r <= g_floor g' ∧
     (lasting k → ∀ v, is_latest (g_hist g') k (g_floor g') r v →
        is_tombstone v = true ∧ ∀ p, 0 < p <= g_floor g' → p ≠ r → obj (view g') k p = None)) →
  (∀ e l' g', env Unclaimed g g' → tried (EncodeObjectKey k r) raw l l' g' → Q (l', e) g') →
  quiet (compactKey_p (EncodeObjectKey k r) raw l) Q g.
Proof.
  intros Hg Hdel HQ. unfold compactKey_p, compact_with_p. apply quiet_w_bind. simpl.
  destruct (isSkippedRawKey raw l) eqn:Esk.
  { apply HQ; [by apply env_refl|]. apply isSkipped_failed in Esk. split; auto. }
  pose proof (isSkipped_not_failed _ _ Esk) as Hraw. apply quiet_w_bind. unfold w_call.
  apply quiet_step. intros g1 He1 Hroom1. specialize (Hdel g1 He1 Hraw). destruct Hdel as [Hr Hlast].
  assert (cinv g1) as Hg1 by apply He1. apply wp_wlp, wp_on_kv. eapply wp_mono; [apply kv_del_spec, Hg1|].
  intros e s' [Hkv Hd]. change (kv_view (b_store g1)) with (view g1) in Hd.
  assert (∀ e l', guar Unclaimed Unclaimed g1 (upd g1 (put_store s' g1)) →
    tried (EncodeObjectKey k r) raw l l' (upd g1 (put_store s' g1)) → Q (l', e) (upd g1 (put_store s' g1))) as HQ'.
  { intros e' l' Hgu Ht. apply HQ; [|done]. eapply env_trans; [exact He1 | apply Hgu]. }
  assert (kv_view s' = base.delete (EncodeObjectKey k r) (view g1) →
    guar Unclaimed Unclaimed g1 (upd g1 (put_store s' g1)) ∧
    view (put_store s' g1) !! EncodeObjectKey k r = None) as Hgone.
  { intros Ev. split; [by eapply guar_delete_version|]. change (view (put_store s' g1)) with (kv_view s').
    rewrite Ev. apply lookup_delete_eq. }
  unfold del_post in Hd. destruct e as [e|]; simpl.
  - destruct Hd as [Hcas Hd]. assert (updateSkippedRawKey raw e l = w_set_failed raw l) as ->
      by (unfold updateSkippedRawKey; by rewrite Hcas).
    assert (guar Unclaimed Unclaimed g1 (upd g1 (put_store s' g1))) as Hgu
      by (destruct Hd as [Ev|[_ Ev]]; [by apply guar_store | by apply Hgone]).
    split; [done|]. apply HQ'; [done|]. split; auto.
  - destruct (Hgone Hd) as [Hgu Hnone]. split; [done|]. apply HQ'; [done|]. split; auto.
Qed.

(** [compactCurrent] of a record. *)
Lemma quiet_compactCurrent it k q u raw l Q g :
  cinv g → valid_key k → it_key it = EncodeRevisionKey k → it_val it = record_of q u → is_uint64 q →
  q <= g_floor g → (lasting k → is_tombstone u = true) →
  (∀ e l' g', env Unclaimed g g' → failed l' = failed l ∨ failed l' = raw → Q (l', e) g') →
  quiet (compactCurrent_p it raw l) Q g.
Proof.
  intros Hg Hk Ekey Eval Hq HqF Hdead HQ. unfold compactCurrent_p, compact_with_p. apply quiet_w_bind. simpl.
  destruct (isSkippedRawKey raw l); [apply HQ; [by apply env_refl | by left]|].
  apply quiet_w_bind. unfold w_call. apply quiet_step. intros g1 He1 Hroom1.
  assert (cinv g1) as Hg1 by apply He1. apply wp_wlp, wp_on_kv. eapply wp_mono; [apply kv_del_current_spec, Hg1|].
  intros e s' [Hkv Hd]. change (kv_view (b_store g1)) with (view g1) in Hd. pose proof (en_floor _ _ _ He1).
  assert (kv_view s' = base.delete (it_key it) (view g1) ∧
    content (default None (view g1 !! it_key it)) = content (it_val it) →
    guar Unclaimed Unclaimed g1 (upd g1 (put_store s' g1))) as Hgone.
  { intros [Ev Ec]. rewrite Ekey in *. eapply (guar_delete_record g1 s' k (it_val it) q u); try done. lia. }
  assert (guar Unclaimed Unclaimed g1 (upd g1 (put_store s' g1))) as Hgu.
  { unfold del_current_post in Hd. destruct e as [e|]; [|by apply Hgone].
    destruct Hd as [Ev|(_ & Ev & Ec)]; [by apply guar_store | by apply Hgone]. }
  assert (env Unclaimed g (upd g1 (put_store s' g1))) as He by (eapply env_trans; [exact He1 | apply Hgu]).
  destruct e as [e|]; simpl; (split; [done|]); apply HQ; try done; [|by left].
  unfold updateSkippedRawKey. destruct (negb _); auto.
Qed.

(** * The loop of a worker *)

Section worker.
Context (c : workerConfig).
Local Abbreviation R := (w_revision c).
Context (Hcompact : w_compact c = true) (HR : is_uint64 R) (Htomb : w_tombstone c = tombStoneBytes).

(** The value the worker saw: a version that was written, or a record. *)
Definition seen (k : bytes) (r : Z) (val : slice) (g : gstate S) : Prop :=
  valid_key k ∧
  if r =? 0 then ∃ q u, val = record_of q u ∧ 0 < q <= max_uint64
  else obj (g_hist g) k r = Some val.

(** Before an item: a version that is still there and not ahead is the previous one,
    or the deletion of a version of its key failed, or its key is behind. *)
Record winv (rest : list kvitem) (v : loopVars) (l : wstate ()) (g : gstate S) : Prop := {
  wi_inv : cinv g;
  wi_floor : R <= g_floor g ∧ timeoutRevision c <= g_floor g;
  wi_seen it k r : it ∈ rest → it_key it = EncodeObjectKey k r → is_uint64 r → seen k r (it_val it) g;
  wi_lower k r :
    lasting (S := S) k → 0 < r <= R → is_Some (obj (view g) k r) →
    has_item k r rest ∨ (∀ r', is_uint64 r' → ¬ has_item k r' rest) ∨
    k = prevUserKey v ∧ (r = prevRevision v ∨ failed l = k);
  wi_prev k r :
    prevUserKey v ≠ [] ∨ 0 < prevRevision v → is_uint64 r → has_item k r rest →
    ver_lt (lv_prev v) (k, r, None);
  wi_prevR : 0 <= prevRevision v <= R;
}.

Lemma lasting_valid k : lasting (S := S) k → valid_key k.
Proof. by intros [? _]. Qed.

Lemma lasting_nonempty k : lasting (S := S) k → k ≠ [].
Proof. by intros (_ & ? & _). Qed.

(** A version at or below the floor that is there was there before. *)
Lemma alive_env g g' k r :
  cinv g → env Unclaimed g g' → valid_key k → 0 < r <= g_floor g →
  is_Some (obj (view g') k r) → is_Some (obj (view g) k r).
Proof.
  intros Hg He Hk Hr [v Hv]. exists v. pose proof (ci_floor _ Hg). eapply (en_shrinks _ _ _ He); [done | lia | done].
Qed.

Lemma seen_env k r val g g' : is_uint64 r → env Unclaimed g g' → seen k r val g → seen k r val g'.
Proof.
  intros Hr He [Hk Hs]. split; [done|]. destruct (Z.eqb_spec r 0); [done|].
  apply (proj1 (en_grows _ _ _ He k Hk)); [|done]. unfold is_uint64, two64, max_uint64 in *. lia.
Qed.

Lemma winv_env rest v l g g' : env Unclaimed g g' → winv rest v l g → winv rest v l g'.
Proof using HR.
  intros He [Hg HF Hs Hl Hp HpR]. pose proof (en_floor _ _ _ He). split; try done.
  - apply He.
  - lia.
  - intros it k r Hit Ek Hr. eapply seen_env; [done | exact He | by eapply Hs].
  - intros k r Hk Hr Hin. apply (Hl k r Hk Hr). eapply alive_env; try done; [by apply lasting_valid | lia].
Qed.

Lemma rstable_winv rest v : rstable (λ l g, winv rest v l g).
Proof using HR. intros l g g' Hw He. by eapply winv_env. Qed.

(** One item [it], at version [r] of [k], with [rest] ahead of it. *)
Section item.
Context (it : kvitem) (rest : list kvitem) (k : bytes) (r : Z).
Context (Ekey : it_key it = EncodeObjectKey k r) (Hr : is_uint64 r) (Hk : valid_key k)
        (Hsorted : ∀ it', it' ∈ rest → bytes_lt (it_key it) (it_key it'))
        (Hvalid : ∀ it' k' r', it' ∈ rest → it_key it' = EncodeObjectKey k' r' → is_uint64 r' → valid_key k').

Local Abbreviation above := (rest_above it rest k r Ekey Hr Hk Hsorted Hvalid).

Lemma here : has_item k r (it :: rest).
Proof using Ekey. by apply has_item_it. Qed.

(** A previous key other than this one has no items ahead. *)
Lemma passed v l g k' :
  winv (it :: rest) v l g → k' = prevUserKey v → k' ≠ [] → k' ≠ k →
  ∀ r', is_uint64 r' → ¬ has_item k' r' rest.
Proof using Ekey Hr Hk Hsorted Hvalid.
  intros Hw -> Hne Hk' r' Hr' Hi.
  destruct (wi_prev _ _ _ _ Hw k r (or_introl Hne) Hr here) as [Hlt|[? _]]; [|done]. simpl in Hlt.
  destruct (above _ _ Hr' Hi) as [Hlt'|[? _]]; [|congruence].
  apply (bytes_lt_irrefl k). by etrans.
Qed.

Lemma not_ahead k' r' : is_uint64 r' → ¬ has_item k' r' (it :: rest) → ¬ has_item k' r' rest.
Proof. intros _ Hn (x & Hx & E). apply Hn. exists x. split; [by right | done]. Qed.

(** Moving on without remembering the item. *)
Lemma winv_skip v v' l l' g :
  winv (it :: rest) v l g → failed l' = failed l ∨ failed l' = k → ¬ (lasting (S := S) k ∧ 0 < r <= R) →
  lv_prev v' = lv_prev v → winv rest v' l' g.
Proof using Ekey Hr Hk Hsorted Hvalid HR.
  intros Hw Hf Hnot Hv. injection Hv as Ek Er _. split; try apply Hw.
  - intros x k' r' Hx. apply Hw. by right.
  - intros k' r' Hp Hr' Hin. assert (is_uint64 r') by (unfold is_uint64 in *; lia). rewrite Ek, Er.
    destruct (wi_lower _ _ _ _ Hw k' r' Hp Hr' Hin) as [Hi|[Hi|[Ep Hi]]].
    + apply (has_item_cons it rest k r Ekey Hr Hk) in Hi as [[-> ->]|Hi]; [naive_solver | by left | done].
    + right; left. intros q Hq. apply not_ahead; [done | by apply Hi].
    + destruct (decide (k' = k)) as [->|Hne].
      * right; right. split; [done|]. destruct Hi as [|Hi]; [by left|]. right. destruct Hf; congruence.
      * right; left. eapply passed; try done. by apply lasting_nonempty.
  - intros k' r' Hne Hr' (x & Hx & E).
    assert (ver_lt (lv_prev v) (k', r', None)) as Hlt.
    { apply (wi_prev _ _ _ _ Hw); [by rewrite <-Ek, <-Er | done|]. exists x. split; [by right | done]. }
    unfold ver_lt, lv_prev in *; simpl in *. by rewrite Ek, Er.
  - rewrite Er. apply Hw.
Qed.

(** The versions of [k] below [r] are gone, or one could not be deleted. *)
Definition cleared (l : wstate ()) (g : gstate S) : Prop :=
  ∀ r', lasting (S := S) k → 0 < r' < r → is_Some (obj (view g) k r') → failed l = k.

Lemma cleared_env l g g' : cinv g → r <= g_floor g → env Unclaimed g g' → cleared l g → cleared l g'.
Proof using Hr Hk.
  intros Hg HF He Hc r' Hl Hr' Hin. apply (Hc r' Hl Hr'). eapply alive_env; try done. lia.
Qed.

(** Moving on with the item as the previous one. *)
Lemma winv_next v v' l l' g :
  winv (it :: rest) v l g → failed l' = failed l ∨ failed l' = k → r <= R → cleared l' g →
  prevUserKey v' = k → prevRevision v' = r → winv rest v' l' g.
Proof using Ekey Hr Hk Hsorted Hvalid HR.
  intros Hw Hf HrR Hc Ek Er. split; try apply Hw.
  - intros x k' r' Hx. apply Hw. by right.
  - intros k' r' Hp Hr' Hin. assert (is_uint64 r') by (unfold is_uint64 in *; lia). rewrite Ek, Er.
    destruct (wi_lower _ _ _ _ Hw k' r' Hp Hr' Hin) as [Hi|[Hi|[Ep Hi]]].
    + apply (has_item_cons it rest k r Ekey Hr Hk) in Hi as [[-> ->]|Hi]; [auto | by left | done].
    + destruct (decide (k' = k)) as [->|Hne]; [by destruct (Hi r Hr here)|].
      right; left. intros q Hq. apply not_ahead; [done | by apply Hi].
    + destruct (decide (k' = k)) as [->|Hne].
      * right; right. split; [done|]. right. destruct Hi as [->|Hi]; [|destruct Hf; congruence].
        apply (Hc (prevRevision v) Hp); [|done]. split; [lia|].
        destruct (wi_prev _ _ _ _ Hw k r) as [Hlt|[_ ?]]; simpl in *; try done.
        -- left. rewrite <-Ep. by apply lasting_nonempty.
        -- apply here.
        -- rewrite <-Ep in Hlt. by apply bytes_lt_irrefl in Hlt.
      * right; left. eapply passed; try done. by apply lasting_nonempty.
  - intros k' r' _ Hr' Hi. unfold ver_lt, lv_prev; simpl. rewrite Ek, Er. by apply above.
  - rewrite Er. unfold is_uint64 in Hr. lia.
Qed.

(** An alive version of [k] below the item is the previous one, or marked. *)
Lemma below_item v l g r' :
  winv (it :: rest) v l g → r <= R → lasting (S := S) k → 0 < r' < r → is_Some (obj (view g) k r') →
  k = prevUserKey v ∧ (r' = prevRevision v ∨ failed l = k).
Proof using Ekey Hr Hk Hsorted Hvalid HR.
  intros Hw HrR Hl Hr' Hin. assert (is_uint64 r') as Hu by (unfold is_uint64 in *; lia).
  destruct (wi_lower _ _ _ _ Hw k r' Hl) as [Hi|[Hi|?]]; [lia | done | | | done].
  - apply (has_item_cons it rest k r Ekey Hr Hk) in Hi as [[_ ->]|Hi]; [lia| |done].
    apply above in Hi as [Hlt|[_ ?]]; [|lia|done]. by apply bytes_lt_irrefl in Hlt.
  - by destruct (Hi r Hr here).
Qed.

(** What the worker saw is in the history. *)
Lemma item_seen v l g : winv (it :: rest) v l g → seen k r (it_val it) g.
Proof using Ekey Hr. intros Hw. apply (wi_seen _ _ _ _ Hw it k r); [left | done | done]. Qed.

Lemma quiet_compactIfExpired v v' l g :
  winv (it :: rest) v l g → lv_prev v' = lv_prev v →
  quiet (compactIfExpired_p c it k r (it_val it) l)
    (λ x g', if x.2.1 then winv rest v' x.1 g' else winv (it :: rest) v x.1 g') g.
Proof using Ekey Hr Hk Hsorted Hvalid HR.
  intros Hw Hv. assert (cinv g) as Hg by apply Hw. unfold compactIfExpired_p.
  destruct (kv_support_ttl || (timeoutRevision c =? 0)) eqn:Et; [done|].
  apply orb_false_iff in Et as [Ettl Et].
  destruct (contains k (str "/events/")) eqn:Eev; [|done].
  assert (¬ lasting (S := S) k) as Hnl by (intros (_ & _ & [?|?]); congruence).
  assert (∀ l' g', env Unclaimed g g' → failed l' = failed l ∨ failed l' = k → winv rest v' l' g') as Hskip.
  { intros l' g' He Hf. eapply (winv_skip v v' l l' g'); [by eapply winv_env | done | naive_solver | done]. }
  pose proof (wi_floor _ _ _ _ Hw) as [_ HF]. destruct (item_seen _ _ _ Hw) as [_ Hseen].
  destruct (Z.eqb_spec r 0) as [E0|E0].
  - destruct Hseen as (q & u & Eval & Hq). apply quiet_w_bind, quiet_w_opt. intros rev g1 Erev Hg1 He1. simpl.
    rewrite Eval, Uint64_record in Erev by by apply u64_bounds. injection Erev as <-.
    destruct (Z.leb_spec q (timeoutRevision c)) as [Hle|]; [|by eapply winv_env].
    apply quiet_w_bind. pose proof (en_floor _ _ _ He1).
    apply (quiet_compactCurrent it k q u); try done; [by rewrite Ekey, E0 | by apply u64_bounds | lia|].
    intros e l' g' He Hf. apply Hskip; [by eapply env_trans | done].
  - destruct (Z.leb_spec r (timeoutRevision c)) as [Hle|]; [|done]. apply quiet_w_bind. rewrite Ekey.
    apply quiet_compactKey; [done| |].
    + intros g' He _. pose proof (en_floor _ _ _ He). split; [unfold is_uint64 in *; lia | done].
    + intros e l' g' He [Hf _]. by apply Hskip.
Qed.

(** Between the two deletions of an item. *)
Definition between (v : loopVars) (l : wstate ()) (l' : wstate ()) (g : gstate S) : Prop :=
  winv (it :: rest) v l g ∧ (failed l' = failed l ∨ failed l' = k) ∧ cleared l' g.

Lemma between_env v l l' g g' : r <= R → env Unclaimed g g' → between v l l' g → between v l l' g'.
Proof using Hr Hk HR.
  intros HrR He (Hw & Hf & Hc). split_and!; [by eapply winv_env | done|].
  pose proof (wi_floor _ _ _ _ Hw) as [? _]. eapply cleared_env; [apply Hw | lia | exact He | done].
Qed.

(** The previous version is deleted when this one supersedes it. *)
Lemma quiet_run_prev v l g :
  winv (it :: rest) v l g → r <= R →
  quiet (run_prev_p c k v l) (λ x g', lv_prev x.2 = lv_prev v ∧ between v l x.1 g') g.
Proof using Ekey Hr Hk Hsorted Hvalid HR Hcompact.
  intros Hw HrR. assert (cinv g) as Hg by apply Hw. unfold run_prev_p.
  assert (∀ l', failed l' = failed l → (k = prevUserKey v → prevRevision v <= 0) → between v l l' g) as Hstay.
  { intros l' Hf Hprev. split; [done|]. split; [by left|]. intros r' Hl Hr' Hin.
    destruct (below_item v l g r' Hw HrR Hl Hr' Hin) as [Ek [E|?]]; [|congruence].
    specialize (Hprev Ek). lia. }
  destruct (bytes_eqb k (prevUserKey v)) eqn:Ek; cbn [negb].
  2:{ apply bytes_eqb_false in Ek. destruct (prev_live c v); (split; [done|]); by apply Hstay. }
  apply bytes_eqb_spec in Ek. rewrite Hcompact. cbn [andb].
  destruct (Z.ltb_spec 0 (prevRevision v)) as [Hp|Hp]; [|split; [done|]; by apply Hstay].
  assert (prevRevision v < r) as Hlt.
  { destruct (wi_prev _ _ _ _ Hw k r (or_intror Hp) Hr here) as [Hl|[_ ?]]; simpl in *; [|done].
    rewrite <-Ek in Hl. by apply bytes_lt_irrefl in Hl. }
  rewrite <-Ek. apply quiet_w_bind, quiet_compactKey; [done| |].
  - intros g' He _. assert (winv (it :: rest) v l g') as Hw' by by eapply winv_env.
    pose proof (wi_floor _ _ _ _ Hw') as [HF _]. split; [lia|]. intros _ w (_ & _ & Hmx).
    destruct (item_seen _ _ _ Hw') as [_ Hseen]. destruct (Z.eqb_spec r 0); [lia|].
    specialize (Hmx r (it_val it) Hseen ltac:(lia)). lia.
  - intros e l' g' He [Hf Hgone]. assert (winv (it :: rest) v l g') as Hw' by by eapply winv_env.
    split; [done|]. split; [done|]. split; [done|]. intros r' Hl Hr' Hin.
    destruct (below_item v l g' r' Hw' HrR Hl Hr' Hin) as [_ Hwhy].
    destruct Hgone as [[Hnone Hraw]|?]; [|done]. destruct Hwhy as [->|Hfl].
    + unfold obj in Hin. simpl in Hin. rewrite Hnone in Hin. by destruct Hin.
    + by destruct (lasting_nonempty _ Hl (Hraw Hfl)).
Qed.

(** A tombstone is deleted once nothing is left below it; the record of a deleted
    key, if it is not above the compact revision. *)
Lemma quiet_run_compact v l l1 g :
  between v l l1 g → r <= R →
  quiet (run_compact_p c it k r l1) (λ x g', between v l x.1 g' ∧ (x.2 = true → r = 0)) g.
Proof using Ekey Hr Hk Hsorted Hvalid HR Hcompact Htomb.
  intros Hb HrR. assert (cinv g) as Hg by apply Hb. unfold run_compact_p. rewrite Hcompact, Htomb. cbn [andb].
  destruct (item_seen _ _ _ (proj1 Hb)) as [_ Hseen]. apply quiet_w_bind.
  apply quiet_mono with (Q := λ x g', between v l x.1 g').
  - destruct (bytes_eqb (content (it_val it)) tombStoneBytes) eqn:Et; [|done].
    apply quiet_w_bind. rewrite Ekey. apply quiet_compactKey; [done| |].
    + intros g' He Hraw. destruct (between_env v l l1 g g' HrR He Hb) as (Hw' & _ & Hc').
      pose proof (wi_floor _ _ _ _ Hw') as [HF _].
      destruct (Z.eqb_spec r 0) as [E0|E0].
      { destruct Hseen as (q & u & Eval & _). rewrite Eval, record_not_tombstone in Et. done. }
      split; [unfold is_uint64 in *; lia|]. intros Hl w (Hw1 & _ & Hmx).
      destruct (item_seen _ _ _ Hw') as [_ Hseen']. destruct (Z.eqb_spec r 0); [done|].
      rewrite Hseen' in Hw1. injection Hw1 as <-. split; [done|]. intros p Hp Hne.
      destruct (obj (view g') k p) as [w|] eqn:Ep; [|done]. exfalso.
      assert (cinv g') as Hg' by apply Hw'. destruct (Z.lt_ge_cases p r) as [Hlt|Hge].
      * assert (failed l1 = k) as Hf by (apply (Hc' p Hl); [lia | by rewrite Ep]).
        by destruct (lasting_nonempty _ Hl (Hraw Hf)).
      * apply (ke_sub _ _ _ _ (ci_kept _ Hg')) in Ep; [|done|].
        -- specialize (Hmx p w Ep Hp). lia.
        -- pose proof (floor_max _ Hg'). lia.
    + intros e l' g' He [Hf Hgone]. destruct (between_env v l l1 g g' HrR He Hb) as (Hw' & Hf1 & Hc').
      split; [done|]. split; [by eapply mark_trans|].
      intros r' Hl Hr' Hin. pose proof (Hc' r' Hl Hr' Hin). simpl. destruct Hf; congruence.
  - intros [l2 []] g2 Hb2. simpl in Hb2 |- *. assert (cinv g2) as Hg2 by apply Hb2.
    destruct (Z.eqb_spec r 0) as [E0|E0]; cbn [andb]; [|done]. case_bool_decide as El; [|done].
    destruct Hseen as (q & u & Eval & Hq). assert (is_uint64 q) as Hqu by by apply u64_bounds.
    apply quiet_w_bind, quiet_w_opt. intros objRev g3 Erev Hg3 He3. simpl.
    rewrite Eval, Uint64_record in Erev by done. injection Erev as <-.
    assert (between v l l2 g3) as Hb3 by by eapply between_env.
    destruct (Z.ltb_spec R q) as [|Hle]; [done|]. apply quiet_w_bind.
    pose proof (wi_floor _ _ _ _ (proj1 Hb3)) as [HF _].
    apply (quiet_compactCurrent it k q u); try done.
    + by rewrite Ekey, E0.
    + lia.
    + intros _. apply (record_length q). by rewrite <-Eval.
    + intros e l' g' He Hf. destruct (between_env v l l2 g3 g' HrR He Hb3) as (Hw' & Hf2 & Hc').
      split; [|done]. split; [done|]. split; [by eapply mark_trans|].
      intros r' Hl Hr' Hin. lia.
Qed.

Lemma quiet_run_item v l g :
  winv (it :: rest) v l g → quiet (run_item_p c it v l) (λ x g', winv rest x.2 x.1 g') g.
Proof using Ekey Hr Hk Hsorted Hvalid HR Hcompact Htomb.
  intros Hw. unfold run_item_p. apply quiet_w_bind, quiet_w_opt. intros [[k1 r1] derr] g1 Ed Hg1 He1.
  rewrite Ekey, Decode_Encode in Ed by done. injection Ed as <- <- <-. simpl.
  assert (winv (it :: rest) v l g1) as Hw1 by by eapply winv_env.
  apply quiet_w_bind. eapply quiet_mono; [by apply (quiet_compactIfExpired v (set_lv_err None v))|].
  intros [l2 [expired e]] g2 Hexp. simpl in Hexp |- *. destruct expired; [done|].
  assert (winv (it :: rest) (set_lv_err None v) l2 g2) as Hw2 by (by destruct Hexp; split).
  destruct (Z.ltb_spec R r) as [HrR|HrR].
  { eapply (winv_skip v _ l2 l2); [done | by left | lia | done]. }
  apply quiet_w_bind. eapply quiet_mono; [by apply quiet_run_prev|]. intros [l3 v1] g3 [Hv1 Hb3].
  apply quiet_w_bind. eapply quiet_mono; [by eapply quiet_run_compact|].
  intros [l4 skip] g4 [(Hw4 & Hf4 & Hc4) Hskip]. simpl in *. destruct skip; simpl.
  - eapply winv_skip; [exact Hw4 | done | rewrite Hskip by done; lia | done].
  - by eapply winv_next.
Qed.
End item.

(** An item outside the encoded keys is passed over. *)
Lemma quiet_run_other it rest v l g :
  take 4 (it_key it) ≠ magicBytes → winv (it :: rest) v l g →
  quiet (run_item_p c it v l) (λ x g', winv rest x.2 x.1 g') g.
Proof using HR.
  intros Hmg Hw. unfold run_item_p. apply quiet_w_bind, quiet_w_opt. intros [[k1 r1] derr] g1 Ed Hg1 He1. simpl.
  destruct derr as [e|]; [|apply Decode_sound in Ed as [Ed _]; rewrite Ed in Hmg; by destruct Hmg].
  destruct (winv_env _ _ _ _ _ He1 Hw) as [Hi HF Hs Hl Hp HpR].
  assert (∀ k r, has_item k r (it :: rest) → has_item k r rest) as Hin.
  { intros k' r' (x & [->|Hx]%elem_of_cons & E); [|by exists x]. rewrite E in Hmg. by destruct Hmg. }
  assert (∀ k r, has_item k r rest → has_item k r (it :: rest)) as Hin'.
  { intros k' r' (x & Hx & E). exists x. split; [by right | done]. }
  split; simpl; try done.
  - intros x k r Hx. apply Hs. by right.
  - intros k' r' Hk' Hr' Halive. destruct (Hl k' r' Hk' Hr' Halive) as [?|[?|?]]; naive_solver.
  - intros k r Hne Hr' Hx. apply Hp; auto.
Qed.

(** Variables of the worker that the invariant does not mention. *)
Lemma winv_vars rest v v' l l' g :
  lv_prev v' = lv_prev v → failed l' = failed l → winv rest v l g → winv rest v' l' g.
Proof.
  intros Hv Hf [Hi HF Hs Hl Hp HpR]. injection Hv as Ek Er _. split; rewrite ?Ek, ?Er, ?Hf; try done.
  intros k r Hne Hr Hx. specialize (Hp k r Hne Hr Hx). unfold ver_lt, lv_prev in *. simpl in *. by rewrite Ek, Er.
Qed.

Lemma poll_failed l : failed (poll l).1 = failed l.
Proof. unfold poll. by destruct (w_ctx l). Qed.

Lemma quiet_run_loop items end_ rest v l g :
  items `prefix_of` rest → sorted_kvs (item_kv <$> rest) → Forall (λ it, internal_ok (it_key it)) rest →
  winv rest v l g → quiet (run_loop_p c items end_ v l) (λ _ g', cinv g') g.
Proof using HR Hcompact Htomb.
  revert rest v l g. induction items as [|it items IH]; intros rest v l g Hpre Hsort Hok Hw;
    cbn [run_loop_p]; apply quiet_w_bind; simpl;
    (destruct (needMore (w_receiver l)); [|apply Hw]); cbn [negb]; apply quiet_w_bind; cbn [quiet];
    (destruct (poll l) as [l1 d] eqn:Ep); simpl; (destruct d; [apply Hw|]); [apply Hw|].
  assert (winv rest v l1 g) as Hw1
    by (eapply winv_vars; [done| |exact Hw]; rewrite <-(poll_failed l); by rewrite Ep).
  destruct Hpre as [k ->]. simpl in Hw1, Hsort, Hok.
  inversion Hok as [|? ? Hit Hok']; subst. apply StronglySorted_inv in Hsort as [Hsort Hlt].
  apply quiet_w_bind. eapply quiet_mono with (Q := λ x g', winv (items ++ k) x.2 x.1 g').
  - destruct Hit as [(uk & r & Huk & Hr & Ek)|[_ Hmg]]; [|by apply quiet_run_other].
    apply (quiet_run_item it (items ++ k) uk r); try done.
    + intros it' Hit'. rewrite Forall_forall in Hlt. apply (Hlt (item_kv it')). by apply list_elem_of_fmap_2.
    + intros it' k' r' Hit' E' Hr'. rewrite Forall_forall in Hok'.
      destruct (Hok' it' Hit') as [(k1 & r1 & ? & ? & E1)|[_ Hmg]].
      * rewrite E1 in E'. by apply EncodeObjectKey_inj in E' as [<- _].
      * rewrite E' in Hmg. by destruct Hmg.
  - intros [l2 v2] g2 Hw2. simpl in *. apply (IH (items ++ k)); try done. by eexists.
Qed.

Context (Ha : aligned (Start (partition c))) (Hb : aligned (End (partition c)))
        (Hab : bytes_le (Start (partition c)) (End (partition c))).

(** The state in which the worker's iterator is taken. *)
Lemma winv_start full l g :
  cinv g → R <= g_floor g → timeoutRevision c <= g_floor g →
  item_kv <$> full = asc_range (view g) (Start (partition c)) (End (partition c)) →
  winv full (mkLoopVars [] 0 None 0 None) l g.
Proof using HR Ha Hb.
  intros Hg HF Ht Hfull.
  assert (∀ it, it ∈ full → item_kv it ∈ asc_range (view g) (Start (partition c)) (End (partition c))) as Hin
    by (intros it Hit; rewrite <-Hfull; by apply list_elem_of_fmap_2).
  split; simpl; try done.
  - intros it k r Hit Ek Hr. specialize (Hin it Hit). unfold item_kv in Hin. rewrite Ek in Hin.
    apply elem_of_asc_range in Hin as (Hv & _).
    assert (valid_key k) as Hk.
    { destruct (ci_ok _ Hg _ _ Hv) as [(k1 & r1 & ? & ? & E1)|[_ Hmg]]; [|by destruct Hmg].
      by apply EncodeObjectKey_inj in E1 as [-> _]. }
    split; [done|]. destruct (Z.eqb_spec r 0) as [->|Hne].
    + destruct (ci_key _ Hg k Hk) as [E _ _|q u E Hl]; unfold EncodeRevisionKey in E; rewrite E in Hv; [done|].
      injection Hv as <-. exists q, u. split; [done|]. by destruct Hl as (_ & ? & _).
    + apply (ke_sub _ _ _ _ (ci_kept _ Hg)); [done | unfold is_uint64, two64, max_uint64 in *; lia | done].
  - intros k r Hl Hr [v Hv]. pose proof (lasting_valid _ Hl) as Hk.
    assert (is_uint64 r) as Hu by (unfold is_uint64 in *; lia).
    destruct (decide (bytes_le (Start (partition c)) (EncodeRevisionKey k) ∧
                      bytes_lt (EncodeRevisionKey k) (End (partition c)))) as [Hr'|Hout].
    + left. apply (aligned_range _ _ k r) in Hr'; try done.
      assert ((EncodeObjectKey k r, v) ∈ item_kv <$> full) as Hx by (rewrite Hfull; by apply elem_of_asc_range).
      apply list_elem_of_fmap in Hx as (it & [= E _] & Hit). by exists it.
    + right; left. intros q Hq (it & Hit & E). apply Hout.
      apply (aligned_range _ _ k q); try done. rewrite <-E.
      specialize (Hin it Hit). unfold item_kv in Hin. by apply elem_of_asc_range in Hin as (_ & ?).
  - intros k r [?|?]; [done | lia].
  - unfold is_uint64 in HR. lia.
Qed.

Lemma quiet_run_finish v l g Q : (∀ x, Q x g) → quiet (run_finish_p c v l) Q g.
Proof.
  intros HQ. unfold run_finish_p. destruct (negb _); [apply HQ|]. apply quiet_w_bind. cbn [quiet w_gets].
  apply quiet_w_bind. destruct (_ && _); apply HQ.
Qed.

(** An attempt of the worker. *)
Lemma quiet_run l g :
  cinv g → R <= g_floor g → timeoutRevision c <= g_floor g → quiet (run_p c l) (λ _ g', cinv g') g.
Proof using HR Hcompact Htomb Ha Hb Hab.
  intros Hg HF Ht. unfold run_p. apply quiet_w_bind. unfold w_call. apply quiet_bind, quiet_step.
  intros g1 He1 Hroom1. assert (cinv g1) as Hg1 by apply He1. apply wp_wlp, wp_on_kv.
  eapply wp_mono; [apply kv_iter_spec, Hg1|]. intros r s1 (Hkv1 & Hv1 & Hit).
  assert (guar Unclaimed Unclaimed g1 (upd g1 (put_store s1 g1))) as Hgu by by apply guar_store.
  split; [done|]. set (g2 := upd g1 (put_store s1 g1)) in *. simpl.
  assert (cinv g2) as Hg2 by apply Hgu. assert (view g2 = view g1) as Ev2 by done.
  destruct r as [e|it]; [done|]. destruct Hit as [_ Hit]. rewrite (proj2 (negb_true_iff _)) in Hit.
  2:{ apply not_true_is_false. rewrite bytes_ltb_spec. by apply bytes_not_lt. }
  destruct Hit as [Hpre _]. change (kv_view (b_store g1)) with (view g1) in Hpre. rewrite <-Ev2 in Hpre.
  destruct (full_items c (view g2) _ Hpre) as (full & Hpfull & Hfull & _).
  apply quiet_w_bind. cbn [quiet w_modify]. apply quiet_w_bind.
  eapply quiet_mono; [apply (quiet_run_loop _ _ full); try done|].
  - rewrite Hfull. apply asc_range_sorted.
  - eapply range_items_ok; [apply Hg2 | done].
  - pose proof (en_floor _ _ _ He1). apply winv_start; try done; simpl; lia.
  - intros [l3 [v|e]] g3 Hg3; [|done]. by apply quiet_run_finish.
Qed.

Lemma quiet_attempts_compact n l res g :
  cinv g → R <= g_floor g → timeoutRevision c <= g_floor g →
  quiet (attempts_p (run_p c) n l res) (λ _ g', cinv g') g.
Proof using HR Hcompact Htomb Ha Hb Hab.
  revert l res g. induction n as [|n IH]; intros l res g Hg HF Ht; [done|].
  cbn [attempts_p]. destruct (poll l) as [l1 d]. destruct d; [done|]. apply quiet_bind.
  eapply quiet_mono; [apply quiet_history; [done | by apply quiet_run]|].
  intros [l2 [cnt e]] g2 [Hg2 He2]. pose proof (en_floor _ _ _ He2).
  destruct e as [e|]; [|done]. apply IH; [done | lia | lia].
Qed.

Lemma quiet_worker_compact receiver ctx g :
  cinv g → R <= g_floor g → timeoutRevision c <= g_floor g →
  quiet (worker_p c receiver ctx) (λ _ g', cinv g') g.
Proof using HR Hcompact Htomb Ha Hb Hab.
  intros Hg HF Ht. unfold worker_p, attempt_p. rewrite Hcompact. apply quiet_bind.
  eapply quiet_mono; [by apply quiet_attempts_compact|]. by intros [[l res] e] g'.
Qed.
End worker.

(** * A compaction *)

(** A write of a key outside the encoded ones. *)
Lemma same_versions_insert m ik v :
  store_ok m → raw_ok m → (9 <= length ik)%nat → take 4 ik ≠ magicBytes → v ≠ None →
  same_versions m (<[ik := v]> m).
Proof.
  intros Hm Hraw Hlen Hmg Hv. split.
  - intros k w [[<- _]|[_ Hw]]%lookup_insert_Some; [by right | by eapply Hm].
  - intros k Hk [[_ E]|[_ Hw]]%lookup_insert_Some; [done | by eapply Hraw].
  - intros k r. apply lookup_insert_ne. intros ->. by destruct Hmg.
Qed.

(** A batch of one write of such a key. *)
Lemma step_raw op ik v g :
  cinv g → (9 <= length ik)%nat → take 4 ik ≠ magicBytes → v ≠ None → bop_pre op (view g) →
  (∀ m', bop_apply op (view g) = Some m' → m' = <[ik := v]> (view g)) →
  wlp (on_kv (kv_commit [op])) (λ _ b, guar Unclaimed Unclaimed g (upd g b)) g.
Proof.
  intros Hg Hlen Hmg Hv Hpre Happ. apply wp_wlp, wp_on_kv.
  eapply wp_mono; [apply kv_commit_spec; [apply Hg|]; done|].
  intros e s' [Hkv Hp]. change (kv_view (b_store g)) with (view g) in Hp.
  assert (batch_apply [op] (view g) = Some (kv_view s') → kv_view s' = <[ik := v]> (view g)) as Hb.
  { simpl. destruct (bop_apply op (view g)) eqn:E; [|done]. intros [= <-]. by apply Happ. }
  assert (kv_view s' = view g ∨ kv_view s' = <[ik := v]> (view g)) as Hview
    by (unfold commit_post in Hp; destruct e as [e|]; [destruct Hp as [|(_ & _ & ?)]|]; auto).
  apply guar_read; try done; try apply Hg. change (view (put_store s' g)) with (kv_view s').
  destruct Hview as [->| ->]; [by apply cinv_same|]. apply same_versions_insert; try done; apply Hg.
Qed.

(** The part of the scanner that remembers compactions. *)
Lemma guar_histories g l :
  cinv g → hist_ok (g_floor g) l →
  guar Unclaimed Unclaimed g (upd g (set_scanner (mkScanner (b_store g) l) g)).
Proof. intros Hg Hl. apply guar_read; try done; try apply Hg. by apply cinv_same. Qed.

Lemma timeout_walk_ok now ttl prev F l rev l' :
  timeout_walk now ttl prev l = (rev, l') → 0 <= prev <= F → hist_ok F l → 0 <= rev <= F ∧ hist_ok F l'.
Proof.
  revert prev. induction l as [|cr l IH]; simpl; intros prev E Hp Hl; [by injection E as <- <-|].
  inversion Hl; subst. destruct (_ <? ttl); [by injection E as <- <-|]. by eapply IH.
Qed.

Section scan.
Context `{!KvPartitions S} (cfg : Scanner.Config) (R : Z) (HR : is_uint64 R)
        (Htomb : Tombstone cfg = tombStoneBytes)
        (Hlen : (9 <= length (CompactKey cfg))%nat) (Hmg : take 4 (CompactKey cfg) ≠ magicBytes).
Local Abbreviation config ts timeout p := (mkWorkerConfig p ts R (Tombstone cfg) true timeout).

Lemma quiet_workers_compact ts timeout receiver ctx idx x y ps g :
  cover x y ps → aligned x → aligned y → cinv g → R <= g_floor g → timeout <= g_floor g →
  Forall2 (λ p Q, quiet p Q g ∧ rstable Q) (workers_p (λ p, config ts timeout p) receiver ctx idx ps)
    ((λ _ _ g', cinv g') <$> ps).
Proof using HR Htomb.
  intros Hc Hx Hy Hg HF Ht. revert x idx Hc Hx. induction ps as [|p ps IH]; intros x idx Hc Hx; [done|].
  destruct Hc as (Est & Hle & Hc). subst x. rewrite fmap_cons. cbn [workers_p].
  assert (aligned (End p)) as Hend by (destruct ps; [by rewrite Hc | apply Hc]).
  constructor.
  - split; [by apply (quiet_worker_compact (config ts timeout p)) | intros ? ? ? _ He; apply He].
  - destruct ps as [|q ps]; [constructor|]. by apply (IH (End p)); [apply Hc|].
Qed.

(** The age of the compactions that are remembered is looked up. *)
Lemma step_timeout now g :
  cinv g → wlp (on_scanner (getTimeoutRevision cfg now))
    (λ t b', 0 <= t <= g_floor g ∧ guar Unclaimed Unclaimed g (upd g b')) g.
Proof using.
  clear Hlen. intros Hg. pose proof (ci_floor _ Hg). unfold wlp, on_scanner, zoom, getTimeoutRevision.
  destruct kv_support_ttl.
  - split; [lia|]. assert (b_scanner g = mkScanner (b_store g) (compactHistories (b_scanner g))) as ->
      by (unfold b_store; by destruct (b_scanner g)).
    apply guar_histories; apply Hg || done.
  - destruct (timeout_walk now (TTL cfg) 0 (compactHistories (b_scanner g))) as [t l] eqn:Et.
    destruct (timeout_walk_ok _ _ _ (g_floor g) _ _ _ Et) as [Ht Hl]; [lia | apply Hg|].
    split; [done|]. by apply guar_histories.
Qed.

(** The workers and what comes after them. *)
Lemma quiet_finish ts t sched receiver ctx x y qs g :
  cover x y qs → aligned x → aligned y → cinv g → R <= g_floor g → t <= g_floor g →
  quiet (rs ← par sched (workers_p (λ p, config ts t p) receiver ctx 0 qs);
         match first_err ((λ r, r.1.1.2) <$> rs) with
         | Some e => mret (mkScanResult 0 (Some e) receiver ((λ r, r.2) <$> rs))
         | None =>
             merged ← call (lift_opt (merge_all receiver ((λ r, r.1.2) <$> rs)));
             mret (mkScanResult (int64 (foldr Z.add 0 ((λ r, r.1.1.1) <$> rs))) None merged
                     ((λ r, r.2 ++ (rcv_close r.1.2).2) <$> rs))
         end) (λ _ g', cinv g') g.
Proof using HR Htomb.
  intros Hc Hx Hy Hg HF Ht. apply quiet_bind. eapply quiet_mono.
  { apply quiet_history; [done|]. apply quiet_par; [done|].
    by apply (quiet_workers_compact ts t receiver ctx 0 x y). }
  intros rs g1 [_ He1]. destruct (first_err _); [apply He1|].
  apply quiet_read. intros s2 Hs2. apply read_opt; [done|]. by intros.
Qed.

Lemma quiet_scan_compact now sched ctx x y receiver g :
  internal_ok x → aligned x → aligned y → bytes_le x y → cinv g → R <= g_floor g →
  quiet (scan_p cfg now sched ctx x y R true receiver) (λ _ g', cinv g') g.
Proof using All.
  intros Hok Hx Hy Hxy Hg HF. unfold scan_p.
  apply quiet_read. intros s1 Hs1. eapply read_spec; [by apply kv_tso_spec|].
  intros [ts e] _ g2 Hg2 He2. destruct e as [e|]; [done|].
  unfold checkCompactRace. apply quiet_step. intros g3 He3 Hroom3.
  eapply wlp_mono; [apply (step_raw _ (CompactKey cfg) (Some (uint64ToBytes R)) g3); try done; [apply He3|]|].
  { simpl. by intros m' [= <-]. }
  intros e b3 Hgu3. split; [done|]. destruct e as [e|]; [apply Hgu3|].
  apply quiet_read. intros s5 Hs5. eapply read_spec; [by apply kv_partitions_spec|].
  intros [ps e] Hps g6 Hg6 He6. simpl in Hps. destruct e as [e|]; [done|].
  destruct Hps as (ps' & Hperm & Hchain).
  apply quiet_read. intros s7 Hs7. apply read_opt; [done|]. intros qs Eqs g8 Hg8 He8.
  destruct (adjust_cover x y ps' ps Hok Hx Hperm Hchain) as (qs' & Eqs' & Hcover).
  rewrite Eqs in Eqs'. injection Eqs' as <-.
  apply quiet_step. intros g9 He9 Hroom9. eapply wlp_mono; [apply step_timeout, He9|].
  intros t b10 [Ht Hgu]. split; [done|].
  pose proof (en_floor _ _ _ He2). pose proof (en_floor _ _ _ He3). pose proof (en_floor _ _ _ He6).
  pose proof (en_floor _ _ _ He8). pose proof (en_floor _ _ _ He9). simpl in *.
  apply (quiet_finish _ _ _ _ _ x y); try done; [apply Hgu | simpl; lia | simpl; lia].
Qed.

Lemma quiet_Compact now sched ctx x y g :
  internal_ok x → aligned x → aligned y → bytes_le x y → cinv g → R <= g_floor g →
  quiet (scanner_Compact_p cfg now sched ctx x y R) (λ _ g', cinv g') g.
Proof using All.
  intros Hok Hx Hy Hxy Hg HF. unfold scanner_Compact_p. apply quiet_step. intros g1 He1 Hroom1.
  assert (cinv g1) as Hg1 by apply He1. unfold wlp, on_scanner, zoom, logCompactHistory, modify.
  assert (R <= g_floor g1) as HF1 by (pose proof (en_floor _ _ _ He1); lia).
  assert (guar Unclaimed Unclaimed g1 (upd g1 (set_scanner (mkScanner (b_store g1)
    (push (mkCompactRecord R now) (compactHistories (b_scanner g1)))) g1))) as Hgu.
  { apply guar_histories; [done|]. unfold push. apply Forall_app. split; [apply Hg1|].
    constructor; [simpl; unfold is_uint64 in HR; lia | constructor]. }
  split; [exact Hgu|]. apply quiet_bind. eapply quiet_mono; [apply quiet_scan_compact; try done; apply Hgu|].
  by intros r g2 Hg2.
Qed.
End scan.

(** ** The backend's compaction *)

Section backend.
Context `{!KvPartitions S} (cfg : Backend.Config) (Hcfg : config_ok cfg) (R : Z) (HR : is_uint64 R).

Lemma quiet_compact_ranges now sched ctx i borders g :
  Forall border_ok borders → StronglySorted bytes_le borders → cinv g → R <= g_floor g →
  quiet (compact_ranges_p cfg now sched ctx R i borders) (λ _ g', cinv g') g.
Proof using All.
  remember (length borders) as n eqn:En. revert borders i g En.
  induction n as [n IH] using lt_wf_ind. intros borders i g En Hok Hsort Hg HF.
  destruct borders as [|s [|e borders]]; [done | | ].
  { intros g' He _. done. }
  cbn [compact_ranges_p]. inversion Hok as [|? ? [His Has] Hok1]; subst. inversion Hok1 as [|? ? [_ Hae] Hok2]; subst.
  apply StronglySorted_inv in Hsort as [Hsort Hs]. apply Forall_cons in Hs as [Hse _].
  apply StronglySorted_inv in Hsort as [Hsort _]. apply quiet_bind.
  eapply quiet_mono; [apply quiet_history; [done|]; apply (quiet_Compact (getScannerConfig cfg) R); try done;
    [apply ckey_length | apply Hcfg]|].
  intros [] g1 [Hg1 He1]. pose proof (en_floor _ _ _ He1).
  apply (IH (length borders)); try done; [simpl; lia | lia].
Qed.

(** The two steps of [setCompactRecord]. *)
Lemma quiet_setCompactRecord g :
  cinv g → quiet (setCompactRecord_p cfg R) (λ _ g', cinv g') g.
Proof using HR Hcfg.
  intros Hg. unfold setCompactRecord_p. pose proof (ckey_length cfg) as Hlen. pose proof (co_magic _ Hcfg) as Hmg.
  set (key := getCompactKey (Prefix cfg)) in *. set (new := Some (uint64ToBytes R)).
  assert (∀ op g1, cinv g1 → (op = PutIfNotExist key new 0 ∨ ∃ old, op = CAS key new old 0) →
    quiet (call (kv_commit [op])) (λ _ g', cinv g') g1) as Hcommit.
  { intros op g1 Hg1 Hop g2 He2 Hroom2. assert (cinv g2) as Hg2 by apply He2.
    assert (view g2 !! key ≠ Some None) as Hnil by by apply (ci_raw _ Hg2).
    eapply wlp_mono; [apply (step_raw op key new g2); try done|].
    - by destruct Hop as [->|[old ->]].
    - intros m'. destruct Hop as [->|[old ->]]; simpl; repeat case_match; try done; by intros [= <-].
    - intros e b Hgu. split; [done | apply Hgu]. }
  apply quiet_read. intros s1 Hs1. eapply read_spec; [by apply kv_get_spec|].
  intros [val e] _ g2 Hg2 _. destruct e as [ge|].
  - destruct (negb _); [done|]. apply Hcommit; auto.
  - destruct (0 <? slen val); [|apply Hcommit; auto].
    apply quiet_read. intros s3 Hs3. apply read_opt; [done|]. intros cr _ g4 Hg4 _.
    destruct (_ <? cr); [done|]. apply Hcommit; eauto.
Qed.

Lemma quiet_compact now sched ctx g :
  cinv g → R <= g_floor g → quiet (compact_p cfg now sched ctx R) (λ _ g', cinv g') g.
Proof using All.
  intros Hg HF. unfold compact_p. apply quiet_bind.
  eapply quiet_mono; [apply quiet_history; [done | by apply quiet_setCompactRecord]|].
  intros [e|] g1 [Hg1 He1]; [done|]. pose proof (en_floor _ _ _ He1). apply quiet_bind.
  destruct (compact_borders_ok cfg Hcfg) as (Hok & Hsort & _).
  eapply quiet_mono; [apply quiet_compact_ranges; try done; lia|]. by intros [] g2 Hg2.
Qed.
End backend.

(** The revision a compaction chooses is not above the read revision. *)
Definition chosen (R : Z) (g : gstate S) : Prop := 0 <= R <= committed g ∧ is_uint64 R.

Lemma chosen_stable : stable (λ R _ g, chosen R g).
Proof. intros R c g g' [Hr Hu] He. pose proof (en_commit _ _ _ He). split; [lia | done]. Qed.

Lemma head_revision g : cinv g → 0 <= MinRevision (asyncFifoRetry g).
Proof.
  intros Hg. unfold MinRevision. destruct (getHead (asyncFifoRetry g)) as [n|] eqn:En; [|done].
  unfold getHead in En. destruct (q_head _) as [h|]; [|done]. simpl in En. by apply (ci_queue _ Hg h).
Qed.

Lemma quiet_choose revision g : is_uint64 revision → cinv g → quiet (choose_p revision) chosen g.
Proof.
  intros Hrev Hg. unfold choose_p. apply quiet_revision. intros g1 Hg1 _ Hcu. apply quiet_step.
  intros g2 He2 Hroom2. unfold wlp, gets. rewrite upd_id. split; [apply guar_id; apply He2|].
  pose proof (head_revision g2 (en_inv _ _ _ He2)) as Hmin. pose proof (en_commit _ _ _ He2) as Hc.
  set (rev := if (revision =? 0) || (committed g1 <? revision) then committed g1 else revision).
  assert (0 <= rev <= committed g1) as Hr.
  { unfold rev, is_uint64 in *. destruct (Z.eqb_spec revision 0), (Z.ltb_spec (committed g1) revision); simpl; lia. }
  assert (∀ z, 0 <= z <= committed g1 → chosen z g2) as Hz.
  { intros z Hz. split; [lia|]. unfold is_uint64 in *. lia. }
  cbn [quiet]. destruct (Z.eqb_spec (MinRevision (asyncFifoRetry g2)) 0); cbn [negb]; apply Hz; [done|].
  unfold minUint64. destruct (Z.ltb_spec (MinRevision (asyncFifoRetry g2) - 1) rev); lia.
Qed.
End compact.
