(* ===== verification/ConcurrentPool.v ===== *)
(** The pool of interleaved requests, retries, range reads, compactions and the
    collector: its invariant, kept by every step. *)

From S2P Require Import Prelude GoMonad Prog Storage Coder Proto Tso Ring Queue Mvcc Creator Scanner.
From S2P Require Import ScanSpec Compaction Backend BackendSpec BackendReads Refinement RetrySpec.
From S2P Require Import WorkerProg ScanProg Concurrent History ConcurrentSpec ConcurrentQuiet ConcurrentReads.
From S2P Require Import ConcurrentCompact.

(** At most one position of a list has a given image. *)
Lemma NoDup_omap_lookup {A B} (l : list A) (f : A → option B) i j x y b :
  NoDup (omap f l) → l !! i = Some x → l !! j = Some y → f x = Some b → f y = Some b → i = j.
Proof.
  revert i j. induction l as [|a l IH]; intros i j Hn Hi Hj Hx Hy; [done|]. simpl in Hn.
  assert (∀ z n, l !! n = Some z → f z = Some b → b ∈ omap f l) as Hin.
  { intros z n Hz Hf. apply list_elem_of_omap. exists z. split; [by eapply list_elem_of_lookup_2 | done]. }
  destruct i as [|i], j as [|j]; simpl in Hi, Hj; [done|..].
  - injection Hi as ->. rewrite Hx in Hn. apply NoDup_cons in Hn as [Hn _]. exfalso. eauto.
  - injection Hj as ->. rewrite Hy in Hn. apply NoDup_cons in Hn as [Hn _]. exfalso. eauto.
  - f_equal. apply IH; try done. destruct (f a); [by apply NoDup_cons in Hn as [_ ?] | done].
Qed.

(** The greatest of non-negative numbers. *)
Lemma foldr_max_app (l1 l2 : list Z) x : foldr Z.max 0 (l1 ++ x :: l2) = Z.max x (foldr Z.max 0 (l1 ++ l2)).
Proof. induction l1 as [|y l1 IH]; simpl; [done|]. rewrite IH. lia. Qed.

Lemma foldr_max_pos (l : list Z) : 0 <= foldr Z.max 0 l.
Proof. induction l; simpl; lia. Qed.

Section pool.
Context {S : Type} `{KvSpec S} `{!KvPartitions S}.
Implicit Types (b : backend S) (g : gstate S).
Local Abbreviation dealt_rev g := (dealRevision (tso g)).
Local Abbreviation committed g := (committedRevision (tso g)).

Definition task_safe (t : task) (c : claim) (g : gstate S) : Prop :=
  match t with
  | TRequest q p => safe p c (answered q) g
  | TRetry _ p => safe p c (λ _ _ _, True) g
  | TList r p => safe p c (λ x _ g', cinv g' ∧ listed r x g') g
  | TCount r p => safe p c (λ x _ g', cinv g' ∧ counted r x g') g
  | TStream k e rev since p => safe p c (λ x _ g', cinv g' ∧ streamed k e rev since x g') g
  | TChoose _ p => safe p c (λ R _ g', chosen R g') g
  | TCompact _ p => safe p c (λ _ _ g', cinv g') g
  end.

(** No two tasks claim the same revision. *)
Definition tasks_ok (ts : list task) (g : gstate S) : Prop :=
  ∃ cs, Forall2 (λ t c, owned c g ∧ task_safe t c g) ts cs ∧ NoDup (omap claimed cs).

(** The pool with a history; [F0] is the floor it started with. *)
Definition at_history (F0 : Z) (p : pool) (h : kvmap) : gstate S := mkG (po_b p) h (Z.max F0 (floor p)).

Definition pool_inv (F0 : Z) (p : pool) (h : kvmap) : Prop :=
  cinv (at_history F0 p h) ∧ tasks_ok (po_tasks p) (at_history F0 p h).

Lemma task_safe_env t c g g' : task_safe t c g → env c g g' → task_safe t c g'.
Proof.
  destruct t; simpl; intros Hs He; eapply safe_env; eauto;
    [apply answered_stable | done | apply listed_stable | apply counted_stable
    | apply streamed_stable | apply chosen_stable|].
  intros ? ? ? ? _ He'. apply He'.
Qed.

(** A step that keeps all claims, by nobody in particular. *)
Lemma tasks_ok_env ts g g' :
  (∀ c, owned c g → env c g g') → tasks_ok ts g → tasks_ok ts g'.
Proof.
  intros He (cs & Hf & Hn). exists cs. split; [|done]. eapply Forall2_impl; [exact Hf|].
  intros t c [Ho Hs]. specialize (He c Ho). split; [apply He | by eapply task_safe_env].
Qed.

Lemma tstep_safe t g t' b' c :
  tstep t g t' b' → cinv g → owned c g → dealt_rev g + 1 < two63 → task_safe t c g →
  compacting t' = compacting t ∧ after c g b' (task_safe t').
Proof.
  intros Ht Hg Ho Hroom Hs. pose proof (env_refl c g Hg Ho) as He.
  remember (g_b g) as b eqn:Eb.
  destruct Ht as [q B m k b b' x E|now B m k b b' x E|r B m k b b' x E|r B m k b b' x E
    |key e rev since B m k b b' x E|rev B m k b b' x E|R B m k b b' x E]; subst b; simpl in Hs;
    specialize (Hs g He Hroom); unfold wlp in Hs; rewrite E in Hs; done.
Qed.

(** What a step of a task with claim [c] is to a task with another claim. *)
Lemma guar_other c c' d g g' :
  guar c c' g g' → (∀ q, claimed d = Some q → claimed c ≠ Some q) → owned d g → env d g g'.
Proof.
  intros [[Hi _ Hgr Hd Hc Hfr Hfl Hsh] Hf Hsil _] Hne Ho. split; try done.
  destruct d as [|q|q|q|q]; simpl in *; [done | | | |lia]; specialize (Hne q eq_refl).
  - destruct Ho as (Hq & Hu & Hs0). split; [lia|]. split; [by apply Hf | by apply Hsil].
  - destruct Ho as [Hq Hs0]. split; [lia | by apply Hsil].
  - split; [lia|]. by apply Hf; [|lia|apply Ho].
Qed.

(** The others after a step of a task with claim [c]. *)
Lemma others_safe ts cs c c' g g' :
  guar c c' g g' → (∀ q, q ∈ omap claimed cs → claimed c ≠ Some q) →
  Forall2 (λ t d, owned d g ∧ task_safe t d g) ts cs →
  Forall2 (λ t d, owned d g' ∧ task_safe t d g') ts cs.
Proof.
  intros Hg Hne HF. induction HF as [|t d ts cs [Ho Hs] _ IH]; [constructor|].
  assert (env d g g') as He.
  { eapply guar_other; [done| |done]. intros q Hq. apply Hne. simpl. rewrite Hq. left. }
  constructor.
  - split; [apply He|]. by eapply task_safe_env.
  - apply IH. intros q Hq. apply Hne. simpl. destruct (claimed d); [by right | done].
Qed.

Lemma owned_claims ts cs g q :
  Forall2 (λ t d, owned d g ∧ task_safe t d g) ts cs → q ∈ omap claimed cs → q <= dealt_rev g.
Proof.
  intros HF Hq. apply list_elem_of_omap in Hq as (d & Hd & Ed).
  apply list_elem_of_lookup in Hd as [i Hi].
  destruct (Forall2_lookup_r _ _ _ _ _ HF Hi) as (t & _ & Ho & _).
  destruct d; simpl in *; [done | | | |]; simplify_eq; lia.
Qed.

Lemma pool_task g b' t t' ts1 ts2 :
  cinv g → dealt_rev g + 1 < two63 → tstep t g t' b' → tasks_ok (ts1 ++ t :: ts2) g →
  compacting t' = compacting t ∧ ∃ h, let g' := mkG b' h (g_floor g) in
    cinv g' ∧ tasks_ok (ts1 ++ t' :: ts2) g' ∧ env Unclaimed g g'.
Proof.
  intros Hg Hroom Ht (cs & HF & Hn).
  apply Forall2_app_inv_l in HF as (cs1 & cs2' & HF1 & HF2 & ->).
  inversion HF2 as [|? c ? cs2 [Ho Hs] HF2' E1 E2]; subst.
  destruct (tstep_safe t g t' b' c Ht Hg Ho Hroom Hs) as (Ec & c' & h & Hgu & Hs'). split; [done|].
  exists h. set (g' := mkG b' h (g_floor g)) in *. cbv zeta.
  rewrite omap_app in Hn. simpl in Hn.
  assert (∀ q, q ∈ omap claimed cs1 ∨ q ∈ omap claimed cs2 → claimed c ≠ Some q) as Hne.
  { intros q Hq Eq. rewrite Eq in Hn. apply NoDup_app in Hn as (_ & Hd & Hn2).
    apply NoDup_cons in Hn2 as [Hn2 _].
    destruct Hq as [Hq|Hq]; [|done]. apply (Hd q Hq). left. }
  split; [apply Hgu|]. split; [|by eapply guar_other].
  exists (cs1 ++ c' :: cs2). split.
  - apply Forall2_app; [|constructor].
    + eapply others_safe; eauto.
    + split; [apply Hgu | done].
    + eapply others_safe; eauto.
  - rewrite omap_app. simpl. destruct (gu_claim _ _ _ _ Hgu) as [->|[-> (q & -> & Hq)]]; [done|].
    simpl in *. apply NoDup_app in Hn as (Hn1 & Hd & Hn2). apply NoDup_app.
    assert (∀ x, x ∈ omap claimed cs1 ∨ x ∈ omap claimed cs2 → x ≠ q) as Hnew.
    { intros x [Hx|Hx]; [pose proof (owned_claims _ _ _ _ HF1 Hx) | pose proof (owned_claims _ _ _ _ HF2' Hx)]; lia. }
    split; [done|]. split.
    + intros x Hx [->|Hx2]%elem_of_cons; [by apply (Hnew q); [left|]|]. by apply (Hd x).
    + apply NoDup_cons. split; [|done]. intros Hx. by apply (Hnew q); [right|].
Qed.

Lemma push_nodes ev now q a n :
  nodes (Queue.push ev now q) !! a = Some n →
  n_event n = ev ∨ ∃ n', nodes q !! a = Some n' ∧ n_event n' = n_event n.
Proof.
  unfold Queue.push. simpl. intros Hn.
  assert (∀ n0, <[Queue.fresh q := newEventNode ev now]> (nodes q) !! a = Some n0 →
    n_event n0 = ev ∨ ∃ n', nodes q !! a = Some n' ∧ n_event n' = n_event n0) as Hins.
  { intros n0 [[_ <-]|[_ Hn0]]%lookup_insert_Some; [by left | right; by exists n0]. }
  destruct (q_tail q) as [t|]; [|by apply Hins].
  apply lookup_alter_Some in Hn as [(_ & n0 & Hn & ->)|[_ Hn]]; [|by apply Hins].
  destruct (Hins n0 Hn) as [|]; [by left | by right].
Qed.

(** The event in the next slot has the next revision. *)
Lemma slot_next g ev :
  cinv g → watchEventsRingBuffer g !! ((committed g + 1) mod watchersChanCapacity) = Some ev →
  we_Revision ev = committed g + 1.
Proof.
  intros Hg Hev. destruct (ci_slot _ Hg _ _ Hev) as (Ei & _ & Hr).
  symmetry. apply (mod_eq_near watchersChanCapacity); [done.. | lia].
Qed.

(** An iteration of the collector leaves versions and claims alone, and commits
    at most the next revision, which is no task's own any more. *)
Lemma step_collect now pend g :
  cinv g → dealt_rev g + 1 < two63 →
  wlp (collect_iter now pend) (λ _ b', guar Unclaimed Unclaimed g (upd g b')) g.
Proof.
  intros Hg Hroom. pose proof (ci_commit _ Hg) as Hc. unfold collect_iter.
  assert (∀ ch, guar Unclaimed Unclaimed g (upd g (set_chan ch g))) as Hflush
    by (intros ch; apply guar_read; try done; try apply Hg; by apply cinv_same).
  destruct (_ <? eventBatchSize)%nat; [|apply Hflush].
  unfold wlp, GetCurrentRevision, SetCurrentRevision, on_tso, zoom, GetRevision, Commit, gets, modify,
    mbind, gom_bind, mret, gom_ret. simpl.
  rewrite set_tso_id. rewrite uint64_id by (unfold is_uint64, two64, two63 in *; lia).
  destruct (watchEventsRingBuffer g !! _) as [ev|] eqn:Ebuf.
  2:{ destruct pend; [rewrite upd_id; by apply guar_id | apply Hflush]. }
  pose proof (ci_buffer _ Hg _ _ Ebuf) as Hev. pose proof (slot_next g ev Hg Ebuf) as Erev.
  assert (we_Revision ev <= dealt_rev g) as Hd by by eapply ci_slot.
  assert (∀ r t' q', t' = mkTSO (we_Revision ev) (dealt_rev g) → (∀ a n, nodes q' !! a = Some n → event_ok (n_event n)) →
    guar Unclaimed Unclaimed g (upd g (mkBackend t' (b_scanner g)
      (base.delete (we_Revision ev mod watchersChanCapacity) (watchEventsRingBuffer g)) r (watchChan g) q'))) as Htake.
  { intros r t' q' -> Hq. apply (guar_events Unclaimed); try done; [apply Hg | simpl; lia | |]; simpl.
    - intros i e' [Hne Hi]%lookup_delete_Some. split; [by apply (ci_buffer _ Hg i)|].
      destruct (ci_slot _ Hg i e' Hi) as (Ei & ? & ?). split; [done|]. split; [done|].
      assert (we_Revision e' ≠ committed g + 1) by (intros E; rewrite Ei, E, Erev in Hne; done). lia.
    - intros q _ [Hs1 Hs2]. split; simpl.
      + pose proof (Hs2 _ _ Ebuf). lia.
      + intros i e' [_ Hi]%lookup_delete_Some. by eapply Hs2. }
  assert ((if dealt_rev g <? we_Revision ev then we_Revision ev else dealt_rev g) = dealt_rev g) as Ed
    by (destruct (Z.ltb_spec (dealt_rev g) (we_Revision ev)); lia).
  destruct (we_Valid ev); cbn [negb].
  - simpl. destruct (Add _ _) as [[r []]|]; [|done]. apply Htake; [simpl; by rewrite Ed | apply Hg].
  - destruct (is_err _ _); simpl; (apply Htake; [simpl; by rewrite Ed|]); [|apply Hg].
    intros a n Hn. destruct (push_nodes _ _ _ _ _ Hn) as [->|(n' & Hn' & <-)]; [done|]. by apply (ci_queue _ Hg a).
Qed.

(** A task that starts. *)
Lemma pool_start g ts t :
  task_safe t Unclaimed g → tasks_ok ts g → tasks_ok (ts ++ [t]) g.
Proof.
  intros Ht (cs & HF & Hn). exists (cs ++ [Unclaimed]). split.
  - apply Forall2_app; [done|]. by repeat constructor.
  - by rewrite omap_app, app_nil_r.
Qed.

(** A compaction at [R] starts: the floor is raised. *)
Lemma env_raise g F :
  cinv g → g_floor g <= F <= committed g → ∀ c, owned c g → env c g (mkG (g_b g) (g_hist g) F).
Proof.
  intros Hg HF c Ho. pose proof (ci_floor _ Hg). pose proof (ci_commit _ Hg). pose proof (ci_deal _ Hg).
  assert (F <= max_uint64) by (unfold max_uint64, two63 in *; lia).
  split; simpl; try done.
  - split; simpl; try apply Hg.
    + intros k Hk. eapply key_strict_raise; [|by apply Hg]. lia.
    + eapply kept_raise; [| |apply Hg]; lia.
    + lia.
    + eapply Forall_impl; [apply (ci_histories _ Hg)|]. simpl. lia.
  - apply grows_refl.
  - lia.
  - by intros k r v.
Qed.

(** The floor of a pool whose tasks changed. *)
Lemma floor_start b ts t pend : compacting t = 0 → floor (mkPool b (ts ++ [t]) pend) = floor (mkPool b ts pend).
Proof.
  intros Ht. unfold floor. simpl. rewrite fmap_app. simpl. rewrite Ht, (foldr_max_app _ []), app_nil_r.
  pose proof (foldr_max_pos (compacting <$> ts)). lia.
Qed.

Lemma floor_task b b' t t' ts1 ts2 pend :
  compacting t' = compacting t →
  floor (mkPool b' (ts1 ++ t' :: ts2) pend) = floor (mkPool b (ts1 ++ t :: ts2) pend).
Proof. intros Ht. unfold floor. simpl. by rewrite !fmap_app, !fmap_cons, Ht. Qed.

Lemma floor_compact b rev R x q ts1 ts2 pend :
  0 <= R → floor (mkPool b (ts1 ++ TCompact R q :: ts2) pend) =
           Z.max R (floor (mkPool b (ts1 ++ TChoose rev x :: ts2) pend)).
Proof.
  intros HR. unfold floor. simpl. rewrite !fmap_app, !fmap_cons, !foldr_max_app. simpl.
  pose proof (foldr_max_pos ((compacting <$> ts1) ++ (compacting <$> ts2))). lia.
Qed.

Lemma pool_started F0 b ts t pend h :
  compacting t = 0 → pool_inv F0 (mkPool b ts pend) h →
  (cinv (at_history F0 (mkPool b ts pend) h) → task_safe t Unclaimed (at_history F0 (mkPool b ts pend) h)) →
  pool_inv F0 (mkPool b (ts ++ [t]) pend) h ∧
  env Unclaimed (at_history F0 (mkPool b ts pend) h) (at_history F0 (mkPool b (ts ++ [t]) pend) h).
Proof.
  intros Ht [Hg Hts] Hs. unfold pool_inv, at_history in *. simpl in *. rewrite floor_start by done.
  split; [|by apply env_refl]. split; [done|]. apply pool_start; auto.
Qed.

(** One task of the pool is replaced by another, which claims nothing. *)
Lemma tasks_replace ts1 ts2 t t' g g' :
  (∀ c, owned c g → env c g g') → task_safe t' Unclaimed g' →
  tasks_ok (ts1 ++ t :: ts2) g → tasks_ok (ts1 ++ t' :: ts2) g'.
Proof.
  intros He Ht' (cs & HF & Hn).
  apply Forall2_app_inv_l in HF as (cs1 & cs2' & HF1 & HF2 & ->).
  inversion HF2 as [|? c ? cs2 [Ho Hs] HF2' E1 E2]; subst. exists (cs1 ++ Unclaimed :: cs2).
  assert (∀ ts cs, Forall2 (λ t c, owned c g ∧ task_safe t c g) ts cs →
    Forall2 (λ t c, owned c g' ∧ task_safe t c g') ts cs) as Hrest.
  { intros ts cs HF. eapply Forall2_impl; [exact HF|]. intros x d [Hd Hx]. specialize (He d Hd).
    split; [apply He | by eapply task_safe_env]. }
  split; [apply Forall2_app; [by apply Hrest|]; constructor; [done | by apply Hrest]|].
  rewrite omap_app in *. simpl in *. destruct (claimed c) as [q|]; [|done].
  apply NoDup_app in Hn as (Hn1 & Hd & Hn2). apply NoDup_cons in Hn2 as [_ Hn2]. apply NoDup_app.
  split; [done|]. split; [|done]. intros x Hx Hx2. apply (Hd x Hx). by right.
Qed.

Lemma pool_compact F0 b cfg now sched ctx rev R ts1 ts2 pend h :
  config_ok cfg → pool_inv F0 (mkPool b (ts1 ++ TChoose rev (Done R) :: ts2) pend) h →
  let p := mkPool b (ts1 ++ TChoose rev (Done R) :: ts2) pend in
  let p' := mkPool b (ts1 ++ TCompact R (compact_p cfg now sched ctx R) :: ts2) pend in
  pool_inv F0 p' h ∧ env Unclaimed (at_history F0 p h) (at_history F0 p' h).
Proof using All.
  intros Hcfg [Hg Hts] p p'. assert (chosen R (at_history F0 p h)) as [HR Hu].
  { destruct Hts as (cs & HF & _). apply Forall2_app_inv_l in HF as (cs1 & cs2' & _ & HF2 & ->).
    by inversion HF2 as [|? c ? cs2 [Ho Hs] _ E1 E2]; subst. }
  assert (floor p' = Z.max R (floor p)) as Efl by (apply (floor_compact _ rev); lia).
  pose proof (ci_floor _ Hg) as HF. simpl in HF, HR.
  assert (∀ c, owned c (at_history F0 p h) → env c (at_history F0 p h) (at_history F0 p' h)) as He.
  { apply (env_raise (at_history F0 p h)); [done|]. simpl. rewrite Efl. fold p in HF. lia. }
  split; [|by apply He]. split; [by apply (He Unclaimed)|].
  eapply tasks_replace; [exact He | | exact Hts].
  apply quiet_safe, quiet_compact; [done | done | by apply (He Unclaimed)|]. simpl. rewrite Efl. lia.
Qed.

Lemma pool_step F0 p p' h :
  pool_inv F0 p h → cstep p p' →
  ∃ h', pool_inv F0 p' h' ∧ env Unclaimed (at_history F0 p h) (at_history F0 p' h').
Proof using All.
  intros Hp Hs. destruct Hs as [b b' t t' ts1 ts2 pend Hroom Hst|b q ts pend Hq|b now ts pend
    |b cfg sched ctx r ts pend Hr|b cfg sched ctx r ts pend Hr He
    |b cfg sched ctx k e rev ts pend Hok|b rev ts pend Hu
    |b cfg now sched ctx rev R ts1 ts2 pend Hcfg|b b' now ts pend pend' Hroom Hc].
  - destruct Hp as [Hg Hts].
    destruct (pool_task (at_history F0 (mkPool b (ts1 ++ t :: ts2) pend) h) b' t t' ts1 ts2) as (Ec & h' & ? & ? & ?);
      try done. exists h'. unfold pool_inv, at_history in *. simpl in *.
    by rewrite (floor_task b b' t t' ts1 ts2 pend Ec).
  - exists h. apply pool_started; [done..|]. intros _. by apply safe_request.
  - exists h. apply pool_started; [done..|]. intros _. apply safe_retry.
  - exists h. apply pool_started; [done..|]. intros Hg. by apply quiet_safe, quiet_List.
  - exists h. apply pool_started; [done..|]. intros Hg. by apply quiet_safe, quiet_Count.
  - exists h. apply pool_started; [done..|]. intros Hg. by apply quiet_safe, (quiet_ListByStream _ _ _ _ _ _ _ Hok Hg).
  - exists h. apply pool_started; [done..|]. intros Hg. by apply quiet_safe, quiet_choose.
  - exists h. by apply pool_compact.
  - exists h. destruct Hp as [Hg Hts]. set (g := at_history F0 (mkPool b ts pend) h) in *.
    assert (∀ c, owned c g → env c g (at_history F0 (mkPool b' ts pend') h)) as He.
    { intros c. pose proof (step_collect now pend g Hg Hroom) as Hw. unfold wlp in Hw. simpl in Hw.
      rewrite Hc in Hw. by eapply guar_other. }
    split; [|by apply He]. split; [by apply (He Unclaimed) | by eapply tasks_ok_env].
Qed.

Lemma pool_reach F0 p p' h :
  pool_inv F0 p h → rtc cstep p p' →
  ∃ h', pool_inv F0 p' h' ∧ env Unclaimed (at_history F0 p h) (at_history F0 p' h').
Proof using All.
  intros Hi Hr. revert h Hi. induction Hr as [p|p p1 p' Hs _ IH]; intros h Hi.
  { exists h. split; [done | by apply env_refl; [apply Hi|]]. }
  destruct (pool_step _ _ _ _ Hi Hs) as (h1 & Hi1 & He1). destruct (IH h1 Hi1) as (h' & Hi' & He').
  exists h'. split; [done|]. by eapply env_trans.
Qed.

(** A state to start from: its history and floor are those of its past. *)
Lemma pool_init b h F pend : cinv (mkG b h F) → pool_inv F (mkPool b [] pend) h.
Proof.
  intros Hg. pose proof (ci_floor _ Hg) as HF. simpl in HF. unfold pool_inv, at_history. simpl.
  rewrite Z.max_l by (unfold floor; simpl; lia). split; [done|]. exists []. split; [constructor | apply NoDup_nil_2].
Qed.

Lemma pool_from b h0 F0 p :
  cinv (mkG b h0 F0) → rtc cstep (mkPool b [] []) p →
  ∃ h, pool_inv F0 p h ∧ env Unclaimed (mkG b h0 F0) (at_history F0 p h).
Proof using All.
  intros Hg Hr. destruct (pool_reach F0 (mkPool b [] []) p h0) as (h & Hi & He); [by apply pool_init | done|].
  exists h. split; [done|]. pose proof (ci_floor _ Hg) as HF. simpl in HF. unfold at_history in He at 1. simpl in He.
  by rewrite Z.max_l in He by (unfold floor; simpl; lia).
Qed.

(** Finished tasks: their answers hold, and two of them have different claims. *)
Lemma pool_finished F0 p h i q x :
  pool_inv F0 p h → po_tasks p !! i = Some (TRequest q (Done x)) →
  ∃ c, owned c (at_history F0 p h) ∧ answered q x c (at_history F0 p h).
Proof.
  intros [_ (cs & HF & _)] Hi. destruct (Forall2_lookup_l _ _ _ _ _ HF Hi) as (c & _ & Ho & Hs). by exists c.
Qed.

Lemma pool_listed F0 p h i r x :
  pool_inv F0 p h → po_tasks p !! i = Some (TList r (Done x)) → listed r x (at_history F0 p h).
Proof.
  intros [_ (cs & HF & _)] Hi. by destruct (Forall2_lookup_l _ _ _ _ _ HF Hi) as (c & _ & _ & _ & Hs).
Qed.

Lemma pool_counted F0 p h i r x :
  pool_inv F0 p h → po_tasks p !! i = Some (TCount r (Done x)) → counted r x (at_history F0 p h).
Proof.
  intros [_ (cs & HF & _)] Hi. by destruct (Forall2_lookup_l _ _ _ _ _ HF Hi) as (c & _ & _ & _ & Hs).
Qed.

Lemma pool_streamed F0 p h i k e rev since x :
  pool_inv F0 p h → po_tasks p !! i = Some (TStream k e rev since (Done x)) →
  streamed k e rev since x (at_history F0 p h).
Proof.
  intros [_ (cs & HF & _)] Hi. by destruct (Forall2_lookup_l _ _ _ _ _ HF Hi) as (c & _ & _ & _ & Hs).
Qed.

Lemma pool_distinct F0 p h i j q x q' x' :
  pool_inv F0 p h → i ≠ j → po_tasks p !! i = Some (TRequest q (Done x)) →
  po_tasks p !! j = Some (TRequest q' (Done x')) →
  ∃ c c', answered q x c (at_history F0 p h) ∧ answered q' x' c' (at_history F0 p h) ∧
    (claimed c = claimed c' → claimed c = None).
Proof.
  intros [_ (cs & HF & Hn)] Hij Hi Hj.
  destruct (Forall2_lookup_l _ _ _ _ _ HF Hi) as (c & Hc & _ & Hs).
  destruct (Forall2_lookup_l _ _ _ _ _ HF Hj) as (c' & Hc' & _ & Hs').
  exists c, c'. split; [done|]. split; [done|]. intros E. destruct (claimed c) as [r|] eqn:Ec; [|done].
  exfalso. apply Hij. by eapply (NoDup_omap_lookup cs claimed i j c c' r).
Qed.
End pool.
