(* ===== verification/Etcd.v ===== *)
(** The etcd front end: pkg/server/etcd/backendshim.go, kv.go and lease.go, and
    the part of pkg/server/service the handlers call.

    Requests and responses are the messages of etcd's API with the fields the
    program reads and writes; a header is its revision.  The shim translates
    them to the backend's messages, [Txn] recognises the transactions a
    Kubernetes API server sends. *)

From S2P Require Import Prelude GoMonad Storage Coder Proto Tso Ring Queue Mvcc Creator Scanner.
From S2P Require Import Backend.

(** * etcd's messages *)

Record mvccKV := mkMvccKV {
  mk_Key : bytes; mk_Value : slice; mk_ModRevision : Z; mk_CreateRevision : Z }.

Inductive mvccEventType := mvccPUT | mvccDELETE.

Record mvccEvent := mkMvccEvent {
  me_Type : mvccEventType; me_Kv : option mvccKV; me_PrevKv : option mvccKV }.

Record EtcdPutRequest := mkEtcdPut {
  ep_Key : bytes; ep_Value : slice; ep_Lease : Z;
  ep_PrevKv : bool; ep_IgnoreValue : bool; ep_IgnoreLease : bool }.

Record EtcdRangeRequest := mkEtcdRange {
  er_Key : bytes; er_RangeEnd : bytes; er_Limit : Z; er_Revision : Z; er_CountOnly : bool }.

Record EtcdDeleteRangeRequest := mkEtcdDeleteRange { ed_Key : bytes; ed_RangeEnd : bytes }.

Inductive RequestOp :=
  | RequestRange (r : EtcdRangeRequest)
  | RequestPut (r : EtcdPutRequest)
  | RequestDeleteRange (r : EtcdDeleteRangeRequest)
  | RequestOther.

Inductive CompareResult := EQUAL | GREATER | LESS | NOT_EQUAL.
Inductive CompareTarget := VERSION | CREATE_REVISION | MOD | VALUE | LEASE.

#[global] Instance CompareResult_eq_dec : EqDecision CompareResult.
Proof. solve_decision. Defined.
#[global] Instance CompareTarget_eq_dec : EqDecision CompareTarget.
Proof. solve_decision. Defined.

Inductive TargetUnion :=
  | TargetModRevision (r : Z)
  | TargetVersion (v : Z)
  | TargetOther.

Record Compare := mkCompare {
  cmp_Result : CompareResult; cmp_Target : CompareTarget; cmp_Key : bytes; cmp_Union : TargetUnion }.

Definition GetModRevision (c : Compare) : Z :=
  match cmp_Union c with TargetModRevision r => r | _ => 0 end.

Definition GetRequestPut (o : RequestOp) : option EtcdPutRequest :=
  match o with RequestPut r => Some r | _ => None end.
Definition GetRequestRange (o : RequestOp) : option EtcdRangeRequest :=
  match o with RequestRange r => Some r | _ => None end.
Definition GetRequestDeleteRange (o : RequestOp) : option EtcdDeleteRangeRequest :=
  match o with RequestDeleteRange r => Some r | _ => None end.

Record TxnRequest := mkTxn {
  txn_Compare : list Compare; txn_Success : list RequestOp; txn_Failure : list RequestOp }.

Record EtcdRangeResponse := mkEtcdRangeResponse {
  ers_Header : Z; ers_Kvs : list mvccKV; ers_More : bool; ers_Count : Z }.

Inductive ResponseOp :=
  | ResponsePut (header : Z)
  | ResponseRange (r : EtcdRangeResponse)
  | ResponseDeleteRange (header : Z) (deleted : Z) (prevKvs : list mvccKV).

Record TxnResponse := mkTxnResponse {
  trs_Header : Z; trs_Succeeded : bool; trs_Responses : list ResponseOp }.

Record EtcdWatchResponse := mkEtcdWatchResponse {
  ews_Header : Z; ews_Events : list mvccEvent; ews_Canceled : bool; ews_CancelReason : option err }.

(** * The shim *)

(** [txnHeader(int64(rev))] *)
Definition txnHeader (rev : Z) : Z := int64 rev.

Definition kvToEtcdKv (kv : KeyValue) : mvccKV :=
  mkMvccKV (kv_Key kv) (kv_Value kv) (int64 (kv_Revision kv)) 0.

Definition unsupported (field : string) : err := Errorf field.

(** The event a watcher sees for an event of the backend. *)
Definition etcd_event (e : Event) : mvccEvent :=
  match ev_Type e with
  | CREATE | PUT =>
      let kv := kvToEtcdKv (ev_Kv e) in
      mkMvccEvent mvccPUT
        (Some (mkMvccKV (mk_Key kv) (mk_Value kv) (mk_ModRevision kv) (mk_ModRevision kv))) None
  | DELETE =>
      mkMvccEvent mvccDELETE (Some (mkMvccKV (kv_Key (ev_Kv e)) None (int64 (ev_Revision e)) 0))
        (Some (kvToEtcdKv (ev_Kv e)))
  end.

(** The transform of [backendShim.Watch], batch by batch until the context is done. *)
Definition shim_watch (input : list (list Event)) : list (list mvccEvent) :=
  map (map etcd_event) input.

(** The transform of [backendShim.ListByStream] for one message. *)
Definition shim_stream (m : StreamRangeResponse) : EtcdWatchResponse :=
  let r := srs_RangeResponse m in
  if rrs_More r then
    mkEtcdWatchResponse (txnHeader (rrs_Revision r))
      (map (λ kv, mkMvccEvent mvccPUT (Some (kvToEtcdKv kv)) None) (rrs_Kvs r)) false None
  else mkEtcdWatchResponse (txnHeader (rrs_Revision r)) [] true (srs_Err m).

Section shim.
Context {S : Type} `{KvStorage S} `{Backoff}.

Definition shimCreate (r : EtcdPutRequest) : GoM (backend S) (option TxnResponse * option err) :=
  if ep_IgnoreLease r then mret (None, Some (unsupported "ignoreLease is unsupported"))
  else if ep_IgnoreValue r then mret (None, Some (unsupported "ignoreValue is unsupported"))
  else if ep_PrevKv r then mret (None, Some (unsupported "prevKv is unsupported"))
  else
    '(response, e) ← Backend.Create (mkCreateRequest (ep_Key r) (ep_Value r) (ep_Lease r));
    match e, response with
    | Some _, _ => mret (None, e)
    | None, Some response =>
        let header := txnHeader (crs_Revision response) in
        mret (Some (mkTxnResponse header (crs_Succeeded response) [ResponsePut header]), None)
    | None, None => panic
    end.

Definition shimDelete (key : bytes) (revision : Z) : GoM (backend S) (option TxnResponse * option err) :=
  '(response, e) ← Delete (mkDeleteRequest key (uint64 revision));
  match e, response with
  | Some _, _ => mret (None, e)
  | None, Some response =>
      let header := txnHeader (drs_Revision response) in
      let kvs := match drs_Kv response with Some kv => [kvToEtcdKv kv] | None => [] end in
      let op := if drs_Succeeded response
                then ResponseDeleteRange header (Z.of_nat (length kvs)) kvs
                else ResponseRange (mkEtcdRangeResponse header kvs false (Z.of_nat (length kvs))) in
      mret (Some (mkTxnResponse header (drs_Succeeded response) [op]), None)
  | None, None => panic
  end.

Definition shimUpdate (rev : Z) (key : bytes) (value : slice) (lease : Z)
    : GoM (backend S) (option TxnResponse * option err) :=
  '(response, e) ← Update (mkUpdateRequest (mkKV key value (uint64 rev)) lease);
  match e, response with
  | Some _, _ => mret (None, e)
  | None, Some response =>
      let header := txnHeader (urs_Revision response) in
      let op := if urs_Succeeded response then ResponsePut header
                else ResponseRange (mkEtcdRangeResponse header
                       (match urs_Kv response with Some kv => [kvToEtcdKv kv] | None => [] end)
                       false 0) in
      mret (Some (mkTxnResponse header (urs_Succeeded response) [op]), None)
  | None, None => panic
  end.

(** The answer that keeps an API server from compacting by itself. *)
Definition compact_response : TxnResponse :=
  mkTxnResponse 0 false
    [ResponseRange (mkEtcdRangeResponse 0 [mkMvccKV [] None 0 0] false 1)].

Definition shimCompact (cfg : Config) (now : Z) (ctx : nat → list bool) (revision : Z)
    : GoM (backend S) (option TxnResponse * option err) :=
  '(_, e) ← Compact cfg now ctx revision;
  match e with
  | Some _ => mret (None, e)
  | None => mret (Some compact_response, None)
  end.

Definition shimGet (r : EtcdRangeRequest) : GoM (backend S) (option EtcdRangeResponse * option err) :=
  '(response, e) ← Get (mkGetRequest (er_Key r) (uint64 (er_Revision r)));
  match e, response with
  | Some _, _ => mret (None, e)
  | None, Some response =>
      let header := txnHeader (grs_Revision response) in
      mret (Some (match grs_Kv response with
                  | Some kv => mkEtcdRangeResponse header [kvToEtcdKv kv] false 1
                  | None => mkEtcdRangeResponse header [] false 0
                  end), None)
  | None, None => panic
  end.

Definition shimList (cfg : Config) (ctx : nat → list bool) (r : EtcdRangeRequest)
    : GoM (backend S) (option EtcdRangeResponse * option err) :=
  '(response, e) ← List cfg ctx
                     (mkRangeRequest (er_Key r) (er_RangeEnd r) (er_Limit r) (uint64 (er_Revision r)));
  match e, response with
  | Some _, _ => mret (None, e)
  | None, Some response =>
      let count := Z.of_nat (length (rrs_Kvs response)) in
      mret (Some (mkEtcdRangeResponse (txnHeader (rrs_Revision response))
                    (map kvToEtcdKv (rrs_Kvs response)) (rrs_More response)
                    (if rrs_More response then count + 1 else count)), None)
  | None, None => panic
  end.

Definition shimCount (cfg : Config) (ctx : nat → list bool) (r : EtcdRangeRequest)
    : GoM (backend S) (option EtcdRangeResponse * option err) :=
  '(response, e) ← Count cfg ctx (mkCountRequest (er_Key r) (er_RangeEnd r));
  match e, response with
  | Some _, _ => mret (None, e)
  | None, Some response =>
      mret (Some (mkEtcdRangeResponse (txnHeader (cors_Revision response)) [] false
                    (int64 (cors_Count response))), None)
  | None, None => panic
  end.

Definition shimGetPartitions (r : EtcdRangeRequest)
    : GoM (backend S) (option EtcdRangeResponse * option err) :=
  '(response, e) ← GetPartitions (mkListPartitionRequest (er_Key r) (er_RangeEnd r));
  match e, response with
  | Some _, _ => mret (None, e)
  | None, Some response =>
      mret (Some (mkEtcdRangeResponse (txnHeader (lprs_Revision response))
                    (map (λ k, mkMvccKV k None 0 0) (lprs_PartitionKeys response)) false
                    (lprs_PartitionNum response + 1)), None)
  | None, None => panic
  end.

(** * The KV service *)

(** [service.PeerService], as the handlers use it: [IsLeader], the read
    revision sync, and the forwarding of a follower. *)
Record PeerService := mkPeers {
  IsLeader : bool;
  EtcdProxyEnabled : bool;
  SyncReadRevision : GoM (backend S) (option err);
  proxyTxn : TxnRequest → GoM (backend S) (option TxnResponse * option err);
}.

Definition GetPartitionMagic : Z := 1888.

Definition RangeRPC (peers : PeerService) (cfg : Config) (ctx : nat → list bool) (r : EtcdRangeRequest)
    : GoM (backend S) (option EtcdRangeResponse * option err) :=
  e ← SyncReadRevision peers;
  match e with
  | Some _ => mret (Some (mkEtcdRangeResponse 0 [] false 0), e)
  | None =>
      match er_RangeEnd r with
      | [] => shimGet r
      | _ =>
          if er_Revision r =? GetPartitionMagic then shimGetPartitions r
          else if er_CountOnly r then shimCount cfg ctx r
          else shimList cfg ctx r
      end
  end.

Definition isCreate (txn : TxnRequest) : option EtcdPutRequest :=
  match txn_Compare txn, txn_Success txn, txn_Failure txn with
  | [c], [o], [] =>
      if bool_decide (cmp_Target c = MOD) && bool_decide (cmp_Result c = EQUAL) &&
         (GetModRevision c =? 0)
      then GetRequestPut o else None
  | _, _, _ => None
  end.

Definition isDelete (txn : TxnRequest) : option (Z * bytes) :=
  match txn_Compare txn, txn_Success txn, txn_Failure txn with
  | [], [o1; o2], [] =>
      match GetRequestRange o1, GetRequestDeleteRange o2 with
      | Some _, Some rng => Some (0, ed_Key rng)
      | _, _ => None
      end
  | [c], [o], [f] =>
      if bool_decide (cmp_Target c = MOD) && bool_decide (cmp_Result c = EQUAL) then
        match GetRequestRange f, GetRequestDeleteRange o with
        | Some _, Some rng => Some (GetModRevision c, ed_Key rng)
        | _, _ => None
        end
      else None
  | _, _, _ => None
  end.

Definition isUpdate (txn : TxnRequest) : option (Z * bytes * slice * Z) :=
  match txn_Compare txn, txn_Success txn, txn_Failure txn with
  | [c], [o], [f] =>
      if bool_decide (cmp_Target c = MOD) && bool_decide (cmp_Result c = EQUAL) then
        match GetRequestPut o, GetRequestRange f with
        | Some p, Some _ => Some (GetModRevision c, cmp_Key c, ep_Value p, ep_Lease p)
        | _, _ => None
        end
      else None
  | _, _, _ => None
  end.

Definition isCompact (txn : TxnRequest) : bool :=
  match txn_Compare txn, txn_Success txn, txn_Failure txn with
  | [c], [o], [f] =>
      bool_decide (cmp_Target c = VERSION) && bool_decide (cmp_Result c = EQUAL) &&
      match GetRequestPut o, GetRequestRange f with Some _, Some _ => true | _, _ => false end &&
      bytes_eqb (cmp_Key c) (str "compact_rev_key")
  | _, _, _ => false
  end.

(** [Txn]; [expired] says that the request's deadline has passed. *)
Definition Txn (peers : PeerService) (expired : bool) (txn : TxnRequest)
    : GoM (backend S) (option TxnResponse * option err) :=
  if expired then mret (None, Some DeadlineExceeded)
  else if negb (IsLeader peers) then
    if EtcdProxyEnabled peers then proxyTxn peers txn
    else mret (None, Some (Errorf "txn error: not the leader"))
  else
    match isCreate txn with
    | Some put => shimCreate put
    | None =>
        match isDelete txn with
        | Some (rev, key) => shimDelete key rev
        | None =>
            match isUpdate txn with
            | Some (rev, key, value, lease) => shimUpdate rev key value lease
            | None =>
                if isCompact txn then mret (Some compact_response, None)
                else mret (None, Some (Errorf "unsupported transaction"))
            end
        end
    end.

(** The direct [Compact] RPC only echoes the revision. *)
Definition CompactRPC (revision : Z) : Z * option err := (revision, None).
Definition PutRPC (r : EtcdPutRequest) : option Z * option err :=
  (None, Some (Errorf "put is not supported")).
Definition DeleteRangeRPC (r : EtcdDeleteRangeRequest) : option Z * option err :=
  (None, Some (Errorf "delete is not supported")).

(** [LeaseGrant]: the lease's id is its TTL. *)
Definition LeaseGrant (ttl : Z) : (Z * Z) * option err := ((ttl, ttl), None).
End shim.

Arguments PeerService : clear implicits.
