(* ===== verification/EtcdSpec.v ===== *)
(** The etcd front end does what etcd's API promises for the transactions of a
    Kubernetes API server: compare the key's modification revision, then write
    or answer with the current value, atomically. *)

From S2P Require Import Prelude GoMonad Storage Coder Proto Tso Ring Queue Mvcc Creator Scanner.
From S2P Require Import ScanSpec Backend BackendSpec Refinement Etcd.

(** * Recognising transactions *)

Definition txn_class (txn : TxnRequest) : list bool :=
  [bool_decide (is_Some (isCreate txn)); bool_decide (is_Some (isDelete txn));
   bool_decide (is_Some (isUpdate txn)); isCompact txn].

Lemma txn_class_exclusive txn : (length (filter (λ b, b = true) (txn_class txn)) <= 1)%nat.
Proof.
  unfold txn_class, isCreate, isDelete, isUpdate, isCompact.
  destruct txn as [cs ss fs]. simpl.
  destruct cs as [|c [|? ?]], ss as [|o1 [|o2 [|? ?]]], fs as [|f [|? ?]]; simpl; try lia;
    try (destruct o1; simpl; try lia; destruct o2; simpl; lia);
    destruct c as [res tgt key un]; destruct o1; simpl; try (destruct f; simpl);
    destruct res, tgt; simpl; try lia; repeat case_match; simpl; try done; try lia;
    destruct (bytes_eqb _ _); simpl; lia.
Qed.

(** The transactions of an API server (storage/etcd3): create, guarded update,
    guarded delete. *)
Inductive k8s_txn :=
  | KCreate (k : bytes) (v : slice) (lease : Z)
  | KUpdate (k : bytes) (rev : Z) (v : slice) (lease : Z)
  | KDelete (k : bytes) (rev : Z).

Definition k8s_key (t : k8s_txn) : bytes :=
  match t with KCreate k _ _ | KUpdate k _ _ _ | KDelete k _ => k end.

(** The modification revision the transaction expects, 0 for "absent". *)
Definition k8s_expected (t : k8s_txn) : Z :=
  match t with KCreate _ _ _ => 0 | KUpdate _ rev _ _ | KDelete _ rev => rev end.

Definition k8s_value (t : k8s_txn) : option slice :=
  match t with KCreate _ v _ | KUpdate _ _ v _ => Some v | KDelete _ _ => None end.

Definition mod_equals (k : bytes) (rev : Z) : Compare := mkCompare EQUAL MOD k (TargetModRevision rev).
Definition get_op (k : bytes) : RequestOp := RequestRange (mkEtcdRange k [] 0 0 false).
Definition put_op (k : bytes) (v : slice) (lease : Z) : RequestOp :=
  RequestPut (mkEtcdPut k v lease false false false).

Definition k8s_request (t : k8s_txn) : TxnRequest :=
  match t with
  | KCreate k v lease => mkTxn [mod_equals k 0] [put_op k v lease] []
  | KUpdate k rev v lease => mkTxn [mod_equals k rev] [put_op k v lease] [get_op k]
  | KDelete k rev => mkTxn [mod_equals k rev] [RequestDeleteRange (mkEtcdDeleteRange k [])] [get_op k]
  end.

(** * etcd's semantics on the abstract map *)

Definition mod_revision (m : model) (k : bytes) : Z := default 0 (fst <$> m_latest m k).

Definition etcd_kv (k : bytes) (x : Z * slice) : mvccKV := mkMvccKV k x.2 x.1 0.

(** The key-value the failure branch reads. *)
Definition etcd_current (m : model) (k : bytes) : list mvccKV :=
  match m_latest m k with Some x => [etcd_kv k x] | None => [] end.

Definition response_kvs (o : ResponseOp) : option (list mvccKV) :=
  match o with ResponseRange r => Some (ers_Kvs r) | _ => None end.

(** What a response must be: whether the comparison held, the new revision, and
    in a failed guarded write the current key-value. *)
Definition etcd_answer (t : k8s_txn) (m : model) (resp : TxnResponse) : Prop :=
  let ok := bool_decide (mod_revision m (k8s_key t) = k8s_expected t) in
  trs_Succeeded resp = ok ∧ trs_Header resp = m_rev m + 1 ∧
  match t with
  | KCreate _ _ _ => True
  | _ => ok = false → response_kvs <$> trs_Responses resp = [Some (etcd_current m (k8s_key t))]
  end.

Definition etcd_after (t : k8s_txn) (m : model) : model :=
  if bool_decide (mod_revision m (k8s_key t) = k8s_expected t)
  then m_write (k8s_key t) (k8s_value t) m else m_tick m.

Definition k8s_ok (t : k8s_txn) (m : model) : Prop :=
  valid_key (k8s_key t) ∧ 0 <= k8s_expected t <= m_rev m + 1 ∧
  match t with
  | KCreate _ v _ | KUpdate _ _ v _ => is_tombstone v = false
  | KDelete _ rev => 0 < rev
  end.

Section etcd.
Context {S : Type} `{KvReliable S} `{Backoff}.
Implicit Types b : backend S.

Lemma visible_dealt b k R mr v :
  backend_inv b → valid_key k → is_uint64 R → visible (view b) k R = Some (mr, v) →
  0 < mr <= dealRevision (tso b).
Proof.
  intros Hb Hk HR Hv. apply visible_Some in Hv as [(Ho & Hr & _) _]; [|apply Hb|done|done].
  split; [lia|]. eapply (proj1 (bi_below _ Hb k Hk)); [done|]. unfold is_uint64, max_uint64, two64 in *. lia.
Qed.

Lemma latest_below b m k x :
  backend_inv b → refines b m → valid_key k → m_latest m k = Some x → 0 < x.1 <= m_rev m.
Proof.
  intros Hb Hr Hk. rewrite (refines_latest b m k Hr Hk), (rf_rev _ _ Hr). destruct x as [mr v]. intros Ev.
  by eapply visible_below.
Qed.

Lemma etcd_kv_current b m k x :
  backend_inv b → room b → refines b m → valid_key k → m_latest m k = Some x →
  kvToEtcdKv (kv_of k x) = etcd_kv k x.
Proof.
  intros Hb Hroom Hr Hk Hx. pose proof (latest_below b m k x Hb Hr Hk Hx) as Hb'.
  pose proof (rf_rev _ _ Hr). unfold kvToEtcdKv, etcd_kv, kv_of. simpl.
  rewrite int64_id; [done|]. unfold room, two63 in *. lia.
Qed.

Lemma Txn_create peers k v lease b m :
  IsLeader peers = true → backend_inv b → room b → refines b m → k8s_ok (KCreate k v lease) m →
  wp (Txn peers false (k8s_request (KCreate k v lease))) (λ r b', ∃ resp,
    r = (Some resp, None) ∧ etcd_answer (KCreate k v lease) m resp ∧
    backend_inv b' ∧ refines b' (etcd_after (KCreate k v lease) m)) b.
Proof.
  intros Hl Hb Hroom Hr (Hk & Hu & Ht). simpl in Hk, Hu, Ht.
  unfold Txn. rewrite Hl. simpl. apply wp_bind.
  eapply wp_mono; [apply (refines_Create (mkCreateRequest k v lease) b m Hb Hroom Hr); by split|].
  intros x b' (Hb' & -> & Hr'). pose proof (rf_rev _ _ Hr) as Erev. unfold m_create in *. simpl in *.
  unfold etcd_answer, etcd_after, mod_revision. simpl.
  assert (int64 (m_rev m + 1) = m_rev m + 1) as E64.
  { apply int64_id. pose proof (bi_tso _ Hb). unfold room, two63 in *. lia. }
  destruct (m_latest m k) as [x|] eqn:El; simpl in *; apply wp_ret; eexists; (split; [done|]); simpl;
    unfold txnHeader; rewrite E64.
  - pose proof (latest_below b m k x Hb Hr Hk El). rewrite bool_decide_false by lia. done.
  - done.
Qed.

Lemma Txn_update peers k rev v lease b m :
  IsLeader peers = true → backend_inv b → room b → refines b m → k8s_ok (KUpdate k rev v lease) m →
  wp (Txn peers false (k8s_request (KUpdate k rev v lease))) (λ r b', ∃ resp,
    r = (Some resp, None) ∧ etcd_answer (KUpdate k rev v lease) m resp ∧
    backend_inv b' ∧ refines b' (etcd_after (KUpdate k rev v lease) m)) b.
Proof.
  intros Hl Hb Hroom Hr (Hk & Hu & Ht). simpl in Hk, Hu, Ht.
  pose proof (rf_rev _ _ Hr) as Erev. pose proof (bi_tso _ Hb) as Htso.
  assert (m_rev m + 1 < two63) as Hlt by (unfold room in Hroom; lia).
  unfold Txn. rewrite Hl. simpl. unfold shimUpdate.
  change (GetModRevision (mod_equals k rev)) with rev. rewrite uint64_id by (unfold is_uint64, two64, two63 in *; lia).
  apply wp_bind.
  eapply wp_mono; [apply (refines_Update (mkUpdateRequest (mkKV k v rev) lease) b m Hb Hroom Hr)|].
  { split; [done|]. split; [done|]. unfold is_uint64, two64, two63 in *. simpl. lia. }
  intros x b' (Hb' & -> & Hr'). unfold m_update in *. simpl in *.
  destruct (Z.ltb_spec (m_rev m + 1) rev); [lia|]. rewrite andb_false_r in *.
  unfold etcd_answer, etcd_after, mod_revision, etcd_current, txnHeader. simpl.
  destruct (bool_decide (default 0 (fst <$> m_latest m k) = rev)) eqn:Ec; simpl in *; apply wp_ret;
    eexists; (split; [done|]); simpl; rewrite int64_id by (unfold two63 in *; lia); [done|].
  split; [|done]. split; [done|]. split; [done|]. intros _. f_equal. f_equal.
  destruct (m_latest m k) as [x|] eqn:El; [|done]. simpl. by rewrite (etcd_kv_current b m k x).
Qed.

Lemma Txn_delete peers k rev b m :
  IsLeader peers = true → backend_inv b → room b → refines b m → k8s_ok (KDelete k rev) m →
  wp (Txn peers false (k8s_request (KDelete k rev))) (λ r b', ∃ resp,
    r = (Some resp, None) ∧ etcd_answer (KDelete k rev) m resp ∧
    backend_inv b' ∧ refines b' (etcd_after (KDelete k rev) m)) b.
Proof.
  intros Hl Hb Hroom Hr (Hk & Hu & Ht). simpl in Hk, Hu, Ht.
  pose proof (rf_rev _ _ Hr) as Erev. pose proof (bi_tso _ Hb) as Htso.
  assert (m_rev m + 1 < two63) as Hlt by (unfold room in Hroom; lia).
  unfold Txn. rewrite Hl. simpl. unfold shimDelete.
  change (GetModRevision (mod_equals k rev)) with rev. rewrite uint64_id by (unfold is_uint64, two64, two63 in *; lia).
  apply wp_bind.
  eapply wp_mono; [apply (refines_Delete (mkDeleteRequest k rev) b m Hb Hroom Hr)|].
  { split; [done|]. unfold is_uint64, two64, two63 in *. simpl. lia. }
  intros x b' (Hb' & -> & Hr'). unfold m_delete in *. simpl in *.
  unfold etcd_answer, etcd_after, mod_revision, etcd_current, txnHeader. simpl.
  destruct (m_latest m k) as [[mr w]|] eqn:El; simpl in *.
  2:{ rewrite bool_decide_false by lia. apply wp_ret. eexists. split; [done|]. simpl.
      rewrite int64_id by (unfold two63 in *; lia). done. }
  destruct (Z.ltb_spec (m_rev m + 1) rev); [lia|]. rewrite andb_false_r in *.
  destruct (Z.eqb_spec rev 0); [lia|]. simpl in *.
  destruct (Z.eqb_spec rev mr) as [->|Hne]; simpl in *; apply wp_ret; eexists; (split; [done|]); simpl;
    rewrite (int64_id (m_rev m + 1)) by (unfold two63 in *; lia).
  - rewrite bool_decide_true by done. done.
  - rewrite bool_decide_false by done. split; [|done]. split; [done|]. split; [done|]. intros _.
    f_equal. f_equal. f_equal. change (mkKV k w mr) with (kv_of k (mr, w)).
    by rewrite (etcd_kv_current b m k (mr, w)).
Qed.

(** The three together. *)
Lemma Txn_k8s peers t b m :
  IsLeader peers = true → backend_inv b → room b → refines b m → k8s_ok t m →
  wp (Txn peers false (k8s_request t)) (λ r b', ∃ resp,
    r = (Some resp, None) ∧ etcd_answer t m resp ∧ backend_inv b' ∧ refines b' (etcd_after t m)) b.
Proof.
  destruct t; intros; [by apply Txn_create | by apply Txn_update | by apply Txn_delete].
Qed.

(** A guarded delete that expects revision 0 deletes whatever is there. *)
Lemma Txn_delete_zero peers k b m x :
  IsLeader peers = true → backend_inv b → room b → refines b m → valid_key k →
  m_latest m k = Some x →
  wp (Txn peers false (k8s_request (KDelete k 0))) (λ r b', ∃ resp,
    r = (Some resp, None) ∧ trs_Succeeded resp = true ∧ mod_revision m k ≠ 0 ∧
    refines b' (m_write k None m)) b.
Proof.
  intros Hl Hb Hroom Hr Hk Hx. destruct x as [mr w].
  unfold Txn. rewrite Hl. simpl. unfold shimDelete. apply wp_bind.
  eapply wp_mono; [apply (refines_Delete (mkDeleteRequest k 0) b m Hb Hroom Hr); by split|].
  intros x b' (Hb' & -> & Hr'). unfold m_delete in *. simpl in *. rewrite Hx in *. simpl in *.
  apply wp_ret. eexists. split; [done|]. split; [done|]. split; [|done].
  unfold mod_revision. rewrite Hx. simpl. pose proof (latest_below b m k _ Hb Hr Hk Hx). simpl in *. lia.
Qed.

(** A point read through the front end of a leader. *)
Lemma RangeRPC_get peers cfg ctx k rev limit count b m :
  SyncReadRevision peers = mret None → backend_inv b → refines b m →
  valid_key k → 0 <= rev < two63 → dealRevision (tso b) < two63 →
  wp (RangeRPC peers cfg ctx (mkEtcdRange k [] limit rev count)) (λ r b',
    backend_inv b' ∧ refines b' m ∧
    ∃ resp, r = (Some resp, None) ∧ m_committed m <= ers_Header resp ∧
      (ers_Kvs resp, ers_Count resp) =
      match h_read (m_hist m k) (read_rev rev) with
      | Some (mr, Some v) => ([etcd_kv k (mr, Some v)], 1)
      | _ => ([], 0)
      end) b.
Proof.
  intros Hs Hb Hr Hk Hrev Hd. pose proof (bi_tso _ Hb) as Htso. pose proof (rf_committed _ _ Hr) as Ec.
  unfold RangeRPC. rewrite Hs. apply wp_bind, wp_ret. simpl. unfold shimGet. simpl.
  rewrite uint64_id by (unfold is_uint64, two64, two63 in *; lia). apply wp_bind.
  assert (is_uint64 rev) as Hu by (unfold is_uint64, two64, two63 in *; lia).
  eapply wp_mono; [apply (refines_Get (mkGetRequest k rev) b m Hb Hr); by split|].
  intros x b' (Hb' & Ht & -> & Hr'). unfold m_get. simpl.
  pose proof (rf_read _ _ Hr k (read_rev rev) Hk) as Eread.
  destruct (read_rev_ok _ Hu) as [Hu' _]. specialize (Eread Hu').
  destruct (h_read (m_hist m k) (read_rev rev)) as [[mr v]|] eqn:Eh.
  - pose proof (visible_dealt b k _ mr v Hb Hk Hu' (eq_sym Eread)) as Hmr.
    destruct v as [v|]; simpl; apply wp_ret; (split; [done|]); (split; [done|]); eexists; (split; [done|]);
      simpl; unfold txnHeader, kvToEtcdKv, etcd_kv; simpl; rewrite !int64_id by (unfold two63 in *; lia);
      by split; [lia|].
  - apply wp_ret. split; [done|]. split; [done|]. eexists. split; [done|]. simpl. unfold txnHeader.
    rewrite int64_id by (unfold two63 in *; lia). by split; [lia|].
Qed.
End etcd.
