(* ===== verification/Brain.v ===== *)
(** The native front end: pkg/server/brain (write.go, read.go, server.go), and
    the read-revision sync of pkg/server/service/revision/revision.go.

    [now], [ctx] and [expired] are the clock, the polls of the context and
    whether the request's deadline has passed; the leader's answer to a
    follower's question for its revision comes over the network and is an
    argument. *)

From S2P Require Import Prelude GoMonad Storage Coder Proto Tso Ring Queue Mvcc Creator Scanner.
From S2P Require Import Backend Etcd.

Section brain.
Context {S : Type} `{KvStorage S} `{Backoff}.
Implicit Types peers : PeerService S.

(** * Reads of a follower (revision.go) *)

(** [SyncReadRevision]: a follower adopts the revision its leader reports. *)
Definition syncReadRevision (leader : bool) (fetched : Z * option err)
    : GoM (backend S) (option err) :=
  if leader then mret None
  else match fetched with
       | (_, Some _) => mret (Some (Errorf "get revision from leader failed"))
       | (currentRevision, None) => SetCurrentRevision currentRevision ;; mret None
       end.

(** The peers of an instance that does not forward transactions. *)
Definition plainPeers (leader : bool) (fetched : Z * option err) : PeerService S :=
  mkPeers leader false (syncReadRevision leader fetched)
    (λ _, mret (None, Some (Errorf "etcd proxy is disabled"))).

(** * Writes (write.go) *)

Definition checkLeaderWrite peers : option err :=
  if negb (IsLeader peers) then Some (Errorf "txn error: not the leader") else None.

(** The guard every unary write shares. *)
Definition guarded_write {R} peers (invalid expired : bool) (msg : string)
    (m : GoM (backend S) (option R * option err)) : GoM (backend S) (option R * option err) :=
  if invalid then mret (None, Some (Errorf msg))
  else if expired then mret (None, Some DeadlineExceeded)
  else match checkLeaderWrite peers with
       | Some e => mret (None, Some e)
       | None => m
       end.

Definition BrainCreate peers (expired : bool) (r : CreateRequest) :=
  guarded_write peers ((length (cr_Key r) =? 0)%nat || (slen (cr_Value r) =? 0)) expired
    "empty key or value in create request" (Backend.Create r).

Definition BrainUpdate peers (expired : bool) (r : UpdateRequest) :=
  guarded_write peers ((length (kv_Key (ur_Kv r)) =? 0)%nat || (slen (kv_Value (ur_Kv r)) =? 0)) expired
    "empty key or value in update request kv" (Update r).

Definition BrainDelete peers (expired : bool) (r : DeleteRequest) :=
  guarded_write peers (length (dr_Key r) =? 0)%nat expired "empty key in deleteRequest" (Delete r).

Definition BrainCompact (cfg : Config) (now : Z) (ctx : nat → list bool) peers (revision : Z)
    : GoM (backend S) (option Z * option err) :=
  if revision <=? 0 then mret (None, Some (Errorf "invalid revision in compact request"))
  else match checkLeaderWrite peers with
       | Some e => mret (None, Some e)
       | None => '(rev, e) ← Compact cfg now ctx revision; mret (Some rev, e)
       end.

(** * Reads (read.go) *)

(** The guard every read shares; [zero] is the empty response. *)
Definition guarded_read {R} peers (invalid : bool) (msg : string) (zero : R)
    (m : GoM (backend S) (option R * option err)) : GoM (backend S) (option R * option err) :=
  if invalid then mret (None, Some (Errorf msg))
  else
    e ← SyncReadRevision peers;
    match e with
    | Some _ => mret (Some zero, e)
    | None => m
    end.

Definition BrainGet peers (r : GetRequest) :=
  guarded_read peers (length (gr_Key r) =? 0)%nat "invailid empty key in get request"
    (mkGetResponse 0 None) (Get r).

Definition BrainRange (cfg : Config) (ctx : nat → list bool) peers (r : RangeRequest) :=
  guarded_read peers ((length (rr_Key r) =? 0)%nat || (length (rr_End r) =? 0)%nat)
    "empty key or end in range request" (mkRangeResponse 0 [] false) (List cfg ctx r).

Definition BrainCount (cfg : Config) (ctx : nat → list bool) peers (r : CountRequest) :=
  guarded_read peers ((length (cor_Key r) =? 0)%nat || (length (cor_End r) =? 0)%nat)
    "empty key or end in count request" (mkCountResponse 0 0) (Count cfg ctx r).

Definition BrainListPartition peers (r : ListPartitionRequest) :=
  guarded_read peers ((length (lpr_Key r) =? 0)%nat || (length (lpr_End r) =? 0)%nat)
    "empty key or end in list partition request" (mkListPartitionResponse 0 0 []) (GetPartitions r).

(** * The compaction loop (server.go) *)

(** The revision a tick asks to compact at. *)
Definition compactLoop_revision (b : backend S) : Z := uint64 (committedRevision (tso b) - 1000).

(** What one tick of [compactLoop] does. *)
Definition compactLoop_tick (cfg : Config) (now : Z) (ctx : nat → list bool) peers : GoM (backend S) () :=
  if IsLeader peers then
    compactRevision ← gets compactLoop_revision;
    Compact cfg now ctx compactRevision ;; mret ()
  else mret ().

(** * Facts *)

(** A follower, an expired or an invalid request changes nothing. *)
Lemma guarded_write_rejects {R} peers invalid expired msg (m : GoM (backend S) (option R * option err)) b :
  invalid = true ∨ expired = true ∨ IsLeader peers = false →
  ∃ e, guarded_write peers invalid expired msg m b = Some (b, (None, Some e)).
Proof.
  unfold guarded_write, checkLeaderWrite. intros Hr. destruct invalid; [by eexists|].
  destruct expired; [by eexists|]. destruct Hr as [?|[?|Hl]]; [done..|]. rewrite Hl. by eexists.
Qed.

Lemma guarded_write_accepts {R} peers msg (m : GoM (backend S) (option R * option err)) :
  IsLeader peers = true → guarded_write peers false false msg m = m.
Proof. unfold guarded_write, checkLeaderWrite. by intros ->. Qed.

(** A follower's point read answers at least at the revision of its leader. *)
Lemma follower_get_header rev r b :
  length (gr_Key r) ≠ 0%nat →
  match BrainGet (plainPeers false (rev, None)) r b with
  | Some (_, (Some resp, None)) => rev <= grs_Revision resp
  | _ => True
  end.
Proof.
  intros Hk. unfold BrainGet, guarded_read, plainPeers. simpl.
  destruct (Nat.eqb_spec (length (gr_Key r)) 0); [done|].
  unfold SetCurrentRevision, on_tso, Commit, zoom, mbind, gom_bind, mret, gom_ret. simpl.
  unfold Get, on_tso, zoom, GetRevision, gets, mbind, gom_bind, mret, gom_ret. simpl.
  destruct (get _ _ _) as [[b' [[val mr] e]]|]; [|done].
  destruct e as [e|]; [by case_bool_decide|]. simpl. destruct (Z.ltb_spec rev mr); lia.
Qed.

(** The tick keeps the last thousand revisions once there are that many, and
    none before. *)
Lemma compactLoop_retains b :
  0 <= committedRevision (tso b) < two64 → MinRevision (asyncFifoRetry b) = 0 →
  compact_revision (compactLoop_revision b) b =
  if 1000 <? committedRevision (tso b) then committedRevision (tso b) - 1000
  else committedRevision (tso b).
Proof.
  intros Hc Hm. unfold compact_revision, compactLoop_revision. rewrite Hm. simpl.
  set (c := committedRevision (tso b)) in *. clearbody c. unfold uint64, two64 in *.
  destruct (Z.ltb_spec 1000 c).
  - rewrite Z.mod_small by lia. destruct (Z.eqb_spec (c - 1000) 0), (Z.ltb_spec c (c - 1000)); simpl; lia.
  - destruct (decide (c = 1000)) as [->|]; [done|].
    replace ((c - 1000) mod 18446744073709551616) with (c - 1000 + 18446744073709551616) by mlia.
    destruct (Z.ltb_spec c (c - 1000 + 18446744073709551616)); [|lia]. by rewrite orb_true_r.
Qed.
End brain.
