(* ===== verification/BrainStream.v ===== *)
(** The streaming calls of the native front end: [Watch] of
    pkg/server/brain/watch.go and [RangeStream] of pkg/server/brain/read.go.

    As for the etcd watch service, a channel of the backend is the list of what
    it yields before it is closed, and the gRPC transport is a parameter that
    answers a send given the ones before it.  A call returns the sends it made,
    with their results, and its error. *)

From S2P Require Import Prelude GoMonad Storage Proto.

Record BrainWatchRequest := mkBrainWatch { bw_Key : bytes; bw_End : bytes; bw_Revision : Z }.
Record BrainWatchResponse := mkBrainWatchResponse { bwr_Revision : Z; bwr_Events : list Event }.

Section streams.
Context {M : Type} (send : list (M * option err) → M → option err).

(** The loop of [Watch]: after a failed send the channel is drained. *)
Fixpoint drain_loop (log : list (M * option err)) (sendErr : option err) (ch : list M)
    : list (M * option err) :=
  match ch with
  | [] => log
  | m :: ch' =>
      match sendErr with
      | Some _ => drain_loop log sendErr ch'
      | None => let e := send log m in drain_loop (log ++ [(m, e)]) e ch'
      end
  end.

(** The loop of [RangeStream]: a failed send returns. *)
Fixpoint forward_loop (log : list (M * option err)) (ch : list M) : list (M * option err) * option err :=
  match ch with
  | [] => (log, None)
  | m :: ch' =>
      let e := send log m in
      match e with
      | Some _ => (log ++ [(m, e)], e)
      | None => forward_loop (log ++ [(m, e)]) ch'
      end
  end.
End streams.

Abbreviation transport M := (list (M * option err) → M → option err).

(** [opened] is what the backend's [Watch] returned. *)
Definition BrainWatch (send : transport BrainWatchResponse) (leader : bool) (r : BrainWatchRequest)
    (opened : bytes → Z → err + list (list Event)) : list (BrainWatchResponse * option err) * option err :=
  if (length (bw_Key r) =? 0)%nat then ([], Some (Errorf "invalid empty key in watch request "))
  else if negb leader then ([], Some (Errorf "txn error: not the leader"))
  else match opened (bw_Key r) (bw_Revision r) with
       | inl e => ([], Some e)
       | inr ch => (drain_loop send [] None (map (mkBrainWatchResponse (bw_Revision r)) ch), None)
       end.

(** [sync] is the result of the revision sync, [opened] what the backend's
    [ListByStream] returned. *)
Definition BrainRangeStream (send : transport StreamRangeResponse) (sync : option err) (r : RangeRequest)
    (opened : bytes → bytes → Z → err + list StreamRangeResponse)
    : list (StreamRangeResponse * option err) * option err :=
  if (length (rr_Key r) =? 0)%nat || (length (rr_End r) =? 0)%nat
  then ([], Some (Errorf "empty key or end in range stream request"))
  else match sync with
       | Some e => ([], Some e)
       | None =>
           match opened (rr_Key r) (rr_End r) (rr_Revision r) with
           | inl e => ([], Some e)
           | inr ch => forward_loop send [] ch
           end
       end.

(** * Facts *)

(** The messages that went out. *)
Definition sent_ok {M} (log : list (M * option err)) : list M :=
  omap (λ a, if a.2 is None then Some a.1 else None) log.

Lemma sent_ok_app {M} (a b : list (M * option err)) : sent_ok (a ++ b) = sent_ok a ++ sent_ok b.
Proof. unfold sent_ok. change list_omap with (@omap list _). apply omap_app. Qed.

Section facts.
Context {M : Type} (send : transport M).

Lemma drain_loop_stopped log e ch : drain_loop send log (Some e) ch = log.
Proof. induction ch; auto. Qed.

Lemma drain_loop_prefix log ch :
  ∃ l, sent_ok (drain_loop send log None ch) = sent_ok log ++ l ∧ l `prefix_of` ch ∧
    ((∀ log m, send log m = None) → l = ch).
Proof.
  revert log. induction ch as [|m ch IH]; intros log; simpl.
  { exists []. by rewrite app_nil_r. }
  destruct (send log m) as [e|] eqn:E.
  - exists []. rewrite drain_loop_stopped, sent_ok_app, app_nil_r. simpl. rewrite app_nil_r.
    split; [done|]. split; [apply prefix_nil|]. intros Hok. by rewrite Hok in E.
  - destruct (IH (log ++ [(m, None)])) as (l & El & Hp & Hall). exists (m :: l).
    rewrite El, sent_ok_app, <-app_assoc. split; [done|]. split; [by apply prefix_cons|].
    intros Hok. by rewrite (Hall Hok).
Qed.

Lemma forward_loop_prefix log ch :
  ∃ l, sent_ok (forward_loop send log ch).1 = sent_ok log ++ l ∧ l `prefix_of` ch ∧
    ((forward_loop send log ch).2 = None → l = ch) ∧
    ((∀ log m, send log m = None) → (forward_loop send log ch).2 = None).
Proof.
  revert log. induction ch as [|m ch IH]; intros log; simpl.
  { exists []. by rewrite app_nil_r. }
  destruct (send log m) as [e|] eqn:E; simpl.
  - exists []. rewrite sent_ok_app, app_nil_r. simpl. rewrite app_nil_r. split; [done|].
    split; [apply prefix_nil|]. split; [done|]. intros Hok. by rewrite Hok in E.
  - destruct (IH (log ++ [(m, None)])) as (l & El & Hp & Hall & Hok). exists (m :: l).
    rewrite El, sent_ok_app, <-app_assoc. split; [done|]. split; [by apply prefix_cons|].
    split; [|done]. intros Hn. by rewrite (Hall Hn).
Qed.
End facts.
