(* ===== verification/Election.v ===== *)
(** Leader election: the resource lock of pkg/backend/election/election.go and
    the callbacks of pkg/server/service/leader/leader.go.

    The lock is one key of the shared engine; every node has a [resourceLock] of
    its own with what it read last.  The record and its JSON text belong to
    client-go and are a parameter ([LockCodec]), as is the order in which
    client-go's elector calls [Get], [Create] and [Update]. *)

From S2P Require Import Prelude GoMonad Storage Strconv Tso Proto Ring Queue Mvcc Creator Scanner.
From S2P Require Import Backend.

(** The elector tells "not found" from the other errors. *)
Inductive lock_err :=
  | LockNotFound
  | NotInitialized
  | CodecErr (e : err)
  | StoreErr (e : err).

(** [resourcelock.LeaderElectionRecord] with [json.Marshal] and
    [json.Unmarshal]. *)
Class LockCodec (R : Type) := {
  HolderIdentity : R → bytes;
  emptyRecord : R;
  Marshal : R → err + bytes;
  Unmarshal : bytes → err + R;
}.

(** What JSON is relied on for: what was written is read back. *)
Class LockCodecSpec (R : Type) `{LockCodec R} := {
  Unmarshal_Marshal r text : Marshal r = inr text → Unmarshal text = inr r;
}.

Definition getElectionKey (prefix : bytes) : bytes := prefix ++ str "/election".

Record resourceLock (R : Type) := mkLock {
  rl_identity : bytes;
  rl_record : R;
  rl_lastVal : slice;
  rl_electionKey : bytes;
  rl_tso : Z;
}.
Arguments mkLock {R}.
Arguments rl_identity {R}.
Arguments rl_record {R}.
Arguments rl_lastVal {R}.
Arguments rl_electionKey {R}.
Arguments rl_tso {R}.

Section election.
Context {S : Type} `{KvStorage S} {R : Type} `{LockCodec R}.
Implicit Types l : resourceLock R.

Definition NewResourceLock (prefix identity : bytes) : resourceLock R :=
  mkLock identity emptyRecord None (getElectionKey prefix) 0.

Definition set_lastVal (v : slice) (l : resourceLock R) : resourceLock R :=
  mkLock (rl_identity l) (rl_record l) v (rl_electionKey l) (rl_tso l).
Definition set_record (r : R) (l : resourceLock R) : resourceLock R :=
  mkLock (rl_identity l) r (rl_lastVal l) (rl_electionKey l) (rl_tso l).
Definition set_lock_tso (t : Z) (l : resourceLock R) : resourceLock R :=
  mkLock (rl_identity l) (rl_record l) (rl_lastVal l) (rl_electionKey l) t.

(** A node's lock and the engine. *)
Abbreviation lockM := (GoM (S * resourceLock R)).

Definition on_store {A} (m : GoM S A) : lockM A := zoom fst (λ s t, (s, t.2)) m.
Definition on_lock (f : resourceLock R → resourceLock R) : lockM () := modify (λ t, (t.1, f t.2)).
Definition the_lock : lockM (resourceLock R) := gets snd.

Definition getRecord : lockM (option lock_err) :=
  l ← the_lock;
  '(val, e) ← on_store (kv_get (rl_electionKey l));
  match e with
  | Some e => mret (Some (if decide (e = ErrKeyNotFound) then LockNotFound else StoreErr e))
  | None =>
      _ ← on_lock (set_lastVal val);
      match Unmarshal (content val) with
      | inl e => mret (Some (CodecErr e))
      | inr record => _ ← on_lock (set_record record); mret None
      end
  end.

Definition getTso : lockM (option lock_err) :=
  '(t, e) ← on_store kv_tso;
  _ ← on_lock (set_lock_tso t);
  mret (StoreErr <$> e).

Definition Get : lockM (option R * option lock_err) :=
  e ← getRecord;
  match e with
  | Some _ => mret (None, e)
  | None =>
      e ← getTso;
      match e with
      | Some _ => mret (None, e)
      | None => l ← the_lock; mret (Some (rl_record l), None)
      end
  end.

Definition Create (ler : R) : lockM (option lock_err) :=
  match Marshal ler with
  | inl e => mret (Some (CodecErr e))
  | inr lerBytes =>
      l ← the_lock;
      e ← on_store (kv_commit [PutIfNotExist (rl_electionKey l) (Some lerBytes) 0]);
      match e with
      | Some e => mret (Some (StoreErr e))
      | None => _ ← on_lock (set_lastVal (Some lerBytes)); getTso
      end
  end.

(** [lastVal] is not refreshed: the next [Update] needs a [Get] before it. *)
Definition Update (ler : R) : lockM (option lock_err) :=
  l ← the_lock;
  if rl_tso l =? 0 then mret (Some NotInitialized)
  else
    match Marshal ler with
    | inl e => mret (Some (CodecErr e))
    | inr recordBytes =>
        e ← on_store (kv_commit [CAS (rl_electionKey l) (Some recordBytes) (rl_lastVal l) 0]);
        match e with
        | Some e => mret (Some (StoreErr e))
        | None => getTso
        end
    end.

Definition Identity (l : resourceLock R) : bytes := rl_identity l.

Definition comma : byte := to_byte 44.

Definition Describe (l : resourceLock R) : bytes :=
  match HolderIdentity (rl_record l) with
  | [] => str "empty" ++ comma :: FormatUint (rl_tso l)
  | holder => holder ++ comma :: FormatUint (rl_tso l)
  end.

(** * The election service *)

Definition getLeaderAndVersion (l : resourceLock R) : (bytes * Z) * option err :=
  match Split comma (Describe l) with
  | [addr; text] =>
      match ParseUint text with
      | Some version => ((addr, version), None)
      | None => (([], 0), Some (Errorf "parsing the version: invalid syntax or out of range"))
      end
  | _ => (([], 0), Some (Errorf "lock info invalid"))
  end.

Definition GetLeaderInfo (l : resourceLock R) : bytes := (getLeaderAndVersion l).1.1.

(** A node: its backend, its lock, whether it leads, and the health status the
    callbacks of the server set. *)
Inductive serving := NOT_SERVING | SERVING.

Record node := mkNode {
  n_backend : backend S;
  n_lock : resourceLock R;
  n_leader : bool;
  n_health : serving;
}.

Definition GetElectionInfo (n : node) : (bytes * bool) * option err :=
  match getLeaderAndVersion (n_lock n) with
  | (_, Some e) => (([], false), Some e)
  | ((addr, _), None) => ((addr, n_leader n), None)
  end.

(** The callback of a node that won; a lock it cannot read is fatal. *)
Definition OnStartedLeading : GoM node () := λ n,
  match getLeaderAndVersion (n_lock n) with
  | (_, Some _) => None
  | ((_, version), None) =>
      match SetCurrentRevision version (n_backend n) with
      | Some (b, _) => Some (mkNode b (n_lock n) true SERVING, ())
      | None => None
      end
  end.

(** The callback of a node that lost: it ends the process. *)
Definition OnStoppedLeading : GoM node () := λ _, None.

(** * The HTTP handlers of server.go *)

Inductive http_body :=
  | RevisionJSON (revision : Z)
  | ElectionJSON (addr : bytes) (leader : bool)
  | ErrorBody (e : err)
  | TextBody (text : bytes).

Definition revisionHandler (n : node) : Z * http_body :=
  if negb (n_leader n) then (400, TextBody (str "i'm not leader, so can't tell you revision"))
  else (200, RevisionJSON (committedRevision (tso (n_backend n)))).

Definition electionHandler (n : node) : Z * http_body :=
  match GetElectionInfo n with
  | (_, Some e) => (500, ErrorBody e)
  | ((addr, leader), None) => (200, ElectionJSON addr leader)
  end.

Definition quote : byte := to_byte 34.

Definition HealthResponse : bytes :=
  str "{" ++ [quote] ++ str "health" ++ [quote] ++ str ":" ++ [quote] ++ str "true" ++ [quote] ++ str "}".

Definition httpHealthHandler (is_get : bool) : Z * http_body :=
  if is_get then (200, TextBody HealthResponse)
  else (405, TextBody (str "Method Not Allowed" ++ [to_byte 10])).
End election.

Arguments node : clear implicits.
