(* ===== verification/ElectionSpec.v ===== *)
(** The resource lock as a compare-and-swap register shared by the nodes, and
    the hand-over of the backend to a new leader. *)

From S2P Require Import Prelude GoMonad Storage Strconv Tso Proto Ring Queue Mvcc Creator Scanner.
From S2P Require Import ScanSpec Backend BackendSpec Election.

(** * The text of the lock *)

Section describe.
Context {R : Type} `{LockCodec R}.
Implicit Types l : resourceLock R.

(** Who holds the lock, as [Describe] tells it. *)
Definition holder (l : resourceLock R) : bytes :=
  match HolderIdentity (rl_record l) with [] => str "empty" | h => h end.

Lemma Describe_holder l : Describe l = holder l ++ comma :: FormatUint (rl_tso l).
Proof. unfold Describe, holder. by destruct (HolderIdentity _). Qed.

Lemma getLeaderAndVersion_spec l :
  is_uint64 (rl_tso l) →
  getLeaderAndVersion l =
  if decide (comma ∈ holder l) then (([], 0), Some (Errorf "lock info invalid"))
  else ((holder l, rl_tso l), None).
Proof.
  intros Ht. unfold getLeaderAndVersion. rewrite Describe_holder.
  assert (comma ∉ FormatUint (rl_tso l)) as Hd by (apply digits_no_comma; by destruct Ht).
  case_decide as Hc.
  - pose proof (Split_length comma (holder l ++ comma :: FormatUint (rl_tso l))) as El.
    rewrite filter_app, filter_cons_True, length_app in El by done. simpl in El.
    assert (0 < length (filter (λ c, c = comma) (holder l)))%nat.
    { destruct (filter _ _) eqn:E; [|simpl; lia].
      assert (comma ∈ filter (λ c, c = comma) (holder l)) as Hin by by apply list_elem_of_filter.
      rewrite E in Hin. by apply elem_of_nil in Hin. }
    destruct (Split _ _) as [|a [|b [|c rest]]]; simpl in El; (lia || done).
  - rewrite Split_app, Split_none by done. by rewrite ParseUint_FormatUint.
Qed.
End describe.

(** * The operations *)

Section lock.
Context {S : Type} `{KvSpec S} {R : Type} `{LockCodec R}.
Implicit Types l : resourceLock R.

(** The election record is never stored as a nil slice. *)
Definition record_ok (s : S) (k : bytes) : Prop := kv_view s !! k ≠ Some None.

Lemma wp_getTso (s : S) l (Q : option lock_err → S * resourceLock R → Prop) :
  kv_inv s →
  (∀ t e s', kv_inv s' → kv_view s' = kv_view s → is_uint64 t → Q (StoreErr <$> e) (s', set_lock_tso t l)) →
  wp getTso Q (s, l).
Proof.
  intros Hs HQ. unfold getTso, on_store. wp_steps. eapply wp_mono; [by apply kv_tso_spec|].
  intros [t e] s' (Hs' & Hv & Ht). apply wp_bind. unfold on_lock. wp_steps. by apply HQ.
Qed.

(** [Update] is a compare-and-swap on what the node read last.  An error leaves
    the record as it was, or comes after the swap. *)
Definition swapped (l : resourceLock R) (t : bytes) (m m' : kvmap) : Prop :=
  ∃ v, m !! rl_electionKey l = Some v ∧ content v = content (rl_lastVal l) ∧
       m' = <[rl_electionKey l := Some t]> m.

Lemma wp_lock_Update ler t (s : S) l :
  kv_inv s → record_ok s (rl_electionKey l) → Marshal ler = inr t →
  wp (Update ler) (λ e '(s', l'),
    kv_inv s' ∧ (∃ n, l' = set_lock_tso n l) ∧
    match e with
    | None => swapped l t (kv_view s) (kv_view s')
    | Some _ => kv_view s' = kv_view s ∨ swapped l t (kv_view s) (kv_view s')
    end) (s, l).
Proof.
  intros Hs Hok Et. unfold Update, the_lock. wp_steps.
  assert (∃ n, l = set_lock_tso n l) as Hself by (exists (rl_tso l); by destruct l).
  destruct (rl_tso l =? 0); [apply wp_ret; naive_solver|]. rewrite Et. unfold on_store.
  wp_steps. eapply wp_mono.
  { apply kv_commit_spec; [done|]. simpl. split; [done|]. done. }
  assert (∀ m', batch_apply [CAS (rl_electionKey l) (Some t) (rl_lastVal l) 0] (kv_view s) = Some m' →
    swapped l t (kv_view s) m') as Hsw.
  { intros m'. simpl. destruct (kv_view s !! rl_electionKey l) as [v|] eqn:Ev; [|done].
    destruct (bytes_eqb _ _) eqn:Ee; [|done]. intros [= <-]. exists v. split; [done|]. split; [|done].
    by apply bytes_eqb_spec. }
  intros [e|] s' [Hs' Hp]; simpl in *.
  - apply wp_ret. split; [done|]. split; [done|]. destruct Hp as [|(_ & _ & Hp)]; auto.
  - apply wp_getTso; [done|]. intros n e s2 Hs2 Hv _. split; [done|]. split; [by exists n|].
    rewrite Hv. apply Hsw in Hp. destruct e; simpl; auto.
Qed.

(** [Create] writes the record when there is none. *)
Definition created (l : resourceLock R) (t : bytes) (m m' : kvmap) : Prop :=
  m !! rl_electionKey l = None ∧ m' = <[rl_electionKey l := Some t]> m.

Lemma wp_lock_Create ler t (s : S) l :
  kv_inv s → record_ok s (rl_electionKey l) → Marshal ler = inr t →
  wp (Election.Create ler) (λ e '(s', l'),
    kv_inv s' ∧ rl_electionKey l' = rl_electionKey l ∧
    match e with
    | None => created l t (kv_view s) (kv_view s') ∧ rl_lastVal l' = Some t
    | Some _ => kv_view s' = kv_view s ∨ created l t (kv_view s) (kv_view s')
    end) (s, l).
Proof.
  intros Hs Hok Et. unfold Election.Create, the_lock. rewrite Et. wp_steps. unfold on_store. wp_steps.
  eapply wp_mono.
  { apply kv_commit_spec; [done|]. simpl. split; [done|]. done. }
  assert (∀ m', batch_apply [PutIfNotExist (rl_electionKey l) (Some t) 0] (kv_view s) = Some m' →
    created l t (kv_view s) m') as Hcr.
  { intros m'. simpl. destruct (kv_view s !! rl_electionKey l) eqn:Ev; [done|]. by intros [= <-]. }
  intros [e|] s' [Hs' Hp]; simpl in *.
  - apply wp_ret. split; [done|]. split; [done|]. destruct Hp as [|(_ & _ & Hp)]; auto.
  - unfold on_lock. wp_steps. apply wp_getTso; [done|]. intros n e s2 Hs2 Hv _. split; [done|].
    split; [done|]. rewrite Hv. apply Hcr in Hp. destruct e; simpl; auto.
Qed.

(** [Get] changes nothing but the node's own lock. *)
Lemma wp_lock_Get (s : S) l :
  kv_inv s →
  wp Election.Get (λ r '(s', l'),
    kv_inv s' ∧ kv_view s' = kv_view s ∧ rl_electionKey l' = rl_electionKey l ∧
    (r.2 = None → kv_view s !! rl_electionKey l = Some (rl_lastVal l') ∧ r.1 = Some (rl_record l') ∧
       Unmarshal (content (rl_lastVal l')) = inr (rl_record l')) ∧
    (r.2 = Some LockNotFound → kv_view s !! rl_electionKey l = None)) (s, l).
Proof.
  intros Hs. unfold Election.Get, getRecord, the_lock, on_store. wp_steps.
  eapply wp_mono; [by apply kv_get_spec|]. intros [v [e|]] s' (Hs' & Hv & Hg); simpl in *.
  - wp_steps. repeat (split; [done|]). case_decide as Ee; [|done]. intros _. by apply Hg.
  - unfold on_lock. wp_steps. destruct (Unmarshal (content v)) as [e|record] eqn:Eu; wp_steps; [by repeat split|].
    apply wp_getTso; [done|]. intros t [e|] s2 Hs2 Hv2 _; wp_steps; rewrite Hv2; by repeat split.
Qed.

(** * The nodes of a cluster *)

Inductive lock_op := OpGet | OpCreate (ler : R) | OpUpdate (ler : R).

Definition lock_run (op : lock_op) : GoM (S * resourceLock R) (option lock_err) :=
  match op with
  | OpGet => '(_, e) ← Election.Get; mret e
  | OpCreate ler => Election.Create ler
  | OpUpdate ler => Update ler
  end.

(** The shared engine and the locks of the nodes. *)
Record cluster := mkCluster { c_store : S; c_locks : list (resourceLock R) }.

Inductive lstep : nat * lock_op * option lock_err → cluster → cluster → Prop :=
  | l_op i op e s s' locks l l' :
      locks !! i = Some l → lock_run op (s, l) = Some ((s', l'), e) →
      lstep (i, op, e) (mkCluster s locks) (mkCluster s' (<[i:=l']> locks)).

(** A write of another key, by a backend. *)
Inductive estep (k : bytes) : cluster → cluster → Prop :=
  | l_env s s' locks :
      kv_inv s' → kv_view s' !! k = kv_view s !! k → estep k (mkCluster s locks) (mkCluster s' locks).

Definition cluster_ok (k : bytes) (c : cluster) : Prop :=
  kv_inv (c_store c) ∧ record_ok (c_store c) k ∧ Forall (λ l, rl_electionKey l = k) (c_locks c).

Definition value (k : bytes) (c : cluster) : option bytes := content <$> kv_view (c_store c) !! k.

Definition last_seen (i : nat) (c : cluster) : option bytes :=
  content ∘ rl_lastVal <$> c_locks c !! i.

(** The text an operation writes, if it does. *)
Definition op_text (op : lock_op) : option bytes :=
  match op with
  | OpGet => None
  | OpCreate ler | OpUpdate ler => match Marshal ler with inr t => Some t | inl _ => None end
  end.

(** What one operation of a node does to the record: nothing, or it writes its
    text where there was none, or where the node's last reading still stood. *)
Definition lock_effect (op : lock_op) (l : resourceLock R) (e : option lock_err) (v v' : option bytes) : Prop :=
  match op with
  | OpGet => v' = v
  | OpCreate _ => (e ≠ None ∧ v' = v) ∨ (v = None ∧ v' = op_text op ∧ is_Some v')
  | OpUpdate _ =>
      (e ≠ None ∧ v' = v) ∨ (v = Some (content (rl_lastVal l)) ∧ v' = op_text op ∧ is_Some v')
  end.

Lemma lock_run_effect op e (s s' : S) l l' :
  kv_inv s → record_ok s (rl_electionKey l) → lock_run op (s, l) = Some ((s', l'), e) →
  kv_inv s' ∧ record_ok s' (rl_electionKey l) ∧ rl_electionKey l' = rl_electionKey l ∧
  (op = OpGet ∨ e ≠ None ∨ op_text op ≠ None) ∧
  lock_effect op l e (content <$> kv_view s !! rl_electionKey l) (content <$> kv_view s' !! rl_electionKey l).
Proof.
  intros Hs Hok E. destruct op as [|ler|ler]; simpl in E.
  - pose proof (wp_lock_Get s l Hs) as Hw. unfold wp in Hw. unfold mbind, gom_bind, mret, gom_ret in E.
    destruct (Election.Get (s, l)) as [[[s2 l2] [r e2]]|]; [|done]. simplify_eq.
    destruct Hw as (? & Hv & ? & _). unfold record_ok in *. simpl. rewrite Hv. naive_solver.
  - destruct (Marshal ler) as [e0|t] eqn:Et.
    + unfold Election.Create in E. rewrite Et in E. unfold mret, gom_ret in E. simplify_eq. naive_solver.
    + pose proof (wp_lock_Create ler t s l Hs Hok Et) as Hw. unfold wp in Hw. rewrite E in Hw.
      destruct Hw as (? & ? & Hp). unfold record_ok, created in *. simpl. rewrite Et.
      assert (kv_view s' = kv_view s ∧ e ≠ None ∨
              kv_view s !! rl_electionKey l = None ∧ kv_view s' = <[rl_electionKey l:=Some t]> (kv_view s))
        as [[-> ?]|[E1 E2]] by (destruct e; naive_solver); [naive_solver|].
      rewrite E1, E2, lookup_insert, decide_True by done. naive_solver.
  - destruct (Marshal ler) as [e0|t] eqn:Et.
    + unfold Update, the_lock in E. rewrite Et in E. unfold mbind, gom_bind, gets, mret, gom_ret in E. simpl in E.
      destruct (rl_tso l =? 0); simplify_eq; naive_solver.
    + pose proof (wp_lock_Update ler t s l Hs Hok Et) as Hw. unfold wp in Hw. rewrite E in Hw.
      destruct Hw as (? & [n ->] & Hp). unfold record_ok in *. simpl. rewrite Et.
      assert (kv_view s' = kv_view s ∧ e ≠ None ∨ swapped l t (kv_view s) (kv_view s'))
        as [[-> ?]|(v & E1 & E2 & E3)] by (destruct e; naive_solver); [naive_solver|].
      rewrite E3, E1, lookup_insert, decide_True by done. simpl. rewrite E2. naive_solver.
Qed.

Lemma lstep_ok k i op e c c' :
  cluster_ok k c → lstep (i, op, e) c c' →
  cluster_ok k c' ∧
  (∃ l, c_locks c !! i = Some l ∧ lock_effect op l e (value k c) (value k c')) ∧
  ∀ j, j ≠ i → last_seen j c' = last_seen j c.
Proof.
  intros (Hs & Hr & Hk) Hstep. inversion Hstep as [? ? ? s s' locks l l' Hl E]; subst. simpl in *.
  pose proof (Forall_lookup_1 _ _ _ _ Hk Hl) as Ek. simpl in Ek. subst k.
  destruct (lock_run_effect _ _ _ _ _ _ Hs Hr E) as (? & ? & Ek & _ & ?). split; [|split].
  - split; [done|]. split; [done|]. by apply Forall_insert.
  - by exists l.
  - intros j Hj. unfold last_seen. simpl. by rewrite list_lookup_insert_ne by done.
Qed.

(** Steps in which node [j] does nothing and nobody writes [v]. *)
Definition quiet (k : bytes) (j : nat) (v : bytes) (c c' : cluster) : Prop :=
  estep k c c' ∨ ∃ i op e, i ≠ j ∧ op_text op ≠ Some v ∧ lstep (i, op, e) c c'.

Lemma quiet_ok k j v c c' :
  cluster_ok k c → value k c ≠ Some v → quiet k j v c c' →
  cluster_ok k c' ∧ value k c' ≠ Some v ∧ last_seen j c' = last_seen j c.
Proof.
  intros Hok Hv [He|(i & op & e & Hij & Ht & Hstep)].
  - destruct He as [s s' locks Hs' Ev]. unfold cluster_ok, record_ok, value in *. simpl in *.
    rewrite Ev. naive_solver.
  - destruct (lstep_ok _ _ _ _ _ _ Hok Hstep) as (Hok' & (l & _ & Heff) & Hseen).
    split; [done|]. split; [|by apply Hseen]. unfold lock_effect in Heff. destruct op; naive_solver congruence.
Qed.

Lemma quiet_reach k j v c c' :
  cluster_ok k c → value k c ≠ Some v → rtc (quiet k j v) c c' →
  cluster_ok k c' ∧ value k c' ≠ Some v ∧ last_seen j c' = last_seen j c.
Proof.
  intros Hok Hv Hr. induction Hr as [c|c c1 c2 Hq Hr IH]; [done|].
  destruct (quiet_ok _ _ _ _ _ Hok Hv Hq) as (Hok1 & Hv1 & <-). by apply IH.
Qed.
End lock.

Arguments cluster : clear implicits.
Arguments lock_op : clear implicits.
