(* ===== verification/Revision.v ===== *)
(** The revision syncer of a follower: pkg/server/service/revision/revision.go.

    The HTTP client is a parameter: what a GET of a URL returns after the
    requests made so far.  So is the JSON text of a revision ([RevisionJSON]
    encoded by the leader's handler and decoded here).  [singleflight] only
    shares one run among concurrent callers and is left out. *)

From S2P Require Import Prelude GoMonad Storage Strconv Proto Tso Ring Queue Mvcc Creator Scanner.
From S2P Require Import Backend Election.

(** What the code asks of an error: whether it is [syscall.ECONNRESET] or
    [io.EOF], and its text. *)
Record http_err := mkHttpErr { he_reset : bool; he_eof : bool; he_text : bytes }.

(** A failed request, or a status and what reading the body gives. *)
Inductive http_result :=
  | RequestFailed (e : http_err)
  | HttpResponse (status : Z) (body : bytes) (readErr : option http_err).

Record revisionSyncer := mkSyncer {
  rs_enableTLS : bool;
  rs_schema : bytes;
  rs_requests : list bytes;
}.

Definition http : bytes := str "http".
Definition https : bytes := str "https".

Definition NewRevisionSyncer (tls : bool) : revisionSyncer :=
  mkSyncer tls (if tls then https else http) [].

Definition isSendHttpReqToHttpsServerErr (e : http_err) : bool :=
  contains (he_text e) (str "Client sent an HTTP request to an HTTPS server.").

Definition isSendHttpsReqToHttpServerErr (e : http_err) : bool :=
  contains (he_text e) (str "http: server gave HTTP response to HTTPS client").

Definition possibleSchemaMismatch (e : option http_err) : bool :=
  match e with
  | None => false
  | Some e =>
      he_reset e || he_eof e || isSendHttpReqToHttpsServerErr e || isSendHttpsReqToHttpServerErr e
  end.

Definition getRetrySchemas (r : revisionSyncer) : list bytes :=
  if negb (rs_enableTLS r) then [http]
  else if decide (rs_schema r = http) then [http; https]
  else [https; http].

Definition status_url (schema addr : bytes) : bytes := schema ++ str "://" ++ addr ++ str "/status".

Definition status_err (addr : bytes) (code : Z) (msg : bytes) : http_err :=
  mkHttpErr false false
    (str "status code from leader " ++ addr ++ str " is " ++ FormatUint code ++ str ", msg is " ++ msg).

Definition no_schema_err : http_err :=
  mkHttpErr false false (str "rpc error: code = Unavailable desc = no suitable schema to leader").

(** The client and the decoding of the body; a body that cannot be decoded
    leaves the revision as it was initialised. *)
Class RevisionClient := {
  http_get : list bytes → bytes → http_result;
  decode_revision : bytes → option Z;
}.

Section syncer.
Context `{RevisionClient}.

Definition set_schema (schema : bytes) : GoM revisionSyncer () :=
  modify (λ r, mkSyncer (rs_enableTLS r) schema (rs_requests r)).

Definition request (url : bytes) : GoM revisionSyncer http_result := λ r,
  Some (mkSyncer (rs_enableTLS r) (rs_schema r) (rs_requests r ++ [url]), http_get (rs_requests r) url).

Definition getRevisionFromLeader (leaderAddress : bytes) : GoM revisionSyncer (Z * option http_err) :=
  schema ← gets rs_schema;
  response ← request (status_url schema leaderAddress);
  match response with
  | RequestFailed e => mret (0, Some e)
  | HttpResponse code msg readErr =>
      if negb (code =? 200) then mret (0, Some (status_err leaderAddress code msg))
      else match readErr with
           | Some e => mret (0, Some e)
           | None => mret (default 0 (decode_revision msg), None)
           end
  end.

Fixpoint try_schemas (leaderAddress : bytes) (schemas : list bytes) : GoM revisionSyncer (Z * option http_err) :=
  match schemas with
  | [] => mret (0, Some no_schema_err)
  | schema :: schemas' =>
      _ ← set_schema schema;
      '(rev, e) ← getRevisionFromLeader leaderAddress;
      match e with
      | Some _ => if possibleSchemaMismatch e then try_schemas leaderAddress schemas' else mret (0, e)
      | None => mret (rev, None)
      end
  end.

Definition singleFlightGetRevisionFromLeader (leaderAddress : bytes) : GoM revisionSyncer (Z * option http_err) :=
  schemas ← gets getRetrySchemas; try_schemas leaderAddress schemas.

(** [SyncReadRevision] of a node, whose lock tells the leader's address. *)
Definition SyncReadRevision {S R} `{KvStorage S} `{LockCodec R}
    : GoM (node S R * revisionSyncer) (option err) :=
  n ← gets fst;
  if n_leader n then mret None
  else
    '(currentRevision, e) ← zoom snd (λ r t, (t.1, r)) (singleFlightGetRevisionFromLeader (GetLeaderInfo (n_lock n)));
    match e with
    | Some _ => mret (Some (Errorf "get revision from leader failed"))
    | None =>
        _ ← zoom (n_backend ∘ fst) (λ b t, (mkNode b (n_lock t.1) (n_leader t.1) (n_health t.1), t.2))
              (SetCurrentRevision currentRevision);
        mret None
    end.
End syncer.

(** * Facts *)

Section facts.
Context `{RevisionClient}.

(** The text of a body decides whether a refused request is tried with the
    other schema. *)
Lemma try_schemas_requests addr schemas r :
  ∃ r' rev e, try_schemas addr schemas r = Some (r', (rev, e)) ∧
    rs_enableTLS r' = rs_enableTLS r ∧
    (length (rs_requests r') <= length (rs_requests r) + length schemas)%nat.
Proof.
  revert r. induction schemas as [|schema schemas IH]; intros r; simpl.
  { eexists _, _, _. split; [done|]. split; [done|]. lia. }
  unfold getRevisionFromLeader, set_schema, request, modify, gets, mbind, gom_bind, mret, gom_ret. simpl.
  set (r1 := mkSyncer (rs_enableTLS r) schema (rs_requests r ++ [status_url schema addr])).
  assert (∃ r' rev e, try_schemas addr schemas r1 = Some (r', (rev, e)) ∧
    rs_enableTLS r' = rs_enableTLS r ∧ (length (rs_requests r') <= length (rs_requests r) + S (length schemas))%nat) as Hrec.
  { destruct (IH r1) as (r' & rev & e & E & Et & Hl). exists r', rev, e. split; [done|]. split; [done|].
    simpl in Hl. rewrite length_app in Hl. simpl in Hl. lia. }
  assert (length (rs_requests r1) <= length (rs_requests r) + S (length schemas))%nat as H1.
  { simpl. rewrite length_app. simpl. lia. }
  destruct (http_get _ _) as [e|code msg [e|]]; [|destruct (code =? 200)..]; simpl; repeat case_match; eauto 10.
Qed.
End facts.
