(* ===== verification/Follower.v ===== *)
(** Concurrent reads of a follower: SyncReadRevision of
    pkg/server/service/revision/revision.go as a program of atomic steps.

    A read of a follower asks the leader for its revision, stores it as the read
    revision of the backend, and then reads at the revision it finds there.  The
    question is one step: [singleflight] lets one run of it at a time.  The store
    and the load are steps of their own, among those of other reads. *)

From S2P Require Import Prelude GoMonad Prog Storage Strconv Proto Tso Ring Queue Mvcc Creator Scanner.
From S2P Require Import Backend Election Revision.

Section follower.
Context {S R : Type} `{KvStorage S} `{LockCodec R} `{RevisionClient}.
Local Abbreviation state := (node S R * revisionSyncer)%type.
Implicit Types (n : node S R) (r : revisionSyncer).

Definition read_revision (t : state) : Z := committedRevision (tso (n_backend t.1)).

Definition on_backend {A} (m : GoM (backend S) A) : GoM state A :=
  zoom (n_backend ∘ fst) (λ b t, (mkNode b (n_lock t.1) (n_leader t.1) (n_health t.1), t.2)) m.

Definition SyncReadRevision_p : prog state (option err) :=
  n ← atom (gets fst);
  if n_leader n then mret None
  else
    '(currentRevision, e) ← atom (zoom snd (λ r t, (t.1, r))
                              (singleFlightGetRevisionFromLeader (GetLeaderInfo (n_lock n))));
    match e with
    | Some _ => mret (Some (Errorf "get revision from leader failed"))
    | None => _ ← atom (on_backend (SetCurrentRevision currentRevision)); mret None
    end.

(** A read: the sync, and the revision it is then served at. *)
Definition read_p : prog state (option err * Z) :=
  e ← SyncReadRevision_p;
  match e with
  | Some _ => mret (e, 0)
  | None => rev ← atom (on_backend GetCurrentRevision); mret (None, rev)
  end.

Lemma run_SyncReadRevision t : run_prog SyncReadRevision_p t = SyncReadRevision t.
Proof.
  unfold SyncReadRevision_p, SyncReadRevision. rewrite run_prog_bind.
  apply bind_ext; [apply run_prog_atom|]. intros n t1. destruct (n_leader n); [done|].
  rewrite run_prog_bind. apply bind_ext; [apply run_prog_atom|]. intros [rev [e|]] t2; [done|].
  rewrite run_prog_bind. apply bind_ext; [apply run_prog_atom | done].
Qed.

(** A question with one schema. *)
Lemma ask_once addr r body v :
  rs_enableTLS r = false →
  http_get (rs_requests r) (status_url http addr) = HttpResponse 200 body None → decode_revision body = Some v →
  singleFlightGetRevisionFromLeader addr r =
  Some (mkSyncer false http (rs_requests r ++ [status_url http addr]), (v, None)).
Proof.
  intros Ht Hg Hd. unfold singleFlightGetRevisionFromLeader, getRetrySchemas, mbind, gom_bind, gets. rewrite Ht. simpl.
  unfold set_schema, modify, getRevisionFromLeader, request, mbind, gom_bind, gets, mret, gom_ret. simpl.
  rewrite Hg, Ht. simpl. by rewrite Hd.
Qed.

(** The state after a question, after a store. *)
Definition asked (url : bytes) (t : state) : state := (t.1, mkSyncer false http (rs_requests t.2 ++ [url])).

Definition stored (v : Z) (t : state) : state :=
  (mkNode (set_tso (mkTSO v (if dealRevision (tso (n_backend t.1)) <? v then v
                             else dealRevision (tso (n_backend t.1)))) (n_backend t.1))
     (n_lock t.1) (n_leader t.1) (n_health t.1), t.2).

(** The program points of a read that was told [v]. *)
Definition told_p (v : Z) : prog state (option err * Z) :=
  _ ← atom (on_backend (SetCurrentRevision v)); rev ← atom (on_backend GetCurrentRevision); mret (None, rev).

Definition loads_p : prog state (option err * Z) :=
  rev ← atom (on_backend GetCurrentRevision); mret (None, rev).

Lemma step_ask ts1 ts2 t body v :
  let url := status_url http (GetLeaderInfo (n_lock t.1)) in
  n_leader t.1 = false → rs_enableTLS t.2 = false →
  http_get (rs_requests t.2) url = HttpResponse 200 body None → decode_revision body = Some v →
  rtc istep (t, ts1 ++ read_p :: ts2) (asked url t, ts1 ++ told_p v :: ts2).
Proof.
  intros url Hl Ht Hg Hd. pose proof (ask_once (GetLeaderInfo (n_lock t.1)) t.2 body v Ht Hg Hd) as E.
  eapply rtc_l; [by apply istep_mid|]. simpl. rewrite Hl. simpl.
  eapply rtc_l; [apply istep_mid; unfold zoom; by rewrite E|]. apply rtc_refl.
Qed.

Lemma step_store ts1 ts2 t v : istep (t, ts1 ++ told_p v :: ts2) (stored v t, ts1 ++ loads_p :: ts2).
Proof. by apply (istep_mid ts1 ts2 t (stored v t) (on_backend (SetCurrentRevision v)) (λ _, loads_p) ()). Qed.

Lemma step_load ts1 ts2 t :
  istep (t, ts1 ++ loads_p :: ts2) (t, ts1 ++ Done (None, read_revision t) :: ts2).
Proof.
  apply (istep_mid ts1 ts2 t t (on_backend GetCurrentRevision) (λ rev, Done (None, rev)) (read_revision t)).
  unfold on_backend, zoom, GetCurrentRevision, on_tso. simpl. unfold zoom. simpl. rewrite set_tso_id.
  by destruct t as [[] ?].
Qed.

(** * What reads are served at *)

Section reported.
Context (P : Z → Prop).
Context (Hclient : ∀ log url body, http_get log url = HttpResponse 200 body None → P (default 0 (decode_revision body))).

Lemma fetched addr r r' rev :
  singleFlightGetRevisionFromLeader addr r = Some (r', (rev, None)) → P rev.
Proof using Hclient.
  unfold singleFlightGetRevisionFromLeader, mbind, gom_bind, gets. generalize (getRetrySchemas r). intros l.
  revert r. induction l as [|sch l IH]; intros r; simpl; [done|].
  unfold set_schema, modify, getRevisionFromLeader, request, mbind, gom_bind, gets, mret, gom_ret. simpl.
  destruct (http_get _ _) as [e|code body e] eqn:Eg; simpl.
  - destruct (_ || _); [apply IH | done].
  - destruct (Z.eqb_spec code 200) as [->|]; simpl.
    + destruct e as [e|]; simpl; [destruct (_ || _); [apply IH | done]|]. intros [= _ <-]. by eapply Hclient.
    + destruct (_ || _); [apply IH | done].
Qed.

Lemma keeps_read :
  keeps (λ t : state, P (read_revision t)) (λ x, x.1 = None → P x.2) read_p.
Proof using Hclient.
  apply (keeps_bind _ (λ _, True)).
  - unfold SyncReadRevision_p. intros t t' n Ht [= <- <-]. split; [done|]. simpl. destruct (n_leader t.1); [done|].
    intros t1 t2 [rev e] Ht1 E. unfold zoom in E.
    destruct (singleFlightGetRevisionFromLeader _ _) as [[r' [rev' e']]|] eqn:Ef; [|done].
    injection E as <- <- <-. split; [done|]. destruct e' as [e'|]; [done|].
    intros t3 t4 [] Ht3 [= <-]. split; [|done]. unfold read_revision. simpl. by eapply fetched.
  - intros [e|] _; [done|]. intros t t1 rev Ht E. unfold on_backend, zoom, GetCurrentRevision, on_tso, GetRevision, gets in E.
    injection E as <- <-. split; [exact Ht | intros _; exact Ht].
Qed.
End reported.
End follower.
