(* ===== verification/EtcdWatch.v ===== *)
(** The watch service of the etcd front end: pkg/server/etcd/watch.go.

    A stream ([watcher]) carries many watches; each runs in a goroutine of its
    own ([List] for a range stream, [Watch] for a watch) that forwards what a
    channel of the backend yields.  The goroutines and the receive loop are
    programs of atomic steps on the state of the stream, and [wstep] interleaves
    them.

    What a call to the backend or to the peers returns is an argument
    ([services]); a channel is the list of what it yields before it is closed.
    The gRPC transport is a parameter: [send_result log r] is the result of
    sending [r] after the attempts [log].  A message's text of an error is the
    parameter [Error]. *)

From S2P Require Import Prelude GoMonad Prog Storage Proto Etcd.

(** * Messages *)

Record WatchCreateRequest := mkWatchCreate {
  wc_Key : bytes; wc_RangeEnd : bytes; wc_StartRevision : Z }.

Inductive WatchRequest :=
  | WatchCreate (r : WatchCreateRequest)
  | WatchCancel (id : Z)
  | WatchProgress
  | WatchUnknown.

Record WatchResponse := mkWatchResponse {
  wr_Revision : Z;
  wr_WatchId : Z;
  wr_Created : bool;
  wr_Canceled : bool;
  wr_CompactRevision : Z;
  wr_CancelReason : bytes;
  wr_Events : list mvccEvent;
}.

Definition createdResponse (id : Z) : WatchResponse := mkWatchResponse 0 id true false 0 [] [].

Definition cancelResponse (id : Z) (compact : bool) : WatchResponse :=
  mkWatchResponse 0 id false true (if compact then 1 else 0) (str "watch closed") [].

Definition progressResponse (revision : Z) : WatchResponse :=
  mkWatchResponse revision (-1) false false 0 [] [].

Definition eventResponse (revision id : Z) (events : list mvccEvent) : WatchResponse :=
  mkWatchResponse revision id false false 0 [] events.

(** * The state of a stream *)

Record watch := mkWatch { w_start : bytes; w_end : bytes }.

(** [cancelled] holds the watches whose context has been cancelled, [attempts]
    the calls of [Send] with their results, [watchID] the counter shared by all
    streams. *)
Record watcher := mkWatcher {
  watches : gmap Z watch;
  cancelled : gset Z;
  attempts : list (WatchResponse * option err);
  wg : nat;
  watchID : Z;
}.

(** What the handlers ask of the rest of the server. *)
Record services := mkServices {
  sv_IsLeader : bool;
  sv_EtcdProxyEnabled : bool;
  sv_GetCurrentRevision : Z;
  sv_SyncReadRevision : option err;
  sv_ListByStream : bytes → bytes → Z → err + list EtcdWatchResponse;
  sv_backendWatch : bytes → Z → err + list (list mvccEvent);
  sv_peersWatch : bytes → Z → err + list (list mvccEvent);
}.

Class Transport := send_result : list (WatchResponse * option err) → WatchResponse → option err.

Class ErrorText := Error : err → bytes.

Definition isPureWatchRequest (r : WatchCreateRequest) : bool := has_prefix (wc_Key r) (str "/").

(** * Atomic steps *)

(** [context.WithCancel], [atomic.AddInt64(&watchID, 1)] and the entry of the
    map, under the stream's lock. *)
Definition register (r : WatchCreateRequest) : GoM watcher Z := λ w,
  let id := int64 (watchID w + 1) in
  Some (mkWatcher (<[id := mkWatch (wc_Key r) (wc_RangeEnd r)]> (watches w)) (cancelled w)
          (attempts w) (wg w) id, id).

(** Cancel the context of a watch and forget it, under the stream's lock. *)
Definition forget (id : Z) : GoM watcher () := λ w,
  match watches w !! id with
  | Some _ => Some (mkWatcher (delete id (watches w)) ({[id]} ∪ cancelled w) (attempts w) (wg w)
                      (watchID w), ())
  | None => Some (w, ())
  end.

Definition wg_Add : GoM watcher () := λ w,
  Some (mkWatcher (watches w) (cancelled w) (attempts w) (S (wg w)) (watchID w), ()).

(** A negative counter panics. *)
Definition wg_Done : GoM watcher () := λ w,
  match wg w with
  | O => None
  | S n => Some (mkWatcher (watches w) (cancelled w) (attempts w) n (watchID w), ())
  end.

(** The loop of [Close]: every context is cancelled, the entries stay. *)
Definition cancel_all : GoM watcher () := λ w,
  Some (mkWatcher (watches w) (dom (watches w) ∪ cancelled w) (attempts w) (wg w) (watchID w), ()).

Section handlers.
Context `{Transport} `{ErrorText}.

Definition Send (r : WatchResponse) : GoM watcher (option err) := λ w,
  let e := send_result (attempts w) r in
  Some (mkWatcher (watches w) (cancelled w) (attempts w ++ [(r, e)]) (wg w) (watchID w), e).

(** * Handlers *)

Definition Cancel (id : Z) (compact : bool) : prog watcher () :=
  _ ← atom (forget id);
  _ ← atom (Send (cancelResponse id compact));
  mret ().

(** The goroutine [Start] launches. *)
Inductive launch := GoList (id : Z) (r : WatchCreateRequest) | GoWatch (id : Z) (r : WatchCreateRequest).

Definition Start (r : WatchCreateRequest) : prog watcher (option launch) :=
  id ← atom (register r);
  e ← atom (Send (createdResponse id));
  match e with
  | Some _ => _ ← Cancel id false; mret None
  | None =>
      _ ← atom wg_Add;
      mret (Some (if wc_StartRevision r <? 0 then GoList id r else GoWatch id r))
  end.

(** One message of the loop of [RPCServer.Watch]: the error it returns with, or
    a goroutine to launch. *)
Definition handle (sv : services) (msg : WatchRequest) : prog watcher (err + option launch) :=
  match msg with
  | WatchCreate r =>
      if (0 <=? wc_StartRevision r) && isPureWatchRequest r && negb (sv_IsLeader sv) &&
         negb (sv_EtcdProxyEnabled sv)
      then mret (inl (Errorf "watch error: not the leader"))
      else g ← Start r; mret (inr g)
  | WatchCancel id => _ ← Cancel id false; mret (inr None)
  | WatchProgress =>
      e ← atom (Send (progressResponse (int64 (sv_GetCurrentRevision sv))));
      mret (match e with Some e => inl e | None => inr None end)
  | WatchUnknown => mret (inr None)
  end.

(** The event that ends a range stream. *)
Definition eofEvent (reason : option err) : mvccEvent :=
  mkMvccEvent mvccPUT
    (Some (mkMvccKV (str "eof") (Some (from_option Error [] reason)) GetPartitionMagic 0)) None.

(** What [List] sends for one message of the backend's stream. *)
Definition listResponse (id : Z) (r : WatchCreateRequest) (m : EtcdWatchResponse) : WatchResponse :=
  if ews_Canceled m then eventResponse (-1) id [eofEvent (ews_CancelReason m)]
  else eventResponse (int64 (wc_StartRevision r * -1)) id (ews_Events m).

Fixpoint list_loop (id : Z) (r : WatchCreateRequest) (ch : list EtcdWatchResponse) : prog watcher () :=
  match ch with
  | [] => mret ()
  | m :: ch' =>
      e ← atom (Send (listResponse id r m));
      match e with
      | Some _ => _ ← Cancel id true; list_loop id r ch'
      | None => list_loop id r ch'
      end
  end.

Definition List (sv : services) (id : Z) (r : WatchCreateRequest) : prog watcher () :=
  _ ← match sv_SyncReadRevision sv with
      | Some _ => Cancel id true
      | None =>
          match sv_ListByStream sv (wc_Key r) (wc_RangeEnd r) (uint64 (wc_StartRevision r * -1)) with
          | inl _ => Cancel id true
          | inr ch => _ ← list_loop id r ch; atom (forget id)
          end
      end;
  atom wg_Done.

(** [events[len(events)-1].Kv.ModRevision]; a nil [Kv] panics. *)
Definition header_revision (events : list mvccEvent) : option Z :=
  e ← last events; kv ← me_Kv e; Some (mk_ModRevision kv).

(** The loop of [Watch]; once a send has failed the channel is only drained. *)
Fixpoint watch_loop (id : Z) (sendErr : option err) (ch : list (list mvccEvent)) : prog watcher () :=
  match ch with
  | [] => mret ()
  | events :: ch' =>
      match sendErr, events with
      | Some _, _ => watch_loop id sendErr ch'
      | None, [] => watch_loop id None ch'
      | None, _ =>
          rev ← atom (lift_opt (header_revision events));
          sendErr ← atom (Send (eventResponse rev id events));
          match sendErr with
          | Some _ => _ ← Cancel id false; watch_loop id sendErr ch'
          | None => watch_loop id None ch'
          end
      end
  end.

Definition open_watch (sv : services) (r : WatchCreateRequest) : err + list (list mvccEvent) :=
  if sv_IsLeader sv then sv_backendWatch sv (wc_Key r) (uint64 (wc_StartRevision r))
  else sv_peersWatch sv (wc_Key r) (uint64 (wc_StartRevision r)).

Definition Watch (sv : services) (id : Z) (r : WatchCreateRequest) : prog watcher () :=
  _ ← (if negb (isPureWatchRequest r) then Cancel id true
       else match open_watch sv r with
            | inl _ => Cancel id true
            | inr ch => _ ← watch_loop id None ch; Cancel id false
            end);
  atom wg_Done.

Definition goroutine (sv : services) (g : launch) : prog watcher () :=
  match g with GoList id r => List sv id r | GoWatch id r => Watch sv id r end.

(** * The stream *)

Inductive main_pc :=
  | Receiving
  | Handling (p : prog watcher (err + option launch))
  | Closing
  | Waiting
  | Returned.

Record stream := mkStream {
  st_watcher : watcher;
  st_main : main_pc;
  st_goroutines : list (Z * prog watcher ());
}.

Definition launch_id (g : launch) : Z := match g with GoList id _ | GoWatch id _ => id end.

Inductive wstep : stream → stream → Prop :=
  (** the receive loop *)
  | ws_recv sv msg w gs : wstep (mkStream w Receiving gs) (mkStream w (Handling (handle sv msg)) gs)
  | ws_recv_err w gs : wstep (mkStream w Receiving gs) (mkStream w Closing gs)
  | ws_main {B} (m : GoM watcher B) k w w' x gs :
      m w = Some (w', x) →
      wstep (mkStream w (Handling (Do m k)) gs) (mkStream w' (Handling (k x)) gs)
  | ws_return e w gs : wstep (mkStream w (Handling (Done (inl e))) gs) (mkStream w Closing gs)
  | ws_next w gs : wstep (mkStream w (Handling (Done (inr None))) gs) (mkStream w Receiving gs)
  | ws_go sv g w gs :
      wstep (mkStream w (Handling (Done (inr (Some g)))) gs)
            (mkStream w Receiving (gs ++ [(launch_id g, goroutine sv g)]))
  (** the deferred [Close] *)
  | ws_close w w' gs :
      cancel_all w = Some (w', ()) → wstep (mkStream w Closing gs) (mkStream w' Waiting gs)
  | ws_wait w gs : wg w = 0%nat → wstep (mkStream w Waiting gs) (mkStream w Returned gs)
  (** a step or the end of a goroutine *)
  | ws_run {B} (m : GoM watcher B) k w w' x pc gs1 id gs2 :
      m w = Some (w', x) →
      wstep (mkStream w pc (gs1 ++ (id, Do m k) :: gs2)) (mkStream w' pc (gs1 ++ (id, k x) :: gs2))
  | ws_exit w pc gs1 id gs2 :
      wstep (mkStream w pc (gs1 ++ (id, Done ()) :: gs2)) (mkStream w pc (gs1 ++ gs2))
  (** another stream takes an identifier *)
  | ws_other w pc gs :
      wstep (mkStream w pc gs)
        (mkStream (mkWatcher (watches w) (cancelled w) (attempts w) (wg w) (int64 (watchID w + 1))) pc gs).

(** [RPCServer.Watch] on a fresh stream. *)
Definition new_stream (counter : Z) : stream :=
  mkStream (mkWatcher ∅ ∅ [] 0 counter) Receiving [].
End handlers.

(** * What a client of the stream sees *)

(** The responses that went out. *)
Definition delivered (w : watcher) : list WatchResponse :=
  omap (λ a, if a.2 is None then Some a.1 else None) (attempts w).

(** The events a client receives on watch [id]. *)
Definition events_of (id : Z) (w : watcher) : list mvccEvent :=
  concat (map wr_Events (filter (λ r, wr_WatchId r = id) (delivered w))).
