(* ===== verification/EtcdWatchSpec.v ===== *)
(** The invariant of a stream of the etcd watch service, under every
    interleaving of its receive loop and its goroutines. *)

From S2P Require Import Prelude GoMonad Prog Storage Proto Etcd EtcdWatch.

(** * What one access changes *)

(** The map of watches, the responses attempted, the counter of goroutines and
    the identifier counter after an access. *)
Definition changed (w w' : watcher) (ws : gmap Z watch) (att : list (WatchResponse * option err))
    (n : nat) (id : Z) : Prop :=
  watches w' = ws ∧ attempts w' = attempts w ++ att ∧ wg w' = n ∧ watchID w' = id.

(** The events of watch [id] in a list of attempts that were delivered. *)
Definition att_events (id : Z) (att : list (WatchResponse * option err)) : list mvccEvent :=
  concat (map wr_Events (filter (λ r, wr_WatchId r = id)
    (omap (λ a, if a.2 is None then Some a.1 else None) att))).

Lemma events_of_att id w : events_of id w = att_events id (attempts w).
Proof. done. Qed.

Lemma att_events_app id a b : att_events id (a ++ b) = att_events id a ++ att_events id b.
Proof.
  unfold att_events. change list_omap with (@omap list _) in *.
  by rewrite omap_app, filter_app, map_app, concat_app.
Qed.

Lemma att_events_other id r e : wr_WatchId r ≠ id → att_events id [(r, e)] = [].
Proof.
  intros Hne. unfold att_events. destruct e; simpl; [done|].
  rewrite filter_cons_False by done. done.
Qed.

Lemma att_events_own r e :
  att_events (wr_WatchId r) [(r, e)] = match e with None => wr_Events r | Some _ => [] end.
Proof.
  unfold att_events. destruct e; simpl; [done|]. rewrite filter_cons_True by done. simpl.
  by rewrite app_nil_r.
Qed.

Lemma att_events_none id r e : wr_Events r = [] → att_events id [(r, e)] = [].
Proof.
  intros Hr. destruct (decide (wr_WatchId r = id)) as [<-|]; [|by apply att_events_other].
  rewrite att_events_own, Hr. by destruct e.
Qed.

Lemma changed_events w w' ws att n i id :
  changed w w' ws att n i → events_of id w' = events_of id w ++ att_events id att.
Proof. intros (_ & E & _). rewrite !events_of_att, E. apply att_events_app. Qed.

(** * Goroutines *)

(** [Running]: the watch may be in the map; [Cleared]: it is not any more;
    [Finished]: the goroutine has left the wait group. *)
Inductive gstat := Running | Cleared | Finished.

#[global] Instance gstat_eq_dec : EqDecision gstat.
Proof. solve_decision. Defined.

(** What an access of the goroutine of watch [id] may do; the list is what it
    delivers. *)
Inductive gstep (id : Z) (w w' : watcher) : gstat → gstat → list mvccEvent → Prop :=
  | g_send st r e :
      st ≠ Finished → wr_WatchId r = id →
      changed w w' (watches w) [(r, e)] (wg w) (watchID w) →
      gstep id w w' st st (if e is None then wr_Events r else [])
  | g_forget st :
      st ≠ Finished → changed w w' (delete id (watches w)) [] (wg w) (watchID w) →
      gstep id w w' st Cleared []
  | g_skip st : st ≠ Finished → w' = w → gstep id w w' st st []
  | g_done :
      wg w = S (wg w') → changed w w' (watches w) [] (wg w') (watchID w) →
      gstep id w w' Cleared Finished [].

(** All accesses of the program are such steps, and what it has delivered ([h]
    so far) satisfies [K] at every point; [Q] holds at the end. *)
Fixpoint gsafe {A} (id : Z) (K : list mvccEvent → Prop) (p : prog watcher A) (st : gstat)
    (h : list mvccEvent) (Q : A → gstat → list mvccEvent → Prop) : Prop :=
  K h ∧
  match p with
  | Done a => Q a st h
  | Do m k => st ≠ Finished ∧ ∀ w w' x, m w = Some (w', x) →
      ∃ st' l, gstep id w w' st st' l ∧ gsafe id K (k x) st' (h ++ l) Q
  end.

Section gsafe.
Context (id : Z) (K : list mvccEvent → Prop).

Lemma gsafe_here {A} (p : prog watcher A) st h Q : gsafe id K p st h Q → K h.
Proof. destruct p; by intros [? _]. Qed.

Lemma gsafe_bind {A B} (p : prog watcher A) (f : A → prog watcher B) st h Q :
  gsafe id K p st h (λ a st' h', gsafe id K (f a) st' h' Q) → gsafe id K (p ≫= f) st h Q.
Proof.
  revert st h. induction p as [a|C m k IH]; intros st h; [by intros [_ Hq]|].
  intros (HK & Hst & Hm). split; [done|]. split; [done|]. intros w w' x E.
  destruct (Hm w w' x E) as (st' & l & Hg & Hs). exists st', l. split; [done|]. by apply IH.
Qed.

Lemma gsafe_ret {A} (a : A) st h (Q : A → gstat → list mvccEvent → Prop) :
  K h → Q a st h → gsafe id K (mret a) st h Q.
Proof. done. Qed.

Context `{Transport} `{ErrorText}.

Lemma gsafe_Send r st h (Q : option err → gstat → list mvccEvent → Prop) :
  st ≠ Finished → wr_WatchId r = id → K h →
  (∀ e, let h' := h ++ if e is None then wr_Events r else [] in K h' ∧ Q e st h') →
  gsafe id K (atom (Send r)) st h Q.
Proof.
  intros Hst Hid HK HQ. split; [done|]. split; [done|]. intros w w' x E. unfold Send in E. simplify_eq.
  exists st. eexists. split; [by apply g_send|]. apply HQ.
Qed.

Lemma gsafe_forget st h (Q : () → gstat → list mvccEvent → Prop) :
  st ≠ Finished → K h → Q () Cleared h → gsafe id K (atom (forget id)) st h Q.
Proof.
  intros Hst HK HQ. split; [done|]. split; [done|]. intros w w' [] E. exists Cleared, []. split.
  - apply g_forget; [done|]. unfold forget in E.
    destruct (watches w !! id) eqn:El; simplify_eq; unfold changed; simpl; rewrite ?app_nil_r; [done|].
    by rewrite delete_id.
  - rewrite app_nil_r. by apply gsafe_ret.
Qed.

Lemma gsafe_lift {A} (o : option A) st h (Q : A → gstat → list mvccEvent → Prop) :
  st ≠ Finished → K h → (∀ x, o = Some x → Q x st h) → gsafe id K (atom (lift_opt o)) st h Q.
Proof.
  intros Hst HK HQ. split; [done|]. split; [done|]. intros w w' x E. unfold lift_opt in E. destruct o; simplify_eq.
  exists st, []. split; [by apply g_skip|]. rewrite app_nil_r. apply gsafe_ret; auto.
Qed.

Lemma gsafe_Done h (Q : () → gstat → list mvccEvent → Prop) :
  K h → Q () Finished h → gsafe id K (atom wg_Done) Cleared h Q.
Proof.
  intros HK HQ. split; [done|]. split; [done|]. intros w w' [] E. exists Finished, []. unfold wg_Done in E.
  destruct (wg w) eqn:Ew; simplify_eq. split.
  - apply g_done; [done|]. unfold changed. simpl. by rewrite app_nil_r.
  - rewrite app_nil_r. by apply gsafe_ret.
Qed.

Lemma gsafe_Cancel compact st h (Q : () → gstat → list mvccEvent → Prop) :
  st ≠ Finished → K h → Q () Cleared h → gsafe id K (Cancel id compact) st h Q.
Proof.
  intros Hst HK HQ. apply gsafe_bind, gsafe_forget; [done..|].
  apply gsafe_bind, gsafe_Send; [done..|]. intros e. simpl.
  replace (h ++ _) with h by (destruct e; by rewrite app_nil_r).
  split; [done|]. by apply gsafe_ret.
Qed.
End gsafe.

(** * The two goroutines *)

Section goroutines.
Context `{Transport} `{ErrorText} (id : Z).

(** After a failed send nothing more is sent, so that what a watch delivers is
    at all times a prefix of what its channel yields. *)
Lemma gsafe_watch_loop target ch sendErr st h (Q : () → gstat → list mvccEvent → Prop) :
  st ≠ Finished → h `prefix_of` target → (sendErr = None → target = h ++ concat ch) →
  (∀ st' h', st' ≠ Finished → h' `prefix_of` target → Q () st' h') →
  gsafe id (λ l, l `prefix_of` target) (watch_loop id sendErr ch) st h Q.
Proof.
  revert sendErr st h. induction ch as [|events ch IH]; intros sendErr st h Hst Hp Ht HQ.
  { apply gsafe_ret; auto. }
  cbn [watch_loop]. destruct sendErr as [e|]; [by apply IH|]. specialize (Ht eq_refl).
  destruct events as [|ev events]; [apply IH; auto|].
  apply gsafe_bind, gsafe_lift; [done..|]. intros rev _.
  apply gsafe_bind, gsafe_Send; [done..|]. intros [e|]; cbn [wr_Events eventResponse].
  - rewrite app_nil_r. split; [done|]. apply gsafe_bind, gsafe_Cancel; [done..|]. by apply IH.
  - assert (target = (h ++ ev :: events) ++ concat ch) as Et by (rewrite Ht; simpl; by rewrite <-app_assoc).
    assert ((h ++ ev :: events) `prefix_of` target) as Hp' by (rewrite Et; by apply prefix_app_r).
    split; [done|]. apply IH; auto.
Qed.

Definition watch_target (sv : services) (r : WatchCreateRequest) : list mvccEvent :=
  if isPureWatchRequest r then
    match open_watch sv r with inl _ => [] | inr ch => concat ch end
  else [].

Definition finished (_ : ()) (st : gstat) (_ : list mvccEvent) : Prop := st = Finished.

Lemma gsafe_Watch sv r :
  gsafe id (λ l, l `prefix_of` watch_target sv r) (Watch sv id r) Running [] finished.
Proof.
  apply gsafe_bind. unfold watch_target.
  destruct (isPureWatchRequest r); cbn [negb];
    [|apply gsafe_Cancel; [done..|]; by apply gsafe_Done].
  destruct (open_watch sv r) as [e|ch]; [apply gsafe_Cancel; [done..|]; by apply gsafe_Done|].
  apply gsafe_bind, gsafe_watch_loop; [done|apply prefix_nil|done|].
  intros st h Hst Hp. apply gsafe_Cancel; [done..|]. by apply gsafe_Done.
Qed.

(** A range stream goes on after a failed send: it delivers some of the
    messages, in order. *)
Definition list_events (r : WatchCreateRequest) (ch : list EtcdWatchResponse) : list mvccEvent :=
  concat (map (λ m, wr_Events (listResponse id r m)) ch).

Definition list_target (sv : services) (r : WatchCreateRequest) : list mvccEvent :=
  match sv_SyncReadRevision sv with
  | Some _ => []
  | None =>
      match sv_ListByStream sv (wc_Key r) (wc_RangeEnd r) (uint64 (wc_StartRevision r * -1)) with
      | inl _ => []
      | inr ch => list_events r ch
      end
  end.

Lemma listResponse_id r m : wr_WatchId (listResponse id r m) = id.
Proof. unfold listResponse. by destruct (ews_Canceled m). Qed.

Lemma gsafe_list_loop target before r ch st h (Q : () → gstat → list mvccEvent → Prop) :
  st ≠ Finished → h `sublist_of` before → target = before ++ list_events r ch →
  (∀ st' h', st' ≠ Finished → h' `sublist_of` target → Q () st' h') →
  gsafe id (λ l, l `sublist_of` target) (list_loop id r ch) st h Q.
Proof.
  revert before st h. induction ch as [|m ch IH]; intros before st h Hst Hs Ht HQ.
  { unfold list_events in Ht. simpl in Ht. rewrite app_nil_r in Ht. subst. apply gsafe_ret; auto. }
  assert (target = (before ++ wr_Events (listResponse id r m)) ++ list_events r ch) as Et.
  { rewrite Ht. unfold list_events. simpl. by rewrite <-app_assoc. }
  assert (∀ l, l `sublist_of` before ++ wr_Events (listResponse id r m) → l `sublist_of` target) as Hin.
  { intros l Hl. rewrite Et. etrans; [exact Hl|]. by apply sublist_inserts_r. }
  assert (h `sublist_of` before ++ wr_Events (listResponse id r m)) as Hb by by apply sublist_inserts_r.
  cbn [list_loop]. apply gsafe_bind, gsafe_Send; [done|apply listResponse_id|auto|].
  intros [e|]; cbv zeta; rewrite ?app_nil_r.
  - split; [auto|]. apply gsafe_bind, gsafe_Cancel; [auto..|]. by eapply IH.
  - assert (h ++ wr_Events (listResponse id r m) `sublist_of` before ++ wr_Events (listResponse id r m))
      by by apply sublist_app.
    split; [auto|]. by eapply IH.
Qed.

Lemma gsafe_List sv r :
  gsafe id (λ l, l `sublist_of` list_target sv r) (EtcdWatch.List sv id r) Running [] finished.
Proof.
  apply gsafe_bind. unfold list_target.
  destruct (sv_SyncReadRevision sv); [apply gsafe_Cancel; [done|apply sublist_nil_l|]; by apply gsafe_Done|].
  destruct (sv_ListByStream _ _ _ _) as [e|ch];
    [apply gsafe_Cancel; [done|apply sublist_nil_l|]; by apply gsafe_Done|].
  apply gsafe_bind, (gsafe_list_loop _ []); [done|done|done|].
  intros st h Hst Hp. apply gsafe_forget; [done..|]. by apply gsafe_Done.
Qed.
End goroutines.

(** What the goroutine of a launch may deliver. *)
Definition allowed `{ErrorText} (sv : services) (g : launch) (l : list mvccEvent) : Prop :=
  match g with
  | GoList id r => l `sublist_of` list_target id sv r
  | GoWatch _ r => l `prefix_of` watch_target sv r
  end.

Lemma gsafe_goroutine `{Transport} `{ErrorText} sv g :
  gsafe (launch_id g) (allowed sv g) (goroutine sv g) Running [] finished.
Proof. destruct g; [apply gsafe_List | apply gsafe_Watch]. Qed.

(** * The receive loop *)

(** The watch the receive loop is starting, and whether it has joined the wait
    group. *)
Abbreviation pending := (option (Z * bool)).

Definition unpend (id : Z) (pend : pending) : pending :=
  match pend with
  | Some (i, false) => if decide (i = id) then None else pend
  | _ => pend
  end.

Inductive mstep (w w' : watcher) : pending → pending → Prop :=
  | m_register v :
      changed w w' (<[int64 (watchID w + 1) := v]> (watches w)) [] (wg w) (int64 (watchID w + 1)) →
      mstep w w' None (Some (int64 (watchID w + 1), false))
  | m_send pend r e :
      wr_Events r = [] → changed w w' (watches w) [(r, e)] (wg w) (watchID w) →
      mstep w w' pend pend
  | m_add id :
      changed w w' (watches w) [] (S (wg w)) (watchID w) →
      mstep w w' (Some (id, false)) (Some (id, true))
  | m_forget id pend :
      changed w w' (delete id (watches w)) [] (wg w) (watchID w) →
      mstep w w' pend (unpend id pend).

Fixpoint msafe {A} (p : prog watcher A) (pend : pending) (Q : A → pending → Prop) : Prop :=
  match p with
  | Done a => Q a pend
  | Do m k => ∀ w w' x, m w = Some (w', x) →
      ∃ pend', mstep w w' pend pend' ∧ msafe (k x) pend' Q
  end.

Lemma msafe_bind {A B} (p : prog watcher A) (f : A → prog watcher B) pend Q :
  msafe p pend (λ a pend', msafe (f a) pend' Q) → msafe (p ≫= f) pend Q.
Proof.
  revert pend. induction p as [a|C m k IH]; intros pend; [done|]. intros Hm w w' x E.
  destruct (Hm w w' x E) as (pend' & Hg & Hs). exists pend'. split; [done|]. by apply IH.
Qed.

Lemma msafe_mono {A} (p : prog watcher A) pend (P Q : A → pending → Prop) :
  msafe p pend P → (∀ a pend', P a pend' → Q a pend') → msafe p pend Q.
Proof.
  intros Hm HPQ. revert pend Hm. induction p as [a|C m k IH]; intros pend Hm; [by apply HPQ|].
  intros w w' x E. destruct (Hm w w' x E) as (pend' & ? & ?). eauto.
Qed.

Lemma forget_changed id w w' : forget id w = Some (w', ()) →
  changed w w' (delete id (watches w)) [] (wg w) (watchID w).
Proof.
  unfold forget, changed. destruct (watches w !! id) eqn:El; intros; simplify_eq; simpl;
    rewrite ?app_nil_r; [done|]. by rewrite delete_id.
Qed.

(** How a message ends: nothing pending, or the launch of the pending watch. *)
Definition handled (res : err + option launch) (pend : pending) : Prop :=
  match res with
  | inl _ | inr None => pend = None
  | inr (Some g) => pend = Some (launch_id g, true)
  end.

Section main.
Context `{Transport} `{ErrorText}.

Lemma msafe_Send r pend (Q : option err → pending → Prop) :
  wr_Events r = [] → (∀ e, Q e pend) → msafe (atom (Send r)) pend Q.
Proof.
  intros Hr HQ w w' x E. unfold Send in E. simplify_eq. exists pend. split; [|apply HQ].
  by eapply (m_send _ _ pend r).
Qed.

Lemma msafe_Cancel id compact pend (Q : () → pending → Prop) :
  Q () (unpend id pend) → msafe (Cancel id compact) pend Q.
Proof.
  intros HQ. intros w w' [] E. eexists. split; [by apply m_forget, forget_changed|].
  by apply (msafe_bind (atom (Send _))), msafe_Send.
Qed.

Lemma msafe_Start r :
  msafe (Start r) None (λ g pend, handled (inr g) pend).
Proof.
  intros w w' x E. unfold register in E. simplify_eq. set (id := int64 (watchID w + 1)).
  exists (Some (id, false)). split.
  { eapply m_register. split; [done|]. simpl. by rewrite app_nil_r. }
  clearbody id. clear w. apply (msafe_bind (atom (Send _))), msafe_Send; [done|]. intros [e|].
  - apply msafe_bind, msafe_Cancel. unfold unpend. by rewrite decide_True.
  - intros w w' [] E. unfold wg_Add in E. simplify_eq. exists (Some (id, true)). split.
    + apply m_add. split; [done|]. simpl. by rewrite app_nil_r.
    + simpl. by case_match.
Qed.

Lemma msafe_handle sv msg : msafe (handle sv msg) None handled.
Proof.
  destruct msg as [r|id| |]; cbn [handle]; [|by apply msafe_bind, msafe_Cancel| |done].
  - case_match; [done|]. by apply msafe_bind, (msafe_mono _ _ _ _ (msafe_Start r)).
  - apply msafe_bind, msafe_Send; [done|]. by intros [].
Qed.
End main.

(** * The invariant of a stream *)

Abbreviation deliveries := (gmap Z (list mvccEvent → Prop)).

Definition main_ok (pc : main_pc) (pend : pending) : Prop :=
  match pc with
  | Handling p => msafe p pend handled
  | _ => pend = None
  end.

Definition pend_ids (pend : pending) : list Z := match pend with Some (id, _) => [id] | None => [] end.

Definition pend_wg (pend : pending) : nat := match pend with Some (_, true) => 1 | _ => 0 end.

Definition active (st : gstat) : nat := if decide (st = Finished) then 0 else 1.

(** A goroutine at [st] whose watch may deliver what [spec] says. *)
Definition gok (spec : deliveries) (w : watcher) (g : Z * prog watcher ()) (st : gstat) : Prop :=
  ∃ K, spec !! g.1 = Some K ∧ gsafe g.1 K g.2 st (events_of g.1 w) finished.

(** [spec] says what each launched watch may deliver; [sts] is where the
    goroutines are. *)
Record winv (spec : deliveries) (pend : pending) (sts : list gstat) (s : stream) : Prop := {
  wi_main : main_ok (st_main s) pend;
  wi_goroutines : Forall2 (gok spec (st_watcher s)) (st_goroutines s) sts;
  wi_nodup : NoDup (pend_ids pend ++ (st_goroutines s).*1);
  wi_pending : ∀ id, id ∈ pend_ids pend → spec !! id = None ∧ id <= watchID (st_watcher s);
  wi_spec : ∀ id K, spec !! id = Some K → id <= watchID (st_watcher s) ∧ K (events_of id (st_watcher s));
  wi_fresh : ∀ id, spec !! id = None → events_of id (st_watcher s) = [];
  wi_watches : ∀ id, is_Some (watches (st_watcher s) !! id) →
    id ∈ pend_ids pend ∨ ∃ p, ((id, p), Running) ∈ zip (st_goroutines s) sts;
  wi_wg : wg (st_watcher s) = (sum_list_with active sts + pend_wg pend)%nat;
  wi_counter : 0 <= watchID (st_watcher s) < two63;
  wi_returned : st_main s = Returned → wg (st_watcher s) = 0%nat;
}.

Lemma winv_init c : 0 <= c < two63 → winv ∅ None [] (new_stream c).
Proof.
  intros Hc. split; simpl; try done.
  - constructor.
  - by intros id ?%elem_of_nil.
  - by intros id [v ?%lookup_empty_Some].
Qed.

Lemma gok_frame spec w w' gs sts id :
  id ∉ gs.*1 → (∀ i, i ≠ id → events_of i w' = events_of i w) →
  Forall2 (gok spec w) gs sts → Forall2 (gok spec w') gs sts.
Proof.
  intros Hid Hev. induction 1 as [|[i p] st gs sts (K & HK & Hs) Hgs IH]; [constructor|].
  simpl in Hid. apply not_elem_of_cons in Hid as [Hne Hid]. constructor; [|auto].
  exists K. simpl in *. by rewrite Hev.
Qed.

Lemma zip_middle {A B} (l1 l2 : list A) (k1 k2 : list B) x y :
  length l1 = length k1 → zip (l1 ++ x :: l2) (k1 ++ y :: k2) = zip l1 k1 ++ (x, y) :: zip l2 k2.
Proof. intros El. by rewrite zip_with_app. Qed.

(** A step of the receive loop leaves what goroutines have delivered. *)
Lemma mstep_events w w' pend pend' id : mstep w w' pend pend' → events_of id w' = events_of id w.
Proof.
  destruct 1 as [v Hc|pend r e Hr Hc|i Hc|i pend Hc]; rewrite (changed_events _ _ _ _ _ _ id Hc);
    rewrite ?app_nil_r; [done| |done..].
  by rewrite (att_events_none id r e Hr), app_nil_r.
Qed.

(** A step of a goroutine changes the events of its own watch only. *)
Lemma gstep_events id w w' st st' l i :
  gstep id w w' st st' l → events_of i w' = events_of i w ++ if decide (i = id) then l else [].
Proof.
  destruct 1 as [st r e _ Hr Hc|st _ Hc|st _ ->|_ Hc]; rewrite ?(changed_events _ _ _ _ _ _ i Hc).
  - case_decide; subst; [by rewrite att_events_own | by rewrite att_events_other].
  - by case_decide.
  - case_decide; by rewrite app_nil_r.
  - by case_decide.
Qed.

(** ... and its own entry of the map. *)
Lemma gstep_frame id w w' st st' l :
  gstep id w w' st st' l →
  watchID w' = watchID w ∧ (wg w' + active st = wg w + active st')%nat ∧ st ≠ Finished ∧
  (∀ i, is_Some (watches w' !! i) → is_Some (watches w !! i) ∧ (i = id → st = Running → st' = Running)).
Proof.
  destruct 1 as [st r e Hst Hr Hc|st Hst Hc|st Hst ->|Hn Hc].
  - destruct Hc as (-> & _ & -> & ->). naive_solver.
  - destruct Hc as (-> & _ & -> & ->). split; [done|]. split; [by destruct st|]. split; [done|].
    intros i [x Hx]. apply lookup_delete_Some in Hx as [Hne Hx]. split; [by eexists|]. by intros ->.
  - naive_solver.
  - destruct Hc as (-> & _ & _ & ->). rewrite Hn. unfold active. simpl. naive_solver lia.
Qed.

(** ** Steps of the receive loop *)

Lemma next_id c : 0 <= c < two63 → 0 <= int64 (c + 1) → int64 (c + 1) = c + 1 ∧ c + 1 < two63.
Proof.
  intros Hc Hpos. unfold int64, two63, two64 in *.
  destruct (decide (c + 1 < 9223372036854775808)); [mlia|].
  replace c with 9223372036854775807 in * by lia. done.
Qed.

(** The pending watch before and after a step of the receive loop: the same, one
    that is gone, or one with the next identifier. *)
Lemma mstep_pending w w' pend pend' :
  mstep w w' pend pend' → 0 <= watchID w < two63 → 0 <= watchID w' →
  (wg w' + pend_wg pend = wg w + pend_wg pend')%nat ∧ watchID w <= watchID w' < two63 ∧
  (pend_ids pend' = pend_ids pend ∨ pend_ids pend' = [] ∨
   pend_ids pend = [] ∧ pend_ids pend' = [watchID w'] ∧ watchID w < watchID w') ∧
  (∀ i, is_Some (watches w' !! i) → i ∈ pend_ids pend' ∨ is_Some (watches w !! i) ∧ i ∉ pend_ids pend).
Proof.
  destruct 1 as [v Hc|pend r e Hr Hc|i Hc|i pend Hc]; destruct Hc as (-> & _ & -> & ->); intros Hr0 Hr1.
  - destruct (next_id _ Hr0 Hr1) as [-> ?]. simpl. repeat split; try lia.
    + right; right. repeat split; lia.
    + intros i. destruct (decide (i = watchID w + 1)) as [->|]; [left; set_solver|].
      rewrite lookup_insert_ne by done. right. split; [done|]. set_solver.
  - repeat split; try lia; [by left|]. intros j ?.
    destruct (decide (j ∈ pend_ids pend)); [by left | by right].
  - repeat split; simpl; try lia; [by left|]. intros j ?.
    destruct (decide (j = i)) as [->|]; [left; set_solver | right; set_solver].
  - assert (pend_wg (unpend i pend) = pend_wg pend) as E.
    { destruct pend as [[j []]|]; try done. simpl. by case_decide. }
    rewrite E. repeat split; try lia.
    + destruct pend as [[j []]|]; [by left| |by left]. simpl. case_decide; [right; by left | by left].
    + intros j [x Hx]. apply lookup_delete_Some in Hx as [Hne Hx].
      destruct (decide (j ∈ pend_ids pend)) as [Hj|]; [left|right; split; [by eexists | done]].
      destruct pend as [[k []]|]; [done| |done]. simpl in *. apply list_elem_of_singleton in Hj as ->.
      rewrite decide_False by done. set_solver.
Qed.

Lemma winv_main spec pend pend' sts w w' pc pc' gs :
  winv spec pend sts (mkStream w pc gs) → mstep w w' pend pend' → 0 <= watchID w' →
  main_ok pc' pend' → pc' ≠ Returned → winv spec pend' sts (mkStream w' pc' gs).
Proof.
  intros [Hm Hg Hn Hp Hs Hf Hw Hwg Hc _] Hstep Hpos Hm' Hpc. simpl in *.
  destruct (mstep_pending _ _ _ _ Hstep Hc Hpos) as (Ewg & Hid & Hpend & Hws).
  assert (∀ id, events_of id w' = events_of id w) as Hev by (intros; by eapply mstep_events).
  assert (∀ id, id ∈ gs.*1 → id <= watchID w) as Hgs.
  { intros id ([i p] & -> & Hin)%list_elem_of_fmap. apply list_elem_of_lookup in Hin as [j Hj].
    destruct (Forall2_lookup_l _ _ _ _ _ Hg Hj) as (st & _ & K & HK & _). by apply Hs in HK as [? _]. }
  split; simpl; try done.
  - eapply Forall2_impl; [exact Hg|]. intros [id p] st (K & HK & Hsafe). exists K. by rewrite Hev.
  - destruct Hpend as [->|[->|(E & -> & Hlt)]]; [done| |].
    + by apply NoDup_app in Hn as (_ & _ & ?).
    + rewrite E in Hn. simpl in *. constructor; [|done]. intros ?%Hgs. lia.
  - intros id Hin. destruct Hpend as [E|[E|(_ & E & Hlt)]]; rewrite E in Hin.
    + destruct (Hp id Hin). split; [done | lia].
    + by apply elem_of_nil in Hin.
    + apply list_elem_of_singleton in Hin as ->. split; [|lia].
      destruct (spec !! watchID w') as [K|] eqn:EK; [|done]. apply Hs in EK as [? _]. lia.
  - intros id K HK. rewrite Hev. destruct (Hs id K HK). split; [lia | done].
  - intros id Hid'. rewrite Hev. auto.
  - intros id Hid'. destruct (Hws id Hid') as [|[Hin Hni]]; [by left|].
    destruct (Hw id Hin); [done | by right].
  - rewrite Hwg in Ewg. lia.
  - lia.
Qed.

(** The launch of the pending watch. *)
Lemma winv_launch `{Transport} `{ErrorText} spec sts sv g w gs :
  winv spec (Some (launch_id g, true)) sts (mkStream w (Handling (Done (inr (Some g)))) gs) →
  winv (<[launch_id g := allowed sv g]> spec) None (sts ++ [Running])
    (mkStream w Receiving (gs ++ [(launch_id g, goroutine sv g)])).
Proof.
  intros [Hm Hg Hn Hp Hs Hf Hw Hwg Hc Hret]. simpl in *.
  destruct (Hp (launch_id g)) as [Hnone Hle]; [set_solver|].
  assert (events_of (launch_id g) w = []) as Ev by auto.
  pose proof (gsafe_goroutine sv g) as Hsafe.
  split; simpl; try done.
  - apply Forall2_app.
    + eapply Forall2_impl; [exact Hg|]. intros [i p] st (K & HK & HK'). exists K. split; [|done]. simpl in *.
      rewrite lookup_insert_ne; [done|]. intros <-. by rewrite Hnone in HK.
    + constructor; [|constructor]. exists (allowed sv g). simpl. rewrite lookup_insert, decide_True, Ev by done.
      done.
  - rewrite fmap_app. simpl. inversion_clear Hn as [|? ? Hni Hnd]. apply NoDup_app. split; [done|].
    split; [set_solver|]. apply NoDup_singleton.
  - intros id Hin. by apply elem_of_nil in Hin.
  - intros id K. destruct (decide (id = launch_id g)) as [->|].
    + rewrite lookup_insert, decide_True by done. intros [= <-]. split; [done|]. rewrite Ev.
      by eapply gsafe_here.
    + rewrite lookup_insert_ne by done. auto.
  - intros id. destruct (decide (id = launch_id g)) as [->|]; [done|].
    rewrite lookup_insert_ne by done. auto.
  - intros id Hid. right. rewrite (zip_middle gs [] sts []) by (by eapply Forall2_length).
    destruct (Hw id Hid) as [Hin|[p Hin]]; [|exists p; set_solver].
    apply list_elem_of_singleton in Hin as ->. exists (goroutine sv g). set_solver.
  - rewrite sum_list_with_app. simpl. lia.
Qed.

(** ** Steps of the goroutines *)

Lemma winv_run {B} spec pend sts w w' pc gs1 id (m : GoM watcher B) k gs2 x :
  winv spec pend sts (mkStream w pc (gs1 ++ (id, Do m k) :: gs2)) → m w = Some (w', x) →
  ∃ sts', winv spec pend sts' (mkStream w' pc (gs1 ++ (id, k x) :: gs2)).
Proof.
  intros [Hm Hg Hn Hp Hs Hf Hw Hwg Hc Hret] E. simpl in *.
  apply Forall2_app_inv_l in Hg as (sts1 & sts2' & Hg1 & Hg2 & ->).
  apply Forall2_cons_inv_l in Hg2 as (st & sts2 & (K & HK & _ & _ & Hsafe) & Hg2 & ->). simpl in *.
  destruct (Hsafe w w' x E) as (st' & l & Hstep & Hsafe').
  destruct (gstep_frame _ _ _ _ _ _ Hstep) as (Eid & Ewg & Hst & Hws).
  assert (∀ i, i ≠ id → events_of i w' = events_of i w) as Hev.
  { intros i Hi. rewrite (gstep_events _ _ _ _ _ _ i Hstep), decide_False, app_nil_r by done. done. }
  assert (events_of id w' = events_of id w ++ l) as Hown.
  { by rewrite (gstep_events _ _ _ _ _ _ id Hstep), decide_True. }
  assert (NoDup (gs1.*1 ++ id :: gs2.*1)) as Hnd.
  { apply NoDup_app in Hn as (_ & _ & Hn). by rewrite fmap_app in Hn. }
  apply NoDup_app in Hnd as (_ & Hd1 & Hd2). inversion_clear Hd2 as [|? ? Hd3 _].
  pose proof (Forall2_length _ _ _ Hg1) as El. rewrite (zip_middle _ _ _ _ _ _ El) in Hw.
  exists (sts1 ++ st' :: sts2). split; simpl; try done.
  - apply Forall2_app; [|constructor; [exists K; simpl; by rewrite Hown|]]; (eapply gok_frame; [|exact Hev|done]).
    + intros Hin. apply (Hd1 id Hin). left.
    + done.
  - rewrite fmap_app in Hn |- *. done.
  - by rewrite Eid.
  - rewrite Eid. intros i K' HK'. split; [by eapply Hs|]. destruct (decide (i = id)) as [->|].
    + rewrite HK in HK'. simplify_eq. rewrite Hown. by eapply gsafe_here.
    + rewrite Hev by done. by eapply Hs.
  - intros i Hi. rewrite Hev; [auto|]. intros ->. by rewrite HK in Hi.
  - intros i Hi. rewrite (zip_middle _ _ _ _ _ _ El). destruct (Hws i Hi) as [Hi' Hrun].
    destruct (Hw i Hi') as [|[p Hin]]; [by left|]. right.
    apply elem_of_app in Hin as [Hin|Hin]; [exists p; set_solver|].
    apply elem_of_cons in Hin as [Hin|Hin]; [|exists p; set_solver].
    simplify_eq. exists (k x). rewrite Hrun by done. set_solver.
  - rewrite sum_list_with_app in Hwg |- *. simpl in *. lia.
  - by rewrite Eid.
  - intros Er. specialize (Hret Er). rewrite sum_list_with_app in Hwg. simpl in Hwg.
    unfold active in Hwg. rewrite decide_False in Hwg by done. lia.
Qed.

Lemma winv_exit spec pend sts w pc gs1 id gs2 :
  winv spec pend sts (mkStream w pc (gs1 ++ (id, Done ()) :: gs2)) →
  ∃ sts', winv spec pend sts' (mkStream w pc (gs1 ++ gs2)).
Proof.
  intros [Hm Hg Hn Hp Hs Hf Hw Hwg Hc Hret]. simpl in *.
  apply Forall2_app_inv_l in Hg as (sts1 & sts2' & Hg1 & Hg2 & ->).
  apply Forall2_cons_inv_l in Hg2 as (st & sts2 & (K & HK & _ & Hfin) & Hg2 & ->).
  unfold finished in Hfin. subst st. pose proof (Forall2_length _ _ _ Hg1) as El.
  rewrite (zip_middle _ _ _ _ _ _ El) in Hw. exists (sts1 ++ sts2). split; simpl; try done.
  - by apply Forall2_app.
  - rewrite fmap_app in Hn |- *. eapply sublist_NoDup; [exact Hn|].
    apply sublist_app; [done|]. apply sublist_app; [done|]. by apply sublist_cons.
  - intros i Hi. rewrite zip_with_app by done. destruct (Hw i Hi) as [|[p Hin]]; [by left|]. right.
    exists p. set_solver.
  - rewrite sum_list_with_app in Hwg |- *. done.
Qed.

(** * Reachable states *)

(** Steps in which the shared counter does not overflow. *)
Definition wstep_ok `{Transport} `{ErrorText} (s s' : stream) : Prop :=
  wstep s s' ∧ 0 <= watchID (st_watcher s').

Section reach.
Context `{Transport} `{ErrorText}.

Lemma winv_step spec pend sts s s' :
  winv spec pend sts s → wstep_ok s s' →
  ∃ spec' pend' sts', spec ⊆ spec' ∧ winv spec' pend' sts' s'.
Proof.
  intros Hinv [Hstep Hpos]. destruct Hstep; simpl in Hpos.
  - exists spec, pend, sts. split; [done|]. pose proof (wi_main _ _ _ _ Hinv) as Hm. simpl in Hm. subst pend.
    destruct Hinv; split; try done; simpl. apply msafe_handle.
  - exists spec, pend, sts. split; [done|]. destruct Hinv; by split.
  - pose proof (wi_main _ _ _ _ Hinv) as Hm. destruct (Hm _ _ _ H1) as (pend' & Hs & Hm').
    exists spec, pend', sts. split; [done|]. by eapply winv_main.
  - exists spec, pend, sts. split; [done|]. destruct Hinv; by split.
  - exists spec, pend, sts. split; [done|]. destruct Hinv; by split.
  - pose proof (wi_main _ _ _ _ Hinv) as Hm. simpl in Hm. subst pend.
    eexists _, _, _. split; [|by eapply winv_launch]. apply insert_subseteq.
    by apply (wi_pending _ _ _ _ Hinv); left.
  - exists spec, pend, sts. split; [done|]. unfold cancel_all in H1. simplify_eq.
    destruct Hinv; by split.
  - exists spec, pend, sts. split; [done|]. destruct Hinv; by split.
  - destruct (winv_run _ _ _ _ _ _ _ _ _ _ _ _ Hinv H1) as [sts' ?]. by exists spec, pend, sts'.
  - destruct (winv_exit _ _ _ _ _ _ _ _ Hinv) as [sts' ?]. by exists spec, pend, sts'.
  - exists spec, pend, sts. split; [done|]. pose proof (wi_counter _ _ _ _ Hinv) as Hc. simpl in Hc.
    destruct (next_id _ Hc Hpos) as [E ?].
    destruct Hinv as [? ? ? Hp Hs]; split; simpl in *; try done; rewrite ?E.
    + intros id Hin. destruct (Hp id Hin). split; [done | lia].
    + intros id K HK. destruct (Hs id K HK). split; [lia | done].
    + lia.
Qed.

Lemma winv_reach spec pend sts s s' :
  winv spec pend sts s → rtc wstep_ok s s' →
  ∃ spec' pend' sts', spec ⊆ spec' ∧ winv spec' pend' sts' s'.
Proof.
  intros Hinv Hr. revert spec pend sts Hinv. induction Hr as [s|s s1 s2 Hstep Hr IH]; intros spec pend sts Hinv.
  { by exists spec, pend, sts. }
  destruct (winv_step _ _ _ _ _ Hinv Hstep) as (spec1 & pend1 & sts1 & Hs1 & Hinv1).
  destruct (IH _ _ _ Hinv1) as (spec2 & pend2 & sts2 & Hs2 & Hinv2).
  exists spec2, pend2, sts2. split; [by etrans | done].
Qed.

(** When the stream has returned, no goroutine can still act. *)
Lemma winv_returned spec pend sts s :
  winv spec pend sts s → st_main s = Returned →
  watches (st_watcher s) = ∅ ∧ Forall (λ g, g.2 = Done ()) (st_goroutines s).
Proof.
  intros [Hm Hg Hn Hp Hs Hf Hw Hwg Hc Hret] Er. rewrite Er in Hm. simpl in Hm. subst pend.
  specialize (Hret Er). rewrite Hret in Hwg.
  assert (Forall (λ st, st = Finished) sts) as Hfin.
  { clear -Hwg. induction sts as [|st sts IH]; [constructor|]. simpl in Hwg. unfold active in Hwg at 1.
    case_decide; [|simpl in Hwg; lia]. constructor; [done|]. by apply IH. }
  split.
  - apply map_eq. intros i. rewrite lookup_empty. destruct (watches (st_watcher s) !! i) eqn:E; [|done].
    destruct (Hw i) as [Hin|[p Hin]]; [by rewrite E | by apply elem_of_nil in Hin |].
    apply elem_of_zip_r in Hin. rewrite Forall_forall in Hfin. by apply Hfin in Hin.
  - clear -Hg Hfin. induction Hg as [|[i p] st gs sts (K & _ & Hs) Hg IH]; [constructor|].
    inversion_clear Hfin. subst. constructor; [|by apply IH]. simpl in *.
    destruct p as [[]|B m k]; [done|]. by destruct Hs as (_ & ? & _).
Qed.
End reach.

(** * Runs on a transport that works *)

Definition respond (rs : list WatchResponse) (w : watcher) : watcher :=
  mkWatcher (watches w) (cancelled w) (attempts w ++ map (λ r, (r, None)) rs) (wg w) (watchID w).

Lemma respond_app rs rs' w : respond rs' (respond rs w) = respond (rs ++ rs') w.
Proof. unfold respond. simpl. by rewrite map_app, app_assoc. Qed.

Lemma respond_nil w : respond [] w = w.
Proof. unfold respond. simpl. rewrite app_nil_r. by destruct w. Qed.

Lemma events_of_respond id rs w :
  Forall (λ r, wr_WatchId r = id) rs → events_of id (respond rs w) = events_of id w ++ concat (map wr_Events rs).
Proof.
  intros Hid. rewrite !events_of_att. simpl. rewrite att_events_app. f_equal.
  induction Hid as [|r rs Hr _ IH]; [done|].
  change (map (λ r, (r, @None err)) (r :: rs)) with ([(r, @None err)] ++ map (λ r, (r, @None err)) rs).
  rewrite att_events_app, IH. by rewrite <-Hr, att_events_own.
Qed.

(** What a watch sends for the batches of its channel. *)
Definition watch_responses (id : Z) (ch : list (list mvccEvent)) : list WatchResponse :=
  omap (λ events, rev ← header_revision events; Some (eventResponse rev id events)) ch.

Definition has_kv (e : mvccEvent) : Prop := is_Some (me_Kv e).

Lemma header_revision_some events :
  events ≠ [] → Forall has_kv events → is_Some (header_revision events).
Proof.
  intros Hne Hkv. unfold header_revision. destruct (last events) as [e|] eqn:El.
  - simpl. rewrite Forall_forall in Hkv. apply last_Some_elem_of, Hkv in El as [kv ->]. simpl. by eexists.
  - by apply last_None in El.
Qed.

Section runs.
Context `{Transport} `{ErrorText}.
Hypothesis transport_ok : ∀ log r, send_result log r = None.

Lemma run_Send {A} r (k : option err → prog watcher A) w :
  run_prog (atom (Send r) ≫= k) w = run_prog (k None) (respond [r] w).
Proof. apply run_step. unfold Send. by rewrite transport_ok. Qed.

Lemma run_watch_loop id ch w :
  Forall (Forall has_kv) ch →
  run_prog (watch_loop id None ch) w = Some (respond (watch_responses id ch) w, ()).
Proof.
  intros Hch. revert w. induction Hch as [|events ch Hkv Hch IH]; intros w.
  { by rewrite respond_nil. }
  cbn [watch_loop]. destruct events as [|ev events]; [exact (IH w)|].
  destruct (header_revision_some (ev :: events)) as [rev Erev]; [done|done|].
  erewrite run_step by (unfold lift_opt; by rewrite Erev).
  rewrite run_Send, IH, respond_app. unfold watch_responses. simpl omap. by rewrite Erev.
Qed.

Lemma run_list_loop id r ch w :
  run_prog (list_loop id r ch) w = Some (respond (map (listResponse id r) ch) w, ()).
Proof.
  revert w. induction ch as [|m ch IH]; intros w; [by rewrite respond_nil|].
  cbn [list_loop]. by rewrite run_Send, IH, respond_app.
Qed.

Definition forgotten (id : Z) (w : watcher) : watcher :=
  mkWatcher (delete id (watches w))
    (if watches w !! id is Some _ then {[id]} ∪ cancelled w else cancelled w)
    (attempts w) (wg w) (watchID w).

Lemma forget_run id w : forget id w = Some (forgotten id w, ()).
Proof.
  unfold forget, forgotten. destruct (watches w !! id) eqn:E; [done|]. rewrite delete_id by done. by destruct w.
Qed.

Lemma run_Cancel id compact w :
  run_prog (Cancel id compact) w = Some (respond [cancelResponse id compact] (forgotten id w), ()).
Proof. unfold Cancel. by erewrite run_step, run_Send by apply forget_run. Qed.

Definition left_wg (w : watcher) : watcher :=
  mkWatcher (watches w) (cancelled w) (attempts w) (pred (wg w)) (watchID w).

Lemma run_wg_Done w : wg w ≠ 0%nat → run_prog (atom wg_Done) w = Some (left_wg w, ()).
Proof. rewrite run_prog_atom. unfold wg_Done, left_wg. by destruct (wg w). Qed.

(** A watch that is opened forwards every batch and announces its end. *)
Lemma run_Watch sv id r ch w :
  isPureWatchRequest r = true → open_watch sv r = inr ch → Forall (Forall has_kv) ch → wg w ≠ 0%nat →
  run_prog (Watch sv id r) w =
  Some (left_wg (respond [cancelResponse id false]
    (forgotten id (respond (watch_responses id ch) w))), ()).
Proof.
  intros Hpure Hopen Hch Hwg. unfold Watch. rewrite Hpure, Hopen. cbn [negb].
  erewrite run_bind.
  - apply run_wg_Done. simpl. done.
  - erewrite run_bind by by apply run_watch_loop. apply run_Cancel.
Qed.

(** A range stream forwards every message. *)
Lemma run_List sv id r ch w :
  sv_SyncReadRevision sv = None →
  sv_ListByStream sv (wc_Key r) (wc_RangeEnd r) (uint64 (wc_StartRevision r * -1)) = inr ch →
  wg w ≠ 0%nat →
  run_prog (EtcdWatch.List sv id r) w =
  Some (left_wg (forgotten id (respond (map (listResponse id r) ch) w)), ()).
Proof.
  intros Hsync Hopen Hwg. unfold EtcdWatch.List. rewrite Hsync, Hopen.
  erewrite run_bind.
  - apply run_wg_Done. simpl. done.
  - erewrite run_bind by apply run_list_loop. rewrite run_prog_atom. apply forget_run.
Qed.
End runs.
