(* ===== verification/EtcdProxy.v ===== *)
(** The proxy of a follower: pkg/server/service/etcdproxy.

    A background loop keeps a client of the etcd API connected to the leader
    ([updateClient], once a second); transactions and watches of the follower are
    forwarded with it.  etcd's client and the election are parameters
    ([EtcdClient], [LeaderElection]); both may answer differently at every call.
    The fields that requests read, the client and the channel that ends watches,
    change under the write lock only, so that a round of the loop is one step for
    them; the goroutine of a watch reads the client without the lock, also in the
    middle of a round ([reads_client]).  A panic of a goroutine ends the process
    ([proxy_exit]).  Channels that are only closed are numbers. *)

From S2P Require Import Prelude GoMonad Storage NetUtil Etcd.

Class LeaderElection (D : Type) := {
  el_IsLeader : GoM D bool;
  el_GetLeaderInfo : GoM D bytes;
}.

(** What a watch of the client receives: events, or an error of the watch. *)
Inductive wresp := WEvents (events : list mvccEvent) | WErr (e : err).

Class EtcdClient (D C : Type) := {
  (** [clientv3.New] for an endpoint, with the TLS configuration or without *)
  cl_New : bytes → bool → GoM D (err + C);
  cl_MemberList : C → GoM D (option err);
  cl_Close : C → GoM D ();
  cl_Txn : C → TxnRequest → GoM D (err + TxnResponse);
  (** the responses on the channel of a watch with [WithRev] and [WithPrefix],
      until it is closed *)
  cl_Watch : C → bytes → Z → list wresp;
}.

Record etcdProxy (C : Type) := mkProxy {
  tlsConfig : bool;
  closed : option nat;
  client : option C;
  p_err : option err;
  curLeader : bytes;
}.
Arguments mkProxy {C}.
Arguments tlsConfig {C}.
Arguments closed {C}.
Arguments client {C}.
Arguments p_err {C}.
Arguments curLeader {C}.

(** The proxy with what is around it: how many channels were made and which are
    closed. *)
Record pworld (D C : Type) := mkWorld {
  w_env : D;
  w_proxy : etcdProxy C;
  w_made : nat;
  w_closed : list nat;
}.
Arguments mkWorld {D C}.
Arguments w_env {D C}.
Arguments w_proxy {D C}.
Arguments w_made {D C}.
Arguments w_closed {D C}.

Section proxy.
Context {D C : Type} `{LeaderElection D, EtcdClient D C}.

Definition on_env {A} (m : GoM D A) : GoM (pworld D C) A :=
  zoom w_env (λ d w, mkWorld d (w_proxy w) (w_made w) (w_closed w)) m.

Definition upd (f : etcdProxy C → etcdProxy C) : GoM (pworld D C) () :=
  modify (λ w, mkWorld (w_env w) (f (w_proxy w)) (w_made w) (w_closed w)).

Definition set_client (c : option C) (p : etcdProxy C) : etcdProxy C :=
  mkProxy (tlsConfig p) (closed p) c (p_err p) (curLeader p).
Definition set_err (e : option err) (p : etcdProxy C) : etcdProxy C :=
  mkProxy (tlsConfig p) (closed p) (client p) e (curLeader p).
Definition set_curLeader (l : bytes) (p : etcdProxy C) : etcdProxy C :=
  mkProxy (tlsConfig p) (closed p) (client p) (p_err p) l.
Definition set_closed (ch : option nat) (p : etcdProxy C) : etcdProxy C :=
  mkProxy (tlsConfig p) ch (client p) (p_err p) (curLeader p).

(** [close] of a channel: a second one panics. *)
Definition close_chan (ch : nat) : GoM (pworld D C) () := λ w,
  if decide (ch ∈ w_closed w) then None
  else Some (mkWorld (w_env w) (w_proxy w) (w_made w) (ch :: w_closed w), ()).

Definition make_chan : GoM (pworld D C) nat := λ w,
  Some (mkWorld (w_env w) (w_proxy w) (S (w_made w)) (w_closed w), w_made w).

(** * The background loop *)

Definition resetClient : GoM (pworld D C) bool :=
  p ← gets w_proxy;
  _ ← match client p with
      | Some c => _ ← on_env (cl_Close c); upd (set_client None)
      | None => mret ()
      end;
  _ ← match closed p with Some ch => close_chan ch | None => mret () end;
  ch ← make_chan;
  _ ← upd (set_closed (Some ch));
  mret (match client p with Some _ => true | None => false end).

Definition checkConn : GoM (pworld D C) (option err) :=
  p ← gets w_proxy;
  match client p with
  | None => mret (p_err p)
  | Some c => on_env (cl_MemberList c)
  end.

(** [status.Error(codes.Internal, ...)], which keeps the text of an error only. *)
Definition errInternal : err := Errorf "code = Internal".

(** The loop over the TLS configurations. *)
Fixpoint connect (tlsConfigs : list bool) : GoM (pworld D C) () :=
  match tlsConfigs with
  | [] => _ ← upd (set_curLeader []); upd (set_client None)
  | tls :: rest =>
      leader ← gets (λ w, curLeader (w_proxy w));
      r ← on_env (cl_New leader tls);
      match r with
      | inl e => _ ← upd (set_client None); upd (set_err (Some errInternal))
      | inr c =>
          _ ← upd (set_client (Some c));
          _ ← upd (set_err None);
          e ← checkConn;
          _ ← upd (set_err e);
          match e with
          | None => mret ()
          | Some e =>
              if err_is e DeadlineExceeded then _ ← upd (set_err None); connect rest
              else _ ← upd (set_curLeader []); upd (set_client None)
          end
      end
  end.

Definition updateClient : GoM (pworld D C) () :=
  e ← checkConn;
  match e with
  | Some _ => _ ← upd (set_curLeader []); _ ← resetClient; mret ()
  | None =>
      isLeader ← on_env el_IsLeader;
      if isLeader : bool then _ ← resetClient; mret ()
      else
        leader ← on_env el_GetLeaderInfo;
        p ← gets w_proxy;
        if bytes_eqb leader (curLeader p) || bytes_eqb leader (str "empty") || bytes_eqb leader [] then mret ()
        else
          _ ← upd (set_curLeader leader);
          _ ← resetClient;
          connect (if tlsConfig p then [true; false] else [false])
  end.

(** [NewEtcdProxy] up to the loop it starts. *)
Definition NewEtcdProxy (d : D) (tls : bool) : option (pworld D C) :=
  fst <$> updateClient (mkWorld d (mkProxy tls None None None []) 0 []).

(** * Requests *)

Definition errNotReady : err := Errorf "no ready right now".

Definition Ready (p : etcdProxy C) : option err :=
  match client p with None => Some errNotReady | Some _ => None end.

Definition Txn (txn : TxnRequest) : GoM (pworld D C) (option TxnResponse * option err) :=
  p ← gets w_proxy;
  match client p with
  | None => mret (None, Ready p)
  | Some c =>
      r ← on_env (cl_Txn c txn);
      match r with
      | inl e => mret (None, Some e)
      | inr resp => mret (Some resp, None)
      end
  end.

(** [Watch] opens with the channel that ends it. *)
Definition Watch : GoM (pworld D C) (err + option nat) :=
  p ← gets w_proxy;
  match Ready p with
  | Some e => mret (inl e)
  | None => mret (inr (closed p))
  end.

(** The goroutine of a watch: not yet started, in its loop with what the client's
    channel still has, or ended, with the output channel closed. *)
Inductive gstate :=
  | Starting
  | Running (c : C) (input : list wresp)
  | Ended.

(** What its select takes: the end of the client, the end of the request, or the
    next of the client's channel. *)
Inductive psel := SelClosed | SelDone | SelRecv.

Record pwatch := mkPwatch {
  pw_key : bytes;
  pw_revision : Z;
  pw_closed : option nat;
  pw_state : gstate;
  pw_out : list (list mvccEvent);
}.

Definition set_state (g : gstate) (pw : pwatch) : pwatch :=
  mkPwatch (pw_key pw) (pw_revision pw) (pw_closed pw) g (pw_out pw).

(** The start: [c] is what the field of the client holds then; [Watch] of a nil
    client panics. *)
Definition watch_start (c : option C) (pw : pwatch) : option pwatch :=
  match c with
  | Some c => Some (set_state (Running c (cl_Watch c (pw_key pw) (int64 (pw_revision pw)))) pw)
  | None => None
  end.

Definition watch_select (sel : psel) (c : C) (input : list wresp) (pw : pwatch) : pwatch :=
  match sel, input with
  | SelRecv, WEvents events :: input' =>
      mkPwatch (pw_key pw) (pw_revision pw) (pw_closed pw) (Running c input') (pw_out pw ++ [events])
  | _, _ => set_state Ended pw
  end.

(** * Interleavings *)

(** The world with the watches opened so far. *)
Definition pstate : Type := pworld D C * list pwatch.

(** The client is read without the lock: between two rounds, or during one.  A
    round that changes the client makes a new channel too; while it runs, the field
    may hold nil or a client that is not kept. *)
Inductive reads_client (w : pworld D C) : pworld D C → option C → Prop :=
  | ReadIdle : reads_client w w (client (w_proxy w))
  | ReadRound w' c :
      updateClient w = Some (w', ()) →
      c = client (w_proxy w) ∨ closed (w_proxy w') ≠ closed (w_proxy w) → reads_client w w' c.

Inductive proxy_step : pstate → pstate → Prop :=
  | ProxyRound w w' ws :
      updateClient w = Some (w', ()) → proxy_step (w, ws) (w', ws)
  (** the election and the network change *)
  | ProxyEnv w d ws :
      proxy_step (w, ws) (mkWorld d (w_proxy w) (w_made w) (w_closed w), ws)
  | ProxyTxn w w' txn r ws :
      Txn txn w = Some (w', r) → proxy_step (w, ws) (w', ws)
  | ProxyOpen w w' ch key revision ws :
      Watch w = Some (w', inr ch) →
      proxy_step (w, ws) (w', ws ++ [mkPwatch key revision ch Starting []])
  | ProxyStart w w' ws i pw pw' c :
      ws !! i = Some pw → pw_state pw = Starting → reads_client w w' c → watch_start c pw = Some pw' →
      proxy_step (w, ws) (w', <[i := pw']> ws)
  | ProxySelect w ws i pw sel c input :
      ws !! i = Some pw → pw_state pw = Running c input →
      (sel = SelClosed → ∃ ch, pw_closed pw = Some ch ∧ ch ∈ w_closed w) →
      proxy_step (w, ws) (w, <[i := watch_select sel c input pw]> ws).

(** The panic of a watch that starts: [util.Recover] ends the process with a
    status; [w'] is the proxy it leaves. *)
Inductive proxy_exit : pstate → pworld D C → Z → Prop :=
  | ExitStart w w' ws i pw c status :
      ws !! i = Some pw → pw_state pw = Starting → reads_client w w' c → watch_start c pw = None →
      Recover true = Some status → proxy_exit (w, ws) w' status.
End proxy.

(** * The disabled proxy *)

Definition errDisabled : err := Errorf "etcd proxy is disabled".

Definition disabled_Txn {S} (txn : TxnRequest) : GoM S (option TxnResponse * option err) :=
  mret (None, Some errDisabled).

Definition disabled_Watch {S} : GoM S (err + option nat) :=
  mret (inl errDisabled).
