(* ===== verification/EtcdProxySpec.v ===== *)
(** The invariant of the proxy: its client is connected to the leader it names,
    the channel that ends watches is open and every older one is closed, and a
    watch has put out a prefix of what its client received. *)

From S2P Require Import Prelude GoMonad Storage Etcd EtcdProxy.

(** What etcd's client and the election promise: a new client is for the endpoint
    asked for, and no call panics. *)
Class EtcdClientSpec (D C : Type) `{LeaderElection D, EtcdClient D C} := {
  cl_endpoint : C → bytes;
  cl_New_spec ep tls d :
    wp (cl_New ep tls) (λ r _, match r with inr c => cl_endpoint c = ep | inl _ => True end) d;
  cl_MemberList_spec c d : wp (cl_MemberList c) (λ _ _, True) d;
  cl_Close_spec c d : wp (cl_Close c) (λ _ _, True) d;
  cl_Txn_spec c txn d : wp (cl_Txn c txn) (λ _ _, True) d;
  el_IsLeader_spec d : wp el_IsLeader (λ _ _, True) d;
  el_GetLeaderInfo_spec d : wp el_GetLeaderInfo (λ _ _, True) d;
}.

Section spec.
Context {D C : Type} `{EtcdClientSpec D C}.
Implicit Types w : pworld D C.

(** The channels: all made ones but the current are closed. *)
Definition chans_ok w : Prop :=
  match closed (w_proxy w) with
  | None => w_made w = 0%nat ∧ w_closed w = []
  | Some ch => w_made w = S ch ∧ ∀ i, i ∈ w_closed w ↔ (i < ch)%nat
  end.

Definition client_ok w : Prop :=
  ∀ c, client (w_proxy w) = Some c →
    cl_endpoint c = curLeader (w_proxy w) ∧ curLeader (w_proxy w) ≠ [] ∧
    curLeader (w_proxy w) ≠ str "empty" ∧ p_err (w_proxy w) = None ∧ is_Some (closed (w_proxy w)).

Definition proxy_ok w : Prop := chans_ok w ∧ client_ok w.

Lemma wp_on_env {A} (m : GoM D A) (Q : A → D → Prop) w (R : A → pworld D C → Prop) :
  wp m Q (w_env w) →
  (∀ a d, Q a d → R a (mkWorld d (w_proxy w) (w_made w) (w_closed w))) →
  wp (on_env m) R w.
Proof. unfold wp, on_env, zoom. destruct (m (w_env w)) as [[d a]|]; auto. Qed.

Lemma wp_upd f w (R : () → pworld D C → Prop) :
  R () (mkWorld (w_env w) (f (w_proxy w)) (w_made w) (w_closed w)) → wp (upd f) R w.
Proof. done. Qed.

(** After a reset there is no client and a fresh open channel. *)
Definition was_reset w w' : Prop :=
  chans_ok w' ∧ w_made w' = S (w_made w) ∧ is_Some (closed (w_proxy w')) ∧ client (w_proxy w') = None ∧
  curLeader (w_proxy w') = curLeader (w_proxy w) ∧ p_err (w_proxy w') = p_err (w_proxy w) ∧
  tlsConfig (w_proxy w') = tlsConfig (w_proxy w).

Lemma wp_resetClient w : chans_ok w → wp resetClient (λ _ w', was_reset w w') w.
Proof.
  intros Hc. unfold resetClient. apply wp_bind. unfold gets at 1, wp at 1. apply wp_bind.
  eapply (wp_mono _ (λ _ w1, w_made w1 = w_made w ∧ w_closed w1 = w_closed w ∧
    w_proxy w1 = set_client None (w_proxy w))).
  { destruct (client (w_proxy w)) as [c|] eqn:Ec.
    - apply wp_bind. eapply wp_on_env; [apply cl_Close_spec|]. intros _ d _. by apply wp_upd.
    - apply wp_ret. split; [done|]. split; [done|]. unfold set_client. rewrite <-Ec. by destruct (w_proxy w). }
  intros _ w1 (Em & Ecl & Ep). apply wp_bind.
  eapply (wp_mono _ (λ _ w2, w_made w2 = w_made w ∧ w_proxy w2 = set_client None (w_proxy w) ∧
    ∀ i, i ∈ w_closed w2 ↔ (i < w_made w)%nat)).
  { unfold chans_ok in Hc. destruct (closed (w_proxy w)) as [ch|] eqn:Ech.
    - destruct Hc as [Hm Hi]. unfold close_chan, wp. rewrite decide_False by (rewrite Ecl, Hi; lia). simpl.
      split; [done|]. split; [done|]. intros i. rewrite elem_of_cons, Ecl, Hi. lia.
    - destruct Hc as [Hm Hi]. apply wp_ret. split; [done|]. split; [done|]. intros i. rewrite Ecl, Hi, Hm, elem_of_nil.
      lia. }
  intros _ w2 (Em2 & Ep2 & Hcl). unfold wp, was_reset, chans_ok. simpl. rewrite Ep2, Em2. simpl. eauto 10.
Qed.

(** Only the environment has changed. *)
Definition same_proxy w w' : Prop :=
  w_proxy w' = w_proxy w ∧ w_made w' = w_made w ∧ w_closed w' = w_closed w.

Lemma wp_checkConn w :
  wp checkConn (λ e w', same_proxy w w' ∧ (client (w_proxy w) = None → e = p_err (w_proxy w))) w.
Proof.
  unfold checkConn. apply wp_bind. unfold gets at 1, wp at 1. destruct (client (w_proxy w)) as [c|].
  - eapply wp_on_env; [apply cl_MemberList_spec|]. done.
  - by apply wp_ret.
Qed.

(** How a round of connecting ends: with a client for the leader, or without. *)
Definition connected (leader : bytes) w w' : Prop :=
  w_made w' = w_made w ∧ w_closed w' = w_closed w ∧ closed (w_proxy w') = closed (w_proxy w) ∧
  match client (w_proxy w') with
  | Some c => cl_endpoint c = leader ∧ curLeader (w_proxy w') = leader ∧ p_err (w_proxy w') = None
  | None => True
  end.

Lemma wp_connect l : ∀ w, wp (connect l) (λ _ w', connected (curLeader (w_proxy w)) w w') w.
Proof.
  induction l as [|tls l IH]; intros w; simpl.
  { done. }
  apply wp_bind. unfold gets at 1, wp at 1. apply wp_bind. eapply wp_on_env; [apply cl_New_spec|].
  intros [e|c] d Hr; [done|]. apply wp_bind, wp_upd, wp_bind, wp_upd. apply wp_bind.
  eapply wp_mono; [apply wp_checkConn|]. intros e w1 [(Ep & Em & Ec) _]. apply wp_bind, wp_upd.
  destruct e as [e|].
  - destruct (err_is e DeadlineExceeded).
    + apply wp_bind, wp_upd. eapply wp_mono; [apply IH|]. intros [] w2. unfold connected. simpl. rewrite Ep, Em, Ec. done.
    + apply wp_bind, wp_upd, wp_upd. unfold connected. simpl. by rewrite Ep, Em, Ec.
  - apply wp_ret. unfold connected. simpl. rewrite Ep, Em, Ec. done.
Qed.

Lemma was_reset_ok w w' : was_reset w w' → proxy_ok w'.
Proof. intros (Hc & _ & _ & Hn & _). split; [done|]. intros c Hc'. congruence. Qed.

Lemma chans_ok_ext w w' :
  w_made w' = w_made w → w_closed w' = w_closed w → closed (w_proxy w') = closed (w_proxy w) →
  chans_ok w → chans_ok w'.
Proof. unfold chans_ok. by intros -> -> ->. Qed.

(** A round leaves the proxy as it is, or makes a new channel. *)
Definition round_effect w w' : Prop := same_proxy w w' ∨ w_made w' = S (w_made w).

Lemma wp_updateClient w :
  proxy_ok w → wp updateClient (λ _ w', proxy_ok w' ∧ round_effect w w') w.
Proof.
  intros [Hch Hcl]. unfold updateClient. apply wp_bind. eapply wp_mono; [apply wp_checkConn|].
  intros e w1 [(Ep & Em & Ec) _].
  assert (chans_ok w1) as Hch1 by (eapply chans_ok_ext; [..|exact Hch]; congruence).
  destruct e as [e|].
  { apply wp_bind, wp_upd, wp_bind. eapply wp_mono; [apply wp_resetClient; by eapply chans_ok_ext; [..|exact Hch1]|].
    intros r w2 Hw2. apply wp_ret. split; [exact (was_reset_ok _ _ Hw2)|].
    destruct Hw2 as (_ & Hm & _). simpl in Hm. right. congruence. }
  apply wp_bind. eapply wp_on_env; [apply el_IsLeader_spec|]. intros isLeader d _. destruct isLeader.
  { apply wp_bind. eapply wp_mono; [apply wp_resetClient; by eapply chans_ok_ext; [..|exact Hch1]|].
    intros r w2 Hw2. apply wp_ret. split; [exact (was_reset_ok _ _ Hw2)|].
    destruct Hw2 as (_ & Hm & _). simpl in Hm. right. congruence. }
  apply wp_bind. eapply wp_on_env; [apply el_GetLeaderInfo_spec|]. intros leader d' _. simpl.
  apply wp_bind. unfold gets at 1, wp at 1. simpl.
  destruct (bytes_eqb leader (curLeader (w_proxy w1)) || bytes_eqb leader (str "empty") || bytes_eqb leader [])
    eqn:Eskip.
  { apply wp_ret. simpl. split; [|by left]. split; [by eapply chans_ok_ext; [..|exact Hch1]|].
    unfold client_ok. simpl. rewrite Ep. apply Hcl. }
  apply orb_false_iff in Eskip as [[_ Hne]%orb_false_iff Hnil]. apply bytes_eqb_false in Hne, Hnil.
  apply wp_bind, wp_upd, wp_bind. eapply wp_mono; [apply wp_resetClient; by eapply chans_ok_ext; [..|exact Hch1]|].
  intros r2 w2 (Hch2 & Hm2 & Hopen & _ & El & _). simpl in El, Hm2. eapply wp_mono; [apply wp_connect|].
  intros r3 w3 (Em3 & Ec3 & Ecl3 & Hc3). split; [|right; congruence]. split; [by eapply chans_ok_ext; [..|exact Hch2]|].
  intros c Hc. rewrite Hc in Hc3. rewrite El in Hc3. destruct Hc3 as (? & -> & ?). by rewrite Ecl3.
Qed.

(** * Watches *)

(** The batches of a client's channel up to an error of the watch. *)
Fixpoint batches (input : list wresp) : list (list mvccEvent) :=
  match input with
  | WEvents events :: input' => events :: batches input'
  | _ => []
  end.

Definition source (c : C) (pw : pwatch (C := C)) : list (list mvccEvent) :=
  batches (cl_Watch c (pw_key pw) (int64 (pw_revision pw))).

(** As long as the channel of a watch is the current one, there is a client. *)
Definition watch_ok w (pw : pwatch (C := C)) : Prop :=
  (∃ ch, pw_closed pw = Some ch ∧ (ch < w_made w)%nat) ∧
  (pw_closed pw = closed (w_proxy w) → is_Some (client (w_proxy w))) ∧
  match pw_state pw with
  | Starting => pw_out pw = []
  | Running c input => pw_out pw ++ batches input = source c pw
  | Ended => pw_out pw = [] ∨ ∃ c, pw_out pw `prefix_of` source c pw
  end.

Definition sys_ok (s : pstate (D := D) (C := C)) : Prop := proxy_ok s.1 ∧ Forall (watch_ok s.1) s.2.

(** A new channel is not that of an older watch. *)
Lemma round_channel w w' :
  chans_ok w' → w_made w' = S (w_made w) → closed (w_proxy w') = Some (w_made w).
Proof.
  unfold chans_ok. destruct (closed (w_proxy w')) as [ch|]; intros [Hm _] E; [|lia]. f_equal. lia.
Qed.

Lemma watch_ok_round w w' pw : chans_ok w' → round_effect w w' → watch_ok w pw → watch_ok w' pw.
Proof.
  intros Hch [(Ep & Em & _)|Em] [(ch & E & Hlt) [Hc Hs]]; [split; [exists ch; rewrite Em; done|]; by rewrite Ep|].
  split; [exists ch; split; [done|lia]|]. split; [|done]. rewrite (round_channel _ _ Hch Em), E. intros [= ->]. lia.
Qed.

Lemma watch_start_ok w c pw pw' :
  pw_state pw = Starting → watch_start c pw = Some pw' → watch_ok w pw → watch_ok w pw'.
Proof.
  intros Es Hst [Hch [Hc Ho]]. rewrite Es in Ho. destruct pw as [key rev ch st out]. simpl in *. subst.
  destruct c as [c|]; [|done]. injection Hst as <-. done.
Qed.

Lemma watch_select_ok w sel c input pw :
  pw_state pw = Running c input → watch_ok w pw → watch_ok w (watch_select sel c input pw).
Proof.
  intros Es [Hch [Hcl Ho]]. rewrite Es in Ho. destruct pw as [key rev ch st out]. simpl in *. subst st.
  assert (watch_ok w (mkPwatch key rev ch Ended out)) as Hend.
  { split; [done|]. split; [done|]. simpl. right. exists c. unfold source in *. simpl in *. rewrite <-Ho. by eexists. }
  destruct sel; [done..|]. destruct input as [|[events|e] input]; [done| |done].
  split; [done|]. split; [done|]. unfold source in *. simpl in *. by rewrite <-app_assoc.
Qed.

Lemma proxy_ok_ext w w' : w_proxy w' = w_proxy w → w_made w' = w_made w → w_closed w' = w_closed w →
  proxy_ok w → proxy_ok w'.
Proof. unfold proxy_ok, chans_ok, client_ok. by intros -> -> ->. Qed.

Lemma Txn_same txn w w' r : Txn txn w = Some (w', r) → same_proxy w w'.
Proof.
  unfold Txn, mbind, gom_bind, gets. destruct (client (w_proxy w)) as [c|]; [|by intros [= <- _]].
  unfold on_env, zoom. destruct (cl_Txn c txn (w_env w)) as [[d [e|resp]]|]; intros [= <- _]; done.
Qed.

Lemma sys_round w w' ws : round_effect w w' → proxy_ok w' → sys_ok (w, ws) → sys_ok (w', ws).
Proof.
  intros He Hp' [_ Hw]. split; [done|]. eapply Forall_impl; [exact Hw|]. intros pw. apply watch_ok_round; [apply Hp' | done].
Qed.

Lemma updateClient_round w w' : updateClient w = Some (w', ()) → proxy_ok w → proxy_ok w' ∧ round_effect w w'.
Proof. intros Hu Hp. pose proof (wp_updateClient w Hp) as Hr. unfold wp in Hr. by rewrite Hu in Hr. Qed.

(** The reader of the client, and the round it may fall into. *)
Lemma reads_round w w' c : reads_client w w' c → proxy_ok w → proxy_ok w' ∧ round_effect w w'.
Proof. intros [|w1 c1 Hu _] Hp; [by split; [|left] | by apply updateClient_round]. Qed.

Lemma sys_step s s' : proxy_step s s' → sys_ok s → sys_ok s'.
Proof.
  intros Hs Hok. pose proof Hok as [Hp Hw]. destruct Hs as [w w' ws Hu|w d ws|w w' txn r ws Ht|w w' ch key rev ws Ho
    |w w' ws i pw pw' c Hi Es Hc Hst|w ws i pw sel c input Hi Es _]; simpl in *.
  - destruct (updateClient_round _ _ Hu Hp). by eapply sys_round.
  - apply (sys_round w); [by left | by eapply proxy_ok_ext; [..|exact Hp] | done].
  - pose proof (Txn_same _ _ _ _ Ht) as (Ep & Em & Ec).
    apply (sys_round w); [by left | by eapply proxy_ok_ext; [..|exact Hp] | done].
  - unfold Watch, Ready, mbind, gom_bind, gets in Ho. destruct (client (w_proxy w)) as [c|] eqn:Ec; [|done].
    injection Ho as <- <-. split; [done|]. apply Forall_app. split; [done|]. constructor; [|done].
    destruct Hp as [Hch Hcl]. destruct (Hcl c Ec) as (_ & _ & _ & _ & ch & Ech).
    unfold chans_ok in Hch. rewrite Ech in Hch. split; [|by split; [intros _; exists c|]]. exists ch. simpl. split; [done|lia].
  - destruct (reads_round _ _ _ Hc Hp) as [Hp' He]. pose proof (sys_round _ _ _ He Hp' Hok) as [_ Hw'].
    split; [done|]. apply Forall_insert; [done|]. eapply watch_start_ok; [done..|]. by eapply Forall_lookup_1 in Hw'.
  - split; [done|]. apply Forall_insert; [done|]. apply watch_select_ok; [done|]. by eapply Forall_lookup_1 in Hw.
Qed.

Lemma sys_reach s s' : rtc proxy_step s s' → sys_ok s → sys_ok s'.
Proof. induction 1; eauto using sys_step. Qed.

Lemma sys_init d tls w : NewEtcdProxy d tls = Some w → sys_ok (w, []).
Proof.
  unfold NewEtcdProxy. intros E. set (w0 := mkWorld d (mkProxy tls None None None []) 0 []) in E.
  assert (proxy_ok w0) as Hok by by split.
  pose proof (wp_updateClient w0 Hok) as Hr. unfold wp in Hr.
  destruct (updateClient w0) as [[w' []]|]; [|done]. injection E as <-. by destruct Hr.
Qed.

(** * Panics *)

Lemma old_channel w pw :
  chans_ok w → watch_ok w pw →
  ∃ ch, pw_closed pw = Some ch ∧ (closed (w_proxy w) = Some ch ∨ ch ∈ w_closed w).
Proof.
  intros Hch [(ch & E & Hlt) _]. exists ch. split; [done|]. unfold chans_ok in Hch.
  destruct (closed (w_proxy w)) as [cur|]; [|lia]. destruct Hch as [Hm Hi].
  destruct (decide (ch = cur)) as [->|Hne]; [by left|]. right. apply Hi. lia.
Qed.

(** A watch finds no client only when its channel has been closed, or is closed in
    the round it falls into. *)
Lemma exit_cause w ws w' status :
  sys_ok (w, ws) → proxy_exit (w, ws) w' status →
  status = 2 ∧ ∃ pw ch, pw ∈ ws ∧ pw_state pw = Starting ∧ pw_closed pw = Some ch ∧ ch ∈ w_closed w'.
Proof.
  intros Hok Hx. inversion Hx as [w1 w2 ws1 i pw c st Hi Es Hc Hst Hrec]; subst. split; [by injection Hrec|].
  pose proof Hok as [Hp Hw]. simpl in *. destruct (reads_round _ _ _ Hc Hp) as [Hp' He].
  pose proof (sys_round _ _ _ He Hp' Hok) as [_ Hw']. simpl in Hw'.
  eapply Forall_lookup_1 in Hw as Hpw; [|exact Hi]. eapply Forall_lookup_1 in Hw' as Hpw'; [|exact Hi].
  destruct (old_channel w' pw (proj1 Hp') Hpw') as (ch & Ech & Hcl). exists pw, ch.
  split; [by eapply list_elem_of_lookup_2|]. split; [done|]. split; [done|]. destruct Hcl as [Hcur|]; [exfalso|done].
  destruct c as [c|]; [done|]. destruct Hpw as ((ch' & E' & Hlt) & Hcl & _).
  rewrite Ech in E'. injection E' as <-.
  assert (w_made w' = S (w_made w) → False) as Hnew.
  { intros Em. rewrite (round_channel _ _ (proj1 Hp') Em) in Hcur. injection Hcur as <-. lia. }
  destruct He as [(Ep & _ & _)|Em]; [|by apply Hnew]. rewrite Ep in Hcur.
  destruct Hcl as [c Hcl]; [by rewrite Ech|].
  inversion Hc as [Hn|w2 c2 Hu [Hn|Hne]]; subst; [congruence.. |]. by rewrite Ep in Hne.
Qed.

(** * What keeps the proxy without a client *)

(** An error that is left without a client is never cleared. *)
Definition stuck_err w : Prop := client (w_proxy w) = None ∧ is_Some (p_err (w_proxy w)).

Lemma round_stuck w w' : stuck_err w → updateClient w = Some (w', ()) → stuck_err w'.
Proof.
  intros [Hc [e He]]. unfold updateClient, checkConn, resetClient, mbind, gom_bind, gets. rewrite Hc, He. simpl.
  rewrite Hc. simpl. destruct (closed (w_proxy w)); simpl; unfold close_chan; simpl;
    repeat case_decide; try done; intros [= <-]; by split; [|eexists].
Qed.

Lemma step_stuck s s' : proxy_step s s' → stuck_err s.1 → stuck_err s'.1.
Proof.
  intros Hs Hk. destruct Hs as [w w' ws Hu|w d ws|w w' txn r ws Ht|w w' ch key rev ws Ho
    |w w' ws i pw pw' c Hi Es Hc Hst|w ws i pw sel c input Hi Es _]; simpl in *; [by eapply round_stuck|done| | | |done].
  - unfold stuck_err. by destruct (Txn_same _ _ _ _ Ht) as (-> & _).
  - unfold Watch, Ready, mbind, gom_bind, gets in Ho. destruct Hk as [Hc _]. by rewrite Hc in Ho.
  - destruct Hc as [|w' c Hu _]; [done | by eapply round_stuck].
Qed.
End spec.
