(* ===== verification/Concrete.v ===== *)
(** The parameters of the development, instantiated: the in-memory engine as a
    store with one partition, a retry loop that runs its condition a fixed number
    of times, and a backend over an empty store with a few written keys. *)

From S2P Require Import Prelude GoMonad Storage Coder MemKV Proto Tso Ring Queue Mvcc Creator.
From S2P Require Import Scanner ScanSpec Backend BackendSpec BackendReads Pipeline Etcd Brain.

Section partitions.
Context {L : Type} `{SkipListSpec L}.

(** The in-memory engine reports the whole range as one partition. *)
#[global] Instance memkv_partitions : KvPartitions (store L).
Proof.
  intros a b s _ Hab. unfold wp. simpl. split; [done|]. split; [done|].
  exists [mkPartition a b]. split; [done|]. by split.
Qed.
End partitions.

Fixpoint backoff_run {T} (n : nat) (cond : GoM T (bool * option err)) : GoM T (option err) :=
  match n with
  | O => mret (Some ErrWaitTimeout)
  | S n' =>
      '(ok, e) ← cond;
      match e, ok with
      | Some _, _ => mret e
      | None, true => mret None
      | None, false => backoff_run n' cond
      end
  end.

#[global] Instance plain_backoff : Backoff.
Proof. by refine {| ExponentialBackoff T n cond := backoff_run n cond |}. Defined.

Abbreviation mem := (store kvmap).

(** * A running backend *)

Definition cfg0 : Backend.Config := Backend.mkConfig true (str "/registry") (str "node-1") [] 4.

Definition b0 : backend mem := NewBackend (empty_store 0) cfg0.

Lemma config_ok_cfg0 : config_ok cfg0.
Proof. split; [by apply (bool_decide_unpack _) | done]. Qed.

Definition key1 : bytes := str "/registry/pods/a".
Definition key2 : bytes := str "/registry/pods/b".
Definition val1 : slice := Some (str "v1").
Definition val2 : slice := Some (str "v2").

Lemma valid_key1 : valid_key key1.
Proof. by apply (bool_decide_unpack _). Qed.

Lemma valid_key2 : valid_key key2.
Proof. by apply (bool_decide_unpack _). Qed.

Lemma empty_dead k : valid_key k → dead ∅ k.
Proof. intros Hk r v (Ho & _). unfold obj in Ho. by rewrite lookup_empty in Ho. Qed.

Lemma inv_b0 : backend_inv b0.
Proof.
  split; try done.
  - intros k Hk. apply kw_absent; [done | exact (empty_dead k Hk)].
  - intros k Hk. split.
    + by intros r v Ho.
    + by intros r _ [E|E].
Qed.

Lemma room_b0 : room b0.
Proof. done. Qed.

(** [b1] has [key1] at revision 1, not collected yet; [b2] after the collector. *)
Definition b1 : backend mem :=
  match Backend.Create (mkCreateRequest key1 val1 0) b0 with Some (b, _) => b | None => b0 end.

Definition b2 : backend mem :=
  match collect_iter 0 [] b1 with Some (b, _) => b | None => b1 end.

Example create_b0 :
  snd <$> Backend.Create (mkCreateRequest key1 val1 0) b0 = Some (Some (mkCreateResponse 1 true), None).
Proof. vm_compute. reflexivity. Qed.

Example get_b2 :
  snd <$> Get (mkGetRequest key1 0) b2 = Some (Some (mkGetResponse 1 (Some (mkKV key1 val1 1))), None).
Proof. vm_compute. reflexivity. Qed.

Lemma inv_b1 : backend_inv b1.
Proof.
  pose proof (wp_Create (mkCreateRequest key1 val1 0) b0 inv_b0 room_b0 valid_key1 eq_refl) as Hw.
  unfold wp in Hw. unfold b1. destruct (Backend.Create _ b0) as [[b r]|]; [|done].
  destruct Hw as [[Hb _] _]. exact Hb.
Qed.

Lemma tso_b1 : tso b1 = mkTSO 0 1.
Proof. vm_compute. reflexivity. Qed.

Lemma room_b1 : room b1.
Proof. unfold room. rewrite tso_b1. done. Qed.
