(* ===== verification/StorageTheorems.v ===== *)
(** What the theorems of the lower components say: the key format, the
    in-memory engine, the history cache, the queue of uncertain events and the
    revision generator. *)

From S2P Require Import Prelude GoMonad Storage Coder MemKV MetricsStore Proto Tso Ring Queue.

(** * Reference definitions *)

(** The events a cache of size [n] keeps of [evs]. *)
Definition kept (n : nat) (evs : list Event) : list Event := drop (length evs - n) evs.

Fixpoint add_all (evs : list Event) (r : Ring) : option Ring :=
  match evs with
  | [] => Some r
  | e :: evs' => '(r', _) ← Add e r; add_all evs' r'
  end.

(** The answer of [FindEvents] on a list of cached events. *)
Definition find_in (rev : Z) (l : list Event) : FindRet :=
  match last l, head l with
  | Some n, Some o =>
      if ev_Revision n <? rev then mkFindRet false true false (Some n) (Some o) []
      else if rev <? ev_Revision o then mkFindRet false false true (Some n) (Some o) []
      else mkFindRet false false false (Some n) (Some o) (Some <$> filter (λ e, rev <= ev_Revision e) l)
  | _, _ => mkFindRet true false false None None []
  end.

(** Operations on a queue of uncertain events, with what they return. *)
Inductive queue_op := QPush (ev : WatchEvent) (now : Z) | QPop | QHead.

Fixpoint queue_run (ops : list queue_op) (q : eventQueue) : option (list (option (WatchEvent * Z)) * Z) :=
  match ops with
  | [] => Some ([], Queue.size q)
  | QPush ev now :: ops' => queue_run ops' (Queue.push ev now q)
  | QPop :: ops' => q' ← pop q; queue_run ops' q'
  | QHead :: ops' =>
      '(out, n) ← queue_run ops' q;
      Some (((λ x, (n_event x, n_time x)) <$> getHead q) :: out, n)
  end.

Fixpoint list_run (ops : list queue_op) (l : list (WatchEvent * Z))
    : option (list (option (WatchEvent * Z)) * Z) :=
  match ops with
  | [] => Some ([], Z.of_nat (length l))
  | QPush ev now :: ops' => list_run ops' (l ++ [(ev, now)])
  | QPop :: ops' => match l with [] => None | _ :: l' => list_run ops' l' end
  | QHead :: ops' => '(out, n) ← list_run ops' l; Some (head l :: out, n)
  end.

(** * Helper lemmas *)

Lemma kept_snoc n evs e :
  (0 < n)%nat →
  kept n (evs ++ [e]) = (if (length (kept n evs) =? n)%nat then drop 1 (kept n evs) else kept n evs) ++ [e].
Proof.
  intros Hn. unfold kept. rewrite length_app, length_drop. simpl.
  rewrite drop_app_le by lia. f_equal.
  destruct (Nat.eqb_spec (length evs - (length evs - n)) n); [rewrite drop_drop|]; f_equal; lia.
Qed.

Lemma add_all_spec evs0 evs r :
  ring_ok r → ring_list r = kept (r_l r) evs0 →
  ∃ r', add_all evs r = Some r' ∧ ring_ok r' ∧ ring_list r' = kept (r_l r) (evs0 ++ evs).
Proof.
  revert evs0 r. induction evs as [|e evs IH]; intros evs0 r Hok Hl.
  - exists r. by rewrite app_nil_r.
  - simpl. rewrite (Add_run r Hok). simpl.
    destruct (IH (evs0 ++ [e]) (ring_add r e)) as (r' & E & Hok' & Hl').
    + by apply ring_add_ok.
    + rewrite (ring_add_list r Hok), Hl. simpl. symmetry. apply kept_snoc, (rok_pos _ Hok).
    + exists r'. rewrite <-app_assoc in Hl'. done.
Qed.

Lemma kept_sorted n evs : StronglySorted ev_lt evs → StronglySorted ev_lt (kept n evs).
Proof.
  intros Hs. unfold kept. rewrite <-(take_drop (length evs - n) evs) in Hs.
  by apply StronglySorted_app_1_r in Hs.
Qed.

Lemma queue_run_repr ops q l : queue_repr q l → queue_run ops q = list_run ops l.
Proof.
  revert q l. induction ops as [|[ev now| |] ops IH]; intros q l Hq; simpl.
  - destruct Hq as [addrs Hq]. unfold Queue.size. by rewrite (qa_size _ _ _ Hq).
  - by apply IH, push_repr.
  - destruct l as [|x l].
    + destruct Hq as [addrs Hq]. unfold pop. rewrite (qa_size _ _ _ Hq), (qa_head _ _ _ Hq).
      pose proof (qa_len _ _ _ Hq) as Hlen. by destruct addrs.
    + destruct (pop_repr _ _ _ Hq) as (q' & -> & Hq'). simpl. by apply IH.
  - by rewrite (IH q l Hq), (getHead_repr q l Hq).
Qed.

(** * The key format *)

(** C29: round trip of the internal key format.  Decoding succeeds on exactly the
    keys the encoder builds, and gives back the user key and the revision. *)
Theorem coder_roundtrip ik k r :
  is_uint64 r → Decode ik = Some (k, r, None) ↔ ik = EncodeObjectKey k r.
Proof.
  intros Hr. split; [by intros [? _]%Decode_sound | intros ->; by apply Decode_Encode].
Qed.

Lemma coder_roundtrip_witness :
  is_uint64 7 ∧ (Decode (EncodeObjectKey (str "/a") 7) = Some (str "/a", 7, None) ↔
                 EncodeObjectKey (str "/a") 7 = EncodeObjectKey (str "/a") 7).
Proof. split; [done | by apply (coder_roundtrip (EncodeObjectKey (str "/a") 7) (str "/a") 7)]. Defined.

(** C28: the byte order of internal keys is the order of user keys, then of
    revisions, so that the versions of a key are adjacent and ascending. *)
Theorem coder_order k1 r1 k2 r2 :
  valid_key k1 → valid_key k2 → is_uint64 r1 → is_uint64 r2 →
  bytes_compare (EncodeObjectKey k1 r1) (EncodeObjectKey k2 r2) =
  match bytes_compare k1 k2 with Eq => r1 ?= r2 | c => c end.
Proof. apply EncodeObjectKey_compare. Qed.

Lemma coder_order_witness :
  bytes_compare (EncodeObjectKey (str "/a") 256) (EncodeObjectKey (str "/a/b") 1) = Lt.
Proof.
  rewrite (coder_order (str "/a") 256 (str "/a/b") 1);
    [done | by apply (bool_decide_unpack _) | by apply (bool_decide_unpack _) | done | done].
Defined.

(** * The in-memory engine *)

(** C27: a write batch of the in-memory engine is atomic.  It applies all its
    operations in order, each seeing the effects of those before it, or fails
    with a conflict and leaves the store as it was; it fails exactly when one of
    the comparisons does not hold. *)
Theorem memkv_commit_atomic {L} `{SkipListSpec L} ops (s : store L) :
  batch_pre ops (skl_map (skl s)) →
  match batch_apply ops (skl_map (skl s)) with
  | Some m' => ∃ s', commit_batch ops s = Some (s', None) ∧ skl_map (skl s') = m'
  | None => ∃ e, commit_batch ops s = Some (s, Some e) ∧ err_is e ErrCASFailed = true
  end.
Proof.
  intros Hpre. pose proof (commit_batch_run ops s Hpre) as Hr.
  destruct (batch_apply ops _); [done|].
  destruct Hr as (e & E & [->|(i & k & v & ->)]); eauto.
Qed.

(** A batch of two writes whose comparison fails. *)
Lemma memkv_commit_atomic_witness :
  let s := mkStore (L := kvmap) {[ str "a" := Some (str "1") ]} [] 0 in
  ∃ e, commit_batch [Put (str "b") None 0; CAS (str "a") (Some (str "2")) (Some (str "0")) 0] s =
       Some (s, Some e) ∧ err_is e ErrCASFailed = true.
Proof.
  intros s.
  assert (batch_apply [Put (str "b") None 0; CAS (str "a") (Some (str "2")) (Some (str "0")) 0]
            (skl_map (skl s)) = None) as E by (vm_compute; reflexivity).
  pose proof (memkv_commit_atomic
    [Put (str "b") None 0; CAS (str "a") (Some (str "2")) (Some (str "0")) 0] s) as Hw.
  rewrite E in Hw. apply Hw.
  split; [done|]. intros m' Em. split; [|done]. injection Em as <-. by vm_compute.
Defined.

(** An iterator of the in-memory engine yields exactly the entries of its
    range, ascending for [start < end] and descending otherwise, and leaves the
    store's content unchanged. *)
Theorem memkv_iter_exact {L} `{SkipListSpec L} start end_ ts limit (s : store L) :
  ∃ s' it, Iter start end_ ts limit s = Some (s', inr it) ∧
    skl_map (skl s') = skl_map (skl s) ∧ it_end it = EOF ∧
    item_kv <$> it_items it =
      if bytes_ltb start end_ then asc_range (skl_map (skl s)) start end_
      else desc_range (skl_map (skl s)) start end_.
Proof.
  unfold Iter. destruct (newIter_spec (skl s) start end_) as [Hm Hbuf].
  destruct (newIter start end_ (skl s)) as [l buf]. simpl in *. eexists _, _.
  split; [done|]. split; [done|]. split; [done|]. simpl. rewrite <-Hbuf.
  unfold buf_items. rewrite <-list_fmap_compose. rewrite <-(list_fmap_id buf) at 2.
  apply list_fmap_ext. by intros ? [] ?.
Qed.

(** A scan of two of three entries. *)
Lemma memkv_iter_exact_witness :
  let s := mkStore (L := kvmap) {[ str "a" := Some (str "1"); str "b" := Some (str "2"); str "c" := None ]} [] 0 in
  ∃ s' it, Iter (str "a") (str "c") 0 0 s = Some (s', inr it) ∧
    item_kv <$> it_items it = [(str "a", Some (str "1")); (str "b", Some (str "2"))].
Proof.
  intros s. destruct (memkv_iter_exact (str "a") (str "c") 0 0 s) as (s' & it & E & _ & _ & Ei).
  exists s', it. split; [exact E|]. rewrite Ei. vm_compute. reflexivity.
Defined.

(** * The history cache *)

(** C33: the history cache is a window over the event history.  After any
    sequence of additions in revision order, [FindEvents rev] answers what a scan
    of the last [n] events answers: empty, above the newest, below the oldest, or
    all events from [rev] on, in order. *)
Theorem ring_find_events n evs rev :
  (0 < n)%nat → StronglySorted ev_lt evs →
  ∃ r, add_all evs (NewRing n) = Some r ∧ FindEvents rev r = Some (find_in rev (kept n evs)).
Proof.
  intros Hn Hs.
  destruct (add_all_spec [] evs (NewRing n) (NewRing_ok n Hn) eq_refl) as (r & E & Hok & Hl).
  exists r. split; [done|]. simpl in Hl. unfold find_in. rewrite <-Hl.
  assert (ring_sorted r) as Hrs by (unfold ring_sorted; rewrite Hl; by apply kept_sorted).
  destruct (last (ring_list r)) as [nw|] eqn:Elast.
  - destruct (head (ring_list r)) as [o|] eqn:Ehead.
    + by rewrite (FindEvents_nonempty r Hok Hrs rev nw o).
    + apply head_None in Ehead. by rewrite Ehead in Elast.
  - apply last_None in Elast. by apply FindEvents_empty.
Qed.

Lemma ring_find_events_witness :
  let ev r := mkEvent PUT (mkKV (str "k") None r) r in
  ∃ r, add_all [ev 1; ev 2; ev 3; ev 5] (NewRing 3) = Some r ∧
       FindEvents 3 r = Some (find_in 3 [ev 2; ev 3; ev 5]).
Proof.
  intros ev. apply (ring_find_events 3 [ev 1; ev 2; ev 3; ev 5] 3); [lia|].
  repeat constructor.
Defined.

(** * The queue of uncertain events *)

(** The linked queue is a FIFO queue.  Any sequence of pushes, pops and head
    reads on an empty queue returns what the same sequence on a list returns,
    down to the panic of a pop on an empty queue. *)
Theorem queue_fifo ops : queue_run ops emptyQueue = list_run ops [].
Proof. apply queue_run_repr, emptyQueue_repr. Qed.

(** * The revision generator *)

(** A revision dealt after a commit is above every revision committed or
    dealt before. *)
Theorem tso_deal_fresh revision n :
  is_uint64 revision → 0 <= dealRevision n → Z.max (dealRevision n) revision < max_uint64 →
  wp (Tso.Commit revision ≫= λ _, Deal) (λ r n',
    revision < r ∧ dealRevision n < r ∧ dealRevision n' = r ∧ committedRevision n' = revision) n.
Proof.
  intros Hr Hd Hmax. apply wp_bind, wp_Commit, wp_Deal; simpl; [lia | lia|].
  repeat split; lia.
Qed.

Lemma tso_deal_fresh_witness :
  wp (Tso.Commit 100 ≫= λ _, Deal) (λ r n',
    100 < r ∧ 5 < r ∧ dealRevision n' = r ∧ committedRevision n' = 100) (mkTSO 3 5).
Proof. by apply (tso_deal_fresh 100 (mkTSO 3 5)). Defined.

(** The same does not hold when a [Deal] of another goroutine comes between
    the load and the compare-and-swap of [Commit]: the swap is not retried, and
    the generator is left below the committed revision. *)
Theorem tso_commit_race :
  ∃ n, rtc (tso_step 100) (mkTSO 3 5, StoreCommitted) (n, CommitDone) ∧
    dealRevision n < committedRevision n.
Proof.
  exists (mkTSO 100 6). split; [|done].
  do 2 (eapply rtc_l; [apply tso_commit|]; simpl).
  eapply rtc_l; [apply tso_deal|]. apply rtc_once.
  apply (tso_commit 100 (mkTSO 100 (uint64 (5 + 1))) (CompareSwap 5)).
Qed.

(** * The metrics wrapper *)

(** The metrics wrapper is transparent: any sequence of calls of the engine
    interface through it gets the answers, and leaves the engine in the state,
    of the same calls on the engine itself, panics included. *)
Theorem metrics_transparent {S} `{KvStorage S} qs (w : storeWrapper S) :
  erase (kv_calls qs w) = kv_calls qs (KvStorage_ w).
Proof. apply erase_calls. Qed.

(** The counter of fetched entries does not count them: however many entries
    an iterator yields, the wrapper reports one success when it ended normally
    and none when it failed. *)
Theorem metrics_fetch_count items e limit :
  iw_Close <$> iw_drain (S (length items)) (newIterWrapper (mkIter items e) limit) =
  Some [EmitFetchSuccess (if decide (e = EOF ∨ e = Canceled) then 1 else 0) (0 <? limit)].
Proof. unfold newIterWrapper. simpl it_items. simpl it_end. by rewrite iw_drain_counter. Qed.
