(* ===== verification/EngineTheorems.v ===== *)
(** The properties of the adapters to external engines, each with an instance on
    a concrete database. *)

From S2P Require Import Prelude GoMonad Storage Badger BadgerSpec.

(** * A database for the instances *)

(** A map with versions and the last timestamp; a transaction has what it sees,
    its snapshot and its timestamp. *)
Record db := mkDb { d_map : vmap; d_ts : Z }.
Record txn := mkTxnB { t_view : vmap; t_base : vmap; t_ts : Z }.

Definition items_of (l : list (bytes * (bytes * Z))) : list (bytes * bitem) :=
  (λ e, (e.1, mkBitem (inr e.2.1) e.2.2)) <$> l.

#[local] Instance map_badger : Badger db txn := {
  db_NewTransaction _ d := mkTxnB (d_map d) (d_map d) (uint64 (d_ts d));
  txn_ReadTs := t_ts;
  txn_Get k t := match t_view t !! k with
                 | Some (v, ver) => inr (mkBitem (inr v) ver)
                 | None => inl BKeyNotFound
                 end;
  txn_Set k v _ t := (mkTxnB (<[k := (content v, t_ts t)]> (t_view t)) (t_base t) (t_ts t), None);
  txn_Delete k t := (mkTxnB (delete k (t_view t)) (t_base t) (t_ts t), None);
  txn_Commit t d := Some (mkDb (t_view t) (d_ts d + 1), None);
  txn_Seek rev start t :=
    items_of (if rev then reverse (filter (λ e, bytes_le e.1 start) (entries (t_view t)))
              else filter (λ e, bytes_le start e.1) (entries (t_view t)));
}.

Lemma items_of_spec l : Forall2 (λ x e, x.1 = e.1 ∧ item_of x.2 e.2) (items_of l) l.
Proof.
  unfold items_of. induction l as [|[k [v ver]] l IH]; simpl; [constructor|].
  constructor; [|done]. split; [done|]. split; [done|]. by intros x [= ->].
Qed.

#[local] Program Instance map_badger_spec : BadgerSpec db txn := {
  db_inv _ := True; db_view := d_map; txn_view := t_view; txn_base := t_base }.
Next Obligation. intros u d _. split; [done|]. split; [done|]. apply uint64_range. Qed.
Next Obligation.
  intros k t. simpl. destruct (t_view t !! k) as [[v ver]|] eqn:E; [|done].
  exists (v, ver). split; [done|]. split; [done|]. by intros x [= ->].
Qed.
Next Obligation. intros k v ttl t t' E. simpl in E. injection E as <-. done. Qed.
Next Obligation. intros k t t' E. simpl in E. injection E as <-. done. Qed.
Next Obligation. intros t d _ _. done. Qed.
Next Obligation. intros rev start t. apply items_of_spec. Qed.

Lemma map_readable : readable (D := db) (T := txn).
Proof.
  intros rev start t x Hx. simpl in Hx. unfold items_of in Hx. apply list_elem_of_fmap in Hx as (e & -> & _). by eexists.
Qed.

Lemma map_copies d k : ¬ copy_fails (T := txn) (d : db) k.
Proof.
  intros (t & it & e & _ & Hg & Hv). simpl in Hg. destruct (t_view t !! k) as [[v ver]|]; by simplify_eq.
Qed.

Definition ka : bytes := str "a".
Definition kb : bytes := str "b".
Definition db0 : db := mkDb {[ka := (str "1", 3); kb := (str "2", 4)]} 4.

(** * badger *)

(** C30: a write batch of the badger adapter applies its operations, each on what
    the ones before left, or fails and leaves the database as it was; it reports a
    failed comparison only when one does not hold.  Without an error every
    comparison holds, but for a creation of a key that exists and whose value
    cannot be copied, which is passed over while the rest is applied; so when the
    values of the keys that the batch creates can be copied, it succeeds only with
    all operations applied and every comparison true, and a failed comparison
    means that the batch as a whole does not apply. *)
Theorem badger_commit_atomic {D T} `{BadgerSpec D T} ops d :
  db_inv d →
  wp (Commit ops) (λ e d', db_inv d' ∧
    let ts := txn_ReadTs (db_NewTransaction true d) in
    let copied := ∀ k, creates ops k → ¬ copy_fails d k in
    match e with
    | None => ∃ m, batch_runs (copy_fails d) ts ops (db_view d) m ∧ fst <$> db_view d' = fst <$> m ∧
        (copied → vbatch_apply ts ops (db_view d) = Some m)
    | Some e => db_view d' = db_view d ∧
        (err_is e ErrCASFailed = true → batch_conflict (copy_fails d) ts ops (db_view d) ∧
          (copied → vbatch_apply ts ops (db_view d) = None))
    end) d.
Proof.
  intros Hd. eapply wp_mono; [by apply wp_badger_Commit|]. intros [e|] d' [Hd' He]; (split; [done|]); simpl in *.
  - destruct He as [Hv Hc]. split; [done|]. intros Hcas. split; [by apply Hc|]. intros Hb.
    eapply conflict_apply; [exact Hb | by apply Hc].
  - destruct He as (m & Hr & Hv). exists m. split; [done|]. split; [done|]. intros Hb. by eapply runs_apply.
Qed.

Lemma badger_commit_atomic_witness :
  let ops := [CAS ka (Some (str "9")) (Some (str "1")) 0; DelCurrent (mkItem kb None 4); PutIfNotExist kb (Some (str "3")) 0] in
  ∃ d', Commit ops db0 = Some (d', None) ∧
    ∃ m, vbatch_apply 4 ops (d_map db0) = Some m ∧ fst <$> d_map d' = fst <$> m.
Proof.
  intros ops. pose proof (badger_commit_atomic (H0 := map_badger_spec) ops db0 I) as Hw. unfold wp in Hw.
  assert (snd <$> Commit ops db0 = Some None) as E by (vm_compute; reflexivity).
  destruct (Commit ops db0) as [[d' e]|]; [|discriminate E]. injection E as ->.
  exists d'. split; [reflexivity|]. destruct Hw as (_ & m & _ & Hv & Ha). exists m.
  split; [|exact Hv]. apply Ha. intros k _. apply map_copies.
Defined.

(** An iterator of the badger adapter whose values can be copied yields exactly the
    entries of its range, ascending from the start or descending to it, up to its
    limit, and then the end; it leaves the database alone. *)
Theorem badger_iter_exact {D T} `{BadgerSpec D T} start end_ ts limit d :
  readable (D := D) (T := T) → db_inv d → 0 <= limit →
  wp (Iter start end_ ts limit) (λ r d', d' = d ∧ ∃ it, r = inr it ∧ it_end it = EOF ∧
    entry_of <$> it_items it =
    limited limit 0 (if bytes_ltb end_ start then desc_range (db_view d) start end_
                     else asc_range (db_view d) start end_)) d.
Proof. apply wp_badger_Iter. Qed.

Lemma badger_iter_exact_witness :
  wp (Iter kb [] 0 1) (λ r d', d' = db0 ∧ ∃ it, r = inr it ∧ it_end it = EOF ∧
    entry_of <$> it_items it = limited 1 0 (desc_range (d_map db0) kb [])) db0.
Proof. exact (badger_iter_exact kb [] 0 1 db0 map_readable I ltac:(done)). Defined.

(** A value that exists but cannot be read makes [PutIfNotExist] a silent
    success: the batch goes on, commits what follows, and reports no error. *)
Theorem badger_copy_error_skips {D T} `{BadgerSpec D T} k v ttl k' v' d it e t' d' :
  txn_Get k (db_NewTransaction true d) = inr it → bi_val it = inl e →
  txn_Set k' v' ttl (db_NewTransaction true d) = (t', None) → txn_Commit t' d = Some (d', None) →
  Commit [PutIfNotExist k v ttl; Put k' v' ttl] d = Some (d', None).
Proof.
  intros Hg Hv Hset Hc. unfold Commit. simpl. unfold batch_PutIfNotExist. rewrite Hg, Hv.
  unfold put. rewrite Hset. simpl. by rewrite Hc.
Qed.
