(* ===== verification/TikvTheorems.v ===== *)
(** The properties of the adapter to TiKV, each with an instance on a concrete
    cluster. *)

From S2P Require Import Prelude GoMonad Storage Tikv TikvSpec Coder Mvcc ScanSpec.

(** * Regions *)

(** What the placement driver promises of the regions of [[s, e)]: in order,
    adjacent, the inner borders inside the range and keys of the store's format;
    the first may begin anywhere before [s] and the last end anywhere after
    [e]. *)
Fixpoint regions_from (s e : bytes) (r : bytes * bytes) (rs : list (bytes * bytes)) : Prop :=
  match rs with
  | [] => r.2 = [] ∨ bytes_le e r.2
  | r' :: rs' =>
      bytes_lt s r.2 ∧ bytes_lt r.1 r.2 ∧ bytes_lt r.2 e ∧ internal_ok r.2 ∧ r'.1 = r.2 ∧ regions_from s e r' rs'
  end.

Definition regions_of (s e : bytes) (regs : list (bytes * bytes)) : Prop :=
  match regs with [] => True | r :: rs => bytes_le r.1 s ∧ regions_from s e r rs end.

Lemma maxBytes_le a b : bytes_le a b → maxBytes a b = b.
Proof. intros Hab. unfold maxBytes. case_match; [|done]. by apply bytes_ltb_spec, bytes_not_le in H. Qed.

Lemma maxBytes_lt a b : bytes_lt b a → maxBytes a b = a.
Proof. intros Hab. unfold maxBytes. by rewrite (proj2 (bytes_ltb_spec _ _) Hab). Qed.

Lemma minBytes_lt a b : bytes_lt a b → minBytes a b = a.
Proof.
  intros Hab. unfold minBytes. case_match; [|done]. apply bytes_ltb_spec in H.
  exfalso. apply (bytes_lt_irrefl a). by etrans.
Qed.

Lemma minBytes_le a b : bytes_le b a → minBytes a b = b.
Proof.
  intros Hab. unfold minBytes. apply bytes_le_lteq in Hab as [Hab|<-]; [|by destruct (bytes_ltb b b)].
  by rewrite (proj2 (bytes_ltb_spec _ _) Hab).
Qed.

Lemma partition_start s e r : Start (region_partition s e r) = maxBytes r.1 s.
Proof. unfold region_partition. simpl. destruct r.1; [|done]. symmetry. apply maxBytes_le. by destruct s. Qed.

Lemma regions_chain s e rs : ∀ r,
  bytes_lt (maxBytes r.1 s) e → regions_from s e r rs →
  chain (maxBytes r.1 s) e (region_partition s e <$> r :: rs).
Proof.
  induction rs as [|r' rs IH]; intros r Hlt Hr; rewrite !fmap_cons; (split; [apply partition_start|]).
  - split; [|apply bytes_le_lteq; by left]. unfold region_partition. simpl. destruct Hr as [->|Hle]; [done|].
    destruct r.2 eqn:E; [done|]. by apply minBytes_le.
  - destruct Hr as (Hs & Hr & He & Hi & E & Hrs).
    assert (End (region_partition s e r) = r.2) as ->.
    { unfold region_partition. simpl. destruct r.2 eqn:E2; [by destruct s | by apply minBytes_lt]. }
    assert (maxBytes r'.1 s = r.2) as Em by (rewrite E; by apply maxBytes_lt).
    split; [by unfold maxBytes; case_match|]. split; [done|]. rewrite <-Em. apply IH; [by rewrite Em | done].
Qed.

(** * A cluster for the instances *)

(** The newest state, the last timestamp, the regions, whether transactions can
    begin, and whether the answer to a commit is lost on its way. *)
Record cluster := mkCluster {
  c_map : tmap; c_ts : Z; c_regions : list (bytes * bytes); c_up : bool; c_lossy : bool }.
Record ktxn := mkKtxn { kt_view : tmap; kt_base : tmap }.

#[local] Instance cluster_tikv : Tikv cluster ktxn := {
  tk_GetTimestamp c := Some (c, inr (uint64 (c_ts c)));
  tk_ScanRegions _ _ c := Some (c, inr (c_regions c));
  tk_Begin c := Some (c, if c_up c then inr (mkKtxn (c_map c) (c_map c)) else inl TServerTimeout);
  tk_Get k t := match kt_view t !! k with Some v => inr v | None => inl TNotFound end;
  tk_Set k v t := match v with
                  | Some x => (mkKtxn (<[k := x]> (kt_view t)) (kt_base t), None)
                  | None => (t, Some (TOther "cannot set nil value"))
                  end;
  tk_Delete k t := (mkKtxn (base.delete k (kt_view t)) (kt_base t), None);
  tk_Commit t c := Some (mkCluster (kt_view t) (c_ts c + 1) (c_regions c) (c_up c) (c_lossy c),
                         if c_lossy c then Some TServerTimeout else None);
  tk_Rollback t c := match t with Some _ => Some (c, ()) | None => None end;
  tk_Iter _ start end_ c := Some (c, inr (asc_range (c_map c) start end_, None));
  tk_IterReverse _ k c := Some (c, inr (reverse (filter (λ e, bytes_lt e.1 k) (entries (c_map c))), None));
}.

#[local] Program Instance cluster_spec : TikvSpec cluster ktxn := {
  tk_inv _ := True; tk_view := c_map; tk_at c _ := c_map c; tx_view := kt_view; tx_base := kt_base;
  tk_undetermined e := e = TServerTimeout }.
Next Obligation. intros d _. split; [done|]. split; [done|]. split; [apply uint64_range | done]. Qed.
Next Obligation. intros d _. unfold wp. simpl. by destruct (c_up d). Qed.
Next Obligation. intros k t. simpl. by destruct (kt_view t !! k). Qed.
Next Obligation. intros k [v|] t t' E; simpl in E; [|done]. injection E as <-. by exists v. Qed.
Next Obligation. intros k t t' E. simpl in E. injection E as <-. done. Qed.
Next Obligation. done. Qed.
Next Obligation. intros t d _ _. unfold wp. simpl. destruct (c_lossy d); [|done]. split; [done|]. by right. Qed.
Next Obligation. intros t d _. done. Qed.
Next Obligation. done. Qed.
Next Obligation. intros ts start end_ d _. done. Qed.
Next Obligation. intros ts k d _. done. Qed.

Definition ta : bytes := str "a".
Definition tb : bytes := str "b".
Definition cluster0 : cluster := mkCluster {[ta := str "1"; tb := str "2"]} 7 [] true false.
Definition lossy0 : cluster := mkCluster {[ta := str "1"; tb := str "2"]} 7 [] true true.

(** * Batches and iterators *)

(** C31: a write batch of the TiKV adapter: without an error all its operations
    are applied, each on what the ones before left and with every comparison
    true; with an error none is, or all are and the client's commit failed with
    an error that leaves its outcome open.  Such an error is never reported as a
    failed comparison, and is reported as uncertain exactly when it is one of the
    five the adapter knows (deadline, cancellation, missing body, server timeout,
    unknown); so the contract of the engine interface holds for a client whose
    open errors are among these.  A conflict is never reported for operation 0.
    The batch returns, unless its transaction could not begin and the rollback of
    the nil transaction panics. *)
Theorem tikv_commit_contract {D T} `{TikvSpec D T} ops d :
  tk_inv d →
  begin_panics (T := T) d ∧ Commit ops d = None ∨
  wp (Commit ops) (λ e d', commit_exact d ops e d' ∧
    ((∀ c, tk_undetermined c → reported_uncertain c) →
     commit_post (as_kv (tk_view d)) ops e (as_kv (tk_view d')))) d.
Proof.
  intros Hd. destruct (wp_tikv_Commit ops d Hd) as [Hp|Hw]; [by left|]. right.
  eapply wp_mono; [exact Hw|]. intros e d' He. split; [done|]. intros Hl. by apply commit_exact_post.
Qed.

(** On a cluster that answers, and on one that loses the answer to the commit: the
    batch is applied and the error says that this is not known. *)
Lemma tikv_commit_contract_witness :
  let ops := [CAS ta (Some (str "9")) (Some (str "1")) 0; Del tb] in
  (∃ d', Commit ops cluster0 = Some (d', None) ∧
    batch_apply ops (as_kv (c_map cluster0)) = Some (as_kv (c_map d'))) ∧
  (∃ d', Commit ops lossy0 = Some (d', Some (errUncertainResult (client_err TServerTimeout))) ∧
    commit_post (as_kv (c_map lossy0)) ops (Some (errUncertainResult (client_err TServerTimeout))) (as_kv (c_map d')) ∧
    c_map d' !! ta = Some (str "9")).
Proof.
  intros ops. split.
  - destruct (tikv_commit_contract (H0 := cluster_spec) ops cluster0 I) as [[_ E]|Hw]; [discriminate E|]. unfold wp in Hw.
    assert (snd <$> Commit ops cluster0 = Some None) as E by (vm_compute; reflexivity).
    destruct (Commit ops cluster0) as [[d' e]|]; [|discriminate E]. injection E as ->.
    exists d'. split; [reflexivity|]. exact (proj2 (proj2 (proj1 Hw))).
  - destruct (tikv_commit_contract (H0 := cluster_spec) ops lossy0 I) as [[_ E]|Hw]; [discriminate E|]. unfold wp in Hw.
    assert ((λ r, (c_map r.1 !! ta, r.2)) <$> Commit ops lossy0
      = Some (Some (str "9"), Some (errUncertainResult (client_err TServerTimeout)))) as E by (vm_compute; reflexivity).
    destruct (Commit ops lossy0) as [[d' e]|]; [|discriminate E]. injection E as E1 ->.
    exists d'. split; [reflexivity|]. split; [|exact E1]. apply (proj2 Hw).
    intros c ->. right. right. right. left. reflexivity.
Defined.

(** C32: an iterator of the TiKV adapter yields, on the state of its snapshot (the
    newest one for timestamp 0), exactly the entries of its range, ascending from
    the start or descending to it, and one entry more than its limit where there
    are more (the first entry is not counted; a limit of 0 or of 2^63 and more is
    none); over an empty descending range it yields the greatest entry below it,
    which is not compared with the border.  It stops before only with the client's
    error.  So it keeps the contract of the engine interface, in which a limit is
    a lower bound. *)
Theorem tikv_iter_exact {D T} `{TikvSpec D T} start end_ timestamp limit d :
  tk_inv d → is_uint64 limit →
  wp (Iter start end_ timestamp limit) (λ r d', tk_inv d' ∧ tk_view d' = tk_view d ∧
    match r with
    | inl e => iter_err e
    | inr it =>
        let full := as_item <$> tikv_range (snapshot_at d timestamp) start end_ limit in
        let yielded := item_kv <$> it_items it in
        yielded `prefix_of` full ∧ (it_end it = EOF → yielded = full) ∧
        (it_end it = EOF ∨ ∃ c, it_end it = client_err c) ∧
        iter_post (as_kv (snapshot_at d timestamp)) start end_ limit it
    end) d.
Proof.
  intros Hd Hl. eapply wp_mono; [by apply wp_tikv_Iter|]. intros [e|[items e]] d' (Hd' & Hv & Hi); [done|].
  split; [done|]. split; [done|]. pose proof (tikv_range_post _ _ _ _ _ _ Hl Hi) as Hpost.
  by destruct Hi as (Hp & _ & Hend & Hc).
Qed.

(** Two entries for a limit of 1, and one from below an empty range. *)
Lemma tikv_iter_exact_witness :
  (∃ it d', Iter tb [] 0 1 cluster0 = Some (d', inr it) ∧ it_end it = EOF ∧
    item_kv <$> it_items it = as_item <$> tikv_range (c_map cluster0) tb [] 1 ∧ it_key <$> it_items it = [tb; ta]) ∧
  (∃ it d', Iter (str "d") (str "c") 0 0 cluster0 = Some (d', inr it) ∧ it_end it = EOF ∧
    item_kv <$> it_items it = as_item <$> tikv_range (c_map cluster0) (str "d") (str "c") 0 ∧
    it_key <$> it_items it = [tb]).
Proof.
  split.
  - pose proof (tikv_iter_exact tb [] 0 1 cluster0 I ltac:(done)) as Hw. unfold wp in Hw.
    assert ((λ r, match r.2 with inr it => (it_end it, it_key <$> it_items it) | inl e => (e, []) end)
      <$> Iter tb [] 0 1 cluster0 = Some (EOF, [tb; ta])) as E by (vm_compute; reflexivity).
    destruct (Iter tb [] 0 1 cluster0) as [[d' [e|it]]|]; [discriminate E| |discriminate E]. injection E as E1 E2.
    exists it, d'. split; [reflexivity|]. split; [exact E1|]. split; [|exact E2].
    exact (proj1 (proj2 (proj2 (proj2 Hw))) E1).
  - pose proof (tikv_iter_exact (str "d") (str "c") 0 0 cluster0 I ltac:(done)) as Hw. unfold wp in Hw.
    assert ((λ r, match r.2 with inr it => (it_end it, it_key <$> it_items it) | inl e => (e, []) end)
      <$> Iter (str "d") (str "c") 0 0 cluster0 = Some (EOF, [tb])) as E by (vm_compute; reflexivity).
    destruct (Iter (str "d") (str "c") 0 0 cluster0) as [[d' [e|it]]|]; [discriminate E| |discriminate E].
    injection E as E1 E2.
    exists it, d'. split; [reflexivity|]. split; [exact E1|]. split; [|exact E2].
    exact (proj1 (proj2 (proj2 (proj2 Hw))) E1).
Defined.

(** The partitions that the adapter reports are adjacent and cover the range, when
    the regions do. *)
Theorem tikv_partitions_chain {D T} `{TikvSpec D T} start end_ d d' regs :
  bytes_lt start end_ →
  tk_ScanRegions start end_ d = Some (d', inr regs) → regions_of start end_ regs →
  ∃ ps, GetPartitions start end_ d = Some (d', (ps, None)) ∧ chain start end_ ps.
Proof.
  intros Hlt Hreg Hr. unfold GetPartitions. unfold mbind, gom_bind. rewrite Hreg. simpl.
  destruct regs as [|r [|r' rs]]; simpl;
    [eexists; split; [done|]; split; [done|]; split; [done|]; apply bytes_le_lteq; by left..|].
  eexists. split; [done|]. destruct Hr as [Hle Hr]. pose proof (maxBytes_le _ _ Hle) as Em.
  rewrite <-Em at 1. apply (regions_chain start end_ (r' :: rs) r); [by rewrite Em | done].
Qed.

(** When a transaction cannot begin, a batch rolls back the nil transaction, and
    panics when that does. *)
Theorem tikv_begin_error_panics {D T} `{Tikv D T} ops d e d' :
  tk_Begin d = Some (d', inl e) → tk_Rollback (T := T) None d' = None → Commit ops d = None.
Proof. intros Eb Er. unfold Commit, BeginBatchWrite, mbind, gom_bind. rewrite Eb. simpl. by rewrite Er. Qed.

(** A comparison with a missing key fails with [ErrKeyNotFound], which is not the
    error the interface names for it. *)
Theorem tikv_cas_missing {D T} `{TikvSpec D T} idx k new old t :
  tk_Get k t = inl TNotFound →
  run_op idx (CAS k new old 0) t = (t, Some ErrKeyNotFound) ∧ err_is ErrKeyNotFound ErrCASFailed = false ∧
  bop_apply (CAS k new old 0) (as_kv (tx_view t)) = None.
Proof.
  intros Hg. simpl. unfold batch_CAS. rewrite Hg. split; [done|]. split; [done|].
  pose proof (tk_get_spec k t) as Hk. rewrite Hg in Hk. unfold as_kv. by rewrite lookup_fmap, Hk.
Qed.

(** A limited iterator yields one entry more than its limit. *)
Theorem tikv_limit_off_by_one {D T} `{TikvSpec D T} start end_ limit d r d' :
  tk_inv d → 0 < limit < two63 → bytes_ltb end_ start = false →
  (Z.to_nat limit < length (asc_range (tk_view d) start end_))%nat →
  Iter start end_ 0 limit d = Some (d', inr r) → it_end r = EOF →
  length (it_items r) = S (Z.to_nat limit).
Proof.
  intros Hd Hl Hr Hlen E He. pose proof (wp_tikv_Iter start end_ 0 limit d Hd) as Hw.
  unfold wp in Hw. rewrite E in Hw. destruct Hw as (_ & _ & _ & _ & Hend & _);
    [unfold is_uint64, two63, two64 in *; lia|].
  specialize (Hend He). apply (f_equal length) in Hend. rewrite !length_fmap in Hend. rewrite Hend.
  unfold tikv_range, snapshot_at. simpl. rewrite Hr. unfold one_more.
  rewrite (proj2 (Z.ltb_lt _ _) (proj1 Hl)), (proj2 (Z.ltb_lt _ _) (proj2 Hl)). simpl. rewrite length_take. lia.
Qed.
