(* ===== verification/BackendTheorems.v ===== *)
(** What the theorems of the backend say: writes, point reads, range reads,
    compaction and retries, on any storage engine that keeps the contract. *)

From S2P Require Import Prelude GoMonad Storage Coder MemKV Proto Tso Ring Queue Mvcc Creator.
From S2P Require Import Scanner ScanSpec ScanRead Compaction Backend BackendSpec Refinement.
From S2P Require Import BackendReads RetrySpec RetryLoop Concrete.

(** * Writes *)

(** C17: [Create] on every outcome.  It deals exactly one revision and submits
    exactly one event for it; it succeeds only on a key with no live version,
    where it adds one version and the matching record; a refusal changes nothing;
    an error leaves the store as it was unless the engine reports the result as
    uncertain; the invariant of the store holds afterwards.  Without engine
    failures it answers, and succeeds on every key with no live version. *)
Theorem backend_create {S} `{KvSpec S} put (b : backend S) :
  backend_inv b → room b → valid_key (cr_Key put) → is_tombstone (cr_Value put) = false →
  wp (Backend.Create put) (λ r b', Create_post b put r b' ∧
    (KvReliable S → ∃ resp, r = (Some resp, None) ∧
      (dead (view b) (cr_Key put) → crs_Succeeded resp = true))) b.
Proof. apply wp_Create. Qed.

Lemma backend_create_witness :
  wp (Backend.Create (mkCreateRequest key1 val1 0)) (λ r b',
    Create_post b0 (mkCreateRequest key1 val1 0) r b' ∧
    (KvReliable mem → ∃ resp, r = (Some resp, None) ∧
      (dead (view b0) key1 → crs_Succeeded resp = true))) b0.
Proof.
  exact (backend_create (mkCreateRequest key1 val1 0) b0 inv_b0 room_b0 valid_key1 eq_refl).
Defined.

(** C18: [Update] on every outcome.  It succeeds only when the key's newest live
    revision is the expected one (0: no live version), and then adds exactly one
    version; a failed comparison changes nothing and returns the newest live
    key-value; an expected revision from the future is refused; the invariant
    holds afterwards.  Without engine failures the comparison alone decides. *)
Theorem backend_update {S} `{KvSpec S} r (b : backend S) :
  backend_inv b → room b → valid_key (kv_Key (ur_Kv r)) →
  is_tombstone (kv_Value (ur_Kv r)) = false → 0 <= kv_Revision (ur_Kv r) →
  wp (Update r) (λ res b', Update_post b r res b' ∧ (KvReliable S → Update_reliable b r res)) b.
Proof. apply wp_Update. Qed.

Lemma backend_update_witness :
  let r := mkUpdateRequest (mkKV key1 val2 1) 0 in
  wp (Update r) (λ res b', Update_post b1 r res b' ∧ (KvReliable mem → Update_reliable b1 r res)) b1.
Proof.
  intros r. apply (backend_update r b1 inv_b1 room_b1 valid_key1 eq_refl). done.
Defined.

(** C19: [Delete] on every outcome.  It succeeds only on a live key, when no
    revision is expected or the expected one is the newest, and then writes a
    tombstone as the newest version and returns the key-value it deleted; a
    refusal changes nothing and returns the newest live key-value; the invariant
    holds afterwards.  Without engine failures the comparison alone decides. *)
Theorem backend_delete {S} `{KvSpec S} r (b : backend S) :
  backend_inv b → room b → valid_key (dr_Key r) → 0 <= dr_Revision r →
  wp (Delete r) (λ res b', Delete_post b r res b' ∧ (KvReliable S → Delete_reliable b r res)) b.
Proof. apply wp_Delete. Qed.

Lemma backend_delete_witness :
  let r := mkDeleteRequest key1 1 in
  wp (Delete r) (λ res b', Delete_post b1 r res b' ∧ (KvReliable mem → Delete_reliable b1 r res)) b1.
Proof. intros r. by apply (backend_delete r b1 inv_b1 room_b1 valid_key1). Defined.

(** C1: refinement.  On an engine without failures, every sequence of creates,
    updates, deletes and reads gets exactly the responses of an abstract
    multi-version map, and the store stands for that map afterwards. *)
Theorem backend_refines_map {S} `{KvReliable S} `{Backoff} qs (b : backend S) m :
  backend_inv b → room_for (length qs) b → refines b m → Forall request_ok qs →
  wp (b_run qs) (λ xs b', backend_inv b' ∧ xs = (m_run qs m).1 ∧ refines b' (m_run qs m).2) b.
Proof. apply refines_run. Qed.

Definition session : list request :=
  [RCreate (mkCreateRequest key1 val1 0); RUpdate (mkUpdateRequest (mkKV key1 val2 1) 0);
   RDelete (mkDeleteRequest key1 1); RGet (mkGetRequest key1 1); RDelete (mkDeleteRequest key1 2);
   RGet (mkGetRequest key1 0)].

Lemma refines_b0 : refines b0 (mkModel 0 0 (λ _, [])).
Proof.
  split; [done..|]. intros k R Hk HR. change (None = visible (view b0) k R).
  destruct (visible (view b0) k R) as [[r v]|] eqn:E; [|done].
  apply visible_Some in E as [(Ho & _) _]; [done | apply inv_b0 | done | done].
Qed.

Lemma backend_refines_map_witness :
  wp (b_run session) (λ xs b', backend_inv b' ∧
    xs = (m_run session (mkModel 0 0 (λ _, []))).1 ∧
    refines b' (m_run session (mkModel 0 0 (λ _, []))).2) b0.
Proof.
  apply (backend_refines_map session b0 (mkModel 0 0 (λ _, [])) inv_b0); [done | apply refines_b0|].
  pose proof valid_key1. unfold session. repeat apply Forall_cons_2; try apply Forall_nil_2; done.
Defined.

(** * Range reads *)

(** C20: [List] returns exactly the key-values visible at the requested (or
    current) revision in the requested range, in key order, cut at a positive
    limit with [More] set iff something was cut; it refuses revisions that are
    compacted; it changes nothing; without engine failures or cancellation it
    answers. *)
Theorem backend_list {S} `{KvSpec S} `{!KvPartitions S} `{Backoff} cfg ctx r (b : backend S) :
  readable cfg b → valid_key (rr_Key r) → valid_key (rr_End r) → rr_End r ≠ [] →
  bytes_lt (rr_Key r) (rr_End r) → is_uint64 (rr_Revision r) → rr_Limit r < two63 - 1 →
  wp (Backend.List cfg ctx r) (λ res b',
    kv_inv (b_store b') ∧ view b' = view b ∧ tso b' = tso b ∧ List_post cfg b r res ∧
    (KvReliable S → no_cancel ctx → not_compacted (getScannerConfig cfg) (view b) (list_rev r b) →
     is_Some res.1)) b.
Proof. apply wp_List. Qed.

Definition pods : bytes := str "/registry/pods/".
Definition pods_end : bytes := str "/registry/pods0".

Lemma valid_pods : valid_key pods ∧ valid_key pods_end.
Proof. split; by apply (bool_decide_unpack _). Qed.

Lemma no_record_b1 : view b1 !! getCompactKey (Prefix cfg0) = None.
Proof. vm_compute. reflexivity. Qed.

Lemma readable_b1 : readable cfg0 b1.
Proof.
  split; [apply inv_b1|]. split; [|by rewrite tso_b1].
  intros v Hv. exfalso. assert (Some v = None); [|done]. rewrite <-Hv. apply no_record_b1.
Qed.

Lemma backend_list_witness :
  let r := mkRangeRequest pods pods_end 1 1 in
  wp (Backend.List cfg0 (λ _, []) r) (λ res b',
    kv_inv (b_store b') ∧ view b' = view b1 ∧ tso b' = tso b1 ∧ List_post cfg0 b1 r res ∧
    (KvReliable mem → no_cancel (λ _, []) →
     not_compacted (getScannerConfig cfg0) (view b1) (list_rev r b1) → is_Some res.1)) b1.
Proof.
  intros r. apply (backend_list cfg0 (λ _, []) r b1 readable_b1); try done; apply valid_pods.
Defined.

(** [Count] is the length of the unlimited [List] at the current revision. *)
Theorem backend_count {S} `{KvSpec S} `{!KvPartitions S} `{Backoff} cfg ctx r (b : backend S) :
  readable cfg b → valid_key (cor_Key r) → valid_key (cor_End r) → bytes_lt (cor_Key r) (cor_End r) →
  EnableEtcdCompatibility cfg = true →
  wp (Backend.Count cfg ctx r) (λ res b',
    kv_inv (b_store b') ∧ view b' = view b ∧ tso b' = tso b ∧
    (KvReliable S → no_cancel ctx →
     not_compacted (getScannerConfig cfg) (view b) (committedRevision (tso b)) → is_Some res.1) ∧
    match res with
    | (Some resp, None) =>
        cors_Revision resp = committedRevision (tso b) ∧
        ∀ l, visible_range (view b) (cor_Key r) (cor_End r) (committedRevision (tso b)) l →
             Z.of_nat (length l) < two63 → cors_Count resp = Z.of_nat (length l)
    | (None, Some _) => True
    | _ => False
    end) b.
Proof. apply wp_Count_backend. Qed.

Lemma backend_count_witness :
  let r := mkCountRequest pods pods_end in
  wp (Backend.Count cfg0 (λ _, []) r) (λ res b', view b' = view b1) b1.
Proof.
  intros r. eapply wp_mono; [apply (backend_count cfg0 (λ _, []) r b1 readable_b1); try done; apply valid_pods|].
  intros res b' (_ & Hv & _). exact Hv.
Defined.

(** The messages of a streamed list, taken worker by worker in partition order, hold
    exactly the visible key-values of the range, say that more is to come, and are
    followed by one end message without an error.  Across workers they are received
    in any order (StreamTheorems). *)
Theorem backend_list_by_stream {S} `{KvSpec S} `{!KvPartitions S} `{Backoff} cfg ctx k e rev (b : backend S) :
  readable cfg b → valid_key k → valid_key e → bytes_lt k e → is_uint64 rev →
  KvReliable S → no_cancel ctx →
  let R := if rev =? 0 then committedRevision (tso b) else rev in
  not_compacted (getScannerConfig cfg) (view b) R →
  wp (ListByStream cfg ctx (EncodeObjectKey k 0) (EncodeObjectKey e 0) rev) (λ res b',
    kv_inv (b_store b') ∧ view b' = view b ∧ tso b' = tso b ∧
    visible_range (view b) k e R (concat (msg_kvs <$> concat res.1)) ∧
    Forall (Forall (λ m, rrs_More (srs_RangeResponse m) = true ∧ srs_Err m = None)) res.1 ∧
    res.2 = getListStreamEnd R None) b.
Proof. apply wp_ListByStream. Qed.

Lemma not_compacted_b1 R : not_compacted (getScannerConfig cfg0) (view b1) R.
Proof. intros v Hv. exfalso. assert (Some v = None); [|done]. rewrite <-Hv. apply no_record_b1. Qed.

Lemma backend_list_by_stream_witness :
  wp (ListByStream cfg0 (λ _, []) (EncodeObjectKey pods 0) (EncodeObjectKey pods_end 0) 1) (λ res b',
    visible_range (view b1) pods pods_end 1 (concat (msg_kvs <$> concat res.1))) b1.
Proof.
  eapply wp_mono; [exact (backend_list_by_stream cfg0 (λ _, []) pods pods_end 1 b1 readable_b1
    (proj1 valid_pods) (proj2 valid_pods) eq_refl (uint64_range 1) _ (λ _, eq_refl)
    (not_compacted_b1 1))|].
  intros res b' (_ & _ & _ & Hv & _). exact Hv.
Defined.

(** The revisions in the headers of the messages of a streamed list. *)
Definition stream_headers (res : list (list StreamRangeResponse) * StreamRangeResponse) : list Z :=
  (λ m, rrs_Revision (srs_RangeResponse m)) <$> concat res.1.

(** The messages of a streamed list carry revision 0 in their headers, not
    the revision they are read at, which the forked receivers do not inherit. *)
Theorem stream_header_dropped :
  stream_headers ∘ snd <$>
    ListByStream cfg0 (λ _, []) (EncodeObjectKey pods 0) (EncodeObjectKey pods_end 0) 1 b1 = Some [0].
Proof. vm_compute. reflexivity. Qed.

(** An engine with 301 keys whose first iterator fails after the last of them. *)
Record flaky := mkFlaky { fk_failed : bool }.

Definition flaky_items : list kvitem :=
  (λ i, mkItem (EncodeObjectKey (str "/registry/pods/" ++ uint64ToBytes (Z.of_nat i)) 1) val1 0) <$> seq 0 301.

#[local] Instance flaky_storage : KvStorage flaky := {|
  kv_tso := mret (0, None);
  kv_partitions x y := mret ([mkPartition x y], None);
  kv_get k := mret (None, Some ErrKeyNotFound);
  kv_iter x y ts limit := λ s,
    Some (mkFlaky true, inr (mkIter flaky_items (if fk_failed s then EOF else Errorf "region unavailable")));
  kv_commit ops := mret None;
  kv_del k := mret None;
  kv_del_current it := mret None;
  kv_support_ttl := false;
|}.

(** A worker of a streamed list that is retried sends its messages again: what the
    failed attempt had put on the stream is not taken back by [reset]. *)
Theorem stream_retry_repeats :
  match RangeStream (getScannerConfig cfg0) (λ _, []) (EncodeObjectKey pods 0) (EncodeObjectKey pods_end 0) 1
          (mkScanner (mkFlaky false) []) with
  | Some (_, ([[m1; m2; m3]], last)) =>
      length (msg_kvs m1) = 300%nat ∧ m2 = m1 ∧ length (msg_kvs m3) = 1%nat ∧ srs_Err last = None
  | _ => False
  end.
Proof. vm_compute. done. Qed.

(** The borders the workers of a scan get, moved from the engine's partition
    borders to borders between user keys, still cover the whole range without
    overlap, in order; in particular no version of a key is cut off from the
    others. *)
Theorem partitions_cover a b ps ps' :
  internal_ok a → aligned a → ps' ≡ₚ ps → chain a b ps →
  ∃ qs, adjustPartitionsBorders ps' = Some qs ∧ cover a b qs.
Proof. apply adjust_cover. Qed.

(** Two partitions, out of order, with a border inside the versions of a key. *)
Lemma partitions_cover_witness :
  let a := EncodeObjectKey pods 0 in
  let b := EncodeObjectKey pods_end 0 in
  let mid := EncodeObjectKey key1 7 in
  ∃ qs, adjustPartitionsBorders [mkPartition mid b; mkPartition a mid] = Some qs ∧ cover a b qs.
Proof.
  intros a b mid. destruct (valid_border pods (proj1 valid_pods)) as [Hok Hal].
  apply (partitions_cover a b [mkPartition a mid; mkPartition mid b]); [exact Hok | exact Hal | by constructor|].
  assert (internal_ok mid) as Hmid
    by (left; exists key1, 7; split; [exact valid_key1 | split; [exact (uint64_range 7) | done]]).
  split; [done|]. split; [vm_compute; reflexivity|]. split; [exact Hmid|].
  split; [done|]. split; [done | by vm_compute].
Defined.

(** * Compaction *)

(** A well-formed store can be compacted. *)
Lemma inv_compactable {S} `{KvSpec S} (b : backend S) : backend_inv b → compactable (view b).
Proof.
  intros Hb. split; [apply Hb|]. intros k v Hv. pose proof zero_is_uint64 as Hz.
  assert (valid_key k) as Hk by (eapply store_ok_valid; [apply Hb | exact Hz | exact Hv]).
  destruct (bi_wf _ Hb k Hk) as [E|r w E|r E]; rewrite E in Hv; [done|injection Hv as <-..].
  - change (8 <= length (uint64ToBytes r))%nat. by rewrite uint64ToBytes_length.
  - change (8 <= length (uint64ToBytes r ++ [Byte.x00]))%nat.
    rewrite length_app, uint64ToBytes_length. simpl. lia.
Qed.

(** C3: compaction preserves reads.  After [Compact], whatever failed on the way,
    every read of a user key at or above the revision the request was served at
    sees the same key-value as before, unless the engine has no TTL support and
    the key contains "/events/" ([expires_key]): those keys the compaction expires
    itself, so nothing is said of reads of them.  The revision it is served at is
    not above the requested one, the current one, or any uncertain write; no
    version of any key was added or changed; and the records of the keys that do
    not expire stay in step with the versions.  An engine that expires keys on its
    own does so outside of [Compact]. *)
Theorem backend_compact_preserves {S} `{KvSpec S} `{!KvPartitions S} `{Backoff} cfg now ctx rev (b : backend S) :
  config_ok cfg → readable cfg b → is_uint64 rev → 0 <= MinRevision (asyncFifoRetry b) →
  wp (Backend.Compact cfg now ctx rev) (λ r b',
    kv_inv (b_store b') ∧ tso b' = tso b ∧
    (0 <= r.1 <= committedRevision (tso b) ∧ (0 < rev → r.1 <= rev) ∧
     (MinRevision (asyncFifoRetry b) ≠ 0 → r.1 < MinRevision (asyncFifoRetry b))) ∧
    (∀ k R, valid_key k → k ≠ [] → expires_key (S := S) k = false → r.1 <= R → is_uint64 R →
       visible (view b') k R = visible (view b) k R) ∧
    (∀ k q v, view b' !! EncodeObjectKey k q = Some v → view b !! EncodeObjectKey k q = Some v) ∧
    (∀ k, valid_key k → k ≠ [] → expires_key (S := S) k = false → key_wf (view b') k)) b.
Proof.
  intros Hcfg (Hb & Hcr & Hcu) Hrev Hmin. pose proof (bi_tso _ Hb) as Htso.
  destruct (compact_revision_bounds rev b) as (Hbd & Hunc & Hreq); [done | lia | done |].
  assert (is_uint64 (compact_revision rev b)) as HR by (unfold is_uint64 in *; lia).
  eapply wp_mono; [apply wp_Compact_backend; try done; [apply Hb | by apply inv_compactable]|].
  intros r b' (Hkv & Ht & -> & Hc & _ & Hp & Honly). do 2 (split; [done|]). split; [done|].
  assert (∀ k, valid_key k → k ≠ [] → expires_key (S := S) k = false → safe_key (S := S) k) as Hsafe.
  { intros k ? ? ?. by apply safe_key_iff. }
  split; [intros k R ? ? ? HkR HR'; by apply (proj1 (Hp k (Hsafe k ltac:(done) ltac:(done) ltac:(done))))|]. split; [done|].
  intros k Hk1 Hk2 Hk3. pose proof (Hsafe k Hk1 Hk2 Hk3) as Hk.
  eapply (pres_key_wf (compact_revision rev b) safe_key); try done;
    [unfold is_uint64, max_uint64, two64 in *; lia | apply Hb | apply Hc | apply (bi_wf _ Hb), Hk1].
Qed.

Lemma min_b1 : MinRevision (asyncFifoRetry b1) = 0.
Proof. vm_compute. reflexivity. Qed.

Lemma backend_compact_preserves_witness :
  wp (Backend.Compact cfg0 0 (λ _, []) 1) (λ r b',
    ∀ k R, valid_key k → k ≠ [] → r.1 <= R → is_uint64 R → visible (view b') k R = visible (view b1) k R) b1.
Proof.
  assert (0 <= MinRevision (asyncFifoRetry b1)) as Hm by (rewrite min_b1; lia).
  eapply wp_mono; [exact (backend_compact_preserves cfg0 0 (λ _, []) 1 b1 config_ok_cfg0 readable_b1
    (uint64_range 1) Hm)|].
  intros r b' (_ & _ & _ & Hv & _) k R Hk Hne. exact (Hv k R Hk Hne eq_refl).
Defined.

(** What the excluded keys are in for: on an engine without TTL support a
    compaction deletes a version of a key with "/events/" that is not above the
    timeout revision, whatever it is, also the newest and live one. *)
Theorem event_version_expires {S} `{KvSpec S} c it k r (w : wstate S) :
  kv_inv (w_store w) → kv_support_ttl = false → timeoutRevision c ≠ 0 →
  contains k (str "/events/") = true → 0 < r <= timeoutRevision c → isSkippedRawKey k w = false →
  wp (compactIfExpired c it k r (it_val it)) (λ x w', x.1 = true ∧
    (x.2 = None → kv_view (w_store w') = base.delete (it_key it) (kv_view (w_store w)))) w.
Proof.
  intros Hi Ht Ht0 Hc Hr Hs. unfold compactIfExpired. rewrite Ht, (proj2 (Z.eqb_neq _ _) Ht0), Hc. simpl.
  rewrite (proj2 (Z.eqb_neq r 0)) by lia. rewrite (proj2 (Z.leb_le _ _)) by lia.
  unfold compactKey, compact_with. apply wp_bind, wp_bind, wp_gets. rewrite Hs. apply wp_bind, wp_zoom.
  eapply wp_mono; [by apply kv_del_spec|]. intros [e|] s' [_ Hd]; wp_steps; done.
Qed.

(** A backend at revision 10, and its compact record. *)
Definition b10 : backend mem := set_tso (mkTSO 10 10) b0.

Definition record_after (revs : list Z) (b : backend mem) : option slice :=
  match foldl (λ o rev, '(b, _) ← o; Backend.Compact cfg0 0 (λ _, []) rev b) (Some (b, (0, None))) revs with
  | Some (b', _) => view b' !! getCompactKey (Prefix cfg0)
  | None => None
  end.

(** A compaction at a lower revision overwrites the compact record: the
    record goes back from 8 to 3, although [setCompactRecord] keeps the larger
    one. *)
Theorem compact_record_regresses :
  record_after [8] b10 = Some (Some (uint64ToBytes 8)) ∧
  record_after [8; 3] b10 = Some (Some (uint64ToBytes 3)).
Proof. split; vm_compute; reflexivity. Qed.

(** * Retries of uncertain writes *)

(** C25: a retry settles an uncertain write.  It waits for its interval; it keeps
    the event when the key cannot be read; it drops the event when the key is gone
    or another version is the newest by now, and also when the uncertain write is
    the newest version but its value is empty, which the code takes for a missing
    key; and otherwise it rewrites the newest value, which is not empty, at a new
    revision, under a comparison with the uncertain one, and submits the outcome
    as an event with the key, value and verb of the uncertain one.  The invariant
    holds afterwards, and without engine failures a live value is rewritten for
    sure. *)
Theorem retry_settles {S} `{KvSpec S} now ev t l (b : backend S) :
  backend_inv b → room b → valid_key (we_Key ev) → queue_repr (asyncFifoRetry b) ((ev, t) :: l) →
  wp (retry now) (λ brk b', backend_inv b' ∧ retry_post now ev t l b brk b') b.
Proof. apply wp_retry. Qed.

Definition uncertain1 : WatchEvent := mkWatchEvent 1 0 CREATE false key1 val1 (Some ErrUncertainResult).
Definition bq : backend mem := set_queue (Queue.push uncertain1 0 emptyQueue) b1.

Lemma inv_set_queue (q : eventQueue) (b : backend mem) : backend_inv b → backend_inv (set_queue q b).
Proof. intros [? ? ? ? ?]. by split. Qed.

Lemma room_set_queue (q : eventQueue) (b : backend mem) : room b → room (set_queue q b).
Proof. done. Qed.

Lemma inv_bq : backend_inv bq.
Proof. apply inv_set_queue, inv_b1. Qed.

Lemma retry_settles_witness :
  wp (retry RetryInterval) (λ brk b', backend_inv b' ∧ retry_post RetryInterval uncertain1 0 [] bq brk b') bq.
Proof.
  apply (retry_settles RetryInterval uncertain1 0 [] bq inv_bq (room_set_queue _ b1 room_b1) valid_key1).
  exact (push_repr uncertain1 0 emptyQueue [] emptyQueue_repr).
Defined.

(** An uncertain write of an empty value is dropped although it is the newest
    version: nothing is written, no revision is dealt and no event is submitted. *)
Theorem retry_drops_empty {S} `{KvSpec S} `{!KvReliable S} now ev t l v (b : backend S) :
  backend_inv b → room b → valid_key (we_Key ev) → queue_repr (asyncFifoRetry b) ((ev, t) :: l) →
  RetryInterval <= now - t → latest (view b) (we_Key ev) max_uint64 = Some (we_Revision ev, v) → slen v = 0 →
  wp (retry now) (λ brk b', brk = false ∧ view b' = view b ∧ tso b' = tso b ∧
    watchEventsRingBuffer b' = watchEventsRingBuffer b ∧ queue_repr (asyncFifoRetry b') l) b.
Proof.
  intros Hb Hr Hk Hq Hdue Hv Hlen. eapply wp_mono; [by eapply wp_retry|]. intros brk b' [_ Hp]. unfold retry_post in Hp.
  rewrite (proj2 (Z.ltb_ge _ _) Hdue) in Hp. destruct brk; [by destruct (proj1 Hp)|].
  destruct Hp as (Hq' & [(? & ? & ? & _)|(ev' & v' & Hne & _ & _ & _ & _ & _ & _ & [Hv' _] & _)]); [done|].
  rewrite Hv in Hv'. injection Hv' as <-. done.
Qed.

(** C26: a tick of the retry loop ends after at most as many retries as events are
    queued, and one more: it settles a run of events from the front of the queue,
    each due when it is retried, and stops when the queue is empty, when the next
    event is not due yet, or when the engine fails to read. *)
Theorem retry_tick_ends {S} `{KvSpec S} nows l (b : backend S) :
  backend_inv b → queue_repr (asyncFifoRetry b) l → Forall (λ x, valid_key (we_Key x.1)) l →
  room_for (length l) b →
  wp (retryLoop (Datatypes.S (length l)) nows) (loop_post nows l) b.
Proof. apply wp_retryLoop. Qed.

Lemma retry_tick_ends_witness :
  wp (retryLoop 2 (λ _, RetryInterval)) (loop_post (λ _, RetryInterval) [(uncertain1, 0)]) bq.
Proof.
  apply (retry_tick_ends (λ _, RetryInterval) [(uncertain1, 0)] bq inv_bq).
  - exact (push_repr uncertain1 0 emptyQueue [] emptyQueue_repr).
  - apply Forall_singleton. exact valid_key1.
  - split; vm_compute; reflexivity.
Defined.

(** The retry of the example rewrites the value at revision 2. *)
Example retry_bq :
  (b ← retry RetryInterval bq; snd <$> Get (mkGetRequest key1 0) b.1) =
  Some (Some (mkGetResponse 2 (Some (mkKV key1 val1 2))), None).
Proof. vm_compute. reflexivity. Qed.
