(* ===== verification/PipelineTheorems.v ===== *)
(** What the theorems of the write pipeline, of watching and of the hub say, for
    every interleaving of writers, collector, retries, watchers and hub. *)

From S2P Require Import Prelude GoMonad Storage Coder MemKV Proto Tso Ring Queue Mvcc Creator.
From S2P Require Import Scanner ScanSpec Backend BackendSpec Pipeline Watch HubSpec WatchSpec.
From S2P Require Import Concrete.

(** A backend before its first write. *)
Record fresh_backend {S} (b : backend S) : Prop := {
  fb_tso : 0 <= committedRevision (tso b) < two63 ∧ dealRevision (tso b) = committedRevision (tso b);
  fb_buffer : watchEventsRingBuffer b = ∅;
  fb_chan : watchChan b = [];
  fb_cache : ring_ok (watchCache b) ∧ ring_list (watchCache b) = [];
  fb_queue : asyncFifoRetry b = emptyQueue;
}.

Lemma fresh_inv {S} `{KvStorage S} `{Backoff} (b : backend S) :
  fresh_backend b → pinv (pinit b) ∧ no_hole (pinit b).
Proof. intros [[? ?] ? ? [? ?] ?]. by apply pinv_init. Qed.

Lemma fresh_b0 : fresh_backend b0.
Proof.
  split; [done | done | done | | done]. split; [|vm_compute; reflexivity].
  apply (NewRing_ok 4). lia.
Qed.

(** A writer and the collector, run to the end. *)
Lemma session_b0 :
  ∃ p, rtc pstep (pinit b0) p ∧ p_flight p = [] ∧ dealRevision (tso (p_b p)) = 1.
Proof.
  eexists. split; [|split].
  - eapply rtc_l; [|eapply rtc_l; [|apply rtc_refl]].
    + apply (ps_deal b0 (set_tso (mkTSO 0 1) b0) [] [] 1); done.
    + by apply (ps_notify (set_tso (mkTSO 0 1) b0)
        (set_buffer (<[1 := mkWatchEvent 1 0 CREATE true key1 val1 None]> (watchEventsRingBuffer b0))
           (set_tso (mkTSO 0 1) b0)) [] [] [] key1 val1 1 0 true CREATE None).
  - done.
  - done.
Qed.

(** * The collector *)

(** C21: events come out in revision order.  In every reachable state the events
    sent or about to be sent to the watchers have strictly increasing revisions
    up to the read revision, and the history cache holds exactly the last of
    them. *)
Theorem events_in_order {S} `{KvStorage S} `{Backoff} (b : backend S) p :
  fresh_backend b → rtc pstep_any (pinit b) p →
  StronglySorted ev_lt (delivered p) ∧
  Forall (λ e, 0 < ev_Revision e <= committedRevision (tso (p_b p))) (delivered p) ∧
  ring_list (watchCache (p_b p)) =
    drop (length (delivered p) - r_l (watchCache (p_b p))) (delivered p).
Proof.
  intros [Hi _]%fresh_inv Hr. pose proof (pinv_reach _ _ Hi Hr) as Hp.
  split; [apply (pi_sorted _ Hp)|]. split; [apply (pi_bound _ Hp) | apply (pi_suffix _ Hp)].
Qed.

Lemma events_in_order_witness :
  ∃ p, rtc pstep_any (pinit b0) p ∧ dealRevision (tso (p_b p)) = 1 ∧ StronglySorted ev_lt (delivered p).
Proof.
  destruct session_b0 as (p & Hr & _ & Hd). exists p.
  assert (rtc pstep_any (pinit b0) p) as Hr' by (eapply rtc_subrel; [|exact Hr]; intros ???; by left).
  split; [done|]. split; [done|]. apply (events_in_order b0 p fresh_b0 Hr').
Defined.

(** C22: no event is lost and the collector does not get stuck.  When every writer
    that was dealt a revision has notified, the collector alone reaches the last
    dealt revision and sends everything it collected. *)
Theorem collector_catches_up {S} `{KvStorage S} `{Backoff} (b : backend S) now p :
  fresh_backend b → rtc pstep (pinit b) p → p_flight p = [] →
  ∃ p', rtc (pcollect now) p p' ∧ committedRevision (tso (p_b p')) = dealRevision (tso (p_b p)) ∧
    p_pending p' = [] ∧ delivered p' = concat (watchChan (p_b p')).
Proof.
  intros [Hi Hh]%fresh_inv Hr Hf.
  assert (pinv p) as Hp by (eapply pinv_reach; [exact Hi|]; eapply rtc_subrel; [|exact Hr]; intros ???; by left).
  destruct (collect_catches_up now p Hp (no_hole_reach _ _ Hi Hh Hr) Hf) as (p' & Hc & Ec & _ & Epend).
  exists p'. do 3 (split; [done|]). unfold delivered. by rewrite Epend, app_nil_r.
Qed.

Lemma collector_catches_up_witness :
  ∃ p p', rtc pstep (pinit b0) p ∧ rtc (pcollect 0) p p' ∧ committedRevision (tso (p_b p')) = 1.
Proof.
  destruct session_b0 as (p & Hr & Hf & Hd). exists p.
  destruct (collector_catches_up b0 0 p fresh_b0 Hr Hf) as (p' & Hc & Ec & _). exists p'.
  split; [done|]. split; [done|]. by rewrite Ec.
Defined.

(** C34: a writer never finds the buffer full while fewer than its capacity of
    revisions are between the collector and the generator: [notify] does not
    panic. *)
Theorem notify_has_room {S} `{KvStorage S} `{Backoff} (b : backend S) p k v r prev valid ty e :
  fresh_backend b → rtc pstep_any (pinit b) p → r ∈ p_flight p →
  dealRevision (tso (p_b p)) - committedRevision (tso (p_b p)) < watchersChanCapacity →
  is_Some (notify k v r prev valid ty e (p_b p)).
Proof.
  intros [Hi _]%fresh_inv Hr Hin Hw. apply notify_in_window; [by eapply pinv_reach | done | done].
Qed.

Lemma notify_has_room_witness :
  is_Some (notify key1 val1 1 0 true CREATE None (set_tso (mkTSO 0 1) b0)).
Proof.
  apply (notify_has_room b0 (mkPstate (set_tso (mkTSO 0 1) b0) [1] []) key1 val1 1 0 true CREATE None fresh_b0).
  - apply rtc_once. left. by apply (ps_deal b0 (set_tso (mkTSO 0 1) b0) [] [] 1).
  - constructor.
  - done.
Defined.

(** Compaction stays below uncertain writes.  In every reachable state the
    queue holds uncertain events in revision order, and any compaction request is
    served at a revision below all of them. *)
Theorem compaction_below_uncertain {S} `{KvStorage S} `{Backoff} (b : backend S) p revision :
  fresh_backend b → rtc pstep_any (pinit b) p →
  ∃ l, queue_repr (asyncFifoRetry (p_b p)) l ∧ StronglySorted rev_lt l ∧
    Forall (λ x, compact_revision revision (p_b p) < we_Revision x.1) l.
Proof.
  intros [Hi _]%fresh_inv Hr. apply compact_below_uncertain. by eapply pinv_reach.
Qed.

Lemma compaction_below_uncertain_witness :
  ∃ l, queue_repr (asyncFifoRetry b0) l ∧ StronglySorted rev_lt l ∧
    Forall (λ x, compact_revision 5 b0 < we_Revision x.1) l.
Proof. apply (compaction_below_uncertain b0 (pinit b0) 5 fresh_b0). apply rtc_refl. Defined.

(** * A lost revision *)

(** An update that expects a revision from the future is dealt a revision and
    returns without a trace of it. *)
Lemma update_drift {S} `{KvStorage S} r (b : backend S) :
  0 <= dealRevision (tso b) → dealRevision (tso b) + 1 < two63 →
  dealRevision (tso b) + 1 < kv_Revision (ur_Kv r) →
  Update r b = Some (set_tso (mkTSO (committedRevision (tso b)) (dealRevision (tso b) + 1)) b,
                     (None, Some ErrRevisionDriftBack)).
Proof.
  intros H0 Hlt Hprev. unfold Update. destruct (Z.eqb_spec (kv_Revision (ur_Kv r)) 0); [lia|].
  unfold update, deal, on_tso, Deal, zoom, mbind, gom_bind, mret, gom_ret. simpl.
  rewrite uint64_id by (unfold is_uint64, two64, two63 in *; lia).
  destruct (Z.ltb_spec 0 (kv_Revision (ur_Kv r))); [|lia].
  destruct (Z.ltb_spec (dealRevision (tso b) + 1) (kv_Revision (ur_Kv r))); [|lia]. done.
Qed.

(** C23: an update whose expected revision is above the generator stops the
    collector for good.  The revision it was dealt is never notified, and in every
    state reachable afterwards the read revision stays below it: later writes
    never become visible to readers of the current revision or to watchers. *)
Theorem drift_stalls_collector {S} `{KvStorage S} `{Backoff} (b : backend S) p r b' res q :
  fresh_backend b → rtc pstep_any (pinit b) p →
  dealRevision (tso (p_b p)) + 1 < two63 → dealRevision (tso (p_b p)) + 1 < kv_Revision (ur_Kv r) →
  Update r (p_b p) = Some (b', res) →
  rtc pstep_any (mkPstate b' (p_flight p) (p_pending p)) q →
  committedRevision (tso (p_b q)) <= dealRevision (tso (p_b p)).
Proof.
  intros [Hi _]%fresh_inv Hr Hlt Hprev E Hq. pose proof (pinv_reach _ _ Hi Hr) as Hp.
  pose proof (pi_tso _ Hp) as Ht. rewrite update_drift in E by lia. injection E as <- _.
  set (d := dealRevision (tso (p_b p)) + 1) in *.
  set (b1 := set_tso (mkTSO (committedRevision (tso (p_b p))) d) (p_b p)) in *.
  assert (pstep_any p (mkPstate b1 (d :: p_flight p) (p_pending p))) as Hs1.
  { left. destruct p as [pb fl pend]. simpl in *. apply ps_deal; [|done].
    unfold on_tso, Deal, zoom. by rewrite uint64_id by (unfold is_uint64, two64, two63 in *; lia). }
  assert (pstep_any (mkPstate b1 (d :: p_flight p) (p_pending p))
            (mkPstate b1 (p_flight p) (p_pending p))) as Hs2.
  { right. by apply (pd_drift b1 b1 [] (p_flight p) (p_pending p) [] None d 0 false PUT None). }
  assert (pinv (mkPstate b1 (p_flight p) (p_pending p))) as Hp2
    by (eapply pinv_reach; [exact Hp|]; eapply rtc_l; [exact Hs1|]; by apply rtc_once).
  assert (hole d (mkPstate b1 (p_flight p) (p_pending p))) as Hh.
  { split; [simpl; lia|]. split; [intros Hin; pose proof (pi_flight _ Hp d Hin); lia|].
    intros i ev Hev. destruct (pi_slot _ Hp i ev Hev) as (_ & _ & ? & _). lia. }
  destruct (hole_reach d _ q Hp2 Hh Hq) as ([? _] & _). lia.
Qed.

Lemma drift_stalls_collector_witness :
  ∃ b' res, Update (mkUpdateRequest (mkKV key1 val1 99) 0) b0 = Some (b', res) ∧
    committedRevision (tso b') <= 0.
Proof.
  pose proof (update_drift (mkUpdateRequest (mkKV key1 val1 99) 0) b0 ltac:(done) eq_refl eq_refl) as E.
  eexists _, _. split; [exact E|].
  exact (drift_stalls_collector b0 (pinit b0) (mkUpdateRequest (mkKV key1 val1 99) 0) _ _ (mkPstate _ [] []) fresh_b0 (rtc_refl _ _)
    eq_refl eq_refl E (rtc_refl _ _)).
Defined.

(** * Watching *)

(** C2: what a watcher gets, from the writers through the collector and the hub, in
    every interleaving of writers, collector, retries, hub and watchers.  It
    registers with the hub, reads the history cache in a later state, and from
    there on receives from its channel.  At every later moment the events it has
    put out, from the cache and from its channel, are in revision order, each once,
    and, as long as the hub has not skipped it, a prefix of the events it asked
    for: those with its prefix from its revision on, of all that were collected (of
    those streamed since it registered, for revision 0).  They are exactly those
    when nothing is left on the way: its channel is empty and registered, and hub
    and collector have caught up.  Once its buffer of 10000 batches was full and the
    hub skipped it, they are still a subsequence of these, possibly with a gap, and
    the watcher is going to be removed. *)
Theorem watch_exactly_once {S} `{KvStorage S} `{Backoff} (b : backend S) prefix revision d0 w s d2 batches from d3 :
  fresh_backend b → rtc dstep (dinit b) d0 → AddWatcher (h_hub (d_hub d0)) = Some (w, s) →
  rtc dstep (registered w d0) d2 → 0 <= revision →
  watch_history prefix revision (p_b (d_pipe d2)) = Some (inr (batches, from)) → rtc dstep d2 d3 →
  let events := concat (batches ++ processEvents prefix from (h_got (d_hub d3) s)) in
  let asked := wanted prefix revision (d_fwd d0) (d_pipe d3) in
  let hub := h_hub (d_hub d3) in
  StronglySorted ev_lt events ∧
  (s ∉ h_dropped (d_hub d3) → events `prefix_of` asked ∧
     (chans hub !! s = Some (mkChan [] false) → s ∈ subs hub →
      d_fwd d3 = length (watchChan (p_b (d_pipe d3))) → p_pending (d_pipe d3) = [] → events = asked)) ∧
  (s ∈ h_dropped (d_hub d3) → events `sublist_of` asked ∧ (s ∈ subs hub → s ∈ deleting hub)).
Proof. intros [Hi _]%fresh_inv. by apply watch_delivery. Qed.

(** One write that is collected and sent. *)
Definition event1 : Event := mkEvent CREATE (mkKV key1 val1 1) 1.

Lemma session_sent :
  ∃ r : pstate mem, rtc pstep_any (pinit b0) r ∧ watchChan (p_b r) = [[event1]] ∧ p_pending r = [].
Proof.
  set (c1 := set_tso (mkTSO 0 1) b0).
  set (c2 := set_buffer (<[1 := mkWatchEvent 1 0 CREATE true key1 val1 None]> (watchEventsRingBuffer b0)) c1).
  assert ((λ r, (watchChan r.1, r.2)) <$> (x ← collect_iter 0 [] c2; collect_iter 0 x.2 x.1) = Some ([[event1]], []))
    as E by (vm_compute; reflexivity).
  destruct (collect_iter 0 [] c2) as [[c3 pend3]|] eqn:E3; [|discriminate E]. simpl in E.
  destruct (collect_iter 0 pend3 c3) as [[c4 pend4]|] eqn:E4; [|discriminate E]. injection E as Ew Ep.
  exists (mkPstate c4 [] pend4). split; [|done].
  eapply rtc_l; [left; by apply (ps_deal b0 c1 [] [] 1)|].
  eapply rtc_l; [left; by apply (ps_notify c1 c2 [] [] [] key1 val1 1 0 true CREATE None)|].
  eapply rtc_l; [left; by apply (ps_collect c2 c3 [] [] pend3 0)|].
  eapply rtc_l; [left; by apply (ps_collect c3 c4 [] pend3 pend4 0)|]. apply rtc_refl.
Qed.

Lemma register_first : AddWatcher newHub = Some (hub_one [] [], 0%nat).
Proof. unfold AddWatcher, hub_one. simpl. by rewrite (right_id_L ∅ (∪)), insert_empty. Qed.

Lemma pipe_lift {S} `{KvStorage S} `{Backoff} (p p' : pstate S) h n :
  rtc pstep_any p p' → rtc dstep (mkDstate p h n) (mkDstate p' h n).
Proof. induction 1; [done|]. eapply rtc_l; [by apply ds_pipe | done]. Qed.

(** The write, and its batch on the way to the watcher 0. *)
Lemma watched_session :
  ∃ d : dstate mem, rtc dstep (registered (hub_one [] []) (dinit b0)) d ∧ h_got (d_hub d) 0%nat = [[event1]] ∧
    watchChan (p_b (d_pipe d)) = [[event1]] ∧ p_pending (d_pipe d) = [] ∧ d_fwd d = 1%nat ∧
    h_hub (d_hub d) = hub_one [] [] ∧ 0%nat ∉ h_dropped (d_hub d).
Proof.
  destruct session_sent as (r & Hr & Ew & Ep). eexists. split.
  - etrans; [by apply pipe_lift|].
    eapply rtc_l; [eapply ds_forward; [by rewrite Ew|]; apply hs_forward; by rewrite stream_one|].
    eapply rtc_l; [|apply rtc_refl]. apply ds_move, (hs_recv _ (hub_one [] []) 0%nat [event1]).
    unfold recv_chan. simpl. by rewrite lookup_singleton_eq; simpl; rewrite insert_singleton_eq.
  - simpl. split; [done|]. split; [done|]. split; [done|]. split; [done|]. split; [done|]. set_solver.
Qed.

(** A watcher of revision 1 that registers first and gets the write. *)
Lemma watch_exactly_once_witness :
  ∃ d : dstate mem, rtc dstep (registered (hub_one [] []) (dinit b0)) d ∧
    concat ([] ++ processEvents key1 1 (h_got (d_hub d) 0%nat)) = wanted key1 1 0 (d_pipe d) ∧
    wanted key1 1 0 (d_pipe d) = [event1].
Proof.
  destruct watched_session as (d & Hr & Eg & Ew & Ep & En & Eh & Hd). exists d. split; [exact Hr|].
  destruct (watch_exactly_once b0 key1 1 (dinit b0) _ _ (registered (hub_one [] []) (dinit b0)) [] 1 d fresh_b0
    (rtc_refl _ _) register_first (rtc_refl _ _) ltac:(lia) ltac:(vm_compute; reflexivity) Hr) as (_ & Hx & _).
  destruct (Hx Hd) as [_ Heq].
  assert (concat ([] ++ processEvents key1 1 (h_got (d_hub d) 0%nat)) = wanted key1 1 0 (d_pipe d)) as E.
  { apply Heq; [|rewrite Eh; set_solver|rewrite En, Ew; reflexivity|exact Ep].
    rewrite Eh. apply lookup_singleton_eq. }
  split; [exact E|]. rewrite <-E, Eg. vm_compute. reflexivity.
Defined.

(** The catch-up of a new watcher never blocks: the history is cut into
    batches that all fit into the result channel, and nothing of it is lost. *)
Theorem catch_up_fits events :
  ∃ out, catchUpEvents events = Some out ∧ concat out = events ∧ (length out <= resultChanLength)%nat.
Proof. apply catchUpEvents_spec. Qed.

(** * The hub *)

(** C24: the hub forwards everything, in order, or closes the watcher.  In every
    reachable state a watcher that was never skipped has received or has in its
    channel exactly what was streamed while it was registered; one that was
    skipped got a subsequence of it and is waiting to be removed; no channel
    exceeds its buffer; and no step of the hub can panic on a closed channel. *)
Theorem hub_forwards h s ch item :
  rtc hstep hinit h → chans (h_hub h) !! s = Some ch →
  (s ∉ h_dropped h → h_got h s ++ ch_buf ch = h_log h s) ∧
  (s ∈ h_dropped h → h_got h s ++ ch_buf ch `sublist_of` h_log h s ∧
     (s ∈ subs (h_hub h) → s ∈ deleting (h_hub h))) ∧
  Z.of_nat (length (ch_buf ch)) <= watchBuffer ∧
  is_Some (stream_item item (h_hub h)) ∧ is_Some (DeleteWatcher s (h_hub h)).
Proof.
  intros Hh%hinv_reach Hc. split; [by apply (hi_exact _ Hh)|].
  split; [intros Hd; split; [by apply (hi_order _ Hh) | by apply (hi_doomed _ Hh)]|].
  split; [by apply (hi_bound _ Hh s)|]. by apply hub_no_panic.
Qed.

Lemma hub_forwards_witness :
  ∃ h ch, rtc hstep hinit h ∧ chans (h_hub h) !! 0%nat = Some ch ∧
    h_got h 0%nat ++ ch_buf ch `sublist_of` h_log h 0%nat.
Proof.
  destruct (hub_gap [] [mkEvent PUT (mkKV [] None 1) 1] []) as (h & ch & Hr & Hs & Hc & _); [done|].
  exists h, ch. split; [done|]. split; [done|].
  destruct (hub_forwards h 0%nat ch [] Hr Hc) as (Hex & Hdr & _).
  destruct (decide (0%nat ∈ h_dropped h)); [by apply Hdr | by rewrite Hex].
Defined.

(** A skipped watcher can be sent to again before it is removed.  The removal
    of a slow watcher is left to a goroutine, and until it runs the watcher stays
    registered: with its channel full it misses a batch, and after one receive it
    gets the next one, so its channel has a gap. *)
Theorem hub_gap_after_skip (a b c : evbatch) :
  b ≠ c → ∃ h ch l, rtc hstep hinit h ∧ 0%nat ∈ subs (h_hub h) ∧
    chans (h_hub h) !! 0%nat = Some ch ∧
    h_log h 0%nat = l ++ [b; c] ∧ h_got h 0%nat ++ ch_buf ch = l ++ [c].
Proof.
  intros Hbc. destruct (hub_gap a b c Hbc) as (h & ch & Hr & Hs & Hc & l & Hl & Hg).
  exists h, ch, l. done.
Qed.

Lemma hub_gap_after_skip_witness :
  ∃ h ch l, rtc hstep hinit h ∧ 0%nat ∈ subs (h_hub h) ∧ chans (h_hub h) !! 0%nat = Some ch ∧
    h_log h 0%nat = l ++ [[mkEvent PUT (mkKV [] None 1) 1]; []] ∧ h_got h 0%nat ++ ch_buf ch = l ++ [[]].
Proof. by apply (hub_gap_after_skip [] [mkEvent PUT (mkKV [] None 1) 1] []). Defined.
