(* ===== verification/ElectionTheorems.v ===== *)
(** The properties of the leader election, each with an instance at a concrete
    input. *)

From S2P Require Import Prelude GoMonad Storage Strconv Coder MemKV Proto Tso Ring Queue Mvcc Creator Scanner.
From S2P Require Import ScanSpec Backend BackendSpec Pipeline Concrete PipelineTheorems Election ElectionSpec.

(** * A concrete cluster *)

(** Records that are their own text. *)
#[local] Instance plain_codec : LockCodec bytes :=
  {| HolderIdentity := id; emptyRecord := []; Marshal := inr; Unmarshal := inr |}.

#[local] Instance plain_codec_spec : LockCodecSpec bytes.
Proof. split. by intros r text [= ->]. Qed.

Definition election0 : bytes := getElectionKey (str "/registry").

(** The lock of a node that has read the record of [node-0]. *)
Definition lock_of (me : string) : resourceLock bytes :=
  mkLock (str me) (str "node-0") (Some (str "node-0")) election0 7.

Definition store0 : mem :=
  match kv_commit [PutIfNotExist election0 (Some (str "node-0")) 0] (empty_store 9) with
  | Some (s, _) => s
  | None => empty_store 9
  end.

Definition cluster0 : cluster mem bytes := mkCluster store0 [lock_of "node-1"; lock_of "node-2"].

Definition cluster_do (i : nat) (op : lock_op bytes) (c : cluster mem bytes)
    : option (cluster mem bytes * option lock_err) :=
  l ← c_locks c !! i;
  '((s, l'), e) ← lock_run op (c_store c, l);
  Some (mkCluster s (<[i:=l']> (c_locks c)), e).

Lemma cluster_do_step i op c c' e : cluster_do i op c = Some (c', e) → lstep (i, op, e) c c'.
Proof.
  unfold cluster_do. destruct c as [s locks]. simpl. destruct (locks !! i) as [l|] eqn:El; [|done]. simpl.
  destruct (lock_run op (s, l)) as [[[s' l'] e']|] eqn:Er; [|done]. simpl. intros [= <- <-].
  by eapply l_op.
Qed.

Definition cluster1 : cluster mem bytes :=
  match cluster_do 0 (OpUpdate (str "node-1")) cluster0 with Some (c, _) => c | None => cluster0 end.

Lemma takeover1 : cluster_do 0 (OpUpdate (str "node-1")) cluster0 = Some (cluster1, None).
Proof.
  assert (snd <$> cluster_do 0 (OpUpdate (str "node-1")) cluster0 = Some None) as E by (vm_compute; reflexivity).
  unfold cluster1. destruct (cluster_do _ _ _) as [[c e]|]; [|discriminate E].
  injection E as E. by rewrite E.
Qed.

Lemma inv_store0 : kv_inv store0.
Proof.
  pose proof (kv_commit_spec [PutIfNotExist election0 (Some (str "node-0")) 0] (empty_store 9 : mem)) as Hw.
  unfold wp in Hw. unfold store0. destruct (kv_commit _ _) as [[s e]|]; [|by vm_compute].
  by apply Hw.
Qed.

Lemma cluster0_ok : cluster_ok election0 cluster0.
Proof.
  split; [exact inv_store0|]. split; [vm_compute; discriminate|]. by repeat constructor.
Qed.

(** * Mutual exclusion *)

(** C10: of the nodes that have seen the same election record only one takes
    over.  When a node has replaced the record both had read, then whatever the
    other nodes and the backends do (short of writing that very record again), the
    second node's [Update] is refused and leaves the record as it is, until it
    reads the new one. *)
Theorem election_exclusive {S} `{KvSpec S} {R} `{LockCodec R} k i j (ri rj : R) v ti e
    (c0 c1 c2 c3 : cluster S R) :
  cluster_ok k c0 → i ≠ j → last_seen i c0 = Some v → last_seen j c0 = Some v →
  Marshal ri = inr ti → ti ≠ v → lstep (i, OpUpdate ri, None) c0 c1 →
  rtc (quiet k j v) c1 c2 → lstep (j, OpUpdate rj, e) c2 c3 →
  value k c0 = Some v ∧ e ≠ None ∧ value k c3 = value k c2.
Proof.
  intros Hok Hij Hi Hj Et Htv Hs1 Hq Hs2.
  destruct (lstep_ok _ _ _ _ _ _ Hok Hs1) as (Hok1 & (l & El & Heff) & Hseen).
  unfold last_seen in Hi. rewrite El in Hi. injection Hi as Hi.
  destruct Heff as [[? _]|(Ev & Ev' & _)]; [done|]. simpl in Ev'. rewrite Et in Ev'.
  destruct (quiet_reach k j v c1 c2 Hok1) as (Hok2 & Hne & Hseen2); [congruence|done|].
  rewrite (Hseen j) in Hseen2 by done. rewrite Hj in Hseen2.
  destruct (lstep_ok _ _ _ _ _ _ Hok2 Hs2) as (_ & (l2 & El2 & Heff2) & _).
  unfold last_seen in Hseen2. rewrite El2 in Hseen2. injection Hseen2 as Hs.
  destruct Heff2 as [[? ?]|(Ev2 & _)]; [|congruence]. split; [congruence | done].
Qed.

Lemma election_exclusive_witness :
  ∃ c3 e, cluster_do 1 (OpUpdate (str "node-2")) cluster1 = Some (c3, e) ∧ e ≠ None ∧
    value election0 c3 = value election0 cluster1.
Proof.
  destruct (cluster_do 1 (OpUpdate (str "node-2")) cluster1) as [[c3 e]|] eqn:E.
  - exists c3, e. split; [exact eq_refl|].
    exact (proj2 (election_exclusive election0 0 1 (str "node-1") (str "node-2") (str "node-0") (str "node-1") e
      cluster0 cluster1 cluster1 c3 cluster0_ok ltac:(discriminate) eq_refl eq_refl eq_refl ltac:(discriminate)
      (cluster_do_step _ _ _ _ _ takeover1) (rtc_refl _ _) (cluster_do_step _ _ _ _ _ E))).
  - exfalso. assert (is_Some (snd <$> cluster_do 1 (OpUpdate (str "node-2")) cluster1)) as [x Hx]
      by (vm_compute; eexists; reflexivity).
    rewrite E in Hx. discriminate Hx.
Defined.

(** A node that has updated the record cannot update it again before it has
    read it: [Update] leaves the node's last reading behind, and the second
    compare-and-swap fails against the node's own record. *)
Theorem lock_update_needs_get {S} `{KvSpec S} {R} `{LockCodec R} k i (r1 r2 : R) t1 e (c0 c1 c2 : cluster S R) :
  cluster_ok k c0 → Marshal r1 = inr t1 → last_seen i c0 ≠ Some t1 →
  lstep (i, OpUpdate r1, None) c0 c1 → lstep (i, OpUpdate r2, e) c1 c2 →
  e ≠ None ∧ value k c1 = Some t1 ∧ value k c2 = Some t1.
Proof.
  intros Hok Et Hseen Hs1 Hs2.
  destruct (lstep_ok _ _ _ _ _ _ Hok Hs1) as (Hok1 & (l & El & Heff) & _).
  destruct (lstep_ok _ _ _ _ _ _ Hok1 Hs2) as (_ & (l1 & El1 & Heff1) & _).
  destruct Heff as [[? _]|(_ & Ev1 & _)]; [done|]. simpl in Ev1. rewrite Et in Ev1.
  assert (rl_lastVal l1 = rl_lastVal l) as Elast.
  { inversion Hs1 as [? ? ? s s' locks l0 l0' Hl E]; subst. simpl in *. rewrite Hl in El. injection El as ->.
    destruct Hok as (Hinv & Hr & Hk). simpl in *. pose proof (Forall_lookup_1 _ _ _ _ Hk Hl) as Ek. simpl in Ek.
    rewrite <-Ek in Hr.
    pose proof (wp_lock_Update r1 t1 s l Hinv Hr Et) as Hw. unfold wp in Hw. rewrite E in Hw.
    destruct Hw as (_ & [n ->] & _). rewrite list_lookup_insert_eq in El1 by by eapply lookup_lt_Some.
    by injection El1 as <-. }
  unfold last_seen in Hseen. rewrite El in Hseen. simpl in Hseen.
  destruct Heff1 as [[? ?]|(Ev & _)]; [split; [done | split; congruence]|].
  rewrite Ev1, Elast in Ev. congruence.
Qed.

Lemma lock_update_needs_get_witness :
  ∃ c2 e, cluster_do 0 (OpUpdate (str "node-1b")) cluster1 = Some (c2, e) ∧ e ≠ None ∧
    value election0 c2 = Some (str "node-1").
Proof.
  destruct (cluster_do 0 (OpUpdate (str "node-1b")) cluster1) as [[c2 e]|] eqn:E.
  - exists c2, e. split; [exact eq_refl|].
    destruct (@lock_update_needs_get mem _ _ bytes plain_codec election0 0 (str "node-1") (str "node-1b") (str "node-1") e
      cluster0 cluster1 c2 cluster0_ok eq_refl ltac:(discriminate)
      (cluster_do_step _ _ _ _ _ takeover1) (cluster_do_step _ _ _ _ _ E)) as (He & _ & Hv).
    split; [exact He | exact Hv].
  - exfalso. assert (is_Some (snd <$> cluster_do 0 (OpUpdate (str "node-1b")) cluster1)) as [x Hx]
      by (vm_compute; eexists; reflexivity).
    rewrite E in Hx. discriminate Hx.
Defined.

(** * Taking over *)

(** C38: what a node tells of the lock is read back: unless the holder's identity
    has a comma in it, [getLeaderAndVersion] returns the holder and the timestamp
    [Describe] printed; with a comma it is an error, and starting to lead is
    fatal. *)
Theorem election_describe_roundtrip {S R} `{LockCodec R} (l : resourceLock R) (n : node S R) :
  is_uint64 (rl_tso l) → n_lock n = l →
  (comma ∉ holder l → getLeaderAndVersion l = ((holder l, rl_tso l), None)) ∧
  (comma ∈ holder l → (∃ e, (getLeaderAndVersion l).2 = Some e) ∧ OnStartedLeading n = None).
Proof.
  intros Ht En. unfold OnStartedLeading. rewrite En, getLeaderAndVersion_spec by done. split; intros Hc.
  - by rewrite decide_False.
  - rewrite decide_True by done. split; [by eexists | done].
Qed.

Lemma election_describe_roundtrip_witness :
  let l := mkLock (str "node-1") (str "10.0.0.1:3379") None election0 4294967296 : resourceLock bytes in
  Describe l = str "10.0.0.1:3379,4294967296" ∧
  getLeaderAndVersion l = ((str "10.0.0.1:3379", 4294967296), None).
Proof.
  intros l. split; [vm_compute; reflexivity|].
  refine (proj1 (election_describe_roundtrip l (mkNode b0 l false NOT_SERVING) _ eq_refl) _); [done|].
  by apply (bool_decide_unpack _).
Defined.

Lemma NewBackend_ring {S} `{KvStorage S} (kv : S) cfg :
  ring_ok (watchCache (NewBackend kv cfg)) ∧ ring_list (watchCache (NewBackend kv cfg)) = [].
Proof.
  unfold NewBackend. simpl. set (n := Z.to_nat _).
  assert (0 < n)%nat as Hn.
  { unfold n, complete. destruct (Z.leb_spec (WatchCacheSize cfg) 0); simpl; [unfold historyCapacity; lia | lia]. }
  clearbody n. split; [by apply NewRing_ok|]. done.
Qed.

(** C11: a new leader takes over the store of the old one.  If the timestamp the
    lock gave it is not below any revision the old leader dealt, then after
    [OnStartedLeading] the invariant of the backend holds at once over everything
    the old leader left, with the generator and the read revision at that
    timestamp; its event pipeline is in its initial state, and the old leader's
    data is what it serves. *)
Theorem election_handover {S} `{KvSpec S} `{Backoff} {R} `{LockCodec R} (old : backend S) cfg (l : resourceLock R) health :
  backend_inv old → dealRevision (tso old) <= rl_tso l < two63 → comma ∉ holder l →
  ∃ n, OnStartedLeading (mkNode (NewBackend (b_store old) cfg) l false health) = Some (n, ()) ∧
    backend_inv (n_backend n) ∧ fresh_backend (n_backend n) ∧ view (n_backend n) = view old ∧
    tso (n_backend n) = mkTSO (rl_tso l) (rl_tso l) ∧ n_leader n = true ∧ n_health n = SERVING ∧
    revisionHandler n = (200, RevisionJSON (rl_tso l)).
Proof.
  intros [Hkv Hok Hwf Hbelow Htso] Hv Hc. unfold OnStartedLeading. simpl.
  rewrite getLeaderAndVersion_spec, decide_False by (done || unfold is_uint64, two64, two63 in *; lia).
  unfold SetCurrentRevision, on_tso, zoom, Commit. simpl.
  assert ((if 0 <? rl_tso l then rl_tso l else 0) = rl_tso l) as Ed by (destruct (Z.ltb_spec 0 (rl_tso l)); lia).
  rewrite Ed. eexists. split; [done|]. destruct (NewBackend_ring (b_store old) cfg) as [Hr1 Hr2].
  split; [|split; [|by repeat split]].
  - split; simpl; try done; [|lia]. intros k Hk. eapply key_below_mono; [|by apply Hbelow]. lia.
  - split; simpl; try done. lia.
Qed.

(** The leader of [b1] is replaced by a node with timestamp 100. *)
Lemma election_handover_witness :
  let l := mkLock (str "node-2") (str "node-1") None election0 100 : resourceLock bytes in
  ∃ n : node mem bytes, OnStartedLeading (mkNode (NewBackend (b_store b1) cfg0) l false NOT_SERVING) = Some (n, ()) ∧
    backend_inv (n_backend n) ∧ view (n_backend n) = view b1.
Proof.
  intros l. destruct (election_handover b1 cfg0 l NOT_SERVING inv_b1) as (n & E & Hi & _ & Hv & _).
  - rewrite tso_b1. done.
  - by apply (bool_decide_unpack _).
  - exists n. split; [exact E|]. split; [exact Hi | exact Hv].
Defined.
