(* ===== verification/PeerTheorems.v ===== *)
(** The properties of the revision syncer, each with an instance at a concrete
    input. *)

From S2P Require Import Prelude GoMonad Prog Storage Strconv Coder MemKV Proto Tso Ring Queue Mvcc Creator Scanner.
From S2P Require Import ScanSpec Backend BackendSpec Concrete Election ElectionSpec Revision Follower.

Abbreviation set_backend b n := (mkNode b (n_lock n) (n_leader n) (n_health n)).

Section sync.
Context {S R : Type} `{KvStorage S} `{LockCodec R} `{RevisionClient}.
Implicit Types (n : node S R) (r : revisionSyncer).

(** A sync is a run of the syncer and a commit of what it got. *)
Lemma SyncReadRevision_run n r r' rev e :
  n_leader n = false → singleFlightGetRevisionFromLeader (GetLeaderInfo (n_lock n)) r = Some (r', (rev, e)) →
  SyncReadRevision (n, r) =
  match e with
  | Some _ => Some ((n, r'), Some (Errorf "get revision from leader failed"))
  | None => match SetCurrentRevision rev (n_backend n) with
            | Some (b, _) => Some ((set_backend b n, r'), None)
            | None => None
            end
  end.
Proof.
  intros Hl Hs. unfold SyncReadRevision, mbind, gom_bind, gets, zoom, mret, gom_ret. cbn [fst snd]. rewrite Hl. cbn [fst snd]. rewrite Hs.
  destruct e; [done|]. cbn [fst snd compose].
  destruct (SetCurrentRevision rev (n_backend n)) as [[b []]|]; by rewrite ?Hl.
Qed.

(** What is found at [addr]: a node that serves one schema, and breaks requests
    in the other. *)
Record serves (encode : http_body → bytes) (own other addr : bytes) (peer : node S R) : Prop := {
  sv_own log : http_get log (status_url own addr) =
    HttpResponse (revisionHandler peer).1 (encode (revisionHandler peer).2) None;
  sv_other log : ∃ e, http_get log (status_url other addr) = RequestFailed e ∧
    possibleSchemaMismatch (Some e) = true;
}.

Lemma ask_own encode own other addr peer v r :
  serves encode own other addr peer → n_leader peer = true →
  v = committedRevision (tso (n_backend peer)) → decode_revision (encode (RevisionJSON v)) = Some v →
  rs_schema r = own →
  getRevisionFromLeader addr r =
  Some (mkSyncer (rs_enableTLS r) own (rs_requests r ++ [status_url own addr]), (v, None)).
Proof.
  intros Hs Hl -> Hd Hr. unfold getRevisionFromLeader, request, mbind, gom_bind, gets, mret, gom_ret. simpl.
  rewrite Hr, (sv_own _ _ _ _ _ Hs). unfold revisionHandler. rewrite Hl. simpl. by rewrite Hd.
Qed.

Lemma ask_other encode own other addr peer r :
  serves encode own other addr peer → rs_schema r = other →
  ∃ e, possibleSchemaMismatch (Some e) = true ∧ getRevisionFromLeader addr r =
    Some (mkSyncer (rs_enableTLS r) other (rs_requests r ++ [status_url other addr]), (0, Some e)).
Proof.
  intros Hs Hr. destruct (sv_other _ _ _ _ _ Hs (rs_requests r)) as (e & Eg & He). exists e. split; [done|].
  unfold getRevisionFromLeader, request, mbind, gom_bind, gets, mret, gom_ret. simpl. by rewrite Hr, Eg.
Qed.

Section found.
Context (encode : http_body → bytes) (own other addr : bytes) (peer : node S R) (v : Z).
Hypothesis Hs : serves encode own other addr peer.
Hypothesis Hleader : n_leader peer = true.
Hypothesis Hv : v = committedRevision (tso (n_backend peer)).
Hypothesis Hd : decode_revision (encode (RevisionJSON v)) = Some v.

Lemma try_own rest r :
  rs_enableTLS r = true →
  try_schemas addr (own :: rest) r =
  Some (mkSyncer true own (rs_requests r ++ [status_url own addr]), (v, None)).
Proof using All.
  intros Ht. simpl. unfold set_schema, modify, mbind, gom_bind.
  by rewrite (ask_own encode own other addr peer v (mkSyncer (rs_enableTLS r) own (rs_requests r))
    Hs Hleader Hv Hd eq_refl), Ht.
Qed.

Lemma try_other r :
  rs_enableTLS r = true →
  ∃ log, try_schemas addr [other; own] r = Some (mkSyncer true own log, (v, None)).
Proof using All.
  intros Ht. cbn [try_schemas]. unfold set_schema, modify, mbind, gom_bind.
  destruct (ask_other encode own other addr peer (mkSyncer (rs_enableTLS r) other (rs_requests r)) Hs eq_refl)
    as (e & He & ->). rewrite He. eexists. by apply (try_own []).
Qed.

(** One run finds the schema; from then on it is the first to be tried. *)
Lemma fetch_finds r :
  (own = http ∧ other = https ∨ own = https ∧ other = http) → rs_enableTLS r = true →
  ∃ r', singleFlightGetRevisionFromLeader addr r = Some (r', (v, None)) ∧ rs_schema r' = own ∧
    rs_enableTLS r' = true ∧ (rs_schema r = own → rs_requests r' = rs_requests r ++ [status_url own addr]).
Proof using All.
  intros Hso Ht. unfold singleFlightGetRevisionFromLeader, getRetrySchemas, mbind, gom_bind, gets. rewrite Ht.
  cbn [negb]. destruct (try_other r Ht) as [log E].
  destruct (decide (rs_schema r = http)) as [Hsch|Hsch]; destruct Hso as [[Eo Eo']|[Eo Eo']].
  - rewrite <-Eo, try_own by done. eexists. split; [done|]. by repeat split.
  - rewrite <-Eo, <-Eo', E. eexists. split; [done|]. repeat split. rewrite Hsch, Eo. intros Eq. by vm_compute in Eq.
  - rewrite <-Eo, <-Eo', E. eexists. split; [done|]. repeat split. by rewrite Eo.
  - rewrite <-Eo, try_own by done. eexists. split; [done|]. by repeat split.
Qed.
End found.
End sync.

(** [SyncReadRevision] always comes to an end, after at most one request per
    schema it may try; a leader asks nobody; and a follower whose leader cannot be
    asked reports an error and keeps its read revision. *)
Theorem sync_terminates {S R} `{KvStorage S} `{LockCodec R} `{RevisionClient} (n : node S R) (r : revisionSyncer) :
  ∃ n' r' e, SyncReadRevision (n, r) = Some ((n', r'), e) ∧
    (length (rs_requests r') <= length (rs_requests r) + length (getRetrySchemas r))%nat ∧
    (length (getRetrySchemas r) <= 2)%nat ∧
    (n_leader n = true → n' = n ∧ r' = r ∧ e = None) ∧
    (e ≠ None → n' = n).
Proof.
  assert (length (getRetrySchemas r) <= 2)%nat as H2
    by (unfold getRetrySchemas; repeat case_match; simpl; lia).
  destruct (n_leader n) eqn:Hl.
  - exists n, r, None. unfold SyncReadRevision, mbind, gom_bind, gets, mret, gom_ret. simpl. rewrite Hl.
    repeat split; (done || lia).
  - destruct (try_schemas_requests (GetLeaderInfo (n_lock n)) (getRetrySchemas r) r) as (r' & rev & e & E & _ & Hlen).
    rewrite (SyncReadRevision_run n r r' rev e Hl E). destruct e as [e|].
    + exists n, r', (Some (Errorf "get revision from leader failed")). by repeat split.
    + unfold SetCurrentRevision, on_tso, zoom, Commit. eexists _, r', None. by repeat split.
Qed.

(** A follower that may use both schemas finds the one its leader serves.
    Whichever it tried last, one sync brings its read revision to the leader's,
    and leaves it with the right schema, so that the next sync is a single
    request. *)
Theorem sync_finds_leader {S R} `{KvStorage S} `{LockCodec R} `{RevisionClient}
    encode own other (n n2 peer : node S R) (r : revisionSyncer) v :
  (own = http ∧ other = https ∨ own = https ∧ other = http) → rs_enableTLS r = true →
  n_leader n = false → n_leader n2 = false → GetLeaderInfo (n_lock n2) = GetLeaderInfo (n_lock n) →
  serves encode own other (GetLeaderInfo (n_lock n)) peer → n_leader peer = true →
  v = committedRevision (tso (n_backend peer)) → decode_revision (encode (RevisionJSON v)) = Some v →
  ∃ n' r', SyncReadRevision (n, r) = Some ((n', r'), None) ∧
    committedRevision (tso (n_backend n')) = v ∧ rs_schema r' = own ∧
    ∃ n2' r2', SyncReadRevision (n2, r') = Some ((n2', r2'), None) ∧
      rs_requests r2' = rs_requests r' ++ [status_url own (GetLeaderInfo (n_lock n))].
Proof.
  intros Hso Htls Hl Hl2 Ha Hs Hpeer Ev Hd.
  pose proof (fetch_finds encode own other _ peer v Hs Hpeer Ev Hd) as Hrun.
  destruct (Hrun r Hso Htls) as (r1 & E1 & Es1 & Ht1 & _). destruct (Hrun r1 Hso Ht1) as (r2 & E2 & _ & _ & Hreq).
  rewrite <-Ha in E2.
  rewrite (SyncReadRevision_run n r r1 v None Hl E1).
  unfold SetCurrentRevision, on_tso, zoom, Commit. eexists _, r1. split; [done|]. split; [done|]. split; [done|].
  rewrite (SyncReadRevision_run n2 r1 r2 v None Hl2 E2).
  unfold SetCurrentRevision, on_tso, zoom, Commit. eexists _, r2. split; [done|]. by apply Hreq.
Qed.

(** Concurrent reads of a follower are served at revisions the leader reported:
    in every interleaving of any number of reads, what holds of the read revision
    at the start and of every revision the leader answers holds of the revision of
    every read. *)
Theorem follower_reads_reported {S R} `{KvStorage S} `{LockCodec R} `{RevisionClient} (P : Z → Prop)
    (n : node S R) (r : revisionSyncer) k c i rev :
  P (committedRevision (tso (n_backend n))) →
  (∀ log url body, http_get log url = HttpResponse 200 body None → P (default 0 (decode_revision body))) →
  rtc istep ((n, r), replicate k read_p) c → c.2 !! i = Some (Done (None, rev)) → P rev.
Proof.
  intros Hn Hc Hr Hi.
  destruct (keeps_steps (λ t : node S R * revisionSyncer, P (read_revision t)) (λ x, x.1 = None → P x.2) _ _ Hr)
    as [_ HF]; [done| |].
  - apply Forall_replicate. by apply keeps_read.
  - by apply (Forall_lookup_1 _ _ _ _ HF Hi).
Qed.

(** Two reads of a follower that run concurrently: the one that asked the leader
    first stores its answer last.  The read revision goes back from the newer
    answer to the older one, and the read that was told the newer revision is
    served at the older. *)
Theorem sync_race_goes_back {S R} `{KvStorage S} `{LockCodec R} `{RevisionClient}
    (n : node S R) (r : revisionSyncer) older newer v w :
  let url := status_url http (GetLeaderInfo (n_lock n)) in
  n_leader n = false → rs_enableTLS r = false →
  http_get (rs_requests r) url = HttpResponse 200 older None → decode_revision older = Some v →
  http_get (rs_requests r ++ [url]) url = HttpResponse 200 newer None → decode_revision newer = Some w →
  ∃ c1 c2, rtc istep ((n, r), [read_p; read_p]) c1 ∧ rtc istep c1 c2 ∧
    read_revision c1.1 = w ∧ c2.2 = [Done (None, v); Done (None, v)].
Proof.
  intros url Hl Ht Hg1 Hd1 Hg2 Hd2.
  set (t2 := asked url (asked url (n, r))).
  exists (stored w t2, [told_p v; loads_p]), (stored v (stored w t2), [Done (None, v); Done (None, v)]).
  split; [|split; [|done]].
  - etrans; [by apply (step_ask [] [read_p] (n, r) older v)|].
    etrans; [by apply (step_ask [told_p v] [] (asked url (n, r)) newer w)|].
    apply rtc_once, (step_store [told_p v] []).
  - eapply rtc_l; [apply (step_store [] [loads_p])|].
    eapply rtc_l; [apply (step_load [loads_p] [])|]. apply rtc_once, (step_load []).
Qed.

(** ** Instances *)

#[local] Instance text_codec : LockCodec bytes :=
  {| HolderIdentity := id; emptyRecord := []; Marshal := inr; Unmarshal := inr |}.

Definition leader_addr : bytes := str "10.0.0.1:3380".

Definition follower0 : node mem bytes :=
  mkNode b0 (mkLock (str "node-2") leader_addr None [] 7) false SERVING.

Definition peer0 : node mem bytes :=
  mkNode (set_tso (mkTSO 5 5) b0) (mkLock (str "node-1") leader_addr None [] 7) true SERVING.

(** The text of a revision is its decimal text; [peer0] serves https only. *)
Definition encode0 (b : http_body) : bytes :=
  match b with RevisionJSON v => FormatUint v | _ => [] end.

#[local] Instance client0 : RevisionClient :=
  {| http_get _ url := if decide (url = status_url https leader_addr)
                       then HttpResponse 200 (FormatUint 5) None
                       else RequestFailed (mkHttpErr true false []);
     decode_revision := ParseUint |}.

Lemma serves0 : serves encode0 https http (GetLeaderInfo (n_lock follower0)) peer0.
Proof.
  assert (GetLeaderInfo (n_lock follower0) = leader_addr) as -> by (vm_compute; reflexivity).
  split; intros log; [reflexivity|]. eexists. split; reflexivity.
Qed.

Lemma sync_finds_leader_witness :
  let r := mkSyncer true http [] in
  ∃ n' r', SyncReadRevision (follower0, r) = Some ((n', r'), None) ∧
    committedRevision (tso (n_backend n')) = 5 ∧ rs_schema r' = https.
Proof.
  intros r. destruct (sync_finds_leader encode0 https http follower0 follower0 peer0 r 5
    (or_intror (conj eq_refl eq_refl)) eq_refl eq_refl eq_refl eq_refl serves0 eq_refl eq_refl
    ltac:(vm_compute; reflexivity)) as (n' & r' & E & Ec & Es & _).
  exists n', r'. split; [exact E|]. split; [exact Ec | exact Es].
Defined.

(** An answer of the leader that cannot be decoded is not reported: the error
    of the decoder is dropped, and the follower adopts revision 0 as its read
    revision. *)
Theorem sync_malformed_zero {S R} `{KvStorage S} `{LockCodec R} `{RevisionClient}
    (n : node S R) (r : revisionSyncer) body :
  n_leader n = false → rs_enableTLS r = false →
  (∀ log, http_get log (status_url http (GetLeaderInfo (n_lock n))) = HttpResponse 200 body None) →
  decode_revision body = None →
  ∃ n' r', SyncReadRevision (n, r) = Some ((n', r'), None) ∧ committedRevision (tso (n_backend n')) = 0.
Proof.
  intros Hl Ht Hg Hd.
  assert (∃ r', singleFlightGetRevisionFromLeader (GetLeaderInfo (n_lock n)) r = Some (r', (0, None))) as [r' E].
  { unfold singleFlightGetRevisionFromLeader, getRetrySchemas, mbind, gom_bind, gets. rewrite Ht. simpl.
    unfold set_schema, modify, getRevisionFromLeader, request, mbind, gom_bind, gets, mret, gom_ret. simpl.
    rewrite Hg, Hd. simpl. by eexists. }
  rewrite (SyncReadRevision_run n r r' 0 None Hl E).
  unfold SetCurrentRevision, on_tso, zoom, Commit. by eexists _, r'.
Qed.

(** A captive portal answers for the leader. *)
Definition client1 : RevisionClient :=
  {| http_get _ _ := HttpResponse 200 (str "<html>") None; decode_revision := ParseUint |}.

Lemma sync_malformed_zero_witness :
  let n := mkNode (set_tso (mkTSO 5 5) b0) (n_lock follower0) false SERVING in
  ∃ n' r', @SyncReadRevision client1 _ _ _ _ (n, mkSyncer false http []) = Some ((n', r'), None) ∧
    committedRevision (tso (n_backend n')) = 0.
Proof.
  intros n. exact (@sync_malformed_zero _ _ _ _ client1 n (mkSyncer false http []) (str "<html>")
    eq_refl eq_refl (λ _, eq_refl) ltac:(vm_compute; reflexivity)).
Defined.

(** A leader that writes between the questions. *)
Definition client2 : RevisionClient :=
  {| http_get log _ := HttpResponse 200 (FormatUint (5 + Z.of_nat (length log))) None;
     decode_revision := ParseUint |}.

Example sync_race_goes_back_instance :
  ∃ c1 c2, rtc istep ((follower0, mkSyncer false http []), [@read_p _ _ _ client2; @read_p _ _ _ client2]) c1 ∧
    rtc istep c1 c2 ∧ read_revision c1.1 = 6 ∧ c2.2 = [Done (None, 5); Done (None, 5)].
Proof.
  apply (@sync_race_goes_back _ _ _ _ client2 follower0 (mkSyncer false http []) (FormatUint 5) (FormatUint 6) 5 6);
    reflexivity.
Qed.
