(* ===== verification/ConcurrencyTheorems.v ===== *)
(** What holds of the backend under every interleaving of requests, retries, range
    reads, compactions and the collector. *)

From S2P Require Import Prelude GoMonad Prog Storage Coder MemKV Proto Tso Ring Queue Mvcc Creator Scanner.
From S2P Require Import ScanSpec ScanRead Compaction Backend BackendSpec Refinement RetrySpec BackendReads.
From S2P Require Import WorkerProg ScanProg Concurrent History ConcurrentSpec ConcurrentQuiet ConcurrentReads.
From S2P Require Import ConcurrentCompact ConcurrentPool Concrete.

(** A history of the pool: it has the versions of [h0] and later ones.  Of the keys
    that compactions do not expire ([lasting]) the engine holds what records,
    writers and readers at or above the floor need; of the others it holds all
    versions above the floor, and a record, if it is there, names the newest. *)
Record history {S} `{KvSpec S} (h0 : kvmap) (F0 : Z) (p : pool) (h : kvmap) : Prop := {
  hi_grows : grows h0 h;
  hi_record k : valid_key k → key_strict (lasting (S := S)) (view (po_b p)) h (Z.max F0 (floor p)) k;
  hi_kept : kept (lasting (S := S)) (view (po_b p)) h (Z.max F0 (floor p));
}.

Lemma pool_history {S} `{KvSpec S} `{!KvPartitions S} (b : backend S) h0 F0 p :
  cinv (mkG b h0 F0) → rtc cstep (mkPool b [] []) p → ∃ h, history h0 F0 p h ∧ pool_inv F0 p h.
Proof.
  intros Hb Hr. destruct (pool_from b h0 F0 p Hb Hr) as (h & Hp & He). exists h. split; [|done].
  split; [apply He | apply Hp | apply Hp].
Qed.

(** C5: concurrent writes are serialised by their revisions.  Requests, retries of
    uncertain writes, compactions and the collector run interleaved, one engine call
    or one atomic access at a time.  In every reachable state there is a history of
    all versions ever written, whose newest version of each key is the one its
    record names, and of which the engine has lost nothing above the last
    compaction, and below it nothing that a reader at or above it needs.  This last
    part is for keys that compactions do not expire: on an engine without TTL
    support they delete old versions and records of keys that contain "/events/",
    live ones too.  And for every request that has finished, whatever the others
    did meanwhile and do later: a successful create, update or delete took effect
    at its own revision; a delete, and an update that expected a revision, over
    that version, visible just below its revision; a create, and an update that
    expected no version, over nothing visible, if the key is one that compactions
    do not expire; a refused create wrote nothing; a read returned a version that
    was written.  An engine's own expiry of keys is not one of the steps. *)
Theorem concurrent_writes_serialize {S} `{KvSpec S} `{!KvPartitions S} (b : backend S) h0 F0 p :
  cinv (mkG b h0 F0) → rtc cstep (mkPool b [] []) p →
  ∃ h, history h0 F0 p h ∧
    ∀ i q x, po_tasks p !! i = Some (TRequest q (Done x)) →
      ∃ c, owned c (at_history F0 p h) ∧ answered q x c (at_history F0 p h).
Proof.
  intros Hb Hr. destruct (pool_history b h0 F0 p Hb Hr) as (h & Hh & Hp).
  exists h. split; [done|]. intros i q x. by apply pool_finished.
Qed.

(** C6: no update is lost.  Of two updates of a key that expect the same revision
    and run concurrently in any way, also with compactions, at most one succeeds. *)
Theorem no_lost_update {S} `{KvSpec S} `{!KvPartitions S} (b : backend S) h0 F0 p i j r1 r2 s1 s2 :
  cinv (mkG b h0 F0) → rtc cstep (mkPool b [] []) p → i ≠ j →
  po_tasks p !! i = Some (TRequest (RUpdate r1) (Done (SUpdate (Some s1, None)))) →
  po_tasks p !! j = Some (TRequest (RUpdate r2) (Done (SUpdate (Some s2, None)))) →
  kv_Key (ur_Kv r1) = kv_Key (ur_Kv r2) → kv_Revision (ur_Kv r1) = kv_Revision (ur_Kv r2) →
  kv_Revision (ur_Kv r1) ≠ 0 → urs_Succeeded s1 = true → urs_Succeeded s2 = false.
Proof.
  intros Hb Hr Hij Hi Hj Hk Hrev Hne Hs1. destruct (urs_Succeeded s2) eqn:Hs2; [exfalso|done].
  destruct (pool_history b h0 F0 p Hb Hr) as (h & _ & Hp).
  destruct (pool_distinct _ _ _ _ _ _ _ _ _ Hp Hij Hi Hj) as (c & c' & Ha & Ha' & Hd).
  destruct (Ha Hs1) as (-> & o1 & Ho1 & T1), (Ha' Hs2) as (-> & o2 & Ho2 & T2).
  simpl in Hd. rewrite <-Hk in T2. rewrite <-Hrev, <-Hk in Ho2.
  specialize (Ho1 (or_intror Hne)). specialize (Ho2 (or_intror Hne)).
  destruct (Z.lt_trichotomy (urs_Revision s1) (urs_Revision s2)) as [Hlt|[Heq|Hlt]].
  - apply (took_effect_order _ _ _ _ _ _ _ _ T1 T2 Hlt); by rewrite Ho1.
  - rewrite Heq in Hd. by specialize (Hd eq_refl).
  - apply (took_effect_order _ _ _ _ _ _ _ _ T2 T1 Hlt); by rewrite Ho2.
Qed.

(** The range the engine shows at or above the floor is that of the history. *)
Lemma history_range {S} `{KvSpec S} F0 (p : @pool S) h k e R l :
  pool_inv F0 p h → valid_key k → valid_key e → is_uint64 R → Z.max F0 (floor p) <= R →
  lasting_range (S := S) h k e →
  visible_range h k e R l → visible_range (view (po_b p)) k e R l.
Proof.
  intros [Hg _] Hk He HR HF Hl. rewrite !visible_range_result by done.
  apply (kept_range (at_history F0 p h)); try done. by apply lasting_lasts.
Qed.




(** A count that runs among writers and compactions is that of a snapshot. *)
Theorem concurrent_count_snapshot {S} `{KvSpec S} `{!KvPartitions S} (b : backend S) h0 F0 p i r resp :
  cinv (mkG b h0 F0) → rtc cstep (mkPool b [] []) p →
  po_tasks p !! i = Some (TCount r (Done (Some resp, None))) →
  ∃ h, history h0 F0 p h ∧
    (Z.max F0 (floor p) <= cors_Revision resp → lasting_range (S := S) h (cor_Key r) (cor_End r) →
     ∃ l, visible_range (view (po_b p)) (cor_Key r) (cor_End r) (cors_Revision resp) l ∧
       (Z.of_nat (length l) < two63 → cors_Count resp = Z.of_nat (length l))).
Proof.
  intros Hb Hr Hi. destruct (pool_history b h0 F0 p Hb Hr) as (h & Hh & Hp).
  destruct (pool_counted _ _ _ _ _ _ Hp Hi) as ((Hk & He & _) & Hu & Hc & Hl).
  exists h. split; [done|]. intros HF Hlast.
  destruct (visible_range_exists h (cor_Key r) (cor_End r) (cors_Revision resp)) as [l Hvl]; [apply Hp | done..|].
  exists l. split; [by eapply history_range | by apply Hl].
Qed.

(** A streamed range that runs among writers and compactions is that of a snapshot:
    when it ends without an error, each worker has sent, after what its failed
    attempts had sent, the key-values of its part of the range. *)
Theorem concurrent_stream_snapshot {S} `{KvSpec S} `{!KvPartitions S} (b : backend S) h0 F0 p i k e rev since x :
  cinv (mkG b h0 F0) → rtc cstep (mkPool b [] []) p →
  po_tasks p !! i = Some (TStream k e rev since (Done x)) →
  let R := rrs_Revision (srs_RangeResponse x.2) in
  ∃ h, history h0 F0 p h ∧
    (srs_Err x.2 = None → rev = 0 ∨ R <= since → Z.max F0 (floor p) <= R → lasting_range (S := S) h k e →
     ∃ ls, visible_range (view (po_b p)) k e R (concat ls) ∧ Forall2 worker_stream x.1 ls).
Proof.
  intros Hb Hr Hi R. destruct (pool_history b h0 F0 p Hb Hr) as (h & Hh & Hp).
  destruct (pool_streamed _ _ _ _ _ _ _ _ _ Hp Hi) as (Hk & He & Hu & _ & _ & _ & Hl).
  exists h. split; [done|]. intros Herr Hold HF Hlast.
  destruct (visible_range_exists h k e R) as [l Hvl]; [apply Hp | done..|].
  destruct (Hl Herr Hold HF Hlast l Hvl) as (ls & Hls & <-). exists ls. split; [by eapply history_range | done].
Qed.

(** C8: reads are repeatable.  Whatever requests, retries, compactions and
    collections come after a state, the read revision does not go back, and a key
    that compactions do not expire shows at every revision up to the read revision
    of that state what it showed then, unless a compaction above that revision has
    started.  The keys that they expire are those that contain "/events/" on an
    engine without TTL support; such a key still shows the version it showed as long
    as no compaction at or above that version has started.  An engine's own expiry
    of keys is not one of the steps. *)
Theorem repeatable_reads {S} `{KvSpec S} `{!KvPartitions S} (b : backend S) h0 F0 p p' k R :
  cinv (mkG b h0 F0) → rtc cstep (mkPool b [] []) p → rtc cstep p p' →
  valid_key k → k ≠ [] → is_uint64 R → R <= committedRevision (tso (po_b p)) →
  committedRevision (tso (po_b p)) <= committedRevision (tso (po_b p')) ∧
  (expires_key (S := S) k = false → Z.max F0 (floor p') <= R →
   visible (view (po_b p')) k R = visible (view (po_b p)) k R) ∧
  (∀ r v, Z.max F0 (floor p') < r → visible (view (po_b p)) k R = Some (r, v) →
   visible (view (po_b p')) k R = Some (r, v)).
Proof.
  intros Hb Hr Hr' Hk Hne HR Hle. destruct (pool_history b h0 F0 p Hb Hr) as (h & _ & Hp).
  destruct (pool_reach F0 p p' h Hp Hr') as (h' & Hp' & He). split; [apply He|].
  pose proof (en_floor _ _ _ He) as Hfl. simpl in Hfl.
  assert (visible h' k R = visible h k R) as Eh by (eapply frozen_visible; [apply He | apply Hp | apply Hp' | done..]).
  split.
  - intros Hx HF. assert (lasting (S := S) k) as Hl by by apply safe_key_iff.
    rewrite (written_visible (at_history F0 p' h')), (written_visible (at_history F0 p h)); simpl;
      try done; [apply Hp|lia|apply Hp'].
  - intros r v HF Hv. apply (above_floor_visible (at_history F0 p h)) in Hv; [|apply Hp|done|done|simpl; lia].
    apply (above_floor_visible (at_history F0 p' h')); [apply Hp' | done | done | done|]. simpl in *. congruence.
Qed.

(** * An interleaving *)

(** The empty store has an empty history. *)
Lemma cinv_b0 : cinv (mkG b0 ∅ 0).
Proof.
  assert (view b0 = ∅) as Ev by reflexivity.
  assert (∀ k r, obj ∅ k r = None) as He by (intros k r; apply lookup_empty).
  assert (∀ k d, revs_below ∅ k d) as Hb by (intros k d r v Ho; by rewrite He in Ho).
  split; simpl; rewrite ?Ev; try done.
  - intros k Hk. apply ks_none; [done | done|]. intros _. unfold visible.
    assert (latest ∅ k max_uint64 = None) as ->; [|done].
    apply latest_None; [done | done | apply max_is_uint64|]. intros r v Ho. by rewrite He in Ho.
  - split; intros k r v; rewrite ?He; try done. intros _ _ (Ho & _). by rewrite He in Ho.
  - constructor.
Qed.

(** The in-memory engine expires keys itself: compactions do not. *)
Lemma mem_lasting k : valid_key k → k ≠ [] → lasting (S := mem) k.
Proof. intros Hk Hne. split_and!; [done | done | by left]. Qed.

(** A create, and two updates that expect its revision. *)
Definition race : list request :=
  [RCreate (mkCreateRequest key1 val1 0); RUpdate (mkUpdateRequest (mkKV key1 val2 1) 0);
   RUpdate (mkUpdateRequest (mkKV key1 val1 1) 0)].

Definition arrived : @pool mem := mkPool b0 ((λ q, TRequest q (request_p q)) <$> race) [].

(** The create runs first; then both updates are dealt a revision before the
    later one writes. *)
Definition race_schedule : list move := Run <$> [0; 0; 0; 1; 2; 2; 1; 2; 1; 1; 2]%nat.

Definition race_end : @pool mem := default arrived (schedule race_schedule arrived).

Definition finished (p : @pool mem) : list (option (request * response)) :=
  (λ t, match t with TRequest q (Done x) => Some (q, x) | _ => None end) <$> po_tasks p.

Lemma finished_lookup p i q x :
  finished p !! i = Some (Some (q, x)) → po_tasks p !! i = Some (TRequest q (Done x)).
Proof.
  unfold finished. rewrite list_lookup_fmap. destruct (po_tasks p !! i) as [[q' [x'|]| | | | | |]|]; [|done..].
  by intros [= <- <-].
Qed.

(** The update that was dealt the later revision wrote first and succeeds; the
    other one is refused, and shown its version. *)
Example race_answers :
  snd <$> omap id (finished race_end) =
  [SCreate (Some (mkCreateResponse 1 true), None);
   SUpdate (Some (mkUpdateResponse 3 false (Some (mkKV key1 val1 3))), None);
   SUpdate (Some (mkUpdateResponse 3 true None), None)].
Proof. vm_compute. reflexivity. Qed.

Lemma race_reach : rtc cstep (mkPool b0 [] []) race_end.
Proof.
  trans arrived.
  - apply (arrive_reach race b0 [] []). pose proof valid_key1. repeat (constructor; [done|]). constructor.
  - apply schedule_end.
Qed.

(** What the successful update relies on. *)
Lemma concurrent_writes_serialize_witness :
  ∃ h w, history ∅ 0 race_end h ∧ visible h key1 2 = Some (1, w) ∧ visible h key1 3 = Some (3, val1).
Proof.
  destruct (concurrent_writes_serialize b0 ∅ 0 race_end cinv_b0 race_reach) as (h & Hh & Ha).
  destruct (Ha 2%nat (RUpdate (mkUpdateRequest (mkKV key1 val1 1) 0))
    (SUpdate (Some (mkUpdateResponse 3 true None), None))) as (c & _ & Hc).
  { apply finished_lookup. vm_compute. reflexivity. }
  destruct (Hc eq_refl) as (_ & [[p w]|] & Ho & [_ _ _ _ Hb Hv]);
    specialize (Ho (or_introl (mem_lasting key1 valid_key1 ltac:(done)))); [|discriminate Ho].
  change (p = 1) in Ho. subst p. exists h, w. split; [exact Hh|]. split; [exact Hb | exact Hv].
Defined.

Lemma no_lost_update_witness :
  urs_Succeeded (mkUpdateResponse 3 false (Some (mkKV key1 val1 3))) = false.
Proof.
  apply (no_lost_update b0 ∅ 0 race_end 2 1 (mkUpdateRequest (mkKV key1 val1 1) 0)
    (mkUpdateRequest (mkKV key1 val2 1) 0) (mkUpdateResponse 3 true None) _ cinv_b0 race_reach); try done;
    apply finished_lookup; vm_compute; reflexivity.
Defined.

(** * A list among writers *)

(** The keys below /registry/. *)
Definition all_keys : RangeRequest := mkRangeRequest (str "/registry/") (str "/registry0") 0 0.

Definition snap_arrived : @pool mem :=
  mkPool b0 (((λ q, TRequest q (request_p q)) <$> take 2 race) ++
             [TList all_keys (List_p cfg0 [0%nat] (λ _, []) all_keys)]) [].

(** The create runs and is collected; the list loads the read revision; then the
    update runs, before a worker of the list calls the engine. *)
Definition before_update : list move := (Run <$> [0; 0; 0]%nat) ++ [Collect 0] ++ (Run <$> [2; 2]%nat).
Definition after_update : list move := Run <$> [1; 1; 1; 1; 2; 2; 2; 2; 2]%nat.

Definition snap_mid : @pool mem := default snap_arrived (schedule before_update snap_arrived).
Definition snap_end : @pool mem := default snap_mid (schedule after_update snap_mid).

Definition lists (p : @pool mem) : list (option (RangeRequest * (option RangeResponse * option err))) :=
  (λ t, match t with TList r (Done x) => Some (r, x) | _ => None end) <$> po_tasks p.

(** The update took effect, and the list shows what it replaced. *)
Example snap_answers :
  snd <$> omap id (lists snap_end) = [(Some (mkRangeResponse 1 [mkKV key1 val1 1] false), None)] ∧
  snd <$> omap id (finished snap_end) =
    [SCreate (Some (mkCreateResponse 1 true), None); SUpdate (Some (mkUpdateResponse 2 true None), None)].
Proof. split; vm_compute; reflexivity. Qed.







(** * A compaction among readers *)

(** The same range at revision 1. *)
Definition old_keys : RangeRequest := mkRangeRequest (str "/registry/") (str "/registry0") 0 1.

Definition reader (r : RangeRequest) : @task mem := TList r (List_p cfg0 [0%nat] (λ _, []) r).

Definition busy_arrived : @pool mem :=
  mkPool b0 ((((λ q, TRequest q (request_p q)) <$> take 2 race) ++ [TChoose 0 (choose_p 0)]) ++
             [reader all_keys; reader old_keys]) [].

(** The create and the update run and are collected; the compaction chooses its
    revision; both lists load the read revision, a timestamp and the compact
    record. *)
Definition before_compaction : list move :=
  (Run <$> [0; 0; 0]%nat) ++ [Collect 0] ++ (Run <$> [1; 1; 1; 1]%nat) ++ [Collect 0] ++
  (Run <$> [2; 2; 3; 3; 3; 4; 4; 4]%nat).

Definition busy_mid : @pool mem := default busy_arrived (schedule before_compaction busy_arrived).

(** Then the compaction runs to its end at the revision it chose, and the lists
    read the keys. *)
Definition compaction_started : @pool mem :=
  mkPool (po_b busy_mid)
    (take 2 (po_tasks busy_mid) ++ TCompact 2 (compact_p cfg0 0 (λ _, []) (λ _, []) 2) :: drop 3 (po_tasks busy_mid))
    (po_pending busy_mid).

Definition after_compaction : list move := Run <$> (replicate 14 2 ++ replicate 4 3 ++ replicate 4 4)%nat.

Definition busy_end : @pool mem := default compaction_started (schedule after_compaction compaction_started).

Definition compacted (p : @pool mem) : list (Z * option err) :=
  omap (λ t, match t with TCompact R (Done x) => Some (R, x) | _ => None end) (po_tasks p).

(** The compaction removed the version at revision 1.  The list at the read revision
    is not affected; the one at revision 1, which read the compact record before the
    compaction wrote it and the keys afterwards, succeeds without the key, since the
    iterators of this engine do not read at the timestamp. *)
Example busy_answers :
  compacted busy_end = [(2, None)] ∧
  obj (view (po_b busy_mid)) key1 1 = Some val1 ∧ obj (view (po_b busy_end)) key1 1 = None ∧
  snd <$> omap id (lists busy_end) =
    [(Some (mkRangeResponse 2 [mkKV key1 val2 2] false), None); (Some (mkRangeResponse 2 [] false), None)].
Proof. split_and!; vm_compute; reflexivity. Qed.

Lemma busy_mid_reach : rtc cstep (mkPool b0 [] []) busy_mid.
Proof.
  etrans; [|apply schedule_end]. unfold busy_arrived.
  trans (mkPool b0 ((λ q, TRequest q (request_p q)) <$> take 2 race) []).
  { apply (arrive_reach (take 2 race) b0 [] []). pose proof valid_key1. repeat (constructor; [done|]). constructor. }
  assert (∀ rev, is_uint64 rev → list_ok (mkRangeRequest (str "/registry/") (str "/registry0") 0 rev)) as Hok.
  { intros rev Hu. split_and!; [by apply (bool_decide_unpack _).. | done | done]. }
  eapply rtc_l; [by apply (cs_choose _ 0)|].
  eapply rtc_l; [apply (cs_list _ cfg0 [0%nat] (λ _, []) all_keys), Hok; done|].
  eapply rtc_l; [apply (cs_list _ cfg0 [0%nat] (λ _, []) old_keys), Hok; done|]. apply rtc_refl.
Qed.

Lemma busy_end_reach : rtc cstep busy_mid busy_end.
Proof.
  eapply rtc_l; [|apply schedule_end].
  assert (po_tasks busy_mid !! 2%nat = Some (TChoose 0 (Done 2))) as Hc by reflexivity.
  unfold compaction_started. destruct busy_mid as [b ts pend]. simpl in *.
  rewrite <-(take_drop_middle ts 2 _ Hc) at 1. apply (cs_compact _ cfg0 0 (λ _, []) (λ _, [])), config_ok_cfg0.
Qed.

Lemma repeatable_reads_witness :
  visible (view (po_b busy_end)) key1 2 = visible (view (po_b busy_mid)) key1 2.
Proof.
  destruct (repeatable_reads b0 ∅ 0 busy_mid busy_end key1 2 cinv_b0 busy_mid_reach busy_end_reach valid_key1)
    as (_ & Hv & _).
  - discriminate.
  - unfold is_uint64, two64. lia.
  - vm_compute. discriminate.
  - apply Hv; [reflexivity | vm_compute; discriminate].
Defined.
