(* ===== verification/StreamTheorems.v ===== *)
(** The properties of the streaming services of the two front ends, each with an
    instance at a concrete input. *)

From S2P Require Import Prelude GoMonad Prog Storage Coder MemKV Proto Tso Ring Queue Mvcc Creator Scanner.
From S2P Require Import ScanSpec ScanRead Backend BackendSpec BackendReads Pipeline Watch HubSpec WatchSpec.
From S2P Require Import Etcd Brain.
From S2P Require Import BrainStream Concrete BackendTheorems PipelineTheorems EtcdWatch EtcdWatchSpec.

(** * A stream with one watch *)

(** A transport whose third send fails. *)
Definition third_fails : Transport := λ log _, if (length log =? 2)%nat then Some EOF else None.

Definition no_text : ErrorText := λ _, [].

Definition ev1 : Event := mkEvent CREATE (mkKV key1 val1 1) 1.
Definition ev2 : Event := mkEvent CREATE (mkKV key2 val2 2) 2.

(** A leader whose backend yields two batches to a watcher. *)
Definition leader0 : services :=
  mkServices true false 2 None (λ _ _ _, inr []) (λ _ _, inr (shim_watch [[ev1]; []; [ev2]])) (λ _ _, inr []).

Definition watch0 : WatchCreateRequest := mkWatchCreate (str "/registry") [] 1.

Section one_watch.
#[local] Existing Instance third_fails.
#[local] Existing Instance no_text.

Definition started : watcher :=
  mkWatcher {[1 := mkWatch (str "/registry") []]} ∅ [(createdResponse 1, None)] 1 1.

Ltac wrun :=
  eapply rtc_l; [split; [first [apply ws_run with (gs1 := []) | eapply ws_main]; reflexivity
                        | vm_compute; discriminate]|]; simpl.

Lemma start_run :
  rtc wstep_ok (new_stream 0) (mkStream started (Handling (Done (inr (Some (GoWatch 1 watch0))))) []).
Proof.
  eapply rtc_l; [split; [apply (ws_recv leader0 (WatchCreate watch0)) | vm_compute; discriminate]|].
  do 3 wrun. apply rtc_refl.
Qed.

Lemma watch_run :
  ∃ s, rtc wstep_ok (mkStream started Receiving ([] ++ [(1, goroutine leader0 (GoWatch 1 watch0))])) s ∧
    st_main s = Returned ∧ events_of 1 (st_watcher s) = [etcd_event ev1].
Proof.
  eexists. split; [|split].
  - simpl. do 9 wrun.
    eapply rtc_l; [split; [apply ws_exit with (gs1 := []) | vm_compute; discriminate]|]. simpl.
    eapply rtc_l; [split; [apply ws_recv_err | vm_compute; discriminate]|].
    eapply rtc_l; [split; [apply ws_close; reflexivity | vm_compute; discriminate]|].
    eapply rtc_l; [split; [apply ws_wait; reflexivity | vm_compute; discriminate]|].
    apply rtc_refl.
  - reflexivity.
  - vm_compute. reflexivity.
Qed.
End one_watch.

(** * Watches of the etcd front end *)

(** Once launched, a watch delivers what its goroutine may. *)
Lemma launched_allowed `{Transport} `{ErrorText} sv g c w gs s :
  0 <= c < two63 → rtc wstep_ok (new_stream c) (mkStream w (Handling (Done (inr (Some g)))) gs) →
  rtc wstep_ok (mkStream w Receiving (gs ++ [(launch_id g, goroutine sv g)])) s →
  allowed sv g (events_of (launch_id g) (st_watcher s)).
Proof.
  intros Hc H1 H2.
  destruct (winv_reach _ _ _ _ _ (winv_init c Hc) H1) as (spec & pend & sts & _ & Hinv).
  pose proof (wi_main _ _ _ _ Hinv) as Hm. simpl in Hm. subst pend.
  destruct (winv_reach _ _ _ _ _ (winv_launch _ _ sv g _ _ Hinv) H2) as (spec' & pend & sts' & Hsub & Hinv').
  eapply wi_spec; [exact Hinv'|]. eapply lookup_weaken; [|exact Hsub].
  by rewrite lookup_insert, decide_True.
Qed.

(** In every interleaving of the goroutines of a stream with its receive
    loop, with cancellations and failing sends, the events a client has received
    on a watch are a prefix of what the watch's channel yields: none is skipped,
    repeated, reordered, or taken from another watch. *)
Theorem etcd_watch_prefix `{Transport} `{ErrorText} sv id r c w gs s :
  0 <= c < two63 → rtc wstep_ok (new_stream c) (mkStream w (Handling (Done (inr (Some (GoWatch id r))))) gs) →
  rtc wstep_ok (mkStream w Receiving (gs ++ [(id, goroutine sv (GoWatch id r))])) s →
  events_of id (st_watcher s) `prefix_of` watch_target sv r.
Proof. exact (launched_allowed sv (GoWatch id r) c w gs s). Qed.

Lemma etcd_watch_prefix_witness :
  ∃ s : stream, events_of 1 (st_watcher s) = [etcd_event ev1] ∧
    events_of 1 (st_watcher s) `prefix_of` [etcd_event ev1; etcd_event ev2].
Proof.
  destruct watch_run as (s & Hr & _ & Ee). exists s. split; [exact Ee|].
  exact (@etcd_watch_prefix third_fails no_text leader0 1 watch0 0 started [] s ltac:(done) start_run Hr).
Defined.

(** C13: when the call of a stream returns, it has left nothing behind: every
    goroutine it launched has finished and its map of watches is empty,
    whatever the order of creations, cancellations and failures. *)
Theorem etcd_stream_no_leak `{Transport} `{ErrorText} c s :
  0 <= c < two63 → rtc wstep_ok (new_stream c) s → st_main s = Returned →
  watches (st_watcher s) = ∅ ∧ Forall (λ g, g.2 = Done ()) (st_goroutines s).
Proof.
  intros Hc Hr. destruct (winv_reach _ _ _ _ _ (winv_init c Hc) Hr) as (spec & pend & sts & _ & Hinv).
  by apply (winv_returned spec pend sts).
Qed.

Lemma etcd_stream_no_leak_witness :
  ∃ s : stream, st_main s = Returned ∧ watches (st_watcher s) = ∅.
Proof.
  destruct watch_run as (s & Hr & Em & _). exists s. split; [exact Em|].
  refine (proj1 (@etcd_stream_no_leak third_fails no_text 0 s ltac:(done) _ Em)).
  etrans; [exact start_run|]. eapply rtc_l; [|exact Hr].
  split; [exact (@ws_go third_fails no_text leader0 (GoWatch 1 watch0) started []) | vm_compute; discriminate].
Defined.

(** ** From the backend's writes to the client *)

Lemma shim_watch_concat input : concat (shim_watch input) = map etcd_event (concat input).
Proof. unfold shim_watch. symmetry. apply concat_map. Qed.

(** The services of a leader whose backend opens the watch of [r] in state [b], the
    goroutine of which then receives [got] from the hub: the watch fails as its read
    of the history does, or yields the history and what becomes of [got]. *)
Definition opened_by {S} (sv : services) (r : WatchCreateRequest) (b : backend S) (got : list (list Event)) : Prop :=
  sv_IsLeader sv = true ∧
  let rev := uint64 (wc_StartRevision r) in
  match watch_history (wc_Key r) rev b with
  | Some (inr (batches, from)) =>
      sv_backendWatch sv (wc_Key r) rev = inr (shim_watch (batches ++ processEvents (wc_Key r) from got))
  | Some (inl e) => sv_backendWatch sv (wc_Key r) rev = inl e
  | None => False
  end.

(** What the client may get: nothing when the watch fails or is none. *)
Lemma opened_target {S} sv r (b : backend S) got :
  opened_by sv r b got →
  watch_target sv r = [] ∨
  ∃ batches from, watch_history (wc_Key r) (uint64 (wc_StartRevision r)) b = Some (inr (batches, from)) ∧
    watch_target sv r = map etcd_event (concat (batches ++ processEvents (wc_Key r) from got)).
Proof.
  intros [Hl Ho]. unfold watch_target, open_watch. destruct (isPureWatchRequest r); [|by left]. rewrite Hl. simpl in Ho.
  destruct (watch_history (wc_Key r) _ b) as [[e|[batches from]]|]; [|right|done]; [by left; rewrite Ho|].
  exists batches, from. split; [done|]. by rewrite Ho, shim_watch_concat.
Qed.

Lemma map_prefix {A B} (f : A → B) l k : l `prefix_of` k → map f l `prefix_of` map f k.
Proof. intros [k' ->]. rewrite map_app. by eexists. Qed.

Lemma map_sublist {A B} (f : A → B) l k : l `sublist_of` k → map f l `sublist_of` map f k.
Proof. induction 1; simpl; by constructor. Qed.

(** C9: from the writes of the backend to a client of the etcd front end.  A watch
    on a prefix from a revision on (from now on, for revision 0) is opened at a
    leader while writers, collector, retries, hub and other watchers run in any
    interleaving: it registers with the hub, reads the history, and its goroutine
    receives from the hub's channel; the stream's goroutines, the receive loop,
    cancellations and failing sends interleave in any way too.  At all times the
    client has got, in etcd's form, events of those the watch asked for, in revision
    order and each once: a prefix of them as long as the hub has not skipped the
    watcher because its buffer was full, and a subsequence of them in any case. *)
Theorem etcd_watch_end_to_end {S} `{KvStorage S} `{Backoff} `{Transport} `{ErrorText}
    (b : backend S) d0 w1 sub d2 d3 sv id r c w gs s :
  fresh_backend b → rtc dstep (dinit b) d0 → AddWatcher (h_hub (d_hub d0)) = Some (w1, sub) →
  rtc dstep (registered w1 d0) d2 → rtc dstep d2 d3 →
  0 <= wc_StartRevision r < two63 → opened_by sv r (p_b (d_pipe d2)) (h_got (d_hub d3) sub) →
  0 <= c < two63 → rtc wstep_ok (new_stream c) (mkStream w (Handling (Done (inr (Some (GoWatch id r))))) gs) →
  rtc wstep_ok (mkStream w Receiving (gs ++ [(id, goroutine sv (GoWatch id r))])) s →
  let asked := wanted (wc_Key r) (wc_StartRevision r) (d_fwd d0) (d_pipe d3) in
  let events := events_of id (st_watcher s) in
  StronglySorted ev_lt asked ∧
  (sub ∉ h_dropped (d_hub d3) → events `prefix_of` map etcd_event asked) ∧
  events `sublist_of` map etcd_event asked.
Proof.
  intros [Hi _]%fresh_inv Hr0 Ha Hr1 Hr3 Hrev Ho Hc Hs1 Hs2 asked events.
  pose proof (launched_allowed sv (GoWatch id r) c w gs s Hc Hs1 Hs2) as Hev.
  change (events `prefix_of` watch_target sv r) in Hev.
  split.
  { apply drop_sorted. eapply pinv_reach; [exact Hi|]. etrans; [exact (pipe_reach _ _ Hr0)|].
    etrans; [|exact (pipe_reach _ _ Hr3)]. exact (pipe_reach _ _ Hr1). }
  destruct (opened_target _ _ _ _ Ho) as [E|(batches & from & Hw & E)]; rewrite E in Hev.
  { apply prefix_nil_inv in Hev as ->. split; [intros _; apply prefix_nil | apply sublist_nil_l]. }
  rewrite uint64_id in Hw by (unfold is_uint64, two63, two64 in *; lia).
  destruct (watch_delivery b (wc_Key r) (wc_StartRevision r) d0 w1 sub d2 batches from d3 Hi Hr0 Ha Hr1
    ltac:(lia) Hw Hr3) as (_ & Hin & Hout). fold asked in Hin, Hout. split.
  - intros Hd. etrans; [exact Hev|]. by apply map_prefix, Hin.
  - destruct Hev as [rest Hrest].
    assert (map etcd_event (put_out (wc_Key r) batches from sub d3) `sublist_of` map etcd_event asked) as Hsub.
    { apply map_sublist. destruct (decide (sub ∈ h_dropped (d_hub d3))) as [Hd|Hd]; [by apply Hout|].
      destruct (Hin Hd) as [[k ->] _]. by apply sublist_inserts_r. }
    etrans; [|exact Hsub]. unfold put_out. rewrite Hrest. by apply sublist_inserts_r.
Qed.

(** The services of a leader whose watcher of revision 1 has got [got]. *)
Definition leader1 (got : list (list Event)) : services :=
  mkServices true false 1 None (λ _ _ _, inr [])
    (λ _ _, inr (shim_watch ([] ++ processEvents (wc_Key watch0) 1 got))) (λ _ _, inr []).

(** The created watch sends the one event of its channel. *)
Lemma watch_run1 :
  ∃ s, rtc (@wstep_ok third_fails no_text)
    (mkStream started Receiving ([] ++ [(1, @goroutine third_fails no_text (leader1 [[event1]]) (GoWatch 1 watch0))])) s ∧
    events_of 1 (st_watcher s) = [etcd_event event1].
Proof.
  eexists. split.
  - do 3 (eapply rtc_l; [split; [apply ws_run with (gs1 := []); reflexivity | vm_compute; discriminate]|]; simpl).
    apply rtc_refl.
  - vm_compute. reflexivity.
Qed.

Lemma etcd_watch_end_to_end_witness :
  ∃ (d : dstate mem) (s : stream), rtc dstep (registered (hub_one [] []) (dinit b0)) d ∧
  events_of 1 (st_watcher s) = [etcd_event event1] ∧
  events_of 1 (st_watcher s) `prefix_of` map etcd_event (wanted (str "/registry") 1 0 (d_pipe d)).
Proof.
  destruct watched_session as (d & Hr & Eg & _ & _ & _ & _ & Hd). destruct watch_run1 as (s & Hs & Ee).
  exists d, s. split; [exact Hr|]. split; [exact Ee|].
  refine (proj1 (proj2 (@etcd_watch_end_to_end mem _ _ third_fails no_text b0 (dinit b0) _ 0
    (registered (hub_one [] []) (dinit b0)) d (leader1 [[event1]]) 1 watch0 0 started [] s fresh_b0
    (rtc_refl _ _) register_first (rtc_refl _ _) Hr _ _ _ start_run Hs)) Hd).
  - done.
  - split; [reflexivity|]. rewrite Eg. vm_compute. reflexivity.
  - done.
Defined.

(** ** Range streams *)










(** ** Complete runs *)

Lemma shim_watch_has_kv input : Forall (Forall has_kv) (shim_watch input).
Proof.
  unfold shim_watch. apply Forall_map, Forall_true. intros evs. apply Forall_map, Forall_true.
  intros ev. unfold has_kv, etcd_event. simpl. destruct (ev_Type ev); by eexists.
Qed.

Lemma watch_responses_events id ch :
  Forall (Forall has_kv) ch → concat (map wr_Events (watch_responses id ch)) = concat ch.
Proof.
  unfold watch_responses. induction 1 as [|events ch Hkv _ IH]; [done|]. cbn [omap list_omap] in *. cbn [concat].
  destruct events as [|ev events]; [exact IH|].
  destruct (header_revision_some (ev :: events)) as [rev ->]; [done..|]. simpl. f_equal. f_equal. exact IH.
Qed.

Lemma watch_responses_header id ch r :
  r ∈ watch_responses id ch → header_revision (wr_Events r) = Some (wr_Revision r) ∧ wr_WatchId r = id.
Proof.
  unfold watch_responses. intros (events & _ & E)%list_elem_of_omap.
  destruct (header_revision events) as [rev|] eqn:Eh; simplify_eq/=. done.
Qed.

(** C37: over a working transport a watch of a leader sends every event of its
    channel, in order, each response with the revision of its last event in its
    header; then it announces that it is closed, is gone from the map and leaves
    the wait group.  No event of the backend makes it panic. *)
Theorem etcd_watch_complete `{Transport} sv id r input w :
  (∀ log m, send_result log m = None) → isPureWatchRequest r = true →
  open_watch sv r = inr (shim_watch input) → wg w ≠ 0%nat →
  ∃ w' rs, run_prog (EtcdWatch.Watch sv id r) w = Some (w', ()) ∧
    delivered w' = delivered w ++ rs ++ [cancelResponse id false] ∧
    concat (map wr_Events rs) = map etcd_event (concat input) ∧
    Forall (λ m, header_revision (wr_Events m) = Some (wr_Revision m) ∧ wr_WatchId m = id) rs ∧
    watches w' = base.delete id (watches w) ∧ wg w = S (wg w').
Proof.
  intros Hok Hpure Hopen Hwg. eexists _, (watch_responses id (shim_watch input)).
  split; [by apply (run_Watch Hok _ _ _ _ _ Hpure Hopen (shim_watch_has_kv input))|].
  split; [|split; [|split; [|split]]].
  - unfold delivered. simpl. change list_omap with (@omap list _). rewrite !omap_app, <-app_assoc. f_equal. f_equal.
    induction (watch_responses id (shim_watch input)) as [|m rs IH]; [done|]. simpl. by f_equal.
  - rewrite watch_responses_events by apply shim_watch_has_kv. apply shim_watch_concat.
  - apply Forall_forall. intros m. apply watch_responses_header.
  - done.
  - simpl. by destruct (wg w).
Qed.

Lemma etcd_watch_complete_witness :
  ∃ w' rs, run_prog (@EtcdWatch.Watch (λ _ _, None) leader0 1 watch0) started = Some (w', ()) ∧
    concat (map wr_Events rs) = [etcd_event ev1; etcd_event ev2] ∧ watches w' = base.delete 1 (watches started).
Proof.
  destruct (@etcd_watch_complete (λ _ _, None) leader0 1 watch0 [[ev1]; []; [ev2]] started
    (λ _ _, eq_refl) eq_refl eq_refl ltac:(done)) as (w' & rs & Hr & _ & He & _ & Hw & _).
  exists w', rs. split; [exact Hr|]. split; [exact He | exact Hw].
Defined.

(** * The native front end *)

(** The streaming calls of the native front end.  A watch delivers a prefix
    of what the backend yields, and all of it over a working transport; a failed
    send is not reported.  A range stream delivers a prefix too, and returns
    without an error only when it has delivered everything. *)
Theorem brain_streams send_w send_r leader sync wreq rreq wopened ropened wch rch :
  wopened (bw_Key wreq) (bw_Revision wreq) = inr wch →
  ropened (rr_Key rreq) (rr_End rreq) (rr_Revision rreq) = inr rch →
  (let '(log, e) := BrainWatch send_w leader wreq wopened in
   concat (map bwr_Events (sent_ok log)) `prefix_of` concat wch ∧
   (e = None ↔ bw_Key wreq ≠ [] ∧ leader = true) ∧
   (e = None → (∀ l m, send_w l m = None) → map bwr_Events (sent_ok log) = wch)) ∧
  (let '(log, e) := BrainRangeStream send_r sync rreq ropened in
   sent_ok log `prefix_of` rch ∧ (e = None → sent_ok log = rch)).
Proof.
  intros Hw Hr. unfold BrainWatch, BrainRangeStream. rewrite Hw, Hr. split.
  - destruct (bw_Key wreq) as [|x k]; simpl; [split; [apply prefix_nil | naive_solver]|].
    destruct leader; simpl; [|split; [apply prefix_nil | naive_solver]].
    destruct (drain_loop_prefix send_w [] (map (mkBrainWatchResponse (bw_Revision wreq)) wch))
      as (l & El & [rest Hp] & Hall).
    rewrite El. simpl in *.
    assert (∀ c, map bwr_Events (map (mkBrainWatchResponse (bw_Revision wreq)) c) = c) as Hid.
    { intros c. rewrite map_map. apply map_id. }
    split; [|split; [naive_solver|]].
    + exists (concat (map bwr_Events rest)). by rewrite <-concat_app, <-map_app, <-Hp, Hid.
    + intros _ Hok. by rewrite (Hall Hok), Hid.
  - destruct ((length (rr_Key rreq) =? 0)%nat || _); simpl; [split; [apply prefix_nil | done]|].
    destruct sync; simpl; [split; [apply prefix_nil | done]|].
    destruct (forward_loop_prefix send_r [] rch) as (l & El & Hp & Hall & _).
    destruct (forward_loop send_r [] rch) as [log e]. simpl in *. rewrite El. auto.
Qed.

Lemma brain_streams_witness :
  let wreq := mkBrainWatch (str "/registry") [] 1 in
  sent_ok (BrainWatch (λ log _, if (length log =? 1)%nat then Some EOF else None) true wreq
             (λ _ _, inr [[ev1]; [ev2]])).1 = [mkBrainWatchResponse 1 [ev1]] ∧
  [ev1] `prefix_of` [ev1; ev2].
Proof.
  intros wreq. split; [vm_compute; reflexivity|].
  exact (proj1 (proj1 (brain_streams (λ log _, if (length log =? 1)%nat then Some EOF else None) (λ _ _, None)
    true None wreq (mkRangeRequest [] [] 0 0) (λ _ _, inr [[ev1]; [ev2]]) (λ _ _ _, inr []) [[ev1]; [ev2]] []
    eq_refl eq_refl))).
Defined.
