(* ===== verification/ProxyTheorems.v ===== *)
(** The properties of the etcd proxy of a follower, each with an instance on a
    concrete network. *)

From S2P Require Import Prelude GoMonad Storage Etcd EtcdProxy EtcdProxySpec.

(** * A network for the instances *)

(** Who leads, and how many of the next connections fail; a client is its
    endpoint. *)
Record net := mkNet { n_leads : bool; n_leader : bytes; n_fail : nat }.

#[local] Instance net_election : LeaderElection net := {
  el_IsLeader d := Some (d, n_leads d);
  el_GetLeaderInfo d := Some (d, n_leader d);
}.

Definition ev1 : mvccEvent := mkMvccEvent mvccPUT (Some (mkMvccKV (str "/a") (Some (str "1")) 5 5)) None.

#[local] Instance net_client : EtcdClient net bytes := {
  cl_New ep _ d := match n_fail d with
                   | O => Some (d, inr ep)
                   | S n => Some (mkNet (n_leads d) (n_leader d) n, inl (Errorf "no such host"))
                   end;
  cl_MemberList _ d := Some (d, None);
  cl_Close _ d := Some (d, ());
  cl_Txn _ _ d := Some (d, inr (mkTxnResponse 5 true []));
  cl_Watch _ _ _ := [WEvents [ev1]; WErr Canceled];
}.

#[local] Program Instance net_spec : EtcdClientSpec net bytes := { cl_endpoint c := c }.
Next Obligation. intros ep tls d. unfold wp. simpl. by destruct (n_fail d). Qed.
Next Obligation. done. Qed.
Next Obligation. done. Qed.
Next Obligation. done. Qed.
Next Obligation. done. Qed.
Next Obligation. done. Qed.

Definition net0 : net := mkNet false (str "node-1") 0.
Definition net_down : net := mkNet false (str "node-1") 1.

(** * Following the leader *)

(** C12: for every interleaving of the rounds of the proxy's loop, of requests, of
    the goroutines of its watches and of changes of election and network: the next
    round does not panic (no channel is closed twice); the client that requests
    are forwarded with is connected to the leader the proxy names; a watch that
    was opened with an earlier client has been told to end; and a watch has put
    out, in order, a prefix of the batches its client received.  The goroutine of a
    watch reads the client without the lock and panics when there is none, which
    ends the process with status 2: this happens only to a watch that starts when
    the channel it was opened with has been closed, or is being closed by the round
    in progress, that is when the client was dropped or replaced between the call
    and its start. *)
Theorem proxy_follows_leader {D C} `{EtcdClientSpec D C} d tls w0 w ws :
  NewEtcdProxy (C := C) d tls = Some w0 → rtc proxy_step (w0, []) (w, ws) →
  wp updateClient (λ _ _, True) w ∧
  (∀ c, client (w_proxy w) = Some c →
     cl_endpoint c = curLeader (w_proxy w) ∧ curLeader (w_proxy w) ≠ [] ∧ curLeader (w_proxy w) ≠ str "empty") ∧
  (∀ pw, pw ∈ ws → ∃ ch, pw_closed pw = Some ch ∧ (closed (w_proxy w) = Some ch ∨ ch ∈ w_closed w) ∧
    (pw_out pw = [] ∨ ∃ c, pw_out pw `prefix_of` source c pw)) ∧
  ∀ w' status, proxy_exit (w, ws) w' status →
    status = 2 ∧ ∃ pw ch, pw ∈ ws ∧ pw_state pw = Starting ∧ pw_closed pw = Some ch ∧ ch ∈ w_closed w'.
Proof.
  intros Hn Hr. pose proof (sys_reach _ _ Hr (sys_init _ _ _ Hn)) as Hok. pose proof Hok as [Hp Hw].
  simpl in *. split; [|split; [|split]].
  - eapply wp_mono; [by apply wp_updateClient|]. done.
  - intros c Hc. destruct (proj2 Hp c Hc) as (? & ? & ? & _). done.
  - intros pw Hpw. rewrite Forall_forall in Hw. destruct (old_channel w pw (proj1 Hp) (Hw pw Hpw)) as (ch & Ech & Hcl).
    exists ch. split; [done|]. split; [done|]. destruct (Hw pw Hpw) as (_ & _ & Ho).
    destruct (pw_state pw) as [|c input|]; [by left| |done]. right. exists c. rewrite <-Ho. by eexists.
  - intros w' status. by apply exit_cause.
Qed.

Definition world1 : pworld net bytes := mkWorld net0 (mkProxy true (Some 0%nat) (Some (str "node-1")) None (str "node-1")) 1 [].
Definition starting1 : pwatch (C := bytes) := mkPwatch (str "/") 0 (Some 0%nat) Starting [].
Definition watch1 : pwatch (C := bytes) :=
  mkPwatch (str "/") 0 (Some 0%nat) (Running (str "node-1") [WErr Canceled]) [[ev1]].

(** The node has begun to lead, and the next round has dropped the client. *)
Definition net_leads : net := mkNet true (str "node-1") 0.
Definition world_leads : pworld net bytes :=
  mkWorld net_leads (mkProxy true (Some 1%nat) None None (str "node-1")) 2 [0%nat].

Lemma world1_new : NewEtcdProxy net0 true = Some world1.
Proof. vm_compute. reflexivity. Qed.

(** A watch that is opened before and starts after. *)
Lemma leads_reach : rtc proxy_step (world1, []) (world_leads, [starting1]).
Proof.
  eapply rtc_l; [apply (ProxyOpen world1 world1 (Some 0%nat) (str "/") 0); reflexivity|].
  eapply rtc_l; [apply (ProxyEnv world1 net_leads)|].
  eapply rtc_l; [|apply rtc_refl]. apply ProxyRound. vm_compute. reflexivity.
Qed.

Lemma leads_exit : proxy_exit (world_leads, [starting1]) world_leads 2.
Proof. by apply (ExitStart world_leads world_leads [starting1] 0 starting1 None); [| |apply ReadIdle|..]. Qed.

(** The panic is real: a watch that is forwarded while the node becomes the leader
    can end the process. *)
Theorem proxy_watch_start_exits :
  ∃ w0 w ws, NewEtcdProxy net0 true = Some w0 ∧ rtc proxy_step (w0, []) (w, ws) ∧ proxy_exit (w, ws) w 2.
Proof.
  exists world1, world_leads, [starting1]. split; [exact world1_new|]. split; [exact leads_reach | exact leads_exit].
Qed.

Lemma proxy_follows_leader_witness :
  (NewEtcdProxy net0 true = Some world1 ∧ rtc proxy_step (world1, []) (world1, [watch1]) ∧
   ∃ ch, pw_closed watch1 = Some ch ∧ (closed (w_proxy world1) = Some ch ∨ ch ∈ w_closed world1) ∧
     (pw_out watch1 = [] ∨ ∃ c, pw_out watch1 `prefix_of` source c watch1)) ∧
  ∃ pw ch, pw ∈ [starting1] ∧ pw_state pw = Starting ∧ pw_closed pw = Some ch ∧ ch ∈ w_closed world_leads.
Proof.
  pose proof world1_new as Hn. split.
  - assert (rtc proxy_step (world1, []) (world1, [watch1])) as Hr.
    { eapply rtc_l; [apply (ProxyOpen world1 world1 (Some 0%nat) (str "/") 0); reflexivity|].
      set (pw1 := mkPwatch (str "/") 0 (Some 0%nat) (Running (str "node-1") [WEvents [ev1]; WErr Canceled]) []).
      eapply rtc_l; [apply (ProxyStart world1 world1 [starting1] 0 starting1 pw1 (Some (str "node-1")));
        [reflexivity | reflexivity | apply ReadIdle | reflexivity]|].
      eapply rtc_l; [apply (ProxySelect world1 [pw1] 0 pw1 SelRecv (str "node-1") [WEvents [ev1]; WErr Canceled]);
        [reflexivity | reflexivity | discriminate]|]. apply rtc_refl. }
    split; [exact Hn|]. split; [exact Hr|].
    apply (proj1 (proj2 (proj2 (proxy_follows_leader net0 true world1 world1 [watch1] Hn Hr)))). left.
  - exact (proj2 (proj2 (proj2 (proj2 (proxy_follows_leader net0 true world1 world_leads [starting1] Hn leads_reach)))
      world_leads 2 leads_exit)).
Defined.

(** C39: once a client could not be created, or its first call failed for another
    reason than a deadline, the proxy never forwards anything again: the error is
    kept, every later round takes it for a broken connection, whatever the
    election and the network do, and transactions and watches are refused. *)
Theorem proxy_error_sticks {D C} `{EtcdClientSpec D C} w ws w' ws' :
  client (w_proxy w) = None → is_Some (p_err (w_proxy w)) →
  rtc proxy_step (w, ws) (w', ws') →
  client (w_proxy w') = None ∧
  (∀ txn, Txn txn w' = Some (w', (None, Some errNotReady))) ∧ Watch w' = Some (w', inl errNotReady).
Proof.
  intros Hc He Hr. assert (stuck_err w') as [Hc' _].
  { assert (∀ s s', rtc proxy_step s s' → stuck_err s.1 → stuck_err s'.1) as Hi
      by (induction 1; eauto using step_stuck).
    by apply (Hi _ _ Hr). }
  unfold Txn, Watch, Ready, mbind, gom_bind, gets. by rewrite Hc'.
Qed.

(** The first connection fails, then the network is as good as ever. *)
Lemma proxy_error_sticks_witness :
  ∃ w, NewEtcdProxy net_down false = Some w ∧
    client (w_proxy w) = None ∧ is_Some (p_err (w_proxy w)) ∧
    let w' := mkWorld net0 (w_proxy w) (w_made w) (w_closed w) in
    rtc proxy_step (w, []) (w', []) ∧ Txn (mkTxn [] [] []) w' = Some (w', (None, Some errNotReady)).
Proof.
  assert (is_Some (NewEtcdProxy net_down false)) as [w Hw] by (vm_compute; eauto).
  assert (client (w_proxy w) = None ∧ is_Some (p_err (w_proxy w))) as [Hc He].
  { vm_compute in Hw. injection Hw as <-. vm_compute. eauto. }
  exists w. split; [exact Hw|]. split; [exact Hc|]. split; [exact He|]. intros w'.
  assert (rtc proxy_step (w, []) (w', [])) as Hr by (eapply rtc_l; [apply ProxyEnv | apply rtc_refl]).
  split; [exact Hr|]. apply (proj1 (proj2 (proxy_error_sticks w [] w' [] Hc He Hr))).
Defined.

(** * The rounds of a follower and of a leader *)

(** In a network without failures a round connects to a leader that is new. *)
Theorem proxy_connects {D C} `{EtcdClientSpec D C} w w1 d1 d2 leader :
  proxy_ok w → checkConn w = Some (w1, None) →
  el_IsLeader (w_env w1) = Some (d1, false) → el_GetLeaderInfo d1 = Some (d2, leader) →
  leader ≠ curLeader (w_proxy w) → leader ≠ str "empty" → leader ≠ [] →
  (∀ ep tls d, ∃ d' c, cl_New ep tls d = Some (d', inr c)) →
  (∀ c d, ∃ d', cl_MemberList c d = Some (d', None)) →
  ∃ w' c, updateClient w = Some (w', ()) ∧ client (w_proxy w') = Some c ∧ cl_endpoint c = leader.
Proof.
  intros Hok Hcheck Hl Hi Hne Hne' Hnil Hnew Hmem.
  pose proof (wp_checkConn w) as Hw1. unfold wp in Hw1. rewrite Hcheck in Hw1. destruct Hw1 as [(Ep & Em & Ec) _].
  unfold updateClient. unfold mbind at 1, gom_bind at 1. rewrite Hcheck.
  unfold mbind at 1, gom_bind at 1, on_env at 1, zoom. rewrite Hl. unfold mbind at 1, gom_bind at 1, on_env at 1, zoom.
  simpl. rewrite Hi. unfold mbind at 1, gom_bind at 1, gets at 1. simpl. rewrite Ep.
  rewrite (proj2 (bytes_eqb_false _ _) Hne), (proj2 (bytes_eqb_false _ _) Hne'), (proj2 (bytes_eqb_false _ _) Hnil).
  cbn [orb]. unfold mbind at 1, gom_bind at 1, upd at 1, modify at 1. simpl.
  set (w2 := mkWorld d2 _ _ _). assert (chans_ok w2) as Hch by by eapply chans_ok_ext; [..|exact (proj1 Hok)].
  pose proof (wp_resetClient w2 Hch) as Hr. unfold wp in Hr. unfold mbind at 1, gom_bind at 1.
  destruct (resetClient w2) as [[w3 b]|]; [|done]. destruct Hr as (_ & _ & _ & _ & El & _). simpl in El.
  assert (∀ t l, ∃ w' c, connect (t :: l) w3 = Some (w', ()) ∧ client (w_proxy w') = Some c ∧ cl_endpoint c = leader)
    as Hcon.
  { intros t l. destruct (Hnew leader t (w_env w3)) as (d3 & c & En). destruct (Hmem c d3) as (d4 & Emem).
    pose proof (cl_New_spec leader t (w_env w3)) as Hs. unfold wp in Hs. rewrite En in Hs.
    simpl. unfold mbind, gom_bind, gets, on_env, zoom, upd, modify. rewrite El, En. simpl. unfold checkConn, mbind, gom_bind, gets, on_env, zoom. simpl. rewrite Emem.
    eexists _, c. split; [reflexivity|]. done. }
  destruct (tlsConfig (w_proxy w)); apply Hcon.
Qed.

(** A round of a leader drops the client but keeps the name of the leader before;
    when that one leads again, the rounds of the follower change nothing, and it
    stays without a client. *)
Theorem proxy_old_leader_returns {D C} `{EtcdClientSpec D C} w d1 d2 :
  client (w_proxy w) = None → p_err (w_proxy w) = None →
  el_IsLeader (w_env w) = Some (d1, false) → el_GetLeaderInfo d1 = Some (d2, curLeader (w_proxy w)) →
  updateClient w = Some (mkWorld d2 (w_proxy w) (w_made w) (w_closed w), ()).
Proof.
  intros Hc He Hl Hi. unfold updateClient, checkConn, mbind, gom_bind, gets. rewrite Hc, He. simpl.
  unfold on_env, zoom. rewrite Hl. simpl. rewrite Hi. simpl. by rewrite (proj2 (bytes_eqb_spec _ _) eq_refl).
Qed.

Theorem proxy_leader_keeps_name {D C} `{EtcdClientSpec D C} w w1 d1 :
  proxy_ok w → checkConn w = Some (w1, None) → el_IsLeader (w_env w1) = Some (d1, true) →
  wp updateClient (λ _ w', client (w_proxy w') = None ∧ curLeader (w_proxy w') = curLeader (w_proxy w) ∧
    p_err (w_proxy w') = p_err (w_proxy w)) w.
Proof.
  intros Hok Hcheck Hl. pose proof (wp_checkConn w) as Hw1. unfold wp in Hw1. rewrite Hcheck in Hw1.
  destruct Hw1 as [(Ep & Em & Ec) _]. unfold updateClient. apply wp_bind. unfold wp at 1. rewrite Hcheck.
  apply wp_bind. unfold wp at 1, on_env, zoom. rewrite Hl. apply wp_bind.
  eapply wp_mono; [apply wp_resetClient; eapply chans_ok_ext; [..|exact (proj1 Hok)]; simpl; congruence|].
  intros r w2 (_ & _ & _ & Hc & El & He & _). apply wp_ret. simpl in *. by rewrite El, He, Ep.
Qed.
