(* ===== verification/Command.v ===== *)
(** The command: cmd/main.go, the flags and [Run] of cmd/option/option.go and
    option_tikv.go, and how pkg/storage/tikv/tikv.go
    opens and closes its clients.

    The flag library stores a flag's default when the flag is registered and
    panics when a name is registered twice; the values of a command line are those
    it has parsed.  The flags of klog and the version command are left out. *)

From S2P Require Import Prelude GoMonad Storage Coder Proto Tso Ring Queue Mvcc Creator Scanner Strconv.
From S2P Require Import Backend Options Tikv.

(** * The clients of TiKV *)

Section clients.
Context {C : Type}.

Definition clientNum : nat := 200.

(** The loop of [NewKvStorage] after [clients] have been opened: [dial i] is the
    outcome of the attempt for the [i]th.  With it come the clients that were
    closed again. *)
Fixpoint open_clients (dial : nat → err + C) (todo : nat) (clients : list C) : (err + list C) * list C :=
  match todo with
  | O => (inr clients, [])
  | S todo' =>
      match dial (length clients) with
      | inl e => (inl (Wrapped e), clients)
      | inr c => open_clients dial todo' (clients ++ [c])
      end
  end.

(** The store: its clients, the balancer over them, and whether it is closed. *)
Record tikvStore := mkTikvStore { ts_clients : list C; ts_balancer : clientBalancer; ts_closed : bool }.

Definition NewKvStoreWithClient (clients : list C) : tikvStore :=
  mkTikvStore clients (mkBalancer (Z.of_nat (length clients)) 0) false.

Definition NewKvStorage (dial : nat → err + C) : (err + tikvStore) * list C :=
  let '(r, closed) := open_clients dial clientNum [] in
  (match r with inl e => inl e | inr clients => inr (NewKvStoreWithClient clients) end, closed).

(** [Close]: the clients it closes; a second close of the channel panics. *)
Definition Close (s : tikvStore) : option (tikvStore * list C) :=
  if ts_closed s then None
  else Some (mkTikvStore (ts_clients s) (ts_balancer s) true, ts_clients s).

(** The client of the next call. *)
Definition store_getClient : GoM tikvStore C := λ s,
  match getClient (ts_balancer s) with
  | None => None
  | Some (b, i) =>
      match ts_clients s !! Z.to_nat i with
      | Some c => Some (mkTikvStore (ts_clients s) b (ts_closed s), c)
      | None => None
      end
  end.
End clients.
Arguments tikvStore : clear implicits.

(** * Flags *)

Inductive flagValue :=
  | FInt (n : Z)
  | FString (s : bytes)
  | FBool (b : bool)
  | FStrings (l : list bytes).

Definition FlagName := bytes.

Section flags.
Context {Cert Pool : Type} `{Certificates Cert Pool}.
Local Abbreviation option_t := (KubeBrainOption Cert Pool).
Local Abbreviation security := (SecurityConfig Cert Pool).

(** A flag: the variable it is bound to, which may be behind a nil pointer. *)
Record Flag := mkFlag { fl_name : FlagName; fl_store : flagValue → option_t → option option_t }.

(** What a flag set has been told: the flags, and the options they point into. *)
Record flagSet := mkFlagSet { fs_flags : list Flag; fs_options : option_t }.

Definition set_eps (f : EpConfig Cert Pool → EpConfig Cert Pool) (o : option_t) : option_t :=
  mkOption (f (epsConf o)) (o_Prefix o) (o_SkippedPrefixes o) (ClusterName o) (pdAddrs o)
    (EnableStorageMetrics o) (watchCacheSize o).

Definition set_client (f : security → security) (o : option_t) : option option_t :=
  match ClientSecurityConfig (epsConf o) with
  | None => None
  | Some sc => Some (set_eps (λ c, set_security (Some (f sc)) (PeerSecurityConfig c) c) o)
  end.

Definition set_peer (f : security → security) (o : option_t) : option option_t :=
  match PeerSecurityConfig (epsConf o) with
  | None => None
  | Some sc => Some (set_eps (λ c, set_security (ClientSecurityConfig c) (Some (f sc)) c) o)
  end.

Definition set_CertFile (s : bytes) (c : security) : security :=
  mkSecurity s (KeyFile c) (CA c) (sc_ClientAuth c) (AllowInsecure c) (sc_once c) (serverTlsConfig c)
    (clientTlsConfig c) (sc_err c).
Definition set_KeyFile (s : bytes) (c : security) : security :=
  mkSecurity (CertFile c) s (CA c) (sc_ClientAuth c) (AllowInsecure c) (sc_once c) (serverTlsConfig c)
    (clientTlsConfig c) (sc_err c).
Definition set_CA (s : bytes) (c : security) : security :=
  mkSecurity (CertFile c) (KeyFile c) s (sc_ClientAuth c) (AllowInsecure c) (sc_once c) (serverTlsConfig c)
    (clientTlsConfig c) (sc_err c).
Definition set_ClientAuth (b : bool) (c : security) : security :=
  mkSecurity (CertFile c) (KeyFile c) (CA c) b (AllowInsecure c) (sc_once c) (serverTlsConfig c)
    (clientTlsConfig c) (sc_err c).
Definition set_AllowInsecure (b : bool) (c : security) : security :=
  mkSecurity (CertFile c) (KeyFile c) (CA c) (sc_ClientAuth c) b (sc_once c) (serverTlsConfig c)
    (clientTlsConfig c) (sc_err c).

(** [IntVar], [StringVar], [BoolVar] and [StringSliceVar]: a value of another type
    is refused. *)
Definition on_int (f : Z → option_t → option option_t) (v : flagValue) (o : option_t) : option option_t :=
  match v with FInt n => f n o | _ => None end.
Definition on_string (f : bytes → option_t → option option_t) (v : flagValue) (o : option_t) : option option_t :=
  match v with FString s => f s o | _ => None end.
Definition on_bool (f : bool → option_t → option option_t) (v : flagValue) (o : option_t) : option option_t :=
  match v with FBool b => f b o | _ => None end.
Definition on_strings (f : list bytes → option_t → option option_t) (v : flagValue) (o : option_t)
    : option option_t :=
  match v with FStrings l => f l o | _ => None end.

(** Registration: the name must be new, and the default, read from the options by
    the caller, is stored at once. *)
Definition register (name : string) (store : flagValue → option_t → option option_t)
    (dflt : option_t → option flagValue) : GoM flagSet () := λ fs,
  if existsb (bytes_eqb (str name)) (fl_name <$> fs_flags fs) then None
  else
    v ← dflt (fs_options fs);
    o ← store v (fs_options fs);
    Some (mkFlagSet (fs_flags fs ++ [mkFlag (str name) store]) o, ()).

Definition client {A} (f : security → A) (o : option_t) : option A := f <$> ClientSecurityConfig (epsConf o).
Definition peer {A} (f : security → A) (o : option_t) : option A := f <$> PeerSecurityConfig (epsConf o).

Definition set_Port (n : Z) (c : EpConfig Cert Pool) : EpConfig Cert Pool :=
  mkEpConfig n (PeerPort c) (InfoPort c) (ClientSecurityConfig c) (PeerSecurityConfig c) (ep_EnableEtcdCompatibility c).
Definition set_PeerPort (n : Z) (c : EpConfig Cert Pool) : EpConfig Cert Pool :=
  mkEpConfig (Port c) n (InfoPort c) (ClientSecurityConfig c) (PeerSecurityConfig c) (ep_EnableEtcdCompatibility c).
Definition set_InfoPort (n : Z) (c : EpConfig Cert Pool) : EpConfig Cert Pool :=
  mkEpConfig (Port c) (PeerPort c) n (ClientSecurityConfig c) (PeerSecurityConfig c) (ep_EnableEtcdCompatibility c).
Definition set_Compat (b : bool) (c : EpConfig Cert Pool) : EpConfig Cert Pool :=
  mkEpConfig (Port c) (PeerPort c) (InfoPort c) (ClientSecurityConfig c) (PeerSecurityConfig c) b.

Definition set_Prefix (s : bytes) (o : option_t) : option_t :=
  mkOption (epsConf o) s (o_SkippedPrefixes o) (ClusterName o) (pdAddrs o) (EnableStorageMetrics o) (watchCacheSize o).
Definition set_Skipped (l : list bytes) (o : option_t) : option_t :=
  mkOption (epsConf o) (o_Prefix o) l (ClusterName o) (pdAddrs o) (EnableStorageMetrics o) (watchCacheSize o).
Definition set_Cluster (s : bytes) (o : option_t) : option_t :=
  mkOption (epsConf o) (o_Prefix o) (o_SkippedPrefixes o) s (pdAddrs o) (EnableStorageMetrics o) (watchCacheSize o).
Definition set_pdAddrs (l : list bytes) (o : option_t) : option_t :=
  mkOption (epsConf o) (o_Prefix o) (o_SkippedPrefixes o) (ClusterName o) l (EnableStorageMetrics o) (watchCacheSize o).
Definition set_StorageMetrics (b : bool) (o : option_t) : option_t :=
  mkOption (epsConf o) (o_Prefix o) (o_SkippedPrefixes o) (ClusterName o) (pdAddrs o) b (watchCacheSize o).
Definition set_watchCacheSize (n : Z) (o : option_t) : option_t :=
  mkOption (epsConf o) (o_Prefix o) (o_SkippedPrefixes o) (ClusterName o) (pdAddrs o) (EnableStorageMetrics o) n.

(** A call of the flag library: the name, the variable and the default. *)
Record registration := mkReg {
  rg_name : string;
  rg_store : flagValue → option_t → option option_t;
  rg_default : option_t → option flagValue;
}.

Fixpoint register_all (l : list registration) : GoM flagSet () :=
  match l with
  | [] => mret ()
  | r :: l' => register (rg_name r) (rg_store r) (rg_default r) ;; register_all l'
  end.

(** [storageConfig.addFlag] of option_tikv.go. *)
Definition addFlag : registration :=
  mkReg "pd-addrs" (on_strings (λ l o, Some (set_pdAddrs l o))) (λ o, Some (FStrings (pdAddrs o))).

(** The calls of [AddFlags], in order. *)
Definition registrations : list registration := [
  mkReg "port" (on_int (λ n o, Some (set_eps (set_Port n) o))) (λ o, Some (FInt (Port (epsConf o))));
  mkReg "peer-port" (on_int (λ n o, Some (set_eps (set_PeerPort n) o))) (λ o, Some (FInt (PeerPort (epsConf o))));
  mkReg "info-port" (on_int (λ n o, Some (set_eps (set_InfoPort n) o))) (λ o, Some (FInt (InfoPort (epsConf o))));
  mkReg "key-prefix" (on_string (λ s o, Some (set_Prefix s o))) (λ o, Some (FString (o_Prefix o)));
  mkReg "skip-key-prefix" (on_strings (λ l o, Some (set_Skipped l o))) (λ o, Some (FStrings (o_SkippedPrefixes o)));
  mkReg "cluster-name" (on_string (λ s o, Some (set_Cluster s o))) (λ o, Some (FString (ClusterName o)));
  mkReg "cert-file" (on_string (λ s, set_client (set_CertFile s))) (client (λ c, FString (CertFile c)));
  mkReg "key-file" (on_string (λ s, set_client (set_KeyFile s))) (client (λ c, FString (CertFile c)));
  mkReg "trusted-ca-file" (on_string (λ s, set_client (set_CA s))) (client (λ c, FString (CA c)));
  mkReg "client-cert-auth" (on_bool (λ b, set_client (set_ClientAuth b))) (client (λ c, FBool (sc_ClientAuth c)));
  mkReg "allow-insecure" (on_bool (λ b, set_client (set_AllowInsecure b))) (client (λ c, FBool (AllowInsecure c)));
  mkReg "peer-cert-file" (on_string (λ s, set_peer (set_CertFile s))) (peer (λ c, FString (CertFile c)));
  mkReg "peer-key-file" (on_string (λ s, set_peer (set_KeyFile s))) (peer (λ c, FString (CertFile c)));
  mkReg "peer-trusted-ca-file" (on_string (λ s, set_peer (set_CA s))) (peer (λ c, FString (CA c)));
  mkReg "peer-client-cert-auth" (on_bool (λ b, set_peer (set_ClientAuth b))) (peer (λ c, FBool (sc_ClientAuth c)));
  mkReg "peer-allow-insecure" (on_bool (λ b, set_peer (set_AllowInsecure b))) (client (λ c, FBool (AllowInsecure c)));
  mkReg "compatible-with-etcd" (on_bool (λ b o, Some (set_eps (set_Compat b) o)))
    (λ o, Some (FBool (ep_EnableEtcdCompatibility (epsConf o))));
  mkReg "enable-storage-metrics" (on_bool (λ b o, Some (set_StorageMetrics b o)))
    (λ o, Some (FBool (EnableStorageMetrics o)));
  addFlag;
  mkReg "watch-cache-size" (on_int (λ n o, Some (set_watchCacheSize n o))) (λ o, Some (FInt (watchCacheSize o)))].

Definition AddFlags : GoM flagSet () := register_all registrations.

(** The flags of a command line, in order; an unknown name or a value of the wrong
    type is refused. *)
Fixpoint parse_flags (args : list (FlagName * flagValue)) (fs : flagSet) : option flagSet :=
  match args with
  | [] => Some fs
  | (name, v) :: args' =>
      '(_, fl) ← list_find (λ fl, fl_name fl = name) (fs_flags fs);
      o ← fl_store fl v (fs_options fs);
      parse_flags args' (mkFlagSet (fs_flags fs) o)
  end.

(** * Running *)

(** What [Run] needs of the node: its address, the clients that can be opened to
    the placement drivers, and the endpoint, which runs until its context ends; the
    engine it is given may be the one that measures its calls. *)
Context {C : Type} (GetHost : bytes) (dial : list bytes → nat → err + C)
  (endpoint_Run : Backend.Config → bool → tikvStore C → option err).

(** [storageConfig.buildStorage] of option_tikv.go. *)
Definition buildStorage (o : option_t) : err + tikvStore C := (NewKvStorage (dial (pdAddrs o))).1.

Definition Run (o : option_t) : option err :=
  match run_config o GetHost with
  | inl e => Some e
  | inr config =>
      match buildStorage o with
      | inl e => Some e
      | inr kv => endpoint_Run config (EnableStorageMetrics o) kv
      end
  end.

(** The [RunE] of the command; [Validate] has initialised the security of the
    endpoints. *)
Definition validated (o : option_t) : option_t := set_eps (λ c, default c (ep_Validate (Some c)).1) o.

Definition RunE (o : option_t) : option err :=
  match Validate o with
  | Some e => Some e
  | None => Run (validated o)
  end.

(** [NewKubeBrainCommand] and the parsing of its command line. *)
Definition NewKubeBrainCommand : option flagSet := fst <$> AddFlags (mkFlagSet [] NewOptions).

Definition Execute (args : list (FlagName * flagValue)) : option (option err) :=
  fs ← NewKubeBrainCommand;
  Some match parse_flags args fs with
       | None => Some (Errorf "invalid flags")
       | Some fs => RunE (fs_options fs)
       end.
End flags.

(** * The process *)

Definition gracefulExitTimeout : Z := 3 * 1000000000.

(** When and with which status the process ends: [done] is the time and result of
    [ExecuteContext], [signal] the time of the first signal.  [None] is a process
    that does not end.  Of two events at the same time either may be first. *)
Inductive exits (done : option (Z * option err)) (signal : option Z) : Z → Z → Prop :=
  | exits_ok t : done = Some (t, None) → (∀ s, signal = Some s → t <= s + gracefulExitTimeout) → exits done signal t 0
  | exits_err t e : done = Some (t, Some e) → (∀ s, signal = Some s → t <= s + gracefulExitTimeout) → exits done signal t 1
  | exits_forced s : signal = Some s → (∀ t e, done = Some (t, e) → s + gracefulExitTimeout <= t) →
      exits done signal (s + gracefulExitTimeout) 1.
