(* ===== verification/OptionTheorems.v ===== *)
(** The properties of the configuration: what the validated options promise of
    the endpoints, and of the ranges a compaction works on. *)

From S2P Require Import Prelude GoMonad Storage Coder MemKV Proto Tso Ring Queue Mvcc Creator.
From S2P Require Import Scanner ScanSpec ScanRead Compaction Backend BackendSpec BackendReads CompactRange Options.
From S2P Require Import NetUtil Concrete BackendTheorems.

(** * What validation gives *)

Section validated.
Context {Cert Pool : Type} `{Certificates Cert Pool}.
Implicit Types o : KubeBrainOption Cert Pool.

Definition valid_option o : Prop := Validate o = None.

Lemma validate_skipped_ok prefix skipped :
  validate_skipped prefix skipped = None →
  Forall (λ p, prefix `prefix_of` p ∧ has_suffix p (str "/") = false) skipped.
Proof.
  induction skipped as [|p skipped IH]; simpl; [constructor|].
  destruct (has_prefix p prefix) eqn:Ep; simpl; [|done]. destruct (has_suffix p (str "/")) eqn:Es; [done|].
  intros E. constructor; [|by apply IH]. by apply has_prefix_spec in Ep.
Qed.

Lemma Validate_prefixes o :
  Validate o = None →
  Forall (λ p, o_Prefix o `prefix_of` p ∧ has_suffix p (str "/") = false) (o_Prefix o :: o_SkippedPrefixes o).
Proof.
  unfold Validate. destruct (ep_Validate _).2; [done|]. destruct (has_suffix (o_Prefix o) (str "/")) eqn:E; [done|].
  destruct (validate_skipped _ _) eqn:Es; [done|]. intros _. constructor; [done|]. by apply validate_skipped_ok.
Qed.

Lemma covers_validated o k p :
  Validate o = None → p ∈ o_Prefix o :: o_SkippedPrefixes o → covers k p ↔ (p ++ str "/") `prefix_of` k.
Proof.
  intros Hv Hp. apply Validate_prefixes in Hv. rewrite Forall_forall in Hv. destruct (Hv p Hp) as [_ E].
  unfold covers, slash. by rewrite E.
Qed.

(** No key is below two of the prefixes. *)
Definition no_overlap (ps : list bytes) : Prop := ∀ k, (coverage k ps <= 1)%nat.

Lemma coverage_zero k ps : coverage k ps = 0%nat ↔ Forall (λ p, ¬ covers k p) ps.
Proof.
  unfold coverage. rewrite length_zero_iff_nil. split.
  - intros E. apply Forall_forall. intros p Hp Hc.
    assert (p ∈ filter (covers k) ps) as Hin by by apply list_elem_of_filter. rewrite E in Hin. by apply elem_of_nil in Hin.
  - apply filter_none.
Qed.

(** The ranges of a compaction are the prefix without the skipped ones. *)
Lemma compacted_key_in_charge o cfg ip k :
  Validate o = None → run_config o ip = inr cfg → config_ok cfg → valid_key k →
  no_overlap (o_SkippedPrefixes o) →
  Forall (λ p, (o_Prefix o ++ str "/") `prefix_of` (p ++ str "/")) (o_SkippedPrefixes o) →
  compacted_key cfg k ↔
  (o_Prefix o ++ str "/") `prefix_of` k ∧ Forall (λ p, ¬ (p ++ str "/") `prefix_of` k) (o_SkippedPrefixes o).
Proof.
  intros Hv Hrun Hcfg Hk Hno Hunder. rewrite compacted_key_odd by done.
  assert (Prefix cfg = o_Prefix o ∧ SkippedPrefixes cfg = o_SkippedPrefixes o) as [-> ->].
  { unfold run_config in Hrun. destruct ip; [done|]. by injection Hrun as <-. }
  assert (∀ p, p ∈ o_Prefix o :: o_SkippedPrefixes o → covers k p ↔ (p ++ str "/") `prefix_of` k) as Hcov
    by (intros p; by apply covers_validated).
  assert (Forall (λ p, ¬ (p ++ str "/") `prefix_of` k) (o_SkippedPrefixes o) ↔
    coverage k (o_SkippedPrefixes o) = 0%nat) as ->.
  { rewrite coverage_zero, !Forall_forall. split; intros Hf p Hp; specialize (Hf p Hp);
      rewrite Hcov in * by (by right); done. }
  rewrite <-Hcov by left. unfold coverage at 1. rewrite filter_cons. specialize (Hno k). fold (coverage k) in *.
  case_decide as Hc; simpl length; fold (coverage k (o_SkippedPrefixes o)).
  - destruct (coverage k (o_SkippedPrefixes o)) as [|[|n]]; [done| |lia]. split; [done | by intros [_ ?]].
  - assert (coverage k (o_SkippedPrefixes o) = 0%nat) as ->; [|by split; [|intros [? _]]].
    apply coverage_zero, Forall_forall. intros p Hp Hcp. apply Hc. rewrite Forall_forall in Hunder.
    apply Hcov; [left|]. apply Hcov in Hcp; [|by right]. etrans; [by apply Hunder | done].
Qed.
End validated.

(** * Compaction stays in charge *)

(** C4: a backend started with valid options, whose skipped prefixes are below its
    prefix and not below each other, compacts only what it is in charge of: a key
    that is not below the prefix, or is below a skipped one, keeps all its entries
    whatever compaction is asked for and whatever fails on the way. *)
Theorem compact_in_charge {Cert Pool} `{Certificates Cert Pool} {S} `{KvSpec S} `{!KvPartitions S} `{Backoff}
    (o : KubeBrainOption Cert Pool) ip cfg now ctx rev (b : backend S) k :
  Validate o = None → run_config o ip = inr cfg → config_ok cfg →
  no_overlap (o_SkippedPrefixes o) →
  Forall (λ p, (o_Prefix o ++ str "/") `prefix_of` (p ++ str "/")) (o_SkippedPrefixes o) →
  readable cfg b → is_uint64 rev → 0 <= MinRevision (asyncFifoRetry b) → valid_key k →
  ¬ (o_Prefix o ++ str "/") `prefix_of` k ∨ Exists (λ p, (p ++ str "/") `prefix_of` k) (o_SkippedPrefixes o) →
  wp (Backend.Compact cfg now ctx rev) (λ _ b',
    ∀ r, is_uint64 r → view b' !! EncodeObjectKey k r = view b !! EncodeObjectKey k r) b.
Proof.
  intros Hv Hrun Hcfg Hno Hunder (Hb & Hcr & Hcu) Hrev Hmin Hk Hout. pose proof (bi_tso _ Hb) as Htso.
  destruct (compact_revision_bounds rev b) as (Hbd & _); [done | lia | done |].
  assert (is_uint64 (compact_revision rev b)) as HR by (unfold is_uint64 in *; lia).
  assert (¬ compacted_key cfg k) as Hn.
  { rewrite (compacted_key_in_charge o cfg ip) by done. intros [Hp Hf]. destruct Hout as [?|He]; [done|].
    apply Exists_exists in He as (p & Hin & Hpk). rewrite Forall_forall in Hf. by apply (Hf p). }
  assert (∀ r, is_uint64 r → wp (Backend.Compact cfg now ctx rev) (λ _ b',
    view b' !! EncodeObjectKey k r = view b !! EncodeObjectKey k r) b) as Hw.
  { intros r Hr. apply wp_Compact_frame; try done; [apply Hb | by apply inv_compactable]. }
  pose proof (Hw 0 zero_is_uint64) as Hrun0. unfold wp in *.
  destruct (Backend.Compact cfg now ctx rev b) as [[b' res]|]; [|done]. intros r Hr. by apply Hw.
Qed.

(** An installation without certificates. *)
#[local] Instance no_certificates : Certificates () () := {
  LoadX509KeyPair _ _ := inl (Errorf "no such file");
  ReadFile _ := inl (Errorf "no such file");
  AppendCertsFromPEM _ := ();
}.

Definition with_prefixes (prefix : bytes) (skipped : list bytes) : KubeBrainOption () () :=
  mkOption (epsConf NewOptions) prefix skipped (str "default") [str "127.0.0.1:2379"] false 4.

Definition option1 : KubeBrainOption () () := with_prefixes (str "/registry") [str "/registry/pods"].
Definition cfg1 : Backend.Config :=
  mkConfig false (str "/registry") (str "10.0.0.1:2380") [str "/registry/pods"] 4.

Lemma readable_cfg1 : readable cfg1 b1.
Proof. exact readable_b1. Qed.

Lemma compact_in_charge_witness :
  run_config option1 (str "10.0.0.1") = inr cfg1 ∧
  wp (Backend.Compact cfg1 0 (λ _, []) 1) (λ _ b',
    ∀ r, is_uint64 r → view b' !! EncodeObjectKey key1 r = view b1 !! EncodeObjectKey key1 r) b1.
Proof.
  assert (run_config option1 (str "10.0.0.1") = inr cfg1) as Hrun by (vm_compute; reflexivity).
  split; [exact Hrun|]. assert (0 <= MinRevision (asyncFifoRetry b1)) as Hm by (rewrite min_b1; lia).
  apply (compact_in_charge option1 (str "10.0.0.1") cfg1 0 (λ _, []) 1 b1 key1).
  - vm_compute. reflexivity.
  - exact Hrun.
  - split; [apply (bool_decide_unpack _); vm_compute; exact I | vm_compute; discriminate].
  - intros k. unfold coverage. etrans; [apply length_filter|]. vm_compute. exact (le_n _).
  - constructor; [|constructor]. apply (bool_decide_unpack _). vm_compute. exact I.
  - exact readable_cfg1.
  - exact (uint64_range 1).
  - exact Hm.
  - exact valid_key1.
  - right. constructor. apply (bool_decide_unpack _). vm_compute. exact I.
Defined.

(** Validation does not keep compaction out of the skipped prefixes: there are
    valid options with a skipped prefix inside another one, and with a skipped
    prefix that only begins with the letters of the prefix, for which the ranges of
    a compaction contain keys below a skipped prefix. *)
Theorem valid_options_compact_skipped :
  (let o := with_prefixes (str "/r") [str "/r/a"; str "/r/a/b"] in
   Validate o = None ∧ ∃ cfg, run_config o (str "10.0.0.1") = inr cfg ∧ compacted_key cfg (str "/r/a/b/x")) ∧
  (let o := with_prefixes (str "/r") [str "/r2"] in
   Validate o = None ∧ ∃ cfg, run_config o (str "10.0.0.1") = inr cfg ∧ compacted_key cfg (str "/r2/x")).
Proof.
  assert (∀ cfg k, config_ok cfg → valid_key k →
    Nat.odd (coverage k (Prefix cfg :: SkippedPrefixes cfg)) = true → compacted_key cfg k) as Hodd
    by (intros; by apply compacted_key_odd).
  split; (split; [vm_compute; reflexivity|]; eexists; split; [reflexivity|]; apply Hodd;
    [split; [apply (bool_decide_unpack _); vm_compute; exact I | vm_compute; discriminate]
    |apply (bool_decide_unpack _); vm_compute; exact I | vm_compute; reflexivity]).
Qed.

(** * Endpoints *)

Section endpoints.
Context {Cert Pool : Type} `{Certificates Cert Pool}.
Implicit Types o : KubeBrainOption Cert Pool.

(** A security configuration that nothing has initialised yet. *)
Definition fresh_security (sc : SecurityConfig Cert Pool) : Prop :=
  sc_once sc = false ∧ serverTlsConfig sc = None ∧ clientTlsConfig sc = None.

(** A server with certificates that passes validation serves TLS with the loaded
    key pair; clients must show a certificate exactly when a CA is given or
    client authentication is asked for; without [AllowInsecure] nothing is
    served in the clear. *)
Theorem secure_endpoint (sc sc' : SecurityConfig Cert Pool) servers :
  fresh_security sc → isInsecure (Some sc) = false → validate (Some sc) = (Some sc', None) →
  ∃ conf cert, getServerTLSConfig (Some sc') = Some (Some sc', Some conf) ∧
    LoadX509KeyPair (CertFile sc) (KeyFile sc) = inr cert ∧ Certificate conf = cert ∧
    (ClientAuth conf = RequireAndVerifyClientCert ↔ CA sc ≠ [] ∨ sc_ClientAuth sc = true) ∧
    (AllowInsecure sc = false → buildExposedServers (Some sc') servers = [secureServer (Some sc') servers]).
Proof.
  intros (Ho & Hs & Hc) Hi Hv. unfold validate in Hv. rewrite Hi in Hv. unfold init in Hv. rewrite Ho in Hv.
  injection Hv as <- He. unfold load in *. destruct (LoadX509KeyPair _ _) as [e|cert]; [done|].
  assert (is_empty (CA sc) = true ↔ CA sc = []) as Hca by apply bytes_eqb_spec.
  assert (∀ s c e, AllowInsecure sc = false → buildExposedServers (Some (set_init s c e sc)) servers =
    [secureServer (Some (set_init s c e sc)) servers]) as Hb.
  { intros s c e Ha. unfold buildExposedServers, mode. change (isInsecure _) with (isInsecure (Some sc)). rewrite Hi.
    simpl. by rewrite Ha. }
  destruct (is_empty (CA sc)) eqn:Eca; simpl in *.
  - eexists _, cert. split; [reflexivity|]. do 2 (split; [done|]). split; [|by apply Hb]. simpl.
    destruct (sc_ClientAuth sc); [by split; [right|]|]. split; [done|]. intros [Hn|]; [|done]. by destruct Hn; apply Hca.
  - destruct (ReadFile _) as [e|ca]; [done|]. eexists _, cert. split; [reflexivity|]. do 2 (split; [done|]).
    split; [|by apply Hb]. simpl. split; [|done]. intros _. left. by intros ?%Hca.
Qed.

(** The ports of valid options are set and do not clash. *)
Theorem valid_ports o :
  Validate o = None → let c := epsConf o in
  Port c ≠ 0 ∧ PeerPort c ≠ 0 ∧ Port c ≠ PeerPort c ∧ InfoPort c ≠ Port c ∧ InfoPort c ≠ PeerPort c.
Proof.
  unfold Validate, ep_Validate. simpl. destruct (Z.eqb_spec (Port (epsConf o)) 0); [done|].
  destruct (Z.eqb_spec (PeerPort (epsConf o)) 0), (Z.eqb_spec (PeerPort (epsConf o)) (Port (epsConf o))); try done.
  simpl. destruct (Z.eqb_spec (InfoPort (epsConf o)) 0), (Z.eqb_spec (InfoPort (epsConf o)) (Port (epsConf o))),
    (Z.eqb_spec (InfoPort (epsConf o)) (PeerPort (epsConf o))); simpl; try done; intros _; lia.
Qed.
End endpoints.

(** * The identity of a node *)

(** The address a node announces depends neither on the order in which the system
    lists its interfaces nor on how the sort, which is not stable, arranges
    addresses of equal rank. *)
Theorem host_pinned `{IPText} sw inters inters' l :
  inters ≡ₚ inters' → l ≡ₚ getLocalIPs sw inters' → StronglySorted ip_le l →
  first_host sw l = GetHost sw inters.
Proof.
  intros Hp Hl Hs. apply first_host_sorted.
  - intros Hf. rewrite Hl. by apply getLocalIPs_forced.
  - rewrite Hl, merge_sort_Permutation. symmetry. by apply getLocalIPs_perm.
  - done.
  - apply Sorted_StronglySorted; [apply ip_le_transitive|]. apply (Sorted_merge_sort ip_le).
Qed.
