(* ===== verification/CommandTheorems.v ===== *)
(** What holds of the command line, of the end of the process and of the clients
    of TiKV. *)

From S2P Require Import Prelude GoMonad Storage Coder Proto Tso Ring Queue Mvcc Creator Scanner Strconv.
From S2P Require Import Backend Options Tikv Command.

(** * Flags *)

Section flags.
Context {Cert Pool : Type} `{Certificates Cert Pool}.
Local Abbreviation option_t := (KubeBrainOption Cert Pool).

(** The options once the flags have been registered over them. *)
Definition registered (o : option_t) (c p : SecurityConfig Cert Pool) : option_t :=
  set_eps (set_security (Some (set_KeyFile (CertFile c) c))
             (Some (set_AllowInsecure (AllowInsecure c) (set_KeyFile (CertFile p) p)))) o.

Definition flag_names : list FlagName := (λ r : @registration Cert Pool, str (rg_name r)) <$> registrations.

Definition reg_flag (r : registration) : Flag := mkFlag (Cert := Cert) (Pool := Pool) (str (rg_name r)) (rg_store r).

(** What the defaults leave. *)
Fixpoint defaults (l : list registration) (o : option_t) : option option_t :=
  match l with
  | [] => Some o
  | r :: l' => v ← rg_default r o; o' ← rg_store r v o; defaults l' o'
  end.

Lemma register_all_eq l flags (o o' : option_t) :
  NoDup ((fl_name <$> flags) ++ ((λ r, str (rg_name r)) <$> l)) → defaults l o = Some o' →
  register_all l (mkFlagSet flags o) = Some (mkFlagSet (flags ++ (reg_flag <$> l)) o', ()).
Proof.
  revert flags o. induction l as [|r l IH]; intros flags o; simpl.
  { intros _ [= ->]. by rewrite app_nil_r. }
  intros Hn Hd. destruct (rg_default r o) as [v|] eqn:Ev; [|done]. simpl in Hd.
  destruct (rg_store r v o) as [o1|] eqn:Es; [|done]. simpl in Hd. unfold mbind, gom_bind, register. simpl.
  destruct (existsb _ _) eqn:Ex.
  - apply existsb_exists in Ex as (x & Hx & E). apply bytes_eqb_spec in E as <-.
    apply NoDup_app in Hn as (_ & Hn & _). exfalso. eapply Hn; [by apply list_elem_of_In | left].
  - rewrite Ev. simpl. rewrite Es. simpl. rewrite (IH _ o1); [|by rewrite fmap_app, <-app_assoc | done].
    by rewrite <-app_assoc.
Qed.

Lemma flag_names_NoDup : NoDup flag_names.
Proof. apply (bool_decide_unpack _). vm_compute. done. Qed.

(** Registering the flags does not panic, and keeps the options but for the key
    files, which become the certificate files, and the peers' permission of
    insecure access, which becomes that of the clients. *)
Theorem flags_register (o : option_t) c p :
  ClientSecurityConfig (epsConf o) = Some c → PeerSecurityConfig (epsConf o) = Some p →
  AddFlags (mkFlagSet [] o) = Some (mkFlagSet (reg_flag <$> registrations) (registered o c p), ()).
Proof.
  intros Hc Hp. apply (register_all_eq registrations []); [exact flag_names_NoDup|].
  destruct o as [[? ? ? [c'|] [p'|] ?] ? ? ? ? ? ?]; simpl in Hc, Hp; try done. simplify_eq.
  destruct c, p. vm_compute. reflexivity.
Qed.

(** The options of the command are the defaults. *)
Lemma command_defaults : NewKubeBrainCommand = Some (mkFlagSet (reg_flag <$> registrations) NewOptions).
Proof. unfold NewKubeBrainCommand. by rewrite (flags_register NewOptions emptySecurity emptySecurity). Qed.

(** ** The order of the flags *)

(** Two flags that can be set in either order. *)
Definition commute (f g : Flag) : Prop :=
  ∀ v w (o : option_t), (o' ← fl_store f v o; fl_store g w o') = (o' ← fl_store g w o; fl_store f v o').

Lemma commute_sym f g : commute f g → commute g f.
Proof. intros Hc v w o. symmetry. apply Hc. Qed.

Ltac commute_flags :=
  intros v w [[? ? ? [[]|] [[]|] ?] ? ? ? ? ? ?]; destruct v, w; reflexivity.

Lemma flags_commute : ForallOrdPairs commute (reg_flag <$> registrations).
Proof.
  unfold registrations. cbn [fmap list_fmap].
  do 20 (apply FOP_cons; [repeat (apply List.Forall_cons; [commute_flags|]); apply List.Forall_nil|]).
  apply FOP_nil.
Qed.

(** One flag of the command line. *)
Definition set_flag (flags : list (@Flag Cert Pool)) (a : FlagName * flagValue) (o : option_t) : option option_t :=
  '(_, fl) ← list_find (λ fl, fl_name fl = a.1) flags; fl_store fl a.2 o.

Lemma parse_flags_cons flags a args (o : option_t) :
  parse_flags (a :: args) (mkFlagSet flags o) = o' ← set_flag flags a o; parse_flags args (mkFlagSet flags o').
Proof. destruct a as [n v]. unfold set_flag. simpl. by destruct (list_find _ _) as [[i fl]|]. Qed.

Lemma set_flag_swap flags a b (o : option_t) :
  ForallOrdPairs commute flags → a.1 ≠ b.1 →
  (o' ← set_flag flags a o; set_flag flags b o') = (o' ← set_flag flags b o; set_flag flags a o').
Proof.
  intros Hc Hne. unfold set_flag.
  destruct (list_find (λ fl, fl_name fl = a.1) flags) as [[i f]|] eqn:Ef;
    destruct (list_find (λ fl, fl_name fl = b.1) flags) as [[j g]|] eqn:Eg; simpl; try done.
  - apply list_find_Some in Ef as (Hi & Hf & _), Eg as (Hj & Hg & _).
    destruct (ForallOrdPairs_In Hc f g) as [->|[Hfg|Hgf]].
    + by eapply list_elem_of_In, list_elem_of_lookup_2.
    + by eapply list_elem_of_In, list_elem_of_lookup_2.
    + congruence.
    + apply Hfg.
    + symmetry. apply Hgf.
  - by destruct (fl_store f a.2 o).
  - by destruct (fl_store g b.2 o).
Qed.

Lemma parse_flags_swap flags a b args (o : option_t) :
  ForallOrdPairs commute flags → a.1 ≠ b.1 →
  parse_flags (a :: b :: args) (mkFlagSet flags o) = parse_flags (b :: a :: args) (mkFlagSet flags o).
Proof.
  intros Hc Hne. pose proof (set_flag_swap flags a b o Hc Hne) as Hs. rewrite !parse_flags_cons.
  destruct (set_flag flags a o) as [o1|], (set_flag flags b o) as [o2|]; cbn [mbind option_bind] in *; rewrite ?parse_flags_cons.
  - by rewrite Hs.
  - by rewrite Hs.
  - by rewrite <-Hs.
  - done.
Qed.

(** The order in which different flags are given does not matter. *)
Theorem flags_any_order (o : option_t) args args' :
  args ≡ₚ args' → NoDup args.*1 →
  parse_flags args (mkFlagSet (reg_flag <$> registrations) o) =
  parse_flags args' (mkFlagSet (reg_flag <$> registrations) o).
Proof.
  intros Hp. revert o. induction Hp as [|a args args' Hp IH|a b args|args args1 args' Hp IH Hp' IH']; intros o Hn.
  - done.
  - rewrite !parse_flags_cons. apply NoDup_cons in Hn as [_ Hn]. destruct (set_flag _ a o); [by apply IH | done].
  - apply parse_flags_swap; [apply flags_commute|]. apply NoDup_cons in Hn as [Hn _]. intros E. apply Hn.
    rewrite E. left.
  - rewrite IH by done. apply IH'. by rewrite <-Hp.
Qed.
End flags.

(** A command that is run without addresses of placement drivers is refused
    before anything is opened. *)
Theorem addresses_required {Cert Pool C} `{Certificates Cert Pool} host (dial : list bytes → nat → err + C) run :
  Execute host dial run [] = Some (Some (Errorf "invalid param --pd-addrs")).
Proof. unfold Execute. by rewrite command_defaults. Qed.

(** * The process *)

(** After a signal the process ends within the timeout, whatever the command does;
    with status 0 exactly when the command has returned without an error. *)
Theorem signal_ends s done :
  ∃ t c, exits done (Some s) t c ∧ t <= s + gracefulExitTimeout ∧
    (c = 0 → done = Some (t, None)).
Proof.
  destruct done as [[t e]|].
  - destruct (Z.le_gt_cases t (s + gracefulExitTimeout)) as [Hle|Hgt].
    + destruct e as [e|].
      * exists t, 1. split; [|done]. apply (exits_err _ _ t e); [done|]. by intros ? [= <-].
      * exists t, 0. split; [|done]. apply exits_ok; [done|]. by intros ? [= <-].
    + exists (s + gracefulExitTimeout), 1. split; [|split; [lia|done]].
      apply exits_forced; [done|]. intros ? ? [= <- <-]. lia.
  - exists (s + gracefulExitTimeout), 1. split; [|split; [lia|done]]. by apply exits_forced.
Qed.

(** * The clients of TiKV *)

Section clients.
Context {C : Type}.

(** What the first attempts opened. *)
Definition dialed (dial : nat → err + C) (clients : list C) : Prop :=
  ∀ i c, clients !! i = Some c → dial i = inr c.

Lemma open_clients_spec dial todo clients :
  dialed dial clients →
  match open_clients dial todo clients with
  | (inr opened, closed) => dialed dial opened ∧ length opened = (length clients + todo)%nat ∧ closed = []
  | (inl e, closed) => dialed dial closed ∧ (length closed < length clients + todo)%nat ∧
      ∃ e', dial (length closed) = inl e' ∧ e = Wrapped e'
  end.
Proof.
  revert clients. induction todo as [|todo IH]; intros clients Hd; simpl; [by rewrite Nat.add_0_r|].
  destruct (dial (length clients)) as [e|c] eqn:E; [split; [done|]; split; [lia | by exists e]|].
  specialize (IH (clients ++ [c])). rewrite length_app in IH. simpl in IH.
  replace (length clients + 1 + todo)%nat with (length clients + Datatypes.S todo)%nat in IH by lia.
  apply IH. intros i x Hi. apply lookup_app_Some in Hi as [Hi|[Hle Hi]]; [by apply Hd|].
  apply list_lookup_singleton_Some in Hi as [Hi <-].
  by replace i with (length clients) by lia.
Qed.

(** Either all the clients were opened, or one could not be and those before it
    were closed again: none is left open without a store that holds it. *)
Theorem clients_not_leaked dial :
  match NewKvStorage dial with
  | (inr s, closed) => length (ts_clients s) = clientNum ∧ dialed dial (ts_clients s) ∧ closed = []
  | (inl e, closed) => (length closed < clientNum)%nat ∧ dialed dial closed ∧
      ∃ e', dial (length closed) = inl e' ∧ e = Wrapped e'
  end.
Proof.
  unfold NewKvStorage. pose proof (open_clients_spec dial clientNum []) as Ho.
  destruct (open_clients dial clientNum []) as [[e|opened] closed]; destruct Ho as (? & ? & ?); done.
Qed.

(** The calls take the clients in turn: the [n]th call from the start takes the
    client [n] modulo their number, until the counter leaves the range of an
    integer. *)
Fixpoint take_clients (n : nat) (s : tikvStore C) : option (tikvStore C * list C) :=
  match n with
  | O => Some (s, [])
  | Datatypes.S n' =>
      '(s', c) ← store_getClient s; '(s'', cs) ← take_clients n' s'; Some (s'', c :: cs)
  end.

Lemma store_getClient_turn (clients : list C) idx cl n :
  length clients = n → (0 < n)%nat → 0 <= idx → idx + 1 < two63 →
  ∃ c, clients !! Z.to_nat ((idx + 1) `mod` Z.of_nat n) = Some c ∧
    store_getClient (mkTikvStore clients (mkBalancer (Z.of_nat n) idx) cl) =
    Some (mkTikvStore clients (mkBalancer (Z.of_nat n) (idx + 1)) cl, c).
Proof.
  intros Hl Hn H0 Hi. pose proof (Z.mod_pos_bound (idx + 1) (Z.of_nat n)) as Hm.
  destruct (lookup_lt_is_Some_2 clients (Z.to_nat ((idx + 1) `mod` Z.of_nat n))) as [c Hc]; [lia|].
  exists c. split; [done|]. unfold store_getClient, getClient. simpl.
  rewrite (uint64_id (idx + 1)), (int64_id (idx + 1)) by (unfold is_uint64, two64, two63 in *; lia).
  rewrite Z.rem_mod_nonneg by lia.
  destruct (Z.eqb_spec (Z.of_nat n) 0) as [?|_]; [lia|].
  destruct (Z.ltb_spec ((idx + 1) `mod` Z.of_nat n) 0) as [?|_]; [lia|]. simpl. by rewrite Hc.
Qed.

Lemma take_clients_turns (clients : list C) m n idx cl :
  length clients = n → (0 < n)%nat → 0 <= idx → idx + Z.of_nat m < two63 →
  ∃ cs, take_clients m (mkTikvStore clients (mkBalancer (Z.of_nat n) idx) cl) =
      Some (mkTikvStore clients (mkBalancer (Z.of_nat n) (idx + Z.of_nat m)) cl, cs) ∧
    length cs = m ∧
    ∀ j, (j < m)%nat → cs !! j = clients !! Z.to_nat ((idx + 1 + Z.of_nat j) `mod` Z.of_nat n).
Proof.
  intros Hl Hn. revert idx. induction m as [|m IH]; intros idx H0 Hm.
  { exists []. rewrite Z.add_0_r. split; [done|]. split; [done|]. intros j. lia. }
  destruct (store_getClient_turn clients idx cl n) as (c & Hc & E); [done..|lia|].
  destruct (IH (idx + 1)) as (cs & E' & Hlen & Hcs); [lia..|].
  exists (c :: cs). simpl. rewrite E. simpl. rewrite E'. simpl. split; [do 4 f_equal; lia|].
  split; [by rewrite Hlen|]. intros [|j] Hj; simpl; [by rewrite Z.add_0_r|].
  rewrite Hcs by lia. do 3 f_equal. lia.
Qed.

(** Any [n] calls in a row take each of the [n] clients once. *)
Theorem clients_balanced (clients : list C) idx cl :
  clients ≠ [] → 0 <= idx → idx + Z.of_nat (length clients) < two63 →
  ∃ s cs, take_clients (length clients) (mkTikvStore clients (mkBalancer (Z.of_nat (length clients)) idx) cl) =
    Some (s, cs) ∧ cs ≡ₚ clients.
Proof.
  intros Hne H0 Hi. assert (0 < length clients)%nat as Hn by (destruct clients; [done | simpl; lia]).
  destruct (take_clients_turns clients (length clients) (length clients) idx cl) as (cs & E & Hlen & Hcs); [done..|].
  eexists _, cs. split; [exact E|]. trans (rotate (Z.to_nat (idx + 1)) clients).
  - apply reflexive_eq, (list_eq_same_length _ _ (length clients)); [by rewrite length_rotate | done|].
    intros j x y Hj. rewrite Hcs, lookup_rotate_r by done. unfold rotate_nat_add.
    rewrite Z2Nat.id by lia. congruence.
  - unfold rotate. rewrite (comm (++)). by rewrite take_drop.
Qed.
End clients.
