(* ===== verification/ServerTheorems.v ===== *)
(** What the theorems of the front ends say: the etcd API on a leader, the
    guards of the native API, reads of a follower and the compaction loop. *)

From S2P Require Import Prelude GoMonad Storage Coder MemKV Proto Tso Ring Queue Mvcc Creator.
From S2P Require Import Scanner ScanSpec Backend BackendSpec Refinement Etcd EtcdSpec Brain.
From S2P Require Import Concrete BackendTheorems.

Definition leader : PeerService mem := plainPeers true (0, None).
Definition follower (rev : Z) : PeerService mem := plainPeers false (rev, None).
Definition m0 : model := mkModel 0 0 (λ _, []).

(** * etcd transactions *)

(** C14: etcd transactions are compare-and-swap.  On a leader with an engine
    without failures, the create, guarded update and guarded delete transactions
    of a Kubernetes API server succeed exactly when the key's modification
    revision is the expected one (0 for an absent key); success writes exactly one
    version and the response carries its revision; a failed guarded write changes
    no version and returns the current key-value. *)
Theorem etcd_txn_cas {S} `{KvReliable S} `{Backoff} (peers : PeerService S) t (b : backend S) m :
  IsLeader peers = true → backend_inv b → room b → refines b m → k8s_ok t m →
  wp (Txn peers false (k8s_request t)) (λ r b', ∃ resp,
    r = (Some resp, None) ∧ etcd_answer t m resp ∧ backend_inv b' ∧ refines b' (etcd_after t m)) b.
Proof. apply Txn_k8s. Qed.

Lemma etcd_txn_cas_witness :
  wp (Txn leader false (k8s_request (KUpdate key1 1 val1 0))) (λ r b', ∃ resp,
    r = (Some resp, None) ∧ etcd_answer (KUpdate key1 1 val1 0) m0 resp ∧ backend_inv b' ∧
    refines b' (etcd_after (KUpdate key1 1 val1 0) m0)) b0.
Proof.
  apply (etcd_txn_cas leader (KUpdate key1 1 val1 0) b0 m0 eq_refl inv_b0 room_b0 refines_b0).
  split; [exact valid_key1 | done].
Defined.

(** No transaction is recognised as two operations: at most one of create,
    delete, update and compact matches, so the order of the tests does not
    matter. *)
Theorem etcd_txn_classified txn : (length (filter (λ b, b = true) (txn_class txn)) <= 1)%nat.
Proof. apply txn_class_exclusive. Qed.

(** A guarded delete that expects modification revision 0 deletes a live key,
    although the comparison does not hold: revision 0 means "any" to the
    backend. *)
Theorem etcd_delete_zero_unguarded {S} `{KvReliable S} `{Backoff} (peers : PeerService S) k (b : backend S) m x :
  IsLeader peers = true → backend_inv b → room b → refines b m → valid_key k → m_latest m k = Some x →
  wp (Txn peers false (k8s_request (KDelete k 0))) (λ r b', ∃ resp,
    r = (Some resp, None) ∧ trs_Succeeded resp = true ∧ mod_revision m k ≠ 0 ∧
    refines b' (m_write k None m)) b.
Proof. apply Txn_delete_zero. Qed.

Definition m1 : model := (m_create (mkCreateRequest key1 val1 0) m0).2.

Lemma refines_b1 : refines b1 m1.
Proof.
  pose proof (refines_Create (mkCreateRequest key1 val1 0) b0 m0 inv_b0 room_b0 refines_b0
    (conj valid_key1 eq_refl)) as Hw.
  unfold wp in Hw. unfold b1. destruct (Backend.Create _ b0) as [[b r]|]; [|done].
  destruct Hw as (_ & _ & Hr). exact Hr.
Qed.

Lemma etcd_delete_zero_unguarded_witness :
  wp (Txn leader false (k8s_request (KDelete key1 0))) (λ r b', ∃ resp,
    r = (Some resp, None) ∧ trs_Succeeded resp = true ∧ mod_revision m1 key1 ≠ 0 ∧
    refines b' (m_write key1 None m1)) b1.
Proof.
  exact (etcd_delete_zero_unguarded leader key1 b1 m1 (1, val1) eq_refl inv_b1 room_b1 refines_b1
    valid_key1 eq_refl).
Defined.

(** C35: a point read through the etcd API returns the value visible at the
    requested (or latest) revision, with its modification revision, and count 1,
    or nothing with count 0; the header is not below the read revision, and
    nothing changes. *)
Theorem etcd_range_get {S} `{KvReliable S} `{Backoff} (peers : PeerService S) cfg ctx k rev limit count
    (b : backend S) m :
  SyncReadRevision peers = mret None → backend_inv b → refines b m →
  valid_key k → 0 <= rev < two63 → dealRevision (tso b) < two63 →
  wp (RangeRPC peers cfg ctx (mkEtcdRange k [] limit rev count)) (λ r b',
    backend_inv b' ∧ refines b' m ∧
    ∃ resp, r = (Some resp, None) ∧ m_committed m <= ers_Header resp ∧
      (ers_Kvs resp, ers_Count resp) =
      match h_read (m_hist m k) (read_rev rev) with
      | Some (mr, Some v) => ([etcd_kv k (mr, Some v)], 1)
      | _ => ([], 0)
      end) b.
Proof. apply RangeRPC_get. Qed.

Lemma etcd_range_get_witness :
  wp (RangeRPC leader cfg0 (λ _, []) (mkEtcdRange key1 [] 0 0 false)) (λ r b',
    ∃ resp, r = (Some resp, None) ∧ ers_Kvs resp = [etcd_kv key1 (1, val1)]) b1.
Proof.
  assert (dealRevision (tso b1) < two63) as Hd by by rewrite tso_b1.
  eapply wp_mono; [exact (etcd_range_get leader cfg0 (λ _, []) key1 0 0 false b1 m1 eq_refl inv_b1 refines_b1
    valid_key1 ltac:(done) Hd)|].
  intros r b' (_ & _ & resp & -> & _ & Hr). exists resp. split; [done|]. by injection Hr as -> _.
Defined.

(** * The native API *)

(** A write through the native API that is invalid, late, or sent to a
    follower returns an error and changes nothing. *)
Theorem brain_write_guarded {S} `{KvStorage S} (peers : PeerService S) expired r (b : backend S) :
  cr_Key r = [] ∨ slen (cr_Value r) = 0 ∨ expired = true ∨ IsLeader peers = false →
  ∃ e, BrainCreate peers expired r b = Some (b, (None, Some e)).
Proof.
  intros Hr. apply guarded_write_rejects. destruct Hr as [->|[->|Hr]]; [by left | left | by right].
  by rewrite orb_true_r.
Qed.

Lemma brain_write_guarded_witness :
  ∃ e, BrainCreate (follower 5) false (mkCreateRequest key1 val1 0) b0 = Some (b0, (None, Some e)).
Proof. apply (brain_write_guarded (follower 5) false (mkCreateRequest key1 val1 0) b0). by do 3 right. Defined.

(** A follower's read is not older than its leader's revision at the time of
    the read: the response header is at least the revision the leader reported. *)
Theorem follower_read_fresh {S} `{KvStorage S} rev r (b : backend S) :
  gr_Key r ≠ [] →
  match BrainGet (plainPeers false (rev, None)) r b with
  | Some (_, (Some resp, None)) => rev <= grs_Revision resp
  | _ => True
  end.
Proof. intros Hk. apply follower_get_header. by intros ?%nil_length_inv. Qed.

Lemma follower_read_fresh_witness :
  match BrainGet (plainPeers false (7, None)) (mkGetRequest key1 0) b0 with
  | Some (_, (Some resp, None)) => 7 <= grs_Revision resp
  | _ => True
  end.
Proof. by apply (follower_read_fresh 7 (mkGetRequest key1 0) b0). Defined.

(** The compaction loop keeps the last thousand revisions once there are more
    than a thousand; before, the unsigned subtraction wraps around and it compacts
    up to the current revision. *)
Theorem compact_loop_retention {S} `{KvStorage S} (b : backend S) :
  0 <= committedRevision (tso b) < two64 → MinRevision (asyncFifoRetry b) = 0 →
  compact_revision (compactLoop_revision b) b =
  if 1000 <? committedRevision (tso b) then committedRevision (tso b) - 1000
  else committedRevision (tso b).
Proof. apply compactLoop_retains. Qed.

Lemma compact_loop_retention_witness : compact_revision (compactLoop_revision b10) b10 = 10.
Proof. exact (compact_loop_retention b10 ltac:(done) eq_refl). Defined.
