(* ===== verification/MetricsTheorems.v ===== *)
(** The theorems about metrics. *)

From Stdlib Require Import SpecFloat.
From S2P Require Import Prelude GoMonad Prog Proto MetricsStore Metrics MetricsSpec Emitters MetricsExport.

#[local] Open Scope string_scope.
#[local] Open Scope Z_scope.

(** C16: any number of goroutines emit any of the metrics of the components
    (backend, scanner, retry loop, hub, engine wrapper, front ends, election) in any
    interleaving (a first emission creates and registers its vector, with a second
    check under the lock): when the label values that come from outside are UTF-8
    and none of the program's names is registered by others, no access panics, each
    emission takes at most three accesses, and when all have finished every series
    has got exactly the values emitted to it.  The republication of gathered
    metrics is not among these emissions. *)
Theorem program_metrics_never_panic {R Vec} `{PromSpec R Vec} pf cluster (r : R)
    (ess : list (list emission)) (j : nat) (w : prometheusWrapper R Vec) ts :
  ValidString cluster = true →
  prom_inv r → (∀ n s, (n, s) ∈ program_schema → collectors r !! formatName n = None) →
  Forall (Forall program_emission) ess →
  nsteps istep j (NewMetrics (cluster_label cluster) r, map (emit_all pf) ess) (w, ts) →
  ¬ panics (w, ts) ∧ (j <= 3 * length (concat ess))%nat ∧
  (finished (w, ts) → ∀ fq l,
     gathered (registerer w) fq l ≡ₚ
     (gathered r fq l ++ updates (cluster_label cluster) pf (concat ess) fq l)%list).
Proof.
  intros Hcl Hr Hfree Hess Hrun.
  assert (Forall (Forall (typed pf program_schema)) ess) as Ht.
  { eapply Forall_impl; [exact Hess|]. intros es Hes. eapply Forall_impl; [exact Hes|]. apply program_emission_typed. }
  pose proof (program_schema_ok _ Hcl) as Hok.
  pose proof (mpool_init pf _ _ Hok ess r Hr Hfree Ht) as Hp.
  destruct (mpool_run pf _ _ _ _ _ _ _ _ Hp Hrun) as (todo & Hp' & Hj). rewrite steps_left_init in Hj.
  split; [by eapply mpool_no_panic|]. split; [lia|]. intros Hf fq l.
  rewrite <-(mp_series _ _ _ _ _ _ _ Hp' fq l), (mpool_finished pf _ _ _ _ _ _ Hp' Hf).
  by rewrite app_nil_r.
Qed.

(** Two goroutines emit the same counter for the first time, one after a read
    that found no vector while the other creates it. *)
Definition race0 : list (list emission) :=
  [cancel_emissions true; cancel_emissions true; range_emissions "get" false float0 (Some 12)].

Definition sched0 : list nat := [0; 1; 2; 1; 0; 2; 1; 0; 2; 2; 2; 2; 2; 2; 2]%nat.

Definition no_floats : string → option float64 := λ _, None.

Lemma race0_typed : Forall (Forall program_emission) race0.
Proof.
  assert (Forall program_emission (cancel_emissions true)) as Hc.
  { apply Forall_forall. intros e He. by eapply pe_cancel. }
  apply Forall_cons_2; [done|]. apply Forall_cons_2; [done|]. apply Forall_singleton.
  apply Forall_forall. intros e He. by eapply pe_range; [|exact He].
Qed.

Lemma program_metrics_never_panic_witness :
  match irun sched0 (NewMetrics (cluster_label "c") emptyRegistry, map (emit_all no_floats) race0) with
  | Some (w, ts) => ¬ panics (w, ts) ∧
      gathered (registerer w) "watch_cancel" {["cluster" := "c"; "compact" := "true"]} ≡ₚ
        [float64_of_Z 1; float64_of_Z 1]
  | None => False
  end.
Proof.
  assert (match irun sched0 (NewMetrics (cluster_label "c") emptyRegistry, map (emit_all no_floats) race0) with
          | Some c => finishedb c | None => false end = true) as Hfin by (by vm_compute).
  destruct (irun sched0 _) as [[w ts]|] eqn:E; [|done].
  apply finishedb_spec in Hfin. apply irun_steps in E.
  destruct (program_metrics_never_panic no_floats "c" emptyRegistry race0 (length sched0) w ts) as (Hp & _ & Hs); try done.
  { apply race0_typed. }
  split; [done|]. rewrite (Hs Hfin). by vm_compute.
Defined.

(** C40: the watched prefix is a label value, and label values must be UTF-8:
    when a watch on any other prefix ends, the emission panics, in the goroutine
    of [processEvents], before the channel of the watcher is closed. *)
Theorem watch_prefix_not_utf8_panics {R Vec} `{PromSpec R Vec} pf cluster (w : prometheusWrapper R Vec) prefix :
  ValidString cluster = true → winv (cluster_label cluster) program_schema w → utf8_valid prefix = false →
  run_prog (emit_all pf (processEvents_emissions prefix)) w = None.
Proof.
  intros Hcl Hi Hp. pose proof (program_schema_ok _ Hcl) as Hok.
  assert (("watcherhub.events_chan.closed", mkSig Counter ["prefix"]) ∈ program_schema) as Hin.
  { apply (bool_decide_unpack _). by vm_compute. }
  eapply (emit_bad_value _ _ Hok pf _ "prefix" (String.string_of_list_byte prefix) ["prefix"]); try done.
  unfold ValidString. by rewrite str_of_list_byte.
Qed.

(** A prefix that starts with the byte ff. *)
Lemma watch_prefix_not_utf8_panics_witness :
  run_prog (emit_all no_floats (processEvents_emissions [Byte.xff; Byte.x2f]))
    (NewMetrics (cluster_label "c") emptyRegistry) = None.
Proof.
  apply (watch_prefix_not_utf8_panics no_floats "c"); [done| |done].
  apply winv_new; [done|]. intros n s _. apply lookup_empty.
Defined.

(** Of a gathered histogram, one gauge is emitted per complete bucket, labelled
    with its bound; the running sums of the emitted values (in 64 bits) are the
    cumulative counts again. *)
Theorem histogram_counts_roundtrip name m buckets :
  m_Histogram m = Some buckets → Forall (λ x, is_uint64 x.2) (complete_buckets buckets) →
  running 0 (map em_count (emit_metric name HISTOGRAM m)) = map snd (complete_buckets buckets) ∧
  map (λ e, tag_value leTag (em_tags e)) (emit_metric name HISTOGRAM m) =
  map (λ x, Some (Sprintf_f x.1)) (complete_buckets buckets).
Proof.
  intros Hm Hb. unfold emit_metric. rewrite Hm.
  destruct (m_Counter m) as [[?|]|], (m_Gauge m) as [[?|]|], (m_Summary m);
    (apply emit_buckets_spec; [done | done | apply tag_value_snoc]).
Qed.

(** Two requests below 0.5 and one more below 1, with a bucket that lacks its bound. *)
Definition latency0 : Metric :=
  mkMetric [mkLabelPair (Some "method") (Some "get")] None None None
    (Some [mkBucket (Some 2) (Some (S754_finite false 4503599627370496 (-53)));
           mkBucket (Some 9) None;
           mkBucket (Some 3) (Some (float64_of_Z 1))]).

Lemma histogram_counts_roundtrip_witness :
  running 0 (map em_count (emit_metric "latency" HISTOGRAM latency0)) = [2; 3] ∧
  map (λ e, tag_value leTag (em_tags e)) (emit_metric "latency" HISTOGRAM latency0) =
    [Some "0.500000"; Some "1.000000"].
Proof.
  destruct (histogram_counts_roundtrip "latency" latency0 _ eq_refl) as [H1 H2].
  { repeat constructor; simpl; done. }
  rewrite H1, H2. split; vm_compute; reflexivity.
Defined.
