(* ===== verification/EndpointTheorems.v ===== *)
(** The theorems about running and stopping the servers. *)

From S2P Require Import Prelude Options Endpoint EndpointSpec Assembly.

(** * Shutdown *)

(** C15: the servers of all ports, plain and TLS, each in its goroutines, in any
    interleaving.  A run has boundedly many steps.  When the context is done, or
    any server stopped or a port could not be listened on, some goroutine can go on
    until [Run] has returned and the multiplexer of every port too.  [Run] returns
    only then; by that time its listeners and servers are closed and the [Serve] of
    every server has returned, and its error is the first that a port returned.
    [Run] does not wait for [mux.Serve] of the ports: these may return after it. *)
Theorem endpoint_shutdown {G} `{ServersSpec} `{ErrGroupSpec G} {cert pool} (c : EpConfig cert pool)
    (n : nat) (done : bool) (g : group (port_proc G) G) :
  nsteps ctx_step n (false, endpoint_Run G c) (done, g) →
  (n <= p_size (endpoint_Run G c) + 1)%nat ∧
  (done = true ∨ p_failed g →
     is_Some (g_ret g) ∧ ports_ended g = true ∨ ∃ c', ctx_step (done, g) c') ∧
  (∀ r, g_ret g = Some r →
     (done = true ∨ p_failed g) ∧ p_clean g ∧
     r = first_error (g_log g) ∧ map Some (g_log g) ≡ₚ map (λ ch, p_ret (ch_proc ch)) (g_children g)).
Proof.
  intros Hrun. assert (p_inv (of_ctx false) (endpoint_Run G c)) as Hi0 by (unfold p_inv; apply endpoint_inv).
  destruct (ctx_run n (endpoint_Run G c) g false done Hrun Hi0) as [Hi Hn].
  assert (group_inv (of_ctx done) g) as Hg by (unfold p_inv in Hi; exact Hi).
  split; [destruct done; lia|]. split.
  { intros Hf. destruct (ctx_progress done g Hi Hf) as [Hr|Hst]; [|by right].
    destruct (ports_ended g) eqn:Em; [by left | right].
    destruct (mux_can_return _ g Hg Hr Em) as [g' Hst]. exists (done, g'). by constructor. }
  intros r Hr. split; [|split; [by eapply p_ret_clean|]].
  - destruct done; [by left | right]. by eapply p_ret_failed.
  - destruct (gi_ret _ _ Hg r Hr) as (_ & Hall & ->). split; [apply (gi_err _ _ Hg)|].
    by apply (group_log_all _ _ Hg).
Qed.

(** The server of a runner is an http server, and returned what http's [Serve] may. *)
Definition is_http `{Servers} (p : leaf) : Prop :=
  match p with Serving k => k = Http | Served k r asked => k = Http ∧ leaf_result Http asked r end.

Lemma http_stays `{Servers} d (s s' : sub leaf) : sub_step d s s' → is_http (s_serve s) → is_http (s_serve s').
Proof. destruct 1 as [| | | | | | |? ? ? ? ? ? Hp| | | |? ? ? ? ? ? ? ? Hp]; simpl; try done; by destruct Hp; simpl; intros ->. Qed.

(** The context is done while an http server serves: [waitFor] returns no
    error, but [runSubServer] returns the error of [Serve], which the goroutine
    assigns to the named result afterwards; it never returns nil. *)
Theorem cancelled_http_server_error `{ServersSpec} (s : sub leaf) r :
  rtc (sub_step Must) (mkSub SClose GServing (Serving Http) None None false) s →
  p_ret s = Some r → ∃ asked, s_serve s = Served Http r asked ∧ r ≠ None.
Proof.
  intros Hr Hs.
  assert (is_http (s_serve s)) as Hh.
  { clear Hs. remember (mkSub _ _ _ _ _ _) as s0 eqn:E. assert (is_http (s_serve s0)) as H0' by by rewrite E.
    clear E. induction Hr; eauto using http_stays. }
  apply sub_run_late in Hr as [Hi [_ Hl]]; [|by split; simpl; try done; left|by split; [|left]].
  simpl in Hs. destruct (s_pc s) eqn:Epc; try done. injection Hs as <-.
  destruct Hl as [Eg|Eg]; [destruct (si_ret _ _ Hi Epc); congruence|].
  destruct (s_serve s) as [k|k r asked]; [done|]. injection Eg as ->. destruct Hh as [-> Hres].
  exists asked. split; [done|]. by eapply http_not_nil.
Qed.

(** * Instances *)

(** Servers that fail with some error, and stop as documented. *)
#[global] Instance servers0 : Servers := {|
  leaf_result k asked r :=
    match k, asked with
    | Http, true => r = Some ErrServerClosed
    | Grpc, true => r = None ∨ r = Some ErrServerStopped
    | Mux, true => r = Some ErrListenerClosed
    | _, false => ∃ code, r = Some (ErrOther code)
    end |}.

#[global] Instance servers0_spec : ServersSpec.
Proof.
  split; [|by intros [] r; simpl; naive_solver|done|done].
  intros []; [by exists (Some ErrServerClosed) | by exists None; left | by exists (Some ErrListenerClosed)].
Qed.

(** An errgroup keeps the first error. *)
#[global] Instance errgroup0 : ErrGroup result := {|
  eg_new := None;
  eg_return r g := match g with Some e => Some e | None => r end;
  eg_err g := g;
  eg_cancelled g := bool_decide (is_Some g) |}.

#[global] Instance errgroup0_spec : ErrGroupSpec result.
Proof. by split; [| |intros r []|intros [] []]. Qed.

Definition config0 : EpConfig () () := mkEpConfig 3379 3380 0 None None false.

(** The context is cancelled at once: a run in which [Run] and the multiplexers
    return. *)
Lemma cancelled_run :
  ∃ n (g : group (port_proc result) result),
    nsteps ctx_step n (false, endpoint_Run result config0) (true, g) ∧ is_Some (g_ret g) ∧ ports_ended g = true.
Proof.
  destruct (ctx_ends (Datatypes.S (p_size (endpoint_Run result config0))) (endpoint_Run result config0))
    as (k & g & Hk & Hr & Hm); [apply Nat.lt_succ_diag_r | eapply p_inv_mono; [|exact (endpoint_inv config0)]; done|].
  exists (Datatypes.S k), g. split; [|done]. eapply nsteps_l; [apply ctx_cancel | exact Hk].
Qed.

Lemma endpoint_shutdown_witness :
  ∃ n (g : group (port_proc result) result) r,
    nsteps ctx_step n (false, endpoint_Run result config0) (true, g) ∧ g_ret g = Some r ∧ ports_ended g = true ∧
    (n <= p_size (endpoint_Run result config0) + 1)%nat ∧ p_clean g ∧ r = first_error (g_log g).
Proof.
  destruct cancelled_run as (n & g & Hg & [r Hr] & Hm). exists n, g, r.
  destruct (endpoint_shutdown config0 n true g Hg) as (Hn & _ & Hret). destruct (Hret r Hr) as (_ & Hclean & Herr & _).
  exact (conj Hg (conj Hr (conj Hm (conj Hn (conj Hclean Herr))))).
Defined.

(** The server and the listener are closed, then [Serve] returns. *)
Lemma cancelled_http_server_error_witness :
  ∃ s : sub leaf,
    rtc (sub_step Must) (mkSub SClose GServing (Serving Http) None None false) s ∧
    p_ret s = Some (Some ErrServerClosed) ∧ Some ErrServerClosed ≠ None.
Proof.
  assert (∃ s : sub leaf, rtc (sub_step Must) (mkSub SClose GServing (Serving Http) None None false) s ∧
    p_ret s = Some (Some ErrServerClosed)) as (s & Hr & Hs).
  { eexists. split.
    - do 2 (eapply rtc_l; [constructor|]).
      eapply rtc_l; [by apply sub_serve, (leaf_return Must Http (Some ErrServerClosed))|].
      eapply rtc_l; [by apply sub_served|]. eapply rtc_l; [apply sub_send|]. eapply rtc_l; [apply sub_await|]. done.
    - done. }
  exists s. destruct (cancelled_http_server_error s _ Hr Hs) as (asked & _ & Hne). done.
Defined.

(** * Routes *)

Lemma append_slash path : ends_in_slash (path +:+ "/") = true.
Proof.
  induction path as [|c path IH]; [done|].
  change (String c path +:+ "/")%string with (String c (path +:+ "/")). by destruct (path +:+ "/")%string.
Qed.

Lemma append_slash_status path : (path +:+ "/")%string ≠ "/status"%string.
Proof. intros E. pose proof (append_slash path) as Hs. by rewrite E in Hs. Qed.

(** Building the http servers never panics on a pattern registered twice,
    whatever the order Go iterates the maps in.  The peer port serves the status
    and nothing else, the client port neither the status nor the election, the
    info port both, and each port answers its health checks and metrics. *)
Theorem port_routes order :
  (∀ m, order m ≡ₚ map_to_list m) →
  ∃ client peer info,
    buildClientHttpServer order = Some client ∧ buildPeerHttpServer order = Some peer ∧
    buildMetricsHttpServer order = Some info ∧
    (∀ path, route peer path = if decide (path = "/status"%string) then Found revisionStatus else NotFound) ∧
    map (route client) ["/health"; "/metrics"; "/debug/pprof/heap"; "/debug/pprof"; "/status"; "/election"]%string =
      [Found httpHealth; Found metricsHandler; Found (pprofHandler "heap"); Redirect "/debug/pprof/"; NotFound; NotFound] ∧
    map (route info) ["/health"; "/metrics"; "/debug/pprof/x"; "/status"; "/election"]%string =
      [Found httpHealth; Found metricsHandler; Found (pprofHandler ""); Found revisionStatus; Found electionInfo].
Proof.
  intros Ho. do 3 eexists.
  split; [apply new_http_server; [done|]; apply (bool_decide_unpack _); by vm_compute|].
  split; [apply new_http_server; [done|]; apply (bool_decide_unpack _); by vm_compute|].
  split; [apply new_http_server; [done|]; apply (bool_decide_unpack _); by vm_compute|].
  split; [|split; by vm_compute].
  intros path. assert (list_to_map (flat_map map_to_list [GetPeerHttpHandlers]) =
    ({["/status"%string := revisionStatus]} : routes)) as -> by by vm_compute.
  pose proof (append_slash_status path) as Hs. unfold route, longest_match.
  rewrite !lookup_singleton, map_to_list_singleton. repeat case_decide; by try congruence.
Qed.

(** A node that begins to lead before its gRPC servers are built stays
    NOT_SERVING: [register] sets the status when it is called, and the election
    runs from [NewServer] on. *)
Theorem early_leader_not_serving {H} `{HealthSpec H} :
  let s := register (register (onStartedLeading NewServer)) in
  sv_leading s = true ∧ h_status (sv_health s) = NOT_SERVING.
Proof. cbv zeta. simpl. by rewrite h_status_set. Qed.
